(* ===== verification/_CoqProject ===== *)
-Q . S2P
Prelude.v
Text.v
Net.v
RateLimit.v
Database.v
PeerTable.v
PeerCache.v
Messages.v
Externals.v
Registration.v
Pending.v
HttpProxy.v
Server.v
Float64.v
FileSystem.v
Config.v
Listen.v
KeyStore.v
KeyRace.v
RelayStream.v
RelaySettings.v
RelayPairing.v
RelayPump.v
RelayServer.v
Handshake.v
RelayCheck.v
Console.v
Connections.v
Interleave.v
Tasks.v
TaskSafety.v
ConnectionTasks.v
IdentityStart.v
Utilities.v
