(* ===== verification/Prelude.v ===== *)
(** * Camellia Remote Server: a verification development

    The repository is a remote-desktop server in Rust.  Two long-running programs
    and one tool come out of it:

    - the identity (rendezvous) server, [src/main.rs] with
      [src/rendezvous_server.rs], [src/peer.rs], [src/database.rs]: devices
      register an identifier and a key, controllers ask for a device and are put
      through to it, by hole punching or by a relay; a proxy gives clients access
      to one API server;
    - the relay, [src/relay.rs] with [src/relay_server.rs]: two connections that
      present the same UUID are joined, and their traffic is forwarded under
      bandwidth limits;
    - the utilities, [src/utils.rs]: key pairs, a doctor and a health check.

    Both servers read their settings and keys with [src/common.rs] (paths are
    relative to [src/] of the repository).

    ** How the code is rendered

    Operations keep the name and the order of the source.  A function without
    state is a function; one with state is a computation of the monad [M S] below
    (the state [S] of the component, a [result] for [ResultType]), where an [await]
    does not interleave anything.  Where the interleaving matters, the critical
    sections are definitions of their own and a step relation or a list of events
    chosen by the environment composes them; the handlers of the identity server
    are also given as programs ([Prog] of [Interleave]), in which every access to
    the shared state is a section of its own.  Integers are [Z] with their width
    written out where the code can reach it, durations are nanoseconds, a string is
    its UTF-8 bytes, maps are [gmap]s, shared peers are locations of a heap.  The
    clock ([Clock]) is read once per [Instant::now()], and time may pass between
    any two readings.

    Code outside the repository is a type class whose fields are its functions and
    whose [...Laws] class is what the theorems use of it: the protocol library
    (its submodule is not part of the repository), crypto, SQLite, HTTP, URL and
    INI parsers, the random generator, sockets.  Every such class has an instance
    at low priority, on which the witnesses run.

    ** The files

    Foundations:
    - [Prelude]: results, the monad with its weakest preconditions, clocks, maps,
      the hint database [srv] and the tactics;
    - [Text], [Net], [Float64]: strings, addresses and [f64] of Rust's standard
      library;
    - [FileSystem]: files, descriptors, links and the environment, with failing
      calls and crashes; [read_bounded_regular_file] and its helpers (common.rs).

    Identity server, from the inside out:
    - [RateLimit] (peer.rs): the limiter [IP_BLOCKER] and the log [IP_CHANGES];
    - [Database] (database.rs): the table [peer] behind the interface [PeerStore];
      [PeerTable]: its schema, its rows and the SQL of the statements;
    - [PeerCache] (peer.rs): [PeerMap] over shared, lockable peers;
    - [Messages], [Externals]: the fields of messages, checks on identifiers, and
      the library functions the handlers call;
    - [Registration] (rendezvous_server.rs, as the rest): staging, persisting and
      rolling back a device's identity;
    - [Pending]: one-time tokens for the answers of devices;
    - [HttpProxy]: the API proxy;
    - [Server]: the handlers of every message over TCP, WebSocket and UDP;
    - [Handshake]: the key exchange; [RelayCheck]: which relays are handed out;
      [Console]: the loopback console;
    - [Connections]: listeners, connection tasks and the event loop over all of it;
    - [Interleave]: programs cut at their sections, pools of them, and a program
      logic with rely, guarantee and shares;
    - [Tasks]: the handlers of [Server], with the cache and the registration they
      call, as such programs; [TaskSafety]: what holds while they interleave;
    - [ConnectionTasks]: the tasks of connections, from permit to permit, as
      programs that call those of [Tasks];
    - [IdentityStart]: [main] and [start_with_bind], which end in the state
      [Connections] starts from, and the listeners and signals until its end.

    Settings and keys, of both servers:
    - [Config] (common.rs, main.rs, relay.rs): environment, files, command line;
    - [Listen] (common.rs): listening sockets and signals;
    - [KeyStore], [KeyRace] (common.rs): the key files, and any number of threads
      creating them at once.

    Relay (relay_server.rs):
    - [RelayStream]: connections as the relay sees them;
    - [RelaySettings]: settings, address lists and console;
    - [RelayPairing]: tasks of connections, pairing, permits and timers;
    - [RelayPump]: the loop that forwards, meters and downgrades;
    - [RelayServer]: [main], the listeners, and the whole relay over these parts.

    [Utilities] (utils.rs) is the tool.

    ** What the theorems show

    - Identities: a registration cannot take over the identity it finds under the
      peer's lock ([staging_protects_identity]), it happens whole or not at all
      ([register_pk_is_atomic]), and a peer admits three of them in seven seconds
      ([registration_rate_bound]).  Between any two critical sections of the
      handlers a cached peer that nobody is writing has the key of its row and,
      without management, its UUID, while its public key may be stale
      ([interleaved_peers_agree]; [stale_row_can_be_cached] shows that no more
      holds), and no stored identity is lost or handed over
      ([interleaved_identities_are_kept]).
    - The cache: a lookup yields the stored row ([get_implements_contract]), and
      eviction removes what is idle and unused ([evict_inactive_exact]).
    - Who may speak to whom: answers of devices need a live token issued for them
      ([rendezvous_answers_are_authentic], [rendezvous_tokens_are_one_shot]), what
      is sent reaches only the device or requester it is for and carries nothing
      the sender could forge ([relay_requests_are_sanitized],
      [punch_requests_reach_only_the_device],
      [hole_answers_reach_only_the_requester]), nobody is served before the key
      exchange and nothing else is sent in the clear
      ([key_exchange_guards_server], [nothing_leaves_in_the_clear]).
    - Composition: the connection layer keeps every invariant
      and bound ([front_invariant]), from the command line on
      ([identity_start_is_checked], [identity_serves_within_bounds]); a started
      server listens where it was told to until a signal ends it
      ([server_listens_until_signalled]; the relay's [relay_runs_until_signalled]).
    - Interleaving inside handlers and connections, section by section: the
      structure of the cache and all bounds are kept
      ([interleaved_handlers_keep_bounds]), a connection leaves no permit, no
      sink and no lock behind ([connections_leave_nothing_behind]), and no handler
      can hold up the others for ever ([tasks_always_drain]).  That the programs
      are the handlers and the events they were cut from
      ([tasks_run_as_handlers], [connection_runs_as_events]), and that
      [Connections] takes the server only through its message-level steps
      ([front_refines_service]), ties these models together; it says nothing about
      the code by itself.
    - Bounds: the limiter against a reference that never forgets
      ([limiter_refines_reference], [limiter_rate_bound]), the proxy
      ([proxy_request_is_confined], [proxy_response_is_bounded]).
    - Relay: only matching requests meet ([relay_pairs_matching_requests],
      [pairing_refines_waiting_room]), bytes arrive in order and are paid for
      ([relay_forwards_in_order], [relay_accounts_every_bit]), a downgrade is final
      ([relay_downgrade_is_final]), waiting and idle
      relays end ([waiting_stream_times_out], [idle_relay_times_out]).  The whole
      relay projects to these parts ([reachable] of [RelayServer]), so that their
      theorems hold from the command line on ([relay_joins_and_forwards],
      [relay_serves_within_bounds], [blocked_relay_ends]).  Its settings stay in
      range between any two accesses of its consoles' commands; that the limit
      speed stays below the single bandwidth holds only while no two commands
      overlap ([relay_state_stays_wellformed], [concurrent_limits_can_cross]), and
      a starting relay can load a pair that never was in force
      ([loads_can_cross]).
    - Keys and settings: all threads end up with one key
      ([keypair_creation_agrees]); a crash cannot tear it, nor lose one that its
      creator has returned ([key_file_survives_crash]); the
      precedence of settings ([settings_precedence]); the database is what its
      statements do to the declared table ([database_refines_table]).

    Some theorems show behaviour the code should not have; their comments say so
    ([stale_check_outlives_configuration], [get_or_can_shadow_stored_identity],
    [mapped_client_escapes_lists], [relay_sockets_can_exceed_limit],
    [concurrent_limits_can_cross], [tiny_bandwidth_is_zero],
    [loads_can_cross], [restart_splits_bandwidth], [stale_row_can_be_cached]).

    ** Fuel and bounds

    Three loops of the source draw random values until one fits.  The token loop
    of [Pending] gets one unit more than there are pending tokens, enough when the
    draws differ ([reserve_terminates]); the key loop of [KeyStore] takes its fuel
    as an argument and ends with the first compatible pair
    ([key_generation_terminates]), and so does the start of both servers, which
    may draw a key.  Every other loop is structural on the data it consumes.
    Event loops are runs over a finite list of events; the theorems hold for all
    of them.

    ** Not modelled

    The protocol crate; logging; the parsing of the command line (clap) from the
    options [Config] declares; SQLite itself and the pool of its connections; the
    versions of [src/lib.rs].  Within [Connections] an event of one
    connection is atomic; what survives the interleaving inside handlers and
    connections is the subject of [TaskSafety] and [ConnectionTasks], where handles
    and locks on peers come and go as the environment likes and a command of the
    identity server's console, which takes one lock, is one step.  A claim about
    every interleaving is one about these sections: what the code does between two
    awaits or two accesses to an atomic is not cut further.  The relay's handlers
    are cut at their sections in [RelayPairing], its console commands and the
    beginning of a relay at their accesses in [RelayServer]; a round of its loop is
    one step there, while [RelayPump] lets every round read what the environment
    likes. *)

From Stdlib Require Import ZArith Lia.
From stdpp Require Export base gmap strings list fin_maps fin_sets sets numbers.
#[global] Open Scope Z_scope.

(** ** Results *)

(** [ResultType<A>]: a value, or the text of the error.  Where the source
    attaches context to an error, the model keeps the outermost context, which
    is what the source logs. *)
Inductive result (A : Type) : Type :=
  | Ok (a : A)
  | Err (e : string).
Arguments Ok {A} _.
Arguments Err {A} _.

#[export] Instance result_eq_dec `{EqDecision A} : EqDecision (result A).
Proof. solve_decision. Defined.

#[export] Instance result_ret : MRet result := λ A a, Ok a.
#[export] Instance result_bind : MBind result := λ A B f m,
  match m with Ok a => f a | Err e => Err e end.

(** [Option::ok_or] / [with_context] on an option. *)
Definition ok_or {A} (o : option A) (e : string) : result A :=
  match o with Some a => Ok a | None => Err e end.
(** [Result::with_context]: the error text is replaced by the context. *)
Definition with_context {A} (r : result A) (e : string) : result A :=
  match r with Ok a => Ok a | Err _ => Err e end.
Definition result_ok {A} (r : result A) : option A :=
  match r with Ok a => Some a | Err _ => None end.
Definition is_ok {A} (r : result A) : bool :=
  match r with Ok _ => true | Err _ => false end.

(** ** Bytes, lengths and machine integers *)

(** A byte string ([Bytes], [Vec<u8>], [&[u8]]): each element is a byte. *)
Abbreviation bytes := (list Z).

Definition byte_ok (b : Z) : bool := (0 <=? b) && (b <? 256).
Definition len {A} (l : list A) : Z := Z.of_nat (length l).
Definition slen (s : string) : Z := Z.of_nat (String.length s).
Definition mlen {K V} `{Countable K} (m : gmap K V) : Z := Z.of_nat (size m).
Definition is_empty {A} (l : list A) : bool :=
  match l with [] => true | _ => false end.
Definition str_empty (s : string) : bool :=
  match s with EmptyString => true | _ => false end.

Definition u32_max : Z := 2 ^ 32 - 1.
Definition usize_max : Z := 2 ^ 64 - 1.
Definition i32_max : Z := 2 ^ 31 - 1.
(** [u32] addition wraps (release profile); the development proves that the
    counters it is used on never reach the bound. *)
Definition u32_add (a b : Z) : Z := (a + b) mod 2 ^ 32.
(** [i32::saturating_add] for a non-negative increment. *)
Definition i32_saturating_add (a b : Z) : Z := Z.min i32_max (a + b).
(** [usize::checked_add] and [usize::checked_mul]. *)
Definition usize_checked_add (a b : Z) : option Z :=
  if a + b <=? usize_max then Some (a + b) else None.
Definition usize_checked_mul (a b : Z) : option Z :=
  if a * b <=? usize_max then Some (a * b) else None.

(** *** Results, taken apart *)

Lemma result_bind_ok {A B} (f : A → result B) (m : result A) b :
  m ≫= f = Ok b → ∃ a, m = Ok a ∧ f a = Ok b.
Proof. destruct m; [eauto|done]. Qed.
Lemma ok_or_ok {A} (o : option A) e a : ok_or o e = Ok a → o = Some a.
Proof. destruct o; simpl; congruence. Qed.

(** ** Time *)

(** [Instant]: nanoseconds on the monotonic clock.  [Duration]: nanoseconds. *)
Abbreviation Instant := Z (only parsing).
Definition nanos_per_sec : Z := 1000000000.
Definition from_secs (s : Z) : Z := s * nanos_per_sec.
Definition from_millis (s : Z) : Z := s * 1000000.
(** [Instant::saturating_duration_since], which [elapsed] is too. *)
Definition duration_since (now t : Instant) : Z := Z.max 0 (now - t).
Definition as_secs (d : Z) : Z := d / nanos_per_sec.
Definition as_millis (d : Z) : Z := d / 1000000.

(** The clock of a task: the last reading, and how far the clock moves before
    each later reading (a missing entry means it does not move).  The steps are
    natural numbers, so successive readings never decrease. *)
Record Clock := mkClock { ck_now : Instant; ck_ticks : list N }.

Definition clock_read (c : Clock) : Instant * Clock :=
  match ck_ticks c with
  | [] => (ck_now c, c)
  | t :: ts => let now := ck_now c + Z.of_N t in (now, mkClock now ts)
  end.

(** ** Stateful code *)

(** A computation over a state [S] that can fail with an error; the changes it
    made before it failed stay made, as they do in the source. *)
Definition M (S A : Type) : Type := S → result A * S.

#[export] Instance M_ret {S} : MRet (M S) := λ A a s, (Ok a, s).
#[export] Instance M_bind {S} : MBind (M S) := λ A B f m s,
  match m s with
  | (Ok a, s') => f a s'
  | (Err e, s') => (Err e, s')
  end.

Section Effects.
Context {S T A : Type}.

Definition bail (e : string) : M S A := λ s, (Err e, s).
Definition lift (r : result A) : M S A := λ s, (r, s).
Definition gets (f : S → A) : M S A := λ s, (Ok (f s), s).
Definition modify (f : S → S) : M S unit := λ s, (Ok tt, f s).
(** Run a function that returns a value and the new state. *)
Definition state (f : S → A * S) : M S A := λ s,
  let '(a, s') := f s in (Ok a, s').
(** [match m { Ok(..) => .., Err(..) => .. }]: the outcome as a value. *)
Definition attempt (m : M S A) : M S (result A) := λ s,
  let '(r, s') := m s in (Ok r, s').
(** Run a component's computation on the part [view s] of the state. *)
Definition zoom (view : S → T) (update : T → S → S) (m : M T A) : M S A := λ s,
  let '(r, t) := m (view s) in (r, update t s).

(** Weakest precondition: [m] run in [s] ends in an outcome and a state that
    satisfy [Q].  Computations are total functions, so it is also total
    correctness. *)
Definition wp (m : M S A) (Q : result A → S → Prop) (s : S) : Prop :=
  Q (m s).1 (m s).2.
End Effects.

(** States that carry a clock. *)
Class HasClock (S : Type) := {
  clock_of : S → Clock;
  with_clock : Clock → S → S;
  clock_with_clock : ∀ c s, clock_of (with_clock c s) = c
}.

(** [Instant::now()]: a reading of the monotonic clock. *)
Definition instant_now {S} `{!HasClock S} : M S Instant := λ s,
  let '(t, c) := clock_read (clock_of s) in (Ok t, with_clock c s).

(** ** Automation *)

Create HintDb srv.
Create Rewrite HintDb srv.
#[export] Hint Unfold len slen mlen from_secs nanos_per_sec duration_since
  as_secs as_millis : srv.

(** Turn boolean tests of the code in the hypotheses into propositions. *)
Ltac reflect_bools :=
  repeat match goal with
  | H : (_ && _)%bool = true |- _ => apply andb_true_iff in H; destruct H
  | H : (_ || _)%bool = false |- _ => apply orb_false_iff in H; destruct H
  | H : (_ && _)%bool = false |- _ => apply andb_false_iff in H
  | H : (_ || _)%bool = true |- _ => apply orb_true_iff in H
  | H : negb _ = true |- _ => apply negb_true_iff in H
  | H : negb _ = false |- _ => apply negb_false_iff in H
  | H : (_ <=? _) = true |- _ => apply Z.leb_le in H
  | H : (_ <=? _) = false |- _ => apply Z.leb_gt in H
  | H : (_ <? _) = true |- _ => apply Z.ltb_lt in H
  | H : (_ <? _) = false |- _ => apply Z.ltb_ge in H
  | H : (_ >=? _) = true |- _ => rewrite Z.geb_leb in H; apply Z.leb_le in H
  | H : (_ >=? _) = false |- _ => rewrite Z.geb_leb in H; apply Z.leb_gt in H
  | H : (_ >? _) = true |- _ => rewrite Z.gtb_ltb in H; apply Z.ltb_lt in H
  | H : (_ >? _) = false |- _ => rewrite Z.gtb_ltb in H; apply Z.ltb_ge in H
  | H : (_ =? _) = true |- _ => apply Z.eqb_eq in H
  | H : (_ =? _) = false |- _ => apply Z.eqb_neq in H
  | H : bool_decide _ = true |- _ => apply bool_decide_eq_true in H
  | H : bool_decide _ = false |- _ => apply bool_decide_eq_false in H
  end.

(** Case analysis on the tests and matches of a definition under study. *)
Ltac case_code :=
  repeat (case_match || case_decide); simplify_eq/=; reflect_bools.

(** Linear arithmetic over the development's lengths and durations. *)
Ltac arith := autounfold with srv in *; lia.

(** ** Lemmas shared by the components *)

Section Wp.
Context {S T A B : Type}.
Implicit Types (s : S).

Lemma wp_ret (a : A) Q s : Q (Ok a) s → wp (mret a) Q s.
Proof. done. Qed.

Lemma wp_bind (m : M S A) (f : A → M S B) Q s :
  wp m (λ r s', match r with Ok a => wp (f a) Q s' | Err e => Q (Err e) s' end) s →
  wp (m ≫= f) Q s.
Proof. unfold wp, mbind, M_bind. by destruct (m s) as [[a|e] s']. Qed.

Lemma wp_bail e (Q : result A → S → Prop) s : Q (Err e) s → wp (bail e) Q s.
Proof. done. Qed.

Lemma wp_lift (r : result A) Q s : Q r s → wp (lift r) Q s.
Proof. done. Qed.

Lemma wp_gets (f : S → A) Q s : Q (Ok (f s)) s → wp (gets f) Q s.
Proof. done. Qed.

Lemma wp_modify (f : S → S) Q s : Q (Ok tt) (f s) → wp (modify f) Q s.
Proof. done. Qed.

Lemma wp_state (f : S → A * S) Q s : Q (Ok (f s).1) (f s).2 → wp (state f) Q s.
Proof. unfold wp, state. by destruct (f s). Qed.

Lemma wp_attempt (m : M S A) Q s :
  wp m (λ r s', Q (Ok r) s') s → wp (attempt m) Q s.
Proof. unfold wp, attempt. by destruct (m s). Qed.

Lemma wp_zoom (view : S → T) (update : T → S → S) (m : M T A) Q s :
  wp m (λ r t, Q r (update t s)) (view s) → wp (zoom view update m) Q s.
Proof. unfold wp, zoom. by destruct (m (view s)). Qed.

Lemma wp_mono (m : M S A) (P Q : result A → S → Prop) s :
  (∀ r s', P r s' → Q r s') → wp m P s → wp m Q s.
Proof. unfold wp. auto. Qed.

Lemma wp_run (m : M S A) Q s r s' : wp m Q s → m s = (r, s') → Q r s'.
Proof. unfold wp. intros HQ E. by rewrite E in HQ. Qed.

Lemma wp_intro (m : M S A) Q s :
  (∀ r s', m s = (r, s') → Q r s') → wp m Q s.
Proof. unfold wp. intros HQ. destruct (m s) as [r s'] eqn:E. by apply HQ. Qed.
End Wp.

Lemma wp_instant_now {S} `{!HasClock S} Q (s : S) :
  (∀ t c, clock_read (clock_of s) = (t, c) → ck_now (clock_of s) ≤ t →
          ck_now c = t → Q (Ok t) (with_clock c s)) →
  wp instant_now Q s.
Proof.
  unfold wp, instant_now, clock_read. intros HQ.
  destruct (clock_of s) as [now [|t ts]]; simpl; apply HQ; simpl; auto; lia.
Qed.

(** Proper instances: [wp] is monotone in its postcondition. *)
#[export] Instance wp_proper {S A} (m : M S A) :
  Proper (pointwise_relation _ (pointwise_relation _ impl) ==> eq ==> impl) (wp m).
Proof. intros P Q HPQ s ? <- HP. by apply HPQ. Qed.

(** One step of symbolic execution of a computation. *)
Ltac wp_step :=
  lazymatch goal with
  | |- wp (mbind _ _) _ _ => apply wp_bind
  | |- wp (mret _) _ _ => apply wp_ret
  | |- wp (bail _) _ _ => apply wp_bail
  | |- wp (lift _) _ _ => apply wp_lift
  | |- wp (gets _) _ _ => apply wp_gets
  | |- wp (modify _) _ _ => apply wp_modify
  | |- wp (state _) _ _ => apply wp_state
  | |- wp (attempt _) _ _ => apply wp_attempt
  | |- wp (zoom _ _ _) _ _ => apply wp_zoom
  | |- wp instant_now _ _ => apply wp_instant_now; intros
  end; cbn beta iota.
Ltac wp_steps := repeat wp_step.

Section Maps.
Context {K V : Type} `{Countable K}.
Implicit Types m : gmap K V.

Lemma mlen_nonneg m : 0 ≤ mlen m.
Proof. unfold mlen. lia. Qed.

Lemma mlen_empty : mlen (∅ : gmap K V) = 0.
Proof. reflexivity. Qed.

Lemma mlen_insert_new m k v : m !! k = None → mlen (<[k:=v]> m) = mlen m + 1.
Proof. intros Hk. unfold mlen. rewrite map_size_insert_None by done. lia. Qed.

Lemma mlen_insert_old m k v : is_Some (m !! k) → mlen (<[k:=v]> m) = mlen m.
Proof. intros Hk. unfold mlen. by rewrite map_size_insert_Some. Qed.

Lemma mlen_insert_le m k v : mlen (<[k:=v]> m) ≤ mlen m + 1.
Proof.
  destruct (m !! k) eqn:Hk; [rewrite mlen_insert_old by eauto|rewrite mlen_insert_new by done]; lia.
Qed.

Lemma mlen_delete_le m k : mlen (delete k m) ≤ mlen m.
Proof.
  unfold mlen. destruct (m !! k) eqn:Hk.
  - rewrite map_size_delete_Some by eauto. lia.
  - rewrite delete_id by done. lia.
Qed.

Lemma mlen_subseteq m m' : m ⊆ m' → mlen m ≤ mlen m'.
Proof.
  intros Hsub. unfold mlen. apply Nat2Z.inj_le.
  rewrite <-!size_dom. apply subseteq_size. by apply subseteq_dom.
Qed.

(** [HashMap::retain] keeps a submap. *)
Lemma mlen_filter_le (P : K * V → Prop) `{!∀ x, Decision (P x)} m :
  mlen (filter P m) ≤ mlen m.
Proof. apply mlen_subseteq, map_filter_subseteq. Qed.

Lemma filter_lookup_keep (P : K * V → Prop) `{!∀ x, Decision (P x)} m k v :
  m !! k = Some v → P (k, v) → filter P m !! k = Some v.
Proof. intros. by apply map_lookup_filter_Some_2. Qed.
End Maps.
#[export] Hint Resolve mlen_nonneg mlen_delete_le mlen_filter_le : srv.

Lemma gset_size_insert_le `{Countable A} (x : A) (X : gset A) :
  Z.of_nat (size ({[x]} ∪ X)) ≤ Z.of_nat (size X) + 1.
Proof.
  destruct (decide (x ∈ X)) as [Hx|Hx].
  - rewrite subseteq_union_1_L by set_solver. lia.
  - rewrite size_union, size_singleton by set_solver. lia.
Qed.

(** A duplicate-free list with one element. *)
Lemma list_singleton_from_nodup {A} (l : list A) (x : A) :
  NoDup l → (∀ y, y ∈ l ↔ y = x) → l = [x].
Proof.
  intros Hnd Hx. destruct l as [|a l].
  { exfalso. by apply (not_elem_of_nil x), Hx. }
  assert (a = x) as -> by (apply Hx; by left).
  destruct l as [|b l]; [done|]. assert (b = x) as -> by (apply Hx; right; by left).
  inversion Hnd as [|?? Hn]; subst. destruct Hn. by left.
Qed.

(** Durations. *)
Lemma duration_since_mono now now' t :
  now ≤ now' → duration_since now t ≤ duration_since now' t.
Proof. unfold duration_since. lia. Qed.

Lemma as_secs_ge d n : n ≤ as_secs d ↔ from_secs n ≤ d.
Proof.
  unfold as_secs, from_secs, nanos_per_sec. split; intros Hle.
  - pose proof (Z.mul_div_le d 1000000000). lia.
  - apply Z.div_le_lower_bound; lia.
Qed.

Lemma as_millis_ge d n : n ≤ as_millis d ↔ from_millis n ≤ d.
Proof.
  unfold as_millis, from_millis. split; intros Hle.
  - pose proof (Z.mul_div_le d 1000000). lia.
  - apply Z.div_le_lower_bound; lia.
Qed.

Lemma clock_read_mono c t c' :
  clock_read c = (t, c') → ck_now c ≤ t ∧ ck_now c' = t.
Proof.
  unfold clock_read. destruct c as [now [|n ts]]; simpl; intros; simplify_eq/=; lia.
Qed.

(** ** [HashMap::retain] with a clock reading per entry *)

Section Retain.
Context {S K V : Type} `{!HasClock S} `{Countable K}.
Implicit Types m : gmap K V.

Fixpoint retain_entries (keep : Instant → V → bool) (l : list (K * V)) : M S (gmap K V) :=
  match l with
  | [] => mret ∅
  | (k, v) :: l =>
      now ← instant_now;
      m ← retain_entries keep l;
      mret (if keep now v then <[k := v]> m else m)
  end.

Definition retain_now (keep : Instant → V → bool) (m : gmap K V) : M S (gmap K V) :=
  retain_entries keep (map_to_list m).

(** What [retain] keeps, for a test that can only turn false as time passes. *)
Definition retained (keep : Instant → V → bool) (t t' : Instant) m m' : Prop :=
  m' ⊆ m ∧ ∀ k v, m !! k = Some v →
    (keep t' v = true → m' !! k = Some v) ∧ (m' !! k = Some v → keep t v = true).
End Retain.

Section RetainLemmas.
Context {S K V : Type} `{!HasClock S} `{Countable K}.
Context (keep : Instant → V → bool).
Hypothesis keep_antitone : ∀ t t' v, t ≤ t' → keep t' v = true → keep t v = true.
Hypothesis with_clock_twice : ∀ c c' (s : S), with_clock c (with_clock c' s) = with_clock c s.
Hypothesis with_clock_same : ∀ s : S, with_clock (clock_of s) s = s.

Lemma wp_retain_entries (l : list (K * V)) s (Q : result (gmap K V) → S → Prop) :
  NoDup l.*1 →
  (∀ m' c, ck_now (clock_of s) ≤ ck_now c →
     retained keep (ck_now (clock_of s)) (ck_now c) (list_to_map l) m' →
     Q (Ok m') (with_clock c s)) →
  wp (retain_entries keep l) Q s.
Proof.
  revert s Q. induction l as [|[k v] l IH]; intros s Q Hnd HQ; simpl.
  { apply wp_ret. rewrite <-(with_clock_same s). apply HQ; [lia|]. split; [done|].
    intros ??. by rewrite lookup_empty. }
  simpl in Hnd. apply list.NoDup_cons in Hnd as [Hk Hnd].
  apply wp_bind, wp_instant_now. intros t c _ Ht Hc.
  apply wp_bind, IH; [done|]. intros m' c' Hc' [Hsub Hkeep].
  rewrite clock_with_clock in Hc', Hkeep. rewrite with_clock_twice.
  assert (list_to_map l !! k = (None : option V)) as Hnone by (by apply not_elem_of_list_to_map_1).
  assert (m' !! k = None) as Hm'.
  { destruct (m' !! k) eqn:E; [|done]. pose proof (lookup_weaken _ _ _ _ E Hsub). congruence. }
  apply wp_ret, HQ; [lia|]. split.
  - simpl. destruct (keep t v); [by apply insert_mono|]. by apply insert_subseteq_r.
  - simpl. intros k' v' [[<- <-]|[Hne Hl]]%lookup_insert_Some.
    + split.
      * intros Hkt. rewrite (keep_antitone t (ck_now c') v) by (done || lia). by rewrite lookup_insert_eq.
      * destruct (keep t v) eqn:Hkt; [|congruence]. intros _. by eapply keep_antitone.
    + assert ((if keep t v then <[k:=v]> m' else m') !! k' = m' !! k') as ->
        by (destruct (keep t v); [by rewrite lookup_insert_ne|done]).
      destruct (Hkeep k' v' Hl) as [H1 H2]. split; [done|]. intros Hin%H2.
      eapply keep_antitone; [|exact Hin]. lia.
Qed.

Lemma wp_retain_now (m : gmap K V) s (Q : result (gmap K V) → S → Prop) :
  (∀ m' c, ck_now (clock_of s) ≤ ck_now c →
     retained keep (ck_now (clock_of s)) (ck_now c) m m' → Q (Ok m') (with_clock c s)) →
  wp (retain_now keep m) Q s.
Proof.
  intros HQ. apply wp_retain_entries; [apply NoDup_fst_map_to_list|].
  intros m' c. rewrite list_to_map_to_list. apply HQ.
Qed.
End RetainLemmas.
