(* ===== verification/Text.v ===== *)
(** Rust strings and integers as the source uses them: [str] as its UTF-8
    bytes, with [trim], the ASCII case functions, [split], substring tests,
    decimal parsing and printing.  These are functions of the language's
    standard library, written out so that the components compute on concrete
    text. *)

From Stdlib Require Import Ascii String.
From stdpp Require Import pretty.
From S2P Require Import Prelude.

(** ** Bytes of a string *)

Definition code (a : ascii) : Z := Z.of_N (N_of_ascii a).
Definition chr (z : Z) : ascii := ascii_of_N (Z.to_N z).
Definition codes (s : string) : bytes := code <$> list_ascii_of_string s.
Definition of_codes (l : bytes) : string := string_of_list_ascii (chr <$> l).

(** The length of the white-space character a byte sequence starts with, 0 when
    it starts with none: Unicode [White_Space] in UTF-8. *)
Definition ws_len (l : bytes) : nat :=
  match l with
  | b :: r =>
      if ((9 <=? b) && (b <=? 13)) || (b =? 32) then 1%nat else
      match r with
      | c :: r =>
          if (b =? 194) && ((c =? 133) || (c =? 160)) then 2%nat else
          match r with
          | d :: _ =>
              if ((b =? 225) && (c =? 154) && (d =? 128))
              || ((b =? 226) && (c =? 128)
                  && (((128 <=? d) && (d <=? 138)) || (d =? 168) || (d =? 169) || (d =? 175)))
              || ((b =? 226) && (c =? 129) && (d =? 159))
              || ((b =? 227) && (c =? 128) && (d =? 128))
              then 3%nat else 0%nat
          | [] => 0%nat
          end
      | [] => 0%nat
      end
  | [] => 0%nat
  end.

(** The same for a sequence read backwards. *)
Definition ws_len_rev (l : bytes) : nat :=
  match l with
  | b :: r =>
      if negb (Nat.eqb (ws_len [b]) 0) then 1%nat else
      match r with
      | c :: r =>
          if negb (Nat.eqb (ws_len [c; b]) 0) && (128 <=? b) then 2%nat else
          match r with
          | d :: _ => if Nat.eqb (ws_len [d; c; b]) 3 then 3%nat else 0%nat
          | [] => 0%nat
          end
      | [] => 0%nat
      end
  | [] => 0%nat
  end.

(** Drop [k] bytes, then every leading character [measure] recognises. *)
Fixpoint drop_leading (measure : bytes → nat) (k : nat) (l : bytes) : bytes :=
  match l with
  | [] => []
  | _ :: l' =>
      match k with
      | S k => drop_leading measure k l'
      | O => match measure l with O => l | S k => drop_leading measure k l' end
      end
  end.

(** [str::trim]. *)
Definition trim_codes (l : bytes) : bytes :=
  reverse (drop_leading ws_len_rev 0 (reverse (drop_leading ws_len 0 l))).
Definition trim (s : string) : string := of_codes (trim_codes (codes s)).

(** [char::is_control] and [char::is_whitespace] on some character. *)
Fixpoint any_control (l : bytes) : bool :=
  match l with
  | [] => false
  | b :: l' =>
      (b <? 32) || (b =? 127)
      || ((b =? 194) && match l' with c :: _ => (128 <=? c) && (c <=? 159) | [] => false end)
      || any_control l'
  end.
Definition has_control (s : string) : bool := any_control (codes s).
Fixpoint any_whitespace (l : bytes) : bool :=
  match l with
  | [] => false
  | _ :: l' => negb (Nat.eqb (ws_len l) 0) || any_whitespace l'
  end.
Definition has_whitespace (s : string) : bool := any_whitespace (codes s).

(** ** ASCII case *)

Definition ascii_upper (a : ascii) : ascii :=
  let z := code a in if (97 <=? z) && (z <=? 122) then chr (z - 32) else a.
Definition ascii_lower (a : ascii) : ascii :=
  let z := code a in if (65 <=? z) && (z <=? 90) then chr (z + 32) else a.
Fixpoint string_map (f : ascii → ascii) (s : string) : string :=
  match s with EmptyString => EmptyString | String a s => String (f a) (string_map f s) end.
Definition to_ascii_uppercase : string → string := string_map ascii_upper.
Definition to_ascii_lowercase : string → string := string_map ascii_lower.
Definition eq_ignore_ascii_case (s t : string) : bool :=
  bool_decide (to_ascii_lowercase s = to_ascii_lowercase t).
(** [str::replace] of one character by another. *)
Definition replace_char (a b : ascii) : string → string :=
  string_map (λ c, if Ascii.eqb c a then b else c).

(** [u8::is_ascii_alphanumeric]. *)
Definition is_alphanumeric (b : Z) : bool :=
  ((48 <=? b) && (b <=? 57)) || ((65 <=? b) && (b <=? 90)) || ((97 <=? b) && (b <=? 122)).

(** ** Searching and splitting *)

Definition starts_with (p s : string) : bool := String.prefix p s.
Fixpoint ends_with (p s : string) : bool :=
  bool_decide (s = p) || match s with EmptyString => false | String _ s => ends_with p s end.
Fixpoint str_contains (p s : string) : bool :=
  String.prefix p s || match s with EmptyString => false | String _ s => str_contains p s end.
Fixpoint contains_char (a : ascii) (s : string) : bool :=
  match s with EmptyString => false | String b s => Ascii.eqb b a || contains_char a s end.

(** [str::split(c)]: the pieces between the separators, never none. *)
Fixpoint split_char (sep : ascii) (s : string) : list string :=
  match s with
  | EmptyString => [EmptyString]
  | String a s =>
      if Ascii.eqb a sep then EmptyString :: split_char sep s
      else match split_char sep s with
           | [] => [String a EmptyString]
           | p :: ps => String a p :: ps
           end
  end.
(** The inverse: join pieces with the separator. *)
Fixpoint join_char (sep : ascii) (ps : list string) : string :=
  match ps with
  | [] => EmptyString
  | [p] => p
  | p :: ps => p +:+ String sep (join_char sep ps)
  end.

(** The part of [s] before the first [sep]: [split_once(sep)], with the whole
    string when there is none. *)
Fixpoint before_char (sep : ascii) (s : string) : string :=
  match s with
  | EmptyString => EmptyString
  | String a s => if Ascii.eqb a sep then EmptyString else String a (before_char sep s)
  end.

(** [trim_end_matches(c)]. *)
Fixpoint trim_end_char (c : ascii) (s : string) : string :=
  match s with
  | EmptyString => EmptyString
  | String a s =>
      match trim_end_char c s with
      | EmptyString => if Ascii.eqb a c then EmptyString else String a EmptyString
      | s' => String a s'
      end
  end.

(** [str::lines]: split at newlines, without a final empty line and without
    the carriage return before a newline. *)
Definition strip_cr (s : string) : string :=
  match reverse (codes s) with 13 :: r => of_codes (reverse r) | _ => s end.
Definition lines (s : string) : list string :=
  let ps := split_char (chr 10) s in
  let strip_last :=
    match reverse ps with
    | EmptyString :: r => reverse (strip_cr <$> r)
    | last :: r => reverse (last :: (strip_cr <$> r))
    | [] => []
    end in
  strip_last.

(** [split_whitespace().next()]: the first word, empty when there is none. *)
Fixpoint word_codes (l : bytes) : bytes :=
  match l with
  | [] => []
  | b :: l' => match ws_len l with O => b :: word_codes l' | S _ => [] end
  end.
Definition first_word (s : string) : string :=
  of_codes (word_codes (drop_leading ws_len 0 (codes s))).

(** ** Integers *)

Definition digit_val (radix : Z) (b : Z) : option Z :=
  let v := if (48 <=? b) && (b <=? 57) then b - 48
           else if (97 <=? b) && (b <=? 122) then b - 87
           else if (65 <=? b) && (b <=? 90) then b - 55 else 99 in
  if v <? radix then Some v else None.

(** Decimal digits to a number, refused past [max]. *)
Fixpoint parse_digits (max acc : Z) (l : bytes) : option Z :=
  match l with
  | [] => Some acc
  | b :: l =>
      match digit_val 10 b with
      | None => None
      | Some d => let acc := acc * 10 + d in
                  if acc <=? max then parse_digits max acc l else None
      end
  end.
(** [str::parse] for an unsigned type: an optional [+], then digits. *)
Definition parse_unsigned (max : Z) (s : string) : option Z :=
  match codes s with
  | [] => None
  | b :: l =>
      if b =? 43 then if is_empty l then None else parse_digits max 0 l
      else parse_digits max 0 (b :: l)
  end.
Definition parse_usize : string → option Z := parse_unsigned usize_max.
Definition parse_u16 : string → option Z := parse_unsigned 65535.
(** [str::parse::<i32>]. *)
Definition parse_i32 (s : string) : option Z :=
  match codes s with
  | [] => None
  | b :: l =>
      if b =? 45 then
        if is_empty l then None else Z.opp <$> parse_digits (i32_max + 1) 0 l
      else parse_unsigned i32_max s
  end.

(** [to_string] of a non-negative integer. *)
Definition show (z : Z) : string := pretty z.

(** [str::from_utf8]: well-formed UTF-8 (Unicode table 3-7). *)
Definition cont (lo hi b : Z) : bool := (lo <=? b) && (b <=? hi).
Fixpoint is_utf8 (l : bytes) : bool :=
  match l with
  | [] => true
  | b0 :: l1 =>
      if cont 0 127 b0 then is_utf8 l1 else
      match l1 with
      | [] => false
      | b1 :: l2 =>
          if cont 194 223 b0 then cont 128 191 b1 && is_utf8 l2 else
          match l2 with
          | [] => false
          | b2 :: l3 =>
              if cont 224 239 b0 then
                cont (if b0 =? 224 then 160 else 128) (if b0 =? 237 then 159 else 191) b1
                && cont 128 191 b2 && is_utf8 l3
              else
                match l3 with
                | [] => false
                | b3 :: l4 =>
                    cont 240 244 b0
                    && cont (if b0 =? 240 then 144 else 128) (if b0 =? 244 then 143 else 191) b1
                    && cont 128 191 b2 && cont 128 191 b3 && is_utf8 l4
                end
          end
      end
  end.
Definition utf8_of (l : bytes) : option string := if is_utf8 l then Some (of_codes l) else None.

(** A newline, and [writeln!]. *)
Definition newline : string := of_codes [10].
Definition line (s : string) : string := s +:+ newline.
(** Lines of output; one of several names of a console command. *)
Definition unlines (ls : list string) : string := foldr (λ l s, line l +:+ s) "" ls.
Definition is_cmd (names : list string) (c : string) : bool := existsb (λ x, bool_decide (c = x)) names.
Definition show_bool (b : bool) : string := if b then "true" else "false".

(** [str::parse::<usize>] with the text of its error. *)
Fixpoint parse_digits_text (max acc : Z) (l : bytes) : result Z :=
  match l with
  | [] => Ok acc
  | b :: l =>
      match digit_val 10 b with
      | None => Err "invalid digit found in string"
      | Some d => let acc := acc * 10 + d in
                  if acc <=? max then parse_digits_text max acc l
                  else Err "number too large to fit in target type"
      end
  end.
Definition parse_usize_text (s : string) : result Z :=
  match codes s with
  | [] => Err "cannot parse integer from empty string"
  | b :: l =>
      if b =? 43
      then if is_empty l then Err "invalid digit found in string" else parse_digits_text usize_max 0 l
      else parse_digits_text usize_max 0 (b :: l)
  end.

(** ** Checks on concrete text *)

Example trim_ascii : trim " a b
" = "a b". Proof. by vm_compute. Qed.
Example trim_unicode : codes (trim (of_codes [194; 160; 120; 226; 128; 131])) = [120].
Proof. by vm_compute. Qed.
Example split_two : split_char "," "a,,b" = ["a"; ""; "b"]. Proof. reflexivity. Qed.
Example split_empty : split_char "," "" = [""]. Proof. reflexivity. Qed.
Example usize_ok : parse_usize "+4096" = Some 4096. Proof. reflexivity. Qed.
Example usize_big : parse_usize "18446744073709551616" = None. Proof. reflexivity. Qed.
Example usize_neg : parse_usize "-1" = None. Proof. reflexivity. Qed.
Example i32_neg : parse_i32 "-2147483648" = Some (-2147483648). Proof. reflexivity. Qed.
Example lines_ex : lines ("a" +:+ of_codes [13; 10] +:+ "b" +:+ of_codes [10]) = ["a"; "b"].
Proof. reflexivity. Qed.
Example word_ex : first_word "  192.0.2.1 note" = "192.0.2.1". Proof. reflexivity. Qed.
Example ends_ex : ends_with ".invalid" "relay.invalid" = true. Proof. reflexivity. Qed.
Example upper_ex : to_ascii_uppercase "config-Alias" = "CONFIG-ALIAS". Proof. reflexivity. Qed.
Example trim_end_ex : trim_end_char "." "host.." = "host". Proof. reflexivity. Qed.

(** ** Lemmas *)

Lemma slen_nonneg s : 0 ≤ slen s.
Proof. unfold slen. lia. Qed.
Lemma len_nonneg {A} (l : list A) : 0 ≤ len l.
Proof. unfold len. lia. Qed.
#[export] Hint Resolve slen_nonneg len_nonneg : srv.

Lemma code_chr z : 0 ≤ z < 256 → code (chr z) = z.
Proof.
  intros. unfold code, chr. rewrite N_ascii_embedding; [lia|]. apply N2Z.inj_lt. rewrite Z2N.id; lia.
Qed.

Lemma chr_code a : chr (code a) = a.
Proof. unfold code, chr. rewrite N2Z.id. apply ascii_N_embedding. Qed.

Lemma code_bound a : 0 ≤ code a < 256.
Proof. unfold code. pose proof (N_ascii_bounded a). lia. Qed.

Lemma codes_of_codes l : Forall (λ b, 0 ≤ b < 256) l → codes (of_codes l) = l.
Proof.
  intros Hl. unfold codes, of_codes. rewrite list_ascii_of_string_of_list_ascii.
  induction Hl; simpl; f_equal; auto. by apply code_chr.
Qed.

Lemma of_codes_codes s : of_codes (codes s) = s.
Proof.
  unfold codes, of_codes. rewrite <-list_fmap_compose.
  rewrite <-(string_of_list_ascii_of_string s) at 2. f_equal.
  rewrite <-(list_fmap_id (list_ascii_of_string s)) at 2.
  apply list_fmap_ext. intros. apply chr_code.
Qed.

Lemma codes_byte s : Forall (λ b, 0 ≤ b < 256) (codes s).
Proof. unfold codes. apply Forall_fmap, Forall_true. intros. apply code_bound. Qed.

Lemma len_codes s : len (codes s) = slen s.
Proof.
  unfold len, slen, codes. rewrite length_fmap. f_equal.
  induction s; simpl; auto.
Qed.

Lemma string_map_length f s : String.length (string_map f s) = String.length s.
Proof. induction s; simpl; auto. Qed.

(** Upper-casing and lower-casing are idempotent. *)
Lemma ascii_upper_idemp a : ascii_upper (ascii_upper a) = ascii_upper a.
Proof. by destruct a as [[][][][][][][][]]. Qed.
Lemma ascii_lower_idemp a : ascii_lower (ascii_lower a) = ascii_lower a.
Proof. by destruct a as [[][][][][][][][]]. Qed.

Lemma string_map_idemp f s :
  (∀ a, f (f a) = f a) → string_map f (string_map f s) = string_map f s.
Proof. intros Hf. induction s; simpl; [done|]. by rewrite Hf, IHs. Qed.

(** Splitting loses nothing. *)
Lemma split_char_nonempty sep s : split_char sep s ≠ [].
Proof. destruct s; simpl; [done|]. repeat case_match; done. Qed.

Lemma join_split sep s : join_char sep (split_char sep s) = s.
Proof.
  induction s as [|a s IH]; [done|]. cbn [split_char].
  destruct (Ascii.eqb a sep) eqn:Ha.
  - apply Ascii.eqb_eq in Ha as ->. pose proof (split_char_nonempty sep s).
    destruct (split_char sep s) as [|p ps] eqn:E; [done|].
    transitivity (String sep (join_char sep (p :: ps))); [done|by rewrite IH].
  - pose proof (split_char_nonempty sep s).
    destruct (split_char sep s) as [|p [|q ps]] eqn:E; [done|by rewrite <-IH|].
    transitivity (String a (join_char sep (p :: q :: ps))); [done|by rewrite IH].
Qed.

Lemma prefix_app p s : String.prefix p (p +:+ s) = true.
Proof.
  induction p as [|a p IH]; simpl; [by destruct s|].
  destruct (ascii_dec a a); [done|congruence].
Qed.

Lemma prefix_spec p s : String.prefix p s = true ↔ ∃ t, s = p +:+ t.
Proof.
  split; [|intros [t ->]; apply prefix_app].
  revert s. induction p as [|a p IH]; intros s; [by exists s|].
  destruct s as [|b s]; simpl; [done|]. destruct (ascii_dec a b) as [->|]; [|done].
  intros [t ->]%IH. by exists t.
Qed.

(** Parsed numbers are in range. *)
Lemma digit_val_bounds b d : digit_val 10 b = Some d → 0 ≤ d < 10.
Proof. unfold digit_val. intros. repeat case_match; simplify_eq; reflect_bools; lia. Qed.

Lemma parse_digits_bounds max acc l n :
  0 ≤ acc ≤ max → parse_digits max acc l = Some n → 0 ≤ n ≤ max.
Proof.
  revert acc. induction l as [|b l IH]; intros acc Hacc; simpl; [intros; by simplify_eq|].
  destruct (digit_val 10 b) as [d|] eqn:Hd; [|done].
  apply digit_val_bounds in Hd. case_match; [|done]. reflect_bools.
  apply IH. lia.
Qed.

Lemma parse_unsigned_bounds max s n :
  0 ≤ max → parse_unsigned max s = Some n → 0 ≤ n ≤ max.
Proof.
  unfold parse_unsigned. intros Hmax Hp.
  destruct (codes s) as [|b l]; [done|]. destruct (b =? 43); [destruct (is_empty l); [done|]|];
    (eapply (parse_digits_bounds _ 0); [|exact Hp]; lia).
Qed.

Lemma parse_digits_text_ok max acc l : result_ok (parse_digits_text max acc l) = parse_digits max acc l.
Proof.
  revert acc. induction l as [|b l IH]; intros acc; simpl; [done|].
  destruct (digit_val 10 b); [|done]. by destruct (_ <=? max).
Qed.

Lemma parse_usize_text_ok s : result_ok (parse_usize_text s) = parse_usize s.
Proof.
  unfold parse_usize_text, parse_usize, parse_unsigned. destruct (codes s) as [|b l]; [done|].
  destruct (b =? 43); [destruct l; [done|]; cbn [is_empty]|]; apply parse_digits_text_ok.
Qed.

Example utf8_ex : is_utf8 [72; 195; 169; 226; 130; 172; 240; 159; 166; 128] = true.
Proof. reflexivity. Qed.
Example utf8_overlong : is_utf8 [192; 128] = false. Proof. reflexivity. Qed.
Example utf8_surrogate : is_utf8 [237; 160; 128] = false. Proof. reflexivity. Qed.

Lemma slen_app s t : slen (s +:+ t) = slen s + slen t.
Proof.
  unfold slen. induction s as [|a s IH]; [done|].
  change (String a s +:+ t) with (String a (s +:+ t)). cbn [String.length]. lia.
Qed.

(** Printable ASCII needs no trimming and is UTF-8. *)
Definition printable (l : bytes) : Prop := Forall (λ b, 32 < b < 127) l.

Lemma ws_len_printable b r : 32 < b < 127 → ws_len (b :: r) = 0%nat.
Proof.
  intros Hb. cbn [ws_len].
  replace ((9 <=? b) && (b <=? 13) || (b =? 32)) with false by (symmetry; reflect_bools; lia).
  destruct r as [|c r]; [done|].
  rewrite !(proj2 (Z.eqb_neq b _)) by lia. cbn [andb orb]. by destruct r.
Qed.

Lemma ws_len_rev_printable l : printable l → ws_len_rev l = 0%nat.
Proof.
  intros Hl. destruct Hl as [|b r Hb Hr]; [done|]. cbn [ws_len_rev].
  rewrite ws_len_printable by done. cbn [Nat.eqb negb].
  destruct Hr as [|c r Hc Hr]; [done|]. rewrite ws_len_printable by done. cbn [Nat.eqb negb andb].
  destruct Hr as [|d r Hd Hr]; [done|]. by rewrite ws_len_printable.
Qed.

Lemma drop_leading_zero measure l : measure l = 0%nat → drop_leading measure 0 l = l.
Proof. intros Hm. destruct l as [|b l]; [done|]. cbn [drop_leading]. by rewrite Hm. Qed.

Lemma trim_printable s : printable (codes s) → trim s = s.
Proof.
  intros Hs. unfold trim, trim_codes.
  rewrite (drop_leading_zero ws_len) by (destruct Hs; [done|by apply ws_len_printable]).
  rewrite drop_leading_zero by (apply ws_len_rev_printable; by apply list.Forall_reverse).
  by rewrite reverse_involutive, of_codes_codes.
Qed.

Lemma utf8_printable l : printable l → is_utf8 l = true.
Proof.
  induction 1 as [|b l Hb _ IH]; [done|]. cbn [is_utf8]. unfold cont.
  by rewrite (proj2 (Z.leb_le 0 b)), (proj2 (Z.leb_le b 127)) by lia.
Qed.
