(* ===== verification/Net.v ===== *)
(** Network addresses of Rust's standard library as the source uses them:
    [IpAddr] and [SocketAddr] with equality, classification, printing
    ([Display]) and parsing ([FromStr]). *)

From Stdlib Require Import Ascii String.
From stdpp Require Import countable pretty.
From S2P Require Import Prelude.
From S2P Require Import Text.

(** ** Addresses *)

Record Ipv4Addr := mkV4 { o1 : Z; o2 : Z; o3 : Z; o4 : Z }.
(** The eight 16-bit segments. *)
Record Ipv6Addr := mkV6 {
  g1 : Z; g2 : Z; g3 : Z; g4 : Z; g5 : Z; g6 : Z; g7 : Z; g8 : Z
}.
Inductive IpAddr := V4 (ip : Ipv4Addr) | V6 (ip : Ipv6Addr).
Inductive SocketAddr :=
  | SockV4 (ip : Ipv4Addr) (port : Z)
  | SockV6 (ip : Ipv6Addr) (port flowinfo scope_id : Z).

#[export] Instance Ipv4Addr_eq_dec : EqDecision Ipv4Addr.
Proof. solve_decision. Defined.
#[export] Instance Ipv6Addr_eq_dec : EqDecision Ipv6Addr.
Proof. solve_decision. Defined.
#[export] Instance IpAddr_eq_dec : EqDecision IpAddr.
Proof. solve_decision. Defined.
#[export] Instance SocketAddr_eq_dec : EqDecision SocketAddr.
Proof. solve_decision. Defined.

#[export] Instance Ipv4Addr_countable : Countable Ipv4Addr.
Proof.
  by apply (inj_countable' (λ a, (o1 a, o2 a, o3 a, o4 a))
    (λ '(a, b, c, d), mkV4 a b c d)); intros [].
Defined.
#[export] Instance Ipv6Addr_countable : Countable Ipv6Addr.
Proof.
  by apply (inj_countable' (λ a, (g1 a, g2 a, g3 a, g4 a, g5 a, g6 a, g7 a, g8 a))
    (λ '(a, b, c, d, e, f, g, h), mkV6 a b c d e f g h)); intros [].
Defined.
#[export] Instance IpAddr_countable : Countable IpAddr.
Proof.
  by apply (inj_countable'
    (λ a, match a with V4 i => inl i | V6 i => inr i end)
    (λ s, match s with inl i => V4 i | inr i => V6 i end)); intros [].
Defined.
#[export] Instance SocketAddr_countable : Countable SocketAddr.
Proof.
  by apply (inj_countable'
    (λ a, match a with SockV4 i p => inl (i, p) | SockV6 i p f s => inr (i, p, f, s) end)
    (λ s, match s with inl (i, p) => SockV4 i p | inr (i, p, f, s) => SockV6 i p f s end));
    intros [].
Defined.

(** [SocketAddr::new], [ip], [port]. *)
Definition socket_addr_new (ip : IpAddr) (port : Z) : SocketAddr :=
  match ip with V4 i => SockV4 i port | V6 i => SockV6 i port 0 0 end.
Definition sa_ip (a : SocketAddr) : IpAddr :=
  match a with SockV4 i _ => V4 i | SockV6 i _ _ _ => V6 i end.
Definition sa_port (a : SocketAddr) : Z :=
  match a with SockV4 _ p => p | SockV6 _ p _ _ => p end.

Definition LOCALHOST_V4 : Ipv4Addr := mkV4 127 0 0 1.
Definition UNSPECIFIED_V4 : Ipv4Addr := mkV4 0 0 0 0.
Definition LOCALHOST_V6 : Ipv6Addr := mkV6 0 0 0 0 0 0 0 1.
Definition UNSPECIFIED_V6 : Ipv6Addr := mkV6 0 0 0 0 0 0 0 0.

Definition segments (a : Ipv6Addr) : list Z :=
  [g1 a; g2 a; g3 a; g4 a; g5 a; g6 a; g7 a; g8 a].
Definition of_segments (l : list Z) : option Ipv6Addr :=
  match l with
  | [a; b; c; d; e; f; g; h] => Some (mkV6 a b c d e f g h)
  | _ => None
  end.

Definition is_loopback (a : IpAddr) : bool :=
  match a with V4 i => o1 i =? 127 | V6 i => bool_decide (i = LOCALHOST_V6) end.
Definition is_unspecified (a : IpAddr) : bool :=
  match a with
  | V4 i => bool_decide (i = UNSPECIFIED_V4)
  | V6 i => bool_decide (i = UNSPECIFIED_V6)
  end.

Definition octets_of_words (h l : Z) : Ipv4Addr :=
  mkV4 (h / 256) (h mod 256) (l / 256) (l mod 256).
(** [Ipv6Addr::to_ipv4_mapped]: [::ffff:a.b.c.d]. *)
Definition to_ipv4_mapped (a : Ipv6Addr) : option Ipv4Addr :=
  if bool_decide (take 5 (segments a) = [0; 0; 0; 0; 0]) && (g6 a =? 65535)
  then Some (octets_of_words (g7 a) (g8 a)) else None.
(** [Ipv6Addr::to_ipv4]: mapped or compatible. *)
Definition to_ipv4 (a : Ipv6Addr) : option Ipv4Addr :=
  if bool_decide (take 5 (segments a) = [0; 0; 0; 0; 0])
     && ((g6 a =? 65535) || (g6 a =? 0))
  then Some (octets_of_words (g7 a) (g8 a)) else None.

(** ** Printing *)

Definition show_v4 (a : Ipv4Addr) : string :=
  show (o1 a) +:+ "." +:+ show (o2 a) +:+ "." +:+ show (o3 a) +:+ "." +:+ show (o4 a).

Definition hex_digit (z : Z) : ascii := chr (if z <? 10 then 48 + z else 87 + z).
(** [{:x}] of a segment: at most four digits. *)
Definition show_hex (z : Z) : string :=
  let ds := [z / 4096; (z / 256) mod 16; (z / 16) mod 16; z mod 16] in
  let fix strip l := match l with
    | [d] => [d] | d :: l' => if d =? 0 then strip l' else l | [] => [] end in
  string_of_list_ascii (hex_digit <$> strip ds).

Definition show_segments (l : list Z) : string := join_char ":" (show_hex <$> l).

(** The longest run of zero segments, the first of the longest: its start and
    its length, scanning from segment [i] with the current run and the best. *)
Fixpoint longest_zeros (l : list Z) (i : nat) (cur best : nat * nat) : nat * nat :=
  match l with
  | [] => best
  | s :: l =>
      let cur := if s =? 0
        then (if Nat.eqb cur.2 0 then i else cur.1, S cur.2) else (0, 0)%nat in
      let best := if Nat.ltb best.2 cur.2 then cur else best in
      longest_zeros l (S i) cur best
  end.

Definition show_v6 (a : Ipv6Addr) : string :=
  match to_ipv4_mapped a with
  | Some v4 => "::ffff:" +:+ show_v4 v4
  | None =>
      let '(start, n) := longest_zeros (segments a) 0 (0, 0)%nat (0, 0)%nat in
      if Nat.ltb 1 n then
        show_segments (take start (segments a)) +:+ "::"
          +:+ show_segments (drop (start + n) (segments a))
      else show_segments (segments a)
  end.

(** [IpAddr::to_string] and [SocketAddr::to_string]. *)
Definition show_ip (a : IpAddr) : string :=
  match a with V4 i => show_v4 i | V6 i => show_v6 i end.
Definition show_sock (a : SocketAddr) : string :=
  match a with
  | SockV4 i p => show_v4 i +:+ ":" +:+ show p
  | SockV6 i p _ sc =>
      "[" +:+ show_v6 i +:+ (if sc =? 0 then "" else "%" +:+ show sc) +:+ "]:" +:+ show p
  end.

(** ** Parsing: the parser of the standard library, over the bytes left *)

Definition Parser (A : Type) := bytes → option (A * bytes).

Definition read_given_char (c : Z) : Parser unit := λ l,
  match l with b :: l' => if b =? c then Some (tt, l') else None | [] => None end.

(** [read_number]: the digits of [radix], at most [max_digits] of them, within
    [limit]; no leading zero unless [allow_zero_prefix]. *)
Fixpoint read_digits (radix limit : Z) (count : nat) (acc : Z) (l : bytes)
    : option (Z * nat * bytes) :=
  match l with
  | b :: l' =>
      match digit_val radix b with
      | Some d =>
          let acc := acc * radix + d in
          match count with
          | O => None
          | S count => if acc <=? limit then read_digits radix limit count acc l' else None
          end
      | None => Some (acc, count, l)
      end
  | [] => Some (acc, count, l)
  end.
Definition read_number (radix limit : Z) (max_digits : nat) (allow_zero_prefix : bool)
    : Parser Z := λ l,
  match read_digits radix limit max_digits 0 l with
  | Some (n, unused, l') =>
      let digits := (max_digits - unused)%nat in
      if Nat.eqb digits 0 then None else
      if negb allow_zero_prefix && bool_decide (head l = Some 48) && Nat.ltb 1 digits
      then None else Some (n, l')
  | None => None
  end.

(** [read_separator]: the separator before every item but the first. *)
Definition read_separator {A} (sep : Z) (index : nat) (p : Parser A) : Parser A := λ l,
  match index with
  | O => p l
  | S _ => match read_given_char sep l with Some (_, l') => p l' | None => None end
  end.

Definition read_octet (index : nat) : Parser Z :=
  read_separator 46 index (read_number 10 255 3 false).
Definition read_ipv4_addr : Parser Ipv4Addr := λ l,
  match read_octet 0 l with None => None | Some (a, l) =>
  match read_octet 1 l with None => None | Some (b, l) =>
  match read_octet 2 l with None => None | Some (c, l) =>
  match read_octet 3 l with None => None | Some (d, l) =>
  Some (mkV4 a b c d, l) end end end end.

(** [read_groups]: up to [limit - i] groups from index [i]; whether an embedded
    IPv4 address ended them. *)
Fixpoint read_groups (fuel i limit : nat) (l : bytes) : list Z * bool * bytes :=
  match fuel with
  | O => ([], false, l)
  | S fuel =>
      match (if Nat.ltb i (limit - 1) then read_separator 58 i read_ipv4_addr l else None) with
      | Some (v4, l') => ([o1 v4 * 256 + o2 v4; o3 v4 * 256 + o4 v4], true, l')
      | None =>
          match read_separator 58 i (read_number 16 65535 4 true) l with
          | Some (g, l') =>
              let '(gs, v4, l'') := read_groups fuel (S i) limit l' in (g :: gs, v4, l'')
          | None => ([], false, l)
          end
      end
  end.

Definition read_ipv6_addr : Parser Ipv6Addr := λ l,
  let '(head, head_ipv4, l1) := read_groups 8 0 8 l in
  if Nat.eqb (length head) 8 then (λ a, (a, l1)) <$> of_segments head else
  if head_ipv4 then None else
  match read_given_char 58 l1 with None => None | Some (_, l2) =>
  match read_given_char 58 l2 with None => None | Some (_, l3) =>
    let limit := (8 - (length head + 1))%nat in
    let '(tail, _, l4) := read_groups limit 0 limit l3 in
    let middle := replicate (8 - length head - length tail) 0 in
    (λ a, (a, l4)) <$> of_segments (head ++ middle ++ tail)
  end end.

(** [str::parse::<IpAddr>]. *)
Definition parse_ip (s : string) : option IpAddr :=
  match read_ipv4_addr (codes s) with
  | Some (a, []) => Some (V4 a)
  | Some (_, _ :: _) => None
  | None =>
      match read_ipv6_addr (codes s) with
      | Some (a, []) => Some (V6 a)
      | _ => None
      end
  end.

(** ** Checks on concrete addresses *)

Example parse_v4_ex : parse_ip "192.0.2.1" = Some (V4 (mkV4 192 0 2 1)).
Proof. reflexivity. Qed.
Example parse_v4_octal : parse_ip "192.0.02.1" = None. Proof. reflexivity. Qed.
Example parse_v4_big : parse_ip "192.0.256.1" = None. Proof. reflexivity. Qed.
Example parse_v4_trail : parse_ip "192.0.2.1x" = None. Proof. reflexivity. Qed.
Example parse_v6_lo : parse_ip "::1" = Some (V6 LOCALHOST_V6). Proof. reflexivity. Qed.
Example parse_v6_any : parse_ip "::" = Some (V6 UNSPECIFIED_V6). Proof. reflexivity. Qed.
Example parse_v6_full :
  parse_ip "2001:0db8:0:1:2:3:4:5" = Some (V6 (mkV6 8193 3512 0 1 2 3 4 5)).
Proof. reflexivity. Qed.
Example parse_v6_map : parse_ip "::ffff:1.2.3.4" = Some (V6 (mkV6 0 0 0 0 0 65535 258 772)).
Proof. reflexivity. Qed.
Example parse_v6_two : parse_ip "1::2::3" = None. Proof. reflexivity. Qed.
Example parse_v6_short : parse_ip "1:2:3" = None. Proof. reflexivity. Qed.
Example parse_word : parse_ip "not-an-ip" = None. Proof. reflexivity. Qed.
Example show_v6_ex : show_ip (V6 (mkV6 8193 3512 0 0 0 0 0 1)) = "2001:db8::1".
Proof. by vm_compute. Qed.
Example show_v6_map : show_ip (V6 (mkV6 0 0 0 0 0 65535 258 772)) = "::ffff:1.2.3.4".
Proof. by vm_compute. Qed.
Example show_v6_one : show_ip (V6 (mkV6 1 0 2 0 0 3 0 4)) = "1:0:2::3:0:4".
Proof. by vm_compute. Qed.
Example show_v6_any : show_ip (V6 UNSPECIFIED_V6) = "::". Proof. by vm_compute. Qed.
Example show_sock_ex : show_sock (SockV6 LOCALHOST_V6 21116 0 0) = "[::1]:21116".
Proof. by vm_compute. Qed.

(** ** Lemmas *)

Lemma sa_ip_new ip port : sa_ip (socket_addr_new ip port) = ip.
Proof. by destruct ip. Qed.
Lemma sa_port_new ip port : sa_port (socket_addr_new ip port) = port.
Proof. by destruct ip. Qed.
#[export] Hint Rewrite sa_ip_new sa_port_new : srv.
