(* ===== verification/RateLimit.v ===== *)
(** Per-address rate limiting ([src/peer.rs]): the table [IP_BLOCKER] that
    bounds registrations per source address, the diagnostics table
    [IP_CHANGES], and the periodic cleanup of both.  Each operation takes the
    clock reading as an argument, as the [_in] functions of the source do.

    The theorems: both tables keep their bounds under every operation; no
    source address gets more than [2 * IP_REQUEST_LIMIT] registrations through
    in any span of [IP_BLOCK_DUR] seconds; and the bounded, evicting table
    takes exactly the decisions of an unbounded reference table on the requests
    it does not refuse for lack of room. *)

From S2P Require Import Prelude.

(** ** Constants *)

Definition IP_CHANGE_DUR : Z := 180.
Definition IP_CHANGE_DUR_X2 : Z := IP_CHANGE_DUR * 2.
Definition DAY_SECONDS : Z := 3600 * 24.
Definition IP_BLOCK_DUR : Z := 60.
Definition IP_REQUEST_LIMIT : Z := 30.
Definition IP_DISTINCT_ID_LIMIT : Z := 300.
Definition MAX_TRACKED_IP_BLOCKERS : Z := 65536.
Definition MAX_TRACKED_IP_CHANGES : Z := 100000.
Definition MAX_IPS_PER_CHANGE_ENTRY : Z := 512.

(** ** Data *)

(** The value of [IpBlockMap]: requests in the current minute and when that
    window started; distinct ids of the current day and when that started. *)
Abbreviation IpBlock := ((Z * Instant) * (gset string * Instant))%type.
Abbreviation IpBlockMap := (gmap string IpBlock).
(** The value of [IpChangesMap]: when the window started, and the addresses
    seen in it with their counts. *)
Abbreviation IpChange := (Instant * gmap string Z)%type.
Abbreviation IpChangesMap := (gmap string IpChange).

(** ** Operations *)

Definition window_expired (now started_at : Instant) (seconds : Z) : bool :=
  from_secs seconds <=? duration_since now started_at.

(** The predicate [retain] keeps entries by. *)
Definition blocker_live (now : Instant) (e : IpBlock) : bool :=
  negb (window_expired now e.1.2 IP_BLOCK_DUR)
  || negb (window_expired now e.2.2 DAY_SECONDS).
Definition retain_blockers (now : Instant) (m : IpBlockMap) : IpBlockMap :=
  filter (λ kv, blocker_live now kv.2 = true) m.

(** Counting one request against an entry: lines 64-81 of the source. *)
Definition count_request (id : string) (now : Instant) (entry : IpBlock) : bool * IpBlock :=
  let requests := if window_expired now entry.1.2 IP_BLOCK_DUR then (0, now) else entry.1 in
  if IP_REQUEST_LIMIT <=? requests.1 then (false, (requests, entry.2)) else
  let requests := (u32_add requests.1 1, requests.2) in
  let ids := if window_expired now entry.2.2 DAY_SECONDS then (∅, now) else entry.2 in
  if bool_decide (id ∈ ids.1) then (true, (requests, ids)) else
  if IP_DISTINCT_ID_LIMIT <=? Z.of_nat (size ids.1) then (false, (requests, ids)) else
  (true, (requests, ({[id]} ∪ ids.1, ids.2))).

(** Lines 48-59: make room for a new address, or refuse it. *)
Definition admit_ip (blockers : IpBlockMap) (ip : string) (now : Instant)
    (max_tracked_ips : Z) : bool * IpBlockMap :=
  match blockers !! ip with
  | Some _ => (true, blockers)
  | None =>
      let blockers :=
        if max_tracked_ips <=? mlen blockers then retain_blockers now blockers else blockers in
      if max_tracked_ips <=? mlen blockers then (false, blockers)
      else (true, <[ip := ((0, now), (∅, now))]> blockers)
  end.

Definition allow_ip_request_in (blockers : IpBlockMap) (ip id : string)
    (now : Instant) (max_tracked_ips : Z) : bool * IpBlockMap :=
  let '(admitted, blockers) := admit_ip blockers ip now max_tracked_ips in
  if negb admitted then (false, blockers) else
  match blockers !! ip with
  | None => (false, blockers)
  | Some entry =>
      let '(ok, entry) := count_request id now entry in
      (ok, <[ip := entry]> blockers)
  end.

(** [allow_ip_request]: the call under the lock of [IP_BLOCKER]. *)
Definition allow_ip_request (blockers : IpBlockMap) (ip id : string) (now : Instant)
    : bool * IpBlockMap :=
  allow_ip_request_in blockers ip id now MAX_TRACKED_IP_BLOCKERS.

Definition retain_changes (now : Instant) (m : IpChangesMap) : IpChangesMap :=
  filter (λ kv, window_expired now kv.2.1 IP_CHANGE_DUR_X2 = false) m.

(** Counting one address change: lines 116-128. *)
Definition count_change (ip : string) (now : Instant) (entry : IpChange) : bool * IpChange :=
  let entry := if window_expired now entry.1 IP_CHANGE_DUR then (now, ∅) else entry in
  match entry.2 !! ip with
  | Some count => (true, (entry.1, <[ip := i32_saturating_add count 1]> entry.2))
  | None =>
      if MAX_IPS_PER_CHANGE_ENTRY <=? mlen entry.2 then (false, entry)
      else (true, (entry.1, <[ip := 1]> entry.2))
  end.

Definition admit_id (changes : IpChangesMap) (id : string) (now : Instant)
    (max_tracked_ids : Z) : bool * IpChangesMap :=
  match changes !! id with
  | Some _ => (true, changes)
  | None =>
      let changes :=
        if max_tracked_ids <=? mlen changes then retain_changes now changes else changes in
      if max_tracked_ids <=? mlen changes then (false, changes)
      else (true, <[id := (now, ∅)]> changes)
  end.

Definition record_ip_change_in (changes : IpChangesMap) (id ip : string)
    (now : Instant) (max_tracked_ids : Z) : bool * IpChangesMap :=
  let '(admitted, changes) := admit_id changes id now max_tracked_ids in
  if negb admitted then (false, changes) else
  match changes !! id with
  | None => (false, changes)
  | Some entry =>
      let '(ok, entry) := count_change ip now entry in
      (ok, <[id := entry]> changes)
  end.

Definition record_ip_change (changes : IpChangesMap) (id ip : string) (now : Instant)
    : bool * IpChangesMap :=
  record_ip_change_in changes id ip now MAX_TRACKED_IP_CHANGES.

(** The two tables, with the counts of entries [cleanup_transient_state]
    removed from each. *)
Record Transient := mkTransient {
  tr_blockers : IpBlockMap;
  tr_changes : IpChangesMap
}.

Definition cleanup_transient_state (now : Instant) (t : Transient) : (Z * Z) * Transient :=
  let blockers := retain_blockers now (tr_blockers t) in
  let blockers_removed := mlen (tr_blockers t) - mlen blockers in
  let changes := retain_changes now (tr_changes t) in
  ((blockers_removed, mlen (tr_changes t) - mlen changes), mkTransient blockers changes).

(** ** Runs of the limiter *)

(** What happens to [IP_BLOCKER] over time: requests and cleanups, each at the
    clock reading it makes. *)
Inductive event :=
  | Request (ip id : string) (now : Instant)
  | Cleanup (now : Instant).

Definition event_time (e : event) : Instant :=
  match e with Request _ _ now | Cleanup now => now end.

Inductive outcome := Accepted | Limited | NoRoom | Cleaned.

Definition step_event (max : Z) (blockers : IpBlockMap) (e : event)
    : outcome * IpBlockMap :=
  match e with
  | Request ip id now =>
      let '(admitted, _) := admit_ip blockers ip now max in
      let '(ok, blockers) := allow_ip_request_in blockers ip id now max in
      (if ok then Accepted else if admitted then Limited else NoRoom, blockers)
  | Cleanup now => (Cleaned, retain_blockers now blockers)
  end.

Fixpoint run_events (max : Z) (blockers : IpBlockMap) (es : list event)
    : list outcome * IpBlockMap :=
  match es with
  | [] => ([], blockers)
  | e :: es =>
      let '(o, blockers) := step_event max blockers e in
      let '(os, blockers) := run_events max blockers es in
      (o :: os, blockers)
  end.

(** How many requests of [ip] a run accepted. *)
Fixpoint accepted (ip : string) (es : list event) (os : list outcome) : Z :=
  match es, os with
  | Request ip' _ _ :: es, Accepted :: os =>
      (if decide (ip' = ip) then 1 else 0) + accepted ip es os
  | _ :: es, _ :: os => accepted ip es os
  | _, _ => 0
  end.

(** Clock readings that do not decrease. *)
Fixpoint monotone_from (t : Instant) (es : list event) : Prop :=
  match es with
  | [] => True
  | e :: es => t ≤ event_time e ∧ monotone_from (event_time e) es
  end.

(** The clock reading of the last event. *)
Fixpoint end_time (t : Instant) (es : list event) : Instant :=
  match es with [] => t | e :: es => end_time (event_time e) es end.

(** ** The reference: one entry per address, never evicted *)

Definition ref_request (spec : IpBlockMap) (ip id : string) (now : Instant)
    : bool * IpBlockMap :=
  let entry := default ((0, now), (∅, now)) (spec !! ip) in
  let '(ok, entry) := count_request id now entry in
  (ok, <[ip := entry]> spec).

(** The reference runs the same events, but is not shown the requests the
    bounded table refuses for lack of room. *)
Fixpoint run_reference (spec : IpBlockMap) (es : list event) (os : list outcome)
    : list outcome * IpBlockMap :=
  match es, os with
  | Request ip id now :: es, NoRoom :: os =>
      let '(os', spec) := run_reference spec es os in (NoRoom :: os', spec)
  | Request ip id now :: es, _ :: os =>
      let '(ok, spec) := ref_request spec ip id now in
      let '(os', spec) := run_reference spec es os in
      ((if ok then Accepted else Limited) :: os', spec)
  | Cleanup _ :: es, _ :: os =>
      let '(os', spec) := run_reference spec es os in (Cleaned :: os', spec)
  | _, _ => ([], spec)
  end.

(** ** Invariants *)

Record block_wf (e : IpBlock) : Prop := {
  block_count : 0 ≤ e.1.1 ≤ IP_REQUEST_LIMIT;
  block_ids : Z.of_nat (size e.2.1) ≤ IP_DISTINCT_ID_LIMIT
}.

Record blockers_wf (max : Z) (m : IpBlockMap) : Prop := {
  blockers_room : mlen m ≤ max;
  blockers_entries : map_Forall (λ _, block_wf) m
}.

Record change_wf (e : IpChange) : Prop := {
  change_room : mlen e.2 ≤ MAX_IPS_PER_CHANGE_ENTRY;
  change_counts : map_Forall (λ _ n, 1 ≤ n ≤ i32_max) e.2
}.

Record changes_wf (max : Z) (m : IpChangesMap) : Prop := {
  changes_room : mlen m ≤ max;
  changes_entries : map_Forall (λ _, change_wf) m
}.

(** An entry with both windows over: the next request starts it afresh. *)
Definition block_stale (now : Instant) (e : IpBlock) : Prop :=
  blocker_live now e = false.

(** The bounded table [impl] agrees with the reference, up to entries that
    have run out. *)
Definition agrees (now : Instant) (impl spec : IpBlockMap) : Prop :=
  ∀ ip, match impl !! ip, spec !! ip with
        | Some e, Some e' => e = e'
        | None, Some e' => block_stale now e'
        | Some _, None => False
        | None, None => True
        end.

(** ** Lemmas *)

Lemma window_expired_spec now t s :
  0 < s → window_expired now t s = true ↔ t + from_secs s ≤ now.
Proof.
  unfold window_expired, duration_since, from_secs, nanos_per_sec.
  rewrite Z.leb_le. lia.
Qed.

Lemma window_not_expired_spec now t s :
  0 < s → window_expired now t s = false ↔ now < t + from_secs s.
Proof.
  intros Hs. rewrite <-not_true_iff_false, window_expired_spec by done. lia.
Qed.

Lemma window_expired_self now s : 0 < s → window_expired now now s = false.
Proof.
  intros. apply window_not_expired_spec; [done|].
  unfold from_secs, nanos_per_sec. lia.
Qed.

Lemma window_expired_mono now now' t s :
  now ≤ now' → window_expired now t s = true → window_expired now' t s = true.
Proof.
  unfold window_expired. rewrite !Z.leb_le. intros Hle ?.
  pose proof (duration_since_mono now now' t Hle). lia.
Qed.

Lemma block_stale_spec now e :
  block_stale now e ↔ window_expired now e.1.2 IP_BLOCK_DUR = true
                    ∧ window_expired now e.2.2 DAY_SECONDS = true.
Proof.
  unfold block_stale, blocker_live. rewrite orb_false_iff, !negb_false_iff. done.
Qed.

Lemma block_stale_mono now now' e :
  now ≤ now' → block_stale now e → block_stale now' e.
Proof.
  rewrite !block_stale_spec. intros Hle [??].
  split; eapply window_expired_mono; eauto.
Qed.
#[export] Hint Resolve block_stale_mono window_expired_mono : srv.

Lemma retain_blockers_lookup now (m : IpBlockMap) ip :
  retain_blockers now m !! ip =
    e ← m !! ip; if blocker_live now e then Some e else None.
Proof.
  unfold retain_blockers. rewrite map_lookup_filter.
  destruct (m !! ip) as [e|]; [simpl|done].
  by destruct (blocker_live now e).
Qed.

(** What [admit_ip] leaves for each address: the entry it had, or a fresh one
    for the address that asked; an entry disappears only once it has run out. *)
Lemma admit_ip_lookup (m : IpBlockMap) ip now max adm m' ip' :
  admit_ip m ip now max = (adm, m') →
  (m' !! ip' = m !! ip'
   ∨ (ip' = ip ∧ adm = true ∧ m !! ip = None ∧ m' !! ip' = Some ((0, now), (∅, now)))
   ∨ (∃ e, m !! ip' = Some e ∧ block_stale now e ∧ m' !! ip' = None ∧ ip' ≠ ip)).
Proof.
  assert (∀ b : bool, let m1 := if b then retain_blockers now m else m in
    m1 !! ip' = m !! ip' ∨ ∃ e, m !! ip' = Some e ∧ block_stale now e ∧ m1 !! ip' = None)
    as Hretain.
  { intros [] m1; [|by left]. unfold m1. rewrite retain_blockers_lookup.
    destruct (m !! ip') as [e|]; simpl; [|by left].
    destruct (blocker_live now e) eqn:?; [by left|right; eauto]. }
  unfold admit_ip. destruct (m !! ip) as [e0|] eqn:Hip.
  { intros; simplify_eq. by left. }
  specialize (Hretain (max <=? mlen m)). cbv zeta in Hretain.
  set (m1 := if max <=? mlen m then _ else m) in *.
  destruct (max <=? mlen m1); intros; simplify_eq.
  - destruct Hretain as [?|(e & ? & ? & ?)]; [by left|].
    right; right. exists e. naive_solver.
  - destruct (decide (ip' = ip)) as [->|Hne].
    + right; left. by rewrite lookup_insert_eq.
    + rewrite lookup_insert_ne by done.
      destruct Hretain as [?|(e & ? & ? & ?)]; naive_solver.
Qed.

Lemma admit_ip_admitted (m : IpBlockMap) ip now max m' :
  admit_ip m ip now max = (true, m') →
  m' !! ip = Some (default ((0, now), (∅, now)) (m !! ip)).
Proof.
  intros Hadm. pose proof (admit_ip_lookup _ _ _ _ _ _ ip Hadm) as Hl.
  unfold admit_ip in Hadm. destruct (m !! ip) as [e|] eqn:Hip; [naive_solver|].
  destruct (max <=? mlen _); simplify_eq/=. by rewrite lookup_insert_eq.
Qed.

Lemma admit_ip_refused (m : IpBlockMap) ip now max m' :
  admit_ip m ip now max = (false, m') → m !! ip = None ∧ m' !! ip = None.
Proof.
  unfold admit_ip. intros Hadm. case_code; split; try done.
  rewrite retain_blockers_lookup. by simplify_option_eq.
Qed.

Lemma admit_ip_room (m : IpBlockMap) ip now max adm m' :
  mlen m ≤ max → admit_ip m ip now max = (adm, m') → mlen m' ≤ max.
Proof.
  unfold admit_ip. intros Hroom Hadm.
  pose proof (mlen_filter_le (λ kv : string * IpBlock, blocker_live now kv.2 = true) m) as Hf.
  change (filter _ m) with (retain_blockers now m) in Hf.
  case_code; try lia.
  all: match goal with |- context [<[?k := ?v]> ?x] => pose proof (mlen_insert_le x k v) end; lia.
Qed.

Lemma allow_unfold (m : IpBlockMap) ip id now max :
  allow_ip_request_in m ip id now max =
    match admit_ip m ip now max with
    | (false, m') => (false, m')
    | (true, m') =>
        let '(ok, e) := count_request id now (default ((0, now), (∅, now)) (m !! ip)) in
        (ok, <[ip := e]> m')
    end.
Proof.
  unfold allow_ip_request_in. destruct (admit_ip m ip now max) as [[] m'] eqn:Hadm; [|done].
  simpl. by rewrite (admit_ip_admitted _ _ _ _ _ Hadm).
Qed.

Lemma fresh_block_wf now : block_wf ((0, now), (∅, now)).
Proof. split; by vm_compute. Qed.

Lemma count_request_wf id now e :
  block_wf e → block_wf (count_request id now e).2.
Proof.
  intros [Hc Hi]. unfold count_request.
  set (rq := if window_expired now e.1.2 _ then _ else e.1).
  set (ids := if window_expired now e.2.2 _ then _ else e.2).
  assert (0 ≤ rq.1 ≤ IP_REQUEST_LIMIT) as Hrq
    by (unfold rq; destruct (window_expired now e.1.2 _); simpl; unfold IP_REQUEST_LIMIT in *; lia).
  assert (Z.of_nat (size ids.1) ≤ IP_DISTINCT_ID_LIMIT) as Hids
    by (unfold ids; destruct (window_expired now e.2.2 _); simpl; by vm_compute || lia).
  destruct (IP_REQUEST_LIMIT <=? rq.1) eqn:Hlim; [by split|reflect_bools].
  assert (0 ≤ u32_add rq.1 1 ≤ IP_REQUEST_LIMIT) as Hadd.
  { unfold u32_add, IP_REQUEST_LIMIT in *. rewrite Z.mod_small; lia. }
  case_match; [by split|]. case_match; [by split|]. reflect_bools.
  split; simpl; [done|]. pose proof (gset_size_insert_le id ids.1). lia.
Qed.
#[export] Hint Resolve fresh_block_wf count_request_wf : srv.

(** A stale entry counts like a fresh one. *)
Lemma count_request_stale id now e :
  block_stale now e → count_request id now e = count_request id now ((0, now), (∅, now)).
Proof.
  rewrite block_stale_spec. intros [H1 H2]. unfold count_request. simpl.
  rewrite H1, H2, !window_expired_self by (unfold IP_BLOCK_DUR, DAY_SECONDS; lia). done.
Qed.

(** A request, a cleanup and a table with fewer entries keep the bounds. *)
Lemma blockers_wf_submap max m m' : m' ⊆ m → blockers_wf max m → blockers_wf max m'.
Proof.
  intros Hsub [Hr He]. split; [pose proof (mlen_subseteq _ _ Hsub); lia|].
  intros ip e Hl. by eapply He, lookup_weaken.
Qed.
Lemma retain_blockers_wf max now m : blockers_wf max m → blockers_wf max (retain_blockers now m).
Proof. apply blockers_wf_submap, map_filter_subseteq. Qed.
Lemma allow_ip_request_in_wf max m ip id now ok m' :
  blockers_wf max m → allow_ip_request_in m ip id now max = (ok, m') → blockers_wf max m'.
Proof.
  intros [Hroom Hwf] Hstep. rewrite allow_unfold in Hstep.
  destruct (admit_ip m ip now max) as [adm m1] eqn:Hadm.
  assert (blockers_wf max m1) as [Hroom1 Hwf1].
  { split; [by eapply admit_ip_room|]. intros ip' e' Hl.
    destruct (admit_ip_lookup _ _ _ _ _ _ ip' Hadm)
      as [Heq|[(-> & -> & ? & Heq)|(?&?&?&?&?)]]; rewrite ?Hl in *; simplify_eq; eauto with srv. }
  destruct adm; [|by simplify_eq].
  assert (block_wf (default ((0, now), (∅, now)) (m !! ip))) as Hdef.
  { destruct (m !! ip) as [e0|] eqn:?; simpl; eauto with srv. }
  pose proof (count_request_wf id now _ Hdef).
  pose proof (admit_ip_admitted _ _ _ _ _ Hadm).
  destruct (count_request _ _ _) as [ok' e']; simplify_eq/=. split.
  - rewrite mlen_insert_old by eauto. done.
  - by apply map_Forall_insert_2.
Qed.
Lemma allow_ip_request_wf m ip id now ok m' :
  blockers_wf MAX_TRACKED_IP_BLOCKERS m → allow_ip_request m ip id now = (ok, m') →
  blockers_wf MAX_TRACKED_IP_BLOCKERS m'.
Proof. apply allow_ip_request_in_wf. Qed.

(** One event preserves the bounds of the table. *)
Lemma step_event_wf max m e o m' :
  blockers_wf max m → step_event max m e = (o, m') → blockers_wf max m'.
Proof.
  intros Hwf Hstep. destruct e as [ip id now|now]; simpl in Hstep.
  - destruct (admit_ip _ _ _ _) as [adm m0]. destruct (allow_ip_request_in _ _ _ _ _) as [ok m1] eqn:Hallow.
    simplify_eq. by eapply allow_ip_request_in_wf.
  - simplify_eq. by apply retain_blockers_wf.
Qed.

Lemma run_events_wf max m es :
  blockers_wf max m → blockers_wf max (run_events max m es).2.
Proof.
  revert m. induction es as [|e es IH]; intros m Hwf; [done|]. simpl.
  destruct (step_event max m e) as [o m1] eqn:Hstep.
  pose proof (IH m1 (step_event_wf _ _ _ _ _ Hwf Hstep)).
  by destruct (run_events max m1 es).
Qed.

(** *** The rate bound *)

(** How many more requests of an address the limiter can accept before
    [t + IP_BLOCK_DUR], from an entry: the rest of its window if that started
    at [t] or later, and one whole window more if it started before. *)
Definition budget (t : Instant) (o : option IpBlock) : Z :=
  match o with
  | None => IP_REQUEST_LIMIT
  | Some e => (if t <=? e.1.2 then IP_REQUEST_LIMIT else 2 * IP_REQUEST_LIMIT) - e.1.1
  end.

Lemma budget_stale t now e :
  block_wf e → window_expired now e.1.2 IP_BLOCK_DUR = true →
  now < t + from_secs IP_BLOCK_DUR → IP_REQUEST_LIMIT ≤ budget t (Some e).
Proof.
  intros [Hc _] Hexp Hnow. unfold budget, IP_REQUEST_LIMIT in *.
  apply window_expired_spec in Hexp; [|unfold IP_BLOCK_DUR; lia].
  destruct (t <=? e.1.2) eqn:Ht; reflect_bools; lia.
Qed.

Lemma count_request_budget t id now e ok e' :
  block_wf e → t ≤ now < t + from_secs IP_BLOCK_DUR →
  count_request id now e = (ok, e') →
  (if ok then 1 else 0) + budget t (Some e') ≤ budget t (Some e).
Proof.
  intros Hwf Hnow Hcount. pose proof Hwf as [Hc _].
  pose proof (λ Hexp, budget_stale t now e Hwf Hexp (proj2 Hnow)) as Hstale.
  unfold count_request in Hcount. unfold budget in *.
  destruct (window_expired now e.1.2 IP_BLOCK_DUR) eqn:Hexp; simpl in Hcount.
  - specialize (Hstale eq_refl).
    assert ((t <=? now) = true) as Ht by (apply Z.leb_le; lia).
    repeat case_match; simplify_eq/=; rewrite ?Ht; unfold u32_add, IP_REQUEST_LIMIT in *;
      simpl in *; try rewrite Z.mod_small by lia; lia.
  - destruct (IP_REQUEST_LIMIT <=? e.1.1) eqn:Hlim; simplify_eq/=; [lia|reflect_bools].
    assert (u32_add e.1.1 1 = e.1.1 + 1) as Hadd
      by (unfold u32_add; unfold IP_REQUEST_LIMIT in *; rewrite Z.mod_small; lia).
    repeat case_match; simplify_eq/=; rewrite ?Hadd; lia.
Qed.

Lemma budget_fresh t now : t ≤ now → budget t (Some ((0, now), (∅, now))) = budget t None.
Proof. intros. simpl. rewrite (proj2 (Z.leb_le _ _)) by done. lia. Qed.

Lemma budget_nonneg t o :
  (∀ e, o = Some e → block_wf e) → 0 ≤ budget t o ≤ 2 * IP_REQUEST_LIMIT.
Proof.
  intros Hwf. destruct o as [e|]; simpl; unfold IP_REQUEST_LIMIT; [|lia].
  destruct (Hwf e eq_refl) as [Hc _]. unfold IP_REQUEST_LIMIT in *. case_match; lia.
Qed.

(** A step spends the budget of the address it accepts a request of. *)
Lemma step_event_budget max t m e o m' ip :
  blockers_wf max m → t ≤ event_time e < t + from_secs IP_BLOCK_DUR →
  step_event max m e = (o, m') →
  accepted ip [e] [o] + budget t (m' !! ip) ≤ budget t (m !! ip).
Proof.
  intros [_ Hwf] Ht Hstep. destruct e as [ip' id now|now]; simpl in *.
  - rewrite allow_unfold in Hstep.
    destruct (admit_ip m ip' now max) as [adm m1] eqn:Hadm.
    assert (ip ≠ ip' → budget t (m1 !! ip) ≤ budget t (m !! ip)) as Hother.
    { intros Hne. destruct (admit_ip_lookup _ _ _ _ _ _ ip Hadm)
        as [->|[(? & _)|(e & He & Hst & -> & _)]]; [lia|done|].
      rewrite He. apply block_stale_spec in Hst as [Hst _].
      eapply budget_stale; eauto. lia. }
    destruct adm; simplify_eq/=.
    2:{ destruct (decide (ip = ip')) as [->|]; [|by apply Hother].
        by destruct (admit_ip_refused _ _ _ _ _ Hadm) as [-> ->]. }
    set (e0 := default _ (m !! ip')) in *.
    assert (block_wf e0) as Hwf0.
    { unfold e0. destruct (m !! ip') eqn:?; simpl; eauto with srv. }
    destruct (count_request id now e0) as [ok e1] eqn:Hcount; simplify_eq/=.
    pose proof (count_request_budget t id now e0 ok e1 Hwf0 Ht Hcount) as Hb.
    destruct (decide (ip' = ip)) as [<-|Hne].
    + rewrite lookup_insert_eq.
      assert (budget t (Some e0) = budget t (m !! ip')) as <-.
      { unfold e0. destruct (m !! ip'); simpl; [done|]. apply budget_fresh; lia. }
      destruct ok; lia.
    + rewrite lookup_insert_ne by done. destruct ok; simpl; apply Hother; congruence.
  - simplify_eq/=. rewrite retain_blockers_lookup.
    destruct (m !! ip) as [e|] eqn:He; cbn [mbind option_bind]; [|lia].
    destruct (blocker_live now e) eqn:Hlive; [lia|].
    apply block_stale_spec in Hlive as [Hst _].
    pose proof (budget_stale t now e (Hwf _ _ He) Hst). simpl in *. lia.
Qed.

Lemma accepted_cons ip e es o os :
  accepted ip (e :: es) (o :: os) = accepted ip [e] [o] + accepted ip es os.
Proof. destruct e, o; simpl; lia. Qed.

Lemma run_events_budget max t ip es m :
  blockers_wf max m →
  Forall (λ e, t ≤ event_time e < t + from_secs IP_BLOCK_DUR) es →
  accepted ip es (run_events max m es).1 ≤ budget t (m !! ip).
Proof.
  intros Hwf Hes. revert m Hwf. induction Hes as [|e es He Hes IH]; intros m Hwf.
  { simpl. apply budget_nonneg. intros. by eapply Hwf. }
  simpl run_events. destruct (step_event max m e) as [o m1] eqn:Hstep.
  pose proof (step_event_budget _ _ _ _ _ _ ip Hwf He Hstep).
  pose proof (IH m1 (step_event_wf _ _ _ _ _ Hwf Hstep)) as Hrest.
  destruct (run_events max m1 es) as [os m2]. cbn [fst] in *. rewrite accepted_cons. lia.
Qed.

(** *** Agreement with the reference *)

Lemma agrees_mono now now' impl spec :
  now ≤ now' → agrees now impl spec → agrees now' impl spec.
Proof.
  intros Hle Hag ip. specialize (Hag ip).
  destruct (impl !! ip), (spec !! ip); eauto with srv.
Qed.

Lemma agrees_retain now impl spec :
  agrees now impl spec → agrees now (retain_blockers now impl) spec.
Proof.
  intros Hag ip. specialize (Hag ip). rewrite retain_blockers_lookup.
  destruct (impl !! ip) as [e|], (spec !! ip) as [e'|]; simplify_eq/=; try done.
  by destruct (blocker_live now e') eqn:?.
Qed.

Lemma step_event_agrees max now impl spec e o impl' :
  now ≤ event_time e → agrees now impl spec → step_event max impl e = (o, impl') →
  let '(os, spec') := run_reference spec [e] [o] in
  os = [o] ∧ agrees (event_time e) impl' spec'.
Proof.
  intros Hle Hag Hstep. apply (agrees_mono _ (event_time e)) in Hag; [clear Hle|done].
  destruct e as [ip id now'|now']; simpl in *; simplify_eq/=.
  2:{ split; [done|]. by apply agrees_retain. }
  rewrite allow_unfold in Hstep.
  destruct (admit_ip impl ip now' max) as [adm impl1] eqn:Hadm.
  assert (∀ ip', ip' ≠ ip → match impl1 !! ip', spec !! ip' with
        | Some e, Some e' => e = e' | None, Some e' => block_stale now' e'
        | Some _, None => False | None, None => True end) as Hother.
  { intros ip' Hne. specialize (Hag ip').
    destruct (admit_ip_lookup _ _ _ _ _ _ ip' Hadm) as [->|[(? & _)|(e & He & Hst & -> & _)]]; [done..|].
    rewrite He in Hag. destruct (spec !! ip'); [by subst|done]. }
  destruct adm; simplify_eq/=.
  2:{ destruct (admit_ip_refused _ _ _ _ _ Hadm) as [H1 H2]. split; [done|]. intros ip'.
      destruct (decide (ip' = ip)) as [->|]; [|by apply Hother].
      specialize (Hag ip). by rewrite H1 in Hag; rewrite H2. }
  assert (count_request id now' (default (0, now', (∅, now')) (impl !! ip))
        = count_request id now' (default (0, now', (∅, now')) (spec !! ip))) as Hsame.
  { specialize (Hag ip). destruct (impl !! ip), (spec !! ip); simplify_eq/=; try done.
    symmetry. by apply count_request_stale. }
  unfold ref_request. rewrite Hsame in Hstep.
  destruct (count_request id now' _) as [ok e1].
  assert (agrees now' (<[ip:=e1]> impl1) (<[ip:=e1]> spec)) as Hag'.
  { intros ip'. destruct (decide (ip' = ip)) as [->|Hne].
    - by rewrite !lookup_insert_eq.
    - rewrite !lookup_insert_ne by done. by apply Hother. }
  destruct ok; simplify_eq/=; done.
Qed.

Lemma run_reference_cons spec e o es os :
  run_reference spec (e :: es) (o :: os) =
    let '(os1, spec1) := run_reference spec [e] [o] in
    let '(os2, spec2) := run_reference spec1 es os in (os1 ++ os2, spec2).
Proof.
  destruct e as [ip id now|now]; simpl.
  - destruct (ref_request spec ip id now) as [ok spec1].
    destruct o; simpl; by destruct (run_reference _ es os).
  - by destruct (run_reference spec es os).
Qed.

(** *** The diagnostics table *)

Lemma count_change_wf ip now e :
  change_wf e → change_wf (count_change ip now e).2.
Proof.
  intros [Hr Hc]. unfold count_change.
  set (e0 := if window_expired now e.1 _ then _ else e).
  assert (change_wf e0) as [Hr0 Hc0].
  { unfold e0. case_match; [|by split].
    split; [by vm_compute|apply map_Forall_empty]. }
  destruct (e0.2 !! ip) as [n|] eqn:Hn.
  - split; simpl; [by rewrite mlen_insert_old by eauto|].
    apply map_Forall_insert_2; [|done]. pose proof (Hc0 _ _ Hn) as Hb.
    unfold i32_saturating_add, i32_max in *. simpl in *. lia.
  - destruct (MAX_IPS_PER_CHANGE_ENTRY <=? _) eqn:?; [by split|reflect_bools].
    split; simpl; [rewrite mlen_insert_new by done; lia|].
    apply map_Forall_insert_2; [|done]. unfold i32_max. lia.
Qed.

Lemma changes_wf_submap max m m' : m' ⊆ m → changes_wf max m → changes_wf max m'.
Proof.
  intros Hsub [Hr Hc]. split; [pose proof (mlen_subseteq _ _ Hsub); lia|].
  intros id e Hl. by eapply Hc, lookup_weaken.
Qed.
Lemma retain_changes_wf max now m :
  changes_wf max m → changes_wf max (retain_changes now m).
Proof. apply changes_wf_submap, map_filter_subseteq. Qed.

Lemma admit_id_wf max (m : IpChangesMap) id now adm m' :
  changes_wf max m → admit_id m id now max = (adm, m') → changes_wf max m'.
Proof.
  intros Hwf. unfold admit_id. destruct (m !! id) as [e|] eqn:Hid; [by intros; simplify_eq|].
  assert (changes_wf max (if max <=? mlen m then retain_changes now m else m)) as [Hr Hc].
  { case_match; [by apply retain_changes_wf|done]. }
  set (m1 := if max <=? mlen m then _ else m) in *.
  destruct (max <=? mlen m1) eqn:Hroom; intros; simplify_eq; [by split|reflect_bools].
  split; [pose proof (mlen_insert_le m1 id (now, ∅)); lia|].
  apply map_Forall_insert_2; [|done]. split; [by vm_compute|apply map_Forall_empty].
Qed.

Lemma record_ip_change_in_wf max (m : IpChangesMap) id ip now :
  changes_wf max m → changes_wf max (record_ip_change_in m id ip now max).2.
Proof.
  intros Hwf. unfold record_ip_change_in.
  destruct (admit_id m id now max) as [adm m1] eqn:Hadm.
  pose proof (admit_id_wf _ _ _ _ _ _ Hwf Hadm) as [Hr Hc].
  destruct adm; simpl; [|by split].
  destruct (m1 !! id) as [e|] eqn:He; [|by split].
  pose proof (count_change_wf ip now e (Hc _ _ He)).
  destruct (count_change ip now e) as [ok e']; simpl in *. split.
  - by rewrite mlen_insert_old by eauto.
  - by apply map_Forall_insert_2.
Qed.

(** ** Theorems *)

(** C14: In any span of [IP_BLOCK_DUR] (60) seconds, whatever mix of requests
    and cleanups happens and whatever the table already held, the limiter
    accepts at most [2 * IP_REQUEST_LIMIT] (60) requests of one source
    address: the fixed windows admit at most two full windows' worth. *)
Theorem limiter_rate_bound max m t ip es :
  blockers_wf max m →
  Forall (λ e, t ≤ event_time e < t + from_secs IP_BLOCK_DUR) es →
  0 ≤ accepted ip es (run_events max m es).1 ≤ 2 * IP_REQUEST_LIMIT.
Proof.
  intros Hwf Hes. split.
  - clear. generalize (run_events max m es).1 as os.
    induction es as [|[] es IH]; intros [|[] os]; simpl; try done; try case_decide;
      try specialize (IH os); lia.
  - transitivity (budget t (m !! ip)); [by apply run_events_budget|].
    apply budget_nonneg. intros. by eapply Hwf.
Qed.

Lemma limiter_rate_bound_witness :
  0 ≤ accepted "192.0.2.1"
        (replicate 31 (Request "192.0.2.1" "device01" 7))
        (run_events 16 ∅ (replicate 31 (Request "192.0.2.1" "device01" 7))).1
    ≤ 2 * IP_REQUEST_LIMIT.
Proof.
  apply (limiter_rate_bound 16 ∅ 0).
  - split; [by vm_compute|apply map_Forall_empty].
  - apply Forall_replicate. by vm_compute.
Defined.

(** C26: The bounded table, which evicts entries when it is full and on every
    cleanup, decides every request it has room for exactly as a reference that
    keeps one entry per address for ever: eviction never forgives a limit that
    is still in force, and never imposes one that is not. *)
Theorem limiter_refines_reference max t impl spec es os impl' :
  agrees t impl spec → monotone_from t es →
  run_events max impl es = (os, impl') →
  ∃ spec', run_reference spec es os = (os, spec') ∧ agrees (end_time t es) impl' spec'.
Proof.
  revert t impl spec os. induction es as [|e es IH]; intros t impl spec os Hag Hmon Hrun.
  { simpl in Hrun. simplify_eq. by eauto. }
  destruct Hmon as [Ht Hmon]. cbn [run_events] in Hrun.
  destruct (step_event max impl e) as [o impl1] eqn:Hstep.
  destruct (run_events max impl1 es) as [os1 impl2] eqn:Hrest. simplify_eq.
  pose proof (step_event_agrees _ _ _ _ _ _ _ Ht Hag Hstep) as Hone.
  rewrite run_reference_cons.
  destruct (run_reference spec [e] [o]) as [os2 spec1]. destruct Hone as [-> Hag1].
  destruct (IH _ _ _ _ Hag1 Hmon Hrest) as (spec' & Href & Hag'). rewrite Href. eauto.
Qed.

Lemma limiter_refines_reference_witness :
  ∃ spec',
    run_reference ∅ [Request "a" "id1" 0; Request "b" "id2" 1; Cleanup (from_secs DAY_SECONDS + 5)]
      [Accepted; NoRoom; Cleaned] = ([Accepted; NoRoom; Cleaned], spec')
    ∧ agrees (from_secs DAY_SECONDS + 5) ∅ spec'.
Proof.
  apply (limiter_refines_reference 1 0 ∅); [done|by vm_compute|by vm_compute].
Defined.

(** Whatever requests and cleanups reach [IP_BLOCKER], the table never
    holds more addresses than its capacity, no request counter passes
    [IP_REQUEST_LIMIT] (so the [u32] increment cannot wrap), and no day's set
    of identifiers passes [IP_DISTINCT_ID_LIMIT]. *)
Theorem blockers_stay_bounded max m es :
  blockers_wf max m → blockers_wf max (run_events max m es).2.
Proof. apply run_events_wf. Qed.

Lemma blockers_stay_bounded_witness :
  blockers_wf 2 (run_events 2 ∅
    [Request "a" "id1" 0; Request "b" "id2" 1; Request "c" "id3" 2]).2.
Proof.
  apply blockers_stay_bounded. split; [by vm_compute|apply map_Forall_empty].
Defined.

(** Recording an address change keeps the diagnostics table [IP_CHANGES]
    within its bounds, never refuses an address of an identifier it already
    counts, and answers [true] exactly when the address is counted afterwards
    with a positive, saturating [i32] count. *)
Theorem record_ip_change_bounded max m id ip now ok m' :
  changes_wf max m → record_ip_change_in m id ip now max = (ok, m') →
  changes_wf max m' ∧
  (ok = true ↔ ∃ e n, m' !! id = Some e ∧ e.2 !! ip = Some n ∧ 1 ≤ n ≤ i32_max).
Proof.
  intros Hwf Hrec. pose proof (record_ip_change_in_wf max m id ip now Hwf) as Hwf'.
  rewrite Hrec in Hwf'. simpl in Hwf'. split; [done|]. revert Hrec. unfold record_ip_change_in.
  destruct (admit_id m id now max) as [adm m1] eqn:Hadm.
  destruct adm; simpl.
  2:{ intros; simplify_eq. split; [done|]. intros (e & n & He & _).
      revert Hadm. unfold admit_id. destruct (m !! id) eqn:Hid; [done|].
      destruct (max <=? mlen _); intros; simplify_eq.
      destruct (max <=? mlen m); [|congruence].
      apply map_lookup_filter_Some in He as [He _]. congruence. }
  destruct (m1 !! id) as [e|] eqn:He.
  2:{ revert Hadm. unfold admit_id. destruct (m !! id) eqn:?; [naive_solver|].
      destruct (max <=? mlen _); intros; simplify_eq. by rewrite lookup_insert_eq in He. }
  destruct (count_change ip now e) as [ok1 e1] eqn:Hcount. intros; simplify_eq.
  assert (map_Forall (λ _ n, 1 ≤ n ≤ i32_max) e1.2) as Hc.
  { apply (changes_entries _ _ Hwf' id). by rewrite lookup_insert_eq. }
  assert (ok = true ↔ is_Some (e1.2 !! ip)) as Hiff.
  { revert Hcount. unfold count_change. generalize (if window_expired now e.1 IP_CHANGE_DUR then (now, ∅) else e).
    intros e0. destruct (e0.2 !! ip) as [n|] eqn:Hn; [|case_match]; intros; simplify_eq/=;
      rewrite ?lookup_insert_eq, ?Hn; (split; [intros; (discriminate || eauto)|intros [? ?]; (discriminate || done)]). }
  rewrite Hiff. split.
  - intros [n Hn]. exists e1, n. rewrite lookup_insert_eq. eauto.
  - intros (e' & n & He' & Hn & _). rewrite lookup_insert_eq in He'. simplify_eq. eauto.
Qed.

Lemma record_ip_change_bounded_witness :
  changes_wf 1 (record_ip_change_in ∅ "device01" "192.0.2.1" 0 1).2 ∧
  (true = true ↔ ∃ e n,
     (record_ip_change_in ∅ "device01" "192.0.2.1" 0 1).2 !! "device01" = Some e
     ∧ e.2 !! "192.0.2.1" = Some n ∧ 1 ≤ n ≤ i32_max).
Proof.
  apply (record_ip_change_bounded 1 ∅ "device01" "192.0.2.1" 0 true).
  - split; [by vm_compute|apply map_Forall_empty].
  - by vm_compute.
Defined.

(** The periodic cleanup removes from the two tables exactly the entries
    whose windows are over, leaves every other entry as it was, and returns how
    many it removed from each. *)
Theorem cleanup_removes_exactly_stale now t b c t' :
  cleanup_transient_state now t = ((b, c), t') →
  (∀ ip, tr_blockers t' !! ip =
     e ← tr_blockers t !! ip; if blocker_live now e then Some e else None) ∧
  (∀ id, tr_changes t' !! id =
     e ← tr_changes t !! id;
     if window_expired now e.1 IP_CHANGE_DUR_X2 then None else Some e) ∧
  b = mlen (tr_blockers t) - mlen (tr_blockers t') ∧ 0 ≤ b ∧
  c = mlen (tr_changes t) - mlen (tr_changes t') ∧ 0 ≤ c.
Proof.
  unfold cleanup_transient_state. intros; simplify_eq/=. split_and!; try done.
  - apply retain_blockers_lookup.
  - intros id. unfold retain_changes. rewrite map_lookup_filter.
    destruct (tr_changes t !! id) as [e|]; simpl; [|done].
    by destruct (window_expired now e.1 _).
  - apply Z.le_0_sub, mlen_filter_le.
  - apply Z.le_0_sub, mlen_filter_le.
Qed.

Lemma cleanup_removes_exactly_stale_witness :
  let t := mkTransient {[ "a" := ((1, 0), ({["id"]}, 0)) ]} {[ "id" := (0, {[ "a" := 1 ]}) ]} in
  let t' := (cleanup_transient_state (from_secs 400) t).2 in
  (∀ ip, tr_blockers t' !! ip =
     e ← tr_blockers t !! ip; if blocker_live (from_secs 400) e then Some e else None) ∧
  (∀ id, tr_changes t' !! id =
     e ← tr_changes t !! id;
     if window_expired (from_secs 400) e.1 IP_CHANGE_DUR_X2 then None else Some e) ∧
  0 = mlen (tr_blockers t) - mlen (tr_blockers t') ∧ 0 ≤ 0 ∧
  1 = mlen (tr_changes t) - mlen (tr_changes t') ∧ 0 ≤ 1.
Proof.
  intros t t'. apply (cleanup_removes_exactly_stale (from_secs 400) t 0 1). by vm_compute.
Defined.
