(* ===== verification/Database.v ===== *)
(** The peer database ([src/database.rs]).

    [PeerStore] is the interface the rest of the server relies on: three
    operations over a mapping from identifiers to stored peers, with the laws of
    a store whose statements either happen completely or not at all.
    [SqlDb] is the implementation: the table [peer] with its primary key on
    [guid] and its unique index on [id], and the three SQL statements of the
    source.  SQLite itself and the connection pool are not modelled beyond
    that: any call may fail ([fault], by call number) without effect.  The
    columns the source never reads ([created_at], [user], [status], [note]) are
    left out here; [PeerTable] has the rows with all of them. *)

From S2P Require Import Prelude.

(** A stored peer ([database::Peer]): what [get_peer] selects. *)
Record DbPeer := mkDbPeer {
  db_guid : bytes;
  db_uuid : bytes;
  db_pk : bytes;
  db_info : string
}.

#[export] Instance DbPeer_eq_dec : EqDecision DbPeer.
Proof. solve_decision. Defined.

(** ** The interface *)

Class PeerStore (D : Type) := {
  (** The states the store can be in. *)
  ps_ok : D → Prop;
  (** The committed row of an identifier. *)
  ps_row : D → string → option DbPeer;
  ps_get_peer : D → string → result (option DbPeer) * D;
  ps_insert_peer : D → string → bytes → bytes → string → result bytes * D;
  ps_update_identity : D → bytes → string → bytes → bytes → string → result unit * D;

  ps_get_spec : ∀ d id r d', ps_ok d → ps_get_peer d id = (r, d') →
    ps_ok d' ∧ (∀ i, ps_row d' i = ps_row d i) ∧ (∀ o, r = Ok o → o = ps_row d id);
  ps_insert_err : ∀ d id uuid pk info e d',
    ps_ok d → ps_insert_peer d id uuid pk info = (Err e, d') →
    ps_ok d' ∧ ∀ i, ps_row d' i = ps_row d i;
  ps_insert_ok : ∀ d id uuid pk info guid d',
    ps_ok d → ps_insert_peer d id uuid pk info = (Ok guid, d') →
    ps_ok d' ∧ guid ≠ [] ∧ ps_row d id = None ∧
    (∀ i, ps_row d' i =
       if decide (i = id) then Some (mkDbPeer guid uuid pk info) else ps_row d i);
  ps_update_err : ∀ d guid id uuid pk info e d',
    ps_ok d → ps_update_identity d guid id uuid pk info = (Err e, d') →
    ps_ok d' ∧ ∀ i, ps_row d' i = ps_row d i;
  ps_update_ok : ∀ d guid id uuid pk info d',
    ps_ok d → ps_update_identity d guid id uuid pk info = (Ok tt, d') →
    ps_ok d' ∧
    ∀ p, ps_row d id = Some p → db_guid p = guid →
    ∀ i, ps_row d' i =
      if decide (i = id) then Some (mkDbPeer guid uuid pk info) else ps_row d i
}.

(** ** The SQL table *)

(** The rows by their [id] (unique index); [guid] is unique too, which every
    statement checks.  [sql_calls] and [sql_uuids] count the calls made and the
    UUIDs drawn. *)
Record SqlDb := mkSqlDb {
  sql_peer : gmap string DbPeer;
  sql_calls : nat;
  sql_uuids : nat
}.

(** The rows with a given primary key: at most one. *)
Definition sql_with_guid (guid : bytes) (t : gmap string DbPeer) : list (string * DbPeer) :=
  map_to_list (filter (λ kv : string * DbPeer, db_guid kv.2 = guid) t).

Section Sql.
(** [Uuid::new_v4] by draw number, and whether a call's connection or
    statement fails, by call number. *)
Context (new_v4 : nat → bytes) (fault : nat → bool).

Definition sql_called (d : SqlDb) : SqlDb :=
  mkSqlDb (sql_peer d) (S (sql_calls d)) (sql_uuids d).

(** [select guid, uuid, pk, info from peer where id = ?]. *)
Definition get_peer (d : SqlDb) (id : string) : result (option DbPeer) * SqlDb :=
  if fault (sql_calls d) then (Err "database", sql_called d)
  else (Ok (sql_peer d !! id), sql_called d).

(** [insert into peer(guid, id, uuid, pk, info) values(?, ?, ?, ?, ?)]: a
    constraint violation on either key is an error. *)
Definition insert_peer (d : SqlDb) (id : string) (uuid pk : bytes) (info : string)
    : result bytes * SqlDb :=
  let guid := new_v4 (sql_uuids d) in
  let d' := mkSqlDb (sql_peer d) (S (sql_calls d)) (S (sql_uuids d)) in
  if fault (sql_calls d) then (Err "database", d') else
  match sql_peer d !! id with
  | Some _ => (Err "UNIQUE constraint failed: peer.id", d')
  | None =>
      if is_empty (sql_with_guid guid (sql_peer d))
      then (Ok guid, mkSqlDb (<[id := mkDbPeer guid uuid pk info]> (sql_peer d))
                             (S (sql_calls d)) (S (sql_uuids d)))
      else (Err "UNIQUE constraint failed: peer.guid", d')
  end.

(** [update peer set id=?, uuid=?, pk=?, info=? where guid=?]: no row with
    that key is not an error. *)
Definition update_identity (d : SqlDb) (guid : bytes) (id : string)
    (uuid pk : bytes) (info : string) : result unit * SqlDb :=
  if fault (sql_calls d) then (Err "database", sql_called d) else
  match sql_with_guid guid (sql_peer d) with
  | [] => (Ok tt, sql_called d)
  | (id0, _) :: _ =>
      if bool_decide (id0 ≠ id ∧ is_Some (sql_peer d !! id))
      then (Err "UNIQUE constraint failed: peer.id", sql_called d)
      else (Ok tt, mkSqlDb (<[id := mkDbPeer guid uuid pk info]> (delete id0 (sql_peer d)))
                           (S (sql_calls d)) (sql_uuids d))
  end.
End Sql.

(** The primary key: no two rows share a [guid]. *)
Definition guids_unique (t : gmap string DbPeer) : Prop :=
  ∀ i j p q, t !! i = Some p → t !! j = Some q → db_guid p = db_guid q → i = j.

(** ** Lemmas *)

Lemma sql_with_guid_elem guid t id p :
  (id, p) ∈ sql_with_guid guid t ↔ t !! id = Some p ∧ db_guid p = guid.
Proof. unfold sql_with_guid. by rewrite elem_of_map_to_list, map_lookup_filter_Some. Qed.

Lemma sql_with_guid_nil guid t :
  sql_with_guid guid t = [] ↔ ∀ id p, t !! id = Some p → db_guid p ≠ guid.
Proof.
  split.
  - intros Hnil id p Hp Hg. assert ((id, p) ∈ sql_with_guid guid t) as Hin
      by (by apply sql_with_guid_elem). rewrite Hnil in Hin. by apply elem_of_nil in Hin.
  - intros Hno. destruct (sql_with_guid guid t) as [|[id p] l] eqn:E; [done|].
    assert ((id, p) ∈ sql_with_guid guid t) as Hin by (rewrite E; left).
    apply sql_with_guid_elem in Hin as [??]. by destruct (Hno id p).
Qed.

Lemma sql_with_guid_head guid t id p l :
  sql_with_guid guid t = (id, p) :: l → t !! id = Some p ∧ db_guid p = guid.
Proof. intros E. apply sql_with_guid_elem. rewrite E. left. Qed.

Lemma is_empty_true {A} (l : list A) : is_empty l = true ↔ l = [].
Proof. by destruct l. Qed.

Section SqlLemmas.
Context (new_v4 : nat → bytes) (fault : nat → bool).

Lemma insert_peer_ok d id uuid pk info guid d' :
  insert_peer new_v4 fault d id uuid pk info = (Ok guid, d') →
  guid = new_v4 (sql_uuids d) ∧ sql_peer d !! id = None ∧
  (∀ i p, sql_peer d !! i = Some p → db_guid p ≠ guid) ∧
  sql_peer d' = <[id := mkDbPeer guid uuid pk info]> (sql_peer d).
Proof.
  unfold insert_peer. intros Hins. repeat case_match; simplify_eq/=.
  split_and!; [done..| |done]. by apply sql_with_guid_nil, is_empty_true.
Qed.

Lemma insert_peer_err d id uuid pk info e d' :
  insert_peer new_v4 fault d id uuid pk info = (Err e, d') → sql_peer d' = sql_peer d.
Proof. unfold insert_peer. intros. by repeat case_match; simplify_eq/=. Qed.

Lemma update_identity_err d guid id uuid pk info e d' :
  update_identity fault d guid id uuid pk info = (Err e, d') → sql_peer d' = sql_peer d.
Proof. unfold update_identity. intros. by repeat case_match; simplify_eq/=. Qed.

Lemma update_identity_ok d guid id uuid pk info d' :
  update_identity fault d guid id uuid pk info = (Ok tt, d') →
  sql_peer d' = sql_peer d ∧ (∀ i p, sql_peer d !! i = Some p → db_guid p ≠ guid) ∨
  ∃ id0 p0, sql_peer d !! id0 = Some p0 ∧ db_guid p0 = guid ∧
    (id0 = id ∨ sql_peer d !! id = None) ∧
    sql_peer d' = <[id := mkDbPeer guid uuid pk info]> (delete id0 (sql_peer d)).
Proof.
  unfold update_identity. destruct (fault _); [done|].
  destruct (sql_with_guid guid (sql_peer d)) as [|[id0 p0] l] eqn:E; intros Hupd.
  - simplify_eq. left. split; [done|]. by apply sql_with_guid_nil.
  - apply sql_with_guid_head in E as [??]. right. exists id0, p0.
    case_bool_decide as Hc; simplify_eq/=. split_and!; try done.
    destruct (decide (id0 = id)); [by left|right].
    destruct (sql_peer d !! id) eqn:?; [|done]. destruct Hc; eauto.
Qed.

Lemma update_identity_ok_same d guid id uuid pk info p d' :
  guids_unique (sql_peer d) → sql_peer d !! id = Some p → db_guid p = guid →
  update_identity fault d guid id uuid pk info = (Ok tt, d') →
  sql_peer d' = <[id := mkDbPeer guid uuid pk info]> (sql_peer d).
Proof.
  intros Huniq Hp Hg Hupd.
  apply update_identity_ok in Hupd as [[_ Hno]|(id0 & p0 & H0 & Hg0 & _ & ->)].
  - by destruct (Hno id p).
  - assert (id0 = id) as -> by (eapply Huniq; eauto; congruence).
    by rewrite insert_delete_eq.
Qed.

(** [guid] stays a key. *)
Lemma insert_guids_unique d id uuid pk info r d' :
  guids_unique (sql_peer d) → insert_peer new_v4 fault d id uuid pk info = (r, d') →
  guids_unique (sql_peer d').
Proof.
  intros Huniq Hins. destruct r as [guid|e].
  2:{ by apply insert_peer_err in Hins as ->. }
  apply insert_peer_ok in Hins as (_ & Hnone & Hfresh & ->).
  intros i j p q. rewrite !lookup_insert_Some. intros [[??]|[??]] [[??]|[??]] Hg; simplify_eq/=.
  - done.
  - by destruct (Hfresh j q).
  - by destruct (Hfresh i p).
  - eauto.
Qed.

Lemma update_guids_unique d guid id uuid pk info r d' :
  guids_unique (sql_peer d) → update_identity fault d guid id uuid pk info = (r, d') →
  guids_unique (sql_peer d').
Proof.
  intros Huniq Hupd. destruct r as [[]|e].
  2:{ by apply update_identity_err in Hupd as ->. }
  apply update_identity_ok in Hupd as [[-> _]|(id0 & p0 & H0 & Hg0 & _ & ->)]; [done|].
  intros i j p q. rewrite !lookup_insert_Some, !lookup_delete_Some.
  intros [[??]|(? & ? & ?)] [[??]|(? & ? & ?)] Hg; simplify_eq/=; eauto.
  - destruct (Huniq id0 j p0 q); naive_solver.
  - destruct (Huniq id0 i p0 p); naive_solver.
Qed.
End SqlLemmas.

(** ** The table implements the interface *)

Section Instance.
Context (new_v4 : nat → bytes) (fault : nat → bool).
(** A UUID is 16 bytes long. *)
Hypothesis new_v4_length : ∀ n, length (new_v4 n) = 16%nat.

#[program] Definition SqlPeerStore : PeerStore SqlDb := {|
  ps_ok d := guids_unique (sql_peer d);
  ps_row d id := sql_peer d !! id;
  ps_get_peer := get_peer fault;
  ps_insert_peer := insert_peer new_v4 fault;
  ps_update_identity := update_identity fault
|}.
Next Obligation.
  intros d id r d' Hok. unfold get_peer. intros Hget.
  case_match; simplify_eq/=; split_and!; try done; intros; by simplify_eq/=.
Qed.
Next Obligation.
  intros d id uuid pk info e d' Hok Hins.
  split; [exact (insert_guids_unique _ _ _ _ _ _ _ _ _ Hok Hins)|]. by rewrite (insert_peer_err _ _ _ _ _ _ _ _ _ Hins).
Qed.
Next Obligation.
  intros d id uuid pk info guid d' Hok Hins.
  split; [exact (insert_guids_unique _ _ _ _ _ _ _ _ _ Hok Hins)|].
  apply insert_peer_ok in Hins as (-> & Hnone & _ & Ht). split_and!.
  - intros Hnil. pose proof (new_v4_length (sql_uuids d)) as Hl. by rewrite Hnil in Hl.
  - done.
  - intros i. rewrite Ht, lookup_insert. repeat case_decide; by subst.
Qed.
Next Obligation.
  intros d guid id uuid pk info e d' Hok Hupd.
  split; [exact (update_guids_unique _ _ _ _ _ _ _ _ _ Hok Hupd)|]. by rewrite (update_identity_err _ _ _ _ _ _ _ _ _ Hupd).
Qed.
Next Obligation.
  intros d guid id uuid pk info d' Hok Hupd.
  split; [exact (update_guids_unique _ _ _ _ _ _ _ _ _ Hok Hupd)|]. intros p Hp Hg i.
  rewrite (update_identity_ok_same _ _ _ _ _ _ _ _ _ Hok Hp Hg Hupd).
  rewrite lookup_insert. repeat case_decide; by subst.
Qed.
End Instance.

(** ** Theorems *)

(** A draw of distinct UUIDs, for the concrete instances. *)
Definition sample_uuid (n : nat) : bytes := Z.of_nat n :: replicate 15 7.
Definition no_fault (_ : nat) : bool := false.
Definition empty_db : SqlDb := mkSqlDb ∅ 0 0.

#[export] Instance sample_store : PeerStore SqlDb :=
  SqlPeerStore sample_uuid no_fault ltac:(done).

Lemma empty_db_unique : guids_unique (sql_peer empty_db).
Proof. intros i j p q Hp. simpl in Hp. by apply lookup_empty_Some in Hp. Qed.

(** A peer that was inserted, and then had its identity updated, is read
    back with exactly the stored fields, under the key it was created with; a
    second insertion of the same identifier is refused by the unique index and
    leaves the table as it was. *)
Theorem database_roundtrip new_v4 fault d id uuid pk info guid d1 uuid' pk' info' d2 r d3 :
  guids_unique (sql_peer d) →
  insert_peer new_v4 fault d id uuid pk info = (Ok guid, d1) →
  (∀ e d', insert_peer new_v4 fault d1 id uuid' pk' info' = (e, d') →
     is_ok e = false ∧ sql_peer d' = sql_peer d1) ∧
  (get_peer fault d1 id = (Ok r, d3) → r = Some (mkDbPeer guid uuid pk info)) ∧
  (update_identity fault d1 guid id uuid' pk' info' = (Ok tt, d2) →
   get_peer fault d2 id = (Ok r, d3) → r = Some (mkDbPeer guid uuid' pk' info')).
Proof.
  intros Huniq Hins. pose proof (insert_guids_unique _ _ _ _ _ _ _ _ _ Huniq Hins) as Huniq1.
  apply insert_peer_ok in Hins as (_ & _ & _ & Ht1).
  assert (sql_peer d1 !! id = Some (mkDbPeer guid uuid pk info)) as Hid.
  { by rewrite Ht1, lookup_insert_eq. }
  split_and!.
  - intros e d' Hins'. destruct e as [g|e].
    + apply insert_peer_ok in Hins' as (_ & Hnone & _). congruence.
    + split; [done|]. by eapply insert_peer_err.
  - unfold get_peer. destruct (fault _); intros; simplify_eq. done.
  - intros Hupd. pose proof (update_identity_ok_same _ _ _ _ _ _ _ _ _ Huniq1 Hid eq_refl Hupd) as Ht2.
    unfold get_peer. destruct (fault _); intros; simplify_eq. by rewrite Ht2, lookup_insert_eq.
Qed.

Lemma database_roundtrip_witness :
  let d1 := (insert_peer sample_uuid no_fault empty_db "device01" [1] [2] "{}").2 in
  let second := insert_peer sample_uuid no_fault d1 "device01" [3] [4] "{}" in
  is_ok second.1 = false ∧ sql_peer second.2 = sql_peer d1.
Proof.
  intros d1 second.
  apply (proj1 (database_roundtrip sample_uuid no_fault empty_db "device01" [1] [2] "{}"
    (sample_uuid 0) d1 [3] [4] "{}" d1 None d1 empty_db_unique ltac:(by vm_compute)) second.1).
  apply surjective_pairing.
Defined.

(** Under every sequence of statements the column [guid] stays a key:
    insertions and identity updates, successful or not, never leave two rows
    with the same [guid]. *)
Theorem guid_stays_a_key new_v4 fault d :
  guids_unique (sql_peer d) →
  (∀ id, guids_unique (sql_peer (get_peer fault d id).2)) ∧
  (∀ id uuid pk info, guids_unique (sql_peer (insert_peer new_v4 fault d id uuid pk info).2)) ∧
  (∀ guid id uuid pk info,
     guids_unique (sql_peer (update_identity fault d guid id uuid pk info).2)).
Proof.
  intros Huniq. split_and!; intros.
  - unfold get_peer. by destruct (fault _).
  - eapply insert_guids_unique; [done|apply surjective_pairing].
  - eapply update_guids_unique; [done|apply surjective_pairing].
Qed.

Lemma guid_stays_a_key_witness :
  guids_unique (sql_peer (insert_peer sample_uuid no_fault
    (insert_peer sample_uuid no_fault empty_db "device01" [1] [2] "{}").2 "device02" [1] [2] "{}").2).
Proof.
  apply (guid_stays_a_key sample_uuid no_fault), (guid_stays_a_key sample_uuid no_fault).
  apply empty_db_unique.
Defined.
