(* ===== verification/PeerTable.v ===== *)
(** The table behind [Database]: its schema and the SQL of its statements
    ([src/database.rs]).

    [Database] works on finite maps from identifiers to peers.  Here are the
    rows themselves, with all the columns [create_tables] declares, and what an
    [insert], an [update] and a [select] of the source do to them: defaults,
    [not null], the primary key and the unique index, a statement that fails
    changing nothing.  The semantics is that of SQL for any table
    ([Table]); the schema and the statements are those of the source.

    The theorem: the operations of [Database] are these statements on this
    table ([database_refines_table]).  The connection options and the opening of
    the database are here too; SQLite and the pool stay outside. *)

From Stdlib Require Import String.
From S2P Require Import Prelude.
From S2P Require Import Database.

(** ** Tables and statements *)

(** A value of a row.  Bound parameters are blobs and text, of which [=] compares
    the contents; it is never true of [null]. *)
Inductive Value :=
  | Null
  | Blob (b : bytes)
  | Text (s : string).
#[export] Instance Value_eq_dec : EqDecision Value.
Proof. solve_decision. Defined.

Inductive DefaultValue := CurrentTimestamp.
Record Column := mkColumn { col_name : string; col_not_null : bool; col_default : option DefaultValue }.
(** The columns, and the columns that are a key on their own: the primary key
    and the unique indexes. *)
Record Table := mkTable { tb_columns : list Column; tb_keys : list string }.

Abbreviation TableRow := (gmap string Value).

Section Statements.
Context (t : Table).

Definition equals (v w : Value) : bool := bool_decide (v = w ∧ v ≠ Null).
Definition cell (r : TableRow) (c : string) : Value := default Null (r !! c).
(** The rows [where c = v] selects. *)
Definition matches (c : string) (v : Value) (r : TableRow) : bool := equals (cell r c) v.

Definition conflict (r r' : TableRow) : bool :=
  existsb (λ k, equals (cell r k) (cell r' k)) (tb_keys t).

Definition default_of (now : string) (c : Column) : Value :=
  match col_default c with Some CurrentTimestamp => Text now | None => Null end.

(** [insert into t(cols) values(vals)] at the time [now]. *)
Definition insert_into (now : string) (given : list (string * Value)) (rows : list TableRow)
    : result (list TableRow) :=
  let row := list_to_map ((λ c, (col_name c,
    match (list_to_map given : TableRow) !! col_name c with Some v => v | None => default_of now c end)) <$> tb_columns t) in
  if existsb (λ c, col_not_null c && bool_decide (cell row (col_name c) = Null)) (tb_columns t)
  then Err "NOT NULL constraint failed"
  else if existsb (conflict row) rows then Err "UNIQUE constraint failed"
  else Ok (rows ++ [row]).

(** [update t set given where c = v], row by row. *)
Definition assign (given : list (string * Value)) (r : TableRow) : TableRow :=
  foldl (λ r x, <[x.1 := x.2]> r) r given.
Fixpoint update_rows (given : list (string * Value)) (c : string) (v : Value)
    (before rows : list TableRow) : result (list TableRow) :=
  match rows with
  | [] => Ok before
  | r :: rows =>
      if matches c v r then
        if existsb (conflict (assign given r)) (before ++ rows) then Err "UNIQUE constraint failed"
        else update_rows given c v (before ++ [assign given r]) rows
      else update_rows given c v (before ++ [r]) rows
  end.
Definition update_set (given : list (string * Value)) (c : string) (v : Value) (rows : list TableRow)
    : result (list TableRow) :=
  if existsb (λ c, col_not_null c && bool_decide ((list_to_map given : TableRow) !! col_name c = Some Null))
       (tb_columns t) && existsb (matches c v) rows
  then Err "NOT NULL constraint failed"
  else update_rows given c v [] rows.

(** [select cols from t where c = v]. *)
Definition select_from (cols : list string) (c : string) (v : Value) (rows : list TableRow)
    : list (list Value) :=
  (λ r, cell r <$> cols) <$> filter (λ r, matches c v r = true) rows.
End Statements.

(** ** The source's table *)

(** [create table if not exists peer (...)] and the indexes that constrain
    ([index_peer_user] and the two others only speed searches up). *)
Definition peer_table : Table := mkTable
  [mkColumn "guid" true None; mkColumn "id" true None; mkColumn "uuid" true None; mkColumn "pk" true None;
   mkColumn "created_at" true (Some CurrentTimestamp); mkColumn "user" false None; mkColumn "status" false None;
   mkColumn "note" false None; mkColumn "info" true None]
  ["guid"; "id"].

(** [fetch_optional] and [try_get]. *)
Definition get_peer_sql (id : string) (rows : list TableRow) : result (option DbPeer) :=
  match select_from ["guid"; "uuid"; "pk"; "info"] "id" (Text id) rows with
  | [] => Ok None
  | [Blob guid; Blob uuid; Blob pk; Text info] :: _ => Ok (Some (mkDbPeer guid uuid pk info))
  | _ :: _ => Err "error occurred while decoding column"
  end.

Definition insert_peer_sql (now : string) (guid : bytes) (id : string) (uuid pk : bytes) (info : string)
    (rows : list TableRow) : result (list TableRow) :=
  insert_into peer_table now
    [("guid", Blob guid); ("id", Text id); ("uuid", Blob uuid); ("pk", Blob pk); ("info", Text info)] rows.

Definition update_identity_sql (guid : bytes) (id : string) (uuid pk : bytes) (info : string)
    (rows : list TableRow) : result (list TableRow) :=
  update_set peer_table [("id", Text id); ("uuid", Blob uuid); ("pk", Blob pk); ("info", Text info)]
    "guid" (Blob guid) rows.

(** ** Opening the database *)

Inductive JournalMode := Delete | Truncate | Persist | Memory | Wal | JournalOff.
Inductive Synchronous := SyncOff | SyncNormal | SyncFull | SyncExtra.
Inductive LevelFilter := LogOff | LogError | LogWarn | LogInfo | LogDebug | LogTrace.

(** [SqliteConnectOptions], as far as the source sets it. *)
Record ConnectOptions := mkConnectOptions {
  co_filename : string;
  co_create_if_missing : bool;
  co_foreign_keys : bool;
  co_journal_mode : JournalMode;
  co_synchronous : Synchronous;
  co_busy_timeout : Z;
  co_log_statements : LevelFilter
}.

(** SQLite and the pool: parsing a URL (with the library's defaults), building a
    pool of a size, connecting, and [create ... if not exists]. *)
Class SqliteLibrary (D : Type) := {
  options_from_str : string → result ConnectOptions;
  build_pool : Z → result unit;
  connect_with : ConnectOptions → result D;
  create_if_not_exists : Table → D → result D
}.

Section Opening.
Context `{!SqliteLibrary D}.

(** [DbPool::create]: how the pool makes a connection. *)
Definition pool_options (o : ConnectOptions) : ConnectOptions :=
  mkConnectOptions (co_filename o) true true Wal SyncFull (from_secs 10) LogDebug.
Definition create_connection (url : string) : result D :=
  o ← options_from_str url;
  connect_with (pool_options o).

Definition create_tables (d : D) : result D := create_if_not_exists peer_table d.

(** [Database::new] once its setting is read: the first connection is the
    test. *)
Definition open_database (url : string) (max_size : Z) : result D :=
  build_pool max_size;;
  d ← create_connection url;
  create_tables d.

(** Whatever the URL says, every commit is synchronised to disk before it is
    reported, and a locked database is waited for. *)
Lemma opened_durably url n d :
  open_database url n = Ok d →
  ∃ o d0, connect_with o = Ok d0 ∧ create_tables d0 = Ok d ∧
    co_journal_mode o = Wal ∧ co_synchronous o = SyncFull ∧ co_busy_timeout o = from_secs 10.
Proof.
  intros ([] & _ & (d0 & (o & _ & Hd0)%result_bind_ok & Hd)%result_bind_ok)%result_bind_ok.
  by exists (pool_options o), d0.
Qed.
End Opening.

(** ** The peers in the rows *)

Definition peer_in (r : TableRow) : option (string * DbPeer) :=
  match r !! "id", r !! "guid", r !! "uuid", r !! "pk", r !! "info" with
  | Some (Text id), Some (Blob guid), Some (Blob uuid), Some (Blob pk), Some (Text info) =>
      Some (id, mkDbPeer guid uuid pk info)
  | _, _, _, _, _ => None
  end.

Definition key_of (x : string * DbPeer) : bytes := db_guid x.2.

(** The rows are the peers of [m], one row each. *)
Definition stored (rows : list TableRow) (m : gmap string DbPeer) : Prop :=
  ∃ l, Forall2 (λ r x, peer_in r = Some x) rows l ∧ NoDup l.*1 ∧ NoDup (key_of <$> l) ∧ m = list_to_map l.

(** ** Lemmas *)

Lemma peer_in_some r id p :
  peer_in r = Some (id, p) ↔
    r !! "id" = Some (Text id) ∧ r !! "guid" = Some (Blob (db_guid p)) ∧ r !! "uuid" = Some (Blob (db_uuid p)) ∧
    r !! "pk" = Some (Blob (db_pk p)) ∧ r !! "info" = Some (Text (db_info p)).
Proof.
  unfold peer_in. split.
  - intros Hp. repeat case_match; simplify_eq/=. done.
  - destruct p. by intros (-> & -> & -> & -> & ->).
Qed.

Lemma equals_text a b : equals (Text a) (Text b) = bool_decide (a = b).
Proof. unfold equals. apply bool_decide_ext. naive_solver. Qed.
Lemma equals_blob a b : equals (Blob a) (Blob b) = bool_decide (a = b).
Proof. unfold equals. apply bool_decide_ext. naive_solver. Qed.

Lemma matches_id r x id : peer_in r = Some x → matches "id" (Text id) r = bool_decide (x.1 = id).
Proof. destruct x. intros (H & _)%peer_in_some. unfold matches, cell. by rewrite H, <-equals_text. Qed.
Lemma matches_guid r x g : peer_in r = Some x → matches "guid" (Blob g) r = bool_decide (key_of x = g).
Proof. destruct x. intros (_ & H & _)%peer_in_some. unfold matches, cell. by rewrite H, <-equals_blob. Qed.
Lemma conflict_peers r r' x y :
  peer_in r = Some x → peer_in r' = Some y →
  conflict peer_table r r' = bool_decide (x.1 = y.1 ∨ key_of x = key_of y).
Proof.
  destruct x, y. intros (H1 & H2 & _)%peer_in_some (H3 & H4 & _)%peer_in_some.
  unfold conflict, cell. simpl. rewrite H1, H2, H3, H4. simpl. rewrite equals_text, equals_blob.
  unfold key_of. simpl. repeat case_bool_decide; naive_solver.
Qed.

(** The rows of a list of peers. *)
Abbreviation rows_of := (Forall2 (λ r x, peer_in r = Some x)).

Lemma conflicts rows l r x :
  rows_of rows l → peer_in r = Some x →
  existsb (conflict peer_table r) rows = true ↔ x.1 ∈ l.*1 ∨ key_of x ∈ key_of <$> l.
Proof.
  intros Hrows Hr. induction Hrows as [|r' y rows l Hy _ IH]; simpl.
  - split; [done|]. by intros [?%elem_of_nil|?%elem_of_nil].
  - rewrite orb_true_iff, IH, (conflict_peers _ _ _ _ Hr Hy), bool_decide_eq_true, !elem_of_cons. tauto.
Qed.

Lemma rows_with rows l id :
  rows_of rows l →
  rows_of (filter (λ r, matches "id" (Text id) r = true) rows) (filter (λ x, x.1 = id) l).
Proof.
  induction 1 as [|r x rows l Hx _ IH]; [done|]. rewrite !filter_cons, (matches_id _ _ _ Hx).
  repeat case_decide; try (by constructor); by case_bool_decide.
Qed.

Lemma without_guid rows l g :
  rows_of rows l → g ∉ key_of <$> l → Forall (λ r, matches "guid" (Blob g) r = false) rows.
Proof.
  induction 1 as [|r x rows l Hx _ IH]; intros Hg; constructor.
  - rewrite (matches_guid _ _ _ Hx). apply bool_decide_eq_false. intros <-. apply Hg. by left.
  - apply IH. intros Hin. apply Hg. by right.
Qed.

(** The row [where id = ?] finds is the one the map has. *)
Lemma head_with {A} (l : list (string * A)) id :
  NoDup l.*1 → (list_to_map l : gmap string A) !! id = snd <$> head (filter (λ x, x.1 = id) l).
Proof.
  induction l as [|[i a] l IH]; simpl; [by rewrite lookup_empty|].
  intros [Hi Hl]%list.NoDup_cons. rewrite filter_cons. simpl. destruct (decide (i = id)) as [->|Hne].
  - by rewrite lookup_insert_eq.
  - by rewrite lookup_insert_ne, IH.
Qed.

(** An update that finds no row, and one that finds one. *)
Lemma update_rows_none t given c v before rows :
  Forall (λ r, matches c v r = false) rows → update_rows t given c v before rows = Ok (before ++ rows).
Proof.
  intros Hrows. revert before. induction Hrows as [|r rows Hr _ IH]; intros before; simpl.
  - by rewrite app_nil_r.
  - by rewrite Hr, IH, <-app_assoc.
Qed.
Lemma update_rows_one t given c v before rows1 r rows2 :
  Forall (λ r, matches c v r = false) rows1 → matches c v r = true →
  Forall (λ r, matches c v r = false) rows2 →
  update_rows t given c v before (rows1 ++ r :: rows2) =
    if existsb (conflict t (assign given r)) ((before ++ rows1) ++ rows2) then Err "UNIQUE constraint failed"
    else Ok (before ++ rows1 ++ assign given r :: rows2).
Proof.
  intros H1 Hr H2. revert before. induction H1 as [|r1 rows1 Hr1 _ IH]; intros before; simpl.
  - rewrite Hr, app_nil_r, update_rows_none by done. by rewrite <-app_assoc.
  - rewrite Hr1, IH. by rewrite <-!app_assoc.
Qed.

(** One peer of the list takes another identifier. *)
Lemma list_to_map_replace {A} (l1 l2 : list (string * A)) id0 a0 id a :
  NoDup (l1 ++ (id0, a0) :: l2).*1 → id ∉ (l1 ++ l2).*1 →
  NoDup (l1 ++ (id, a) :: l2).*1 ∧
  (list_to_map (l1 ++ (id, a) :: l2) : gmap string A) =
    <[id := a]> (delete id0 (list_to_map (l1 ++ (id0, a0) :: l2))).
Proof.
  intros Hn Hid. rewrite <-Permutation_middle in Hn.
  assert (NoDup (l1 ++ (id, a) :: l2).*1) as Hn'.
  { rewrite <-Permutation_middle. simpl in *. apply list.NoDup_cons in Hn as [_ Hn]. by constructor. }
  split; [done|]. rewrite (list_to_map_proper (l1 ++ (id, a) :: l2) ((id, a) :: l1 ++ l2)) by
    (done || by rewrite <-Permutation_middle).
  rewrite (list_to_map_proper (l1 ++ (id0, a0) :: l2) ((id0, a0) :: l1 ++ l2)) by
    (by rewrite <-?Permutation_middle).
  simpl in *. apply list.NoDup_cons in Hn as [Hid0 _]. rewrite delete_insert_id; [done|].
  by apply not_elem_of_list_to_map.
Qed.

Lemma NoDup_snoc {A} (l : list A) x : NoDup l → x ∉ l → NoDup (l ++ [x]).
Proof. intros Hl Hx. rewrite Permutation_app_comm. by constructor. Qed.

Lemma get_peer_rows rows m id : stored rows m → get_peer_sql id rows = Ok (m !! id).
Proof.
  intros (l & Hrows & Hids & _ & ->). rewrite head_with by done.
  unfold get_peer_sql, select_from. destruct (rows_with _ _ id Hrows) as [|r [i p] ? ? Hr _]; simpl; [done|].
  apply peer_in_some in Hr as (_ & Hg & Hu & Hk & Hi). unfold cell. rewrite Hg, Hu, Hk, Hi. by destruct p.
Qed.

Lemma insert_peer_rows now rows m guid id uuid pk info :
  stored rows m →
  match insert_peer_sql now guid id uuid pk info rows with
  | Ok rows' => m !! id = None ∧ sql_with_guid guid m = [] ∧ stored rows' (<[id := mkDbPeer guid uuid pk info]> m)
  | Err _ => is_Some (m !! id) ∨ sql_with_guid guid m ≠ []
  end.
Proof.
  intros (l & Hrows & Hids & Hkeys & ->). unfold insert_peer_sql, insert_into.
  set (row := list_to_map _ : TableRow).
  assert (peer_in row = Some (id, mkDbPeer guid uuid pk info)) as Hrow by done.
  assert (existsb (λ c, col_not_null c && bool_decide (cell row (col_name c) = Null)) (tb_columns peer_table) = false)
    as -> by done.
  assert (guid ∈ key_of <$> l ↔ sql_with_guid guid (list_to_map l : gmap string DbPeer) ≠ []) as Hguid.
  { rewrite list_elem_of_fmap. split.
    - intros ([i p] & -> & Hin) Hnil. by apply (proj1 (sql_with_guid_nil _ _) Hnil i p); [apply elem_of_list_to_map|].
    - intros Hne. destruct (sql_with_guid _ _) as [|[i p] ?] eqn:E; [done|].
      apply sql_with_guid_head in E as [Hp <-]. exists (i, p). split; [done|]. by apply elem_of_list_to_map. }
  assert (id ∈ l.*1 ↔ is_Some ((list_to_map l : gmap string DbPeer) !! id)) as Hid.
  { by rewrite <-elem_of_dom, dom_list_to_map, elem_of_list_to_set. }
  pose proof (conflicts rows l row _ Hrows Hrow) as Hconf. unfold key_of at 1 in Hconf. simpl in Hconf.
  destruct (existsb _ rows).
  - destruct (proj1 Hconf eq_refl) as [Hin|Hin]; [left|right]; tauto.
  - assert ((id ∉ l.*1) ∧ guid ∉ (key_of <$> l)) as [Hni Hng] by (split; intros ?; (enough (false = true) by done); tauto).
    split_and!.
    + by apply eq_None_not_Some; rewrite <-Hid.
    + destruct (sql_with_guid guid _); [done|]. by destruct Hng; apply Hguid.
    + assert (NoDup (l ++ [(id, mkDbPeer guid uuid pk info)]).*1) by (rewrite fmap_app; by apply NoDup_snoc).
      exists (l ++ [(id, mkDbPeer guid uuid pk info)]). split_and!; [|done| |].
      * by apply Forall2_app; [|repeat constructor].
      * rewrite fmap_app. by apply NoDup_snoc.
      * rewrite (list_to_map_proper (l ++ _) ((id, mkDbPeer guid uuid pk info) :: l)); [done..|].
        by rewrite Permutation_app_comm.
Qed.

(** A primary key singles out one row. *)
Lemma split_at_guid rows l guid id0 p0 :
  rows_of rows l → NoDup (key_of <$> l) → (id0, p0) ∈ l → db_guid p0 = guid →
  ∃ l1 l2 rows1 r rows2, l = l1 ++ (id0, p0) :: l2 ∧ rows = rows1 ++ r :: rows2 ∧
    rows_of rows1 l1 ∧ peer_in r = Some (id0, p0) ∧ rows_of rows2 l2 ∧ guid ∉ key_of <$> (l1 ++ l2).
Proof.
  intros Hrows Hkeys Hin <-. apply list_elem_of_split in Hin as (l1 & l2 & ->).
  apply Forall2_app_inv_r in Hrows as (rows1 & rest & Hrows1 & (r & rows2 & Hr & Hrows2 & ->)%Forall2_cons_inv_r & ->).
  exists l1, l2, rows1, r, rows2. split_and!; try done.
  rewrite <-Permutation_middle in Hkeys. by apply list.NoDup_cons in Hkeys as [? _].
Qed.

(** An update by the primary key. *)
Lemma update_identity_rows rows m guid id uuid pk info :
  stored rows m →
  match sql_with_guid guid m, update_identity_sql guid id uuid pk info rows with
  | [], Ok rows' => rows' = rows
  | (id0, _) :: _, Ok rows' =>
      (id0 = id ∨ m !! id = None) ∧ stored rows' (<[id := mkDbPeer guid uuid pk info]> (delete id0 m))
  | (id0, _) :: _, Err _ => id0 ≠ id ∧ is_Some (m !! id)
  | [], Err _ => False
  end.
Proof.
  intros (l & Hrows & Hids & Hkeys & ->). unfold update_identity_sql, update_set.
  set (given := [("id", Text id); _; _; _]).
  assert (existsb (λ c, col_not_null c && bool_decide ((list_to_map given : TableRow) !! col_name c = Some Null))
    (tb_columns peer_table) = false) as -> by done. simpl andb. cbn match.
  destruct (sql_with_guid guid (list_to_map l)) as [|[id0 p0] rest] eqn:E.
  - pose proof (proj1 (sql_with_guid_nil _ _) E) as Hno.
    rewrite update_rows_none; [done|]. eapply without_guid; [done|].
    intros ([i p] & Hg & Hin)%list_elem_of_fmap.
    by apply (Hno i p); [apply elem_of_list_to_map|].
  - apply sql_with_guid_head in E as [Hp0 Hg0]. clear rest.
    apply elem_of_list_to_map_2 in Hp0 as Hin.
    destruct (split_at_guid _ _ _ _ _ Hrows Hkeys Hin Hg0)
      as (l1 & l2 & rows1 & r & rows2 & -> & -> & Hrows1 & Hr & Hrows2 & Hng).
    clear Hin. pose proof Hng as Hng'. rewrite fmap_app, elem_of_app in Hng'.
    assert (key_of (id0, p0) = guid) as Hkey by done.
    rewrite update_rows_one; simpl app.
    2:{ eapply without_guid; [done|]. tauto. }
    2:{ rewrite (matches_guid _ _ _ Hr). by apply bool_decide_eq_true. }
    2:{ eapply without_guid; [done|]. tauto. }
    assert (peer_in (assign given r) = Some (id, mkDbPeer guid uuid pk info)) as Hr'.
    { apply peer_in_some. apply peer_in_some in Hr as (_ & Hg & _). unfold assign, given. simpl.
      rewrite Hg0 in Hg. split_and!; simplify_map_eq; done. }
    pose proof (conflicts (rows1 ++ rows2) (l1 ++ l2) _ _ ltac:(by apply Forall2_app) Hr') as Hconf.
    unfold key_of at 1 in Hconf. simpl in Hconf.
    destruct (existsb _ (rows1 ++ rows2)).
    + destruct (proj1 Hconf eq_refl) as [Hin|Hin]; [|done].
      rewrite fmap_app, fmap_cons in Hids. simpl in Hids.
      split.
      * intros ->. rewrite <-Permutation_middle in Hids. apply list.NoDup_cons in Hids as [Hni _].
        apply Hni. by rewrite <-fmap_app.
      * rewrite <-elem_of_dom, dom_list_to_map, elem_of_list_to_set, fmap_app, fmap_cons.
        rewrite fmap_app in Hin. set_solver.
    + assert (id ∉ (l1 ++ l2).*1) as Hni by (intros ?; (enough (false = true) by done); tauto).
      destruct (list_to_map_replace l1 l2 id0 p0 id (mkDbPeer guid uuid pk info) Hids Hni) as [Hids' Hmap].
      split.
      * destruct (decide (id0 = id)); [by left|right]. apply not_elem_of_list_to_map.
        rewrite fmap_app, fmap_cons. rewrite fmap_app in Hni. set_solver.
      * exists (l1 ++ (id, mkDbPeer guid uuid pk info) :: l2). split_and!; [|done| |done].
        -- apply Forall2_app; [done|]. by constructor.
        -- rewrite fmap_app, fmap_cons in *. by rewrite Hkey in Hkeys.
Qed.

(** ** Theorems *)

(** C36: The peer database is its table: on rows that hold the peers of the map,
    a lookup returns what the [select] of the source decodes; an insertion or an
    identity update is refused by the map exactly if the statement violates a
    constraint of the declared schema, and then no row has changed; otherwise
    the rows afterwards hold the peers of the map afterwards, the columns the
    statements leave out being nullable or defaulted. *)
Theorem database_refines_table new_v4 fault now (d : SqlDb) rows id uuid pk info guid :
  stored rows (sql_peer d) → fault (sql_calls d) = false →
  (get_peer fault d id).1 = get_peer_sql id rows ∧
  match insert_peer_sql now (new_v4 (sql_uuids d)) id uuid pk info rows, insert_peer new_v4 fault d id uuid pk info with
  | Ok rows', (Ok guid', d') => guid' = new_v4 (sql_uuids d) ∧ stored rows' (sql_peer d')
  | Err _, (Err _, d') => stored rows (sql_peer d')
  | _, _ => False
  end ∧
  match update_identity_sql guid id uuid pk info rows, update_identity fault d guid id uuid pk info with
  | Ok rows', (Ok tt, d') => stored rows' (sql_peer d')
  | Err _, (Err _, d') => stored rows (sql_peer d')
  | _, _ => False
  end.
Proof.
  intros Hst Hf. unfold get_peer, insert_peer, update_identity. rewrite Hf. split_and!.
  - by rewrite (get_peer_rows _ _ _ Hst).
  - pose proof (insert_peer_rows now _ _ (new_v4 (sql_uuids d)) id uuid pk info Hst) as Hins.
    destruct (insert_peer_sql _ _ _ _ _ _ _) as [rows'|e].
    + destruct Hins as (-> & -> & Hst'). done.
    + destruct (sql_peer d !! id); [done|]. destruct (sql_with_guid _ _); [|done].
      destruct Hins as [[]|]; done.
  - pose proof (update_identity_rows _ _ guid id uuid pk info Hst) as Hupd.
    destruct (sql_with_guid guid (sql_peer d)) as [|[id0 p0] rest], (update_identity_sql _ _ _ _ _ _) as [rows'|e];
      [by subst|done| |].
    + destruct Hupd as [Hid Hst']. case_bool_decide as Hc; [|done].
      destruct Hc as [? [? Hs]]. destruct Hid; congruence.
    + destruct Hupd as [? ?]. by rewrite bool_decide_true.
Qed.

Definition sample_rows : list TableRow :=
  match insert_peer_sql "2024-01-01 00:00:00" (sample_uuid 0) "device01" [1] [2] "{}" [] with
  | Ok rows => rows
  | Err _ => []
  end.

Lemma no_rows_stored : stored [] ∅.
Proof. exists []. split_and!; (done || constructor). Qed.

Lemma database_refines_table_witness :
  let d1 := (insert_peer sample_uuid no_fault empty_db "device01" [1] [2] "{}").2 in
  get_peer_sql "device01" sample_rows = Ok (Some (mkDbPeer (sample_uuid 0) [1] [2] "{}")) ∧
  stored sample_rows (sql_peer d1).
Proof.
  pose proof (database_refines_table sample_uuid no_fault "2024-01-01 00:00:00" empty_db [] "device01" [1] [2] "{}" []
    no_rows_stored eq_refl) as (_ & (_ & Hins) & _).
  split; [by vm_compute|exact Hins].
Defined.
