(* ===== verification/PeerCache.v ===== *)
(** The peer cache ([src/peer.rs]): [Peer], [PeerMap] and its operations.

    A [LockPeer] ([Arc<RwLock<Peer>>]) is a location of a heap, so that the
    cache and the tasks that hold a handle share one peer.  The state also
    records what the eviction consults about the tasks: how many handles on a
    location they hold ([Arc::strong_count]) and which locations they have
    locked for writing ([try_read]).  The critical sections of [cache_peer] are
    definitions of their own; [cache_peer] runs them in sequence, and the
    relation [cache_step] interleaves those of any number of tasks.

    The theorems: the cache keeps its capacity and never maps two identifiers
    to one peer, under every operation and every interleaving; a lookup returns
    the cached peer or exactly the stored row; eviction removes only idle peers
    that no task holds, and counts them right. *)

From S2P Require Import Prelude.
From S2P Require Import Net.
From S2P Require Import Database.

(** ** Data *)

Definition PEER_CACHE_ACTIVE_GRACE_SECS : Z := 60.
Definition DEFAULT_MAX_CACHED_PEERS : Z := 100000.

Record PeerInfo := mkPeerInfo { info_ip : string }.

Record Peer := mkPeer {
  socket_addr : SocketAddr;
  last_reg_time : Instant;
  last_access_time : Instant;
  guid : bytes;
  uuid : bytes;
  pk : bytes;
  persistence_in_progress : bool;
  deployment_verified_at : option Instant;
  info : PeerInfo;
  reg_pk : Z * Instant
}.

Definition set_last_access (t : Instant) (p : Peer) : Peer :=
  mkPeer (socket_addr p) (last_reg_time p) t (guid p) (uuid p) (pk p)
    (persistence_in_progress p) (deployment_verified_at p) (info p) (reg_pk p).

(** A handle on a peer. *)
Abbreviation LockPeer := positive.

Record PeerMap (D : Type) := mkPeerMap {
  pm_clock : Clock;
  pm_heap : gmap LockPeer Peer;
  pm_map : gmap string LockPeer;
  pm_db : D;
  max_cached_peers : Z;
  (** Handles held by other tasks, and locations they have locked. *)
  pm_held : gmap LockPeer nat;
  pm_locked : gset LockPeer
}.
Arguments mkPeerMap {D}.
Arguments pm_clock {D}. Arguments pm_heap {D}. Arguments pm_map {D}.
Arguments pm_db {D}. Arguments max_cached_peers {D}.
Arguments pm_held {D}. Arguments pm_locked {D}.

Section Setters.
Context {D : Type}.
Implicit Types pm : PeerMap D.

Definition set_clock (c : Clock) pm : PeerMap D :=
  mkPeerMap c (pm_heap pm) (pm_map pm) (pm_db pm) (max_cached_peers pm) (pm_held pm) (pm_locked pm).
Definition set_heap (h : gmap LockPeer Peer) pm : PeerMap D :=
  mkPeerMap (pm_clock pm) h (pm_map pm) (pm_db pm) (max_cached_peers pm) (pm_held pm) (pm_locked pm).
Definition set_map (m : gmap string LockPeer) pm : PeerMap D :=
  mkPeerMap (pm_clock pm) (pm_heap pm) m (pm_db pm) (max_cached_peers pm) (pm_held pm) (pm_locked pm).
Definition set_db (d : D) pm : PeerMap D :=
  mkPeerMap (pm_clock pm) (pm_heap pm) (pm_map pm) d (max_cached_peers pm) (pm_held pm) (pm_locked pm).

#[export] Instance PeerMap_clock : HasClock (PeerMap D) := {|
  clock_of := pm_clock;
  with_clock := set_clock;
  clock_with_clock := λ _ _, eq_refl
|}.
End Setters.

(** What a critical section decides: return, or which section comes next. *)
Inductive CacheNext := Return (r : option LockPeer) | TryInsert | Evict.

(** ** Operations *)

Section Cache.
Context {D : Type} `{!PeerStore D}.
(** The earliest [Instant] the platform can represent, and
    [serde_json::from_str::<PeerInfo>]. *)
Context (instant_min : Instant) (from_json : string → option PeerInfo).

Definition get_expired_time (now : Instant) : Instant :=
  let t := now - from_secs 3600 in if instant_min <=? t then t else now.

(** [Peer::default]: three clock readings. *)
Definition peer_default : M (PeerMap D) Peer :=
  t1 ← instant_now;
  t2 ← instant_now;
  t3 ← instant_now;
  mret (mkPeer (SockV4 UNSPECIFIED_V4 0) (get_expired_time t1) t2 [] [] [] false None
          (mkPeerInfo "") (0, get_expired_time t3)).

(** [Arc::new(RwLock::new(peer))]. *)
Definition alloc (p : Peer) : M (PeerMap D) LockPeer := λ pm,
  let l := fresh (dom (pm_heap pm)) in (Ok l, set_heap (<[l := p]> (pm_heap pm)) pm).

(** [peer.write().await.last_access_time = Instant::now()]. *)
Definition touch (l : LockPeer) : M (PeerMap D) unit :=
  t ← instant_now;
  modify (λ pm, set_heap (alter (set_last_access t) l (pm_heap pm)) pm).

(** *** Eviction *)

(** The body of the loop over the snapshot: lines 328-335. *)
Definition evict_candidate (idle_secs : Z) (id : string) (l : LockPeer)
    : M (PeerMap D) (list (string * Instant)) :=
  p ← gets (λ pm, pm_heap pm !! l);
  match p with
  | None => mret []
  | Some peer =>
      t ← instant_now;
      if idle_secs <=? as_secs (duration_since t (last_access_time peer)) then
        t' ← instant_now;
        mret (if PEER_CACHE_ACTIVE_GRACE_SECS
                   <=? as_secs (duration_since t' (last_reg_time peer))
              then [(id, last_access_time peer)] else [])
      else mret []
  end.

Fixpoint evict_scan (idle_secs : Z) (snapshot : list (string * LockPeer))
    : M (PeerMap D) (list (string * Instant)) :=
  match snapshot with
  | [] => mret []
  | (id, l) :: rest =>
      c ← evict_candidate idle_secs id l;
      cs ← evict_scan idle_secs rest;
      mret (c ++ cs)
  end.

(** [Arc::strong_count] while the snapshot is alive: the cache's reference,
    the snapshot's, and the tasks'. *)
Definition strong_count (snapshot : list (string * LockPeer)) (pm : PeerMap D)
    (l : LockPeer) : Z :=
  1 + len (filter (λ x : string * LockPeer, x.2 = l) snapshot)
    + Z.of_nat (default 0%nat (pm_held pm !! l)).

Definition should_remove (snapshot : list (string * LockPeer)) (pm : PeerMap D)
    (c : string * Instant) : bool :=
  match pm_map pm !! c.1 with
  | None => false
  | Some l =>
      (strong_count snapshot pm l <=? 2)
      && bool_decide (l ∉ pm_locked pm)
      && match pm_heap pm !! l with
         | Some peer => last_access_time peer =? c.2
         | None => false
         end
  end.

Fixpoint evict_remove (snapshot : list (string * LockPeer))
    (candidates : list (string * Instant)) (pm : PeerMap D) : PeerMap D :=
  match candidates with
  | [] => pm
  | c :: cs =>
      evict_remove snapshot cs
        (if should_remove snapshot pm c then set_map (delete c.1 (pm_map pm)) pm else pm)
  end.

Definition evict_inactive (idle_secs : Z) : M (PeerMap D) Z :=
  snapshot ← gets (λ pm, map_to_list (pm_map pm));
  candidates ← evict_scan idle_secs snapshot;
  if is_empty candidates then mret 0 else
  before ← gets (λ pm, mlen (pm_map pm));
  modify (evict_remove snapshot candidates);;
  after ← gets (λ pm, mlen (pm_map pm));
  mret (before - after).

(** *** Insertion *)

(** Under the read lock: lines 289-294. *)
Definition read_section (id : string) (pm : PeerMap D) : CacheNext :=
  match pm_map pm !! id with
  | Some existing => Return (Some existing)
  | None => if mlen (pm_map pm) <? max_cached_peers pm then TryInsert else Evict
  end.

(** Under the write lock, before any eviction: lines 295-302. *)
Definition insert_section (id : string) (peer : LockPeer) (pm : PeerMap D)
    : CacheNext * PeerMap D :=
  match pm_map pm !! id with
  | Some existing => (Return (Some existing), pm)
  | None =>
      if mlen (pm_map pm) <? max_cached_peers pm
      then (Return (Some peer), set_map (<[id := peer]> (pm_map pm)) pm)
      else (Evict, pm)
  end.

(** Under the write lock, after the eviction: lines 307-316. *)
Definition final_section (id : string) (peer : LockPeer) (pm : PeerMap D)
    : option LockPeer * PeerMap D :=
  match pm_map pm !! id with
  | Some existing => (Some existing, pm)
  | None =>
      if max_cached_peers pm <=? mlen (pm_map pm) then (None, pm)
      else (Some peer, set_map (<[id := peer]> (pm_map pm)) pm)
  end.

Definition evict_then_insert (id : string) (peer : LockPeer)
    : M (PeerMap D) (option LockPeer) :=
  evict_inactive PEER_CACHE_ACTIVE_GRACE_SECS;;
  state (final_section id peer).

Definition cache_peer (id : string) (peer : LockPeer) : M (PeerMap D) (option LockPeer) :=
  next ← gets (read_section id);
  match next with
  | Return r => mret r
  | TryInsert =>
      next ← state (insert_section id peer);
      match next with Return r => mret r | _ => evict_then_insert id peer end
  | Evict => evict_then_insert id peer
  end.

(** *** Lookup *)

(** The database call, on the database part of the state. *)
Definition db_get_peer (id : string) : M (PeerMap D) (option DbPeer) :=
  zoom pm_db set_db (λ d, ps_get_peer d id).

Definition load_context (id : string) : string :=
  "Unable to load peer " +:+ id +:+ " from the database".
Definition metadata_context (id : string) : string :=
  "Peer " +:+ id +:+ " has malformed persisted metadata".

Definition get (id : string) : M (PeerMap D) (option LockPeer) :=
  p ← gets (λ pm, pm_map pm !! id);
  match p with
  | Some peer => touch peer;; mret (Some peer)
  | None =>
      r ← attempt (db_get_peer id);
      stored_peer ← lift (with_context r (load_context id));
      match stored_peer with
      | None => mret None
      | Some v =>
          i ← lift (ok_or (from_json (db_info v)) (metadata_context id));
          d ← peer_default;
          peer ← alloc (mkPeer (socket_addr d) (last_reg_time d) (last_access_time d)
                          (db_guid v) (db_uuid v) (db_pk v)
                          (persistence_in_progress d) (deployment_verified_at d) i (reg_pk d));
          cache_peer id peer
      end
  end.

Definition get_or (id : string) : M (PeerMap D) (option LockPeer) :=
  p ← get id;
  match p with
  | Some p => mret (Some p)
  | None => d ← peer_default; tmp ← alloc d; cache_peer id tmp
  end.

Definition get_in_memory (id : string) : M (PeerMap D) (option LockPeer) :=
  p ← gets (λ pm, pm_map pm !! id);
  match p with
  | Some peer => touch peer;; mret (Some peer)
  | None => mret None
  end.

(** ** Interleavings of [cache_peer] *)

(** Where a task is in [cache_peer id peer]: before a critical section, or
    returned.  Between the eviction's scan and its removal the task carries a
    snapshot and candidates; the relation lets them be anything. *)
Inductive CachePc :=
  | PcRead | PcInsert | PcScan
  | PcRemove (snapshot : list (string * LockPeer)) (candidates : list (string * Instant))
  | PcFinal | PcDone (r : option LockPeer).

Record Task := mkTask { t_id : string; t_peer : LockPeer; t_pc : CachePc }.

Definition after (n : CacheNext) : CachePc :=
  match n with Return r => PcDone r | TryInsert => PcInsert | Evict => PcScan end.

(** One critical section of one task, or a move of the environment: the other
    tasks may touch peers, take and drop handles and locks, and use the
    database, but they change the cache's map only through these sections. *)
Inductive cache_step : list Task * PeerMap D → list Task * PeerMap D → Prop :=
  | step_read ts i id p pm :
      ts !! i = Some (mkTask id p PcRead) →
      cache_step (ts, pm) (<[i := mkTask id p (after (read_section id pm))]> ts, pm)
  | step_insert ts i id p pm n pm' :
      ts !! i = Some (mkTask id p PcInsert) → insert_section id p pm = (n, pm') →
      cache_step (ts, pm) (<[i := mkTask id p (after n)]> ts, pm')
  | step_scan ts i id p pm snapshot candidates :
      ts !! i = Some (mkTask id p PcScan) →
      cache_step (ts, pm) (<[i := mkTask id p (PcRemove snapshot candidates)]> ts, pm)
  | step_remove ts i id p pm snapshot candidates :
      ts !! i = Some (mkTask id p (PcRemove snapshot candidates)) →
      cache_step (ts, pm)
        (<[i := mkTask id p PcFinal]> ts, evict_remove snapshot candidates pm)
  | step_final ts i id p pm r pm' :
      ts !! i = Some (mkTask id p PcFinal) → final_section id p pm = (r, pm') →
      cache_step (ts, pm) (<[i := mkTask id p (PcDone r)]> ts, pm')
  | step_environment ts pm pm' :
      pm_map pm' = pm_map pm → max_cached_peers pm' = max_cached_peers pm →
      dom (pm_heap pm) ⊆ dom (pm_heap pm') →
      cache_step (ts, pm) (ts, pm').
End Cache.

(** ** Invariant *)

Record pm_wf {D} (pm : PeerMap D) : Prop := {
  pm_room : mlen (pm_map pm) ≤ max_cached_peers pm;
  pm_alloc : ∀ id l, pm_map pm !! id = Some l → is_Some (pm_heap pm !! l);
  pm_unaliased : ∀ i j l, pm_map pm !! i = Some l → pm_map pm !! j = Some l → i = j
}.

(** ** Lemmas *)

Section CacheLemmas.
Context {D : Type} `{!PeerStore D}.
Implicit Types pm : PeerMap D.

Lemma pm_wf_submap pm m :
  pm_wf pm → m ⊆ pm_map pm → pm_wf (set_map m pm).
Proof.
  intros [Hr Ha Hu] Hsub. split; simpl.
  - pose proof (mlen_subseteq _ _ Hsub). lia.
  - intros id l Hl. eapply Ha, lookup_weaken; eauto.
  - intros i j l Hi Hj. eapply Hu; eapply lookup_weaken; eauto.
Qed.

Lemma pm_wf_insert pm id l :
  pm_wf pm → pm_map pm !! id = None → mlen (pm_map pm) < max_cached_peers pm →
  is_Some (pm_heap pm !! l) → (∀ i, pm_map pm !! i ≠ Some l) →
  pm_wf (set_map (<[id := l]> (pm_map pm)) pm).
Proof.
  intros [Hr Ha Hu] Hid Hroom Hl Hfresh. split; simpl.
  - rewrite mlen_insert_new by done. lia.
  - intros i l' [[_ <-]|[_ Hi]]%lookup_insert_Some; [done|by eapply Ha].
  - intros i j l'. rewrite !lookup_insert_Some.
    intros [[??]|[??]] [[??]|[??]]; simplify_eq; eauto; exfalso; eapply Hfresh; eauto.
Qed.

(** What the invariant depends on. *)
Lemma pm_wf_ext pm pm' :
  pm_map pm' = pm_map pm → max_cached_peers pm' = max_cached_peers pm →
  dom (pm_heap pm) ⊆ dom (pm_heap pm') → pm_wf pm → pm_wf pm'.
Proof.
  intros Hm Hmax Hd [Hr Ha Hu]. split; rewrite ?Hm, ?Hmax; [done| |done].
  intros id l Hl%Ha. apply elem_of_dom in Hl. apply elem_of_dom. set_solver.
Qed.

Lemma evict_remove_sub snapshot cs pm :
  ∃ m, evict_remove snapshot cs pm = set_map m pm ∧ m ⊆ pm_map pm.
Proof.
  revert pm. induction cs as [|c cs IH]; intros pm; simpl.
  { exists (pm_map pm). by destruct pm. }
  destruct (should_remove snapshot pm c).
  - destruct (IH (set_map (delete c.1 (pm_map pm)) pm)) as (m & Heq & Hsub).
    exists m. simpl in *. split; [done|]. etrans; [done|apply delete_subseteq].
  - apply IH.
Qed.

(** The decision about a candidate, in terms of the entry it names. *)
Definition removable (snapshot : list (string * LockPeer)) pm (l : LockPeer) (t : Instant) : bool :=
  (strong_count snapshot pm l <=? 2)
  && bool_decide (l ∉ pm_locked pm)
  && match pm_heap pm !! l with
     | Some peer => last_access_time peer =? t
     | None => false
     end.

Lemma evict_remove_lookup snapshot cs pm id l :
  pm_map pm !! id = Some l →
  pm_map (evict_remove snapshot cs pm) !! id =
    if existsb (λ c, bool_decide (c.1 = id) && removable snapshot pm l c.2) cs
    then None else Some l.
Proof.
  revert pm. induction cs as [|c cs IH]; intros pm Hl; simpl; [done|].
  destruct (decide (c.1 = id)) as [<-|Hne].
  - rewrite bool_decide_true by done. simpl.
    assert (should_remove snapshot pm c = removable snapshot pm l c.2) as ->
      by (unfold should_remove; by rewrite Hl).
    destruct (removable snapshot pm l c.2) eqn:Hrem; simpl.
    + destruct (evict_remove_sub snapshot cs (set_map (delete c.1 (pm_map pm)) pm))
        as (m & -> & Hsub). simpl in *.
      destruct (m !! c.1) as [l'|] eqn:Hm; [|done].
      pose proof (lookup_weaken _ _ _ _ Hm Hsub). simplify_map_eq.
    + by apply IH.
  - rewrite bool_decide_false by done. simpl.
    destruct (should_remove snapshot pm c); [|by apply IH].
    etrans; [apply IH; simpl; by rewrite lookup_delete_ne|done].
Qed.

Lemma evict_remove_wf snapshot cs pm : pm_wf pm → pm_wf (evict_remove snapshot cs pm).
Proof.
  intros. destruct (evict_remove_sub snapshot cs pm) as (m & -> & ?). by apply pm_wf_submap.
Qed.

(** The clock moved, nothing else. *)
Definition later pm pm' : Prop :=
  ∃ c, pm' = set_clock c pm ∧ ck_now (pm_clock pm) ≤ ck_now c.

Lemma later_refl pm : later pm pm.
Proof. exists (pm_clock pm). split; [by destruct pm|lia]. Qed.
Lemma later_trans pm1 pm2 pm3 : later pm1 pm2 → later pm2 pm3 → later pm1 pm3.
Proof. intros (c1 & -> & ?) (c2 & -> & ?). exists c2. split; [done|simpl in *; lia]. Qed.
Lemma later_read pm t c :
  clock_read (clock_of pm) = (t, c) → later pm (with_clock c pm) ∧ ck_now c = t.
Proof.
  intros Hread. apply clock_read_mono in Hread as [??]. split; [|done].
  exists c. split; [done|]. simpl in *. lia.
Qed.
End CacheLemmas.
#[export] Hint Resolve later_refl later_trans : srv.

(** Whether a peer is idle at a clock reading: the two tests of the scan. *)
Definition idle_at (now : Instant) (idle_secs : Z) (p : Peer) : Prop :=
  idle_secs ≤ as_secs (duration_since now (last_access_time p)) ∧
  PEER_CACHE_ACTIVE_GRACE_SECS ≤ as_secs (duration_since now (last_reg_time p)).

Lemma as_secs_mono d d' : d ≤ d' → as_secs d ≤ as_secs d'.
Proof. intros. unfold as_secs, nanos_per_sec. apply Z.div_le_mono; lia. Qed.

Lemma idle_at_mono now now' idle p : now ≤ now' → idle_at now idle p → idle_at now' idle p.
Proof.
  intros Hle [H1 H2].
  pose proof (as_secs_mono _ _ (duration_since_mono now now' (last_access_time p) Hle)).
  pose proof (as_secs_mono _ _ (duration_since_mono now now' (last_reg_time p) Hle)).
  split; lia.
Qed.

Section ScanLemmas.
Context {D : Type} `{!PeerStore D}.
Implicit Types pm : PeerMap D.

Lemma wp_evict_candidate idle id l pm (Q : result (list (string * Instant)) → PeerMap D → Prop) :
  (∀ cs pm', later pm pm' →
     (∀ c, c ∈ cs → ∃ p, c = (id, last_access_time p) ∧ pm_heap pm !! l = Some p ∧
         idle_at (ck_now (pm_clock pm')) idle p) →
     (∀ p, pm_heap pm !! l = Some p → idle_at (ck_now (pm_clock pm)) idle p →
         (id, last_access_time p) ∈ cs) → Q (Ok cs) pm') →
  wp (evict_candidate idle id l) Q pm.
Proof.
  intros HQ. apply wp_bind, wp_gets. destruct (pm_heap pm !! l) as [p|] eqn:Hp.
  2:{ apply wp_ret, HQ; [apply later_refl|intros ?; by rewrite elem_of_nil|done]. }
  apply wp_bind, wp_instant_now. intros t c Hread Hle Hc.
  destruct (later_read pm t c Hread) as [Hlater _].
  assert (idle_at (ck_now (pm_clock pm)) idle p → idle_at t idle p) as Hidle by (by apply idle_at_mono).
  destruct (idle <=? _) eqn:Hi; reflect_bools.
  2:{ apply wp_ret, HQ; [done|intros ?; by rewrite elem_of_nil|].
      intros ? [= <-] [??]%Hidle. lia. }
  apply wp_bind, wp_instant_now. intros t' c' Hread' Hle' Hc'.
  destruct (later_read _ t' c' Hread') as [Hlater' _].
  simpl in Hle'. rewrite Hc in Hle'.
  apply wp_ret, HQ; [by eapply later_trans| |].
  - intros e. case_match eqn:Hg; [|by rewrite elem_of_nil].
    rewrite list_elem_of_singleton. intros ->. exists p. split_and!; [done..|].
    simpl. rewrite Hc'. reflect_bools. split; [|done].
    pose proof (as_secs_mono _ _ (duration_since_mono t t' (last_access_time p) Hle')). lia.
  - intros p' [= <-] Hid%Hidle%(idle_at_mono t t'); [|done]. destruct Hid as [_ Hg].
    rewrite (proj2 (Z.leb_le _ _)) by done. by left.
Qed.

(** The scan finds every peer that was idle when it started and only peers
    that are idle when it ends. *)
Lemma wp_evict_scan idle snapshot pm (Q : result (list (string * Instant)) → PeerMap D → Prop) :
  (∀ cs pm', later pm pm' →
     (∀ c, c ∈ cs → ∃ l p, (c.1, l) ∈ snapshot ∧ pm_heap pm !! l = Some p ∧
        c.2 = last_access_time p ∧ idle_at (ck_now (pm_clock pm')) idle p) →
     (∀ id l p, (id, l) ∈ snapshot → pm_heap pm !! l = Some p →
        idle_at (ck_now (pm_clock pm)) idle p → (id, last_access_time p) ∈ cs) →
     Q (Ok cs) pm') →
  wp (evict_scan idle snapshot) Q pm.
Proof.
  revert pm Q. induction snapshot as [|[id l] rest IH]; intros pm Q HQ; simpl.
  { apply wp_ret, HQ; [apply later_refl| |]; intros *; by rewrite elem_of_nil. }
  apply wp_bind, wp_evict_candidate. intros cs1 pm1 Hl1 Hs1 Hc1.
  apply wp_bind, IH. intros cs2 pm2 Hl2 Hs2 Hc2.
  assert (pm_heap pm1 = pm_heap pm) as Hheap by (by destruct Hl1 as (? & -> & _)).
  assert (ck_now (pm_clock pm) ≤ ck_now (pm_clock pm1)) as Hn1
    by (destruct Hl1 as (? & -> & ?); simpl; lia).
  assert (ck_now (pm_clock pm1) ≤ ck_now (pm_clock pm2)) as Hn2
    by (destruct Hl2 as (? & -> & ?); simpl; lia).
  apply wp_ret, HQ; [by eapply later_trans| |].
  - intros c [Hin|Hin]%elem_of_app.
    + destruct (Hs1 c Hin) as (p & -> & ? & ?). exists l, p.
      split_and!; [by left|done..|]. by eapply idle_at_mono.
    + destruct (Hs2 c Hin) as (l' & p & ? & ? & ? & ?). exists l', p.
      rewrite <-Hheap. split_and!; [by right|done..].
  - intros id' l' p Hin Hp Hidle. rewrite elem_of_app.
    apply elem_of_cons in Hin as [[= -> ->]|Hin]; [left; by apply Hc1|right].
    apply (Hc2 id' l'); [done|by rewrite Hheap|]. by eapply idle_at_mono.
Qed.
End ScanLemmas.

Section EvictLemmas.
Context {D : Type} `{!PeerStore D}.
Implicit Types pm : PeerMap D.

(** In a snapshot of the cache itself every location occurs once. *)
Lemma strong_count_snapshot pm id l :
  pm_wf pm → pm_map pm !! id = Some l →
  strong_count (map_to_list (pm_map pm)) pm l =
    2 + Z.of_nat (default 0%nat (pm_held pm !! l)).
Proof.
  intros Hwf Hl. unfold strong_count.
  assert (filter (λ x : string * LockPeer, x.2 = l) (map_to_list (pm_map pm)) = [(id, l)]) as ->.
  2:{ unfold len. simpl. lia. }
  apply list_singleton_from_nodup.
  - apply list.NoDup_filter, NoDup_map_to_list.
  - intros [id' l']. rewrite list_elem_of_filter, elem_of_map_to_list. simpl.
    split; [|intros [= -> ->]; done]. intros [-> Hl']. by rewrite (pm_unaliased pm Hwf id' id l).
Qed.

(** The eviction as a whole. *)
Definition evicted pm idle pm' : Prop :=
  ∃ m c, pm' = set_map m (set_clock c pm) ∧ ck_now (pm_clock pm) ≤ ck_now c ∧
    m ⊆ pm_map pm ∧
    ∀ id l p, pm_map pm !! id = Some l → pm_heap pm !! l = Some p →
      (m !! id = None →
         idle_at (ck_now c) idle p ∧ default 0%nat (pm_held pm !! l) = 0%nat ∧
         l ∉ pm_locked pm) ∧
      (idle_at (ck_now (pm_clock pm)) idle p → default 0%nat (pm_held pm !! l) = 0%nat →
         l ∉ pm_locked pm → m !! id = None).

Lemma wp_evict_inactive idle pm (Q : result Z → PeerMap D → Prop) :
  pm_wf pm →
  (∀ pm', evicted pm idle pm' → Q (Ok (mlen (pm_map pm) - mlen (pm_map pm'))) pm') →
  wp (evict_inactive idle) Q pm.
Proof.
  intros Hwf HQ. apply wp_bind, wp_gets, wp_bind, wp_evict_scan.
  intros cs pm1 Hlater Hsound Hcomplete.
  destruct Hlater as (c & -> & Hc). simpl in Hsound.
  assert (∀ snapshot, snapshot = map_to_list (pm_map pm) →
    evicted pm idle (evict_remove snapshot cs (set_clock c pm))) as Hev.
  { intros snapshot ->.
    destruct (evict_remove_sub (map_to_list (pm_map pm)) cs (set_clock c pm)) as (m & Heq & Hsub).
    rewrite Heq. exists m, c. split_and!; [by destruct pm|done|done|]. intros id l p Hl Hp.
    pose proof (evict_remove_lookup (map_to_list (pm_map pm)) cs (set_clock c pm) id l Hl) as Hlook.
    rewrite Heq in Hlook. simpl in Hlook. rewrite Hlook.
    assert (∀ t, (removable (map_to_list (pm_map pm)) (set_clock c pm) l t = true) ↔
      (default 0%nat (pm_held pm !! l) = 0%nat ∧ (l ∉ pm_locked pm) ∧ last_access_time p = t)) as Hrem.
    { intros t. unfold removable.
      assert (strong_count (map_to_list (pm_map pm)) (set_clock c pm) l
            = 2 + Z.of_nat (default 0%nat (pm_held pm !! l))) as ->
        by (by apply (strong_count_snapshot pm id)).
      simpl. rewrite Hp, !andb_true_iff, bool_decide_eq_true, Z.leb_le, Z.eqb_eq.
      split; intros; destruct_and!; split_and!; try done; lia. }
    split.
    - case_match eqn:He; [intros _|done]. apply existsb_exists in He as ([id' t] & Hin & Hb). simpl in Hb.
      apply andb_true_iff in Hb as [->%bool_decide_eq_true (? & ? & <-)%Hrem].
      apply list_elem_of_In in Hin. destruct (Hsound _ Hin) as (l' & p' & Hl' & Hp' & _ & Hi).
      apply elem_of_map_to_list in Hl'. simpl in *. simplify_eq. done.
    - intros Hi Hheld Hlock. case_match eqn:He; [done|]. exfalso.
      apply not_true_iff_false in He. apply He, existsb_exists.
      exists (id, last_access_time p). split.
      + apply list_elem_of_In, (Hcomplete id l); [by apply elem_of_map_to_list|done..].
      + apply andb_true_iff. split; [by apply bool_decide_eq_true|by apply Hrem]. }
  destruct cs as [|c0 cs'] eqn:Hcs; simpl.
  - specialize (Hev _ eq_refl). simpl in Hev. apply wp_ret.
    pose proof (HQ _ Hev) as HQ'. simpl in HQ'. by rewrite Z.sub_diag in HQ'.
  - apply wp_bind, wp_gets, wp_bind, wp_modify, wp_bind, wp_gets, wp_ret.
    apply (HQ _ (Hev _ eq_refl)).
Qed.

Lemma evicted_wf pm idle pm' : pm_wf pm → evicted pm idle pm' → pm_wf pm'.
Proof.
  intros Hwf (m & c & -> & _ & Hsub & _).
  change (set_map m (set_clock c pm)) with (set_clock c (set_map m pm)).
  eapply (pm_wf_ext (set_map m pm)); [done..|]. by apply pm_wf_submap.
Qed.
End EvictLemmas.

Section InsertLemmas.
Context {D : Type} `{!PeerStore D}.
Implicit Types pm : PeerMap D.

(** The cache is full of peers that eviction would leave alone. *)
Definition no_room pm : Prop :=
  max_cached_peers pm ≤ mlen (pm_map pm) ∧
  ∀ i l p, pm_map pm !! i = Some l → pm_heap pm !! l = Some p →
    ¬ (idle_at (ck_now (pm_clock pm)) PEER_CACHE_ACTIVE_GRACE_SECS p ∧
       default 0%nat (pm_held pm !! l) = 0%nat ∧ l ∉ pm_locked pm).

(** The outcome of [cache_peer id peer]: the entry there was, or the new peer,
    or nothing when there is no room; other entries disappear only when the cache
    is full and they are idle. *)
Definition cached pm id peer (o : option LockPeer) pm' : Prop :=
  ∃ m c, pm' = set_map m (set_clock c pm) ∧ ck_now (pm_clock pm) ≤ ck_now c ∧
    (∀ i, i ≠ id → m !! i = None ∨ m !! i = pm_map pm !! i) ∧
    (∀ i l, pm_map pm !! i = Some l → is_Some (pm_heap pm !! l) →
       default 0%nat (pm_held pm !! l) ≠ 0%nat → m !! i = Some l) ∧
    m !! id = o ∧
    match pm_map pm !! id with
    | Some existing => o = Some existing ∧ m = pm_map pm
    | None =>
        o = Some peer ∧ (mlen (pm_map pm) < max_cached_peers pm → m = <[id := peer]> (pm_map pm)) ∧
          (∀ i l p, pm_map pm !! i = Some l → pm_heap pm !! l = Some p → m !! i = None →
             idle_at (ck_now c) PEER_CACHE_ACTIVE_GRACE_SECS p ∧
             default 0%nat (pm_held pm !! l) = 0%nat ∧ l ∉ pm_locked pm) ∨
        o = None ∧ m = pm_map pm ∧ no_room pm
    end.

Lemma final_section_cached pm id peer pm1 :
  pm_wf pm → max_cached_peers pm ≤ mlen (pm_map pm) →
  evicted pm PEER_CACHE_ACTIVE_GRACE_SECS pm1 → pm_map pm !! id = None →
  let '(o, pm') := final_section id peer pm1 in cached pm id peer o pm'.
Proof.
  intros Hwf Hfull (m & c & -> & Hc & Hsub & Hev) Hid. unfold final_section. simpl.
  assert (∀ i l, pm_map pm !! i = Some l → is_Some (pm_heap pm !! l) →
    default 0%nat (pm_held pm !! l) ≠ 0%nat → m !! i = Some l) as Hheld.
  { intros i l Hi [p Hp] Hh. destruct (Hev i l p Hi Hp) as [Hgone _].
    destruct (m !! i) as [l'|] eqn:Hmi; [|by destruct (Hgone eq_refl) as (_ & ? & _)].
    pose proof (lookup_weaken _ _ _ _ Hmi Hsub). by simplify_eq. }
  assert (∀ i, m !! i = None ∨ m !! i = pm_map pm !! i) as Hother.
  { intros i. destruct (m !! i) eqn:Hi; [right|by left].
    symmetry. by eapply lookup_weaken. }
  assert (m !! id = None) as Hm by (destruct (Hother id); congruence).
  rewrite Hm. destruct (max_cached_peers pm <=? mlen m) eqn:Hroom; reflect_bools.
  - assert (m = pm_map pm) as ->.
    { apply map_subseteq_size_eq; [done|]. pose proof (pm_room pm Hwf). unfold mlen in *. lia. }
    exists (pm_map pm), c. rewrite Hid. split_and!; eauto. right. split_and!; [done..|]. split; [done|].
    intros i l p Hl Hp (Hi & Hh & Hlk). destruct (Hev i l p Hl Hp) as [_ Hgone].
    by rewrite Hgone in Hl.
  - exists (<[id := peer]> m), c. rewrite Hid, lookup_insert_eq.
    split_and!; try (done || eauto).
    + intros i Hi. by rewrite lookup_insert_ne.
    + intros i l Hi ??. rewrite lookup_insert_ne by congruence. by apply Hheld.
    + left. split_and!; [done|lia|]. intros i l p Hl Hp. rewrite lookup_insert_ne by congruence.
      by apply (Hev i l p).
Qed.

Lemma wp_cache_peer pm id peer (Q : result (option LockPeer) → PeerMap D → Prop) :
  pm_wf pm → (∀ o pm', cached pm id peer o pm' → Q (Ok o) pm') →
  wp (cache_peer id peer) Q pm.
Proof.
  intros Hwf HQ.
  assert (pm_map pm !! id = None → max_cached_peers pm ≤ mlen (pm_map pm) →
    wp (evict_then_insert id peer) Q pm) as Hevict.
  { intros Hid Hfull. apply wp_bind, wp_evict_inactive; [done|]. intros pm1 Hev. apply wp_state.
    pose proof (final_section_cached pm id peer pm1 Hwf Hfull Hev Hid).
    destruct (final_section id peer pm1). by apply HQ. }
  apply wp_bind, wp_gets. unfold read_section.
  destruct (pm_map pm !! id) as [e|] eqn:Hid.
  - apply wp_ret, HQ. exists (pm_map pm), (pm_clock pm). rewrite Hid.
    split_and!; (done || lia || (by destruct pm) || eauto).
  - destruct (mlen (pm_map pm) <? max_cached_peers pm) eqn:Hroom;
      [|apply Hevict; [done|]; reflect_bools; lia].
    apply wp_bind, wp_state. unfold insert_section. rewrite Hid, Hroom. simpl.
    apply wp_ret, HQ. exists (<[id := peer]> (pm_map pm)), (pm_clock pm).
    rewrite Hid, lookup_insert_eq. split_and!; try (done || lia || eauto).
    + intros i Hi. rewrite lookup_insert_ne by done. by right.
    + intros i l Hi ??. by rewrite lookup_insert_ne by congruence.
    + left. split_and!; [done..|]. intros i l p Hl _. rewrite lookup_insert_ne; congruence.
Qed.

(** [cache_peer] keeps the invariant when the peer is a new location. *)
Lemma final_section_wf pm id peer :
  pm_wf pm → is_Some (pm_heap pm !! peer) → (∀ i, pm_map pm !! i ≠ Some peer) →
  pm_wf (final_section id peer pm).2.
Proof.
  intros Hwf Hp Hfresh. unfold final_section.
  destruct (pm_map pm !! id) eqn:Hid; [done|]. case_match; [done|]. reflect_bools.
  by apply pm_wf_insert.
Qed.

Lemma insert_section_wf pm id peer :
  pm_wf pm → is_Some (pm_heap pm !! peer) → (∀ i, pm_map pm !! i ≠ Some peer) →
  pm_wf (insert_section id peer pm).2.
Proof.
  intros Hwf Hp Hfresh. unfold insert_section.
  destruct (pm_map pm !! id) eqn:Hid; [done|]. case_match; [|done]. reflect_bools.
  by apply pm_wf_insert.
Qed.

Lemma wp_cache_peer_wf pm id peer :
  pm_wf pm → is_Some (pm_heap pm !! peer) → (∀ i, pm_map pm !! i ≠ Some peer) →
  wp (cache_peer id peer) (λ _ pm', pm_wf pm') pm.
Proof.
  intros Hwf Hp Hfresh.
  assert (wp (evict_then_insert id peer) (λ _ pm', pm_wf pm') pm) as Hevict.
  { apply wp_bind, wp_evict_inactive; [done|]. intros pm1 Hev. apply wp_state.
    apply final_section_wf; [by eapply evicted_wf|..].
    - by destruct Hev as (m & c & -> & _).
    - destruct Hev as (m & c & -> & _ & Hsub & _). intros i Hi.
      by apply (Hfresh i), (lookup_weaken _ _ _ _ Hi). }
  apply wp_bind, wp_gets. destruct (read_section id pm); [by apply wp_ret| |done].
  apply wp_bind, wp_state.
  pose proof (insert_section_wf pm id peer Hwf Hp Hfresh) as Hins.
  unfold insert_section in *. destruct (pm_map pm !! id); simpl; [by apply wp_ret|].
  by destruct (mlen (pm_map pm) <? max_cached_peers pm); simpl; [apply wp_ret|].
Qed.
End InsertLemmas.

Section LookupLemmas.
Context {D : Type} `{!PeerStore D}.
Context (instant_min : Instant) (from_json : string → option PeerInfo).
Implicit Types pm : PeerMap D.

Lemma wp_touch l pm (Q : result unit → PeerMap D → Prop) :
  (∀ t c, ck_now (pm_clock pm) ≤ t → ck_now c = t →
     Q (Ok tt) (set_heap (alter (set_last_access t) l (pm_heap pm)) (set_clock c pm))) →
  wp (touch l) Q pm.
Proof.
  intros HQ. apply wp_bind, wp_instant_now. intros t c Hread Hle Hc.
  apply wp_modify. by apply HQ.
Qed.

Lemma touch_wf l t c pm :
  pm_wf pm → pm_wf (set_heap (alter (set_last_access t) l (pm_heap pm)) (set_clock c pm)).
Proof. apply pm_wf_ext; [done..|]. simpl. by rewrite dom_alter_L. Qed.

Lemma wp_peer_default pm (Q : result Peer → PeerMap D → Prop) :
  (∀ p pm', later pm pm' →
     p = mkPeer (SockV4 UNSPECIFIED_V4 0) (last_reg_time p) (last_access_time p)
           [] [] [] false None (mkPeerInfo "") (0, (reg_pk p).2) →
     (∃ t, ck_now (pm_clock pm) ≤ t ≤ ck_now (pm_clock pm') ∧
           last_reg_time p = get_expired_time instant_min t) →
     Q (Ok p) pm') →
  wp (peer_default instant_min) Q pm.
Proof.
  intros HQ. apply wp_bind, wp_instant_now. intros t1 c1 R1 L1 E1.
  apply wp_bind, wp_instant_now. intros t2 c2 R2 L2 E2.
  apply wp_bind, wp_instant_now. intros t3 c3 R3 L3 E3. simpl in *.
  apply wp_ret, HQ; [|done|].
  - exists c3. split; [by destruct pm|simpl; lia].
  - exists t1. split; [simpl; lia|done].
Qed.

Lemma wp_alloc p pm (Q : result LockPeer → PeerMap D → Prop) :
  (∀ l, pm_heap pm !! l = None → Q (Ok l) (set_heap (<[l := p]> (pm_heap pm)) pm)) →
  wp (alloc p) Q pm.
Proof.
  intros HQ. unfold wp, alloc. simpl. apply HQ, not_elem_of_dom. apply is_fresh.
Qed.

Lemma alloc_wf l p pm :
  pm_wf pm → pm_heap pm !! l = None →
  pm_wf (set_heap (<[l := p]> (pm_heap pm)) pm) ∧
  (∀ i, pm_map pm !! i ≠ Some l).
Proof.
  intros Hwf Hl. split.
  - eapply (pm_wf_ext pm); [done|done| |done]. simpl. rewrite dom_insert_L. apply union_subseteq_r.
  - intros i Hi. apply (pm_alloc _ Hwf) in Hi as [? ?]. congruence.
Qed.

Lemma later_wf pm pm' : pm_wf pm → later pm pm' → pm_wf pm'.
Proof. intros Hwf (c & -> & _). by apply (pm_wf_ext pm). Qed.

Lemma wp_db_get_peer id pm (Q : result (option DbPeer) → PeerMap D → Prop) :
  ps_ok (pm_db pm) →
  (∀ r d, ps_ok d → (∀ i, ps_row d i = ps_row (pm_db pm) i) →
     (∀ o, r = Ok o → o = ps_row (pm_db pm) id) → Q r (set_db d pm)) →
  wp (db_get_peer id) Q pm.
Proof.
  intros Hok HQ. apply wp_zoom, wp_intro. intros r d Hget.
  destruct (ps_get_spec _ _ _ _ Hok Hget) as (? & ? & ?). by apply HQ.
Qed.

(** Every lookup keeps the invariant. *)
Lemma wp_get_wf id pm :
  pm_wf pm → ps_ok (pm_db pm) →
  wp (get instant_min from_json id) (λ _ pm', pm_wf pm' ∧ ps_ok (pm_db pm')) pm.
Proof.
  intros Hwf Hok. apply wp_bind, wp_gets. destruct (pm_map pm !! id) as [l|].
  { apply wp_bind, wp_touch. intros t c _ _. apply wp_ret. split; [by apply touch_wf|done]. }
  apply wp_bind, wp_attempt, wp_db_get_peer; [done|]. intros r d Hd _ _.
  assert (pm_wf (set_db d pm)) as Hwfd by (by apply (pm_wf_ext pm)).
  apply wp_bind, wp_lift. destruct (with_context r _) as [[v|]|e]; [|by apply wp_ret|done].
  apply wp_bind, wp_lift. destruct (ok_or _ _) as [i|e]; [|done].
  apply wp_bind, wp_peer_default. intros p0 pm1 Hlater _ _.
  assert (pm_wf pm1) as Hwf1 by (by apply (later_wf (set_db d pm))).
  assert (pm_db pm1 = d) as Hdb by (by destruct Hlater as (? & -> & _)).
  apply wp_bind, wp_alloc. intros l Hl.
  destruct (alloc_wf l (mkPeer (socket_addr p0) (last_reg_time p0) (last_access_time p0)
    (db_guid v) (db_uuid v) (db_pk v) (persistence_in_progress p0)
    (deployment_verified_at p0) i (reg_pk p0)) pm1 Hwf1 Hl) as [Hwf2 Hfresh].
  apply wp_intro. intros o pm3 Hrun. split.
  - eapply (wp_run _ (λ _ pm', pm_wf pm')); [|done].
    apply wp_cache_peer_wf; [done| |done]. simpl. rewrite lookup_insert_eq. eauto.
  - eapply (wp_run _ (λ _ pm', ps_ok (pm_db pm'))); [|done].
    apply wp_cache_peer; [done|]. intros ? ? (m & c & -> & _). simpl. by rewrite Hdb.
Qed.

Lemma wp_get_or_wf id pm :
  pm_wf pm → ps_ok (pm_db pm) →
  wp (get_or instant_min from_json id) (λ _ pm', pm_wf pm' ∧ ps_ok (pm_db pm')) pm.
Proof.
  intros Hwf Hok. apply wp_bind. eapply wp_mono; [|by apply wp_get_wf].
  intros [[l|]|e] pm1 [Hwf1 Hok1]; [by apply wp_ret| |done].
  apply wp_bind, wp_peer_default. intros p0 pm2 Hlater _ _.
  assert (pm_wf pm2) as Hwf2 by (by eapply later_wf).
  assert (pm_db pm2 = pm_db pm1) as Hdb by (by destruct Hlater as (? & -> & _)).
  apply wp_bind, wp_alloc. intros l Hl. destruct (alloc_wf l p0 pm2 Hwf2 Hl) as [Hwf3 Hfresh].
  apply wp_intro. intros o pm3 Hrun. split.
  - eapply (wp_run _ (λ _ pm', pm_wf pm')); [|done].
    apply wp_cache_peer_wf; [done| |done]. simpl. rewrite lookup_insert_eq. eauto.
  - eapply (wp_run _ (λ _ pm', ps_ok (pm_db pm'))); [|done].
    apply wp_cache_peer; [done|]. intros ? ? (m & c & -> & _). simpl. by rewrite Hdb.
Qed.

Lemma wp_get_in_memory_wf id pm :
  pm_wf pm → ps_ok (pm_db pm) →
  wp (get_in_memory id) (λ _ pm', pm_wf pm' ∧ ps_ok (pm_db pm')) pm.
Proof.
  intros Hwf Hok. apply wp_bind, wp_gets. destruct (pm_map pm !! id); [|by apply wp_ret].
  apply wp_bind, wp_touch. intros t c _ _. apply wp_ret. split; [by apply touch_wf|done].
Qed.
End LookupLemmas.

(** ** What a lookup returns *)

(** The peer a stored row becomes. *)
Definition loaded_peer (d : Peer) (v : DbPeer) (i : PeerInfo) : Peer :=
  mkPeer (socket_addr d) (last_reg_time d) (last_access_time d)
    (db_guid v) (db_uuid v) (db_pk v) false None i (reg_pk d).

Section LookupSpec.
Context {D : Type} `{!PeerStore D}.
Context (instant_min : Instant) (from_json : string → option PeerInfo).
Implicit Types pm : PeerMap D.

(** The contract of [get id], as a relation between the state before, the
    outcome and the state after. *)
Definition get_spec (id : string) pm (r : result (option LockPeer)) pm' : Prop :=
  (∀ i, ps_row (pm_db pm') i = ps_row (pm_db pm) i) ∧
  match pm_map pm !! id with
  | Some l =>
      r = Ok (Some l) ∧ pm_map pm' = pm_map pm ∧
      ∃ t, ck_now (pm_clock pm) ≤ t ∧
        pm_heap pm' = alter (set_last_access t) l (pm_heap pm)
  | None =>
      match r with
      | Err e => pm_map pm' = pm_map pm ∧ pm_heap pm' = pm_heap pm ∧
          ((∃ e0, (ps_get_peer (pm_db pm) id).1 = Err e0) ∧ e = load_context id ∨
           ∃ v, ps_row (pm_db pm) id = Some v ∧ from_json (db_info v) = None ∧ e = metadata_context id)
      | Ok None => pm_map pm' = pm_map pm ∧
          match ps_row (pm_db pm) id with
          | None => pm_heap pm' = pm_heap pm
          | Some v => is_Some (from_json (db_info v)) ∧ no_room pm
          end
      | Ok (Some l) =>
          ∃ v i d, ps_row (pm_db pm) id = Some v ∧ from_json (db_info v) = Some i ∧
            pm_map pm' !! id = Some l ∧ pm_heap pm !! l = None ∧
            pm_heap pm' = <[l := loaded_peer d v i]> (pm_heap pm) ∧
            (∃ t, ck_now (pm_clock pm) ≤ t ≤ ck_now (pm_clock pm') ∧
              last_reg_time d = get_expired_time instant_min t) ∧
            (mlen (pm_map pm) < max_cached_peers pm → pm_map pm' = <[id := l]> (pm_map pm)) ∧
            (∀ j l' p, j ≠ id → pm_map pm !! j = Some l' → pm_heap pm !! l' = Some p →
               pm_map pm' !! j = Some l' ∨ pm_map pm' !! j = None ∧
                 idle_at (ck_now (pm_clock pm')) PEER_CACHE_ACTIVE_GRACE_SECS p ∧
                 default 0%nat (pm_held pm !! l') = 0%nat ∧ l' ∉ pm_locked pm) ∧
            (∀ j, j ≠ id → pm_map pm !! j = None → pm_map pm' !! j = None)
      end
  end.

Lemma wp_get_spec id pm :
  pm_wf pm → ps_ok (pm_db pm) →
  wp (get instant_min from_json id) (get_spec id pm) pm.
Proof.
  intros Hwf Hok. apply wp_bind, wp_gets. unfold get_spec.
  destruct (pm_map pm !! id) as [l|] eqn:Hid.
  { apply wp_bind, wp_touch. intros t c Ht _. apply wp_ret. split; [done|].
    split_and!; [done..|]. by exists t. }
  apply wp_bind, wp_attempt, wp_zoom, wp_intro. intros r d Hget. pose proof Hget as Hdb.
  destruct (ps_get_spec _ _ _ _ Hok Hget) as (Hd & Hrows & Hr).
  apply wp_bind, wp_lift. destruct r as [[v|]|e]; simpl.
  2:{ apply wp_ret. by rewrite <-(Hr None). }
  2:{ split_and!; [done..|]. left. split; [|done]. exists e. by rewrite Hdb. }
  pose proof (Hr (Some v) eq_refl) as Hrow.
  apply wp_bind, wp_lift. destruct (from_json (db_info v)) as [i|] eqn:Hi; simpl.
  2:{ split_and!; [done..|]. right. by exists v. }
  apply wp_bind, wp_peer_default. intros p0 pm1 (c1 & -> & Hc1) Hp0 (t & Ht & Hreg).
  apply wp_bind, wp_alloc. simpl in *. intros l Hl. apply wp_cache_peer.
  { apply (alloc_wf l _ (set_clock c1 (set_db d pm))); [|done]. by apply (pm_wf_ext pm). }
  intros o pm3 (m & c & -> & Hc & Hother & _ & Hm & Ho). simpl in *. rewrite Hid in Ho.
  assert (∀ j l' p, pm_map pm !! j = Some l' → pm_heap pm !! l' = Some p →
    <[l := loaded_peer p0 v i]> (pm_heap pm) !! l' = Some p) as Hheap.
  { intros j l' p Hj Hp. rewrite lookup_insert_ne; [done|]. by intros ->; rewrite Hl in Hp. }
  assert (loaded_peer p0 v i = mkPeer (socket_addr p0) (last_reg_time p0) (last_access_time p0) (db_guid v)
    (db_uuid v) (db_pk v) (persistence_in_progress p0) (deployment_verified_at p0) i (reg_pk p0)) as Hloaded
    by (by rewrite Hp0).
  rewrite <-Hloaded in *.
  split; [done|]. destruct Ho as [(-> & Hroom & Hgone)|(-> & -> & Hfull & Hbusy)]; simpl in *.
  - exists v, i, p0. rewrite <-Hrow. split_and!; try done.
    + exists t. split; [lia|done].
    + intros j l' p Hne Hj Hp. destruct (Hother j Hne) as [Hn|Hn]; [|left; congruence].
      right. split; [done|]. by eapply Hgone; [|eapply Hheap|].
    + intros j Hne Hj. destruct (Hother j Hne); congruence.
  - rewrite <-Hrow. split_and!; [done|by eexists|]. split; [done|]. intros j l' p Hj Hp (Hidle & Hheld & Hlock).
    apply (Hbusy j l' p Hj); [by eapply Hheap|]. split_and!; [|done..]. eapply idle_at_mono; [|done]. lia.
Qed.
End LookupSpec.

(** ** What a lookup leaves alone *)

(** A peer without an identity, and a peer that carries a stored one. *)
Definition blank (p : Peer) : Prop := guid p = [] ∧ uuid p = [] ∧ pk p = [].
Definition carries (from_json : string → option PeerInfo) (v : DbPeer) (p : Peer) : Prop :=
  guid p = db_guid v ∧ uuid p = db_uuid v ∧ pk p = db_pk v ∧
  from_json (db_info v) = Some (info p).

Section Frame.
Context {D : Type} `{!PeerStore D}.
Context (instant_min : Instant) (from_json : string → option PeerInfo).
Implicit Types pm : PeerMap D.

Definition identity_ok (row : option DbPeer) (p : Peer) : Prop :=
  blank p ∨ ∃ v, row = Some v ∧ carries from_json v p.

(** The peers of [pm] are those of [pm'] up to their access time; entries with
    a handle stay; a new entry is a new peer, blank or loaded. *)
Record lookup_frame pm pm' : Prop := {
  lf_wf : pm_wf pm';
  lf_ok : ps_ok (pm_db pm');
  lf_rows : ∀ i, ps_row (pm_db pm') i = ps_row (pm_db pm) i;
  lf_held : pm_held pm' = pm_held pm;
  lf_heap : ∀ l p, pm_heap pm !! l = Some p → ∃ t, pm_heap pm' !! l = Some (set_last_access t p);
  lf_keep : ∀ i l, pm_map pm !! i = Some l → default 0%nat (pm_held pm !! l) ≠ 0%nat →
    pm_map pm' !! i = Some l;
  lf_new : ∀ i l, pm_map pm' !! i = Some l → pm_map pm !! i = Some l ∨
    (pm_heap pm !! l = None ∧ ∃ p, pm_heap pm' !! l = Some p ∧
      persistence_in_progress p = false ∧ identity_ok (ps_row (pm_db pm) i) p)
}.

Lemma set_last_access_id p : set_last_access (last_access_time p) p = p.
Proof. by destruct p. Qed.

Lemma lookup_frame_same pm pm' :
  pm_wf pm → ps_ok (pm_db pm') → (∀ i, ps_row (pm_db pm') i = ps_row (pm_db pm) i) →
  pm_held pm' = pm_held pm → pm_map pm' = pm_map pm → max_cached_peers pm' = max_cached_peers pm →
  (∀ l p, pm_heap pm !! l = Some p → ∃ t, pm_heap pm' !! l = Some (set_last_access t p)) →
  lookup_frame pm pm'.
Proof.
  intros Hwf Hok Hrows Hheld Hmap Hmax Hheap. split; try done.
  - apply (pm_wf_ext pm); [done..| |done]. intros l [p Hp]%elem_of_dom.
    apply elem_of_dom. destruct (Hheap l p Hp). eauto.
  - intros i l. by rewrite Hmap.
  - intros i l Hi. left. by rewrite <-Hmap.
Qed.

Lemma lookup_frame_trans pm1 pm2 pm3 :
  pm_wf pm1 → lookup_frame pm1 pm2 → lookup_frame pm2 pm3 → lookup_frame pm1 pm3.
Proof.
  intros Hwf [W1 O1 R1 H1 P1 K1 N1] [W2 O2 R2 H2 P2 K2 N2]. split; try done.
  - intros i. by rewrite R2.
  - congruence.
  - intros l p (t1 & Hp)%P1. destruct (P2 _ _ Hp) as [t2 Ht2]. by exists t2.
  - intros i l Hi Hh. apply K2; [by apply K1|]. by rewrite H1.
  - intros i l [Hi|(Hl & p & Hp & Hprog & Hid)]%N2.
    + apply N1 in Hi as [Hi|(Hl & p & Hp & Hprog & Hid)]; [by left|right]. split; [done|].
      destruct (P2 l p Hp) as [t Ht]. by exists (set_last_access t p).
    + right. rewrite R1 in Hid. split; [|by exists p].
      destruct (pm_heap pm1 !! l) eqn:Hl1; [|done]. apply P1 in Hl1 as [??]. congruence.
Qed.

Lemma lookup_frame_later pm pm' : pm_wf pm → ps_ok (pm_db pm) → later pm pm' → lookup_frame pm pm'.
Proof.
  intros Hwf Hok (c & -> & _). apply lookup_frame_same; try done.
  intros l p Hp. exists (last_access_time p). by rewrite set_last_access_id.
Qed.

(** Caching a newly allocated peer. *)
Lemma cached_frame pm id l p :
  pm_wf pm → ps_ok (pm_db pm) → pm_heap pm !! l = None →
  persistence_in_progress p = false → identity_ok (ps_row (pm_db pm) id) p →
  wp (cache_peer id l) (λ r pm', lookup_frame pm pm' ∧
      ∃ o, r = Ok o ∧ pm_map pm' !! id = o) (set_heap (<[l := p]> (pm_heap pm)) pm).
Proof.
  intros Hwf Hok Hl Hprog Hid. destruct (alloc_wf l p pm Hwf Hl) as [Hwf2 Hfresh].
  apply wp_intro. intros r pm2 Hrun.
  assert (pm_wf pm2) as Hwf3.
  { eapply (wp_run _ (λ _ pm', pm_wf pm')); [|done].
    apply wp_cache_peer_wf; [done| |done]. simpl. rewrite lookup_insert_eq. eauto. }
  revert Hwf3. eapply (wp_run _ (λ r pm', pm_wf pm' → lookup_frame pm pm' ∧
    ∃ o, r = Ok o ∧ pm_map pm' !! id = o)); [|done].
  apply wp_cache_peer; [done|]. intros o2 pm' (m & c & -> & _ & Hother & Hheld & Hm & Ho) Hwf4.
  simpl in *. split; [|by exists o2]. split; try done; simpl.
  - intros l' p' Hp'. exists (last_access_time p').
    rewrite set_last_access_id, lookup_insert_ne; [done|congruence].
  - intros i l' Hi Hh. apply Hheld; [done| |done]. rewrite lookup_insert_ne.
    + by apply (pm_alloc pm Hwf i).
    + intros <-. by apply (Hfresh i).
  - intros i l' Hi. destruct (decide (i = id)) as [->|Hne].
    + destruct (pm_map pm !! id) eqn:Hpid; [destruct Ho as [-> ->]; left; congruence|].
      destruct Ho as [[-> _]|[-> _]]; [|congruence]. right. rewrite Hm in Hi. injection Hi as <-.
      split; [done|]. exists p. by rewrite lookup_insert_eq.
    + left. destruct (Hother i Hne); congruence.
Qed.

Lemma default_identity p0 row :
  p0 = mkPeer (SockV4 UNSPECIFIED_V4 0) (last_reg_time p0) (last_access_time p0)
         [] [] [] false None (mkPeerInfo "") (0, (reg_pk p0).2) →
  persistence_in_progress p0 = false ∧ identity_ok row p0.
Proof. intros ->. split; [done|]. by left. Qed.

Lemma touch_frame pm l t c :
  pm_wf pm → ps_ok (pm_db pm) →
  lookup_frame pm (set_heap (alter (set_last_access t) l (pm_heap pm)) (set_clock c pm)).
Proof.
  intros Hwf Hok. apply lookup_frame_same; try done. simpl. intros l' p Hp.
  destruct (decide (l = l')) as [<-|Hne].
  - exists t. by rewrite lookup_alter_eq, Hp.
  - exists (last_access_time p). by rewrite lookup_alter_ne, set_last_access_id.
Qed.

Lemma wp_get_frame id pm :
  pm_wf pm → ps_ok (pm_db pm) →
  wp (get instant_min from_json id) (λ r pm', lookup_frame pm pm' ∧
    ∀ l, r = Ok (Some l) → pm_map pm' !! id = Some l) pm.
Proof.
  intros Hwf Hok. apply wp_bind, wp_gets. destruct (pm_map pm !! id) as [l|] eqn:Hid.
  { apply wp_bind, wp_touch. intros t c _ _. apply wp_ret.
    split; [by apply touch_frame|]. intros ? [= <-]. done. }
  apply wp_bind, wp_attempt, wp_db_get_peer; [done|]. intros r d Hd Hrows Hr.
  assert (lookup_frame pm (set_db d pm)) as Hdb.
  { apply lookup_frame_same; try done. intros l p Hp. exists (last_access_time p).
    by rewrite set_last_access_id. }
  assert (pm_wf (set_db d pm)) as Hwfd by apply Hdb.
  apply wp_bind, wp_lift. destruct r as [[v|]|e]; simpl; [|by apply wp_ret|by split].
  apply wp_bind, wp_lift. destruct (from_json (db_info v)) as [i|] eqn:Hi; simpl; [|by split].
  apply wp_bind, wp_peer_default. intros p0 pm1 Hlater Hp0 _.
  assert (lookup_frame pm pm1) as Hf1.
  { eapply lookup_frame_trans; [done|exact Hdb|]. by apply lookup_frame_later. }
  apply wp_bind, wp_alloc. intros l Hl.
  eapply wp_mono; [|apply cached_frame; [apply Hf1|apply Hf1|exact Hl|rewrite Hp0; done|]].
  - intros r pm' [Hf (o & -> & Ho)]. split; [by eapply lookup_frame_trans|]. by intros ? [= ->].
  - right. exists v. rewrite (lf_rows _ _ Hf1), (Hr (Some v)) by done. by split_and!.
Qed.

Lemma wp_get_or_frame id pm :
  pm_wf pm → ps_ok (pm_db pm) →
  wp (get_or instant_min from_json id) (λ r pm', lookup_frame pm pm' ∧
    ∀ l, r = Ok (Some l) → pm_map pm' !! id = Some l) pm.
Proof.
  intros Hwf Hok. apply wp_bind. eapply wp_mono; [|by apply wp_get_frame].
  intros [[l|]|e] pm1 [Hf1 Hl1]; [apply wp_ret; split; [done|]; intros ? [= <-]; by apply Hl1| |done].
  apply wp_bind, wp_peer_default. intros p0 pm2 Hlater Hp0 _.
  assert (lookup_frame pm pm2) as Hf2.
  { eapply lookup_frame_trans; [done|exact Hf1|]. apply lookup_frame_later; [apply Hf1|apply Hf1|done]. }
  destruct (default_identity p0 (ps_row (pm_db pm2) id) Hp0) as [Hprog Hid].
  apply wp_bind, wp_alloc. intros l Hl.
  eapply wp_mono; [|apply cached_frame; [apply Hf2|apply Hf2|exact Hl|done|done]].
  intros r pm' [Hf (o & -> & Ho)]. split; [by eapply lookup_frame_trans|]. by intros ? [= ->].
Qed.

Lemma wp_get_in_memory_frame id pm :
  pm_wf pm → ps_ok (pm_db pm) →
  wp (get_in_memory id) (λ r pm', lookup_frame pm pm' ∧
    ∀ l, r = Ok (Some l) → pm_map pm' !! id = Some l) pm.
Proof.
  intros Hwf Hok. apply wp_bind, wp_gets. destruct (pm_map pm !! id) as [l|] eqn:Hid.
  - apply wp_bind, wp_touch. intros t c _ _. apply wp_ret.
    split; [by apply touch_frame|]. intros ? [= <-]. done.
  - apply wp_ret. split; [|done]. apply lookup_frame_later; [done..|apply later_refl].
Qed.

Lemma wp_evict_frame idle pm :
  pm_wf pm → ps_ok (pm_db pm) → wp (evict_inactive idle) (λ _ pm', lookup_frame pm pm') pm.
Proof.
  intros Hwf Hok. apply wp_evict_inactive; [done|]. intros pm' Hev.
  assert (pm_wf pm') as Hwf' by (by eapply evicted_wf).
  destruct Hev as (m & c & -> & _ & Hsub & Hgone). split; try done; simpl.
  - intros l p Hp. exists (last_access_time p). by rewrite set_last_access_id.
  - intros i l Hi Hh. destruct (pm_alloc _ Hwf i l Hi) as [p Hp].
    destruct (Hgone i l p Hi Hp) as [Hg _].
    destruct (m !! i) as [l'|] eqn:Hmi; [|by destruct (Hg eq_refl) as (_ & ? & _)].
    pose proof (lookup_weaken _ _ _ _ Hmi Hsub). by simplify_eq.
  - intros i l Hi. left. by eapply lookup_weaken.
Qed.
End Frame.

(** ** Interleavings *)

(** A task that has not returned holds a peer of its own, not yet cached. *)
Definition pending_ok {D} (ts : list Task) (pm : PeerMap D) : Prop :=
  (∀ i j a b, ts !! i = Some a → ts !! j = Some b → t_peer a = t_peer b → i = j) ∧
  ∀ i a, ts !! i = Some a → (∀ r, t_pc a ≠ PcDone r) →
    is_Some (pm_heap pm !! t_peer a) ∧ ∀ id, pm_map pm !! id ≠ Some (t_peer a).

Section StepLemmas.
Context {D : Type}.
Implicit Types pm : PeerMap D.

Lemma pending_distinct ts pm i id p pc pc' :
  pending_ok ts pm → ts !! i = Some (mkTask id p pc) →
  ∀ j k a b, <[i := mkTask id p pc']> ts !! j = Some a →
    <[i := mkTask id p pc']> ts !! k = Some b → t_peer a = t_peer b → j = k.
Proof.
  intros [Hd _] Hi.
  assert (∀ j a, <[i := mkTask id p pc']> ts !! j = Some a →
    ∃ a', ts !! j = Some a' ∧ t_peer a' = t_peer a) as Hsame.
  { intros j a [(<- & <- & _)|[_ Hj]]%list_lookup_insert_Some; eauto. }
  intros j k a b (a' & Ha & Hpa)%Hsame (b' & Hb & Hpb)%Hsame Heq.
  eapply Hd; eauto. congruence.
Qed.

(** A section that maps nothing but the task's own peer. *)
Lemma pending_section ts pm pm' i id p pc pc' :
  pending_ok ts pm → ts !! i = Some (mkTask id p pc) → (∀ r, pc ≠ PcDone r) →
  pm_heap pm' = pm_heap pm →
  (∀ j l, pm_map pm' !! j = Some l → pm_map pm !! j = Some l ∨ (l = p ∧ ∃ r, pc' = PcDone r)) →
  pending_ok (<[i := mkTask id p pc']> ts) pm'.
Proof.
  intros Hp Hi Hpc Hheap Hmap. split; [by eapply pending_distinct|].
  destruct Hp as [Hd Hp]. intros j a [(<- & <- & _)|[Hne Hj]]%list_lookup_insert_Some Ha.
  - rewrite Hheap. destruct (Hp i _ Hi Hpc) as [Hs Hno]. split; [done|].
    intros k [Hk|[_ [r ->]]]%Hmap; [by apply (Hno k)|by apply (Ha r)].
  - rewrite Hheap. destruct (Hp j a Hj Ha) as [Hs Hno]. split; [done|].
    intros k [Hk|[He _]]%Hmap; [by apply (Hno k)|]. by destruct Hne; apply (Hd i j _ _ Hi Hj).
Qed.

Lemma cache_step_wf ts pm ts' pm' :
  cache_step (ts, pm) (ts', pm') → pm_wf pm → pending_ok ts pm →
  pm_wf pm' ∧ pending_ok ts' pm' ∧ max_cached_peers pm' = max_cached_peers pm.
Proof.
  intros Hstep Hwf Hp. inversion Hstep as
    [? i id p ? Hi|? i id p ? n ? Hi Hs|? i id p ? sn cs Hi|? i id p ? sn cs Hi|? i id p ? r ? Hi Hs
    |??? Hm Hmax Hdom]; subst.
  - split_and!; [done| |done]. eapply pending_section; eauto.
  - assert (is_Some (pm_heap pm !! p) ∧ ∀ j, pm_map pm !! j ≠ Some p) as [Hal Hfr]
      by (by apply (proj2 Hp i _ Hi)).
    pose proof (insert_section_wf pm id p Hwf Hal Hfr) as Hwf'. rewrite Hs in Hwf'.
    split; [done|]. unfold insert_section in Hs. repeat case_match; simplify_eq/=.
    all: split; [eapply pending_section; eauto; simpl|done].
    intros j l [[<- <-]|[_ ?]]%lookup_insert_Some; eauto.
  - split_and!; [done| |done]. eapply pending_section; eauto.
  - split; [by apply evict_remove_wf|].
    destruct (evict_remove_sub sn cs pm) as (m & -> & Hsub).
    split; [|done]. eapply pending_section; eauto. intros j l Hj. left. by eapply lookup_weaken.
  - assert (is_Some (pm_heap pm !! p) ∧ ∀ j, pm_map pm !! j ≠ Some p) as [Hal Hfr]
      by (by apply (proj2 Hp i _ Hi)).
    pose proof (final_section_wf pm id p Hwf Hal Hfr) as Hwf'. rewrite Hs in Hwf'.
    split; [done|]. unfold final_section in Hs. repeat case_match; simplify_eq/=.
    all: split; [eapply pending_section; eauto; simpl|done].
    intros j l [[<- <-]|[_ ?]]%lookup_insert_Some; eauto.
  - split_and!; [by apply (pm_wf_ext pm)| |done]. split; [exact (proj1 Hp)|].
    intros j a Hj Ha. destruct (proj2 Hp j a Hj Ha) as [Hs Hno]. rewrite Hm. split; [|done].
    apply elem_of_dom. apply elem_of_dom in Hs. by apply Hdom.
Qed.

Lemma cache_steps_wf (s s' : list Task * PeerMap D) :
  rtc cache_step s s' → pm_wf s.2 → pending_ok s.1 s.2 →
  pm_wf s'.2 ∧ pending_ok s'.1 s'.2 ∧ max_cached_peers s'.2 = max_cached_peers s.2.
Proof.
  induction 1 as [|[ts pm] [ts1 pm1] [ts2 pm2] Hstep _ IH]; [done|]. simpl in *. intros Hwf Hp.
  destruct (cache_step_wf _ _ _ _ Hstep Hwf Hp) as (? & ? & <-). by apply IH.
Qed.

(** What a task that returns saw. *)
Lemma cache_step_returns ts pm ts' pm' i a b r :
  cache_step (ts, pm) (ts', pm') → ts !! i = Some a → (∀ o, t_pc a ≠ PcDone o) →
  ts' !! i = Some b → t_pc b = PcDone r →
  t_id b = t_id a ∧ pm_map pm' !! t_id a = r ∧
  match r with
  | Some l => l = t_peer a ∨ pm_map pm !! t_id a = Some l
  | None => pm_map pm !! t_id a = None ∧ max_cached_peers pm ≤ mlen (pm_map pm)
  end.
Proof.
  intros Hstep Ha Hpc Hb Hr. inversion Hstep as
    [? j id p ? Hj|? j id p ? n ? Hj Hs|? j id p ? sn cs Hj|? j id p ? sn cs Hj|? j id p ? o ? Hj Hs
    |??? Hm Hmax Hdom]; subst.
  6: { rewrite Ha in Hb. simplify_eq. by destruct (Hpc r). }
  all: apply list_lookup_insert_Some in Hb as [(-> & <- & _)|[_ Hb]];
    [simplify_eq/=|rewrite Ha in Hb; simplify_eq; by destruct (Hpc r)].
  - unfold read_section in Hr. repeat case_match; simplify_eq/=. eauto.
  - unfold insert_section in Hs. repeat case_match; simplify_eq/=.
    + eauto.
    + rewrite lookup_insert_eq. eauto.
  - unfold final_section in Hs. repeat case_match; simplify_eq/=; reflect_bools.
    + eauto.
    + eauto with lia.
    + rewrite lookup_insert_eq. eauto.
Qed.
End StepLemmas.

(** ** Theorems *)

(** C32: Every lookup and every eviction keeps the cache well formed: it never
    holds more than [max_cached_peers] entries, every entry names an allocated
    peer, and no two identifiers share one; the database keeps its own
    invariant. *)
Theorem peer_map_operations_keep_wf {D} `{!PeerStore D} instant_min from_json (pm : PeerMap D) :
  pm_wf pm → ps_ok (pm_db pm) →
  let good := λ pm' : PeerMap D, pm_wf pm' ∧ ps_ok (pm_db pm') in
  (∀ id, good (get instant_min from_json id pm).2 ∧
         good (get_or instant_min from_json id pm).2 ∧
         good (get_in_memory id pm).2) ∧
  (∀ idle_secs, good (evict_inactive idle_secs pm).2).
Proof.
  intros Hwf Hok good. split.
  - intros id. split_and!; [by apply wp_get_wf|by apply wp_get_or_wf|by apply wp_get_in_memory_wf].
  - intros idle. apply (wp_evict_inactive idle pm (λ _ pm', good pm')); [done|].
    intros pm' Hev. split; [by eapply evicted_wf|]. by destruct Hev as (m & c & -> & _).
Qed.

(** A cache with room for one peer, over an empty database, and the same cache
    after one registration. *)
Definition sample_map : PeerMap SqlDb :=
  mkPeerMap (mkClock (from_secs 10000) []) ∅ ∅ empty_db 1 ∅ ∅.

Lemma sample_map_wf : pm_wf sample_map.
Proof. split; simpl; [by vm_compute|intros ??|intros ???]; by rewrite lookup_empty. Qed.

Lemma sample_map_ok : ps_ok (pm_db sample_map).
Proof. exact empty_db_unique. Qed.

Lemma peer_map_operations_keep_wf_witness :
  pm_wf (get_or 0 (λ _, None) "device01" sample_map).2 ∧
  mlen (pm_map (get_or 0 (λ _, None) "device01" sample_map).2) = 1.
Proof.
  split; [|by vm_compute].
  apply (peer_map_operations_keep_wf 0 (λ _, None) sample_map sample_map_wf sample_map_ok).
Defined.

(** C35: [PeerMap::get] implements its contract: a cached identifier yields the
    shared handle and only moves its access time; otherwise the peer is exactly
    the stored row (same key, UUID, public key and metadata, with no
    verification carried over), cached under its identifier at a new location,
    and nothing is evicted while there is room, and else only idle peers that no
    task holds; [None] is the answer only without a row, or when the cache is full
    and eviction finds nothing to remove; an error comes from the database or
    from malformed metadata, and leaves the cache and every peer unchanged; and no
    lookup changes a stored row. *)
Theorem get_implements_contract {D} `{!PeerStore D} instant_min from_json id (pm : PeerMap D) :
  pm_wf pm → ps_ok (pm_db pm) →
  let '(r, pm') := get instant_min from_json id pm in
  get_spec instant_min from_json id pm r pm'.
Proof.
  intros Hwf Hok. destruct (get _ _ id pm) as [r pm'] eqn:E.
  eapply wp_run; [by apply wp_get_spec|done].
Qed.

Definition sample_row_db : SqlDb :=
  (insert_peer sample_uuid no_fault empty_db "device01" [1] [2] "{}").2.
Definition sample_row_map : PeerMap SqlDb :=
  mkPeerMap (mkClock (from_secs 10000) []) ∅ ∅ sample_row_db 1 ∅ ∅.

Lemma sample_row_map_wf : pm_wf sample_row_map.
Proof. split; simpl; [by vm_compute|intros ??|intros ???]; by rewrite lookup_empty. Qed.

Lemma sample_row_map_ok : ps_ok (pm_db sample_row_map).
Proof.
  exact (insert_guids_unique sample_uuid no_fault empty_db "device01" [1] [2] "{}" _ _
    empty_db_unique (surjective_pairing _)).
Qed.

Lemma get_implements_contract_witness :
  ∃ l p, get 0 (λ _, Some (mkPeerInfo "")) "device01" sample_row_map
           = (Ok (Some l), (get 0 (λ _, Some (mkPeerInfo "")) "device01" sample_row_map).2) ∧
    pm_heap (get 0 (λ _, Some (mkPeerInfo "")) "device01" sample_row_map).2 !! l = Some p ∧
    uuid p = [1] ∧ pk p = [2].
Proof.
  pose proof (get_implements_contract 0 (λ _, Some (mkPeerInfo "")) "device01" sample_row_map
    sample_row_map_wf sample_row_map_ok) as Hspec.
  destruct (get _ _ _ _) as [r pm'] eqn:E.
  assert (r = Ok (Some 1%positive)) as -> by (apply (f_equal fst) in E; by vm_compute in E).
  destruct Hspec as (_ & v & i & d & Hrow & _ & _ & _ & Hheap & _).
  exists 1%positive, (loaded_peer d v i). simpl. rewrite Hheap, lookup_insert_eq.
  assert (v = mkDbPeer (sample_uuid 0) [1] [2] "{}") as -> by (vm_compute in Hrow; by simplify_eq).
  split_and!; reflexivity.
Defined.

(** C39: [evict_inactive] removes an entry only when its peer was idle (no
    access for [idle_secs], no registration for the grace period), no task held
    a handle on it and no task had it locked; it removes every entry that was in
    that condition when it started; the entries that stay are untouched; and it
    returns how many it removed. *)
Theorem evict_inactive_exact {D} `{!PeerStore D} idle_secs (pm : PeerMap D) :
  pm_wf pm →
  ∃ n pm', evict_inactive idle_secs pm = (Ok n, pm') ∧ evicted pm idle_secs pm' ∧
    n = mlen (pm_map pm) - mlen (pm_map pm') ∧ pm_heap pm' = pm_heap pm.
Proof.
  intros Hwf.
  assert (wp (evict_inactive idle_secs) (λ r pm', r = Ok (mlen (pm_map pm) - mlen (pm_map pm')) ∧
    evicted pm idle_secs pm') pm) as Hwp by (by apply wp_evict_inactive).
  destruct (evict_inactive idle_secs pm) as [r pm'] eqn:E. destruct (wp_run _ _ _ _ _ Hwp E) as [-> Hev].
  eexists _, pm'. split_and!; [done..|]. by destruct Hev as (m & c & -> & _).
Qed.

Definition sample_peer (t : Instant) : Peer :=
  mkPeer (SockV4 UNSPECIFIED_V4 0) t t [] [] [] false None (mkPeerInfo "") (0, t).
(** Two idle peers, of which one is held by a task, and one active peer. *)
Definition sample_idle_map : PeerMap SqlDb :=
  mkPeerMap (mkClock (from_secs 10000) [])
    (<[1%positive := sample_peer 0]> (<[2%positive := sample_peer 0]>
      (<[3%positive := sample_peer (from_secs 9990)]> ∅)))
    (<["idle01" := 1%positive]> (<["held01" := 2%positive]> (<["active" := 3%positive]> ∅)))
    empty_db 3 (<[2%positive := 1%nat]> ∅) ∅.

Lemma sample_idle_map_wf : pm_wf sample_idle_map.
Proof.
  split; simpl; [by vm_compute| |].
  - intros id l. rewrite !lookup_insert_Some, lookup_empty.
    intros [[<- <-]|[_ [[<- <-]|[_ [[<- <-]|[_ ?]]]]]]; try done; by eexists.
  - intros i j l. rewrite !lookup_insert_Some, lookup_empty.
    by intros [[? ?]|[? [[? ?]|[? [[? ?]|[? ?]]]]]] [[? ?]|[? [[? ?]|[? [[? ?]|[? ?]]]]]]; simplify_eq.
Qed.

Lemma evict_inactive_exact_witness :
  ∃ pm', evict_inactive 60 sample_idle_map = (Ok 1, pm') ∧
    pm_map pm' = <["held01" := 2%positive]> (<["active" := 3%positive]> ∅) ∧
    pm_heap pm' = pm_heap sample_idle_map.
Proof.
  destruct (evict_inactive_exact 60 sample_idle_map sample_idle_map_wf) as (n & pm' & E & _ & Hn & Hh).
  exists pm'. assert (pm' = (evict_inactive 60 sample_idle_map).2) as Hpm by (by rewrite E).
  assert (n = 1) as -> by (rewrite Hn, Hpm; by vm_compute).
  split_and!; [done| |done]. rewrite Hpm. by vm_compute.
Defined.

(** When any number of tasks run [cache_peer] at once, with their critical
    sections interleaved in any order and the rest of the server running in
    between, the cache never exceeds its capacity and never maps two identifiers
    to one peer; a task that returns a peer returns the one now cached under its
    identifier (its own only if there was none), and a task gives up only when
    its identifier is absent and the cache is full. *)
Theorem cache_peer_interleavings {D} (ts ts1 ts2 : list Task) (pm pm1 pm2 : PeerMap D) :
  pm_wf pm → pending_ok ts pm → rtc cache_step (ts, pm) (ts1, pm1) →
  (pm_wf pm1 ∧ mlen (pm_map pm1) ≤ max_cached_peers pm) ∧
  (cache_step (ts1, pm1) (ts2, pm2) →
   ∀ i a b r, ts1 !! i = Some a → (∀ o, t_pc a ≠ PcDone o) →
     ts2 !! i = Some b → t_pc b = PcDone r →
     t_id b = t_id a ∧ pm_map pm2 !! t_id a = r ∧
     match r with
     | Some l => l = t_peer a ∨ pm_map pm1 !! t_id a = Some l
     | None => pm_map pm1 !! t_id a = None ∧ max_cached_peers pm ≤ mlen (pm_map pm1)
     end).
Proof.
  intros Hwf Hp Hsteps.
  destruct (cache_steps_wf _ _ Hsteps Hwf Hp) as (Hwf1 & Hp1 & Hmax). simpl in *.
  split; [split; [done|]; rewrite <-Hmax; apply Hwf1|].
  intros Hstep i a b r Ha Hpc Hb Hr. rewrite <-Hmax. by eapply cache_step_returns.
Qed.

(** Two tasks race for the one free entry of [sample_map]. *)
Definition race_map : PeerMap SqlDb :=
  set_heap (<[1%positive := sample_peer 0]> (<[2%positive := sample_peer 0]> ∅)) sample_map.
Definition race_tasks : list Task :=
  [mkTask "device01" 1%positive PcRead; mkTask "device02" 2%positive PcRead].

Lemma race_map_wf : pm_wf race_map.
Proof. split; simpl; [by vm_compute|intros ??|intros ???]; by rewrite lookup_empty. Qed.

Lemma race_tasks_ok : pending_ok race_tasks race_map.
Proof.
  split.
  - intros [|[|i]] [|[|j]] a b; simpl; intros; simplify_eq/=; done.
  - intros [|[|i]] a; simpl; intros; simplify_eq/=; (split; [by eexists|intros id; by rewrite lookup_empty]).
Qed.

Lemma race_run :
  rtc cache_step (race_tasks, race_map)
    ([mkTask "device01" 1%positive (PcDone (Some 1%positive)); mkTask "device02" 2%positive PcScan],
     set_map (<["device01" := 1%positive]> ∅) race_map).
Proof.
  eapply rtc_l; [by apply (step_read _ 0 "device01" 1)|].
  eapply rtc_l; [by apply (step_read _ 1 "device02" 2)|].
  eapply rtc_l; [by apply (step_insert _ 0 "device01" 1)|].
  eapply rtc_l; [by apply (step_insert _ 1 "device02" 2)|].
  apply rtc_refl.
Qed.

Lemma cache_peer_interleavings_witness :
  pm_wf (set_map (<["device01" := 1%positive]> ∅) race_map) ∧
  mlen (pm_map (set_map (<["device01" := 1%positive]> ∅) race_map)) ≤ 1.
Proof.
  exact (proj1 (cache_peer_interleavings race_tasks _ [] race_map _ race_map
    race_map_wf race_tasks_ok race_run)).
Defined.

(** A lookup that evicts on its second attempt only: the cache holds one peer
    that becomes idle between the two. *)
Definition late_map : PeerMap SqlDb :=
  mkPeerMap (mkClock (from_secs 100) (replicate 6 0%N ++ [0%N; 2000000000%N; 0%N]))
    (<[1%positive := sample_peer (from_secs 41)]> ∅) (<["active" := 1%positive]> ∅)
    sample_row_db 1 ∅ ∅.

(** When the cache is full, [get_or] can cache a blank peer for a device
    whose identity is stored: [get] loads the row but finds no room and reports
    no peer, and the second insertion, of a default peer, finds room because an
    entry became idle in between. *)
Theorem get_or_can_shadow_stored_identity :
  ∃ l p pm', get_or 0 (λ _, Some (mkPeerInfo "")) "device01" late_map = (Ok (Some l), pm') ∧
    pm_map pm' !! "device01" = Some l ∧ pm_heap pm' !! l = Some p ∧ blank p ∧
    ps_row (pm_db pm') "device01" = Some (mkDbPeer (sample_uuid 0) [1] [2] "{}").
Proof.
  exists 3%positive. eexists _, _. split; [reflexivity|].
  split; [by vm_compute|]. split; [by vm_compute|]. by split.
Qed.
