(* ===== verification/Messages.v ===== *)
(** The rendezvous protocol's messages, and the server's static data.

    The protocol library is not part of the repository.  The records below have
    the fields the source reads or writes; the remaining fields of a message the
    server forwards whole are kept in one opaque field [.._other], which no
    operation touches.  A protobuf enum read from the wire is [EnumOrUnknown]:
    a known value or a bare number.  An unset field is the empty string, the
    empty list, zero, [false] or [None], as in proto3. *)

From S2P Require Import Prelude.
From S2P Require Import Text.
From S2P Require Import Net.

(** ** Enumerations *)

(** [register_pk_response::Result]: the values the server answers with.
    [UUID_MISMATCH], [TOO_FREQUENT] and [INVALID_ID_FORMAT] are imported by
    name in the source. *)
Inductive RegisterPkResult :=
  | OK | UUID_MISMATCH | TOO_FREQUENT | INVALID_ID_FORMAT | NOT_SUPPORT
  | SERVER_ERROR | NOT_DEPLOYED.

(** [punch_hole_response::Failure]: the values the server answers with. *)
Inductive Failure := ID_NOT_EXIST | OFFLINE | LICENSE_MISMATCH.

(** [NatType]: the server names one value and passes on the others. *)
Inductive NatType := SYMMETRIC | OtherNat (n : Z).
Inductive EnumOrUnknown (A : Type) := Known (a : A) | Unknown (n : Z).
Arguments Known {A}. Arguments Unknown {A}.
Definition enum_value {A} (e : EnumOrUnknown A) : option A :=
  match e with Known a => Some a | Unknown _ => None end.

#[export] Instance RegisterPkResult_eq_dec : EqDecision RegisterPkResult.
Proof. solve_decision. Defined.
#[export] Instance Failure_eq_dec : EqDecision Failure.
Proof. solve_decision. Defined.

(** ** Messages *)

Record RegisterPeer := mkRegisterPeer { rp_id : string; rp_serial : Z }.
Record RegisterPeerResponse := mkRegisterPeerResponse { request_pk : bool }.
Record ConfigUpdate := mkConfigUpdate { cu_serial : Z; cu_rendezvous_servers : list string }.

Record RegisterPk := mkRegisterPk {
  rk_id : string; rk_uuid : bytes; rk_pk : bytes; rk_old_id : string
}.
Record RegisterPkResponse := mkRegisterPkResponse {
  rkr_result : RegisterPkResult; keep_alive : Z
}.

Record PunchHoleRequest := mkPunchHoleRequest {
  ph_id : string;
  ph_nat_type : EnumOrUnknown NatType;
  ph_licence_key : string;
  ph_token : string;
  ph_version : string;
  ph_force_relay : bool;
  ph_switch_code : string;
  ph_socket_addr_v6 : bytes
}.
Record PunchHole := mkPunchHole {
  pun_socket_addr : bytes;
  pun_nat_type : EnumOrUnknown NatType;
  pun_relay_server : string;
  pun_force_relay : bool;
  pun_socket_addr_v6 : bytes;
  pun_rendezvous_token : bytes
}.
Record FetchLocalAddr := mkFetchLocalAddr {
  fla_socket_addr : bytes;
  fla_relay_server : string;
  fla_socket_addr_v6 : bytes;
  fla_rendezvous_token : bytes
}.
Record PunchHoleSent := mkPunchHoleSent {
  phs_id : string;
  phs_socket_addr : bytes;
  phs_relay_server : string;
  phs_nat_type : EnumOrUnknown NatType;
  phs_version : string;
  phs_socket_addr_v6 : bytes;
  phs_rendezvous_token : bytes
}.
Record LocalAddr := mkLocalAddr {
  la_id : string;
  la_socket_addr : bytes;
  la_local_addr : bytes;
  la_relay_server : string;
  la_version : string;
  la_socket_addr_v6 : bytes;
  la_rendezvous_token : bytes
}.
Record PunchHoleResponse := mkPunchHoleResponse {
  phr_socket_addr : bytes;
  phr_pk : bytes;
  phr_failure : option Failure;
  phr_relay_server : string;
  phr_nat_type : option NatType;
  phr_is_local : bool;
  phr_is_udp : bool;
  phr_socket_addr_v6 : bytes
}.
(** [PunchHoleResponse { failure, ..Default::default() }]. *)
Definition punch_failure (f : Failure) : PunchHoleResponse :=
  mkPunchHoleResponse [] [] (Some f) "" None false false [].

Record RequestRelay := mkRequestRelay {
  rf_id : string;
  rf_uuid : string;
  rf_socket_addr : bytes;
  rf_relay_server : string;
  rf_licence_key : string;
  rf_token : string;
  rf_switch_code : string;
  rf_control_permissions : option bytes;
  rf_controlled_context : option bytes;
  rf_rendezvous_token : bytes;
  rf_other : bytes
}.
(** The response names the device by [id] or carries its signed key: one of
    the two. *)
Inductive RelayUnion := RelayNone | RelayId (id : string) | RelayPk (pk : bytes).
Record RelayResponse := mkRelayResponse {
  rr_socket_addr : bytes;
  rr_uuid : string;
  rr_relay_server : string;
  rr_union : RelayUnion;
  rr_refuse_reason : string;
  rr_version : string;
  rr_socket_addr_v6 : bytes;
  rr_rendezvous_token : bytes;
  rr_other : bytes
}.
(** The accessor [RelayResponse::id]. *)
Definition relay_response_id (rr : RelayResponse) : string :=
  match rr_union rr with RelayId id => id | _ => "" end.
(** [RelayResponse { refuse_reason, ..Default::default() }]. *)
Definition relay_refusal (reason : string) : RelayResponse :=
  mkRelayResponse [] "" "" RelayNone reason "" [] [] [].

Record TestNatRequest := mkTestNatRequest { tar_serial : Z }.
Record TestNatResponse := mkTestNatResponse { tnr_port : Z; tnr_cu : option ConfigUpdate }.

Record HeaderEntry := mkHeaderEntry { h_name : string; h_value : string }.
Record HttpProxyRequest := mkHttpProxyRequest {
  hp_licence_key : string; hp_method : string; hp_path : string;
  hp_headers : list HeaderEntry; hp_body : bytes
}.
Record HttpProxyResponse := mkHttpProxyResponse {
  hr_status : Z; hr_headers : list HeaderEntry; hr_body : bytes; hr_error : string
}.
(** [HttpProxyResponse { status, error, ..Default::default() }]. *)
Definition proxy_error (status : Z) (error : string) : HttpProxyResponse :=
  mkHttpProxyResponse status [] [] error.

(** [rendezvous_message::Union]; [OtherMessage] stands for the variants no
    handler names. *)
Inductive Union :=
  | MRegisterPeer (m : RegisterPeer)
  | MRegisterPeerResponse (m : RegisterPeerResponse)
  | MConfigUpdate (m : ConfigUpdate)
  | MRegisterPk (m : RegisterPk)
  | MRegisterPkResponse (m : RegisterPkResponse)
  | MPunchHoleRequest (m : PunchHoleRequest)
  | MPunchHole (m : PunchHole)
  | MFetchLocalAddr (m : FetchLocalAddr)
  | MPunchHoleSent (m : PunchHoleSent)
  | MLocalAddr (m : LocalAddr)
  | MPunchHoleResponse (m : PunchHoleResponse)
  | MRequestRelay (m : RequestRelay)
  | MRelayResponse (m : RelayResponse)
  | MTestNatRequest (m : TestNatRequest)
  | MTestNatResponse (m : TestNatResponse)
  | MOnlineRequest (peers : list string)
  | MOnlineResponse (states : bytes)
  | MHttpProxyRequest (m : HttpProxyRequest)
  | MHttpProxyResponse (m : HttpProxyResponse)
  | MHc (token : string)
  | MKeyExchange (keys : list bytes)
  | OtherMessage.

(** [RendezvousMessage]: its [union]. *)
Abbreviation RendezvousMessage := (option Union).

(** ** Validation of identifiers *)

Definition PEER_ID_MIN_LEN : Z := 6.
Definition PEER_ID_MAX_LEN : Z := 16.
Definition RELAY_UUID_MIN_LEN : Z := 8.
Definition RELAY_UUID_MAX_LEN : Z := 128.

(** [byte.is_ascii_alphanumeric() || matches!(byte, b'-' | b'_')]. *)
Definition token_byte (b : Z) : bool := is_alphanumeric b || (b =? 45) || (b =? 95).

Definition valid_peer_id (id : string) : bool :=
  (PEER_ID_MIN_LEN <=? slen id) && (slen id <=? PEER_ID_MAX_LEN)
  && forallb token_byte (codes id).

Definition valid_relay_uuid (uuid : string) : bool :=
  (RELAY_UUID_MIN_LEN <=? slen uuid) && (slen uuid <=? RELAY_UUID_MAX_LEN)
  && forallb token_byte (codes uuid).

Example valid_peer_id_ex : valid_peer_id "device_1" = true ∧ valid_peer_id "bad id!" = false
  ∧ valid_peer_id "short" = false.
Proof. by vm_compute. Qed.
