(* ===== verification/Externals.v ===== *)
(** What the server calls outside the repository, as one interface.

    [Externals] collects the functions of the protocol library, of serde_json
    and of the platform that the rendezvous components use; every component takes
    it as a parameter.  [ExternalLaws] states what the components rely on; only
    the theorems that need a law assume it.  Calls whose answer varies between
    calls (the random number generator, the API server) are not here: they are
    arguments of the operations that make them. *)

From S2P Require Import Prelude.
From S2P Require Import Net.
From S2P Require Import Database.
From S2P Require Import PeerCache.
From S2P Require Import Messages.

Class Externals := {
  (** The earliest [Instant] the platform can represent. *)
  instant_min : Instant;
  (** [serde_json::from_str] and [to_string] at [PeerInfo]. *)
  from_json : string → option PeerInfo;
  to_json : PeerInfo → result string;
  (** [box_::PUBLICKEYBYTES]. *)
  PUBLICKEYBYTES : Z;
  (** [try_into_v4]: an IPv4-mapped IPv6 address as the IPv4 address. *)
  try_into_v4 : SocketAddr → SocketAddr;
  (** [AddrMangle::encode] and [try_decode]. *)
  mangle_encode : SocketAddr → bytes;
  mangle_try_decode : bytes → option SocketAddr;
  (** [hex::encode(Sha256::digest(..))] and [BASE64.encode]. *)
  sha256_hex : bytes → string;
  base64_encode : bytes → string;
  (** [sign::sign] over the encoded [IdPk { id, pk }] with the server's key. *)
  sign_id_pk : string → bytes → bytes
}.

Class ExternalLaws (X : Externals) : Prop := {
  (** Metadata survives a round trip through its JSON text. *)
  json_roundtrip : ∀ i s, to_json i = Ok s → from_json s = Some i;
  (** [try_into_v4] normalises, and keeps the port. *)
  try_into_v4_idemp : ∀ a, try_into_v4 (try_into_v4 a) = try_into_v4 a;
  try_into_v4_port : ∀ a, sa_port (try_into_v4 a) = sa_port a;
  (** A mangled address decodes to itself. *)
  mangle_roundtrip : ∀ a, mangle_try_decode (mangle_encode a) = Some a
}.

(** Concrete functions that satisfy the laws, for the concrete instances. *)
Definition sample_v4 (a : SocketAddr) : SocketAddr :=
  match a with
  | SockV4 _ _ => a
  | SockV6 i p _ _ => match to_ipv4_mapped i with Some v4 => SockV4 v4 p | None => a end
  end.
Definition sample_encode (a : SocketAddr) : bytes := [Z.pos (encode a)].
Definition sample_decode (b : bytes) : option SocketAddr :=
  match b with [Z.pos p] => decode p | _ => None end.

#[export] Instance sample_externals : Externals := {|
  instant_min := 0;
  from_json s := Some (mkPeerInfo s);
  to_json i := Ok (info_ip i);
  PUBLICKEYBYTES := 32;
  try_into_v4 := sample_v4;
  mangle_encode := sample_encode;
  mangle_try_decode := sample_decode;
  sha256_hex b := "hash";
  base64_encode b := "base64";
  sign_id_pk id pk := pk
|}.

#[export] Instance sample_laws : ExternalLaws sample_externals.
Proof.
  split; simpl.
  - intros [ip] s [= <-]. done.
  - intros [ip p|i p f s]; simpl; [done|]. destruct (to_ipv4_mapped i) eqn:E; simpl; [done|by rewrite E].
  - intros [ip p|i p f s]; simpl; [done|]. by destruct (to_ipv4_mapped i).
  - intros a. simpl. apply decode_encode.
Qed.
