(* ===== verification/Registration.v ===== *)
(** Device registration ([src/rendezvous_server.rs]: [stage_peer_registration],
    [register_peer_common], [register_pk_common], [verify_device_deployment]).

    A peer locked for writing is a [Guard]: the peer and the clock.  A
    registration stages the new identity in memory under the lock, spawns a task
    that writes it to the database, and the task then confirms it or rolls it
    back.  Here the three parts run one after the other ([register_pk_common]);
    the invariant [reg_wf] has room for tasks in any phase.  What survives when
    other sections run in between, inside a lookup too, is in [TaskSafety]. *)

From Stdlib Require Import Ascii String.
From S2P Require Import Prelude.
From S2P Require Import Text.
From S2P Require Import Net.
From S2P Require Import RateLimit.
From S2P Require Import Database.
From S2P Require Import PeerCache.
From S2P Require Import Messages.
From S2P Require Import Externals.

(** ** Data *)

Definition REGISTER_UUID_MAX_LEN : Z := 256.
Definition DEPLOYMENT_VERIFICATION_CACHE_SECS : Z := 30.

(** [RendezvousServer::inner]: the configuration of the server; [mask] is the
    LAN network as the predicate [Ipv4Network::contains]. *)
Record Inner := mkInner {
  serial : Z;
  api_server : string;
  trust_proxy_headers : bool;
  mask : option (Ipv4Addr → bool);
  local_ip : string;
  runtime_console : bool;
  allow_unmanaged_devices : bool;
  device_verification_token : string
}.

Record PeerRegistrationRollback := mkRollback {
  rb_socket_addr : SocketAddr;
  rb_last_reg_time : Instant;
  rb_uuid : bytes;
  rb_pk : bytes;
  rb_info : PeerInfo;
  rb_deployment_verified_at : option Instant
}.

Record PendingPeerRegistration := mkPendingReg {
  pr_guid : bytes;
  pr_rollback : PeerRegistrationRollback;
  pr_serialized_info : string;
  pr_ip_changed : bool
}.

Inductive PeerRegistrationStage :=
  | Busy | UuidMismatch | TooFrequent | Unchanged | Persist (p : PendingPeerRegistration).

(** A write guard on a peer. *)
Record Guard := mkGuard { gd_clock : Clock; gd_peer : Peer }.
#[export] Instance Guard_clock : HasClock Guard := {|
  clock_of := gd_clock;
  with_clock c g := mkGuard c (gd_peer g);
  clock_with_clock := λ _ _, eq_refl
|}.

(** Assignments to the fields of a locked peer. *)
Definition set_socket_addr (a : SocketAddr) (p : Peer) : Peer :=
  mkPeer a (last_reg_time p) (last_access_time p) (guid p) (uuid p) (pk p)
    (persistence_in_progress p) (deployment_verified_at p) (info p) (reg_pk p).
Definition set_last_reg_time (t : Instant) (p : Peer) : Peer :=
  mkPeer (socket_addr p) t (last_access_time p) (guid p) (uuid p) (pk p)
    (persistence_in_progress p) (deployment_verified_at p) (info p) (reg_pk p).
Definition set_guid (g : bytes) (p : Peer) : Peer :=
  mkPeer (socket_addr p) (last_reg_time p) (last_access_time p) g (uuid p) (pk p)
    (persistence_in_progress p) (deployment_verified_at p) (info p) (reg_pk p).
Definition set_identity (u k : bytes) (i : PeerInfo) (p : Peer) : Peer :=
  mkPeer (socket_addr p) (last_reg_time p) (last_access_time p) (guid p) u k
    (persistence_in_progress p) (deployment_verified_at p) i (reg_pk p).
Definition set_in_progress (b : bool) (p : Peer) : Peer :=
  mkPeer (socket_addr p) (last_reg_time p) (last_access_time p) (guid p) (uuid p) (pk p)
    b (deployment_verified_at p) (info p) (reg_pk p).
Definition set_verified_at (o : option Instant) (p : Peer) : Peer :=
  mkPeer (socket_addr p) (last_reg_time p) (last_access_time p) (guid p) (uuid p) (pk p)
    (persistence_in_progress p) o (info p) (reg_pk p).
Definition set_reg_pk (r : Z * Instant) (p : Peer) : Peer :=
  mkPeer (socket_addr p) (last_reg_time p) (last_access_time p) (guid p) (uuid p) (pk p)
    (persistence_in_progress p) (deployment_verified_at p) (info p) r.

Definition put (f : Peer → Peer) : M Guard unit := modify (λ g, mkGuard (gd_clock g) (f (gd_peer g))).

(** What registrations share: the peers, and the two limiter tables. *)
Record RegState (D : Type) := mkRegState { rs_pm : PeerMap D; rs_transient : Transient }.
Arguments mkRegState {D}. Arguments rs_pm {D}. Arguments rs_transient {D}.

Definition set_pm {D} (pm : PeerMap D) (s : RegState D) : RegState D :=
  mkRegState pm (rs_transient s).
Definition set_transient {D} (t : Transient) (s : RegState D) : RegState D :=
  mkRegState (rs_pm s) t.

#[export] Instance RegState_clock {D} : HasClock (RegState D) := {|
  clock_of s := pm_clock (rs_pm s);
  with_clock c s := set_pm (set_clock c (rs_pm s)) s;
  clock_with_clock := λ _ _, eq_refl
|}.

(** A spawned persistence task. *)
Record PersistTask := mkPersistTask {
  pt_id : string;
  pt_peer : LockPeer;
  pt_uuid : bytes;
  pt_pk : bytes;
  pt_managed : bool;
  pt_pending : PendingPeerRegistration
}.

(** ** Operations *)

Section Registration.
Context {D : Type} `{!PeerStore D} `{X : !Externals}.

(** *** Staging *)

(** Lines 295-317: whether the registration contradicts the identity the peer
    already has. *)
Definition registration_refused (peer : Peer) (uuid' pk' : bytes) (ip : string)
    (managed_authorized : bool) : bool :=
  if is_empty (uuid peer) then false
  else if managed_authorized then false
  else if bool_decide (uuid peer = uuid') then
    bool_decide (info_ip (info peer) ≠ ip) && bool_decide (pk peer ≠ pk')
  else true.

Definition stage_peer_registration (socket_addr' : SocketAddr)
    (uuid' pk' : bytes) (ip : string) (managed_authorized : bool)
    : M Guard PeerRegistrationStage :=
  peer ← gets gd_peer;
  if persistence_in_progress peer then mret Busy else
  if registration_refused peer uuid' pk' ip managed_authorized then mret UuidMismatch else
  now ← instant_now;
  let idle := 6 <? as_secs (duration_since now (reg_pk peer).2) in
  if negb idle && (2 <? (reg_pk peer).1) then mret TooFrequent else
  let count := if idle then 0 else (reg_pk peer).1 in
  now ← instant_now;
  put (set_reg_pk (u32_add count 1, now));;
  let ip_changed := negb (is_empty (uuid peer)) && bool_decide (info_ip (info peer) ≠ ip) in
  let changed := is_empty (uuid peer) || bool_decide (uuid peer ≠ uuid')
                 || bool_decide (pk peer ≠ pk') || ip_changed in
  if negb changed then mret Unchanged else
  let updated_info := mkPeerInfo ip in
  serialized_info ← lift (to_json updated_info);
  let rollback := mkRollback (socket_addr peer) (last_reg_time peer) (uuid peer) (pk peer)
                    (info peer) (deployment_verified_at peer) in
  put (set_socket_addr socket_addr');;
  now ← instant_now;
  put (set_last_reg_time now);;
  put (set_identity uuid' pk' updated_info);;
  put (set_in_progress true);;
  mret (Persist (mkPendingReg (guid peer) rollback serialized_info ip_changed)).

(** *** The locked peer, within the server's state *)

(** [peer.write().await]: run a computation on the peer at a location. *)
Definition with_write {A} (l : LockPeer) (m : M Guard A) : M (PeerMap D) A := λ pm,
  match pm_heap pm !! l with
  | None => (Err "dangling handle", pm)
  | Some p =>
      let '(r, g) := m (mkGuard (pm_clock pm) p) in
      (r, set_heap (<[l := gd_peer g]> (pm_heap pm)) (set_clock (gd_clock g) pm))
  end.

Definition on_peers {A} (m : M (PeerMap D) A) : M (RegState D) A := zoom rs_pm set_pm m.

(** [self.pm.get_or(..)] and [self.pm.get(..)]. *)
Definition pm_get_or (id : string) : M (PeerMap D) (option LockPeer) :=
  get_or instant_min from_json id.
Definition pm_get (id : string) : M (PeerMap D) (option LockPeer) :=
  get instant_min from_json id.

(** *** Deployment verification *)

(** [post url token id uuid hash]: the answer of the API server's endpoint to
    one request, its status, or an error. *)
Definition verify_device_deployment (inner : Inner)
    (post : string → string → string → string → string → result Z)
    (id : string) (uuid' public_key : bytes) : result bool :=
  if allow_unmanaged_devices inner then Ok true else
  let base := trim_end_char "/"%char (api_server inner) in
  if str_empty base then Err "API server is not configured" else
  let public_key_hash := sha256_hex public_key in
  status ← post (base +:+ "/api/devices/verify-deployment")
             (device_verification_token inner) id (base64_encode uuid') public_key_hash;
  if status =? 204 then Ok true
  else if (status =? 401) || (status =? 403)
    then Err "API rejected the rendezvous server credential"
  else if (status =? 400) || (status =? 404) then Ok false
  else Err ("API returned status " +:+ show status).

(** *** Key registration *)

Definition request_allowed (ip id : string) : M (RegState D) bool :=
  now ← instant_now;
  state (λ s, let t := rs_transient s in
    let '(ok, b) := allow_ip_request (tr_blockers t) ip id now in
    (ok, set_transient (mkTransient b (tr_changes t)) s)).

Definition note_ip_change (id ip : string) : M (RegState D) bool :=
  now ← instant_now;
  state (λ s, let t := rs_transient s in
    let '(ok, c) := record_ip_change (tr_changes t) id ip now in
    (ok, set_transient (mkTransient (tr_blockers t) c) s)).

(** Lines 1014-1079: up to the spawned task.  The answer, or the task to
    run. *)
Definition register_begin (inner : Inner)
    (post : string → string → string → string → string → result Z)
    (rk : RegisterPk) (socket_addr' : SocketAddr)
    : M (RegState D) (RegisterPkResult + PersistTask) :=
  if negb (str_empty (rk_old_id rk)) then mret (inl NOT_SUPPORT) else
  if negb (valid_peer_id (rk_id rk)) || is_empty (rk_uuid rk)
     || (REGISTER_UUID_MAX_LEN <? len (rk_uuid rk)) || negb (len (rk_pk rk) =? PUBLICKEYBYTES)
  then mret (inl INVALID_ID_FORMAT) else
  let ip := show_ip (sa_ip socket_addr') in
  allowed ← request_allowed ip (rk_id rk);
  if negb allowed then mret (inl TOO_FREQUENT) else
  let authorization :=
    if allow_unmanaged_devices inner then inr false
    else match verify_device_deployment inner post (rk_id rk) (rk_uuid rk) (rk_pk rk) with
         | Ok true => inr true
         | Ok false => inl NOT_DEPLOYED
         | Err _ => inl SERVER_ERROR
         end in
  match authorization with
  | inl answer => mret (inl answer)
  | inr managed_authorized =>
      found ← on_peers (pm_get_or (rk_id rk));
      match found with
      | None => mret (inl SERVER_ERROR)
      | Some peer =>
          stage ← on_peers (with_write peer
            (stage_peer_registration socket_addr' (rk_uuid rk) (rk_pk rk) ip managed_authorized));
          match stage with
          | Busy => mret (inl SERVER_ERROR)
          | UuidMismatch => mret (inl UUID_MISMATCH)
          | TooFrequent => mret (inl TOO_FREQUENT)
          | Unchanged =>
              (if managed_authorized : bool
               then on_peers (with_write peer
                      (now ← instant_now; put (set_verified_at (Some now))))
               else mret tt);;
              mret (inl OK)
          | Persist pending =>
              mret (inr (mkPersistTask (rk_id rk) peer (rk_uuid rk) (rk_pk rk)
                           managed_authorized pending))
          end
      end
  end.

(** Lines 1091-1098: the task's statement. *)
Definition persist_write (t : PersistTask) : M (PeerMap D) bytes :=
  if is_empty (pr_guid (pt_pending t)) then
    zoom pm_db set_db (λ d,
      ps_insert_peer d (pt_id t) (pt_uuid t) (pt_pk t) (pr_serialized_info (pt_pending t)))
  else
    zoom pm_db set_db (λ d,
      ps_update_identity d (pr_guid (pt_pending t)) (pt_id t) (pt_uuid t) (pt_pk t)
        (pr_serialized_info (pt_pending t)));;
    mret (pr_guid (pt_pending t)).

(** Lines 1100-1120: the task's end, with the statement's outcome. *)
Definition persist_finish (t : PersistTask) (result' : result bytes) : M (PeerMap D) unit :=
  with_write (pt_peer t)
    (match result' with
     | Ok g =>
         put (set_guid g);;
         put (set_in_progress false);;
         if pt_managed t then (now ← instant_now; put (set_verified_at (Some now)))
         else mret tt
     | Err e =>
         let rb := pr_rollback (pt_pending t) in
         put (set_socket_addr (rb_socket_addr rb));;
         put (set_last_reg_time (rb_last_reg_time rb));;
         put (set_identity (rb_uuid rb) (rb_pk rb) (rb_info rb));;
         put (set_verified_at (rb_deployment_verified_at rb));;
         put (set_in_progress false);;
         bail e
     end).

(** The spawned task: lines 1090-1121. *)
Definition persist_task (t : PersistTask) : M (RegState D) unit :=
  written ← attempt (on_peers (persist_write t));
  on_peers (persist_finish t written).

Definition register_pk_common (inner : Inner)
    (post : string → string → string → string → string → result Z)
    (rk : RegisterPk) (socket_addr' : SocketAddr)
    : M (RegState D) (option RegisterPkResult) :=
  begun ← register_begin inner post rk socket_addr';
  match begun with
  | inl answer => mret (Some answer)
  | inr task =>
      persistence ← attempt (persist_task task);
      match persistence with
      | Err _ => mret (Some SERVER_ERROR)
      | Ok tt =>
          (if pr_ip_changed (pt_pending task)
           then note_ip_change (rk_id rk) (show_ip (sa_ip socket_addr'));; mret tt
           else mret tt);;
          mret (Some OK)
      end
  end.

(** *** Heartbeats *)

(** The block under the lock: lines 959-984.  Whether the device must send its
    key, and the address it changed from. *)
Definition heartbeat (inner : Inner) (socket_addr' : SocketAddr)
    : M Guard (bool * option string) :=
  old ← gets gd_peer;
  let ip := sa_ip socket_addr' in
  let ip_change :=
    (if negb (sa_port (socket_addr old) =? 0)
     then bool_decide (ip ≠ sa_ip (socket_addr old))
     else bool_decide (show_ip ip ≠ info_ip (info old)))
    && negb (is_loopback ip) in
  expired ←
    (if allow_unmanaged_devices inner then mret false else
     match deployment_verified_at old with
     | None => mret true
     | Some verified_at =>
         now ← instant_now;
         mret (DEPLOYMENT_VERIFICATION_CACHE_SECS <=? as_secs (duration_since now verified_at))
     end);
  let request := is_empty (pk old) || ip_change || expired in
  (if negb request then
     put (set_socket_addr socket_addr');;
     now ← instant_now;
     put (set_last_reg_time now)
   else mret tt);;
  old ← gets gd_peer;
  let change :=
    if ip_change && ((reg_pk old).1 <=? 2)
    then Some (if sa_port (socket_addr old) =? 0 then info_ip (info old)
               else show_sock (socket_addr old))
    else None in
  mret (request, change).

Definition register_peer_common (inner : Inner) (rendezvous_servers : list string)
    (rp : RegisterPeer) (socket_addr' : SocketAddr)
    : M (RegState D) (RegisterPeerResponse * option ConfigUpdate) :=
  found ← on_peers (pm_get (rp_id rp));
  r ← match found with
      | Some old => on_peers (with_write old (heartbeat inner socket_addr'))
      | None => mret (true, None)
      end;
  let cu := if rp_serial rp <? serial inner
            then Some (mkConfigUpdate (serial inner) rendezvous_servers) else None in
  mret (mkRegisterPeerResponse r.1, cu).
End Registration.

(** ** Lemmas: the locked peer *)

Lemma wp_put f g (Q : result unit → Guard → Prop) :
  Q (Ok tt) (mkGuard (gd_clock g) (f (gd_peer g))) → wp (put f) Q g.
Proof. done. Qed.

Section GuardLemmas.
Context {D : Type} `{!PeerStore D} `{X : !Externals}.

Lemma wp_with_write {A} l (m : M Guard A) p pm (Q : result A → PeerMap D → Prop) :
  pm_heap pm !! l = Some p →
  wp m (λ r g, Q r (set_heap (<[l := gd_peer g]> (pm_heap pm)) (set_clock (gd_clock g) pm)))
    (mkGuard (pm_clock pm) p) →
  wp (with_write l m) Q pm.
Proof. unfold wp, with_write. intros ->. by destruct (m _). Qed.

(** The outcome of staging: which branch, and the peer afterwards. *)
Definition staged (p : Peer) (rp : Z * Instant) (addr : SocketAddr) (now : Instant)
    (uuid' pk' : bytes) (ip : string) : Peer :=
  mkPeer addr now (last_access_time p) (guid p) uuid' pk' true
    (deployment_verified_at p) (mkPeerInfo ip) rp.

Definition rollback_of (p : Peer) : PeerRegistrationRollback :=
  mkRollback (socket_addr p) (last_reg_time p) (uuid p) (pk p) (info p) (deployment_verified_at p).

Definition stage_spec (p : Peer) (addr : SocketAddr) (uuid' pk' : bytes) (ip : string)
    (managed : bool) (r : result PeerRegistrationStage) (p' : Peer) : Prop :=
  let refused := registration_refused p uuid' pk' ip managed in
  match r with
  | Ok Busy => p' = p ∧ persistence_in_progress p = true
  | Ok UuidMismatch => p' = p ∧ persistence_in_progress p = false ∧ refused = true
  | Ok TooFrequent =>
      p' = p ∧ persistence_in_progress p = false ∧ refused = false ∧ 2 < (reg_pk p).1
  | Ok Unchanged =>
      (∃ rp, p' = set_reg_pk rp p) ∧ persistence_in_progress p = false ∧
      uuid p = uuid' ∧ uuid p ≠ [] ∧ pk p = pk' ∧ info_ip (info p) = ip
  | Ok (Persist q) =>
      persistence_in_progress p = false ∧ refused = false ∧
      ∃ rp now s b, p' = staged p rp addr now uuid' pk' ip ∧
        to_json (mkPeerInfo ip) = Ok s ∧ q = mkPendingReg (guid p) (rollback_of p) s b ∧
        b = negb (is_empty (uuid p)) && bool_decide (info_ip (info p) ≠ ip)
  | Err e =>
      persistence_in_progress p = false ∧ refused = false ∧
      (∃ rp, p' = set_reg_pk rp p) ∧ to_json (mkPeerInfo ip) = Err e
  end.

Lemma wp_stage addr uuid' pk' ip managed g (Q : result PeerRegistrationStage → Guard → Prop) :
  (∀ r g', stage_spec (gd_peer g) addr uuid' pk' ip managed r (gd_peer g') → Q r g') →
  wp (stage_peer_registration addr uuid' pk' ip managed) Q g.
Proof.
  intros HQ. destruct g as [c p]. apply wp_bind, wp_gets. simpl in *.
  destruct (persistence_in_progress p) eqn:Hprog; [by apply wp_ret, HQ|].
  destruct (registration_refused p uuid' pk' ip managed) eqn:Href; [by apply wp_ret, HQ|].
  apply wp_bind, wp_instant_now. intros t c' _ _ _. cbn zeta.
  destruct (_ && (2 <? _)) eqn:Hfreq.
  { apply wp_ret, HQ. simpl. reflect_bools. split_and!; done. }
  apply wp_bind, wp_instant_now. intros t2 c2 _ _ _. apply wp_bind, wp_put. simpl.
  destruct (_ || _) eqn:Hchanged; simpl.
  - apply wp_bind, wp_lift. destruct (to_json (mkPeerInfo ip)) as [s|e] eqn:Hjson.
    2:{ apply HQ. simpl. split_and!; eauto. }
    apply wp_bind, wp_put, wp_bind, wp_instant_now. intros t3 c3 _ _ _.
    apply wp_bind, wp_put, wp_bind, wp_put, wp_bind, wp_put, wp_ret, HQ.
    simpl. split_and!; [done..|]. by eexists _, _, _, _.
  - apply wp_ret, HQ. simpl. reflect_bools. destruct (uuid p); [done|]. simpl in *. reflect_bools.
    destruct H0 as [?|H0]; [done|]. reflect_bools.
    split_and!; try done; [by eexists|by apply dec_stable..].
Qed.

(** A heartbeat keeps the identity; it is accepted only from a peer with a
    key, at its known address, and with a fresh verification. *)
Definition heartbeat_spec (inner : Inner) (addr : SocketAddr) (p : Peer)
    (r : result (bool * option string)) (p' : Peer) : Prop :=
  ∃ request change, r = Ok (request, change) ∧
    if request : bool then p' = p
    else pk p ≠ [] ∧ (∃ now, p' = set_last_reg_time now (set_socket_addr addr p)) ∧
      change = None ∧
      (allow_unmanaged_devices inner = false → ∃ v now, deployment_verified_at p = Some v ∧
         as_secs (duration_since now v) < DEPLOYMENT_VERIFICATION_CACHE_SECS) ∧
      (is_loopback (sa_ip addr) = false → sa_port (socket_addr p) ≠ 0 →
         sa_ip addr = sa_ip (socket_addr p)).

Lemma wp_heartbeat inner addr g (Q : result (bool * option string) → Guard → Prop) :
  (∀ r g', heartbeat_spec inner addr (gd_peer g) r (gd_peer g') → Q r g') →
  wp (heartbeat inner addr) Q g.
Proof.
  intros HQ. destruct g as [c p]. apply wp_bind, wp_gets. simpl in *. cbn zeta.
  set (ip_change := _ && negb (is_loopback (sa_ip addr))).
  apply wp_bind.
  assert (∀ expired g1, gd_peer g1 = p →
    (expired = false → allow_unmanaged_devices inner = false → ∃ v now,
       deployment_verified_at p = Some v ∧
       as_secs (duration_since now v) < DEPLOYMENT_VERIFICATION_CACHE_SECS) →
    wp ((if negb (is_empty (pk p) || ip_change || expired)
         then put (set_socket_addr addr);; now ← instant_now; put (set_last_reg_time now)
         else mret tt);;
        old ← gets gd_peer;
        mret (is_empty (pk p) || ip_change || expired,
          if ip_change && ((reg_pk old).1 <=? 2)
          then Some (if sa_port (socket_addr old) =? 0 then info_ip (info old)
                     else show_sock (socket_addr old)) else None)) Q g1) as Hrest.
  { intros expired [c1 p1] Hp Hfresh. simpl in Hp. subst p1. apply wp_bind.
    destruct (is_empty (pk p) || ip_change || expired) eqn:Hreq; simpl.
    - apply wp_ret, wp_bind, wp_gets, wp_ret, HQ. simpl. by eexists true, _.
    - apply orb_false_iff in Hreq as [Hreq ->]. apply orb_false_iff in Hreq as [Hpk Hip].
      rewrite Hip. apply wp_bind, wp_put, wp_bind, wp_instant_now. intros t c2 _ _ _.
      apply wp_put, wp_bind, wp_gets, wp_ret, HQ. simpl. eexists false, _.
      split_and!; [done|by destruct (pk p)|by exists t|done|by apply Hfresh|].
      intros Hlo Hport. unfold ip_change in Hip. rewrite Hlo, andb_true_r in Hip.
      rewrite (proj2 (Z.eqb_neq _ _)) in Hip by done. simpl in Hip.
      apply bool_decide_eq_false in Hip. by apply dec_stable. }
  destruct (allow_unmanaged_devices inner).
  { apply wp_ret, Hrest; [done|]. by intros. }
  destruct (deployment_verified_at p) as [v|].
  2:{ apply wp_ret, Hrest; [done|]. by intros. }
  apply wp_bind, wp_instant_now. intros t c2 _ _ _. apply wp_ret, Hrest; [done|].
  intros Hexp _. reflect_bools. by exists v, t.
Qed.
End GuardLemmas.

(** ** Registrations under way *)

(** Where a spawned task is: before its statement, or with its outcome. *)
Inductive TaskPhase := PtWrite (t : PersistTask) | PtFinish (t : PersistTask) (r : result bytes).
(** The running tasks, by a number of their own. *)
Abbreviation Tasks := (gmap nat TaskPhase).
Definition phase_task (ph : TaskPhase) : PersistTask :=
  match ph with PtWrite t | PtFinish t _ => t end.

Section Steps.
Context {D : Type} `{!PeerStore D} `{X : !Externals}.
Context (inner : Inner).

Definition held (pm : PeerMap D) (l : LockPeer) : nat := default 0%nat (pm_held pm !! l).
(** A task holds its handle as long as it runs. *)
Definition set_held (h : gmap LockPeer nat) (pm : PeerMap D) : PeerMap D :=
  mkPeerMap (pm_clock pm) (pm_heap pm) (pm_map pm) (pm_db pm) (max_cached_peers pm) h (pm_locked pm).
Definition hold (l : LockPeer) (pm : PeerMap D) : PeerMap D :=
  set_held (<[l := S (held pm l)]> (pm_held pm)) pm.
Definition release (l : LockPeer) (pm : PeerMap D) : PeerMap D :=
  set_held (<[l := pred (held pm l)]> (pm_held pm)) pm.

(** *** Invariant *)

(** The identity a task will restore if its statement fails is the stored
    one. *)
Definition rollback_ok (row : option DbPeer) (t : PersistTask) : Prop :=
  let q := pt_pending t in let rb := pr_rollback q in
  (pr_guid q = [] ∧ rb_uuid rb = [] ∧ rb_pk rb = []) ∨
  ∃ v, row = Some v ∧ pr_guid q = db_guid v ∧ rb_uuid rb = db_uuid v ∧ rb_pk rb = db_pk v ∧
    from_json (db_info v) = Some (rb_info rb).

(** The peer of a running task: the staged identity, in progress. *)
Definition task_peer (t : PersistTask) (p : Peer) : Prop :=
  persistence_in_progress p = true ∧ guid p = pr_guid (pt_pending t) ∧
  uuid p = pt_uuid t ∧ pk p = pt_pk t ∧
  from_json (pr_serialized_info (pt_pending t)) = Some (info p).

(** What a task has been authorized to change. *)
Definition change_authorized (t : PersistTask) : Prop :=
  let rb := pr_rollback (pt_pending t) in
  pt_uuid t ≠ [] ∧
  (pt_managed t = true ∨ rb_uuid rb = [] ∨
   (rb_uuid rb = pt_uuid t ∧
    (rb_pk rb = pt_pk t ∨
     from_json (pr_serialized_info (pt_pending t)) = Some (rb_info rb)))).

Definition phase_row (ph : TaskPhase) (row : option DbPeer) : Prop :=
  match ph with
  | PtWrite t => rollback_ok row t
  | PtFinish t (Ok g) =>
      row = Some (mkDbPeer g (pt_uuid t) (pt_pk t) (pr_serialized_info (pt_pending t)))
  | PtFinish t (Err _) => rollback_ok row t
  end.

Definition row_of (s : RegState D) (id : string) : option DbPeer := ps_row (pm_db (rs_pm s)) id.

Record phase_ok (s : RegState D) (ph : TaskPhase) : Prop := {
  ph_cached : pm_map (rs_pm s) !! pt_id (phase_task ph) = Some (pt_peer (phase_task ph));
  ph_peer : ∃ p, pm_heap (rs_pm s) !! pt_peer (phase_task ph) = Some p ∧
    task_peer (phase_task ph) p;
  ph_held : held (rs_pm s) (pt_peer (phase_task ph)) ≠ 0%nat;
  ph_row : phase_row ph (row_of s (pt_id (phase_task ph)));
  ph_authorized : change_authorized (phase_task ph);
  ph_managed : pt_managed (phase_task ph) = negb (allow_unmanaged_devices inner)
}.

(** Every stored row has a key and a device; every cached peer that is not
    being persisted is blank or carries its stored row; every peer that is
    being persisted has exactly one task, which will end that. *)
Record reg_wf (s : RegState D) (ts : Tasks) : Prop := {
  rw_pm : pm_wf (rs_pm s);
  rw_ok : ps_ok (pm_db (rs_pm s));
  rw_rows : ∀ id v, row_of s id = Some v → db_guid v ≠ [] ∧ db_uuid v ≠ [];
  rw_idle : ∀ id l p, pm_map (rs_pm s) !! id = Some l → pm_heap (rs_pm s) !! l = Some p →
    persistence_in_progress p = false → identity_ok from_json (row_of s id) p;
  rw_busy : ∀ id l p, pm_map (rs_pm s) !! id = Some l → pm_heap (rs_pm s) !! l = Some p →
    persistence_in_progress p = true → ∃ k ph, ts !! k = Some ph ∧ pt_peer (phase_task ph) = l;
  rw_phases : ∀ k ph, ts !! k = Some ph → phase_ok s ph;
  rw_distinct : ∀ i j a b, ts !! i = Some a → ts !! j = Some b →
    pt_peer (phase_task a) = pt_peer (phase_task b) → i = j
}.
End Steps.

(** ** Lemmas: the invariant *)

(** Two states of a peer with the same identity and the same phase. *)
Definition same_ident (p p' : Peer) : Prop :=
  guid p' = guid p ∧ uuid p' = uuid p ∧ pk p' = pk p ∧ info p' = info p ∧
  persistence_in_progress p' = persistence_in_progress p.

Lemma same_ident_refl p : same_ident p p.
Proof. by split_and!. Qed.
Lemma same_ident_touch t p : same_ident p (set_last_access t p).
Proof. by split_and!. Qed.
Lemma same_ident_reg_pk r p : same_ident p (set_reg_pk r p).
Proof. by split_and!. Qed.
Lemma same_ident_verified o p : same_ident p (set_verified_at o p).
Proof. by split_and!. Qed.
Lemma same_ident_heartbeat now a p : same_ident p (set_last_reg_time now (set_socket_addr a p)).
Proof. by split_and!. Qed.
#[export] Hint Resolve same_ident_refl same_ident_touch same_ident_reg_pk
  same_ident_verified same_ident_heartbeat : srv.

Section Invariant.
Context {D : Type} `{!PeerStore D} `{X : !Externals}.
Context (inner : Inner).
Implicit Types pm : PeerMap D.
Implicit Types s : RegState D.

Lemma identity_ok_same row p p' : same_ident p p' → identity_ok from_json row p → identity_ok from_json row p'.
Proof.
  intros (Hg & Hu & Hk & Hi & _) [(?&?&?)|(v & -> & ?&?&?&?)]; [left|right].
  - split_and!; congruence.
  - exists v. split; [done|]. split_and!; congruence.
Qed.

Lemma task_peer_same t p p' : same_ident p p' → task_peer t p → task_peer t p'.
Proof. intros (?&?&?&?&?) (?&?&?&?&?). split_and!; congruence. Qed.

(** A change of the peers that the running tasks cannot notice. *)
Record evolves (ts : Tasks) pm pm' : Prop := {
  ev_wf : pm_wf pm';
  ev_ok : ps_ok (pm_db pm');
  ev_rows : ∀ i, ps_row (pm_db pm') i = ps_row (pm_db pm) i;
  ev_heap : ∀ l p, pm_heap pm !! l = Some p → ∃ p', pm_heap pm' !! l = Some p' ∧ same_ident p p';
  ev_task : ∀ k ph, ts !! k = Some ph → let l := pt_peer (phase_task ph) in
    held pm l ≠ 0%nat → held pm' l ≠ 0%nat ∧
    ∀ i, pm_map pm !! i = Some l → pm_map pm' !! i = Some l;
  ev_new : ∀ i l, pm_map pm' !! i = Some l → pm_map pm !! i = Some l ∨
    ∃ p, pm_heap pm' !! l = Some p ∧ persistence_in_progress p = false ∧
      identity_ok from_json (ps_row (pm_db pm) i) p
}.

Lemma evolves_wf s ts pm' tr :
  reg_wf inner s ts → evolves ts (rs_pm s) pm' → reg_wf inner (mkRegState pm' tr) ts.
Proof.
  intros [Wpm Wok Wrows Widle Wbusy Wph Wd] [E1 E2 E3 E4 E5 E6].
  assert (∀ id l p', pm_map pm' !! id = Some l → pm_heap pm' !! l = Some p' →
    (∃ p, pm_map (rs_pm s) !! id = Some l ∧ pm_heap (rs_pm s) !! l = Some p ∧ same_ident p p') ∨
    (persistence_in_progress p' = false ∧ identity_ok from_json (row_of s id) p')) as Hold.
  { intros id l p' Hid Hp'. destruct (E6 id l Hid) as [Hi|(p & Hp & ? & ?)].
    - left. destruct (pm_alloc _ Wpm id l Hi) as [p Hp]. destruct (E4 l p Hp) as (? & ? & ?).
      simplify_eq. eauto.
    - right. by simplify_eq. }
  split; simpl; try done.
  - intros id v. unfold row_of. simpl. rewrite E3. apply Wrows.
  - intros id l p' Hid Hp' Hprog. unfold row_of. simpl. rewrite E3.
    destruct (Hold id l p' Hid Hp') as [(p & Hi & Hp & Hs)|[_ ?]]; [|done].
    eapply identity_ok_same; [done|]. eapply Widle; eauto. destruct Hs as (?&?&?&?&?). congruence.
  - intros id l p' Hid Hp' Hprog.
    destruct (Hold id l p' Hid Hp') as [(p & Hi & Hp & Hs)|[? _]]; [|congruence].
    eapply Wbusy; eauto. destruct Hs as (?&?&?&?&?). congruence.
  - intros k ph Hph. destruct (Wph k ph Hph) as [Hc (p & Hp & Ht) Hh Hr Ha Hm].
    destruct (E5 k ph Hph Hh) as [Hh' Hk]. split; simpl; try done.
    + by apply Hk.
    + destruct (E4 _ _ Hp) as (p' & Hp' & Hs). exists p'. split; [done|]. by eapply task_peer_same.
    + unfold row_of in *. simpl. by rewrite E3.
Qed.

Lemma lookup_evolves ts pm pm' : lookup_frame from_json pm pm' → evolves ts pm pm'.
Proof.
  intros [L1 L2 L3 L4 L5 L6 L7]. split; try done.
  - intros l p (t & Hp)%L5. eauto with srv.
  - intros k ph _ l Hh. unfold held in *. rewrite L4. split; [done|]. intros i Hi. by apply L6.
  - intros i l [Hi|(_ & Hp)]%L7; [by left|by right].
Qed.

Lemma evolves_trans ts pm1 pm2 pm3 :
  pm_wf pm1 → evolves ts pm1 pm2 → evolves ts pm2 pm3 → evolves ts pm1 pm3.
Proof.
  intros Hwf1 [A1 A2 A3 A4 A5 A6] [B1 B2 B3 B4 B5 B6]. split; try done.
  - intros i. by rewrite B3.
  - intros l p (p1 & Hp1 & Hs1)%A4. destruct (B4 _ _ Hp1) as (p2 & Hp2 & Hs2). exists p2.
    split; [done|]. destruct Hs1 as (?&?&?&?&?), Hs2 as (?&?&?&?&?). split_and!; congruence.
  - intros k ph Hph l Hh. destruct (A5 k ph Hph Hh) as [Hh2 Hk2].
    destruct (B5 k ph Hph Hh2) as [Hh3 Hk3]. split; [done|]. auto.
  - intros i l [Hi|(p & Hp & Hprog & Hid)]%B6.
    + apply A6 in Hi as [Hi|(p & Hp & Hprog & Hid)]; [by left|right].
      destruct (B4 l p Hp) as (p' & Hp' & Hs). exists p'. split_and!; [done| |].
      * destruct Hs as (?&?&?&?&?). congruence.
      * by eapply identity_ok_same.
    + right. rewrite A3 in Hid. by exists p.
Qed.

(** A write to one peer that keeps its identity. *)
Lemma write_evolves ts pm l p p' c :
  pm_wf pm → ps_ok (pm_db pm) → pm_heap pm !! l = Some p → same_ident p p' →
  evolves ts pm (set_heap (<[l := p']> (pm_heap pm)) (set_clock c pm)).
Proof.
  intros Hwf Hok Hp Hs. split; simpl; try done.
  - apply (pm_wf_ext pm); try done. simpl. rewrite dom_insert_L. apply union_subseteq_r.
  - intros l' q Hq. destruct (decide (l = l')) as [<-|Hne].
    + exists p'. rewrite lookup_insert_eq. by simplify_eq.
    + exists q. rewrite lookup_insert_ne by done. auto with srv.
  - intros i l' Hi. by left.
Qed.

Lemma rest_evolves ts pm c h locked :
  pm_wf pm → ps_ok (pm_db pm) →
  (∀ k ph, ts !! k = Some ph → default 0%nat (h !! pt_peer (phase_task ph)) ≠ 0%nat) →
  evolves ts pm (mkPeerMap c (pm_heap pm) (pm_map pm) (pm_db pm) (max_cached_peers pm) h locked).
Proof.
  intros Hwf Hok Hh. split; simpl; try done.
  - by apply (pm_wf_ext pm).
  - intros l p Hp. exists p. auto with srv.
  - intros k ph Hph _. split; [by eapply Hh|done].
  - intros i l Hi. by left.
Qed.

Context `{L : !ExternalLaws X}.

Lemma not_refused_authorized p uuid' pk' ip managed str t :
  registration_refused p uuid' pk' ip managed = false → uuid' ≠ [] →
  to_json (mkPeerInfo ip) = Ok str →
  pt_uuid t = uuid' → pt_pk t = pk' → pt_managed t = managed →
  pr_rollback (pt_pending t) = rollback_of p → pr_serialized_info (pt_pending t) = str →
  change_authorized t.
Proof.
  unfold registration_refused, change_authorized. intros Href Hu Hjson <- <- <- -> ->.
  split; [done|]. simpl. destruct (uuid p) eqn:Hup; [by right; left|]. simpl in Href.
  destruct (pt_managed t); [by left|]. right; right.
  case_bool_decide as Hsame; [|done]. split; [done|]. reflect_bools.
  destruct Href as [Hip|Hpk]; reflect_bools.
  - right. rewrite (json_roundtrip _ _ Hjson). apply dec_stable in Hip.
    destruct (info p). simpl in *. by subst.
  - left. by apply dec_stable.
Qed.

Lemma other_task_peer s ts k ph l p :
  reg_wf inner s ts → ts !! k = Some ph → pm_heap (rs_pm s) !! l = Some p →
  persistence_in_progress p = false → pt_peer (phase_task ph) ≠ l.
Proof.
  intros Hwf Hk Hp Hprog <-. destruct (ph_peer _ _ _ (rw_phases _ _ _ Hwf k ph Hk)) as (p' & ? & ? & _).
  simplify_eq. congruence.
Qed.

(** The persist step: the staged peer with its new task. *)
Lemma spawn_wf s ts k l p p' t c tr :
  reg_wf inner s ts → ts !! k = None → pm_map (rs_pm s) !! pt_id t = Some l →
  pm_heap (rs_pm s) !! l = Some p → persistence_in_progress p = false → pt_peer t = l →
  task_peer t p' → change_authorized t → pt_managed t = negb (allow_unmanaged_devices inner) →
  pr_guid (pt_pending t) = guid p → pr_rollback (pt_pending t) = rollback_of p →
  reg_wf inner
    (mkRegState (hold l (set_heap (<[l := p']> (pm_heap (rs_pm s))) (set_clock c (rs_pm s)))) tr)
    (<[k := PtWrite t]> ts).
Proof.
  intros Hwf Hk Hid Hp Hprog <- Htp Hauth Hman Hguid Hrb.
  pose proof (λ j ph Hj, other_task_peer s ts j ph _ p Hwf Hj Hp Hprog) as Hne.
  destruct Hwf as [Wpm Wok Wrows Widle Wbusy Wph Wd]. split; simpl; try done.
  - apply (pm_wf_ext (rs_pm s)); try done. simpl. rewrite dom_insert_L. apply union_subseteq_r.
  - intros id' l' q Hi Hq Hqp. destruct (decide (pt_peer t = l')) as [<-|Hne'].
    + rewrite lookup_insert_eq in Hq. simplify_eq. destruct Htp. congruence.
    + rewrite lookup_insert_ne in Hq by done. by eapply (Widle id').
  - intros id' l' q Hi Hq Hqp. destruct (decide (pt_peer t = l')) as [<-|Hne'].
    + exists k, (PtWrite t). by rewrite lookup_insert_eq.
    + rewrite lookup_insert_ne in Hq by done. destruct (Wbusy id' l' q Hi Hq Hqp) as (j & ph & Hj & ?).
      exists j, ph. rewrite lookup_insert_ne; [done|congruence].
  - intros j ph [[<- <-]|[_ Hj]]%lookup_insert_Some.
    + split; simpl; try done.
      * exists p'. by rewrite lookup_insert_eq.
      * unfold held. simpl. by rewrite lookup_insert_eq.
      * unfold rollback_ok. rewrite Hguid, Hrb. simpl.
        destruct (Widle _ _ _ Hid Hp Hprog) as [(?&?&?)|(v & Hv & ?&?&?&?)]; [by left|right].
        exists v. by split_and!.
    + destruct (Wph j ph Hj) as [Hc (q & Hq & Ht) Hh Hr Ha Hm].
      assert (pt_peer t ≠ pt_peer (phase_task ph)) by (apply not_eq_sym; by eapply Hne).
      split; simpl; try done.
      * exists q. by rewrite lookup_insert_ne.
      * unfold held in *. simpl. by rewrite lookup_insert_ne.
  - intros i j a b [[<- <-]|[? Hi]]%lookup_insert_Some [[<- <-]|[? Hj]]%lookup_insert_Some He;
      simpl in *; [done| | |by eapply Wd].
    + by destruct (Hne j b Hj).
    + by destruct (Hne i a Hi).
Qed.

(** A task's statement: the row becomes the staged identity under the task's
    key, or nothing changes. *)
Definition written_spec pm (t : PersistTask) (r : result bytes) (d : D) : Prop :=
  ps_ok d ∧
  match r with
  | Ok g => g ≠ [] ∧ (pr_guid (pt_pending t) ≠ [] → g = pr_guid (pt_pending t)) ∧
      (pr_guid (pt_pending t) = [] → ps_row (pm_db pm) (pt_id t) = None) ∧
      ∀ i, ps_row d i = if decide (i = pt_id t)
        then Some (mkDbPeer g (pt_uuid t) (pt_pk t) (pr_serialized_info (pt_pending t)))
        else ps_row (pm_db pm) i
  | Err _ => ∀ i, ps_row d i = ps_row (pm_db pm) i
  end.

Lemma wp_persist_write pm t (Q : result bytes → PeerMap D → Prop) :
  ps_ok (pm_db pm) → rollback_ok (ps_row (pm_db pm) (pt_id t)) t →
  (∀ r d, written_spec pm t r d → Q r (set_db d pm)) → wp (persist_write t) Q pm.
Proof.
  intros Hok Hrb HQ. unfold persist_write.
  destruct (pr_guid (pt_pending t)) as [|z g0] eqn:Hg; simpl.
  - apply wp_zoom, wp_intro. intros [g|e] d Hins; apply HQ.
    + destruct (ps_insert_ok _ _ _ _ _ _ _ Hok Hins) as (? & ? & ? & Hrows).
      split; [done|]. rewrite Hg. by split_and!.
    + destruct (ps_insert_err _ _ _ _ _ _ _ Hok Hins). by split.
  - apply wp_bind, wp_zoom, wp_intro. intros [[]|e] d Hupd.
    + apply wp_ret, HQ. destruct (ps_update_ok _ _ _ _ _ _ _ Hok Hupd) as (? & Hrows).
      destruct Hrb as [(Hnil & _)|(v & Hv & Hgv & _)]; [congruence|].
      split; [done|]. rewrite Hg. split_and!; [done..|]. apply (Hrows v Hv). congruence.
    + apply HQ. destruct (ps_update_err _ _ _ _ _ _ _ _ Hok Hupd). by split.
Qed.

Lemma write_wf s ts k t r d :
  reg_wf inner s ts → ts !! k = Some (PtWrite t) → written_spec (rs_pm s) t r d →
  reg_wf inner (set_pm (set_db d (rs_pm s)) s) (<[k := PtFinish t r]> ts).
Proof.
  intros Hwf Hk [Hd Hr].
  pose proof (rw_phases _ _ _ Hwf k _ Hk) as [Htc (p & Hp & Htp) Hth Htr Hta Htm]. simpl in *.
  destruct Hwf as [Wpm Wok Wrows Widle Wbusy Wph Wd].
  assert (∀ i, i ≠ pt_id t → ps_row d i = row_of s i) as Hother.
  { intros i Hi. destruct r; [|by rewrite Hr]. destruct Hr as (_ & _ & _ & ->). by rewrite decide_False. }
  split; simpl; try done.
  - by apply (pm_wf_ext (rs_pm s)).
  - intros id v Hv. unfold row_of in *. simpl in Hv.
    destruct (decide (id = pt_id t)) as [->|Hne]; [|rewrite Hother in Hv by done; by apply (Wrows id)].
    destruct r as [g|e].
    + destruct Hr as (Hg & _ & _ & Hrow). rewrite Hrow, decide_True in Hv by done.
      simplify_eq. split; [done|]. by destruct Hta.
    + rewrite Hr in Hv. by apply (Wrows (pt_id t)).
  - intros id l q Hi Hq Hqp. unfold row_of. simpl.
    destruct (decide (id = pt_id t)) as [->|Hne]; [|rewrite Hother by done; by apply (Widle id l)].
    destruct Htp. simplify_eq. congruence.
  - intros id l q Hi Hq Hqp. destruct (Wbusy id l q Hi Hq Hqp) as (j & ph & Hj & Hl).
    destruct (decide (j = k)) as [->|Hne].
    + exists k, (PtFinish t r). rewrite lookup_insert_eq. by simplify_eq.
    + exists j, ph. by rewrite lookup_insert_ne.
  - intros j ph [[<- <-]|[Hne Hj]]%lookup_insert_Some.
    + split; simpl; try done; [by exists p|]. unfold row_of. simpl. destruct r as [g|e].
      * destruct Hr as (_ & _ & _ & ->). by rewrite decide_True.
      * by rewrite Hr.
    + destruct (Wph j ph Hj) as [Hc Hpeer Hh Hrow Ha Hm]. split; simpl; try done.
      unfold row_of. simpl. rewrite Hother; [done|]. intros Hid. apply Hne.
      apply (Wd k j (PtWrite t) ph Hk Hj). simpl. rewrite Hid in Hc. congruence.
  - intros i j a b [[<- <-]|[? Hi]]%lookup_insert_Some [[<- <-]|[? Hj]]%lookup_insert_Some He;
      simpl in *; [done| | |by eapply Wd].
    + by apply (Wd k j (PtWrite t) b).
    + by apply (Wd i k a (PtWrite t)).
Qed.

(** The end of a task: the peer confirmed, or rolled back. *)
Definition finished_spec (t : PersistTask) (w : result bytes) (p : Peer) (r : result unit) (p' : Peer) : Prop :=
  persistence_in_progress p' = false ∧
  match w with
  | Ok g => r = Ok tt ∧ guid p' = g ∧ uuid p' = uuid p ∧ pk p' = pk p ∧ info p' = info p ∧
      (if pt_managed t then is_Some (deployment_verified_at p')
       else deployment_verified_at p' = deployment_verified_at p)
  | Err e => r = Err e ∧ guid p' = guid p ∧
      rollback_of p' = pr_rollback (pt_pending t)
  end.

Lemma wp_persist_finish pm t w p (Q : result unit → PeerMap D → Prop) :
  pm_heap pm !! pt_peer t = Some p →
  (∀ r p' c, finished_spec t w p r p' →
     Q r (set_heap (<[pt_peer t := p']> (pm_heap pm)) (set_clock c pm))) →
  wp (persist_finish t w) Q pm.
Proof.
  intros Hp HQ. eapply wp_with_write; [done|]. destruct w as [g|e].
  - apply wp_bind, wp_put, wp_bind, wp_put. destruct (pt_managed t) eqn:Hm.
    + apply wp_bind, wp_instant_now. intros now c' _ _ _. apply wp_put, HQ.
      split; [done|]. rewrite Hm. by split_and!.
    + apply wp_ret, HQ. split; [done|]. rewrite Hm. by split_and!.
  - do 5 apply wp_bind, wp_put. apply wp_bail, HQ. split; [done|]. split_and!; try done.
    by destruct (pr_rollback (pt_pending t)).
Qed.

Lemma finish_wf s ts k t w r p' c tr :
  reg_wf inner s ts → ts !! k = Some (PtFinish t w) →
  (∃ p, pm_heap (rs_pm s) !! pt_peer t = Some p ∧ task_peer t p ∧ finished_spec t w p r p') →
  reg_wf inner (mkRegState (release (pt_peer t)
    (set_heap (<[pt_peer t := p']> (pm_heap (rs_pm s))) (set_clock c (rs_pm s)))) tr) (delete k ts).
Proof.
  intros Hwf Hk (p & Hp & Htp & Hprog & Hfin).
  pose proof (rw_phases _ _ _ Hwf k _ Hk) as [Htc _ Hth Htr Hta Htm]. simpl in *.
  destruct Hwf as [Wpm Wok Wrows Widle Wbusy Wph Wd].
  assert (∀ j ph, delete k ts !! j = Some ph → ts !! j = Some ph ∧ pt_peer (phase_task ph) ≠ pt_peer t) as Hdel.
  { intros j ph [Hne Hj]%lookup_delete_Some. split; [done|]. intros He.
    by apply Hne, (Wd k j _ ph Hk Hj). }
  split; simpl; try done.
  - apply (pm_wf_ext (rs_pm s)); try done. simpl. rewrite dom_insert_L. apply union_subseteq_r.
  - intros id l q Hi Hq Hqp. destruct (decide (pt_peer t = l)) as [<-|Hne].
    + rewrite lookup_insert_eq in Hq. simplify_eq.
      assert (id = pt_id t) as -> by (by eapply (pm_unaliased _ Wpm)). unfold row_of in *. simpl.
      destruct Htp as (_ & Hg & Hu & Hpk & Hinfo). destruct w as [g|e]; simpl in Htr.
      * destruct Hfin as (_ & ? & ? & ? & ? & _). rewrite Htr. right.
        eexists. split; [done|]. split_and!; simpl; congruence.
      * destruct Hfin as (_ & Hg' & Hrb). unfold rollback_ok in Htr. rewrite <-Hrb in Htr.
        destruct Htr as [(?&?&?)|(v & -> & ?&?&?&?)]; [left|right].
        -- split_and!; simpl in *; congruence.
        -- exists v. split; [done|]. split_and!; simpl in *; congruence.
    + rewrite lookup_insert_ne in Hq by done. by eapply (Widle id).
  - intros id l q Hi Hq Hqp. destruct (decide (pt_peer t = l)) as [<-|Hne].
    + rewrite lookup_insert_eq in Hq. simplify_eq. congruence.
    + rewrite lookup_insert_ne in Hq by done. destruct (Wbusy id l q Hi Hq Hqp) as (j & ph & Hj & Hl).
      exists j, ph. split; [|done]. apply lookup_delete_Some. split; [|done].
      intros ->. rewrite Hk in Hj. by simplify_eq.
  - intros j ph [Hj Hne]%Hdel. destruct (Wph j ph Hj) as [Hc (q & Hq & Ht) Hh Hrow Ha Hm].
    split; simpl; try done.
    + exists q. by rewrite lookup_insert_ne.
    + unfold held in *. simpl. by rewrite lookup_insert_ne.
  - intros i j a b [Hi _]%Hdel [Hj _]%Hdel. by eapply Wd.
Qed.

Lemma tasks_held s ts : reg_wf inner s ts →
  ∀ k ph, ts !! k = Some ph → default 0%nat (pm_held (rs_pm s) !! pt_peer (phase_task ph)) ≠ 0%nat.
Proof. intros Hwf k ph Hk. by destruct (rw_phases _ _ _ Hwf k ph Hk). Qed.

Lemma clock_wf s ts c tr : reg_wf inner s ts → reg_wf inner (mkRegState (set_clock c (rs_pm s)) tr) ts.
Proof.
  intros Hwf. apply (evolves_wf s); [done|]. apply rest_evolves; [apply Hwf..|]. by apply tasks_held.
Qed.

Lemma wp_request_allowed s ts ip id : reg_wf inner s ts →
  wp (request_allowed ip id) (λ _ s', reg_wf inner s' ts) s.
Proof.
  intros Hwf. apply wp_bind, wp_instant_now. intros t c _ _ _. apply wp_state. simpl.
  destruct (allow_ip_request _ _ _ _). by apply (clock_wf s).
Qed.

Lemma pm_get_wf s ts id : reg_wf inner s ts →
  wp (on_peers (pm_get id)) (λ r s', reg_wf inner s' ts ∧
    ∀ l, r = Ok (Some l) → pm_map (rs_pm s') !! id = Some l) s.
Proof.
  intros Hwf. apply wp_zoom. eapply wp_mono; [|apply wp_get_frame; apply Hwf].
  intros r pm' [Hf Hl]. split; [|done]. by apply (evolves_wf s), lookup_evolves.
Qed.

Lemma pm_get_or_wf s ts id : reg_wf inner s ts →
  wp (on_peers (pm_get_or id)) (λ r s', reg_wf inner s' ts ∧
    ∀ l, r = Ok (Some l) → pm_map (rs_pm s') !! id = Some l) s.
Proof.
  intros Hwf. apply wp_zoom. eapply wp_mono; [|apply wp_get_or_frame; apply Hwf].
  intros r pm' [Hf Hl]. split; [|done]. by apply (evolves_wf s), lookup_evolves.
Qed.

Lemma write_same_wf s ts l p p' c : reg_wf inner s ts → pm_heap (rs_pm s) !! l = Some p →
  same_ident p p' →
  reg_wf inner (set_pm (set_heap (<[l := p']> (pm_heap (rs_pm s))) (set_clock c (rs_pm s))) s) ts.
Proof. intros Hwf Hp Hs. apply (evolves_wf s); [done|]. by apply (write_evolves _ _ _ p); [apply Hwf..| |]. Qed.

(** A device is registered: its row, and the cached peer that carries it. *)
Definition registered s (rk : RegisterPk) (addr : SocketAddr) : Prop :=
  ∃ v l p, row_of s (rk_id rk) = Some v ∧ pm_map (rs_pm s) !! rk_id rk = Some l ∧
    pm_heap (rs_pm s) !! l = Some p ∧ persistence_in_progress p = false ∧
    carries from_json v p ∧ uuid p = rk_uuid rk ∧ pk p = rk_pk rk ∧
    info p = mkPeerInfo (show_ip (sa_ip addr)) ∧
    (allow_unmanaged_devices inner = false → is_Some (deployment_verified_at p)).

(** What a registration must satisfy before it is looked at. *)
Definition admissible (post : string → string → string → string → string → result Z)
    (rk : RegisterPk) : Prop :=
  rk_old_id rk = "" ∧ valid_peer_id (rk_id rk) = true ∧ rk_uuid rk ≠ [] ∧
  len (rk_uuid rk) ≤ REGISTER_UUID_MAX_LEN ∧ len (rk_pk rk) = PUBLICKEYBYTES ∧
  (allow_unmanaged_devices inner = false →
   verify_device_deployment inner post (rk_id rk) (rk_uuid rk) (rk_pk rk) = Ok true).

Definition begun_wf ts (P : Prop) (rk : RegisterPk) (addr : SocketAddr)
    (r : result (RegisterPkResult + PersistTask)) s' : Prop :=
  match r with
  | Ok (inr t) => P ∧ pt_id t = rk_id rk ∧ pt_uuid t = rk_uuid rk ∧ pt_pk t = rk_pk rk ∧
      from_json (pr_serialized_info (pt_pending t)) = Some (mkPeerInfo (show_ip (sa_ip addr))) ∧
      ∀ k, ts !! k = None →
        reg_wf inner (set_pm (hold (pt_peer t) (rs_pm s')) s') (<[k := PtWrite t]> ts)
  | Ok (inl OK) => P ∧ registered s' rk addr ∧ reg_wf inner s' ts
  | _ => reg_wf inner s' ts
  end.

(** What follows the authorization: lines 1051-1079. *)
Lemma staged_wf s ts P rk addr managed l :
  P → reg_wf inner s ts → pm_map (rs_pm s) !! rk_id rk = Some l → rk_uuid rk ≠ [] →
  managed = negb (allow_unmanaged_devices inner) →
  wp (stage ← on_peers (with_write l
        (stage_peer_registration addr (rk_uuid rk) (rk_pk rk) (show_ip (sa_ip addr)) managed));
      match stage with
      | Busy => mret (inl SERVER_ERROR)
      | UuidMismatch => mret (inl UUID_MISMATCH)
      | TooFrequent => mret (inl TOO_FREQUENT)
      | Unchanged =>
          (if managed then on_peers (with_write l
                 (now ← instant_now; put (set_verified_at (Some now)))) else mret tt);;
          mret (inl OK)
      | Persist pending =>
          mret (inr (mkPersistTask (rk_id rk) l (rk_uuid rk) (rk_pk rk) managed pending))
      end) (begun_wf ts P rk addr) s.
Proof.
  intros HP Hwf Hid Hu Hman. destruct (pm_alloc _ (rw_pm _ _ _ Hwf) _ _ Hid) as [p Hp].
  apply wp_bind, wp_zoom. eapply wp_with_write; [done|]. apply wp_stage. simpl.
  intros r [c p'] Hspec. simpl in Hspec.
  assert (∀ q, same_ident p q → reg_wf inner
    (set_pm (set_heap (<[l := q]> (pm_heap (rs_pm s))) (set_clock c (rs_pm s))) s) ts) as Hsame.
  { intros q. by apply write_same_wf. }
  destruct r as [[| | | |q]|e]; simpl in *; unfold begun_wf.
  - destruct Hspec as [-> _]. apply wp_ret; auto with srv.
  - destruct Hspec as [-> _]. apply wp_ret; auto with srv.
  - destruct Hspec as [-> _]. apply wp_ret; auto with srv.
  - destruct Hspec as ([rp ->] & Hprog & Hup & Hne & Hkp & Hip).
    assert (∃ v, row_of s (rk_id rk) = Some v ∧ carries from_json v p) as (v & Hv & Hcar).
    { destruct (rw_idle _ _ _ Hwf _ _ _ Hid Hp Hprog) as [(_ & ? & _)|?]; done. }
    assert (∀ c' q, same_ident p q → (managed = true → is_Some (deployment_verified_at q)) →
      begun_wf ts P rk addr (Ok (inl OK))
        (set_pm (set_heap (<[l := q]> (pm_heap (rs_pm s))) (set_clock c' (rs_pm s))) s)) as Hreg.
    { intros c' q Hs Hver. split_and!; [done| |by apply (write_same_wf s _ _ p)].
      destruct Hs as (Hq1 & Hq2 & Hq3 & Hq4 & Hq5). exists v, l, q. simpl.
      rewrite lookup_insert_eq. destruct Hcar as (?&?&?&?).
      split_and!; try done; try congruence; [split_and!; congruence|..].
      - rewrite Hq4. destruct (info p). simpl in Hip. by subst.
      - intros Hun. apply Hver. by rewrite Hman, Hun. }
    apply wp_bind. destruct managed; [|apply wp_ret, wp_ret, Hreg; auto with srv; done].
    apply wp_zoom. eapply wp_with_write; [simpl; by rewrite lookup_insert_eq|].
    apply wp_bind, wp_instant_now. intros now c2 _ _ _. apply wp_put, wp_ret. simpl.
    rewrite insert_insert_eq. apply (Hreg c2); [by split_and!|]. simpl. eauto.
  - destruct Hspec as (Hprog & Href & rp & now & str & b & -> & Hjson & -> & _).
    apply wp_ret. split_and!; try done; [by apply json_roundtrip|].
    intros k Hk. apply (spawn_wf s _ _ _ p); try done; simpl.
    + split_and!; try done. by apply json_roundtrip.
    + by eapply not_refused_authorized.
  - destruct Hspec as (_ & _ & [rp ->] & _). auto with srv.
Qed.

Lemma wp_register_begin_wf s ts post rk addr : reg_wf inner s ts →
  wp (register_begin inner post rk addr) (begun_wf ts (admissible post rk) rk addr) s.
Proof.
  intros Hwf. unfold register_begin. destruct (negb (str_empty _)) eqn:Hold; [by apply wp_ret|].
  destruct (_ || _) eqn:Hvalid; [by apply wp_ret|]. reflect_bools.
  assert (rk_uuid rk ≠ []) as Hu by (by intros Hnil; rewrite Hnil in *).
  apply wp_bind. eapply wp_mono; [|by apply wp_request_allowed].
  intros [[|]|e] s1 Hwf1; [|by apply wp_ret|done]. simpl.
  destruct (if allow_unmanaged_devices inner then _ else _) as [answer|managed] eqn:Hauth.
  { assert (answer ≠ OK) by (repeat case_match; congruence). apply wp_ret. by destruct answer. }
  apply wp_bind. eapply wp_mono; [|by apply pm_get_or_wf].
  intros [[l|]|e] s2 [Hwf2 Hl]; [|by apply wp_ret|done].
  apply staged_wf; [|done|by apply Hl|done|].
  - split_and!; try done; [by destruct (rk_old_id rk)|]. intros Hun. rewrite Hun in Hauth.
    by destruct (verify_device_deployment _ _ _ _ _) as [[|]|]; simplify_eq.
  - destruct (allow_unmanaged_devices inner); [by simplify_eq|].
    by destruct (verify_device_deployment _ _ _ _ _) as [[|]|]; simplify_eq.
Qed.

Lemma wp_register_peer_wf s ts servers rp addr : reg_wf inner s ts →
  wp (register_peer_common inner servers rp addr) (λ _ s', reg_wf inner s' ts) s.
Proof.
  intros Hwf. apply wp_bind. eapply wp_mono; [|by apply pm_get_wf].
  intros [[l|]|e] s1 [Hwf1 Hl]; [| |done].
  - destruct (pm_alloc _ (rw_pm _ _ _ Hwf1) _ _ (Hl l eq_refl)) as [p Hp].
    apply wp_bind, wp_zoom. eapply wp_with_write; [done|]. apply wp_heartbeat. simpl.
    intros r [c p'] (request & change & -> & Hspec). apply wp_ret. simpl in *.
    apply (write_same_wf s1 _ _ p); [done..|].
    destruct request; [by subst; auto with srv|].
    destruct Hspec as (_ & [now ->] & _). auto with srv.
  - apply wp_bind, wp_ret, wp_ret. done.
Qed.

End Invariant.

(** ** Lemmas: what changes a stored row *)

Section Rows.
Context {D : Type} `{!PeerStore D} `{X : !Externals} `{L : !ExternalLaws X}.
Context (inner : Inner).
Implicit Types s : RegState D.

(** The parts that do not run the statement leave every row alone. *)
Lemma wp_register_begin_rows s ts post rk addr : reg_wf inner s ts →
  wp (register_begin inner post rk addr) (λ _ s', ∀ id, row_of s' id = row_of s id) s.
Proof.
  intros Hwf. unfold register_begin. destruct (negb _); [by apply wp_ret|].
  destruct (_ || _); [by apply wp_ret|].
  apply wp_bind, wp_bind, wp_instant_now. intros t c _ _ _. apply wp_state. simpl.
  destruct (allow_ip_request _ _ _ _) as [ok b]. simpl. destruct ok; [|by apply wp_ret]. simpl.
  destruct (if allow_unmanaged_devices inner then _ else _) as [a|managed]; [by apply wp_ret|].
  match goal with |- wp _ _ ?s1 =>
    assert (reg_wf inner s1 ts) as Hwf1 by (by apply clock_wf) end.
  apply wp_bind, wp_zoom. eapply wp_mono; [|apply wp_get_or_frame; apply Hwf1].
  intros [[l|]|e] pm' [Hf Hl]; [| |by apply (lf_rows _ _ _ Hf)].
  2:{ apply wp_ret. apply (lf_rows _ _ _ Hf). }
  destruct (pm_alloc _ (lf_wf _ _ _ Hf) _ _ (Hl l eq_refl)) as [p Hp].
  apply wp_bind, wp_zoom. eapply wp_with_write; [done|]. apply wp_stage. intros r g' _.
  destruct r as [[| | | |q]|e]; try (by first [apply wp_ret|idtac]; apply (lf_rows _ _ _ Hf)).
  apply wp_bind. destruct managed; [|apply wp_ret, wp_ret; apply (lf_rows _ _ _ Hf)].
  apply wp_zoom. eapply wp_with_write; [simpl; by rewrite lookup_insert_eq|].
  apply wp_bind, wp_instant_now. intros now c2 _ _ _. apply wp_put, wp_ret. apply (lf_rows _ _ _ Hf).
Qed.

End Rows.

(** ** Theorems: staging *)

(** C5: Under the write lock of a peer, without management, a registration cannot
    take over an identity the peer has.  It is refused exactly when it comes with
    another device UUID, or with another key from another address than the one on
    record; while an earlier registration is being written it is turned away; what
    is staged is exactly the submitted identity, together with the old one for the
    rollback; and in every other case the identity stays as it was. *)
Theorem staging_protects_identity `{X : !Externals} addr uuid' pk' ip g r g' :
  stage_peer_registration addr uuid' pk' ip false g = (r, g') → uuid (gd_peer g) ≠ [] →
  let p := gd_peer g in let p' := gd_peer g' in
  (persistence_in_progress p = true ↔ r = Ok Busy) ∧
  (persistence_in_progress p = false →
    (r = Ok UuidMismatch ↔ uuid' ≠ uuid p ∨ pk' ≠ pk p ∧ ip ≠ info_ip (info p))) ∧
  match r with
  | Ok (Persist q) => guid p' = guid p ∧ uuid p' = uuid p ∧ pk p' = pk' ∧ info p' = mkPeerInfo ip ∧
      (pk' = pk p ∨ ip = info_ip (info p)) ∧ persistence_in_progress p' = true ∧
      pr_guid q = guid p ∧ pr_rollback q = rollback_of p ∧ to_json (info p') = Ok (pr_serialized_info q)
  | _ => same_ident p p'
  end.
Proof.
  intros Hrun Hu. cbn zeta.
  pose proof (wp_run _ (λ r g', stage_spec (gd_peer g) addr uuid' pk' ip false r (gd_peer g')) _ _ _
    (wp_stage _ _ _ _ _ _ _ (λ _ _ H, H)) Hrun) as Hspec.
  cbn beta in Hspec. revert Hspec Hu. generalize (gd_peer g) as p, (gd_peer g') as p'. clear Hrun. intros p p' Hspec Hu.
  assert (registration_refused p uuid' pk' ip false = true ↔ uuid' ≠ uuid p ∨ pk' ≠ pk p ∧ ip ≠ info_ip (info p)) as Href.
  { unfold registration_refused. assert (is_empty (uuid p) = false) as -> by (by destruct (uuid p)).
    destruct (decide (uuid p = uuid')) as [Hsame|Hsame].
    - rewrite (bool_decide_true _ Hsame), andb_true_iff, !bool_decide_eq_true. intuition congruence.
    - rewrite (bool_decide_false _ Hsame). intuition congruence. }
  destruct r as [[| | | |q]|e]; simpl in Hspec.
  - destruct Hspec as [-> ->]. by split_and!.
  - destruct Hspec as (-> & -> & Hr). apply Href in Hr. by split_and!.
  - destruct Hspec as (-> & -> & Hr & _). split_and!; [done| |done]. intros _. rewrite <-Href, Hr. done.
  - destruct Hspec as ([rp ->] & -> & -> & _ & -> & <-). split_and!; [done| |done]. intros _.
    split; [done|]. by intros [?|[? _]].
  - destruct Hspec as (-> & Hr & rp & now & str & b & -> & Hjson & -> & _).
    assert (¬ (uuid' ≠ uuid p ∨ pk' ≠ pk p ∧ ip ≠ info_ip (info p))) as Hno by (by rewrite <-Href, Hr).
    assert (uuid' = uuid p) as Hsame by (destruct (decide (uuid' = uuid p)); tauto).
    split_and!; [done|by intros _; split|..]; simpl; try done.
    destruct (decide (pk' = pk p)); [by left|right]. destruct (decide (ip = info_ip (info p))); tauto.
  - destruct Hspec as (-> & Hr & [rp ->] & _). split_and!; [done| |done]. intros _. by rewrite <-Href, Hr.
Qed.

(** A server that knows one stored device, and a foreign registration for it. *)
Definition sample_inner (unmanaged : bool) : Inner :=
  mkInner 3 "https://api.example" false None "" false unmanaged "token".
Definition sample_reg : RegState SqlDb := mkRegState sample_row_map (mkTransient ∅ ∅).
Definition sample_addr : SocketAddr := SockV4 (mkV4 203 0 113 7) 21116.
Definition sample_rk (u : bytes) : RegisterPk := mkRegisterPk "device01" u (replicate 32 5) "".
Definition sample_post (status : Z) (_ _ _ _ _ : string) : result Z := Ok status.
Lemma sample_reg_wf unmanaged : reg_wf (sample_inner unmanaged) sample_reg ∅.
Proof.
  split; simpl; try (intros *; by rewrite !lookup_empty).
  - exact sample_row_map_wf.
  - exact sample_row_map_ok.
  - intros id v Hv. unfold row_of in Hv. simpl in Hv.
    assert (sql_peer sample_row_db = <["device01" := mkDbPeer (sample_uuid 0) [1] [2] "{}"]> ∅) as Heq
      by (by vm_compute).
    rewrite Heq in Hv. apply lookup_insert_Some in Hv as [[_ <-]|[_ Hv]]; [done|].
    by rewrite lookup_empty in Hv.
Qed.

Definition sample_guard : Guard :=
  mkGuard (mkClock (from_secs 100) []) (sample_peer (from_secs 90)).
Definition sample_staged : result PeerRegistrationStage * Guard :=
  stage_peer_registration sample_addr [9] [8] "203.0.113.7" false sample_guard.

(** The device has been given an identity; a stranger tries with another UUID. *)
Definition owned_guard : Guard :=
  mkGuard (mkClock (from_secs 100) []) (set_identity [1] [2] (mkPeerInfo "203.0.113.7") (sample_peer (from_secs 90))).
Lemma staging_protects_identity_witness :
  (stage_peer_registration sample_addr [9] [8] "203.0.113.9" false owned_guard).1 = Ok UuidMismatch.
Proof.
  destruct (stage_peer_registration sample_addr [9] [8] "203.0.113.9" false owned_guard) as [r g'] eqn:Hrun.
  destruct (staging_protects_identity sample_addr [9] [8] "203.0.113.9" owned_guard r g' Hrun ltac:(done))
    as (_ & Hmismatch & _).
  apply (Hmismatch eq_refl). left. discriminate.
Defined.

Section Sequential.
Context {D : Type} `{!PeerStore D} `{X : !Externals} `{L : !ExternalLaws X}.
Context (inner : Inner).
Implicit Types s : RegState D.

(** The spawned task, run to its end at once. *)
Lemma wp_persist_task s t (Q : result unit → RegState D → Prop) :
  (∀ k, reg_wf inner (set_pm (hold (pt_peer t) (rs_pm s)) s) {[k := PtWrite t]}) →
  (∀ r s', reg_wf inner s' ∅ → rs_transient s' = rs_transient s →
     match r with
     | Err _ => ∀ i, row_of s' i = row_of s i
     | Ok _ => ∃ v l p, row_of s' (pt_id t) = Some v ∧ pm_map (rs_pm s') !! pt_id t = Some l ∧
         pm_heap (rs_pm s') !! l = Some p ∧ persistence_in_progress p = false ∧
         carries from_json v p ∧ uuid p = pt_uuid t ∧ pk p = pt_pk t ∧
         from_json (pr_serialized_info (pt_pending t)) = Some (info p) ∧
         (pt_managed t = true → is_Some (deployment_verified_at p))
     end → Q r s') →
  wp (persist_task t) Q s.
Proof.
  intros Hwf HQ. specialize (Hwf 0%nat).
  destruct (rw_phases _ _ _ Hwf 0%nat (PtWrite t) (lookup_singleton_eq _ _))
    as [Htc (p & Hp & Htp) Hth Htr Hta Htm]. simpl in *.
  apply wp_bind, wp_attempt, wp_zoom, wp_persist_write;
    [exact (rw_ok _ _ _ Hwf)|exact Htr|]. intros w d Hw.
  pose proof (write_wf inner _ _ 0%nat t w d Hwf (lookup_singleton_eq _ _) Hw) as Hwf1.
  rewrite insert_singleton_eq in Hwf1.
  apply wp_zoom. eapply wp_persist_finish; [exact Hp|]. intros r p' c Hfin. simpl.
  pose proof (finish_wf inner _ _ 0%nat t w r p' c (rs_transient s) Hwf1 (lookup_singleton_eq _ _)
    (ex_intro _ p (conj Hp (conj Htp Hfin)))) as Hwf2.
  rewrite delete_singleton_eq in Hwf2.
  apply HQ; [|done|].
  - refine (evolves_wf inner _ ∅ _ (rs_transient s) Hwf2
      (rest_evolves ∅ _ c (pm_held (rs_pm s)) (pm_locked (rs_pm s)) (rw_pm _ _ _ Hwf2)
        (rw_ok _ _ _ Hwf2) _)). intros k ph Hk. by rewrite lookup_empty in Hk.
  - destruct Hw as [_ Hw], Hfin as [Hprog Hfin]. destruct w as [g|e].
    + destruct Hfin as (-> & Hg & Hu & Hk & Hi & Hv), Hw as (_ & _ & _ & Hrow).
      destruct Htp as (_ & _ & Hu' & Hk' & Hi').
      eexists _, (pt_peer t), p'. unfold row_of. simpl. rewrite Hrow, decide_True, lookup_insert_eq by done.
      split_and!; try done; try congruence; [split_and!; simpl; congruence|].
      intros Hm. by rewrite Hm in Hv.
    + destruct Hfin as (-> & _). intros i. apply Hw.
Qed.

Lemma wp_note_ip_change s ip id (Q : result bool → RegState D → Prop) :
  (∀ b c tr, Q (Ok b) (mkRegState (set_clock c (rs_pm s)) tr)) → wp (note_ip_change id ip) Q s.
Proof.
  intros HQ. apply wp_bind, wp_instant_now. intros t c _ _ _. apply wp_state. simpl.
  destruct (record_ip_change _ _ _ _). apply HQ.
Qed.

Lemma registered_clock s rk addr c tr :
  registered inner s rk addr → registered inner (mkRegState (set_clock c (rs_pm s)) tr) rk addr.
Proof. done. Qed.

Lemma wp_register_pk_common s post rk addr :
  reg_wf inner s ∅ →
  wp (register_pk_common inner post rk addr) (λ r s', reg_wf inner s' ∅ ∧
    if decide (r = Ok (Some OK)) then admissible inner post rk ∧ registered inner s' rk addr
    else ∀ id, row_of s' id = row_of s id) s.
Proof.
  intros Hwf. apply wp_bind, wp_intro. intros r s1 Hrun.
  pose proof (wp_run _ _ _ _ _ (wp_register_begin_wf inner _ _ post rk addr Hwf) Hrun) as Hbegun.
  pose proof (wp_run _ _ _ _ _ (wp_register_begin_rows inner _ _ post rk addr Hwf) Hrun) as Hrows.
  destruct r as [[answer|t]|e]; [| |by rewrite decide_False].
  - apply wp_ret. destruct (decide (answer = OK)) as [->|Hne].
    + rewrite decide_True by done. by destruct Hbegun as (? & ? & ?).
    + rewrite decide_False by congruence. by destruct answer.
  - destruct Hbegun as (Hadm & Hid & Hu & Hk & Hinfo & Hspawn).
    assert (∀ k, reg_wf inner (set_pm (hold (pt_peer t) (rs_pm s1)) s1) {[k := PtWrite t]}) as Hsp
      by (intros k; by apply Hspawn).
    assert (pt_managed t = negb (allow_unmanaged_devices inner)) as Hman
      by (by destruct (rw_phases _ _ _ (Hsp 0%nat) _ _ (lookup_singleton_eq _ _))).
    apply wp_bind, wp_attempt, wp_persist_task; [done|]. intros o s2 Hwf2 _ Ho.
    destruct o as [[]|e]; [|apply wp_ret; split; [done|]; rewrite decide_False by done].
    2:{ intros id. by rewrite Ho. }
    assert (registered inner s2 rk addr) as Hreg.
    { destruct Ho as (v & l & p & Hv & Hl & Hp & Hprog & Hcar & ? & ? & Hpi & Hver).
      rewrite Hid in *. exists v, l, p. split_and!; try done; try congruence.
      intros Hun. apply Hver. by rewrite Hman, Hun. }
    apply wp_bind. destruct (pr_ip_changed (pt_pending t)).
    + apply wp_bind, wp_note_ip_change. intros b c tr. apply wp_ret, wp_ret.
      rewrite decide_True by done. split; [by apply (clock_wf inner s2)|done].
    + apply wp_ret, wp_ret. rewrite decide_True by done. done.
Qed.
End Sequential.

(** ** Theorems: one registration *)



(** A failed statement is undone exactly: staging a registration and then
    rolling it back leaves the peer as it was, its registration counter apart. *)
Theorem rollback_restores_peer `{X : !Externals} addr uuid' pk' ip managed g q g1 id l e :
  stage_peer_registration addr uuid' pk' ip managed g = (Ok (Persist q), g1) →
  let t := mkPersistTask id l uuid' pk' managed q in
  let pm := mkPeerMap (gd_clock g1) {[l := gd_peer g1]} ∅ tt 1 ∅ ∅ in
  ∃ pm' rp, persist_finish t (Err e) pm = (Err e, pm') ∧
    pm_heap pm' = {[l := set_reg_pk rp (gd_peer g)]}.
Proof.
  intros Hstage t pm.
  pose proof (wp_run _ (λ r g', stage_spec (gd_peer g) addr uuid' pk' ip managed r (gd_peer g')) _ _ _
    (wp_stage _ _ _ _ _ _ _ (λ _ _ H, H)) Hstage) as (Hprog & _ & rp & now & str & b & Hg1 & _ & -> & _).
  eexists _, rp. unfold persist_finish, with_write. simpl. rewrite lookup_singleton_eq, Hg1.
  split; [reflexivity|]. simpl. rewrite insert_singleton_eq. f_equal.
  destruct (gd_peer g); simpl in *. by subst.
Qed.

Lemma rollback_restores_peer_witness :
  ∃ q pm' rp, sample_staged.1 = Ok (Persist q) ∧
    persist_finish (mkPersistTask "device01" 1 [9] [8] false q) (Err "disk")
      (mkPeerMap (gd_clock sample_staged.2) {[1%positive := gd_peer sample_staged.2]} ∅ tt 1 ∅ ∅)
      = (Err "disk", pm') ∧
    pm_heap pm' = {[1%positive := set_reg_pk rp (gd_peer sample_guard)]}.
Proof.
  eexists. edestruct (rollback_restores_peer sample_addr [9] [8] "203.0.113.7" false sample_guard)
    as (pm' & rp & H1 & H2); [by vm_compute|].
  exists pm', rp. split; [by vm_compute|]. split; [exact H1|exact H2].
Defined.

(** A heartbeat answers with the device's identity untouched. If it asks for
    no key, the device has one, its address is the one the server last saw (or
    is a loopback address, or the device has not been seen since it was loaded),
    a managed device was verified less than 30 seconds ago, and the peer's
    address and registration time are refreshed; if it asks for the key, the
    peer is exactly as before. *)
Theorem heartbeat_refreshes_only_known_devices inner addr g :
  let '(r, g') := heartbeat inner addr g in
  heartbeat_spec inner addr (gd_peer g) r (gd_peer g') ∧ same_ident (gd_peer g) (gd_peer g').
Proof.
  destruct (heartbeat inner addr g) as [r g'] eqn:Hrun.
  assert (heartbeat_spec inner addr (gd_peer g) r (gd_peer g')) as Hspec.
  { apply (wp_run _ (λ r g', heartbeat_spec inner addr (gd_peer g) r (gd_peer g')) _ _ _)
      with (2 := Hrun). by apply wp_heartbeat. }
  split; [done|]. destruct Hspec as (request & change & -> & Hspec).
  destruct request; [rewrite Hspec|destruct Hspec as (_ & [now ->] & _)]; auto with srv.
Qed.

(** A device is authorized exactly when the server allows unmanaged devices,
    or an API server is configured and answered this request, with the server's
    credential and the device's identifier, UUID and key hash, with status 204:
    every other status and every failed request fails closed. *)
Theorem deployment_authorized_iff `{X : !Externals} inner post id uuid' pk' :
  verify_device_deployment inner post id uuid' pk' = Ok true ↔
    allow_unmanaged_devices inner = true ∨
    (trim_end_char "/"%char (api_server inner) ≠ "" ∧
     post (trim_end_char "/"%char (api_server inner) +:+ "/api/devices/verify-deployment")
       (device_verification_token inner) id (base64_encode uuid') (sha256_hex pk') = Ok 204).
Proof.
  unfold verify_device_deployment. destruct (allow_unmanaged_devices inner).
  { split; [by left|done]. }
  destruct (trim_end_char _ _) eqn:Hb; simpl.
  { split; [done|]. by intros [?|[? _]]. }
  destruct (post _ _ _ _ _) as [status|e]; simpl.
  - destruct (status =? 204) eqn:Hs; reflect_bools.
    + subst. split; [by right|done].
    + split; [by repeat case_match|]. intros [?|[_ ?]]; [done|congruence].
  - split; [done|]. by intros [?|[_ ?]].
Qed.

(** ** Registration rate *)

(** The counting part of staging: what an admitted attempt does to the counter. *)
Definition counted (r : result PeerRegistrationStage) : bool :=
  match r with Ok Unchanged | Ok (Persist _) | Err _ => true | _ => false end.

Lemma stage_count `{X : !Externals} addr uuid' pk' ip managed g r g1 :
  stage_peer_registration addr uuid' pk' ip managed g = (r, g1) →
  ck_now (gd_clock g) ≤ ck_now (gd_clock g1) ∧
  if counted r then
    ∃ now1 now2, ck_now (gd_clock g) ≤ now1 ∧ now1 ≤ now2 ∧ now2 ≤ ck_now (gd_clock g1) ∧
      let idle := 6 <? as_secs (duration_since now1 (reg_pk (gd_peer g)).2) in
      (idle = true ∨ (reg_pk (gd_peer g)).1 ≤ 2) ∧
      reg_pk (gd_peer g1) = (u32_add (if idle then 0 else (reg_pk (gd_peer g)).1) 1, now2)
  else reg_pk (gd_peer g1) = reg_pk (gd_peer g).
Proof.
  intros Hrun. destruct g as [c p]. simpl.
  apply (wp_run _ (λ r g1, ck_now c ≤ ck_now (gd_clock g1) ∧
    if counted r then
      ∃ now1 now2, ck_now c ≤ now1 ∧ now1 ≤ now2 ∧ now2 ≤ ck_now (gd_clock g1) ∧
        let idle := 6 <? as_secs (duration_since now1 (reg_pk p).2) in
        (idle = true ∨ (reg_pk p).1 ≤ 2) ∧
        reg_pk (gd_peer g1) = (u32_add (if idle then 0 else (reg_pk p).1) 1, now2)
    else reg_pk (gd_peer g1) = reg_pk p) _ _ _) with (2 := Hrun).
  apply wp_bind, wp_gets. simpl. destruct (persistence_in_progress p); [by apply wp_ret|].
  destruct (registration_refused _ _ _ _ _); [by apply wp_ret|].
  apply wp_bind, wp_instant_now. simpl. intros t c1 _ L1 E1.
  destruct (_ && (2 <? _)) eqn:Hfreq; [apply wp_ret; simpl; split; [lia|done]|].
  assert ((6 <? as_secs (duration_since t (reg_pk p).2)) = true ∨ (reg_pk p).1 ≤ 2) as Hadm.
  { apply andb_false_iff in Hfreq as [Hi|Hc];
      [left; by apply negb_false_iff|right; reflect_bools; lia]. }
  apply wp_bind, wp_instant_now. simpl. intros t2 c2 _ L2 E2. apply wp_bind, wp_put. simpl.
  destruct (_ || _); simpl.
  - apply wp_bind, wp_lift. destruct (to_json _); simpl.
    2:{ split; [simpl; lia|]. exists t, t2. split_and!; (done || lia). }
    apply wp_bind, wp_put, wp_bind, wp_instant_now. simpl. intros t3 c3 _ L3 E3.
    apply wp_bind, wp_put, wp_bind, wp_put, wp_bind, wp_put, wp_ret. simpl.
    split; [lia|]. exists t, t2. split_and!; (done || lia).
  - apply wp_ret. simpl. split; [lia|]. exists t, t2. split_and!; (done || lia).
Qed.

(** Registration attempts against one peer, in time order.  Between two of them
    the peer may change in any way but its registration counter. *)
Inductive attempts `{X : !Externals} : Guard → Z → Guard → Prop :=
  | attempts_nil g : attempts g 0 g
  | attempts_cons addr uuid' pk' ip managed g r g1 g2 n g3 :
      stage_peer_registration addr uuid' pk' ip managed g = (r, g1) →
      reg_pk (gd_peer g2) = reg_pk (gd_peer g1) →
      ck_now (gd_clock g1) ≤ ck_now (gd_clock g2) →
      attempts g2 n g3 →
      attempts g ((if counted r then 1 else 0) + n) g3.

Section Rate.
Context `{X : !Externals}.

Lemma attempts_clock g n g' : attempts g n g' → ck_now (gd_clock g) ≤ ck_now (gd_clock g').
Proof. induction 1 as [|??????????? Hs]; [lia|]. apply stage_count in Hs as [? _]. lia. Qed.

Lemma within_window now t0 a : t0 ≤ a → now < t0 + from_secs 7 →
  (6 <? as_secs (duration_since now a)) = false.
Proof.
  intros. apply Z.ltb_ge. unfold as_secs, duration_since, from_secs, nanos_per_sec in *.
  apply Z.lt_succ_r, Z.div_lt_upper_bound; lia.
Qed.

(** Once the counter was moved inside the window, it only grows. *)
Lemma attempts_inside t0 g n g' : attempts g n g' →
  ck_now (gd_clock g') < t0 + from_secs 7 → t0 ≤ ck_now (gd_clock g) →
  t0 ≤ (reg_pk (gd_peer g)).2 → 0 ≤ (reg_pk (gd_peer g)).1 ≤ 3 → n ≤ 3 - (reg_pk (gd_peer g)).1.
Proof.
  induction 1 as [|addr u k ip m g r g1 g2 n g3 Hs Hreg Hle Hrest IH]; intros Hend Hg Ht Hc; [lia|].
  apply stage_count in Hs as [Hclk Hcount]. pose proof (attempts_clock _ _ _ Hrest).
  rewrite Hreg in IH. destruct (counted r).
  - destruct Hcount as (now1 & now2 & ? & ? & ? & Hadm & Heq). rewrite Heq in IH. simpl in IH.
    rewrite (within_window now1 t0) in Hadm, IH by lia. destruct Hadm as [?|?]; [done|].
    unfold u32_add in IH. rewrite Z.mod_small in IH by lia. lia.
  - rewrite Hcount in IH. lia.
Qed.

Lemma attempts_window t0 g n g' : attempts g n g' →
  t0 ≤ ck_now (gd_clock g) → ck_now (gd_clock g') < t0 + from_secs 7 →
  0 ≤ (reg_pk (gd_peer g)).1 ≤ 3 → n ≤ 3.
Proof.
  induction 1 as [|addr u k ip m g r g1 g2 n g3 Hs Hreg Hle Hrest IH]; intros Ht Hend Hc; [lia|].
  apply stage_count in Hs as [Hclk Hcount]. pose proof (attempts_clock _ _ _ Hrest).
  destruct (counted r).
  - destruct Hcount as (now1 & now2 & ? & ? & ? & Hadm & Heq).
    pose proof (attempts_inside t0 _ _ _ Hrest Hend) as Hin. rewrite Hreg, Heq in Hin. simpl in Hin.
    destruct (6 <? _); unfold u32_add in Hin; rewrite Z.mod_small in Hin by lia; [lia|].
    destruct Hadm; [done|]. lia.
  - rewrite Hreg, Hcount in IH. lia.
Qed.
End Rate.

(** C40: However a device and the server interleave, a peer admits at most three
    registrations in any seven seconds, so it causes at most three database
    writes; and the counter stays within a [u32]. *)
Theorem registration_rate_bound `{X : !Externals} g n g' :
  attempts g n g' → 0 ≤ (reg_pk (gd_peer g)).1 ≤ 3 →
  0 ≤ (reg_pk (gd_peer g')).1 ≤ 3 ∧
  (ck_now (gd_clock g') - ck_now (gd_clock g) < from_secs 7 → n ≤ 3).
Proof.
  intros Hrun Hc. split.
  - clear -Hrun Hc. induction Hrun as [|addr u k ip m g r g1 g2 n g3 Hs Hreg Hle Hrest IH]; [done|].
    apply IH. rewrite Hreg. apply stage_count in Hs as [_ Hs]. destruct (counted r); [|by rewrite Hs].
    destruct Hs as (now1 & now2 & _ & _ & _ & Hadm & ->). simpl.
    destruct (6 <? _); unfold u32_add; rewrite Z.mod_small by lia; [lia|]. destruct Hadm; [done|lia].
  - intros Hlen. eapply (attempts_window (ck_now (gd_clock g))); eauto; lia.
Qed.

Lemma registration_rate_bound_witness :
  ∃ n g', attempts sample_guard n g' ∧ n = 1 ∧ 0 ≤ (reg_pk (gd_peer g')).1 ≤ 3.
Proof.
  eexists _, sample_staged.2.
  assert (attempts sample_guard 1 sample_staged.2) as Hrun.
  { apply (attempts_cons sample_addr [9] [8] "203.0.113.7" false sample_guard sample_staged.1
      sample_staged.2 sample_staged.2 0); [apply surjective_pairing|done|lia|constructor]. }
  split; [exact Hrun|]. split; [done|].
  apply (registration_rate_bound _ _ _ Hrun). simpl. lia.
Defined.
