(* ===== verification/Pending.v ===== *)
(** One-time rendezvous tokens ([src/rendezvous_server.rs]:
    [reserve_pending_rendezvous], [consume_pending_rendezvous] and
    [consume_pending_rendezvous_in]).

    A request that the server passes on to a device reserves a random token; the
    device's answer is accepted only with that token.  The random number
    generator is a parameter ([Entropy]).  The loop that draws until the token is
    new has fuel one more than the number of pending tokens: with distinct draws
    it never runs out.  The theorems are about every history of reservations,
    answers, cancellations and time passing. *)

From S2P Require Import Prelude.
From S2P Require Import Net.
From S2P Require Import Database.
From S2P Require Import PeerCache.
From S2P Require Import Messages.
From S2P Require Import Externals.

(** ** Data *)

Definition PENDING_RENDEZVOUS_CAPACITY : Z := 10000.
Definition PENDING_RENDEZVOUS_TTL_SECS : Z := 30.
Definition RENDEZVOUS_TOKEN_LEN : Z := 32.

Inductive PendingRendezvousKind := Direct | Local | Relay.
#[export] Instance kind_eq_dec : EqDecision PendingRendezvousKind.
Proof. solve_decision. Defined.

Record PendingRendezvous := mkPending {
  requester : SocketAddr;
  responder_id : string;
  kind : PendingRendezvousKind;
  relay_server : string;
  created_at : Instant
}.
Record ConsumedRendezvous := mkConsumed { c_requester : SocketAddr; c_relay_server : string }.

Abbreviation PendingMap := (@gmap bytes _ (@list_countable Z _ _) PendingRendezvous).

(** [SysRng.try_fill_bytes] on a token's array, by draw number. *)
Class Entropy := {
  draw : nat → result bytes;
  draw_length : ∀ n b, draw n = Ok b → len b = RENDEZVOUS_TOKEN_LEN
}.

(** The pending table, the clock, and the number of draws made. *)
Record Rendezvous := mkRendezvous {
  rz_clock : Clock; rz_pending : PendingMap; rz_draws : nat
}.
#[export] Instance Rendezvous_clock : HasClock Rendezvous := {|
  clock_of := rz_clock;
  with_clock c z := mkRendezvous c (rz_pending z) (rz_draws z);
  clock_with_clock := λ _ _, eq_refl
|}.
Definition set_pending (m : PendingMap) (z : Rendezvous) : Rendezvous :=
  mkRendezvous (rz_clock z) m (rz_draws z).

(** ** Operations *)

Section Pending.
Context `{X : !Externals} `{R : !Entropy}.

(** The test of [retain]. *)
Definition pending_live (now : Instant) (e : PendingRendezvous) : bool :=
  duration_since now (created_at e) <=? from_secs PENDING_RENDEZVOUS_TTL_SECS.

Definition consume_pending_rendezvous_in (pending : PendingMap) (token : bytes)
    (responder_id' : string) (claimed_requester : SocketAddr)
    (expected_kind : option PendingRendezvousKind) (now : Instant)
    : result ConsumedRendezvous * PendingMap :=
  if negb (len token =? RENDEZVOUS_TOKEN_LEN)
  then (Err "Missing or malformed rendezvous token", pending) else
  match pending !! token with
  | None => (Err "Unknown or already consumed rendezvous token", pending)
  | Some entry =>
      if from_secs PENDING_RENDEZVOUS_TTL_SECS <? duration_since now (created_at entry)
      then (Err "Expired rendezvous token", delete token pending) else
      if bool_decide (responder_id entry ≠ responder_id')
         || match expected_kind with Some k => bool_decide (kind entry ≠ k) | None => false end
         || bool_decide (requester entry ≠ try_into_v4 claimed_requester)
      then (Err "Rendezvous response does not match its request", pending)
      else (Ok (mkConsumed (requester entry) (relay_server entry)), delete token pending)
  end.

Definition out_of_fuel : string := "no new token drawn".

(** The loop of lines 1237-1254. *)
Fixpoint reserve_loop (fuel : nat) (requester' : SocketAddr) (responder_id' : string)
    (kind' : PendingRendezvousKind) (relay_server' : string) : M Rendezvous bytes :=
  match fuel with
  | O => bail out_of_fuel
  | S fuel =>
      drawn ← state (λ z, (draw (rz_draws z), mkRendezvous (rz_clock z) (rz_pending z) (S (rz_draws z))));
      token ← lift drawn;
      fresh ← gets (λ z, bool_decide (rz_pending z !! token = None));
      if fresh : bool then
        now ← instant_now;
        modify (λ z, set_pending (<[token := mkPending (try_into_v4 requester') responder_id'
                                    kind' relay_server' now]> (rz_pending z)) z);;
        mret token
      else reserve_loop fuel requester' responder_id' kind' relay_server'
  end.

Definition reserve_pending_rendezvous (requester' : SocketAddr) (responder_id' : string)
    (kind' : PendingRendezvousKind) (relay_server' : string) : M Rendezvous bytes :=
  pending ← gets rz_pending;
  pending ← retain_now pending_live pending;
  modify (set_pending pending);;
  if PENDING_RENDEZVOUS_CAPACITY <=? mlen pending
  then bail "Pending rendezvous response capacity reached"
  else reserve_loop (S (size pending)) requester' responder_id' kind' relay_server'.

Definition consume_pending_rendezvous (token : bytes) (responder_id' : string)
    (claimed_requester : bytes) (expected_kind : option PendingRendezvousKind)
    : M Rendezvous ConsumedRendezvous :=
  let claimed :=
    match mangle_try_decode claimed_requester with
    | Some addr => if sa_port addr =? 0 then None else Some (try_into_v4 addr)
    | None => None
    end in
  claimed_requester ← lift (ok_or claimed "Malformed rendezvous requester address");
  now ← instant_now;
  consumed ← state (λ z,
    let '(r, pending) := consume_pending_rendezvous_in (rz_pending z) token responder_id'
                           claimed_requester expected_kind now in
    (r, set_pending pending z));
  lift consumed.

(** [pending_rendezvous.lock().await.remove(&token)]: the request could not be
    delivered. *)
Definition cancel_pending (token : bytes) : M Rendezvous unit :=
  modify (λ z, set_pending (delete token (rz_pending z)) z).

(** ** Histories *)

Inductive pending_event :=
  | EReserve (requester' : SocketAddr) (responder_id' : string)
      (kind' : PendingRendezvousKind) (relay_server' : string)
  | EConsume (token : bytes) (responder_id' : string) (claimed_requester : bytes)
      (expected_kind : option PendingRendezvousKind)
  | ECancel (token : bytes).

(** What an event returned: the token issued, or the entry consumed. *)
Inductive pending_outcome := Issued (token : bytes) | Consumed (c : ConsumedRendezvous) | Refused | Done.

Definition run_pending (e : pending_event) (z : Rendezvous) : pending_outcome * Rendezvous :=
  match e with
  | EReserve q i k r =>
      let '(o, z) := reserve_pending_rendezvous q i k r z in
      (match o with Ok t => Issued t | Err _ => Refused end, z)
  | EConsume t i q k =>
      let '(o, z) := consume_pending_rendezvous t i q k z in
      (match o with Ok c => Consumed c | Err _ => Refused end, z)
  | ECancel t => let '(_, z) := cancel_pending t z in (Done, z)
  end.

(** One event, and the clock reading after it; then the clock may move on. *)
Inductive history : Rendezvous → list (pending_event * pending_outcome * Instant) → Rendezvous → Prop :=
  | history_nil z : history z [] z
  | history_snoc z h z1 e o z2 c :
      history z h z1 → run_pending e z1 = (o, z2) → ck_now (rz_clock z2) ≤ ck_now c →
      history z (h ++ [(e, o, ck_now (rz_clock z2))]) (with_clock c z2).
End Pending.

(** ** Lemmas *)

Lemma pending_live_antitone t t' e : t ≤ t' → pending_live t' e = true → pending_live t e = true.
Proof.
  unfold pending_live. intros Hle Hlive. reflect_bools. apply Z.leb_le.
  pose proof (duration_since_mono t t' (created_at e) Hle). lia.
Qed.

Section Lemmas.
Context `{X : !Externals} `{R : !Entropy}.
Implicit Types z : Rendezvous.

(** The outcome of one call of the consuming function, case by case. *)
Lemma consume_in_ok m token i q k now c m' :
  consume_pending_rendezvous_in m token i q k now = (Ok c, m') →
  ∃ e, m !! token = Some e ∧ len token = RENDEZVOUS_TOKEN_LEN ∧ m' = delete token m ∧
    c = mkConsumed (requester e) (relay_server e) ∧ responder_id e = i ∧
    (∀ k', k = Some k' → kind e = k') ∧ requester e = try_into_v4 q ∧
    duration_since now (created_at e) ≤ from_secs PENDING_RENDEZVOUS_TTL_SECS.
Proof.
  unfold consume_pending_rendezvous_in. destruct (negb _) eqn:Hlen; [done|].
  destruct (m !! token) as [e|] eqn:He; [|done].
  destruct (_ <? _) eqn:Httl; [done|]. destruct (_ || _ || _) eqn:Hmatch; [done|].
  intros [= <- <-]. exists e. reflect_bools. split_and!; try done; try by apply dec_stable.
  intros k' ->. reflect_bools. by apply dec_stable.
Qed.

(** A refusal removes the entry only when it has expired. *)
Lemma consume_in_err m token i q k now e m' :
  consume_pending_rendezvous_in m token i q k now = (Err e, m') →
  m' = m ∨ ∃ en, m !! token = Some en ∧ m' = delete token m ∧
    from_secs PENDING_RENDEZVOUS_TTL_SECS < duration_since now (created_at en).
Proof.
  unfold consume_pending_rendezvous_in. destruct (negb _); [intros [= _ <-]; by left|].
  destruct (m !! token) as [en|] eqn:He; [|intros [= _ <-]; by left].
  destruct (_ <? _) eqn:Httl; [intros [= _ <-]; right; reflect_bools; by exists en|].
  destruct (_ || _ || _); [intros [= _ <-]; by left|done].
Qed.

(** What a reservation leaves behind: a submap of the live entries, and, when
    it succeeds, one new entry under a token that was free. *)
Definition reserved z q i k r (o : result bytes) z' : Prop :=
  ck_now (rz_clock z) ≤ ck_now (rz_clock z') ∧
  ∃ m, retained pending_live (ck_now (rz_clock z)) (ck_now (rz_clock z')) (rz_pending z) m ∧
    match o with
    | Ok token => m !! token = None ∧ mlen m < PENDING_RENDEZVOUS_CAPACITY ∧
        len token = RENDEZVOUS_TOKEN_LEN ∧
        rz_pending z' = <[token := mkPending (try_into_v4 q) i k r (ck_now (rz_clock z'))]> m
    | Err _ => rz_pending z' = m
    end.

Lemma wp_reserve_loop fuel q i k r z (Q : result bytes → Rendezvous → Prop) :
  (∀ o z', ck_now (rz_clock z) ≤ ck_now (rz_clock z') →
    match o with
    | Ok token => rz_pending z !! token = None ∧ len token = RENDEZVOUS_TOKEN_LEN ∧
        rz_pending z' = <[token := mkPending (try_into_v4 q) i k r (ck_now (rz_clock z'))]> (rz_pending z)
    | Err _ => rz_pending z' = rz_pending z
    end → Q o z') →
  wp (reserve_loop fuel q i k r) Q z.
Proof.
  revert z. induction fuel as [|fuel IH]; intros z HQ; simpl.
  { apply wp_bail, HQ; [lia|done]. }
  apply wp_bind, wp_state. simpl. apply wp_bind, wp_lift.
  destruct (draw (rz_draws z)) as [token|e] eqn:Hdraw; [|by apply HQ].
  apply wp_bind, wp_gets. simpl. case_bool_decide as Hfresh; [|by apply IH].
  apply wp_bind, wp_instant_now. simpl. intros t c _ Ht Hc.
  apply wp_bind, wp_modify, wp_ret, HQ; simpl; [lia|].
  split_and!; [done|by eapply draw_length|by rewrite Hc].
Qed.

Lemma wp_reserve q i k r z (Q : result bytes → Rendezvous → Prop) :
  (∀ o z', reserved z q i k r o z' → Q o z') →
  wp (reserve_pending_rendezvous q i k r) Q z.
Proof.
  intros HQ. apply wp_bind, wp_gets, wp_bind.
  apply wp_retain_now; [exact pending_live_antitone|by intros ?? []|by intros []|].
  intros m c Hc Hret. simpl in Hc, Hret. apply wp_bind, wp_modify.
  destruct (_ <=? mlen m) eqn:Hcap; reflect_bools.
  { apply wp_bail, HQ. split; [done|]. by exists m. }
  apply wp_reserve_loop. simpl. intros o z' Hz' Ho. apply HQ. split; [simpl in *; lia|].
  exists m. split; [|by destruct o; [destruct Ho as (?&?&?)|]].
  destruct Hret as [Hsub Hkeep]. split; [done|]. intros tok e He.
  destruct (Hkeep tok e He) as [H1 H2]. split; [|done].
  intros Hlive. apply H1. by eapply pending_live_antitone.
Qed.

Lemma wp_consume token i q k z (Q : result ConsumedRendezvous → Rendezvous → Prop) :
  (∀ r z', ck_now (rz_clock z) ≤ ck_now (rz_clock z') →
    match r with
    | Err _ => rz_pending z' = rz_pending z ∨ rz_pending z' = delete token (rz_pending z)
    | Ok c => ∃ a, mangle_try_decode q = Some a ∧ sa_port a ≠ 0 ∧
        consume_pending_rendezvous_in (rz_pending z) token i (try_into_v4 a) k (ck_now (rz_clock z'))
          = (Ok c, rz_pending z')
    end → Q r z') →
  wp (consume_pending_rendezvous token i q k) Q z.
Proof.
  intros HQ. apply wp_bind, wp_lift.
  destruct (mangle_try_decode q) as [a|]; simpl; [|apply HQ; [lia|by left]].
  destruct (sa_port a =? 0) eqn:Hport; simpl; [apply HQ; [lia|by left]|]. reflect_bools.
  apply wp_bind, wp_instant_now. simpl. intros t c _ Ht Hc. apply wp_bind, wp_state. simpl.
  destruct (consume_pending_rendezvous_in _ _ _ _ _ _) as [r m'] eqn:E.
  apply wp_lift, HQ; simpl; [lia|]. destruct r as [cc|e]; [by exists a; rewrite Hc|].
  apply consume_in_err in E as [->|(en & _ & -> & _)]; [by left|by right].
Qed.
End Lemmas.

(** ** The history behind an entry *)

(** An event that issues, consumes or cancels a token. *)
Definition touches (token : bytes) (x : pending_event * pending_outcome * Instant) : Prop :=
  x.1.2 = Issued token ∨ x.1.1 = ECancel token ∨
  ∃ i q k c, x.1.1 = EConsume token i q k ∧ x.1.2 = Consumed c.

(** The entry was made by event [n] of the history, and no later event touched
    its token. *)
Definition made_by `{X : !Externals} (h : list (pending_event * pending_outcome * Instant))
    (token : bytes) (e : PendingRendezvous) (n : nat) : Prop :=
  (∃ q, h !! n = Some (EReserve q (responder_id e) (kind e) (relay_server e), Issued token, created_at e) ∧
        requester e = try_into_v4 q) ∧
  ∀ j x, (n < j)%nat → h !! j = Some x → ¬ touches token x.

Section History.
Context `{X : !Externals} `{R : !Entropy}.
Implicit Types z : Rendezvous.
Implicit Types h : list (pending_event * pending_outcome * Instant).

Lemma made_by_snoc h token e n (x : pending_event * pending_outcome * Instant) :
  made_by h token e n → ¬ touches token x → made_by (h ++ [x]) token e n.
Proof.
  intros [(q & Hn & Hq) Hlater] Hx. split.
  - exists q. split; [|done]. by apply lookup_app_l_Some.
  - intros j y Hj [Hy|[_ Hy]]%lookup_app_Some; [by eapply Hlater|].
    apply list_lookup_singleton_Some in Hy as [_ <-]. done.
Qed.

(** The invariant of a history that starts with no pending entry: capacity,
    and every entry has its origin. *)
Definition history_ok h z : Prop :=
  mlen (rz_pending z) ≤ PENDING_RENDEZVOUS_CAPACITY ∧
  ∀ token e, rz_pending z !! token = Some e →
    created_at e ≤ ck_now (rz_clock z) ∧ len token = RENDEZVOUS_TOKEN_LEN ∧
    ∃ n, made_by h token e n.

Lemma history_ok_sub h z z' (x : pending_event * pending_outcome * Instant) (m : PendingMap) :
  history_ok h z → rz_pending z' = m → m ⊆ rz_pending z →
  ck_now (rz_clock z) ≤ ck_now (rz_clock z') →
  (∀ token, is_Some (m !! token) → ¬ touches token x) → history_ok (h ++ [x]) z'.
Proof.
  intros [Hcap Hmade] Hm Hsub Hc Hx. split.
  - rewrite Hm. pose proof (mlen_subseteq _ _ Hsub). lia.
  - intros token e He. rewrite Hm in He.
    destruct (Hmade token e (lookup_weaken _ _ _ _ He Hsub)) as (? & ? & n & Hn).
    split_and!; [lia|done|]. exists n. apply made_by_snoc; [done|]. apply Hx. by eexists.
Qed.

Lemma reserved_ok h z q i k r o z' :
  history_ok h z → reserved z q i k r o z' →
  history_ok (h ++ [(EReserve q i k r, match o with Ok t => Issued t | Err _ => Refused end,
                     ck_now (rz_clock z'))]) z'.
Proof.
  intros Hok (Hc & m & [Hsub Hkeep] & Ho). destruct o as [token|e].
  - destruct Ho as (Hfree & Hcap & Hlen & Hz').
    assert (history_ok (h ++ [(EReserve q i k r, Issued token, ck_now (rz_clock z'))])
      (set_pending m z')) as [Hcap' Hmade].
    { apply (history_ok_sub h z _ _ m); try done. intros t [e He] [[= ->]|[?|(?&?&?&?&?&?)]]; simpl in *; congruence. }
    split; [rewrite Hz', mlen_insert_new by done; lia|].
    intros t e He. rewrite Hz' in He. apply lookup_insert_Some in He as [[<- <-]|[Hne He]].
    + simpl. split_and!; [lia|done|]. exists (length h). split.
      * exists q. split; [|done]. by rewrite lookup_app_r, Nat.sub_diag by lia.
      * intros j x Hj Hx. apply lookup_lt_Some in Hx. rewrite length_app in Hx. simpl in Hx. lia.
    + by apply Hmade.
  - apply (history_ok_sub h z _ _ m); try done.
    intros t _ [?|[?|(?&?&?&?&?&?)]]; simpl in *; congruence.
Qed.

Lemma run_pending_ok h e z o z' :
  history_ok h z → run_pending e z = (o, z') →
  history_ok (h ++ [(e, o, ck_now (rz_clock z'))]) z' ∧ ck_now (rz_clock z) ≤ ck_now (rz_clock z').
Proof.
  intros Hok Hrun. destruct e as [q i k r|token i q k|token]; simpl in Hrun.
  - destruct (reserve_pending_rendezvous q i k r z) as [o' z1] eqn:E. simplify_eq.
    pose proof (wp_run _ _ _ _ _ (wp_reserve q i k r z _ (λ _ _ H, H)) E) as Hres.
    split; [by eapply reserved_ok|]. apply Hres.
  - destruct (consume_pending_rendezvous token i q k z) as [o' z1] eqn:E. simplify_eq.
    pose proof (wp_run _ _ _ _ _ (wp_consume token i q k z (λ r z', ck_now (rz_clock z) ≤ ck_now (rz_clock z') ∧ _)
      (λ r z' Hc H, conj Hc H)) E) as [Hc Hcons].
    split; [|done]. destruct o' as [c|e].
    + destruct Hcons as (a & _ & _ & Hin). apply consume_in_ok in Hin as (en & Hen & _ & Hm & _).
      apply (history_ok_sub h z _ _ (delete token (rz_pending z))); try done; [apply delete_subseteq|].
      intros t [Hne _]%lookup_delete_is_Some [?|[?|(?&?&?&?&?&?)]]; simpl in *; by simplify_eq.
    + assert (∀ t, ¬ touches t (EConsume token i q k, Refused, ck_now (rz_clock z'))) as Hno
        by (intros t [?|[?|(?&?&?&?&?&?)]]; simpl in *; congruence).
      destruct Hcons as [Hm|Hm]; apply (history_ok_sub h z _ _ _ Hok Hm); try done.
      apply delete_subseteq.
  - simplify_eq. split; [|simpl; lia].
    apply (history_ok_sub h z _ _ (delete token (rz_pending z))); try done; [apply delete_subseteq|].
    intros t [Hne _]%lookup_delete_is_Some [?|[?|(?&?&?&?&?&?)]]; simpl in *; by simplify_eq.
Qed.

Lemma history_invariant z h z' :
  history z h z' → rz_pending z = ∅ → history_ok h z'.
Proof.
  induction 1 as [z|z h z1 e o z2 c Hh IH Hrun Hc]; intros Hempty.
  - split; [rewrite Hempty; by vm_compute|]. intros ??. by rewrite Hempty, lookup_empty.
  - destruct (run_pending_ok h e z1 o z2 (IH Hempty) Hrun) as [[Hcap Hmade] _].
    split; [done|]. intros token en He. simpl in *. destruct (Hmade token en He) as (? & ? & ?).
    split_and!; [lia|done|done].
Qed.
End History.

Section Termination.
Context `{X : !Externals} `{R : !Entropy}.

(** A run of the loop that finds no new token has drawn only pending ones. *)
Lemma reserve_loop_exhausts fuel q i k r z :
  (∀ j, (j < fuel)%nat → is_ok (draw (rz_draws z + j)) = true) →
  is_ok (reserve_loop fuel q i k r z).1 = true ∨
  ∀ j, (j < fuel)%nat → ∃ t, draw (rz_draws z + j) = Ok t ∧ is_Some (rz_pending z !! t).
Proof.
  revert z. induction fuel as [|fuel IH]; intros z Hok; [right; lia|].
  destruct (draw (rz_draws z)) as [t|e] eqn:Hd.
  2:{ specialize (Hok 0%nat). rewrite Nat.add_0_r, Hd in Hok. by discriminate Hok; lia. }
  set (z1 := mkRendezvous (rz_clock z) (rz_pending z) (S (rz_draws z))).
  destruct (rz_pending z !! t) as [en|] eqn:Ht.
  - assert ((reserve_loop (S fuel) q i k r z).1 = (reserve_loop fuel q i k r z1).1) as ->.
    { unfold reserve_loop at 1. fold reserve_loop. unfold mbind, M_bind, state, lift, gets. rewrite Hd. simpl.
      rewrite Ht, bool_decide_false by done. done. }
    destruct (IH z1) as [Hl|Hr].
    { intros j Hj. simpl. rewrite <-Nat.add_succ_r. apply Hok. lia. }
    { by left. }
    right. intros [|j] Hj; [exists t; rewrite Nat.add_0_r; by eauto|].
    destruct (Hr j) as (t' & Ht' & Hp); [lia|]. exists t'. rewrite Nat.add_succ_r. done.
  - left. unfold reserve_loop, mbind, M_bind, state, lift, gets, instant_now. rewrite Hd. simpl.
    rewrite Ht, bool_decide_true by done. by destruct (clock_read _).
Qed.

(** Distinct draws outnumber the pending tokens. *)
Lemma distinct_draws_escape n (m : PendingMap) :
  (∀ a b t, (a ≤ size m)%nat → (b ≤ size m)%nat →
     draw (n + a) = Ok t → draw (n + b) = Ok t → a = b) →
  ¬ ∀ j, (j < S (size m))%nat → ∃ t, draw (n + j) = Ok t ∧ is_Some (m !! t).
Proof.
  intros Hinj Hall.
  set (ts := (λ j, match draw (n + j) with Ok t => t | Err _ => [] end) <$> seq 0 (S (size m))).
  assert (NoDup ts) as Hnd.
  { apply NoDup_fmap_2_strong; [|apply list.NoDup_seq]. intros a b Ha Hb Heq.
    apply elem_of_seq in Ha, Hb. destruct (Hall a) as (t & Hta & _); [lia|].
    destruct (Hall b) as (t' & Htb & _); [lia|]. rewrite Hta, Htb in Heq. subst t'.
    apply (Hinj a b t); (done || lia). }
  assert (list_to_set (C := gset bytes) ts ⊆ dom m) as Hsub.
  { intros t Ht. apply elem_of_list_to_set, list_elem_of_fmap in Ht as (j & -> & Hj).
    apply elem_of_seq in Hj. destruct (Hall j) as (t & -> & Hp); [lia|]. by apply elem_of_dom. }
  apply subseteq_size in Hsub. rewrite size_list_to_set, size_dom in Hsub by done.
  unfold ts in Hsub. rewrite length_fmap, length_seq in Hsub. lia.
Qed.
End Termination.

(** ** Theorems *)

(** C7: A device's answer is routed only to the controller that asked for it: in
    every history that starts with an empty table, an accepted answer carries a
    token that an earlier reservation issued for this device, this kind of answer
    and this requester, at most thirty seconds ago, and that was neither consumed
    nor cancelled nor issued again since; the requester and relay it yields are
    the reservation's. *)
Theorem rendezvous_answers_are_authentic `{X : !Externals} `{R : !Entropy}
    z h z1 token i q k c z2 :
  history z h z1 → rz_pending z = ∅ →
  consume_pending_rendezvous token i q k z1 = (Ok c, z2) →
  ∃ n req kind' issued_at, h !! n = Some (EReserve req i kind' (c_relay_server c), Issued token, issued_at) ∧
    c_requester c = try_into_v4 req ∧ (∀ k', k = Some k' → kind' = k') ∧
    (∃ a, mangle_try_decode q = Some a ∧ c_requester c = try_into_v4 (try_into_v4 a)) ∧
    issued_at ≤ ck_now (rz_clock z2) ≤ issued_at + from_secs PENDING_RENDEZVOUS_TTL_SECS ∧
    ∀ j x, (n < j)%nat → h !! j = Some x → ¬ touches token x.
Proof.
  intros Hh Hempty Hcons. destruct (history_invariant z h z1 Hh Hempty) as [_ Hmade].
  pose proof (wp_run _ _ _ _ _ (wp_consume token i q k z1
    (λ r z', ck_now (rz_clock z1) ≤ ck_now (rz_clock z') ∧ _) (λ r z' Hc H, conj Hc H)) Hcons)
    as [Hc (a & Ha & _ & Hin)].
  apply consume_in_ok in Hin as (e & He & _ & _ & -> & Hi & Hk & Hq & Httl).
  destruct (Hmade token e He) as (Hcr & _ & n & (req & Hn & Hreq) & Hlater).
  exists n, req, (kind e), (created_at e). simpl. subst i.
  split_and!; try done.
  - exists a. by split.
  - lia.
  - unfold duration_since in Httl. lia.
Qed.

(** C17: A token works at most once: after an accepted answer, no answer with the
    same token is accepted until a reservation issues it anew, whoever sends it
    and whatever it claims. *)
Theorem rendezvous_tokens_are_one_shot `{X : !Externals} `{R : !Entropy} token i q k c z z1 :
  consume_pending_rendezvous token i q k z = (Ok c, z1) →
  ∀ h z2, history z1 h z2 →
    (∀ x, x ∈ h → x.1.2 ≠ Issued token) →
    ∀ i' q' k' r z3, consume_pending_rendezvous token i' q' k' z2 = (r, z3) → is_ok r = false.
Proof.
  intros Hcons h z2 Hh Hno.
  assert (rz_pending z1 !! token = None) as Hgone.
  { pose proof (wp_run _ _ _ _ _ (wp_consume token i q k z _ (λ _ _ _ H, H)) Hcons)
      as (a & _ & _ & Hin).
    apply consume_in_ok in Hin as (e & _ & _ & -> & _). apply lookup_delete_eq. }
  assert (rz_pending z2 !! token = None) as Hgone2.
  { clear Hcons. induction Hh as [|z0 h z4 e o z5 c' Hh IH Hrun Hc']; [done|]. simpl.
    assert (rz_pending z4 !! token = None) as H4.
    { apply IH; [|done]. intros x Hx. apply Hno, elem_of_app. by left. }
    assert (o ≠ Issued token) as Ho.
    { apply (Hno (e, o, ck_now (rz_clock z5))), elem_of_app. right. by apply list_elem_of_singleton. }
    destruct e as [q1 i1 k1 r1|t1 i1 q1 k1|t1]; simpl in Hrun.
    - destruct (reserve_pending_rendezvous q1 i1 k1 r1 z4) as [o1 z6] eqn:E. simplify_eq.
      destruct (wp_run _ _ _ _ _ (wp_reserve q1 i1 k1 r1 z4 _ (λ _ _ H, H)) E) as (_ & m & [Hsub _] & Hres).
      assert (m !! token = None) as Hm.
      { destruct (m !! token) eqn:Hm; [|done]. pose proof (lookup_weaken _ _ _ _ Hm Hsub). congruence. }
      destruct o1 as [t|e]; [|by rewrite Hres]. destruct Hres as (_ & _ & _ & ->).
      rewrite lookup_insert_ne by congruence. done.
    - destruct (consume_pending_rendezvous t1 i1 q1 k1 z4) as [o1 z6] eqn:E. simplify_eq.
      pose proof (wp_run _ _ _ _ _ (wp_consume t1 i1 q1 k1 z4 _ (λ _ _ _ H, H)) E) as Hres. simpl in Hres.
      destruct o1 as [c1|e].
      + destruct Hres as (a & _ & _ & Hin). apply consume_in_ok in Hin as (en & _ & _ & -> & _).
        rewrite lookup_delete. by case_decide.
      + destruct Hres as [-> | ->]; [done|]. rewrite lookup_delete. by case_decide.
    - simplify_eq. simpl. rewrite lookup_delete. by case_decide. }
  intros i' q' k' r z3 Hcons'.
  pose proof (wp_run _ _ _ _ _ (wp_consume token i' q' k' z2 _ (λ _ _ _ H, H)) Hcons') as Hres.
  destruct r as [c'|e]; [|done]. destruct Hres as (a & _ & _ & Hin).
  apply consume_in_ok in Hin as (en & Hen & _). congruence.
Qed.

(** The table of pending answers never holds more than its capacity, every
    entry has a token of 32 bytes, and a reservation first drops exactly the
    expired entries: whatever is still live when it returns is kept. *)
Theorem pending_table_is_bounded `{X : !Externals} `{R : !Entropy} z h z1 :
  history z h z1 → rz_pending z = ∅ →
  mlen (rz_pending z1) ≤ PENDING_RENDEZVOUS_CAPACITY ∧
  (∀ token e, rz_pending z1 !! token = Some e → len token = RENDEZVOUS_TOKEN_LEN) ∧
  ∀ q i k r o z2, reserve_pending_rendezvous q i k r z1 = (o, z2) →
    ∀ token e, rz_pending z1 !! token = Some e → pending_live (ck_now (rz_clock z2)) e = true →
      rz_pending z2 !! token = Some e.
Proof.
  intros Hh Hempty. destruct (history_invariant z h z1 Hh Hempty) as [Hcap Hmade].
  split_and!; [done| |].
  - intros token e He. by destruct (Hmade token e He) as (_ & ? & _).
  - intros q i k r o z2 Hres token e He Hlive.
    destruct (wp_run _ _ _ _ _ (wp_reserve q i k r z1 _ (λ _ _ H, H)) Hres) as (_ & m & [_ Hkeep] & Ho).
    assert (m !! token = Some e) as Hm by (by apply Hkeep).
    destruct o as [t|err]; [|by rewrite Ho]. destruct Ho as (Hfree & _ & _ & ->).
    rewrite lookup_insert_ne by congruence. done.
Qed.

(** A reservation terminates: if the generator works and does not repeat
    itself within as many draws as there are pending tokens, plus one, then the
    loop finds a new token, so the only error left is a full table. *)
Theorem reserve_terminates `{X : !Externals} `{R : !Entropy} q i k r z :
  (∀ a : nat, (a ≤ size (rz_pending z))%nat → is_ok (draw (rz_draws z + a)) = true) →
  (∀ a b t, (a ≤ size (rz_pending z))%nat → (b ≤ size (rz_pending z))%nat →
     draw (rz_draws z + a) = Ok t → draw (rz_draws z + b) = Ok t → a = b) →
  is_ok (reserve_pending_rendezvous q i k r z).1 = true ∨
  (reserve_pending_rendezvous q i k r z).1 = Err "Pending rendezvous response capacity reached".
Proof.
  intros Hok Hinj.
  assert (wp (reserve_pending_rendezvous q i k r)
    (λ o _, is_ok o = true ∨ o = Err "Pending rendezvous response capacity reached") z) as Hwp; [|exact Hwp].
  apply wp_bind, wp_gets, wp_bind.
  apply wp_retain_now; [exact pending_live_antitone|by intros ?? []|by intros []|].
  intros m c Hc [Hsub _]. apply wp_bind, wp_modify.
  destruct (_ <=? mlen m); [by right|]. left.
  assert (size m ≤ size (rz_pending z))%nat as Hsize
    by (pose proof (mlen_subseteq _ _ Hsub); unfold mlen in *; lia).
  match goal with |- context [reserve_loop _ _ _ _ _ ?z1] => set (z1' := z1) end.
  destruct (reserve_loop_exhausts (S (size m)) q i k r z1') as [Hdone|Hall].
  - intros j Hj. simpl. apply Hok. lia.
  - exact Hdone.
  - exfalso. apply (distinct_draws_escape (rz_draws z) m); [|exact Hall].
    intros a b t Ha Hb. apply Hinj; lia.
Qed.

(** ** Concrete instances *)

#[export] Instance sample_entropy : Entropy := {|
  draw n := Ok (Z.of_nat n :: replicate 31 0);
  draw_length n b := λ H : Ok (Z.of_nat n :: replicate 31 0) = Ok b,
    match H in _ = r return match r with Ok b => len b = RENDEZVOUS_TOKEN_LEN | Err _ => True end with
    | eq_refl => eq_refl end
|}.

Definition sample_token : bytes := 0 :: replicate 31 0.
Definition sample_req : SocketAddr := SockV4 (mkV4 198 51 100 2) 4000.
Definition empty_rendezvous : Rendezvous := mkRendezvous (mkClock (from_secs 5) []) ∅ 0.
Definition sample_reserved : pending_outcome * Rendezvous :=
  run_pending (EReserve sample_req "device01" Direct "relay:1") empty_rendezvous.
Definition sample_consumed : result ConsumedRendezvous * Rendezvous :=
  consume_pending_rendezvous sample_token "device01" (mangle_encode sample_req) (Some Direct) sample_reserved.2.

Lemma sample_history :
  history empty_rendezvous
    ([] ++ [(EReserve sample_req "device01" Direct "relay:1", Issued sample_token, from_secs 5)])
    sample_reserved.2.
Proof.
  apply (history_snoc empty_rendezvous [] empty_rendezvous (EReserve sample_req "device01" Direct "relay:1")
    (Issued sample_token) sample_reserved.2 (rz_clock sample_reserved.2)); [constructor|by vm_compute|lia].
Qed.

Lemma rendezvous_answers_are_authentic_witness :
  sample_consumed.1 = Ok (mkConsumed sample_req "relay:1") ∧
  ∃ n req, ([] ++ [(EReserve sample_req "device01" Direct "relay:1", Issued sample_token, from_secs 5)])
    !! n = Some (EReserve req "device01" Direct "relay:1", Issued sample_token, from_secs 5).
Proof.
  split; [by vm_compute|].
  destruct (rendezvous_answers_are_authentic empty_rendezvous _ sample_reserved.2 sample_token "device01"
    (mangle_encode sample_req) (Some Direct) (mkConsumed sample_req "relay:1") sample_consumed.2
    sample_history eq_refl ltac:(by vm_compute)) as (n & req & kind' & t & Hn & _ & Hk & _).
  pose proof (Hk Direct eq_refl) as ->. exists n, req. rewrite Hn.
  by destruct n; simpl in Hn; simplify_eq.
Defined.

Lemma rendezvous_tokens_are_one_shot_witness :
  sample_consumed.1 = Ok (mkConsumed sample_req "relay:1") ∧
  is_ok (consume_pending_rendezvous sample_token "device01" (mangle_encode sample_req) (Some Direct)
    sample_consumed.2).1 = false.
Proof.
  split; [by vm_compute|].
  apply (rendezvous_tokens_are_one_shot sample_token "device01" (mangle_encode sample_req) (Some Direct)
    (mkConsumed sample_req "relay:1") sample_reserved.2 sample_consumed.2 ltac:(by vm_compute)
    [] sample_consumed.2 (history_nil _) ltac:(by intros x Hx; apply elem_of_nil in Hx)
    "device01" (mangle_encode sample_req) (Some Direct) _ _ (surjective_pairing _)).
Defined.

Lemma pending_table_is_bounded_witness :
  mlen (rz_pending sample_reserved.2) ≤ PENDING_RENDEZVOUS_CAPACITY ∧
  mlen (rz_pending sample_reserved.2) = 1.
Proof.
  split; [|by vm_compute].
  apply (pending_table_is_bounded empty_rendezvous _ sample_reserved.2 sample_history eq_refl).
Defined.

Lemma reserve_terminates_witness :
  is_ok (reserve_pending_rendezvous sample_req "device01" Direct "relay:1" empty_rendezvous).1 = true ∨
  (reserve_pending_rendezvous sample_req "device01" Direct "relay:1" empty_rendezvous).1
    = Err "Pending rendezvous response capacity reached".
Proof.
  apply (reserve_terminates sample_req "device01" Direct "relay:1" empty_rendezvous).
  - intros a _. reflexivity.
  - intros a b t _ _ Ha Hb. simpl in Ha, Hb. simplify_eq. lia.
Defined.
