(* ===== verification/HttpProxy.v ===== *)
(** The API proxy ([src/rendezvous_server.rs]: [validate_api_server],
    [validate_http_proxy_path], [handle_http_proxy_request],
    [allow_http_proxy_request] and their helpers).

    The URL parser and the HTTP client are parameters: the client is a function
    from the whole request to a response or an error, with the response's body
    as the list of chunks it delivers.  The theorems: what may reach the API
    server, what comes back, and how often. *)

From Stdlib Require Import Ascii String.
From S2P Require Import Prelude.
From S2P Require Import Text.
From S2P Require Import Net.
From S2P Require Import Database.
From S2P Require Import PeerCache.
From S2P Require Import Messages.

(** ** Data *)

Definition HTTP_PROXY_MAX_BODY : Z := 16 * 1024 * 1024.
Definition HTTP_PROXY_MAX_PATH : Z := 4 * 1024.
Definition HTTP_PROXY_MAX_HEADERS : Z := 64.
Definition HTTP_PROXY_MAX_HEADER_BYTES : Z := 32 * 1024.
Definition HTTP_PROXY_MAX_CONCURRENCY : Z := 64.
Definition HTTP_PROXY_RATE_WINDOW_SECS : Z := 60.
Definition HTTP_PROXY_RATE_PER_IP : Z := 120.
Definition HTTP_PROXY_MAX_TRACKED_IPS : Z := 4096.

(** What [reqwest::Url] offers of a parsed URL. *)
Record Url := mkUrl {
  url_scheme : string; url_username : string; url_password : option string;
  url_host_str : option string; url_port : option Z; url_path : string;
  url_query : option string; url_fragment : option string
}.

(** A request as it leaves, and a response as it arrives: a header's value is
    [None] when it is not text; a chunk can be a read error. *)
Record UpstreamRequest := mkUpstream {
  ur_method : string; ur_url : string; ur_headers : list (string * string); ur_body : bytes
}.
Record UpstreamResponse := mkResponse {
  up_status : Z;
  up_content_length : option Z;
  up_headers : list (string * option string);
  up_chunks : list (result bytes)
}.

Class HttpLibrary := {
  url_parse : string → result Url;
  (** [HeaderName::from_bytes] (the normalised name) and whether
      [HeaderValue::from_str] accepts. *)
  header_name : string → result string;
  header_value_ok : string → bool
}.

(** Header names are normalised by case only. *)
Class HttpLaws (H : HttpLibrary) : Prop := {
  header_name_case : ∀ s n, header_name s = Ok n → n = to_ascii_lowercase s
}.

Record ProxyRate := mkRate { started_at : Instant; requests : Z }.
Record Proxy := mkProxy { px_clock : Clock; px_rates : gmap IpAddr ProxyRate }.
#[export] Instance Proxy_clock : HasClock Proxy := {|
  clock_of := px_clock;
  with_clock c p := mkProxy c (px_rates p);
  clock_with_clock := λ _ _, eq_refl
|}.
Definition set_rates (m : gmap IpAddr ProxyRate) (p : Proxy) : Proxy := mkProxy (px_clock p) m.

(** ** Operations *)

Section HttpProxy.
Context `{H : !HttpLibrary}.

(** [strip_prefix('[')] and [strip_suffix(']')], or the host itself. *)
Definition strip_brackets (host : string) : string :=
  match codes host with
  | 91 :: r => match reverse r with 93 :: m => of_codes (reverse m) | _ => host end
  | _ => host
  end.

Definition validate_api_server (api_server : string) : result unit :=
  if str_empty api_server then Ok tt else
  url ← url_parse api_server;
  host ← ok_or (url_host_str url) "API server must include a host";
  let canonical_host := to_ascii_lowercase (trim_end_char "."%char host) in
  if bool_decide (canonical_host = "invalid") || ends_with ".invalid" canonical_host
  then Err "API server contains a placeholder .invalid host" else
  if negb (bool_decide (url_scheme url = "http") || bool_decide (url_scheme url = "https"))
     || negb (str_empty (url_username url)) || bool_decide (is_Some (url_password url))
     || bool_decide (is_Some (url_query url)) || bool_decide (is_Some (url_fragment url))
     || bool_decide (url_path url ≠ "/") || bool_decide (url_port url = Some 0)
  then Err "API server must be an HTTP(S) origin with a valid port and without credentials, path, query or fragment"
  else if bool_decide (url_scheme url = "http") then
    let is_loopback' := eq_ignore_ascii_case host "localhost"
      || match parse_ip (strip_brackets host) with Some ip => is_loopback ip | None => false end in
    if negb is_loopback' then Err "Remote API servers must use HTTPS" else Ok tt
  else Ok tt.

Definition http_proxy_authorized (secured : bool) (expected_key supplied_key : string) : bool :=
  secured && negb (str_empty expected_key) && bool_decide (supplied_key = expected_key).

Definition allowed_http_proxy_path (path : string) : bool :=
  bool_decide (path = "/api") || starts_with "/api/" path || starts_with "/lic/web/api/" path.

Definition validate_http_proxy_path (path : string) : result unit :=
  if str_empty path || (HTTP_PROXY_MAX_PATH <? slen path) || negb (starts_with "/" path)
     || starts_with "//" path || str_contains "://" path || contains_char "092"%char path
     || contains_char "#"%char path
  then Err "HTTP proxy path must be relative" else
  if has_control path then Err "HTTP proxy path contains control characters" else
  let raw_path := before_char "?"%char path in
  let lowercase_path := to_ascii_lowercase raw_path in
  if str_contains "%2e" lowercase_path || str_contains "%2f" lowercase_path
     || str_contains "%5c" lowercase_path || str_contains "%25" lowercase_path
  then Err "HTTP proxy path contains an ambiguous encoded path segment" else
  parsed ← url_parse ("http://proxy.invalid" +:+ path);
  if bool_decide (url_host_str parsed ≠ Some "proxy.invalid")
     || negb (allowed_http_proxy_path (url_path parsed))
  then Err "HTTP proxy path is not allowed" else Ok tt.

Definition one_of (l : list string) (s : string) : bool := existsb (λ x, bool_decide (s = x)) l.

Definition is_allowed_http_proxy_request_header (name : string) : bool :=
  one_of ["accept"; "accept-language"; "authorization"; "content-type"; "if-modified-since";
          "if-none-match"; "range"; "user-agent"; "x-csrf-token"; "x-requested-with"]
    (to_ascii_lowercase name).

Definition is_hop_by_hop_header (name : string) : bool :=
  one_of ["connection"; "keep-alive"; "proxy-authenticate"; "proxy-authorization"; "te";
          "trailer"; "transfer-encoding"; "upgrade"; "host"; "content-length"]
    (to_ascii_lowercase name).

Definition http_proxy_method (method : string) : result string :=
  if one_of ["GET"; "POST"; "PUT"; "DELETE"] (to_ascii_uppercase method)
  then Ok (to_ascii_uppercase method) else Err "HTTP proxy method is not allowed".

(** The fold of lines 1647-1651. *)
Fixpoint header_bytes (total : Z) (hs : list HeaderEntry) : option Z :=
  match hs with
  | [] => Some total
  | h :: hs =>
      v ← usize_checked_add total (slen (h_name h));
      v ← usize_checked_add v (slen (h_value h));
      header_bytes v hs
  end.

(** The loop of lines 1663-1670. *)
Fixpoint forward_headers (hs : list HeaderEntry) : result (list (string * string)) :=
  match hs with
  | [] => Ok []
  | h :: hs =>
      if negb (is_allowed_http_proxy_request_header (h_name h)) then forward_headers hs
      else
        name ← header_name (h_name h);
        if negb (header_value_ok (h_value h)) then Err "invalid HTTP header value" else
        rest ← forward_headers hs;
        Ok ((name, h_value h) :: rest)
  end.

(** The loop of lines 1686-1708: headers kept so far, and their bytes. *)
Fixpoint response_headers (headers : list HeaderEntry) (n : Z)
    (hs : list (string * option string)) : result (list HeaderEntry) :=
  match hs with
  | [] => Ok headers
  | (name, value) :: hs =>
      if is_hop_by_hop_header name then response_headers headers n hs else
      match value with
      | None => response_headers headers n hs
      | Some value =>
          n ← ok_or (v ← usize_checked_add n (slen name); usize_checked_add v (slen value))
                "HTTP proxy response headers are too large";
          if (HTTP_PROXY_MAX_HEADERS <=? len headers) || (HTTP_PROXY_MAX_HEADER_BYTES <? n)
          then Err "HTTP proxy response headers are too large"
          else response_headers (headers ++ [mkHeaderEntry name value]) n hs
      end
  end.

(** The loop of lines 1715-1724. *)
Fixpoint response_body (body : bytes) (chunks : list (result bytes)) : result bytes :=
  match chunks with
  | [] => Ok body
  | chunk :: chunks =>
      chunk ← chunk;
      new_len ← ok_or (usize_checked_add (len body) (len chunk))
                  "HTTP proxy response body is too large";
      if HTTP_PROXY_MAX_BODY <? new_len then Err "HTTP proxy response body is too large"
      else response_body (body ++ chunk) chunks
  end.

(** Lines 1640-1678: the request that leaves. *)
Definition upstream_request (api_server : string) (req : HttpProxyRequest) (client_ip : IpAddr)
    : result UpstreamRequest :=
  _ ← validate_http_proxy_path (hp_path req);
  if HTTP_PROXY_MAX_BODY <? len (hp_body req) then Err "HTTP proxy request body is too large" else
  if HTTP_PROXY_MAX_HEADERS <? len (hp_headers req)
  then Err "HTTP proxy request has too many headers" else
  if match header_bytes 0 (hp_headers req) with
     | None => true | Some v => HTTP_PROXY_MAX_HEADER_BYTES <? v end
  then Err "HTTP proxy request headers are too large" else
  method ← http_proxy_method (hp_method req);
  let base := trim_end_char "/"%char api_server in
  if str_empty base then Err "API server is not configured" else
  let url := base +:+ hp_path req in
  headers ← forward_headers (hp_headers req);
  Ok (mkUpstream method url
        (headers ++ [("accept-encoding", "identity"); ("x-forwarded-for", show_ip client_ip);
                     ("x-real-ip", show_ip client_ip)]) (hp_body req)).

(** Lines 1679-1731: the response that goes back. *)
Definition proxied_response (resp : UpstreamResponse) : result HttpProxyResponse :=
  if HTTP_PROXY_MAX_BODY <? default 0 (up_content_length resp)
  then Err "HTTP proxy response body is too large" else
  headers ← response_headers [] 0 (up_headers resp);
  body ← response_body [] (up_chunks resp);
  Ok (mkHttpProxyResponse (up_status resp) headers body "").

(** [send]: the HTTP client. *)
Definition handle_http_proxy_request (send : UpstreamRequest → result UpstreamResponse)
    (api_server : string) (req : HttpProxyRequest) (client_ip : IpAddr) : result HttpProxyResponse :=
  up ← upstream_request api_server req client_ip;
  resp ← send up;
  proxied_response resp.

(** *** The rate limit *)

Definition rate_live (now : Instant) (r : ProxyRate) : bool :=
  as_secs (duration_since now (started_at r)) <? HTTP_PROXY_RATE_WINDOW_SECS.

(** Lines 1736-1743: make room for a new address, or refuse it. *)
Definition make_room (ip : IpAddr) : M Proxy bool :=
  rates ← gets px_rates;
  if bool_decide (rates !! ip = None) && (HTTP_PROXY_MAX_TRACKED_IPS <=? mlen rates) then
    rates ← retain_now rate_live rates;
    modify (set_rates rates);;
    mret (negb (HTTP_PROXY_MAX_TRACKED_IPS <=? mlen rates))
  else mret true.

Definition allow_http_proxy_request (ip : IpAddr) : M Proxy bool :=
  room ← make_room ip;
  if negb room then mret false else
  now ← instant_now;
  rates ← gets px_rates;
  let rate := default (mkRate now 0) (rates !! ip) in
  now' ← instant_now;
  let rate := if rate_live now' rate then rate else mkRate now 0 in
  let '(ok, rate) := if HTTP_PROXY_RATE_PER_IP <=? requests rate then (false, rate)
                     else (true, mkRate (started_at rate) (u32_add (requests rate) 1)) in
  modify (set_rates (<[ip := rate]> rates));;
  mret ok.
End HttpProxy.

(** ** Lemmas *)

Lemma list_filter_none {A} (P : A → Prop) `{!∀ x, Decision (P x)} (l : list A) :
  (∀ x, x ∈ l → ¬ P x) → filter P l = [].
Proof.
  induction l as [|x l IH]; intros Hl; [done|]. rewrite filter_cons, decide_False by (apply Hl; left).
  apply IH. intros y Hy. apply Hl. by right.
Qed.

Lemma one_of_spec l s : one_of l s = true ↔ s ∈ l.
Proof.
  unfold one_of. rewrite existsb_exists. split.
  - intros (x & Hx & Heq%bool_decide_eq_true). subst. by apply list_elem_of_In.
  - intros Hs. exists s. rewrite bool_decide_true by done. split; [|done]. by apply list_elem_of_In.
Qed.

Lemma checked_add_some a b n : usize_checked_add a b = Some n → n = a + b.
Proof. unfold usize_checked_add. case_match; intros; by simplify_eq. Qed.

(** The bytes of a list of headers. *)
Definition headers_len (hs : list HeaderEntry) : Z :=
  foldr (λ h n, slen (h_name h) + slen (h_value h) + n) 0 hs.

Lemma headers_len_app l1 l2 : headers_len (l1 ++ l2) = headers_len l1 + headers_len l2.
Proof. unfold headers_len. induction l1; simpl; lia. Qed.

Section ProxyLemmas.
Context `{H : !HttpLibrary} `{L : !HttpLaws H}.

Lemma header_bytes_some hs n m : header_bytes n hs = Some m → m = n + headers_len hs.
Proof.
  revert n. induction hs as [|h hs IH]; intros n; simpl; [intros; simplify_eq; lia|].
  intros (v & Hv%checked_add_some & (w & Hw%checked_add_some & Hr%IH)%bind_Some)%bind_Some. lia.
Qed.

(** The forwarded headers are the allowed ones, in order. *)
Lemma forward_headers_ok hs l : forward_headers hs = Ok l →
  l = (λ h, (to_ascii_lowercase (h_name h), h_value h)) <$>
        filter (λ h, is_allowed_http_proxy_request_header (h_name h) = true) hs.
Proof.
  revert l. induction hs as [|h hs IH]; intros l; simpl; [by intros [= <-]|].
  rewrite filter_cons. destruct (is_allowed_http_proxy_request_header (h_name h)) eqn:Ha; simpl.
  - intros (n & Hn%header_name_case & Hl)%result_bind_ok. destruct (negb _); [done|].
    apply result_bind_ok in Hl as (rest & ->%IH & [= <-]). by rewrite Hn.
  - by intros ->%IH.
Qed.

(** The headers of a response that are passed on. *)
Definition passed_on (hs : list (string * option string)) : list HeaderEntry :=
  omap (λ h : string * option string,
    if is_hop_by_hop_header h.1 then None else mkHeaderEntry h.1 <$> h.2) hs.

Lemma response_headers_ok hs acc n l : response_headers acc n hs = Ok l →
  n = headers_len acc → len acc ≤ HTTP_PROXY_MAX_HEADERS → headers_len acc ≤ HTTP_PROXY_MAX_HEADER_BYTES →
  l = acc ++ passed_on hs ∧ len l ≤ HTTP_PROXY_MAX_HEADERS ∧ headers_len l ≤ HTTP_PROXY_MAX_HEADER_BYTES.
Proof.
  revert acc n. induction hs as [|[name [value|]] hs IH]; intros acc n; simpl.
  - intros [= <-] _ ??. by rewrite app_nil_r.
  - unfold passed_on. simpl. fold (passed_on hs).
    destruct (is_hop_by_hop_header name); [by apply IH|].
    intros (m & Hm%ok_or_ok & Hl)%result_bind_ok Hn Hlen Hb. simpl.
    apply bind_Some in Hm as (v & Hv%checked_add_some & Hw%checked_add_some).
    destruct (_ || _) eqn:Hover; [done|]. reflect_bools.
    destruct (IH (acc ++ [mkHeaderEntry name value]) m Hl) as (-> & ? & ?).
    + rewrite headers_len_app. simpl. lia.
    + unfold len in *. rewrite length_app. simpl. lia.
    + rewrite headers_len_app. simpl. lia.
    + split; [|done]. by rewrite <-app_assoc.
  - unfold passed_on. simpl. fold (passed_on hs).
    destruct (is_hop_by_hop_header name); [by apply IH|]. simpl. by apply IH.
Qed.

Lemma response_body_ok chunks acc body : response_body acc chunks = Ok body →
  len acc ≤ HTTP_PROXY_MAX_BODY →
  ∃ cs, chunks = Ok <$> cs ∧ body = acc ++ concat cs ∧ len body ≤ HTTP_PROXY_MAX_BODY.
Proof.
  revert acc. induction chunks as [|c chunks IH]; intros acc; simpl.
  - intros [= <-] ?. exists []. by rewrite app_nil_r.
  - intros (cs1 & -> & (n & Hn%ok_or_ok%checked_add_some & Hb)%result_bind_ok)%result_bind_ok Hlen.
    destruct (_ <? n) eqn:Hover; [done|]. reflect_bools.
    apply IH in Hb as (cs & -> & -> & ?).
    + exists (cs1 :: cs). simpl. split_and!; [done| |done]. by rewrite <-app_assoc.
    + unfold len in *. rewrite length_app. lia.
Qed.

(** A path that validates. *)
Definition path_confined (path : string) : Prop :=
  slen path ≤ HTTP_PROXY_MAX_PATH ∧ starts_with "/" path = true ∧ starts_with "//" path = false ∧
  str_contains "://" path = false ∧ has_control path = false ∧
  contains_char "092"%char path = false ∧ contains_char "#"%char path = false ∧
  (∀ p, p ∈ ["%2e"; "%2f"; "%5c"; "%25"] →
     str_contains p (to_ascii_lowercase (before_char "?"%char path)) = false) ∧
  ∃ u, url_parse ("http://proxy.invalid" +:+ path) = Ok u ∧ url_host_str u = Some "proxy.invalid" ∧
    (url_path u = "/api" ∨ starts_with "/api/" (url_path u) = true ∨
     starts_with "/lic/web/api/" (url_path u) = true).

Lemma validate_http_proxy_path_ok path :
  validate_http_proxy_path path = Ok tt → path_confined path.
Proof.
  unfold validate_http_proxy_path.
  destruct (_ || _ || _ || _ || _ || _ || _) eqn:H1; [done|].
  destruct (has_control path) eqn:H2; [done|]. cbn zeta.
  destruct (str_contains "%2e" _ || _ || _ || _) eqn:H3; [done|].
  intros (u & Hu & Hok)%result_bind_ok. reflect_bools. unfold allowed_http_proxy_path in Hok.
  destruct (bool_decide (url_host_str u ≠ _)) eqn:Hhost; [done|].
  destruct (bool_decide (url_path u = "/api") || _ || _) eqn:Hpath; [|done]. clear Hok. reflect_bools.
  split_and!; try done.
  - intros p. rewrite !elem_of_cons, elem_of_nil. by intros [->|[->|[->|[->|[]]]]].
  - exists u. split_and!; [done|by apply dec_stable|].
    repeat (match goal with Hor : _ ∨ _ |- _ => destruct Hor end; reflect_bools); auto.
Qed.
End ProxyLemmas.

(** ** Theorems *)

(** C19: Whatever a client sends, the request that reaches the API server is
    confined: its URL is the configured origin followed by a path that stays
    under the API prefixes and has no authority, backslash, fragment, control
    character or encoded separator; its method is one of four; its body, the number
    of its headers and the bytes of the names and values they are taken from are
    bounded; it carries exactly the allowed client headers, in
    order, followed by the three the server sets; and the address headers name
    the client's own address, once, so that a client cannot forge them. *)
Theorem proxy_request_is_confined `{H : !HttpLibrary} `{L : !HttpLaws H} api_server req client_ip up :
  upstream_request api_server req client_ip = Ok up →
  path_confined (hp_path req) ∧
  ur_url up = trim_end_char "/"%char api_server +:+ hp_path req ∧
  trim_end_char "/"%char api_server ≠ "" ∧
  ur_method up ∈ ["GET"; "POST"; "PUT"; "DELETE"] ∧
  ur_body up = hp_body req ∧ len (ur_body up) ≤ HTTP_PROXY_MAX_BODY ∧
  len (ur_headers up) ≤ HTTP_PROXY_MAX_HEADERS + 3 ∧
  headers_len (hp_headers req) ≤ HTTP_PROXY_MAX_HEADER_BYTES ∧
  ur_headers up = ((λ h, (to_ascii_lowercase (h_name h), h_value h)) <$>
      filter (λ h, is_allowed_http_proxy_request_header (h_name h) = true) (hp_headers req))
    ++ [("accept-encoding", "identity"); ("x-forwarded-for", show_ip client_ip);
        ("x-real-ip", show_ip client_ip)] ∧
  ∀ name, name ∈ ["x-forwarded-for"; "x-real-ip"] →
    filter (λ h : string * string, h.1 = name) (ur_headers up) = [(name, show_ip client_ip)].
Proof.
  unfold upstream_request. intros ([] & Hpath & Hup)%result_bind_ok.
  destruct (_ <? len (hp_body req)) eqn:Hbody; [done|].
  destruct (_ <? len (hp_headers req)) eqn:Hnum; [done|].
  destruct (header_bytes 0 (hp_headers req)) as [n|] eqn:Hbytes; [|done].
  destruct (_ <? n) eqn:Htotal; [done|].
  apply result_bind_ok in Hup as (method & Hmethod & Hup). cbn zeta in Hup.
  destruct (str_empty _) eqn:Hbase; [done|].
  apply result_bind_ok in Hup as (headers & Hheaders%forward_headers_ok & [= <-]). simpl. reflect_bools.
  split_and!; try done.
  - by apply validate_http_proxy_path_ok.
  - by intros Hb; rewrite Hb in Hbase.
  - unfold http_proxy_method in Hmethod. case_match; [|done]. simplify_eq. by apply one_of_spec.
  - rewrite Hheaders. unfold len in *. rewrite length_app, length_fmap. simpl.
    pose proof (list.length_filter (λ h, is_allowed_http_proxy_request_header (h_name h) = true) (hp_headers req)).
    lia.
  - apply header_bytes_some in Hbytes. lia.
  - by rewrite Hheaders.
  - intros name Hname. rewrite list.filter_app.
    assert (filter (λ h : string * string, h.1 = name) headers = []) as ->.
    { apply list_filter_none. intros [a b] Hin. subst headers.
      apply list_elem_of_fmap in Hin as (h & [= -> ->] & [Ha _]%list_elem_of_filter). simpl. intros Heq.
      unfold is_allowed_http_proxy_request_header in Ha. rewrite Heq in Ha.
      rewrite !elem_of_cons, elem_of_nil in Hname. by destruct Hname as [->|[->|[]]]. }
    rewrite !elem_of_cons, elem_of_nil in Hname. destruct Hname as [->|[->|[]]]; reflexivity.
Qed.

(** C37: What comes back is bounded and filtered: a proxied response has the
    upstream status, exactly the textual headers that are not hop-by-hop, in
    order, at most 64 of them and 32 KiB in all, and exactly the delivered body,
    at most 16 MiB; a read error or an excess is an error, never a truncation. *)
Theorem proxy_response_is_bounded resp r :
  proxied_response resp = Ok r →
  hr_status r = up_status resp ∧ hr_headers r = passed_on (up_headers resp) ∧
  len (hr_headers r) ≤ HTTP_PROXY_MAX_HEADERS ∧
  headers_len (hr_headers r) ≤ HTTP_PROXY_MAX_HEADER_BYTES ∧
  ∃ chunks, up_chunks resp = Ok <$> chunks ∧ hr_body r = concat chunks ∧
    len (hr_body r) ≤ HTTP_PROXY_MAX_BODY.
Proof.
  unfold proxied_response. destruct (_ <? _); [done|].
  intros (hs & Hhs & (body & Hbody & [= <-])%result_bind_ok)%result_bind_ok. simpl.
  destruct (response_headers_ok _ _ _ _ Hhs) as (-> & ? & ?); [done|by vm_compute..|].
  destruct (response_body_ok _ _ _ Hbody) as (cs & ? & ? & ?); [by vm_compute|].
  split_and!; [done..|]. by exists cs.
Qed.

(** An API server that validates is an HTTP(S) origin: no credentials, path,
    query or fragment, no port zero, no placeholder host, and plain HTTP only to
    the machine itself; and validation accepts the empty setting. *)
Theorem validated_api_server_is_safe `{H : !HttpLibrary} api_server :
  validate_api_server api_server = Ok tt ↔
  api_server = "" ∨
  ∃ url host, url_parse api_server = Ok url ∧ url_host_str url = Some host ∧
    (to_ascii_lowercase (trim_end_char "."%char host) ≠ "invalid" ∧
     ends_with ".invalid" (to_ascii_lowercase (trim_end_char "."%char host)) = false) ∧
    url_username url = "" ∧ url_password url = None ∧ url_query url = None ∧ url_fragment url = None ∧
    url_path url = "/" ∧ url_port url ≠ Some 0 ∧
    (url_scheme url = "https" ∨
     url_scheme url = "http" ∧
       (eq_ignore_ascii_case host "localhost" = true ∨
        ∃ ip, parse_ip (strip_brackets host) = Some ip ∧ is_loopback ip = true)).
Proof.
  unfold validate_api_server. destruct (str_empty api_server) eqn:He.
  { destruct api_server; [|done]. split; [by left|done]. }
  split.
  - intros (url & Hurl & (host & Hhost%ok_or_ok & Hok)%result_bind_ok)%result_bind_ok. right.
    exists url, host. cbn zeta in Hok.
    destruct (bool_decide _ || ends_with _ _) eqn:Hinv; [done|].
    destruct (negb (_ || _) || _ || _ || _ || _ || _ || _) eqn:Hform in Hok; [done|]. reflect_bools.
    assert (url_username url = "") by (by destruct (url_username url)).
    assert (∀ A (o : option A), ¬ is_Some o → o = None) as Hnone
      by (intros A o Ho; by apply eq_None_not_Some).
    split_and!; try done; try (by apply Hnone); [by apply dec_stable|].
    destruct (bool_decide (url_scheme url = "http")) eqn:Hs.
    + right. reflect_bools. split; [done|]. destruct (negb _) eqn:Hlo; [done|]. reflect_bools.
      destruct Hlo as [?|Hlo]; [by left|right]. destruct (parse_ip _) as [ip|]; [by exists ip|done].
    + left. match goal with Hor : false = true ∨ _ |- _ => destruct Hor end; by reflect_bools.
  - intros [->|(url & host & Hurl & Hhost & [Hi1 Hi2] & Hu & Hp & Hq & Hf & Hpath & Hport & Hs)]; [done|].
    rewrite Hurl. simpl. rewrite Hhost. simpl.
    rewrite bool_decide_false, Hi2 by done. simpl. rewrite Hu, Hp, Hq, Hf, Hpath. simpl.
    rewrite (bool_decide_false (url_port url = Some 0)) by done.
    destruct Hs as [-> | [-> Hlo]]; [done|]. simpl.
    destruct (negb _) eqn:Hn; [|done]. reflect_bools. destruct Hlo as [?|(ip & Hip & ?)]; [congruence|].
    rewrite Hip in *. congruence.
Qed.

(** ** The rate limit *)

Lemma rate_live_antitone t t' r : t ≤ t' → rate_live t' r = true → rate_live t r = true.
Proof.
  unfold rate_live. intros Hle Hlive. reflect_bools. apply Z.ltb_lt.
  pose proof (as_secs_mono _ _ (duration_since_mono t t' (started_at r) Hle)). lia.
Qed.

(** A window that started inside an interval of sixty seconds is live to its end. *)
Lemma rate_live_inside t0 now r :
  t0 ≤ started_at r → now < t0 + from_secs 60 → rate_live now r = true.
Proof.
  intros. apply Z.ltb_lt. unfold as_secs, duration_since, from_secs, nanos_per_sec in *.
  apply Z.div_lt_upper_bound; unfold HTTP_PROXY_RATE_WINDOW_SECS; lia.
Qed.

(** The invariant of the table. *)
Record rates_wf (m : gmap IpAddr ProxyRate) : Prop := {
  rates_room : mlen m ≤ HTTP_PROXY_MAX_TRACKED_IPS;
  rates_count : ∀ ip r, m !! ip = Some r → 0 ≤ requests r ≤ HTTP_PROXY_RATE_PER_IP
}.

(** One call: the entries that remain after making room, and the call's own. *)
Definition proxy_step (p : Proxy) (ip : IpAddr) (ok : bool) (p' : Proxy) : Prop :=
  ck_now (px_clock p) ≤ ck_now (px_clock p') ∧
  ∃ m, m ⊆ px_rates p ∧
    (∀ i r, px_rates p !! i = Some r → m !! i = None → rate_live (ck_now (px_clock p')) r = false) ∧
    ((ok = false ∧ px_rates p' = m) ∨
     (mlen m < HTTP_PROXY_MAX_TRACKED_IPS ∨ is_Some (m !! ip)) ∧
     ∃ now now' rate, ck_now (px_clock p) ≤ now ∧ now ≤ now' ∧ now' ≤ ck_now (px_clock p') ∧
       rate = (let r := default (mkRate now 0) (m !! ip) in if rate_live now' r then r else mkRate now 0) ∧
       ok = negb (HTTP_PROXY_RATE_PER_IP <=? requests rate) ∧
       px_rates p' = <[ip := if ok then mkRate (started_at rate) (u32_add (requests rate) 1) else rate]> m).

Lemma wp_allow_http_proxy ip p (Q : result bool → Proxy → Prop) :
  mlen (px_rates p) ≤ HTTP_PROXY_MAX_TRACKED_IPS →
  (∀ ok p', proxy_step p ip ok p' → Q (Ok ok) p') → wp (allow_http_proxy_request ip) Q p.
Proof.
  intros Hroom HQ. destruct p as [c0 rates]. simpl in *.
  assert (∀ m c, ck_now c0 ≤ ck_now c → m ⊆ rates →
    (∀ i r, rates !! i = Some r → m !! i = None → rate_live (ck_now c) r = false) →
    (mlen m < HTTP_PROXY_MAX_TRACKED_IPS ∨ is_Some (m !! ip)) →
    wp (now ← instant_now;
        rates ← gets px_rates;
        let rate := default (mkRate now 0) (rates !! ip) in
        now' ← instant_now;
        let rate := if rate_live now' rate then rate else mkRate now 0 in
        let '(ok, rate) := if HTTP_PROXY_RATE_PER_IP <=? requests rate then (false, rate)
                           else (true, mkRate (started_at rate) (u32_add (requests rate) 1)) in
        modify (set_rates (<[ip := rate]> rates));;
        mret ok) Q (mkProxy c m)) as Hcount.
  { intros m c Hc Hsub Hgone Hroom'. apply wp_bind, wp_instant_now. simpl. intros t c1 _ L1 E1.
    apply wp_bind, wp_gets. simpl. apply wp_bind, wp_instant_now. simpl. intros t' c2 _ L2 E2.
    set (rate := if rate_live t' _ then _ else _).
    assert (∀ i r, rates !! i = Some r → m !! i = None → rate_live (ck_now c2) r = false) as Hgone2.
    { intros i r Hi Hm. destruct (rate_live (ck_now c2) r) eqn:Hl; [|done].
      apply (rate_live_antitone (ck_now c)) in Hl; [|lia]. by rewrite (Hgone i r) in Hl. }
    destruct (_ <=? requests rate) eqn:Hlim; apply wp_bind, wp_modify, wp_ret, HQ.
    all: split; [simpl; lia|]; exists m; split_and!; [done..|right]; split; [done|].
    all: exists t, t', rate; simpl; rewrite Hlim; split_and!; (done || lia). }
  apply wp_bind, wp_bind, wp_gets. simpl.
  destruct (bool_decide _ && _) eqn:Hfull.
  - apply wp_bind, wp_retain_now; [exact rate_live_antitone|by intros ?? []|by intros []|].
    simpl. intros m c Hc [Hsub Hkeep].
    assert (∀ i r, rates !! i = Some r → m !! i = None → rate_live (ck_now c) r = false) as Hgone.
    { intros i r Hi Hm. destruct (rate_live (ck_now c) r) eqn:Hl; [|done].
      destruct (Hkeep i r Hi) as [Hk _]. specialize (Hk Hl). congruence. }
    apply wp_bind, wp_modify, wp_ret. destruct (negb _) eqn:Hstill; simpl; reflect_bools.
    + apply wp_ret, HQ. split; [done|]. exists m. split_and!; [done..|]. by left.
    + apply Hcount; try done. by left.
  - apply wp_ret. simpl. apply Hcount; [lia|done|by intros; congruence|].
    apply andb_false_iff in Hfull as [Hin|Hlt]; reflect_bools; [right|by left].
    by apply not_eq_None_Some.
Qed.

Lemma proxy_step_wf p ip ok p' : rates_wf (px_rates p) → proxy_step p ip ok p' → rates_wf (px_rates p').
Proof.
  intros [Hroom Hcount] (_ & m & Hsub & _ & Hcase).
  assert (∀ i r, m !! i = Some r → 0 ≤ requests r ≤ HTTP_PROXY_RATE_PER_IP) as Hm.
  { intros i r Hi. by apply (Hcount i), (lookup_weaken _ _ _ _ Hi). }
  pose proof (mlen_subseteq _ _ Hsub).
  destruct Hcase as [[-> ->]|(Hr & now & now' & rate & _ & _ & _ & Hrate & Hok & ->)].
  { split; [lia|done]. }
  assert (0 ≤ requests rate ≤ HTTP_PROXY_RATE_PER_IP) as Hb.
  { subst rate. destruct (m !! ip) as [r|] eqn:Hi; simpl.
    - destruct (rate_live now' r); simpl; [by apply (Hm ip)|unfold HTTP_PROXY_RATE_PER_IP; lia].
    - destruct (rate_live now' _); simpl; unfold HTTP_PROXY_RATE_PER_IP; lia. }
  split.
  - destruct (m !! ip) eqn:Hi; [rewrite mlen_insert_old by eauto; lia|].
    rewrite mlen_insert_new by done. destruct Hr as [?|[? ?]]; [lia|done].
  - intros i r [[<- <-]|[_ Hi]]%lookup_insert_Some; [|by apply (Hm i)].
    destruct ok; [|done]. symmetry in Hok. reflect_bools. simpl.
    unfold u32_add, HTTP_PROXY_RATE_PER_IP in *. rewrite Z.mod_small; lia.
Qed.

(** Calls over time, and how many of them from one address were accepted. *)
Inductive proxy_calls (ip : IpAddr) : Proxy → Z → Proxy → Prop :=
  | proxy_calls_nil p : proxy_calls ip p 0 p
  | proxy_calls_cons p ip' ok p1 c n p' :
      allow_http_proxy_request ip' p = (Ok ok, p1) → ck_now (px_clock p1) ≤ ck_now c →
      proxy_calls ip (mkProxy c (px_rates p1)) n p' →
      proxy_calls ip p ((if bool_decide (ip' = ip) && ok then 1 else 0) + n) p'.

(** How many requests of an address an interval starting at [t0] still admits. *)
Definition allowance (t0 : Instant) (o : option ProxyRate) : Z :=
  match o with
  | None => HTTP_PROXY_RATE_PER_IP
  | Some r => if t0 <=? started_at r then HTTP_PROXY_RATE_PER_IP - requests r
              else 2 * HTTP_PROXY_RATE_PER_IP - requests r
  end.

Lemma proxy_step_allowance t0 p ip ip' ok p' :
  rates_wf (px_rates p) → proxy_step p ip' ok p' → t0 ≤ ck_now (px_clock p) →
  ck_now (px_clock p') < t0 + from_secs 60 →
  (if bool_decide (ip' = ip) && ok then 1 else 0) + allowance t0 (px_rates p' !! ip)
    ≤ allowance t0 (px_rates p !! ip).
Proof.
  intros [_ Hcount] (Hclk & m & Hsub & Hgone & Hcase) Ht0 Hend.
  assert (allowance t0 (m !! ip) ≤ allowance t0 (px_rates p !! ip)) as Hm.
  { destruct (m !! ip) as [r|] eqn:Hi; [by rewrite (lookup_weaken _ _ _ _ Hi Hsub)|].
    destruct (px_rates p !! ip) as [r|] eqn:Hp; [|done].
    pose proof (Hcount ip r Hp). specialize (Hgone ip r Hp Hi). simpl.
    destruct (t0 <=? started_at r) eqn:Hs; reflect_bools; [|lia].
    rewrite (rate_live_inside t0) in Hgone by lia. done. }
  destruct Hcase as [[-> ->]|(_ & now & now' & rate & ? & ? & ? & Hrate & Hok & ->)].
  { rewrite andb_false_r. lia. }
  case_bool_decide as Hip; simpl; [subst ip'|by rewrite lookup_insert_ne]. rewrite lookup_insert_eq.
  assert (allowance t0 (Some rate) ≤ allowance t0 (m !! ip) ∧ 0 ≤ requests rate) as [Hr Hr0].
  { subst rate. destruct (m !! ip) as [r|] eqn:Hi; simpl.
    - pose proof (Hcount ip r (lookup_weaken _ _ _ _ Hi Hsub)).
      destruct (rate_live now' r) eqn:Hl; [lia|]. simpl.
      destruct (t0 <=? started_at r) eqn:Hs; reflect_bools.
      + rewrite (rate_live_inside t0) in Hl by lia. done.
      + rewrite (proj2 (Z.leb_le t0 now)) by lia. lia.
    - destruct (rate_live now' _); simpl; rewrite (proj2 (Z.leb_le t0 now)) by lia; lia. }
  symmetry in Hok. destruct ok; [|lia]. reflect_bools. simpl in Hr |- *.
  unfold u32_add, HTTP_PROXY_RATE_PER_IP in *. rewrite Z.mod_small by lia.
  destruct (t0 <=? started_at rate); lia.
Qed.

(** The table of proxy rates never exceeds 4096 addresses and no counter
    passes 120; and in every interval shorter than sixty seconds, however the
    calls of other addresses interleave and whatever is evicted, an address gets
    at most two windows' worth of requests through, and at most one window's
    worth if it was not in the table when the interval began. *)
Theorem proxy_rate_bound ip p n p' :
  proxy_calls ip p n p' → rates_wf (px_rates p) →
  rates_wf (px_rates p') ∧
  (ck_now (px_clock p') < ck_now (px_clock p) + from_secs 60 →
   n ≤ 2 * HTTP_PROXY_RATE_PER_IP ∧
   (px_rates p !! ip = None → n ≤ HTTP_PROXY_RATE_PER_IP)).
Proof.
  intros Hcalls Hwf.
  assert (rates_wf (px_rates p') ∧ ck_now (px_clock p) ≤ ck_now (px_clock p') ∧
    ∀ t0, t0 ≤ ck_now (px_clock p) → ck_now (px_clock p') < t0 + from_secs 60 →
      n + allowance t0 (px_rates p' !! ip) ≤ allowance t0 (px_rates p !! ip)) as (Hwf' & _ & Hn).
  { induction Hcalls as [p|p ip' ok p1 c n p' Hcall Hc Hrest IH].
    { split_and!; [done|lia|]. intros. lia. }
    assert (proxy_step p ip' ok p1) as Hstep.
    { apply (wp_run _ (λ r p1, ∃ ok', r = Ok ok' ∧ proxy_step p ip' ok' p1) _ _ _) in Hcall;
        [by destruct Hcall as (? & [= ->] & ?)|].
      apply wp_allow_http_proxy; [apply Hwf|]. eauto. }
    pose proof (proxy_step_wf _ _ _ _ Hwf Hstep) as Hwf1.
    destruct (IH Hwf1) as (Hwf2 & Hclk & Hn). simpl in *. destruct Hstep as [Hle Hstep].
    split_and!; [done|lia|]. intros t0 Ht0 Hend.
    pose proof (proxy_step_allowance t0 p ip ip' ok p1 Hwf (conj Hle Hstep) Ht0 ltac:(lia)).
    specialize (Hn t0 ltac:(lia) Hend). lia. }
  split; [done|]. intros Hend. specialize (Hn (ck_now (px_clock p)) ltac:(lia) Hend).
  assert (∀ o, (∀ r, o = Some r → 0 ≤ requests r ≤ HTTP_PROXY_RATE_PER_IP) →
    0 ≤ allowance (ck_now (px_clock p)) o ≤ 2 * HTTP_PROXY_RATE_PER_IP) as Hall.
  { intros [r|] Hr; simpl; [specialize (Hr r eq_refl); case_match|]; unfold HTTP_PROXY_RATE_PER_IP in *; lia. }
  pose proof (Hall (px_rates p' !! ip) (rates_count _ Hwf' ip)).
  pose proof (Hall (px_rates p !! ip) (rates_count _ Hwf ip)).
  split; [lia|]. intros Hnone. rewrite Hnone in Hn. simpl in Hn. lia.
Qed.

(** ** Concrete instances *)

#[export] Instance sample_http : HttpLibrary := {|
  url_parse s :=
    if starts_with "http://proxy.invalid" s
    then Ok (mkUrl "http" "" None (Some "proxy.invalid") None
               (before_char "?"%char (substring 20 (String.length s) s)) None None)
    else Ok (mkUrl "https" "" None (Some "api.example") None "/" None None);
  header_name s := Ok (to_ascii_lowercase s);
  header_value_ok s := negb (has_control s)
|}.
#[export] Instance sample_http_laws : HttpLaws sample_http.
Proof. split. by intros s n [= <-]. Qed.

Definition sample_client : IpAddr := V4 (mkV4 192 0 2 9).
Definition sample_request : HttpProxyRequest :=
  mkHttpProxyRequest "key" "get" "/api/devices?page=1"
    [mkHeaderEntry "Accept" "text/html"; mkHeaderEntry "X-Forwarded-For" "127.0.0.1"] [].
Definition sample_upstream : UpstreamRequest :=
  mkUpstream "GET" "https://api.example/api/devices?page=1"
    [("accept", "text/html"); ("accept-encoding", "identity"); ("x-forwarded-for", "192.0.2.9");
     ("x-real-ip", "192.0.2.9")] [].

Lemma proxy_request_is_confined_witness :
  upstream_request "https://api.example/" sample_request sample_client = Ok sample_upstream ∧
  filter (λ h : string * string, h.1 = "x-forwarded-for") (ur_headers sample_upstream)
    = [("x-forwarded-for", "192.0.2.9")].
Proof.
  assert (upstream_request "https://api.example/" sample_request sample_client = Ok sample_upstream) as Hup
    by (by vm_compute).
  split; [exact Hup|].
  destruct (proxy_request_is_confined "https://api.example/" sample_request sample_client sample_upstream Hup)
    as (_ & _ & _ & _ & _ & _ & _ & _ & _ & Hfwd).
  apply (Hfwd "x-forwarded-for"). left.
Defined.

Lemma proxy_response_is_bounded_witness :
  let resp := mkResponse 200 (Some 3) [("content-type", Some "text/html"); ("connection", Some "close")]
                [Ok [1; 2]; Ok [3]] in
  ∃ chunks, up_chunks resp = Ok <$> chunks ∧ [1; 2; 3] = concat chunks.
Proof.
  intros resp.
  destruct (proxy_response_is_bounded resp
    (mkHttpProxyResponse 200 [mkHeaderEntry "content-type" "text/html"] [1; 2; 3] "")
    ltac:(by vm_compute)) as (_ & _ & _ & _ & chunks & H1 & H2 & _).
  by exists chunks.
Defined.

Definition sample_proxy : Proxy := mkProxy (mkClock 0 []) ∅.

Lemma sample_proxy_wf : rates_wf (px_rates sample_proxy).
Proof. split; [by vm_compute|]. intros ip r. simpl. by rewrite lookup_empty. Qed.

Lemma proxy_rate_bound_witness :
  ∃ n p', proxy_calls sample_client sample_proxy n p' ∧ n = 1 ∧ n ≤ HTTP_PROXY_RATE_PER_IP.
Proof.
  set (p1 := (allow_http_proxy_request sample_client sample_proxy).2).
  assert (proxy_calls sample_client sample_proxy 1 (mkProxy (px_clock p1) (px_rates p1))) as Hcalls.
  { apply (proxy_calls_cons sample_client sample_proxy sample_client true p1 (px_clock p1) 0);
      [by vm_compute|lia|constructor]. }
  exists 1, (mkProxy (px_clock p1) (px_rates p1)). split_and!; [exact Hcalls|done|].
  apply (proxy_rate_bound sample_client sample_proxy 1 _ Hcalls sample_proxy_wf); [by vm_compute|done].
Defined.
