(* ===== verification/Server.v ===== *)
(** The rendezvous server's message handlers ([src/rendezvous_server.rs]:
    [handle_udp], [handle_tcp_msg] and everything they call).

    A connection's outgoing queue is a [Channel]; [tcp_punch] maps an address to
    the channel of its connection.  All connections share one [Server] state;
    each works on its own copy of the relay and rendezvous server lists ([Rs]).
    A handler is a computation on [Server]; what it asks of the API server is an
    argument. *)

From Stdlib Require Import Ascii String.
From S2P Require Import Prelude.
From S2P Require Import Text.
From S2P Require Import Net.
From S2P Require Import RateLimit.
From S2P Require Import Database.
From S2P Require Import PeerCache.
From S2P Require Import Messages.
From S2P Require Import Externals.
From S2P Require Import Registration.
From S2P Require Import Pending.
From S2P Require Import HttpProxy.

(** ** Data *)

Definition REG_TIMEOUT : Z := 30000.
Definition RENDEZVOUS_CONNECTION_QUEUE_CAPACITY : Z := 64.
Definition ONLINE_QUERY_MAX_PEERS : Z := 256.
Definition PUNCH_REQUEST_LOG_CAPACITY : Z := 10000.
Definition PUNCH_REQ_DEDUPE_SEC : Z := 60.
Definition RELAY_SERVER_NAME_MAX_LEN : Z := 512.
Definition HC_KEEP_ALIVE_SECS : Z := 10.

(** A bounded queue of messages, and whether its receiver still exists. *)
Record Channel := mkChannel { ch_queue : list Union; ch_open : bool }.
Abbreviation ChanId := positive.

Record PunchReqEntry := mkPunchReq {
  tm : Instant; from_ip : string; to_ip : string; to_id : string
}.

(** What every connection shares. *)
Record Server (D : Type) := mkServer {
  sv_reg : RegState D;
  sv_pending : PendingMap;
  sv_draws : nat;
  sv_tcp_punch : gmap SocketAddr ChanId;
  sv_chans : gmap ChanId Channel;
  sv_punch_reqs : list PunchReqEntry;
  sv_rotation : Z;
  sv_always_use_relay : bool;
  sv_rates : gmap IpAddr ProxyRate;
  sv_proxy_slots : Z;
  (** The channels a keep-alive task feeds. *)
  sv_keepalives : list ChanId
}.
Arguments mkServer {D}.
Arguments sv_reg {D}. Arguments sv_pending {D}. Arguments sv_draws {D}.
Arguments sv_tcp_punch {D}. Arguments sv_chans {D}. Arguments sv_punch_reqs {D}.
Arguments sv_rotation {D}. Arguments sv_always_use_relay {D}. Arguments sv_rates {D}.
Arguments sv_proxy_slots {D}. Arguments sv_keepalives {D}.

(** A connection's clone of [RendezvousServer]. *)
Record Rs := mkRs {
  relay_servers : list string;
  relay_servers0 : list string;
  rendezvous_servers : list string;
  inner : Inner
}.

(** What the API server answers during one message. *)
Record Api := mkApi {
  api_post : string → string → string → string → string → result Z;
  api_send : UpstreamRequest → result UpstreamResponse
}.

Section Setters.
Context {D : Type}.
Implicit Types s : Server D.
Definition set_reg (r : RegState D) s : Server D :=
  mkServer r (sv_pending s) (sv_draws s) (sv_tcp_punch s) (sv_chans s) (sv_punch_reqs s)
    (sv_rotation s) (sv_always_use_relay s) (sv_rates s) (sv_proxy_slots s) (sv_keepalives s).
Definition set_tokens (m : PendingMap) (n : nat) s : Server D :=
  mkServer (sv_reg s) m n (sv_tcp_punch s) (sv_chans s) (sv_punch_reqs s)
    (sv_rotation s) (sv_always_use_relay s) (sv_rates s) (sv_proxy_slots s) (sv_keepalives s).
Definition set_tcp_punch (m : gmap SocketAddr ChanId) s : Server D :=
  mkServer (sv_reg s) (sv_pending s) (sv_draws s) m (sv_chans s) (sv_punch_reqs s)
    (sv_rotation s) (sv_always_use_relay s) (sv_rates s) (sv_proxy_slots s) (sv_keepalives s).
Definition set_chans (m : gmap ChanId Channel) s : Server D :=
  mkServer (sv_reg s) (sv_pending s) (sv_draws s) (sv_tcp_punch s) m (sv_punch_reqs s)
    (sv_rotation s) (sv_always_use_relay s) (sv_rates s) (sv_proxy_slots s) (sv_keepalives s).
Definition set_punch_reqs (l : list PunchReqEntry) s : Server D :=
  mkServer (sv_reg s) (sv_pending s) (sv_draws s) (sv_tcp_punch s) (sv_chans s) l
    (sv_rotation s) (sv_always_use_relay s) (sv_rates s) (sv_proxy_slots s) (sv_keepalives s).
Definition set_rotation (n : Z) s : Server D :=
  mkServer (sv_reg s) (sv_pending s) (sv_draws s) (sv_tcp_punch s) (sv_chans s) (sv_punch_reqs s)
    n (sv_always_use_relay s) (sv_rates s) (sv_proxy_slots s) (sv_keepalives s).
Definition set_proxy_rates (m : gmap IpAddr ProxyRate) s : Server D :=
  mkServer (sv_reg s) (sv_pending s) (sv_draws s) (sv_tcp_punch s) (sv_chans s) (sv_punch_reqs s)
    (sv_rotation s) (sv_always_use_relay s) m (sv_proxy_slots s) (sv_keepalives s).
Definition add_keepalive (c : ChanId) s : Server D :=
  mkServer (sv_reg s) (sv_pending s) (sv_draws s) (sv_tcp_punch s) (sv_chans s) (sv_punch_reqs s)
    (sv_rotation s) (sv_always_use_relay s) (sv_rates s) (sv_proxy_slots s) (c :: sv_keepalives s).

Definition sv_clock s : Clock := pm_clock (rs_pm (sv_reg s)).
Definition set_sv_clock (c : Clock) s : Server D := set_reg (with_clock c (sv_reg s)) s.
#[export] Instance Server_clock : HasClock (Server D) := {|
  clock_of := sv_clock;
  with_clock := set_sv_clock;
  clock_with_clock := λ _ _, eq_refl
|}.
End Setters.

(** ** Operations *)

Section Server.
Context {D : Type} `{!PeerStore D} `{X : !Externals} `{R : !Entropy} `{H : !HttpLibrary}.

Definition on_reg {A} (m : M (RegState D) A) : M (Server D) A := zoom sv_reg set_reg m.
Definition on_pm {A} (m : M (PeerMap D) A) : M (Server D) A := on_reg (on_peers m).
Definition on_tokens {A} (m : M Rendezvous A) : M (Server D) A :=
  zoom (λ s, mkRendezvous (sv_clock s) (sv_pending s) (sv_draws s))
       (λ z s, set_tokens (rz_pending z) (rz_draws z) (set_sv_clock (rz_clock z) s)) m.
Definition on_proxy {A} (m : M Proxy A) : M (Server D) A :=
  zoom (λ s, mkProxy (sv_clock s) (sv_rates s))
       (λ p s, set_proxy_rates (px_rates p) (set_sv_clock (px_clock p) s)) m.

(** [peer.read().await]. *)
Definition read_peer (l : LockPeer) : M (Server D) Peer :=
  p ← gets (λ s, pm_heap (rs_pm (sv_reg s)) !! l);
  lift (ok_or p "dangling handle").

(** *** Channels and sinks *)

Definition try_send (c : ChanId) (msg : Union) : M (Server D) bool :=
  state (λ s,
    match sv_chans s !! c with
    | Some ch =>
        if ch_open ch && (len (ch_queue ch) <? RENDEZVOUS_CONNECTION_QUEUE_CAPACITY)
        then (true, set_chans (<[c := mkChannel (ch_queue ch ++ [msg]) true]> (sv_chans s)) s)
        else (false, s)
    | None => (false, s)
    end).

Definition cache_sink (addr : SocketAddr) (sink : option ChanId) : M (Server D) unit :=
  match sink with
  | Some tx => modify (λ s, set_tcp_punch (<[try_into_v4 addr := tx]> (sv_tcp_punch s)) s)
  | None => mret tt
  end.

Definition send_to_sink (sink : option ChanId) (msg : Union) : M (Server D) bool :=
  match sink with Some tx => try_send tx msg | None => mret false end.

(** The recipient's entry is used up. *)
Definition send_to_tcp (msg : Union) (addr : SocketAddr) : M (Server D) unit :=
  tcp ← gets (λ s, sv_tcp_punch s !! try_into_v4 addr);
  modify (λ s, set_tcp_punch (delete (try_into_v4 addr) (sv_tcp_punch s)) s);;
  sent ← send_to_sink tcp msg;
  if sent : bool then mret tt
  else bail "Rendezvous TCP recipient is unavailable or backpressured".

(** The recipient's entry stays. *)
Definition send_to_tcp_sync (msg : Union) (addr : SocketAddr) : M (Server D) unit :=
  entry ← gets (λ s, sv_tcp_punch s !! try_into_v4 addr);
  match entry with
  | None => bail "Rendezvous TCP recipient is unavailable"
  | Some tx =>
      sent ← try_send tx msg;
      if sent : bool then mret tt else bail "Rendezvous TCP recipient is backpressured"
  end.

Definition send_relay_failure (sink : option ChanId) (reason : string) : M (Server D) bool :=
  send_to_sink sink (MRelayResponse (relay_refusal reason)).

Definition health_check_response : Union :=
  MRegisterPkResponse (mkRegisterPkResponse OK HC_KEEP_ALIVE_SECS).

Definition start_health_check_keepalive (sink : option ChanId) : M (Server D) unit :=
  match sink with Some tx => modify (add_keepalive tx) | None => mret tt end.

(** One tick of the spawned task: whether it goes on. *)
Definition keepalive_tick (tx : ChanId) : M (Server D) bool := try_send tx health_check_response.

(** *** Helpers *)

Definition valid_optional_mangled_addr (b : bytes) : bool :=
  is_empty b || bool_decide (is_Some (mangle_try_decode b)).

Definition strip_untrusted_relay_metadata (rf : RequestRelay) : RequestRelay :=
  mkRequestRelay "" (rf_uuid rf) (rf_socket_addr rf) (rf_relay_server rf) "" "" ""
    None None (rf_rendezvous_token rf) (rf_other rf).

Definition is_lan (rs : Rs) (addr : SocketAddr) : bool :=
  match mask (inner rs) with
  | None => false
  | Some network =>
      match addr with
      | SockV4 ip _ => network ip
      | SockV6 ip _ _ _ => match to_ipv4 ip with Some v4 => network v4 | None => false end
      end
  end.

Definition get_relay_server (rs : Rs) : M (Server D) string :=
  match relay_servers rs with
  | [] => mret ""
  | [server] => mret server
  | servers =>
      n ← state (λ s, (sv_rotation s, set_rotation ((sv_rotation s + 1) mod 2 ^ 64) s));
      mret (default "" (servers !! Z.to_nat (n mod len servers)))
  end.

Definition get_pk (version id : string) : M (Server D) bytes :=
  if str_empty version then mret [] else
  r ← attempt (on_pm (pm_get id));
  match r with
  | Ok (Some peer) => p ← read_peer peer; mret (sign_id_pk id (pk p))
  | Ok None => mret []
  | Err _ => mret []
  end.

Definition reserve (requester' : SocketAddr) (id : string) (k : PendingRendezvousKind)
    (relay : string) : M (Server D) bytes :=
  on_tokens (reserve_pending_rendezvous requester' id k relay).
Definition consume (token : bytes) (id : string) (claimed : bytes)
    (k : option PendingRendezvousKind) : M (Server D) ConsumedRendezvous :=
  on_tokens (consume_pending_rendezvous token id claimed k).
Definition cancel (token : bytes) : M (Server D) unit := on_tokens (cancel_pending token).

(** *** Answers of a device *)

Definition handle_hole_sent (phs : PunchHoleSent) (addr : SocketAddr) (is_udp : bool)
    : M (Server D) unit :=
  if negb (valid_peer_id (phs_id phs)) || (64 <? slen (phs_version phs))
     || (RELAY_SERVER_NAME_MAX_LEN <? slen (phs_relay_server phs))
     || negb (valid_optional_mangled_addr (phs_socket_addr_v6 phs))
  then bail "Rejected malformed punch-hole response" else
  pending ← consume (phs_rendezvous_token phs) (phs_id phs) (phs_socket_addr phs) (Some Direct);
  pk' ← get_pk (phs_version phs) (phs_id phs);
  send_to_tcp (MPunchHoleResponse (mkPunchHoleResponse (mangle_encode addr) pk' None
      (c_relay_server pending) (enum_value (phs_nat_type phs)) false is_udp (phs_socket_addr_v6 phs)))
    (c_requester pending).

Definition handle_local_addr (la : LocalAddr) : M (Server D) unit :=
  if negb (valid_peer_id (la_id la)) || (64 <? slen (la_version la))
     || (RELAY_SERVER_NAME_MAX_LEN <? slen (la_relay_server la))
     || negb (bool_decide (is_Some (mangle_try_decode (la_local_addr la))))
     || negb (valid_optional_mangled_addr (la_socket_addr_v6 la))
  then bail "Rejected malformed local-address response" else
  pending ← consume (la_rendezvous_token la) (la_id la) (la_socket_addr la) (Some Local);
  pk' ← get_pk (la_version la) (la_id la);
  send_to_tcp (MPunchHoleResponse (mkPunchHoleResponse (la_local_addr la) pk' None
      (c_relay_server pending) None true false (la_socket_addr_v6 la)))
    (c_requester pending).

(** *** Requests of a controller *)

Definition same_source (id from : string) (e : PunchReqEntry) : bool :=
  bool_decide (from_ip e = from) && bool_decide (to_id e = id).

(** Lines 1335-1362. *)
Definition log_punch_request (addr peer_addr : SocketAddr) (id : string) : M (Server D) unit :=
  let from := show_ip (sa_ip (try_into_v4 addr)) in
  let to := show_ip (sa_ip (try_into_v4 peer_addr)) in
  log ← gets sv_punch_reqs;
  dup ← match List.find (same_source id from) (take 30 (reverse log)) with
        | Some e => now ← instant_now;
                    mret (as_secs (duration_since now (tm e)) <? PUNCH_REQ_DEDUPE_SEC)
        | None => mret false
        end;
  if dup : bool then mret tt else
  let log := if PUNCH_REQUEST_LOG_CAPACITY <=? len log then tail log else log in
  now ← instant_now;
  modify (set_punch_reqs (log ++ [mkPunchReq now from to id])).

Definition same_ip (a b : SocketAddr) : bool :=
  match a, b with
  | SockV4 a _, SockV4 b _ => bool_decide (a = b)
  | SockV6 a _ _ _, SockV6 b _ _ _ => bool_decide (a = b)
  | _, _ => false
  end.

Definition punch_refused (f : Failure) : Union * option SocketAddr :=
  (MPunchHoleResponse (punch_failure f), None).

Definition malformed_punch_request (ph : PunchHoleRequest) : bool :=
  negb (valid_peer_id (ph_id ph)) || (128 <? slen (ph_licence_key ph)) || (4096 <? slen (ph_token ph))
  || (64 <? slen (ph_version ph)) || (128 <? slen (ph_switch_code ph))
  || negb (valid_optional_mangled_addr (ph_socket_addr_v6 ph)).

(** Lines 1335-1428: the device is online. *)
Definition route_punch_request (rs : Rs) (addr : SocketAddr) (ph : PunchHoleRequest) (ws : bool)
    (peer_addr : SocketAddr) : M (Server D) (Union * option SocketAddr) :=
  log_punch_request addr peer_addr (ph_id ph);;
  let peer_is_lan := is_lan rs peer_addr in
  let lan := is_lan rs addr in
  relay ← get_relay_server rs;
  always ← gets sv_always_use_relay;
  let force := always || xorb peer_is_lan lan in
  let relay := if force && peer_is_lan then local_ip (inner rs) else relay in
  let nat_type := if force then Known SYMMETRIC else ph_nat_type ph in
  let same_intranet := negb (ph_force_relay ph) && negb ws
                       && ((peer_is_lan && lan) || same_ip peer_addr addr) in
  let socket_addr' := mangle_encode addr in
  token ← reserve addr (ph_id ph) (if same_intranet then Local else Direct) relay;
  mret (if same_intranet
        then MFetchLocalAddr (mkFetchLocalAddr socket_addr' relay (ph_socket_addr_v6 ph) token)
        else MPunchHole (mkPunchHole socket_addr' nat_type relay (ph_force_relay ph)
                           (ph_socket_addr_v6 ph) token),
        Some peer_addr).

Definition handle_punch_hole_request (rs : Rs) (addr : SocketAddr) (ph : PunchHoleRequest)
    (key : string) (ws : bool) : M (Server D) (Union * option SocketAddr) :=
  if malformed_punch_request ph then mret (punch_refused ID_NOT_EXIST) else
  if negb (str_empty key) && bool_decide (ph_licence_key ph ≠ key)
  then mret (punch_refused LICENSE_MISMATCH) else
  found ← on_pm (pm_get (ph_id ph));
  match found with
  | None => mret (punch_refused ID_NOT_EXIST)
  | Some peer =>
      r ← read_peer peer;
      now ← instant_now;
      if REG_TIMEOUT <=? as_millis (duration_since now (last_reg_time r))
      then mret (punch_refused OFFLINE)
      else route_punch_request rs addr ph ws (socket_addr r)
  end.

(** The token of a message that waits for an answer. *)
Definition rendezvous_token_of (msg : Union) : option bytes :=
  match msg with
  | MPunchHole m => Some (pun_rendezvous_token m)
  | MFetchLocalAddr m => Some (fla_rendezvous_token m)
  | _ => None
  end.

Definition handle_tcp_punch_hole_request (rs : Rs) (addr : SocketAddr) (ph : PunchHoleRequest)
    (key : string) (ws : bool) : M (Server D) unit :=
  routed ← handle_punch_hole_request rs addr ph key ws;
  match routed.2 with
  | Some peer_addr =>
      sent ← attempt (send_to_tcp_sync routed.1 peer_addr);
      match sent with
      | Ok _ => mret tt
      | Err _ =>
          match rendezvous_token_of routed.1 with Some token => cancel token | None => mret tt end;;
          send_to_tcp_sync (MPunchHoleResponse (punch_failure OFFLINE)) addr
      end
  | None => send_to_tcp_sync routed.1 addr
  end.

Definition malformed_relay_request (rf : RequestRelay) : bool :=
  negb (valid_peer_id (rf_id rf)) || negb (valid_relay_uuid (rf_uuid rf))
  || (128 <? slen (rf_licence_key rf)) || (RELAY_SERVER_NAME_MAX_LEN <? slen (rf_relay_server rf))
  || (4096 <? slen (rf_token rf)) || (128 <? slen (rf_switch_code rf)).

(** What the device receives of a relay request: lines 801-810. *)
Definition relay_request_for_device (addr : SocketAddr) (token : bytes) (relay : string)
    (rf : RequestRelay) : RequestRelay :=
  strip_untrusted_relay_metadata
    (mkRequestRelay (rf_id rf) (rf_uuid rf) (mangle_encode addr) relay (rf_licence_key rf)
       (rf_token rf) (rf_switch_code rf) (rf_control_permissions rf) (rf_controlled_context rf)
       token (rf_other rf)).

Definition handle_request_relay (rs : Rs) (sink : option ChanId) (addr : SocketAddr)
    (rf : RequestRelay) : M (Server D) bool :=
  if malformed_relay_request rf then mret false else
  found ← on_pm (get_in_memory (rf_id rf));
  match found with
  | None => send_relay_failure sink "Peer is offline"
  | Some peer =>
      p ← read_peer peer;
      let peer_addr := socket_addr p in
      now ← instant_now;
      if negb (as_millis (duration_since now (last_reg_time p)) <? REG_TIMEOUT)
      then send_relay_failure sink "Peer is offline" else
      relay ← (if is_lan rs peer_addr then mret (local_ip (inner rs)) else get_relay_server rs);
      token ← attempt (reserve addr (rf_id rf) Relay relay);
      match token with
      | Err _ => send_relay_failure sink "Rendezvous server is busy"
      | Ok token =>
          sent ← attempt (send_to_tcp_sync
                   (MRequestRelay (relay_request_for_device addr token relay rf)) peer_addr);
          match sent with
          | Ok _ => mret true
          | Err _ => cancel token;; send_relay_failure sink "Peer is offline"
          end
      end
  end.

(** [allow_err!]: an error is logged. *)
Definition allow_err {A} (m : M (Server D) A) : M (Server D) unit := attempt m;; mret tt.

Definition handle_relay_response (rr : RelayResponse) : M (Server D) unit :=
  let id := relay_response_id rr in
  if negb (valid_peer_id id) || (negb (str_empty (rr_uuid rr)) && negb (valid_relay_uuid (rr_uuid rr)))
     || (RELAY_SERVER_NAME_MAX_LEN <? slen (rr_relay_server rr)) || (1024 <? slen (rr_refuse_reason rr))
     || (64 <? slen (rr_version rr)) || negb (valid_optional_mangled_addr (rr_socket_addr_v6 rr))
  then mret tt else
  pending ← attempt (consume (rr_rendezvous_token rr) id (rr_socket_addr rr) (Some Relay));
  match pending with
  | Err _ => mret tt
  | Ok pending =>
      pk' ← get_pk (rr_version rr) id;
      let relay := if str_empty (rr_refuse_reason rr) then c_relay_server pending else "" in
      allow_err (send_to_tcp (MRelayResponse (mkRelayResponse [] (rr_uuid rr) relay (RelayPk pk')
          (rr_refuse_reason rr) (rr_version rr) (rr_socket_addr_v6 rr) [] (rr_other rr)))
        (c_requester pending))
  end.

(** *** Online status *)

(** [states[i / 8] |= 0x01 << (7 - i % 8)]. *)
Definition set_online_bit (i : nat) (states : bytes) : bytes :=
  alter (λ b, Z.lor b (Z.shiftl 1 (7 - Z.of_nat (i mod 8)))) (i / 8)%nat states.

Fixpoint online_states (i : nat) (peers : list string) (states : bytes) : M (Server D) bytes :=
  match peers with
  | [] => mret states
  | id :: peers =>
      found ← on_pm (get_in_memory id);
      states ← match found with
               | None => mret states
               | Some peer =>
                   p ← read_peer peer;
                   now ← instant_now;
                   mret (if as_millis (duration_since now (last_reg_time p)) <? REG_TIMEOUT
                         then set_online_bit i states else states)
               end;
      online_states (S i) peers states
  end.

(** [peers.len().div_ceil(8)] zero bytes to start with. *)
Definition build_online_response (peers : list string) : M (Server D) Union :=
  states ← online_states 0 peers (replicate ((length peers + 7) / 8) 0);
  mret (MOnlineResponse states).

(** *** Dispatch *)

Definition config_update (rs : Rs) : ConfigUpdate :=
  mkConfigUpdate (serial (inner rs)) (rendezvous_servers rs).

(** Lines 702-727. *)
Definition handle_register_peer (rs : Rs) (sink : option ChanId) (addr : SocketAddr)
    (rp : RegisterPeer) : M (Server D) bool :=
  if negb (valid_peer_id (rp_id rp)) then mret true else
  cache_sink addr sink;;
  r ← attempt (on_reg (register_peer_common (inner rs) (rendezvous_servers rs) rp addr));
  match r with
  | Err _ => mret false
  | Ok (resp, cu) =>
      sent ← send_to_sink sink (MRegisterPeerResponse resp);
      if negb sent then mret false else
      match cu with
      | None => mret true
      | Some cu => send_to_sink sink (MConfigUpdate cu)
      end
  end.

(** Lines 730-748. *)
Definition handle_register_pk (rs : Rs) (api : Api) (sink : option ChanId) (addr : SocketAddr)
    (rk : RegisterPk) : M (Server D) bool :=
  cache_sink addr sink;;
  r ← attempt (on_reg (register_pk_common (inner rs) (api_post api) rk addr));
  match r with
  | Ok (Some res) => send_to_sink sink (MRegisterPkResponse (mkRegisterPkResponse res 0))
  | Ok None => mret true
  | Err _ => mret false
  end.

(** Lines 894-929. *)
Definition handle_http_proxy (rs : Rs) (api : Api) (sink : option ChanId) (addr : SocketAddr)
    (key : string) (req : HttpProxyRequest) : M (Server D) bool :=
  resp ←
    (if negb (http_proxy_authorized true key (hp_licence_key req))
     then mret (proxy_error 403 "API proxy authorization failed")
     else
       allowed ← on_proxy (allow_http_proxy_request (sa_ip addr));
       if negb allowed then mret (proxy_error 429 "API proxy rate limit exceeded") else
       slots ← gets sv_proxy_slots;
       if slots <=? 0 then mret (proxy_error 503 "API proxy is busy") else
       match handle_http_proxy_request (api_send api) (api_server (inner rs)) req (sa_ip addr) with
       | Ok resp => mret resp
       | Err _ => mret (proxy_error 502 "API upstream request failed")
       end);
  send_to_sink sink (MHttpProxyResponse resp).

(** Lines 868-882: the connection ends after the answer. *)
Definition handle_test_nat_request (rs : Rs) (sink : option ChanId) (addr : SocketAddr)
    (tar : TestNatRequest) : M (Server D) bool :=
  let cu := if tar_serial tar <? serial (inner rs) then Some (config_update rs) else None in
  send_to_sink sink (MTestNatResponse (mkTestNatResponse (sa_port addr) cu));; mret false.

(** Lines 885-891. *)
Definition handle_online_query (sink : option ChanId) (peers : list string) : M (Server D) bool :=
  if (ONLINE_QUERY_MAX_PEERS <? len peers) || negb (forallb valid_peer_id peers)
  then mret false
  else msg ← build_online_response peers; send_to_sink sink msg.

(** Lines 932-940. *)
Definition handle_health_check (sink : option ChanId) (started : bool) (token : string)
    : M (Server D) (bool * bool) :=
  if str_empty token || (256 <? slen token) then mret (true, started)
  else if started then mret (true, true)
  else start_health_check_keepalive sink;; mret (true, true).

(** One message of a connection: whether the connection goes on, and whether
    its keep-alive has been started. *)
Definition handle_tcp_msg (rs : Rs) (api : Api) (msg_in : RendezvousMessage) (sink : option ChanId)
    (health_keepalive_started : bool) (addr : SocketAddr) (key : string) (ws : bool)
    : M (Server D) (bool * bool) :=
  let go (m : M (Server D) bool) : M (Server D) (bool * bool) :=
    b ← m; mret (b, health_keepalive_started) in
  match msg_in with
  | Some (MRegisterPeer rp) => go (handle_register_peer rs sink addr rp)
  | Some (MRegisterPk rk) => go (handle_register_pk rs api sink addr rk)
  | Some (MPunchHoleRequest ph) =>
      go (r ← attempt (handle_tcp_punch_hole_request rs addr ph key ws); mret (is_ok r))
  | Some (MRequestRelay rf) => go (handle_request_relay rs sink addr rf)
  | Some (MRelayResponse rr) => go (handle_relay_response rr;; mret false)
  | Some (MPunchHoleSent phs) => go (allow_err (handle_hole_sent phs addr false);; mret false)
  | Some (MLocalAddr la) => go (allow_err (handle_local_addr la);; mret false)
  | Some (MTestNatRequest tar) => go (handle_test_nat_request rs sink addr tar)
  | Some (MOnlineRequest peers) => go (handle_online_query sink peers)
  | Some (MHttpProxyRequest req) => go (handle_http_proxy rs api sink addr key req)
  | Some (MHc token) => handle_health_check sink health_keepalive_started token
  | Some (MKeyExchange _) => mret (true, health_keepalive_started)
  | _ => mret (false, health_keepalive_started)
  end.

(** One datagram; a datagram that does not parse is [None]. *)
Definition handle_udp (msg_in : RendezvousMessage) (addr : SocketAddr) : M (Server D) unit :=
  match msg_in with
  | Some (MPunchHoleSent phs) => allow_err (handle_hole_sent phs addr true)
  | _ => mret tt
  end.

(** *** The life of a connection *)

(** After the handshake: a new channel, cached under the client's address. *)
Definition open_connection (addr : SocketAddr) : M (Server D) ChanId := λ s,
  let c := fresh (dom (sv_chans s)) in
  (Ok c, set_tcp_punch (<[try_into_v4 addr := c]> (sv_tcp_punch s))
           (set_chans (<[c := mkChannel [] true]> (sv_chans s)) s)).

(** [rx.recv()]: the connection sends its oldest message. *)
Definition next_message (c : ChanId) : M (Server D) (option Union) :=
  state (λ s,
    match sv_chans s !! c with
    | Some (mkChannel (m :: q) o) => (Some m, set_chans (<[c := mkChannel q o]> (sv_chans s)) s)
    | _ => (None, s)
    end).

(** The end of the task that sends a WebSocket connection's messages: the receiver
    is dropped while the connection goes on reading. *)
Definition drop_receiver (c : ChanId) : M (Server D) unit :=
  modify (λ s, set_chans (alter (λ ch, mkChannel (ch_queue ch) false) c (sv_chans s)) s).

(** Lines 2467-2475: the entry goes only if it is still this connection's; then
    the receiver is dropped. *)
Definition close_connection (c : ChanId) (addr : SocketAddr) : M (Server D) unit :=
  modify (λ s,
    let key := try_into_v4 addr in
    let s := if bool_decide (sv_tcp_punch s !! key = Some c)
             then set_tcp_punch (delete key (sv_tcp_punch s)) s else s in
    set_chans (alter (λ ch, mkChannel (ch_queue ch) false) c (sv_chans s)) s).
End Server.

(** ** Lemmas: the parts of the state *)

Section ServerLemmas.
Context {D : Type} `{!PeerStore D} `{X : !Externals} `{R : !Entropy} `{H : !HttpLibrary}.
Implicit Types s : Server D.

Lemma wp_on_reg {A} (m : M (RegState D) A) (Q : result A → Server D → Prop) s :
  wp m (λ r g, Q r (set_reg g s)) (sv_reg s) → wp (on_reg m) Q s.
Proof. apply wp_zoom. Qed.

Lemma wp_on_pm {A} (m : M (PeerMap D) A) (Q : result A → Server D → Prop) s :
  wp m (λ r pm, Q r (set_reg (set_pm pm (sv_reg s)) s)) (rs_pm (sv_reg s)) → wp (on_pm m) Q s.
Proof. intros Hm. by apply wp_on_reg, wp_zoom. Qed.

Definition tokens_of s : Rendezvous := mkRendezvous (sv_clock s) (sv_pending s) (sv_draws s).

Lemma wp_on_tokens {A} (m : M Rendezvous A) (Q : result A → Server D → Prop) s :
  wp m (λ r z, Q r (set_tokens (rz_pending z) (rz_draws z) (set_sv_clock (rz_clock z) s))) (tokens_of s) →
  wp (on_tokens m) Q s.
Proof. intros Hm. unfold on_tokens. by apply wp_zoom. Qed.

Lemma wp_on_proxy {A} (m : M Proxy A) (Q : result A → Server D → Prop) s :
  wp m (λ r p, Q r (set_proxy_rates (px_rates p) (set_sv_clock (px_clock p) s)))
    (mkProxy (sv_clock s) (sv_rates s)) →
  wp (on_proxy m) Q s.
Proof. intros Hm. unfold on_proxy. by apply wp_zoom. Qed.

Lemma wp_read_peer l p (Q : result Peer → Server D → Prop) s :
  pm_heap (rs_pm (sv_reg s)) !! l = Some p → Q (Ok p) s → wp (read_peer l) Q s.
Proof. intros Hl HQ. apply wp_bind, wp_gets, wp_lift. by rewrite Hl. Qed.

Definition push (c : ChanId) (msg : Union) s : Server D :=
  set_chans (alter (λ ch, mkChannel (ch_queue ch ++ [msg]) true) c (sv_chans s)) s.

(** A message is queued whole, or the state does not change. *)
Lemma wp_try_send c msg (Q : result bool → Server D → Prop) s :
  (∀ ch, sv_chans s !! c = Some ch → ch_open ch = true →
     len (ch_queue ch) < RENDEZVOUS_CONNECTION_QUEUE_CAPACITY → Q (Ok true) (push c msg s)) →
  Q (Ok false) s → wp (try_send c msg) Q s.
Proof.
  intros Hsent Hnot. apply wp_state. destruct (sv_chans s !! c) as [ch|] eqn:Hc; [|done].
  destruct (_ && _) eqn:Hroom; [|done]. reflect_bools. unfold push in Hsent.
  simpl.
  assert (alter (λ ch, mkChannel (ch_queue ch ++ [msg]) true) c (sv_chans s)
    = <[c := mkChannel (ch_queue ch ++ [msg]) true]> (sv_chans s)) as Heq.
  { apply map_eq. intros i. destruct (decide (i = c)) as [->|Hne].
    - by rewrite lookup_alter_eq, Hc, lookup_insert_eq.
    - by rewrite lookup_alter_ne, lookup_insert_ne. }
  rewrite <-Heq. by apply (Hsent ch).
Qed.

Lemma wp_send_to_sink sink msg (Q : result bool → Server D → Prop) s :
  (∀ c ch, sink = Some c → sv_chans s !! c = Some ch → Q (Ok true) (push c msg s)) → Q (Ok false) s →
  wp (send_to_sink sink msg) Q s.
Proof.
  intros Hsent Hnot. destruct sink as [c|]; [|by apply wp_ret].
  apply wp_try_send; [|done]. intros. by eapply Hsent.
Qed.

Lemma wp_send_to_tcp_sync msg addr (Q : result unit → Server D → Prop) s :
  (∀ c ch, sv_tcp_punch s !! try_into_v4 addr = Some c → sv_chans s !! c = Some ch →
     Q (Ok tt) (push c msg s)) →
  (∀ e, Q (Err e) s) → wp (send_to_tcp_sync msg addr) Q s.
Proof.
  intros Hsent Hnot. apply wp_bind, wp_gets.
  destruct (sv_tcp_punch s !! try_into_v4 addr) as [c|]; [|by apply wp_bail].
  apply wp_bind, wp_try_send; [|by apply wp_bail]. intros. apply wp_ret. by eapply Hsent.
Qed.

Definition forget_sink (addr : SocketAddr) s : Server D :=
  set_tcp_punch (delete (try_into_v4 addr) (sv_tcp_punch s)) s.

Lemma wp_send_to_tcp msg addr (Q : result unit → Server D → Prop) s :
  (∀ c ch, sv_tcp_punch s !! try_into_v4 addr = Some c → sv_chans s !! c = Some ch →
     Q (Ok tt) (push c msg (forget_sink addr s))) →
  (∀ e, Q (Err e) (forget_sink addr s)) → wp (send_to_tcp msg addr) Q s.
Proof.
  intros Hsent Hnot. apply wp_bind, wp_gets, wp_bind, wp_modify, wp_bind.
  apply wp_send_to_sink; [|by apply wp_bail]. intros c ch Hc Hch. apply wp_ret. by eapply Hsent.
Qed.

Lemma wp_get_relay_server rs (Q : result string → Server D → Prop) s :
  (∀ relay n, relay ∈ relay_servers rs ∨ relay = "" ∧ relay_servers rs = [] →
     Q (Ok relay) (set_rotation n s)) →
  wp (get_relay_server rs) Q s.
Proof.
  intros HQ. assert (set_rotation (sv_rotation s) s = s) as Hsame by (by destruct s).
  unfold get_relay_server. destruct (relay_servers rs) as [|a [|b l]] eqn:Hl.
  - apply wp_ret. rewrite <-Hsame. apply HQ. by right.
  - apply wp_ret. rewrite <-Hsame. apply HQ. left. by left.
  - apply wp_bind, wp_state, wp_ret. apply HQ. left.
    set (i := Z.to_nat _). assert (i < length (a :: b :: l))%nat as Hi.
    { unfold i, len. pose proof (Z.mod_pos_bound (sv_rotation s) (Z.of_nat (length (a :: b :: l)))).
      simpl in *. lia. }
    apply lookup_lt_is_Some in Hi as [x Hx]. rewrite Hx. simpl. by eapply list_elem_of_lookup_2.
Qed.
(** The log never grows past its capacity. *)
Lemma wp_log_punch addr peer_addr id s (Q : result unit → Server D → Prop) :
  (∀ l c, (len (sv_punch_reqs s) ≤ PUNCH_REQUEST_LOG_CAPACITY → len l ≤ PUNCH_REQUEST_LOG_CAPACITY) →
     Q (Ok tt) (set_punch_reqs l (set_sv_clock c s))) →
  wp (log_punch_request addr peer_addr id) Q s.
Proof.
  intros HQ. apply wp_bind, wp_gets, wp_bind.
  assert (∀ c dup, wp (if dup : bool then mret tt else
        now ← instant_now;
        modify (set_punch_reqs ((if PUNCH_REQUEST_LOG_CAPACITY <=? len (sv_punch_reqs s)
            then tail (sv_punch_reqs s) else sv_punch_reqs s) ++
          [mkPunchReq now (show_ip (sa_ip (try_into_v4 addr))) (show_ip (sa_ip (try_into_v4 peer_addr))) id])))
      Q (set_sv_clock c s)) as Hrest.
  { intros c dup. destruct dup.
    - apply wp_ret. by apply (HQ (sv_punch_reqs s) c).
    - apply wp_bind, wp_instant_now. intros t c2 _ _ _. apply wp_modify. apply (HQ _ c2).
      intros Hlog. unfold len in *. rewrite length_app. simpl.
      destruct (_ <=? _) eqn:Hfull; reflect_bools; [|lia].
      destruct (sv_punch_reqs s) as [|e l] eqn:E; simpl in *; unfold PUNCH_REQUEST_LOG_CAPACITY in *; lia. }
  destruct (List.find _ _) as [e|].
  - apply wp_bind, wp_instant_now. intros t c _ _ _. apply wp_ret, Hrest.
  - apply wp_ret. assert (set_sv_clock (sv_clock s) s = s) as Hs.
    { destruct s as [[pm tr]]. by destruct pm. }
    pose proof (Hrest (sv_clock s) false) as Hr. by rewrite Hs in Hr.
Qed.
End ServerLemmas.

(** ** The invariant of the server *)

Record server_wf `{!PeerStore D} `{X : !Externals} (i : Inner) (s : Server D) : Prop := {
  sw_reg : reg_wf i (sv_reg s) ∅;
  sw_pending : mlen (sv_pending s) ≤ PENDING_RENDEZVOUS_CAPACITY;
  sw_rates : rates_wf (sv_rates s);
  sw_queues : ∀ c ch, sv_chans s !! c = Some ch →
    len (ch_queue ch) ≤ RENDEZVOUS_CONNECTION_QUEUE_CAPACITY;
  sw_log : len (sv_punch_reqs s) ≤ PUNCH_REQUEST_LOG_CAPACITY
}.

Section WfLemmas.
Context {D : Type} `{!PeerStore D} `{X : !Externals} `{L : !ExternalLaws X}
  `{R : !Entropy} `{H : !HttpLibrary}.
Context (i : Inner).
Implicit Types s : Server D.
Implicit Types rs : Rs.

(** [m] keeps the invariant, from every state that has it. *)
Definition safe {A} (m : M (Server D) A) : Prop :=
  ∀ s, server_wf i s → wp m (λ _ s', server_wf i s') s.

Lemma safe_ret {A} (a : A) : safe (mret a).
Proof. intros s Hs. by apply wp_ret. Qed.
Lemma safe_bail {A} e : safe (bail e : M _ A).
Proof. intros s Hs. by apply wp_bail. Qed.
Lemma safe_lift {A} (r : result A) : safe (lift r).
Proof. intros s Hs. by apply wp_lift. Qed.
Lemma safe_gets {A} (f : Server D → A) : safe (gets f).
Proof. intros s Hs. by apply wp_gets. Qed.
Lemma safe_bind {A B} (m : M _ A) (f : A → M _ B) : safe m → (∀ a, safe (f a)) → safe (m ≫= f).
Proof.
  intros Hm Hf s Hs. apply wp_bind. eapply wp_mono; [|by apply Hm].
  intros [a|e] s' Hs'; [by apply Hf|done].
Qed.
Lemma safe_attempt {A} (m : M _ A) : safe m → safe (attempt m).
Proof. intros Hm s Hs. apply wp_attempt. by apply Hm. Qed.
Lemma safe_modify f : (∀ s, server_wf i s → server_wf i (f s)) → safe (modify f).
Proof. intros Hf s Hs. by apply wp_modify, Hf. Qed.

Lemma clock_safe c s : server_wf i s → server_wf i (set_sv_clock c s).
Proof. intros [S1 S2 S3 S4 S5]. split; try done. by apply (clock_wf i (sv_reg s)). Qed.

Lemma safe_now : safe instant_now.
Proof. intros s Hs. apply wp_instant_now. intros t c _ _ _. by apply clock_safe. Qed.

Lemma safe_push c msg s ch :
  server_wf i s → sv_chans s !! c = Some ch →
  len (ch_queue ch) < RENDEZVOUS_CONNECTION_QUEUE_CAPACITY → server_wf i (push c msg s).
Proof.
  intros [S1 S2 S3 S4 S5] Hc Hlen. split; try done. simpl. intros c' ch'.
  destruct (decide (c' = c)) as [->|Hne]; [|rewrite lookup_alter_ne by done; apply S4].
  rewrite lookup_alter_eq, Hc. intros [= <-]. simpl. unfold len in *. rewrite length_app. simpl. lia.
Qed.

Lemma safe_try_send c msg : safe (try_send c msg).
Proof. intros s Hs. apply wp_try_send; [|done]. intros. by eapply safe_push. Qed.

Lemma safe_set_tcp_punch f : safe (modify (λ s, set_tcp_punch (f s) s)).
Proof. apply safe_modify. by intros s [S1 S2 S3 S4 S5]. Qed.

Lemma safe_add_keepalive c : safe (modify (add_keepalive c)).
Proof. apply safe_modify. by intros s [S1 S2 S3 S4 S5]. Qed.

Lemma safe_on_pm {A} (m : M (PeerMap D) A) :
  (∀ pm, pm_wf pm → ps_ok (pm_db pm) → wp m (λ _ pm', lookup_frame from_json pm pm') pm) → safe (on_pm m).
Proof.
  intros Hm s [S1 S2 S3 S4 S5]. apply wp_on_pm. eapply wp_mono; [|apply Hm; apply S1].
  intros r pm' Hf. split; try done. simpl. by apply (evolves_wf i (sv_reg s)), lookup_evolves.
Qed.

Lemma safe_pm_get id : safe (on_pm (pm_get id)).
Proof. apply safe_on_pm. intros. eapply wp_mono; [|by apply wp_get_frame]. by intros ?? [? _]. Qed.
Lemma safe_get_in_memory id : safe (on_pm (get_in_memory id)).
Proof.
  apply safe_on_pm. intros. eapply wp_mono; [|by apply (wp_get_in_memory_frame from_json)]. by intros ?? [? _].
Qed.

Lemma safe_reserve q id k relay : safe (reserve q id k relay).
Proof.
  intros s [S1 S2 S3 S4 S5]. apply wp_on_tokens, wp_reserve.
  intros o z (_ & m & [Hsub _] & Ho). simpl in Hsub. pose proof (mlen_subseteq _ _ Hsub).
  split; try done; [by apply (clock_wf i (sv_reg s))|]. simpl. destruct o as [t|e].
  - destruct Ho as (Hfree & Hlt & _ & ->). rewrite mlen_insert_new by done. lia.
  - rewrite Ho. lia.
Qed.

Lemma safe_consume t id q k : safe (consume t id q k).
Proof.
  intros s [S1 S2 S3 S4 S5]. apply wp_on_tokens, wp_consume. intros r z _ Hr.
  split; try done; [by apply (clock_wf i (sv_reg s))|]. simpl in *. destruct r as [c|e].
  - destruct Hr as (a & _ & _ & Hin). apply consume_in_ok in Hin as (en & _ & _ & -> & _).
    pose proof (mlen_delete_le (sv_pending s) t). lia.
  - destruct Hr as [-> | ->]; [done|]. pose proof (mlen_delete_le (sv_pending s) t). lia.
Qed.

Lemma safe_cancel t : safe (cancel t).
Proof.
  intros s [S1 S2 S3 S4 S5]. apply wp_on_tokens, wp_modify. split; try done; simpl.
  - by apply (clock_wf i (sv_reg s)).
  - pose proof (mlen_delete_le (sv_pending s) t). lia.
Qed.

Lemma safe_allow_http_proxy ip : safe (on_proxy (allow_http_proxy_request ip)).
Proof.
  intros s [S1 S2 S3 S4 S5]. apply wp_on_proxy, wp_allow_http_proxy; [apply S3|].
  intros ok p Hstep. split; try done; simpl; [by apply (clock_wf i (sv_reg s))|].
  by eapply (proxy_step_wf (mkProxy (sv_clock s) (sv_rates s))).
Qed.

Lemma safe_get_relay_server rs : safe (get_relay_server rs).
Proof. intros s [S1 S2 S3 S4 S5]. apply wp_get_relay_server. by intros relay n _. Qed.

Lemma safe_register_peer servers rp addr : safe (on_reg (register_peer_common i servers rp addr)).
Proof.
  intros s [S1 S2 S3 S4 S5]. apply wp_on_reg. eapply wp_mono; [|by apply wp_register_peer_wf].
  intros r g Hg. by split.
Qed.

Lemma safe_register_pk post rk addr : safe (on_reg (register_pk_common i post rk addr)).
Proof.
  intros s [S1 S2 S3 S4 S5]. apply wp_on_reg. eapply wp_mono; [|by apply wp_register_pk_common].
  intros r g [Hg _]. by split.
Qed.

Lemma safe_log_punch addr peer_addr id : safe (log_punch_request addr peer_addr id).
Proof.
  intros s [S1 S2 S3 S4 S5]. apply wp_log_punch. intros l c Hl. split; try done; simpl.
  - by apply (clock_wf i (sv_reg s)).
  - by apply Hl.
Qed.
End WfLemmas.

Create HintDb safe.
#[export] Hint Resolve safe_ret safe_bail safe_lift safe_gets safe_attempt safe_now safe_try_send
  safe_set_tcp_punch safe_add_keepalive safe_pm_get safe_get_in_memory safe_reserve safe_consume safe_cancel
  safe_allow_http_proxy safe_get_relay_server safe_register_peer safe_register_pk safe_log_punch : safe.

(** Walk through a handler, one construct at a time. *)
Ltac safety :=
  repeat (
    lazymatch goal with
    | |- safe _ (_ ≫= _) => apply safe_bind
    | |- safe _ (attempt _) => apply safe_attempt
    | |- safe _ (match ?x with _ => _ end) => destruct x
    | |- ∀ _, safe _ _ => intros ?
    | |- safe _ _ => solve [eauto with safe]
    end; cbn beta zeta).

Section Handlers.
Context {D : Type} `{!PeerStore D} `{X : !Externals} `{L : !ExternalLaws X}
  `{R : !Entropy} `{H : !HttpLibrary}.
Context (i : Inner).
Implicit Types rs : Rs.

Lemma safe_read_peer l : safe (D := D) i (read_peer l).
Proof. unfold read_peer. safety. Qed.
Lemma safe_send_to_sink sink msg : safe (D := D) i (send_to_sink sink msg).
Proof. unfold send_to_sink. safety. Qed.
Lemma safe_send_to_tcp msg addr : safe (D := D) i (send_to_tcp msg addr).
Proof. unfold send_to_tcp, send_to_sink. safety. Qed.
Lemma safe_send_to_tcp_sync msg addr : safe (D := D) i (send_to_tcp_sync msg addr).
Proof. unfold send_to_tcp_sync. safety. Qed.
Lemma safe_cache_sink addr sink : safe (D := D) i (cache_sink addr sink).
Proof. unfold cache_sink. safety. Qed.
Hint Resolve safe_read_peer safe_send_to_sink safe_send_to_tcp safe_send_to_tcp_sync safe_cache_sink : safe.
Lemma safe_get_pk version id : safe (D := D) i (get_pk version id).
Proof. unfold get_pk. safety. Qed.
Hint Resolve safe_get_pk : safe.
Lemma safe_hole_sent phs addr udp : safe (D := D) i (handle_hole_sent phs addr udp).
Proof. unfold handle_hole_sent. safety. Qed.
Lemma safe_local_addr la : safe (D := D) i (handle_local_addr la).
Proof. unfold handle_local_addr. safety. Qed.
Lemma safe_tcp_punch rs addr ph key ws : safe (D := D) i (handle_tcp_punch_hole_request rs addr ph key ws).
Proof.
  unfold handle_tcp_punch_hole_request, handle_punch_hole_request, route_punch_request. safety.
Qed.
Lemma safe_request_relay rs sink addr rf : safe (D := D) i (handle_request_relay rs sink addr rf).
Proof. unfold handle_request_relay, send_relay_failure. safety. Qed.
Lemma safe_relay_response rr : safe (D := D) i (handle_relay_response rr).
Proof. unfold handle_relay_response, allow_err. safety. Qed.
Lemma safe_online n peers states : safe (D := D) i (online_states n peers states).
Proof. revert n states. induction peers as [|id peers IH]; intros n states; simpl; safety. Qed.
Hint Resolve safe_hole_sent safe_local_addr safe_tcp_punch safe_request_relay safe_relay_response
  safe_online : safe.

Lemma safe_tcp_msg rs api msg sink started addr key ws :
  inner rs = i → safe (D := D) i (handle_tcp_msg rs api msg sink started addr key ws).
Proof.
  intros Hi. unfold handle_tcp_msg, handle_register_peer, handle_register_pk, handle_http_proxy,
    handle_test_nat_request, handle_online_query, handle_health_check, allow_err,
    build_online_response, start_health_check_keepalive. rewrite Hi.
  destruct msg as [[]|]; safety.
Qed.

Lemma safe_udp msg addr : safe (D := D) i (handle_udp msg addr).
Proof. unfold handle_udp, allow_err. destruct msg as [[]|]; safety. Qed.

Lemma safe_open addr : safe (D := D) i (open_connection addr).
Proof.
  intros s [S1 S2 S3 S4 S5]. apply Build_server_wf; [done..| |done]. simpl.
  intros c ch [[_ <-]|[_ Hc]]%lookup_insert_Some; [by vm_compute|by apply (S4 c)].
Qed.

Lemma safe_next c : safe (D := D) i (next_message c).
Proof.
  intros s [S1 S2 S3 S4 S5]. apply wp_state. destruct (sv_chans s !! c) as [[[|m q] o]|] eqn:Hc;
    [by split| |by split].
  apply Build_server_wf; [done..| |done]. simpl. intros c' ch [[_ <-]|[_ Hc']]%lookup_insert_Some; [|by apply (S4 c')].
  pose proof (S4 c _ Hc) as Hlen. unfold len in *. simpl in *. lia.
Qed.

Lemma safe_drop c : safe (D := D) i (drop_receiver c).
Proof.
  intros s [S1 S2 S3 S4 S5]. apply wp_modify.
  apply Build_server_wf; [done..| |done]. simpl. intros c' ch Hc'.
  destruct (decide (c' = c)) as [->|Hne].
  - rewrite lookup_alter_eq in Hc'. destruct (sv_chans s !! c) as [ch0|] eqn:Hc0; [|done].
    injection Hc' as <-. by apply (S4 c ch0).
  - rewrite lookup_alter_ne in Hc' by done. by apply (S4 c').
Qed.

Lemma safe_close c addr : safe (D := D) i (close_connection c addr).
Proof.
  intros s Hs. apply wp_modify. cbn zeta.
  set (s1 := if bool_decide _ then _ else s).
  apply (safe_drop c s1). destruct Hs. unfold s1. by case_bool_decide.
Qed.
End Handlers.

(** ** The server as a whole *)

Section Steps.
Context {D : Type} `{!PeerStore D} `{X : !Externals} `{R : !Entropy} `{H : !HttpLibrary}.
Context (i : Inner).

(** What happens to the server, one whole event at a time: a connection opens,
    sends a message, has one sent to it, or closes; a datagram; a tick of a
    keep-alive task; the periodic cleanup; the clock. *)
Inductive server_step : Server D → Server D → Prop :=
  | srv_open s addr : server_step s (open_connection addr s).2
  | srv_message s rs api msg sink started addr key ws :
      inner rs = i → server_step s (handle_tcp_msg rs api msg sink started addr key ws s).2
  | srv_datagram s msg addr : server_step s (handle_udp msg addr s).2
  | srv_next s c : server_step s (next_message c s).2
  | srv_close s c addr : server_step s (close_connection c addr s).2
  | srv_drop s c : server_step s (drop_receiver c s).2
  | srv_keepalive s c : c ∈ sv_keepalives s → server_step s (keepalive_tick c s).2
  | srv_evict s idle : server_step s (on_pm (evict_inactive idle) s).2
  | srv_clock s c : ck_now (sv_clock s) ≤ ck_now c → server_step s (set_sv_clock c s).
End Steps.

(** ** Theorems: the server *)

(** Whatever the clients send, over any number of connections and messages,
    the server keeps its invariant: registrations stay coherent, at most 10000
    answers are pending, at most 4096 addresses are rate-limited, no connection
    has more than 64 messages queued, and the punch log has at most 10000
    entries. *)
Theorem server_invariant {D} `{!PeerStore D} `{X : !Externals} `{L : !ExternalLaws X}
    `{R : !Entropy} `{H : !HttpLibrary} i (s s' : Server D) :
  server_wf i s → rtc (server_step i) s s' → server_wf i s'.
Proof.
  intros Hwf Hsteps. induction Hsteps as [|s s1 s' Hstep _ IH]; [done|]. apply IH. clear IH.
  destruct Hstep as [s addr|s rs api msg sink started addr key ws Hi|s msg addr|s c|s c addr|s c|s c _|s idle|s c _].
  - by apply (safe_open i addr).
  - by apply (safe_tcp_msg i rs api msg sink started addr key ws Hi).
  - by apply (safe_udp i msg addr).
  - by apply (safe_next i c).
  - by apply (safe_close i c addr).
  - by apply (safe_drop i c).
  - by apply (safe_try_send i c health_check_response).
  - apply (safe_on_pm i (evict_inactive idle)); [|done]. intros pm Hpm Hok.
    eapply wp_mono; [|by apply (wp_evict_frame from_json)]. done.
  - by apply clock_safe.
Qed.


(** ** What a handler sends *)

(** Every queue is its old content followed by new messages that satisfy [P]. *)
Definition only_sends {D} (P : ChanId → Union → Prop) (s s' : Server D) : Prop :=
  ∀ c, match sv_chans s !! c, sv_chans s' !! c with
       | Some ch, Some ch' => ∃ msgs, ch_queue ch' = ch_queue ch ++ msgs ∧ ∀ m, m ∈ msgs → P c m
       | None, None => True
       | _, _ => False
       end.

Section Sends.
Context {D : Type} `{!PeerStore D} `{X : !Externals} `{L : !ExternalLaws X} `{R : !Entropy}.
Implicit Types s : Server D.

Lemma sends_nothing P s s' : sv_chans s' = sv_chans s → only_sends P s s'.
Proof.
  intros Heq c. rewrite Heq. destruct (sv_chans s !! c) as [ch|]; [|done]. exists []. rewrite app_nil_r.
  split; [done|]. intros m Hm. by apply elem_of_nil in Hm.
Qed.

Lemma sends_push (P : ChanId → Union → Prop) c m s s' :
  P c m → sv_chans s' = alter (λ ch, mkChannel (ch_queue ch ++ [m]) true) c (sv_chans s) →
  only_sends P s s'.
Proof.
  intros HP Heq c'. rewrite Heq. destruct (decide (c' = c)) as [->|Hne].
  - rewrite lookup_alter_eq. destruct (sv_chans s !! c) as [ch|]; [|done]. exists [m].
    split; [done|]. by intros m' ->%list_elem_of_singleton.
  - rewrite lookup_alter_ne by done. destruct (sv_chans s !! c') as [ch|]; [|done]. exists [].
    rewrite app_nil_r. split; [done|]. intros m' Hm. by apply elem_of_nil in Hm.
Qed.

Lemma push_queued c m s ch :
  sv_chans s !! c = Some ch → ∃ ch', sv_chans (push c m s) !! c = Some ch' ∧ m ∈ ch_queue ch'.
Proof.
  intros Hc. eexists. simpl. rewrite lookup_alter_eq, Hc. split; [done|]. simpl.
  apply elem_of_app. right. by apply list_elem_of_singleton.
Qed.

Lemma wp_reserve_token q id k relay (Q : result bytes → Server D → Prop) s :
  (∀ m c n, m ⊆ sv_pending s →
     (∀ e, Q (Err e) (set_tokens m n (set_sv_clock c s))) ∧
     (∀ token, len token = RENDEZVOUS_TOKEN_LEN → m !! token = None →
        (∀ e, sv_pending s !! token = Some e → pending_live (ck_now c) e = false) →
        Q (Ok token) (set_tokens (<[token := mkPending (try_into_v4 q) id k relay (ck_now c)]> m) n
                        (set_sv_clock c s)))) →
  wp (reserve q id k relay) Q s.
Proof.
  intros HQ. apply wp_on_tokens, wp_reserve. intros o z (_ & m & [Hsub Hlive] & Ho). simpl in Hsub, Hlive.
  destruct (HQ m (rz_clock z) (rz_draws z) Hsub) as [He Ht]. destruct o as [token|e].
  - destruct Ho as (Hfree & _ & Hlen & ->). apply Ht; [done..|]. intros e He'.
    apply not_true_iff_false. intros Hl. destruct (Hlive token e He') as [Hkeep _]. by rewrite Hkeep in Hfree.
  - rewrite Ho. apply He.
Qed.

Lemma wp_cancel_token token (Q : result unit → Server D → Prop) s :
  Q (Ok tt) (set_tokens (delete token (sv_pending s)) (sv_draws s) (set_sv_clock (sv_clock s) s)) →
  wp (cancel token) Q s.
Proof. intros HQ. by apply wp_on_tokens, wp_modify. Qed.

(** A lookup of a device, and the peer it reads. *)
Lemma wp_find_peer (find : M (PeerMap D) (option LockPeer)) id (Q : result (option LockPeer) → Server D → Prop) s :
  (∀ pm, pm_wf pm → ps_ok (pm_db pm) → wp find (λ r pm', lookup_frame from_json pm pm' ∧
     ∀ l, r = Ok (Some l) → pm_map pm' !! id = Some l) pm) →
  pm_wf (rs_pm (sv_reg s)) → ps_ok (pm_db (rs_pm (sv_reg s))) →
  (∀ l p pm', pm_map pm' !! id = Some l → pm_heap pm' !! l = Some p →
     Q (Ok (Some l)) (set_reg (set_pm pm' (sv_reg s)) s)) →
  (∀ r pm', (∀ l, r ≠ Ok (Some l)) → Q r (set_reg (set_pm pm' (sv_reg s)) s)) →
  wp (on_pm find) Q s.
Proof.
  intros Hfind Hwf Hok HQ Hno. apply wp_on_pm. eapply wp_mono; [|by apply Hfind].
  intros [[l|]|e] pm' [Hf Hl]; [|by apply Hno..]. specialize (Hl l eq_refl).
  destruct (pm_alloc pm' (lf_wf _ _ _ Hf) id l Hl) as [p Hp]. by eapply HQ.
Qed.
End Sends.

(** The answer a controller is waiting for, on record under a token that no
    request still waiting had. *)
Definition issued `{X : !Externals} {D} (s s' : Server D) (token : bytes) (addr : SocketAddr)
    (id : string) (k : PendingRendezvousKind) (relay : string) : Prop :=
  len token = RENDEZVOUS_TOKEN_LEN ∧
  (∃ t, sv_pending s' !! token = Some (mkPending (try_into_v4 addr) id k relay t)) ∧
  ∀ e, sv_pending s !! token = Some e → pending_live (ck_now (sv_clock s')) e = false.

(** A relay the server chose: one of its list, its own address on the LAN, or none. *)
Definition relay_of_server (rs : Rs) (relay : string) : Prop :=
  relay = local_ip (inner rs) ∨ relay ∈ relay_servers rs ∨ relay = "" ∧ relay_servers rs = [].

(** The channel of the connection a device registered from. *)
Definition device_channel `{X : !Externals} {D} (s : Server D) (id : string) (p : Peer) (c : ChanId) : Prop :=
  sv_tcp_punch s !! try_into_v4 (socket_addr p) = Some c ∧
  ∃ l, pm_map (rs_pm (sv_reg s)) !! id = Some l ∧ pm_heap (rs_pm (sv_reg s)) !! l = Some p.

(** No token is left behind without its message. *)
Definition no_orphans {D} (s s' : Server D) : Prop :=
  ∀ token e, sv_pending s' !! token = Some e → sv_pending s !! token = Some e ∨
    ∃ c ch m, sv_chans s' !! c = Some ch ∧ m ∈ ch_queue ch ∧
      (rendezvous_token_of m = Some token ∨ ∃ rf, m = MRequestRelay rf ∧ rf_rendezvous_token rf = token).

Section RelayRequest.
Context {D : Type} `{!PeerStore D} `{X : !Externals} `{L : !ExternalLaws X} `{R : !Entropy}.
Implicit Types s : Server D.

(** A message of a relay request: a refusal to the controller, or the
    sanitized request to the device. *)
Definition relay_message (rs : Rs) (sink : option ChanId) (addr : SocketAddr) (rf : RequestRelay) s s'
    (c : ChanId) (m : Union) : Prop :=
  (sink = Some c ∧ ∃ reason, m = MRelayResponse (relay_refusal reason)) ∨
  ∃ token relay p,
    m = MRequestRelay (mkRequestRelay "" (rf_uuid rf) (mangle_encode addr) relay "" "" ""
                         None None token (rf_other rf)) ∧
    valid_relay_uuid (rf_uuid rf) = true ∧ relay_of_server rs relay ∧
    issued s s' token addr (rf_id rf) Relay relay ∧ device_channel s' (rf_id rf) p c.

Lemma relay_refused_sends rs sink addr rf s s1 reason (Q : result bool → Server D → Prop) :
  sv_chans s1 = sv_chans s → sv_pending s1 ⊆ sv_pending s →
  (∀ r s', only_sends (relay_message rs sink addr rf s s') s s' → no_orphans s s' → Q r s') →
  wp (send_relay_failure sink reason) Q s1.
Proof.
  intros Hch Hsub HQ. apply wp_send_to_sink; [intros c ch Hc _|]; apply HQ.
  - eapply sends_push; [left; by eauto|]. simpl. by rewrite Hch.
  - intros token e He. left. by eapply lookup_weaken.
  - by apply sends_nothing.
  - intros token e He. left. by eapply lookup_weaken.
Qed.

Lemma wp_request_relay rs sink addr rf s (Q : result bool → Server D → Prop) :
  pm_wf (rs_pm (sv_reg s)) → ps_ok (pm_db (rs_pm (sv_reg s))) →
  (∀ r s', only_sends (relay_message rs sink addr rf s s') s s' → no_orphans s s' → Q r s') →
  wp (handle_request_relay rs sink addr rf) Q s.
Proof.
  intros Hwf Hok HQ. unfold handle_request_relay.
  destruct (malformed_relay_request rf) eqn:Hform.
  { apply wp_ret, HQ; [by apply sends_nothing|]. intros ???. by left. }
  assert (valid_relay_uuid (rf_uuid rf) = true) as Huuid.
  { unfold malformed_relay_request in Hform. rewrite !orb_false_iff in Hform. destruct_and?.
    by apply negb_false_iff. }
  apply wp_bind, (wp_find_peer _ (rf_id rf)); [|done..| |].
  { intros. by apply (wp_get_in_memory_frame from_json). }
  2:{ intros [[l|]|e] pm' Hr; [by destruct (Hr l)| |apply HQ; [by apply sends_nothing|intros ???; by left]].
      by apply (relay_refused_sends rs sink addr rf s). }
  intros l p pm' Hl Hp. apply wp_bind, (wp_read_peer l p); [done|].
  apply wp_bind, wp_instant_now. intros t c _ _ _.
  destruct (negb _); [by apply (relay_refused_sends rs sink addr rf s)|].
  set (s1 := with_clock c _).
  assert (∀ n relay, relay_of_server rs relay → wp
    (token ← attempt (reserve addr (rf_id rf) Relay relay);
     match token with
     | Err _ => send_relay_failure sink "Rendezvous server is busy"
     | Ok token =>
         sent ← attempt (send_to_tcp_sync (MRequestRelay (relay_request_for_device addr token relay rf)) (socket_addr p));
         match sent with
         | Ok _ => mret true
         | Err _ => cancel token;; send_relay_failure sink "Peer is offline"
         end
     end) Q (set_rotation n s1)) as Hrest.
  { intros n relay Hrelay. apply wp_bind, wp_attempt, wp_reserve_token.
    intros m c2 n2 Hsub. split.
    - intros e. by apply (relay_refused_sends rs sink addr rf s).
    - intros token Hlen Hfree Hfresh. apply wp_bind, wp_attempt, wp_send_to_tcp_sync.
      + intros ch q Hch Hq. apply wp_ret, HQ.
        * eapply sends_push; [|done]. right. exists token, relay, p. do 3 (split; [done|]). split.
          -- split; [done|]. split; [eexists; simpl; by rewrite lookup_insert_eq|exact Hfresh].
          -- split; [exact Hch|]. exists l. by split.
        * intros tok e He. simpl in He. apply lookup_insert_Some in He as [[<- <-]|[_ He]].
          -- right. destruct (push_queued ch (MRequestRelay (relay_request_for_device addr token relay rf)) _ q Hq)
               as (q' & Hq' & Hin). exists ch, q'. eexists. split_and!; [exact Hq'|exact Hin|right; by eexists].
          -- left. by eapply lookup_weaken.
      + intros e. apply wp_bind, wp_cancel_token.
        apply (relay_refused_sends rs sink addr rf s); [done| |done].
        simpl. by rewrite delete_insert_id. }
  destruct (is_lan rs (socket_addr p)).
  - apply wp_bind, wp_ret. apply (Hrest (sv_rotation s)). by left.
  - apply wp_bind, wp_get_relay_server. intros relay n Hrelay. apply Hrest. by right.
Qed.
End RelayRequest.

Section PunchRequest.
Context {D : Type} `{!PeerStore D} `{X : !Externals} `{L : !ExternalLaws X} `{R : !Entropy}.
Implicit Types s : Server D.

(** A message of a punch-hole request: a failure to the controller, or the
    request to the device, with the token its answer must carry. *)
Definition punch_message (addr : SocketAddr) (ph : PunchHoleRequest) s s' (c : ChanId) (m : Union) : Prop :=
  (∃ f, m = MPunchHoleResponse (punch_failure f) ∧ sv_tcp_punch s' !! try_into_v4 addr = Some c) ∨
  ∃ token relay p, device_channel s' (ph_id ph) p c ∧
    ((m = MFetchLocalAddr (mkFetchLocalAddr (mangle_encode addr) relay (ph_socket_addr_v6 ph) token) ∧
      issued s s' token addr (ph_id ph) Local relay) ∨
     ∃ nat_type, m = MPunchHole (mkPunchHole (mangle_encode addr) nat_type relay (ph_force_relay ph)
                                   (ph_socket_addr_v6 ph) token) ∧
      issued s s' token addr (ph_id ph) Direct relay).

Lemma punch_refusal_sends addr ph s s1 f (Q : result unit → Server D → Prop) :
  sv_chans s1 = sv_chans s → sv_pending s1 ⊆ sv_pending s →
  (∀ r s', only_sends (punch_message addr ph s s') s s' → no_orphans s s' → Q r s') →
  wp (send_to_tcp_sync (MPunchHoleResponse (punch_failure f)) addr) Q s1.
Proof.
  intros Hch Hsub HQ. apply wp_send_to_tcp_sync; [intros c ch Hc _|intros e]; apply HQ.
  - eapply sends_push; [left; exists f; by split|]. simpl. by rewrite Hch.
  - intros token e He. left. by eapply lookup_weaken.
  - by apply sends_nothing.
  - intros token en He. left. by eapply lookup_weaken.
Qed.

(** Routing: the message for the device, and its token on record. *)
Lemma wp_route_punch rs addr ph ws peer_addr s
    (Q : result (Union * option SocketAddr) → Server D → Prop) :
  (∀ e s', sv_chans s' = sv_chans s → sv_pending s' ⊆ sv_pending s → Q (Err e) s') →
  (∀ m token relay k s',
    sv_chans s' = sv_chans s → sv_tcp_punch s' = sv_tcp_punch s →
    pm_map (rs_pm (sv_reg s')) = pm_map (rs_pm (sv_reg s)) →
    pm_heap (rs_pm (sv_reg s')) = pm_heap (rs_pm (sv_reg s)) →
    rendezvous_token_of m = Some token → issued s s' token addr (ph_id ph) k relay →
    delete token (sv_pending s') ⊆ sv_pending s →
    (m = MFetchLocalAddr (mkFetchLocalAddr (mangle_encode addr) relay (ph_socket_addr_v6 ph) token) ∧ k = Local ∨
     ∃ nat_type, m = MPunchHole (mkPunchHole (mangle_encode addr) nat_type relay (ph_force_relay ph)
                                   (ph_socket_addr_v6 ph) token) ∧ k = Direct) →
    Q (Ok (m, Some peer_addr)) s') →
  wp (route_punch_request rs addr ph ws peer_addr) Q s.
Proof.
  intros HErr HOk. unfold route_punch_request.
  assert (∀ s0, sv_chans s0 = sv_chans s → sv_pending s0 = sv_pending s →
    sv_tcp_punch s0 = sv_tcp_punch s → pm_map (rs_pm (sv_reg s0)) = pm_map (rs_pm (sv_reg s)) →
    pm_heap (rs_pm (sv_reg s0)) = pm_heap (rs_pm (sv_reg s)) →
    wp (relay ← get_relay_server rs;
        always ← gets sv_always_use_relay;
        let peer_is_lan := is_lan rs peer_addr in
        let lan := is_lan rs addr in
        let force := always || xorb peer_is_lan lan in
        let relay := if force && peer_is_lan then local_ip (inner rs) else relay in
        let nat_type := if force then Known SYMMETRIC else ph_nat_type ph in
        let same_intranet := negb (ph_force_relay ph) && negb ws
                             && ((peer_is_lan && lan) || same_ip peer_addr addr) in
        token ← reserve addr (ph_id ph) (if same_intranet then Local else Direct) relay;
        mret (if same_intranet
              then MFetchLocalAddr (mkFetchLocalAddr (mangle_encode addr) relay (ph_socket_addr_v6 ph) token)
              else MPunchHole (mkPunchHole (mangle_encode addr) nat_type relay (ph_force_relay ph)
                                 (ph_socket_addr_v6 ph) token),
              Some peer_addr)) Q s0) as Hrest.
  { intros s0 Hc0 Hp0 Ht0 Hm0 Hh0. apply wp_bind, wp_get_relay_server. intros relay0 n _.
    apply wp_bind, wp_gets. cbv beta zeta.
    set (relay := if _ && _ then local_ip (inner rs) else relay0).
    set (same := negb (ph_force_relay ph) && _ && _).
    apply wp_bind, wp_reserve_token. intros m c n2 Hsub. simpl in Hsub. rewrite Hp0 in Hsub. split.
    - intros e. by apply HErr.
    - intros token Hlen Hfree Hfresh. apply wp_ret.
      apply (HOk _ token relay (if same then Local else Direct)); try done.
      + by destruct same.
      + split; [done|]. split; [eexists; simpl; by rewrite lookup_insert_eq|]. simpl in *. by rewrite <-Hp0.
      + simpl. by rewrite delete_insert_id.
      + destruct same; [by left|right]. by eexists. }
  apply wp_bind, wp_log_punch; intros; by apply Hrest.
Qed.

Lemma wp_tcp_punch rs addr ph key ws s (Q : result unit → Server D → Prop) :
  pm_wf (rs_pm (sv_reg s)) → ps_ok (pm_db (rs_pm (sv_reg s))) →
  (∀ r s', only_sends (punch_message addr ph s s') s s' → no_orphans s s' → Q r s') →
  wp (handle_tcp_punch_hole_request rs addr ph key ws) Q s.
Proof.
  intros Hwf Hok HQ. unfold handle_tcp_punch_hole_request, handle_punch_hole_request. apply wp_bind.
  destruct (malformed_punch_request ph); [by apply wp_ret, (punch_refusal_sends addr ph s)|].
  destruct (_ && _); [by apply wp_ret, (punch_refusal_sends addr ph s)|].
  apply wp_bind, (wp_find_peer _ (ph_id ph)); [|done..| |].
  { intros. by apply wp_get_frame. }
  2:{ intros [[l|]|e] pm' Hr; [by destruct (Hr l)| |apply HQ; [by apply sends_nothing|intros ???; by left]].
      by apply wp_ret, (punch_refusal_sends addr ph s). }
  intros l p pm' Hl Hp. apply wp_bind, (wp_read_peer l p); [done|].
  apply wp_bind, wp_instant_now. intros t c _ _ _.
  destruct (_ <=? _); [by apply wp_ret, (punch_refusal_sends addr ph s)|].
  apply wp_route_punch.
  { intros e s' Hch Hsub. apply HQ; [by apply sends_nothing|].
    intros token en He. left. by eapply lookup_weaken. }
  intros m token relay k s' Hch Htcp Hmap Hheap Htok Hawait Hdel Hm. simpl.
  apply wp_bind, wp_attempt, wp_send_to_tcp_sync.
  - intros cid ch Hcid Hcc. apply wp_ret, HQ.
    + eapply sends_push; [|simpl; by rewrite Hch]. right. exists token, relay, p. split.
      * split; [exact Hcid|]. exists l. simpl. rewrite Hmap, Hheap. by split.
      * destruct Hm as [[-> ->]|(nt & -> & ->)]; [by left|right]. by exists nt.
    + intros tok e He. simpl in He. destruct (decide (tok = token)) as [->|Hne].
      * right. destruct (push_queued cid m _ ch Hcc) as (q & Hq & Hin). exists cid, q, m.
        split_and!; [done|done|by left].
      * left. eapply lookup_weaken; [|exact Hdel]. by rewrite lookup_delete_ne.
  - intros e. rewrite Htok. apply wp_bind, wp_cancel_token.
    by apply (punch_refusal_sends addr ph s).
Qed.
End PunchRequest.

Section Answers.
Context {D : Type} `{!PeerStore D} `{X : !Externals} `{L : !ExternalLaws X} `{R : !Entropy}.
Implicit Types s : Server D.

(** The key the server vouches for: nothing, or the signed key of the device
    as it is known now. *)
Definition vouched s (id : string) (b : bytes) : Prop :=
  b = [] ∨ ∃ l p, pm_map (rs_pm (sv_reg s)) !! id = Some l ∧
    pm_heap (rs_pm (sv_reg s)) !! l = Some p ∧ b = sign_id_pk id (pk p).

Lemma wp_get_pk version id s (Q : result bytes → Server D → Prop) :
  pm_wf (rs_pm (sv_reg s)) → ps_ok (pm_db (rs_pm (sv_reg s))) →
  (∀ b g, vouched (set_reg g s) id b → Q (Ok b) (set_reg g s)) → wp (get_pk version id) Q s.
Proof.
  intros Hwf Hok HQ. assert (set_reg (sv_reg s) s = s) as Hsame by (by destruct s).
  unfold get_pk. destruct (str_empty version).
  { apply wp_ret. rewrite <-Hsame. apply HQ. by left. }
  apply wp_bind, wp_attempt, (wp_find_peer _ id); [|done..| |].
  { intros. by apply wp_get_frame. }
  - intros l p pm' Hl Hp. apply wp_bind, (wp_read_peer l p); [done|]. apply wp_ret, HQ.
    right. by exists l, p.
  - intros [[l|]|e] pm' Hr; [by destruct (Hr l)|apply wp_ret, HQ; by left..].
Qed.

(** The state after a token is consumed. *)
Lemma wp_consume_token token id q k s (Q : result ConsumedRendezvous → Server D → Prop) :
  (∀ e m n c, m = sv_pending s ∨ m = delete token (sv_pending s) →
     Q (Err e) (set_tokens m n (set_sv_clock c s))) →
  (∀ en n c, sv_pending s !! token = Some en → responder_id en = id →
     (∀ k', k = Some k' → kind en = k') →
     ck_now (sv_clock s) - created_at en ≤ from_secs PENDING_RENDEZVOUS_TTL_SECS →
     Q (Ok (mkConsumed (requester en) (relay_server en)))
       (set_tokens (delete token (sv_pending s)) n (set_sv_clock c s))) →
  wp (consume token id q k) Q s.
Proof.
  intros HErr HOk. apply wp_on_tokens, wp_consume. intros r z Hz Hr. simpl in Hz, Hr. destruct r as [c|e].
  - destruct Hr as (a & _ & _ & Hin).
    apply consume_in_ok in Hin as (en & Hen & _ & Hm & -> & Hid & Hk & _ & Httl).
    rewrite Hm. apply HOk; try done. unfold duration_since in Httl. lia.
  - apply HErr. done.
Qed.

(** How an accepted answer is delivered: to the channel of the requester that
    reserved its token, which is used up, and to nobody else. *)
Definition delivered s s' (token : bytes) (id : string) (k : PendingRendezvousKind)
    (msg : bytes → string → Union) : Prop :=
  ∃ en c b, sv_pending s !! token = Some en ∧ responder_id en = id ∧ kind en = k ∧
    ck_now (sv_clock s) - created_at en ≤ from_secs PENDING_RENDEZVOUS_TTL_SECS ∧
    sv_pending s' = delete token (sv_pending s) ∧
    sv_tcp_punch s !! try_into_v4 (requester en) = Some c ∧
    sv_tcp_punch s' = delete (try_into_v4 (requester en)) (sv_tcp_punch s) ∧
    vouched s' id b ∧
    sv_chans s' = alter (λ ch, mkChannel (ch_queue ch ++ [msg b (relay_server en)]) true) c (sv_chans s).

Definition answer_spec s (token : bytes) (id : string) (k : PendingRendezvousKind)
    (msg : bytes → string → Union) (r : result unit) s' : Prop :=
  match r with
  | Ok _ => delivered s s' token id k msg
  | Err _ => sv_chans s' = sv_chans s
  end.

(** Consuming a token, looking up the key and delivering the answer. *)
Lemma wp_answer token id q k version (msg : bytes → string → Union) s
    (Q : result unit → Server D → Prop) :
  pm_wf (rs_pm (sv_reg s)) → ps_ok (pm_db (rs_pm (sv_reg s))) →
  (∀ r s', answer_spec s token id k msg r s' → Q r s') →
  wp (pending ← consume token id q (Some k);
      pk' ← get_pk version id;
      send_to_tcp (msg pk' (c_relay_server pending)) (c_requester pending)) Q s.
Proof.
  intros Hwf Hok HQ. apply wp_bind, wp_consume_token; [intros; by apply HQ|].
  intros en n c Hen Hid Hk Httl. apply wp_bind, wp_get_pk; [by apply (pm_wf_ext (rs_pm (sv_reg s)))|done|].
  intros b g Hb. simpl. apply wp_send_to_tcp.
  - intros ch q' Hch Hq. apply HQ. exists en, ch, b. simpl in *. split_and!; try done.
    by apply Hk.
  - intros e. by apply HQ.
Qed.

Definition hole_response (addr : SocketAddr) (phs : PunchHoleSent) (is_udp : bool)
    (pk' : bytes) (relay : string) : Union :=
  MPunchHoleResponse (mkPunchHoleResponse (mangle_encode addr) pk' None relay
    (enum_value (phs_nat_type phs)) false is_udp (phs_socket_addr_v6 phs)).

Lemma wp_hole_sent phs addr is_udp s (Q : result unit → Server D → Prop) :
  pm_wf (rs_pm (sv_reg s)) → ps_ok (pm_db (rs_pm (sv_reg s))) →
  (∀ r s', answer_spec s (phs_rendezvous_token phs) (phs_id phs) Direct
             (hole_response addr phs is_udp) r s' → Q r s') →
  wp (handle_hole_sent phs addr is_udp) Q s.
Proof.
  intros Hwf Hok HQ. unfold handle_hole_sent. destruct (_ || _); [by apply wp_bail, HQ|].
  by apply (wp_answer _ _ _ _ _ (hole_response addr phs is_udp)).
Qed.
End Answers.

(** ** Online status *)

Section Online.
Context {D : Type} `{!PeerStore D} `{X : !Externals}.
Implicit Types s : Server D.

(** Whether a device counts as online at a time. *)
Definition online_at s (id : string) (t : Instant) : bool :=
  match pm_map (rs_pm (sv_reg s)) !! id with
  | Some l => match pm_heap (rs_pm (sv_reg s)) !! l with
              | Some p => as_millis (duration_since t (last_reg_time p)) <? REG_TIMEOUT
              | None => false
              end
  | None => false
  end.

(** The bit of the i-th peer: bytes from left to right, most significant bit
    first. *)
Definition online_bit (i : nat) (states : bytes) : bool :=
  Z.testbit (nth (i / 8) states 0) (7 - Z.of_nat (i mod 8)).

Lemma testbit_one d : Z.testbit 1 d = (d =? 0).
Proof. by destruct d as [|[]|]. Qed.

Lemma online_bit_set i j states :
  (i / 8 < length states)%nat →
  online_bit j (set_online_bit i states) = (bool_decide (j = i) || online_bit j states).
Proof.
  intros Hi. unfold online_bit, set_online_bit.
  pose proof (Nat.mod_upper_bound i 8 ltac:(lia)). pose proof (Nat.mod_upper_bound j 8 ltac:(lia)).
  pose proof (Nat.div_mod_eq i 8). pose proof (Nat.div_mod_eq j 8).
  rewrite !nth_lookup. destruct (decide (j / 8 = i / 8)%nat) as [Heq|Hne].
  - rewrite Heq, list_lookup_alter_eq. apply lookup_lt_is_Some in Hi as [b ->].
    cbn -[Nat.div Nat.modulo Z.testbit Z.lor Z.sub Z.of_nat].
    rewrite Z.lor_spec, Z.shiftl_spec, orb_comm, testbit_one by lia. f_equal.
    case_bool_decide as Hji; [subst j|]; [apply Z.eqb_eq|apply Z.eqb_neq]; lia.
  - rewrite list_lookup_alter_ne by done. rewrite bool_decide_false by congruence. done.
Qed.

(** A lookup in memory changes nobody's status. *)
Lemma wp_get_in_memory_status id s (Q : result (option LockPeer) → Server D → Prop) :
  pm_wf (rs_pm (sv_reg s)) →
  (∀ o s', pm_wf (rs_pm (sv_reg s')) → (∀ i t, online_at s' i t = online_at s i t) →
     ck_now (sv_clock s) ≤ ck_now (sv_clock s') → o = pm_map (rs_pm (sv_reg s')) !! id → Q (Ok o) s') →
  wp (on_pm (get_in_memory id)) Q s.
Proof.
  intros Hwf HQ. apply wp_on_pm, wp_bind, wp_gets. destruct (pm_map (rs_pm (sv_reg s)) !! id) as [l|] eqn:Hl.
  - apply wp_bind, wp_touch. intros t c Ht Hc. apply wp_ret, HQ; simpl.
    + by apply touch_wf.
    + intros i u. unfold online_at. simpl. destruct (pm_map (rs_pm (sv_reg s)) !! i) as [l'|]; [|done].
      destruct (decide (l' = l)) as [->|Hne]; [|by rewrite lookup_alter_ne].
      rewrite lookup_alter_eq. by destruct (pm_heap (rs_pm (sv_reg s)) !! l).
    + unfold sv_clock in *. simpl. lia.
    + by rewrite Hl.
  - apply wp_ret, HQ; simpl; [done..|unfold sv_clock; simpl; lia|by rewrite Hl].
Qed.

Lemma wp_online_states n peers states s (Q : result bytes → Server D → Prop) :
  pm_wf (rs_pm (sv_reg s)) → (n + length peers ≤ 8 * length states)%nat →
  (∀ states' s', length states' = length states → ck_now (sv_clock s) ≤ ck_now (sv_clock s') →
     (∀ i t, online_at s' i t = online_at s i t) →
     (∀ j, (j < n ∨ n + length peers ≤ j)%nat → online_bit j states' = online_bit j states) →
     (∀ j id, peers !! j = Some id → online_bit (n + j) states = false →
        ∃ t, ck_now (sv_clock s) ≤ t ≤ ck_now (sv_clock s') ∧
          online_bit (n + j) states' = online_at s id t) →
     Q (Ok states') s') →
  wp (online_states n peers states) Q s.
Proof.
  revert n states s. induction peers as [|id peers IH]; intros n states s Hwf Hlen HQ; simpl.
  { apply wp_ret, HQ; try done. }
  apply wp_bind, wp_get_in_memory_status; [done|]. intros o s1 Hwf1 Hst1 Hc1 Ho.
  apply wp_bind. simpl in Hlen.
  assert (∀ s2 t st, pm_wf (rs_pm (sv_reg s2)) → (∀ i t, online_at s2 i t = online_at s i t) →
    ck_now (sv_clock s) ≤ t ≤ ck_now (sv_clock s2) →
    st = (if online_at s id t then set_online_bit n states else states) →
    wp (online_states (S n) peers st) Q s2) as Hnext.
  { intros s2 t st Hwf2 Hst2 Ht ->.
    assert (n / 8 < length states)%nat as Hn by (apply Nat.Div0.div_lt_upper_bound; lia).
    set (st := if online_at s id t then _ else states).
    assert (length st = length states) as Hl
      by (unfold st; case_match; [unfold set_online_bit; by rewrite length_alter|done]).
    assert (∀ j, online_bit j st = (bool_decide (j = n) && online_at s id t) || online_bit j states) as Hbit.
    { intros j. unfold st. destruct (online_at s id t); [|by rewrite andb_false_r].
      by rewrite online_bit_set, andb_true_r. }
    apply IH; [done|lia|]. intros states' s' Hl' Hc' Hst' Hout Hin. apply HQ.
    - lia.
    - lia.
    - intros i u. by rewrite Hst', Hst2.
    - intros j Hj. simpl in Hj. rewrite Hout by lia. rewrite Hbit, bool_decide_false by lia. done.
    - intros [|j] id' Hid Hfalse; simpl in Hid.
      + simplify_eq. rewrite Nat.add_0_r in *. exists t. split; [lia|].
        rewrite Hout by lia. rewrite Hbit, bool_decide_true, Hfalse, orb_false_r by done. done.
      + rewrite Nat.add_succ_r in *. destruct (Hin j id' Hid) as (u & Hu & Hb).
        * simpl. rewrite Hbit, bool_decide_false by lia. done.
        * exists u. split; [lia|]. simpl in Hb. by rewrite Hb, Hst2. }
  destruct o as [l|].
  - destruct (pm_alloc _ Hwf1 id l) as [p Hp]; [done|].
    apply wp_bind, (wp_read_peer l p); [done|]. apply wp_bind, wp_instant_now.
    intros t c _ Ht Hc. simpl in Ht. apply wp_ret.
    apply (Hnext _ t); [by apply (pm_wf_ext (rs_pm (sv_reg s1)))|exact Hst1|unfold sv_clock in *; simpl; lia|].
    assert (online_at s id t = (as_millis (duration_since t (last_reg_time p)) <? REG_TIMEOUT)) as ->; [|done].
    rewrite <-Hst1. unfold online_at. by rewrite <-Ho, Hp.
  - apply wp_ret. apply (Hnext _ (ck_now (sv_clock s))); [done|exact Hst1|lia|].
    assert (online_at s id (ck_now (sv_clock s)) = false) as ->; [|done].
    rewrite <-Hst1. unfold online_at. by rewrite <-Ho.
Qed.
End Online.

(** ** Theorems: routing *)

(** C13: A relay request crosses the trust boundary sanitized: whatever the
    controller sends, every message queued is a refusal on its own connection, or
    a request on the connection that is cached under the address the device with
    that identifier registered from.  Of the controller's message such a request
    holds only the UUID, which is well formed, and the fields the code does not
    know by name; it has no identifier, licence key, token, switch code, control
    permissions or context, the relay is the server's choice and the address the
    controller's real one; the answer is awaited under a token that no request
    still waiting had; and no token is left behind without its message. *)
Theorem relay_requests_are_sanitized {D} `{!PeerStore D} `{X : !Externals} `{L : !ExternalLaws X}
    `{R : !Entropy} rs sink addr rf (s : Server D) :
  pm_wf (rs_pm (sv_reg s)) → ps_ok (pm_db (rs_pm (sv_reg s))) →
  let s' := (handle_request_relay rs sink addr rf s).2 in
  only_sends (relay_message rs sink addr rf s s') s s' ∧ no_orphans s s'.
Proof.
  intros Hwf Hok s'.
  assert (wp (handle_request_relay rs sink addr rf)
    (λ _ s', only_sends (relay_message rs sink addr rf s s') s s' ∧ no_orphans s s') s) as Hwp; [|exact Hwp].
  apply wp_request_relay; [done..|]. by split.
Qed.

(** C24: A punch-hole request reaches only the device it names: every message
    queued is a failure on the controller's own connection, or a request on the
    connection cached under the address the device registered from, with the
    controller's real address and a fresh token: no request still waiting had it,
    and an answer of the matching kind is awaited under it; a request that cannot
    be delivered leaves no token behind. *)
Theorem punch_requests_reach_only_the_device {D} `{!PeerStore D} `{X : !Externals}
    `{L : !ExternalLaws X} `{R : !Entropy} rs addr ph key ws (s : Server D) :
  pm_wf (rs_pm (sv_reg s)) → ps_ok (pm_db (rs_pm (sv_reg s))) →
  let s' := (handle_tcp_punch_hole_request rs addr ph key ws s).2 in
  only_sends (punch_message addr ph s s') s s' ∧ no_orphans s s'.
Proof.
  intros Hwf Hok s'.
  assert (wp (handle_tcp_punch_hole_request rs addr ph key ws)
    (λ _ s', only_sends (punch_message addr ph s s') s s' ∧ no_orphans s s') s) as Hwp; [|exact Hwp].
  apply wp_tcp_punch; [done..|]. by split.
Qed.

(** C23: A device's punch-hole answer, over TCP or UDP, is delivered to the
    requester that reserved its token or to nobody: on success it is queued on
    that requester's connection, with the answering address, the relay of the
    reservation and the device's signed key, and token and connection entry are
    used up; on any failure no queue has changed, so that a datagram from an
    arbitrary address cannot make the server send anything. *)
Theorem hole_answers_reach_only_the_requester {D} `{!PeerStore D} `{X : !Externals}
    `{L : !ExternalLaws X} `{R : !Entropy} phs addr is_udp (s : Server D) :
  pm_wf (rs_pm (sv_reg s)) → ps_ok (pm_db (rs_pm (sv_reg s))) →
  let '(r, s') := handle_hole_sent phs addr is_udp s in
  answer_spec s (phs_rendezvous_token phs) (phs_id phs) Direct (hole_response addr phs is_udp) r s'.
Proof.
  intros Hwf Hok. destruct (handle_hole_sent phs addr is_udp s) as [r s'] eqn:Hrun.
  eapply wp_run; [|done]. by apply wp_hole_sent.
Qed.

(** The answer to an online query has one bit per queried peer, in order,
    most significant bit first, and each bit is that peer's status at a moment
    during the query: cached, and registered less than thirty seconds before;
    the unused bits of the last byte are zero. *)
Theorem online_response_bits {D} `{!PeerStore D} `{X : !Externals} peers (s : Server D) :
  pm_wf (rs_pm (sv_reg s)) →
  ∃ states s', build_online_response peers s = (Ok (MOnlineResponse states), s') ∧
    length states = ((length peers + 7) / 8)%nat ∧
    (∀ j id, peers !! j = Some id → ∃ t, ck_now (sv_clock s) ≤ t ≤ ck_now (sv_clock s') ∧
       online_bit j states = online_at s id t) ∧
    (∀ j, (length peers ≤ j)%nat → online_bit j states = false).
Proof.
  intros Hwf.
  assert (∀ j n, online_bit j (replicate n 0) = false) as Hzero.
  { intros j n. unfold online_bit. rewrite nth_lookup.
    destruct (replicate n 0 !! (j / 8)%nat) as [z|] eqn:Hz; [|apply Z.testbit_0_l].
    apply lookup_replicate in Hz as [-> _]. apply Z.testbit_0_l. }
  assert (wp (build_online_response peers) (λ r s', ∃ states, r = Ok (MOnlineResponse states) ∧
    length states = ((length peers + 7) / 8)%nat ∧
    (∀ j id, peers !! j = Some id → ∃ t, ck_now (sv_clock s) ≤ t ≤ ck_now (sv_clock s') ∧
       online_bit j states = online_at s id t) ∧
    (∀ j, (length peers ≤ j)%nat → online_bit j states = false)) s) as Hwp.
  { apply wp_bind, wp_online_states; [done| |].
    - rewrite length_replicate. pose proof (Nat.div_mod_eq (length peers + 7) 8).
      pose proof (Nat.mod_upper_bound (length peers + 7) 8). lia.
    - intros states s' Hlen Hc _ Hout Hin. apply wp_ret. exists states.
      rewrite length_replicate in Hlen. split_and!; [done..| |].
      + intros j id Hj. apply (Hin j id Hj). apply Hzero.
      + intros j Hj. rewrite Hout by (simpl; lia). apply Hzero. }
  destruct (build_online_response peers s) as [r s'] eqn:Hrun.
  destruct (wp_run _ _ _ _ _ Hwp Hrun) as (states & -> & ?). by exists states, s'.
Qed.

(** Successive selections of a relay server. *)
Fixpoint select_relays {D} (rs : Rs) (n : nat) : M (Server D) (list string) :=
  match n with
  | O => mret []
  | S n => r ← get_relay_server rs; l ← select_relays rs n; mret (r :: l)
  end.

Lemma select_relays_rotation {D} rs n (s : Server D) :
  (1 < length (relay_servers rs))%nat → 0 ≤ sv_rotation s → sv_rotation s + Z.of_nat n < 2 ^ 64 →
  ∃ l s', select_relays rs n s = (Ok l, s') ∧ sv_rotation s' = sv_rotation s + Z.of_nat n ∧
    length l = n ∧
    ∀ j, (j < n)%nat → l !! j = relay_servers rs !!
           Z.to_nat ((sv_rotation s + Z.of_nat j) mod len (relay_servers rs)).
Proof.
  intros Hlen. revert s. induction n as [|n IH]; intros s Hr Hb.
  { exists [], s. split_and!; [done|lia|done|lia]. }
  set (k := sv_rotation s). set (s1 := set_rotation ((k + 1) mod 2 ^ 64) s).
  assert (sv_rotation s1 = k + 1) as Hk1 by (simpl; rewrite Z.mod_small; lia).
  destruct (IH s1) as (l & s' & Hrun & Hrot & Hl & Hj); [lia..|].
  assert (∃ x, relay_servers rs !! Z.to_nat (k mod len (relay_servers rs)) = Some x ∧
    get_relay_server rs s = (Ok x, s1)) as (x & Hx & Hget).
  { unfold get_relay_server. destruct (relay_servers rs) as [|a [|b r]]; simpl in Hlen; [lia..|].
    assert (Z.to_nat (k mod len (a :: b :: r)) < length (a :: b :: r))%nat as Hi.
    { unfold len. pose proof (Z.mod_pos_bound k (Z.of_nat (length (a :: b :: r)))). simpl in *. lia. }
    apply lookup_lt_is_Some in Hi as [x Hx]. exists x. split; [done|].
    unfold mbind, M_bind, state, mret, M_ret. fold k s1. by rewrite Hx. }
  exists (x :: l), s'. split_and!.
  - simpl. unfold mbind at 1, M_bind at 1. rewrite Hget. unfold mbind, M_bind. by rewrite Hrun.
  - lia.
  - simpl. lia.
  - intros [|j] Hjn; simpl.
    + by rewrite Z.add_0_r, <-Hx.
    + rewrite Hj by lia. rewrite Hk1. by replace (k + 1 + Z.of_nat j) with (k + Z.of_nat (S j)) by lia.
Qed.

(** Relay servers are used in turn: as many consecutive selections as there
    are servers pick every one of them exactly once, whatever the counter was. *)
Theorem relay_rotation_is_fair {D} rs (s : Server D) :
  (1 < length (relay_servers rs))%nat → 0 ≤ sv_rotation s →
  sv_rotation s + len (relay_servers rs) < 2 ^ 64 →
  ∃ l s', select_relays rs (length (relay_servers rs)) s = (Ok l, s') ∧ l ≡ₚ relay_servers rs.
Proof.
  intros Hlen Hr Hb. destruct (select_relays_rotation rs _ s Hlen Hr Hb) as (l & s' & Hrun & _ & Hl & Hj).
  exists l, s'. split; [done|]. set (servers := relay_servers rs) in *.
  set (n := length servers) in *.
  set (k := Z.to_nat (sv_rotation s mod len servers)).
  assert (k < n)%nat as Hk.
  { unfold k, n, len. pose proof (Z.mod_pos_bound (sv_rotation s) (Z.of_nat (length servers))). lia. }
  assert (l = drop k servers ++ take k servers) as ->.
  { apply list_eq. intros j. destruct (decide (j < n)%nat) as [Hjn|Hjn].
    - rewrite Hj by done.
      assert (Z.to_nat ((sv_rotation s + Z.of_nat j) mod len servers) =
              if decide (j < n - k)%nat then (k + j)%nat else (j - (n - k))%nat) as ->.
      { unfold k, n, len in *. rewrite <-Zplus_mod_idemp_l.
        set (m := sv_rotation s mod Z.of_nat (length servers)) in *.
        assert (0 ≤ m < Z.of_nat (length servers)) by (apply Z.mod_pos_bound; lia).
        case_decide.
        - rewrite Z.mod_small by lia. lia.
        - replace (m + Z.of_nat j) with (m + Z.of_nat j - Z.of_nat (length servers) + 1 * Z.of_nat (length servers)) by lia.
          rewrite Z.mod_add, Z.mod_small by lia. lia. }
      case_decide.
      + rewrite lookup_app_l by (rewrite length_drop; lia). by rewrite lookup_drop.
      + rewrite lookup_app_r, length_drop by (rewrite length_drop; lia).
        fold n. rewrite lookup_take_lt by lia. done.
    - rewrite lookup_ge_None_2 by lia. symmetry. apply lookup_ge_None_2.
      rewrite length_app, length_drop, length_take. fold n. lia. }
  rewrite Permutation_app_comm. by rewrite take_drop.
Qed.

(** A client that reconnects from the same address is not cut off by the end
    of its old connection: closing the old one leaves the new one's entry and
    queue alone, and closing the connection that owns the entry removes it. *)
Theorem close_removes_only_own_sink {D} `{X : !Externals} c c' addr (s : Server D) :
  sv_tcp_punch s !! try_into_v4 addr = Some c' →
  let s' := (close_connection c addr s).2 in
  sv_tcp_punch s' !! try_into_v4 addr = (if decide (c = c') then None else Some c') ∧
  (∀ a, a ≠ try_into_v4 addr → sv_tcp_punch s' !! a = sv_tcp_punch s !! a) ∧
  (∀ d, d ≠ c → sv_chans s' !! d = sv_chans s !! d) ∧
  (∀ ch, sv_chans s' !! c = Some ch → ch_open ch = false).
Proof.
  intros Hc. unfold close_connection, modify. simpl.
  assert (∀ s1 : Server D, sv_chans s1 = sv_chans s →
    (∀ d, d ≠ c → alter (λ ch, mkChannel (ch_queue ch) false) c (sv_chans s1) !! d = sv_chans s !! d) ∧
    (∀ ch, alter (λ ch, mkChannel (ch_queue ch) false) c (sv_chans s1) !! c = Some ch → ch_open ch = false)) as Hch.
  { intros s1 ->. split; [intros d Hd; by rewrite lookup_alter_ne|].
    intros ch. rewrite lookup_alter_eq. destruct (sv_chans s !! c); intros; by simplify_eq/=. }
  case_bool_decide as Hown; simpl.
  - rewrite Hc in Hown. simplify_eq. rewrite decide_True by done.
    split_and!; [apply lookup_delete_eq| |apply (Hch s); done..].
    intros a Ha. by rewrite lookup_delete_ne.
  - rewrite decide_False by congruence. split_and!; [done..|apply (Hch s); done|apply (Hch s); done].
Qed.

(** ** Concrete instances *)

Definition device_addr : SocketAddr := SockV4 (mkV4 203 0 113 7) 5000.
Definition controller_addr : SocketAddr := SockV4 (mkV4 198 51 100 2) 4000.
Definition online_peer : Peer :=
  mkPeer device_addr (from_secs 95) (from_secs 95) [1] [2] [3] false None (mkPeerInfo "") (0, 0).

(** A device that registered five seconds ago on channel 1, a controller on
    channel 2. *)
Definition sample_server : Server SqlDb :=
  mkServer (mkRegState (mkPeerMap (mkClock (from_secs 100) [])
      (<[1%positive := online_peer]> ∅) (<["device01" := 1%positive]> ∅) empty_db 3 ∅ ∅)
      (mkTransient ∅ ∅))
    ∅ 0 (<[device_addr := 1%positive]> (<[controller_addr := 2%positive]> ∅))
    (<[1%positive := mkChannel [] true]> (<[2%positive := mkChannel [] true]> ∅))
    [] 0 false ∅ 64 [].
Definition sample_rs : Rs := mkRs ["relay-a"; "relay-b"; "relay-c"] [] [] (sample_inner true).

Lemma sample_server_pm : pm_wf (rs_pm (sv_reg sample_server)).
Proof.
  split; simpl; [by vm_compute| |].
  - intros id l [[_ <-]|[_ Hl]]%lookup_insert_Some; [by eexists|by rewrite lookup_empty in Hl].
  - by intros a b l [[<- _]|[_ Ha]]%lookup_insert_Some [[<- _]|[_ Hb]]%lookup_insert_Some;
      rewrite ?lookup_empty in *.
Qed.
Lemma sample_server_ok : ps_ok (pm_db (rs_pm (sv_reg sample_server))).
Proof. exact empty_db_unique. Qed.

(** A request with metadata that must not pass. *)
Definition sample_rf : RequestRelay :=
  mkRequestRelay "device01" "0123456789abcdef" [] "evil" "key" "token" "code" (Some [1]) (Some [2]) [] [].

Lemma relay_requests_are_sanitized_witness :
  let s' := (handle_request_relay sample_rs (Some 2%positive) controller_addr sample_rf sample_server).2 in
  ch_queue <$> sv_chans s' !! 1%positive =
    Some [MRequestRelay (mkRequestRelay "" "0123456789abcdef" (mangle_encode controller_addr) "relay-a"
            "" "" "" None None sample_token [])] ∧
  only_sends (relay_message sample_rs (Some 2%positive) controller_addr sample_rf sample_server s') sample_server s'.
Proof.
  intros s'. split; [by vm_compute|].
  apply (relay_requests_are_sanitized sample_rs (Some 2%positive) controller_addr sample_rf sample_server
    sample_server_pm sample_server_ok).
Defined.

Definition sample_ph : PunchHoleRequest :=
  mkPunchHoleRequest "device01" (Known (OtherNat 1)) "key" "" "1.4" false "" [].
Definition sample_punched : Server SqlDb :=
  (handle_tcp_punch_hole_request sample_rs controller_addr sample_ph "key" false sample_server).2.

Lemma punch_requests_reach_only_the_device_witness :
  ch_queue <$> sv_chans sample_punched !! 1%positive =
    Some [MPunchHole (mkPunchHole (mangle_encode controller_addr) (Known (OtherNat 1)) "relay-a" false []
            sample_token)] ∧
  only_sends (punch_message controller_addr sample_ph sample_server sample_punched) sample_server sample_punched.
Proof.
  split; [by vm_compute|].
  apply (punch_requests_reach_only_the_device sample_rs controller_addr sample_ph "key" false sample_server
    sample_server_pm sample_server_ok).
Defined.

Lemma sample_punched_pm : pm_wf (rs_pm (sv_reg sample_punched)) ∧ ps_ok (pm_db (rs_pm (sv_reg sample_punched))).
Proof.
  assert (rs_pm (sv_reg sample_punched) = set_heap
    (alter (set_last_access (from_secs 100)) 1%positive (pm_heap (rs_pm (sv_reg sample_server))))
    (rs_pm (sv_reg sample_server))) as -> by (by vm_compute).
  split; [|exact sample_server_ok]. apply (pm_wf_ext (rs_pm (sv_reg sample_server))); [done..| |exact sample_server_pm].
  simpl. by rewrite dom_alter_L.
Qed.

Definition sample_phs : PunchHoleSent :=
  mkPunchHoleSent "device01" (mangle_encode controller_addr) "" (Known SYMMETRIC) "1.4" [] sample_token.

Lemma hole_answers_reach_only_the_requester_witness :
  ∃ c, sv_tcp_punch sample_punched !! controller_addr = Some c ∧
    sv_chans (handle_hole_sent sample_phs device_addr true sample_punched).2 =
      alter (λ ch, mkChannel (ch_queue ch ++ [hole_response device_addr sample_phs true [3] "relay-a"]) true) c
        (sv_chans sample_punched).
Proof.
  pose proof (hole_answers_reach_only_the_requester sample_phs device_addr true sample_punched
    (proj1 sample_punched_pm) (proj2 sample_punched_pm)) as Hspec.
  destruct (handle_hole_sent sample_phs device_addr true sample_punched) as [r s'] eqn:E.
  assert (r = Ok tt) as -> by (apply (f_equal fst) in E; by vm_compute in E).
  destruct Hspec as (en & c & b & Hen & _ & _ & _ & _ & Hc & _ & Hb & Hchans).
  assert (en = mkPending controller_addr "device01" Direct "relay-a" (from_secs 100)) as ->
    by (vm_compute in Hen; by injection Hen as <-).
  exists c. split; [exact Hc|]. simpl. rewrite Hchans. simpl.
  assert (b = [3]) as ->; [|done].
  apply (f_equal (λ x, sv_chans x.2 !! 2%positive)) in E. simpl in E. rewrite Hchans in E.
  vm_compute in Hc. injection Hc as <-. rewrite lookup_alter_eq in E. vm_compute in E. congruence.
Defined.

Lemma online_response_bits_witness :
  ∃ states, (build_online_response ["offline1"; "device01"] sample_server).1 = Ok (MOnlineResponse states) ∧
    states = [64] ∧ online_bit 1 states = true.
Proof.
  destruct (online_response_bits ["offline1"; "device01"] sample_server sample_server_pm)
    as (states & s' & E & _ & Hbits & _).
  exists states. rewrite E. split; [done|].
  assert (states = [64]) as -> by (apply (f_equal fst) in E; vm_compute in E; congruence).
  split; [done|]. destruct (Hbits 1%nat "device01" eq_refl) as (t & [Ht1 Ht2] & ->).
  assert (ck_now (sv_clock s') = from_secs 100) as Hs'.
  { replace s' with (build_online_response ["offline1"; "device01"] sample_server).2 by (by rewrite E).
    by vm_compute. }
  assert (ck_now (sv_clock sample_server) = from_secs 100) as Hs by (by vm_compute).
  assert (t = from_secs 100) as -> by lia. by vm_compute.
Defined.

Lemma relay_rotation_is_fair_witness :
  ∃ l s', select_relays sample_rs 3 (set_rotation 7 sample_server) = (Ok l, s') ∧
    l = ["relay-b"; "relay-c"; "relay-a"] ∧ l ≡ₚ relay_servers sample_rs.
Proof.
  destruct (relay_rotation_is_fair sample_rs (set_rotation 7 sample_server)) as (l & s' & E & Hp);
    [simpl; lia|done|done|].
  exists l, s'. split; [exact E|]. split; [|exact Hp].
  apply (f_equal fst) in E. vm_compute in E. congruence.
Defined.

Lemma close_removes_only_own_sink_witness :
  sv_tcp_punch (close_connection 9 device_addr sample_server).2 !! device_addr = Some 1%positive.
Proof.
  destruct (close_removes_only_own_sink 9 1 device_addr sample_server) as [Hown _]; [by vm_compute|].
  exact Hown.
Defined.

Definition fresh_server : Server SqlDb := mkServer sample_reg ∅ 0 ∅ ∅ [] 0 false ∅ 64 [].

Lemma fresh_server_wf : server_wf (sample_inner true) fresh_server.
Proof.
  split; simpl; [apply sample_reg_wf|by vm_compute| |intros ??; by rewrite lookup_empty|by vm_compute].
  split; [by vm_compute|]. intros ??. by rewrite lookup_empty.
Qed.

Lemma server_invariant_witness :
  server_wf (sample_inner true)
    (handle_tcp_msg sample_rs (mkApi (sample_post 204) (λ _, Err "offline"))
       (Some (MRegisterPk (sample_rk [9]))) None false sample_addr "" false
       (open_connection sample_addr fresh_server).2).2.
Proof.
  apply (server_invariant (sample_inner true) fresh_server); [exact fresh_server_wf|].
  eapply rtc_l; [by apply srv_open|]. apply rtc_once. by apply srv_message.
Defined.
