(* ===== verification/Float64.v ===== *)
(** [f64] as the relay's settings use it: the IEEE 754 binary64 operations of the
    Standard Library's [SpecFloat] (integer arithmetic only), and what Rust adds:
    conversion to and from [usize], [round], and [str::parse::<f64>]. *)

From Stdlib Require Import SpecFloat.
From Stdlib Require Import Ascii String.
From S2P Require Import Prelude.
From S2P Require Import Text.

Abbreviation f64 := spec_float.

#[export] Instance location_eq_dec : EqDecision location.
Proof. solve_decision. Defined.

(** ** Operations *)

Definition f64_mul : f64 → f64 → f64 := SFmul 53 1024.
Definition f64_div : f64 → f64 → f64 := SFdiv 53 1024.
(** Comparisons are false when an operand is NaN. *)
Definition f64_lt : f64 → f64 → bool := SFltb.
Definition f64_le : f64 → f64 → bool := SFleb.

Definition is_finite (x : f64) : bool :=
  match x with S754_zero _ | S754_finite _ _ _ => true | _ => false end.

(** [n as f64]: the nearest value, ties to even. *)
Definition f64_of (n : Z) : f64 := binary_normalize 53 1024 n 0 false.

(** A magnitude, as an integer; the fraction is cut off. *)
Definition trunc_mag (m : positive) (e : Z) : Z :=
  if 0 <=? e then Z.pos m * 2 ^ e else Z.pos m / 2 ^ (- e).

(** [x as usize]: towards zero, saturating; NaN is zero. *)
Definition f64_to_usize (x : f64) : Z :=
  match x with
  | S754_zero _ | S754_nan | S754_infinity true | S754_finite true _ _ => 0
  | S754_infinity false => usize_max
  | S754_finite false m e => Z.min usize_max (trunc_mag m e)
  end.

(** [f64::round]: to the nearest integer, halves away from zero. *)
Definition round_mag (m : positive) (e : Z) : Z :=
  if 0 <=? e then Z.pos m * 2 ^ e else (2 * Z.pos m + 2 ^ (- e)) / (2 * 2 ^ (- e)).
Definition f64_round (x : f64) : f64 :=
  match x with
  | S754_finite s m e =>
      if 0 <=? e then x
      else match round_mag m e with
           | Z.pos q => binary_round 53 1024 s q 0
           | _ => S754_zero s
           end
  | _ => x
  end.

(** ** Parsing *)

(** The value of a decimal [± m * 10 ^ e], correctly rounded. *)
Definition f64_of_decimal (sign : bool) (m e : Z) : f64 :=
  match m with
  | Z.pos p =>
      if 0 <=? e then binary_round 53 1024 sign (p * Z.to_pos (10 ^ e)) 0
      else
        let '(q, e', l) := SFdiv_core_binary 53 1024 m 0 (10 ^ (- e)) 0 in
        binary_round_aux 53 1024 sign q e' l
  | _ => S754_zero sign
  end.

(** Digits from the front: their value on top of [acc], how many, and the rest. *)
Fixpoint take_digits (acc : Z) (count : nat) (l : bytes) : Z * nat * bytes :=
  match l with
  | b :: l' =>
      match digit_val 10 b with
      | Some d => take_digits (acc * 10 + d) (S count) l'
      | None => (acc, count, l)
      end
  | [] => (acc, count, [])
  end.

Definition take_sign (l : bytes) : bool * bytes :=
  match l with
  | b :: l' => if b =? 43 then (false, l') else if b =? 45 then (true, l') else (false, l)
  | [] => (false, [])
  end.

(** [e], an optional sign and digits, up to the end of the text. *)
Definition parse_exponent (l : bytes) : option Z :=
  match l with
  | [] => Some 0
  | b :: l =>
      if (b =? 101) || (b =? 69) then
        let '(sign, l) := take_sign l in
        let '(n, count, rest) := take_digits 0 0 l in
        if bool_decide (count = 0%nat) || negb (is_empty rest) then None
        else Some (if sign : bool then - n else n)
      else None
  end.

(** Digits with an optional point (at least one digit), and an exponent. *)
Definition parse_number (sign : bool) (l : bytes) : option f64 :=
  let '(n, whole, rest) := take_digits 0 0 l in
  let '(n, frac, rest) :=
    match rest with
    | b :: rest' => if b =? 46 then take_digits n 0 rest' else (n, O, rest)
    | [] => (n, O, rest)
    end in
  if bool_decide ((whole + frac)%nat = 0%nat) then None
  else e ← parse_exponent rest; Some (f64_of_decimal sign n (e - Z.of_nat frac)).

Definition parse_special (sign : bool) (l : bytes) : option f64 :=
  let s := to_ascii_lowercase (of_codes l) in
  if bool_decide (s = "inf") || bool_decide (s = "infinity") then Some (S754_infinity sign)
  else if bool_decide (s = "nan") then Some S754_nan else None.

(** [str::parse::<f64>]. *)
Definition parse_f64 (s : string) : result f64 :=
  match codes s with
  | [] => Err "cannot parse float from empty string"
  | l =>
      let '(sign, l) := take_sign l in
      match parse_number sign l with
      | Some x => Ok x
      | None => ok_or (parse_special sign l) "invalid float literal"
      end
  end.

(** ** Facts *)

Lemma trunc_mag_nonneg m e : 0 ≤ trunc_mag m e.
Proof.
  unfold trunc_mag. destruct (0 <=? e).
  - pose proof (Z.pow_nonneg 2 e). lia.
  - apply Z_div_nonneg_nonneg; [lia|apply Z.pow_nonneg; lia].
Qed.

Lemma f64_to_usize_bounds x : 0 ≤ f64_to_usize x ≤ usize_max.
Proof.
  destruct x as [[]|[]| |[] m e]; simpl; unfold usize_max; try lia.
  pose proof (trunc_mag_nonneg m e). lia.
Qed.

(** ** Checks on concrete text *)

Example parse_f64_ex : parse_f64 "0.66" = Ok (S754_finite false 5944751508129055 (-53)).
Proof. by vm_compute. Qed.
Example parse_f64_exp : parse_f64 "-25e-1" = Ok (S754_finite true 5629499534213120 (-51)).
Proof. by vm_compute. Qed.
Example parse_f64_point : parse_f64 ".5" = parse_f64 "5.E-1". Proof. by vm_compute. Qed.
Example parse_f64_bad : parse_f64 "." = Err "invalid float literal". Proof. by vm_compute. Qed.
Example parse_f64_trail : parse_f64 "1.0x" = Err "invalid float literal". Proof. by vm_compute. Qed.
Example parse_f64_special :
  parse_f64 "NaN" = Ok S754_nan ∧ parse_f64 "-Infinity" = Ok (S754_infinity true).
Proof. by vm_compute. Qed.
Example round_half : f64_to_usize (f64_round (f64_div (f64_of 5) (f64_of 2))) = 3.
Proof. by vm_compute. Qed.
Example usize_max_rounds_up : f64_of usize_max = f64_of (2 ^ 64). Proof. by vm_compute. Qed.
