(* ===== verification/FileSystem.v ===== *)
(** The part of the operating system the server's settings and key files use
    ([std::fs], [std::path], [std::env], [std::process]).

    A program is a tree of calls ([prog]); [run] executes one alone, [pool_step]
    interleaves the calls of several.  A call can fail for reasons the model does
    not know (permissions, a full disk): the class [Platform] decides.  Files
    are inodes, so that links, renames and open descriptors alias as they do on
    Unix; what a crash may lose is the part of [Sys] that was not synced. *)

From Stdlib Require Import Ascii String.
From S2P Require Import Prelude.
From S2P Require Import Text.

(** ** Paths *)

(** [std::path::Component]; a path is the list of its components, which is what
    [Path]'s own comparison looks at. *)
Inductive component := RootDir | CurDir | ParentDir | Normal (name : string).
#[export] Instance component_eq_dec : EqDecision component.
Proof. solve_decision. Defined.
#[export] Instance component_countable : Countable component.
Proof.
  refine (inj_countable'
    (λ c, match c with RootDir => inl 0%nat | CurDir => inl 1%nat | ParentDir => inl 2%nat
          | Normal n => inr n end)
    (λ x, match x with inl 0%nat => RootDir | inl 1%nat => CurDir | inl _ => ParentDir
          | inr n => Normal n end) _).
  by intros [].
Defined.
Abbreviation Path := (list component).

(** [Path::parent]. *)
Definition parent (p : Path) : option Path :=
  match reverse p with
  | [] | RootDir :: _ => None
  | _ :: r => Some (reverse r)
  end.
(** [Path::file_name]. *)
Definition file_name (p : Path) : option string :=
  match reverse p with Normal n :: _ => Some n | _ => None end.
(** [Path::join] with a name. *)
Definition join (p : Path) (name : string) : Path := p ++ [Normal name].
(** [OsString::push] of an extension to a path. *)
Definition push_ext (p : Path) (ext : string) : Path :=
  match reverse p with
  | Normal n :: r => reverse (Normal (n +:+ ext) :: r)
  | CurDir :: r => reverse (Normal ("." +:+ ext) :: r)
  | ParentDir :: r => reverse (Normal (".." +:+ ext) :: r)
  | RootDir :: _ | [] => p ++ [Normal ext]
  end.
(** [Path::display]. *)
Definition show_component (c : component) : string :=
  match c with RootDir => "" | CurDir => "." | ParentDir => ".." | Normal n => n end.
Definition display (p : Path) : string := join_char "/"%char (show_component <$> p).

(** What a path names, from the working directory: [./x] is [x]. *)
Definition resolve (p : Path) : Path := filter (λ c, c ≠ CurDir) p.

(** ** State *)

Inductive FileKind := RegularFile | DirectoryFile | OtherFile.
#[export] Instance FileKind_eq_dec : EqDecision FileKind.
Proof. solve_decision. Defined.

(** [i_synced]: the contents [sync_all] last wrote to the disk. *)
Record Inode := mkInode {
  i_kind : FileKind; i_bytes : bytes; i_mode : Z; i_synced : option bytes
}.
Abbreviation Ino := positive.

(** A symbolic link is never followed; [Path::exists] alone asks whether its
    target exists. *)
Inductive Entry := Hard (ino : Ino) | Symlink (target_exists : bool).
#[export] Instance Entry_eq_dec : EqDecision Entry.
Proof. solve_decision. Defined.

(** Directory entries as they are and as the disk has them, the inodes, and how
    many calls, UUIDs and key pairs the process has asked for. *)
Record Sys := mkSys {
  sys_entries : gmap Path Entry;
  sys_durable : gmap Path Entry;
  sys_inodes : gmap Ino Inode;
  sys_calls : nat;
  sys_uuids : nat;
  sys_keys : nat
}.

(** [io::ErrorKind], as far as the code looks at it. *)
Inductive IoErr := NotFound | AlreadyExists | OtherError.
#[export] Instance IoErr_eq_dec : EqDecision IoErr.
Proof. solve_decision. Defined.
Abbreviation IoResult A := (A + IoErr)%type.
Definition io_text (e : IoErr) : string :=
  match e with
  | NotFound => "No such file or directory"
  | AlreadyExists => "File exists"
  | OtherError => "Input/output error"
  end.

(** What varies between runs of the program: whether the n-th call fails, how
    much a failing write has written, the UUIDs and key pairs drawn (public and
    secret key), and the process's identifier and file mode mask. *)
Class Platform := {
  call_fails : nat → bool;
  written_before_failure : nat → nat;
  uuid_v4 : nat → string;
  gen_keypair : nat → bytes * bytes;
  process_id : Z;
  umask : Z
}.

(** ** Calls *)

Inductive syscall : Type → Type :=
  | SymlinkMetadata (p : Path) : syscall (IoResult (option FileKind))
  | PathExists (p : Path) : syscall bool
  | OpenNoFollow (p : Path) : syscall (IoResult Ino)
  | Metadata (fd : Ino) : syscall (IoResult (FileKind * Z * Z))
  | SetMode (fd : Ino) (mode : Z) : syscall (IoResult unit)
  | ReadToEnd (fd : Ino) (limit : Z) : syscall (IoResult bytes)
  | CreateNew (p : Path) (mode : Z) : syscall (IoResult Ino)
  | WriteAll (fd : Ino) (b : bytes) : syscall (IoResult unit)
  | SyncAll (fd : Ino) : syscall (IoResult unit)
  | SyncDirectory (p : Path) : syscall (IoResult unit)
  | HardLink (from to : Path) : syscall (IoResult unit)
  | RemoveFile (p : Path) : syscall (IoResult unit)
  | NewUuid : syscall string
  | GenKeypair : syscall (bytes * bytes).

Inductive prog (A : Type) : Type :=
  | Ret (a : A)
  | Call {R : Type} (c : syscall R) (k : R → prog A).
Arguments Ret {A} _.
Arguments Call {A R} _ _.

Fixpoint prog_bind {A B} (f : A → prog B) (p : prog A) : prog B :=
  match p with
  | Ret a => f a
  | Call c k => Call c (λ r, prog_bind f (k r))
  end.
Definition call {R} (c : syscall R) : prog R := Call c Ret.

(** Programs that can fail, as the source's [ResultType]. *)
Definition P (A : Type) : Type := prog (result A).
#[export] Instance P_ret : MRet P := λ A a, Ret (Ok a).
#[export] Instance P_bind : MBind P := λ A B f p,
  prog_bind (λ r, match r with Ok a => f a | Err e => Ret (Err e) end) p.
Definition fail {A} (e : string) : P A := Ret (Err e).
Definition of_result {A} (r : result A) : P A := Ret r.
(** [call?], with the error's own text or with a context. *)
Definition io {A} (c : syscall (IoResult A)) : P A :=
  Call c (λ r, Ret (match r with inl a => Ok a | inr e => Err (io_text e) end)).
Definition io_ctx {A} (c : syscall (IoResult A)) (context : string) : P A :=
  Call c (λ r, Ret (match r with inl a => Ok a | inr _ => Err context end)).
(** A call whose outcome is matched on. *)
Definition ask {R} (c : syscall R) : P R := Call c (λ r, Ret (Ok r)).
(** The outcome as a value. *)
Definition catch {A} (p : P A) : P (result A) := prog_bind (λ r, Ret (Ok r)) p.

(** ** What the calls do *)

Section Exec.
Context `{!Platform}.
Implicit Types s : Sys.

Definition lookup_path s (p : Path) : option Entry := sys_entries s !! resolve p.
Definition inode_at s (p : Path) : option (Ino * Inode) :=
  match lookup_path s p with
  | Some (Hard ino) => pair ino <$> sys_inodes s !! ino
  | _ => None
  end.

Definition tick s : Sys :=
  mkSys (sys_entries s) (sys_durable s) (sys_inodes s) (S (sys_calls s)) (sys_uuids s) (sys_keys s).
Definition set_entries (m : gmap Path Entry) s : Sys :=
  mkSys m (sys_durable s) (sys_inodes s) (sys_calls s) (sys_uuids s) (sys_keys s).
Definition set_durable (m : gmap Path Entry) s : Sys :=
  mkSys (sys_entries s) m (sys_inodes s) (sys_calls s) (sys_uuids s) (sys_keys s).
Definition set_inodes (m : gmap Ino Inode) s : Sys :=
  mkSys (sys_entries s) (sys_durable s) m (sys_calls s) (sys_uuids s) (sys_keys s).
Definition set_inode (ino : Ino) (i : Inode) s : Sys := set_inodes (<[ino := i]> (sys_inodes s)) s.
Definition set_entry (p : Path) (e : Entry) s : Sys :=
  set_entries (<[resolve p := e]> (sys_entries s)) s.

Definition in_directory (d p : Path) : Prop := resolve p = resolve d ++ drop (length (resolve d)) (resolve p)
  ∧ length (resolve p) = S (length (resolve d)).
#[export] Instance in_directory_dec d p : Decision (in_directory d p).
Proof. unfold in_directory. apply _. Defined.
(** [sync_all] on a directory: its entries reach the disk. *)
Definition sync_directory (d : Path) s : Sys :=
  set_durable (filter (λ x, in_directory d x.1) (sys_entries s)
               ∪ filter (λ x, ¬ in_directory d x.1) (sys_durable s)) s.

(** The call, when nothing unforeseen happens. *)
Definition perform {R} (c : syscall R) s : R * Sys :=
  match c with
  | SymlinkMetadata p =>
      (match lookup_path s p with
       | None => inr NotFound
       | Some (Symlink _) => inl None
       | Some (Hard ino) => match sys_inodes s !! ino with
                            | Some i => inl (Some (i_kind i))
                            | None => inr OtherError
                            end
       end, s)
  | PathExists p => (match lookup_path s p with
       Some (Hard _) => true | Some (Symlink b) => b | None => false end, s)
  | OpenNoFollow p =>
      (match lookup_path s p with
       | None => inr NotFound
       | Some (Symlink _) => inr OtherError
       | Some (Hard ino) => inl ino
       end, s)
  | Metadata fd =>
      (match sys_inodes s !! fd with
       | Some i => inl (i_kind i, len (i_bytes i), i_mode i)
       | None => inr OtherError
       end, s)
  | SetMode fd mode =>
      match sys_inodes s !! fd with
      | Some i => (inl tt, set_inode fd (mkInode (i_kind i) (i_bytes i) mode (i_synced i)) s)
      | None => (inr OtherError, s)
      end
  | ReadToEnd fd limit =>
      (match sys_inodes s !! fd with
       | Some i => inl (take (Z.to_nat limit) (i_bytes i))
       | None => inr OtherError
       end, s)
  | CreateNew p mode =>
      match lookup_path s p with
      | Some _ => (inr AlreadyExists, s)
      | None =>
          let ino := fresh (dom (sys_inodes s)) in
          (inl ino, set_entry p (Hard ino)
             (set_inode ino (mkInode RegularFile [] (Z.ldiff mode umask) None) s))
      end
  | WriteAll fd b =>
      match sys_inodes s !! fd with
      | Some i => (inl tt, set_inode fd (mkInode (i_kind i) (i_bytes i ++ b) (i_mode i) (i_synced i)) s)
      | None => (inr OtherError, s)
      end
  | SyncAll fd =>
      match sys_inodes s !! fd with
      | Some i => (inl tt, set_inode fd (mkInode (i_kind i) (i_bytes i) (i_mode i) (Some (i_bytes i))) s)
      | None => (inr OtherError, s)
      end
  | SyncDirectory p => (inl tt, sync_directory p s)
  | HardLink from to =>
      match lookup_path s from with
      | None => (inr NotFound, s)
      | Some e => match lookup_path s to with
                  | Some _ => (inr AlreadyExists, s)
                  | None => (inl tt, set_entry to e s)
                  end
      end
  | RemoveFile p =>
      match lookup_path s p with
      | None => (inr NotFound, s)
      | Some (Hard ino) =>
          match sys_inodes s !! ino with
          | Some i => if decide (i_kind i = DirectoryFile) then (inr OtherError, s)
                      else (inl tt, set_entries (delete (resolve p) (sys_entries s)) s)
          | None => (inr OtherError, s)
          end
      | Some (Symlink _) => (inl tt, set_entries (delete (resolve p) (sys_entries s)) s)
      end
  | NewUuid =>
      (uuid_v4 (sys_uuids s),
       mkSys (sys_entries s) (sys_durable s) (sys_inodes s) (sys_calls s) (S (sys_uuids s)) (sys_keys s))
  | GenKeypair =>
      (gen_keypair (sys_keys s),
       mkSys (sys_entries s) (sys_durable s) (sys_inodes s) (sys_calls s) (sys_uuids s) (S (sys_keys s)))
  end.

(** The call when it fails: nothing happened, except that a write may have
    written a part. *)
Definition perform_failing {R} (c : syscall R) s : R * Sys :=
  match c with
  | SymlinkMetadata _ | OpenNoFollow _ | Metadata _ | SetMode _ _ | ReadToEnd _ _
  | CreateNew _ _ | SyncAll _ | SyncDirectory _ | HardLink _ _ | RemoveFile _ => (inr OtherError, s)
  | WriteAll fd b =>
      (inr OtherError,
       match sys_inodes s !! fd with
       | Some i => set_inode fd (mkInode (i_kind i)
                     (i_bytes i ++ take (written_before_failure (sys_calls s)) b) (i_mode i) (i_synced i)) s
       | None => s
       end)
  | PathExists _ => (false, s)
  | NewUuid => perform NewUuid s
  | GenKeypair => perform GenKeypair s
  end.

Definition exec {R} (c : syscall R) s : R * Sys :=
  if call_fails (sys_calls s) then perform_failing c (tick s) else perform c (tick s).

Fixpoint run {A} (p : prog A) s : A * Sys :=
  match p with
  | Ret a => (a, s)
  | Call c k => let '(r, s') := exec c s in run (k r) s'
  end.

(** Several threads of the process, one call at a time. *)
Inductive pool_step {A} : list (prog A) * Sys → list (prog A) * Sys → Prop :=
  | pool_call ts1 R (c : syscall R) k ts2 s r s' :
      exec c s = (r, s') →
      pool_step (ts1 ++ Call c k :: ts2, s) (ts1 ++ k r :: ts2, s').

(** The call of thread [i]. *)
Inductive thread_step {A} (i : nat) : list (prog A) * Sys → list (prog A) * Sys → Prop :=
  | thread_call ts R (c : syscall R) k s r s' :
      ts !! i = Some (Call c k) → exec c s = (r, s') →
      thread_step i (ts, s) (<[i := k r]> ts, s').

Lemma thread_pool_step {A} i (x y : list (prog A) * Sys) : thread_step i x y → pool_step x y.
Proof.
  intros [ts R c k s r s' Hi Hr]. pose proof (lookup_lt_Some _ _ _ Hi) as Hlt.
  rewrite insert_take_drop by done. rewrite <-(take_drop_middle ts i _ Hi) at 1. by constructor.
Qed.

(** What a crash leaves: each entry as it is or as the disk has it, and of an
    inode whatever was synced last, or anything if it was changed since. *)
Record crashed s s' : Prop := {
  crash_entries : ∀ p, sys_entries s' !! p = sys_entries s !! p
                       ∨ sys_entries s' !! p = sys_durable s !! p;
  crash_durable : sys_durable s' = sys_entries s';
  crash_inodes : ∀ ino i', sys_inodes s' !! ino = Some i' → ∃ i, sys_inodes s !! ino = Some i ∧
    i_kind i' = i_kind i ∧ (i_synced i = Some (i_bytes i) → i_bytes i' = i_bytes i ∧ i_synced i' = Some (i_bytes i));
  crash_inodes_kept : ∀ ino, is_Some (sys_inodes s !! ino) → is_Some (sys_inodes s' !! ino)
}.
End Exec.

(** ** Lemmas *)

Section RunLemmas.
Context `{!Platform}.

Lemma run_bind {A B} (f : A → prog B) (p : prog A) s :
  run (prog_bind f p) s = let '(a, s') := run p s in run (f a) s'.
Proof.
  revert s. induction p as [a|R c k IH]; intros s; [done|]. simpl.
  destruct (exec c s) as [r s']. apply IH.
Qed.

Lemma run_P_bind {A B} (f : A → P B) (p : P A) s :
  run (p ≫= f) s = let '(r, s') := run p s in
    match r with Ok a => run (f a) s' | Err e => (Err e, s') end.
Proof.
  unfold mbind, P_bind. rewrite run_bind. by destruct (run p s) as [[] s'].
Qed.

Lemma run_call {A R} (c : syscall R) (k : R → prog A) s :
  run (Call c k) s = let '(r, s') := exec c s in run (k r) s'.
Proof. done. Qed.
End RunLemmas.

(** ** Reading a file (src/common.rs) *)

Definition open_readonly_no_follow (p : Path) : syscall (IoResult Ino) := OpenNoFollow p.

Definition read_bounded_open_file (fd : Ino) (path : Path) (max_bytes : Z) (label : string) : P bytes :=
  m ← io_ctx (Metadata fd) ("Unable to inspect " +:+ label +:+ ": " +:+ display path);
  let '(kind, length, _) := m in
  if decide (kind ≠ RegularFile)
  then fail (label +:+ " path is not a regular file: " +:+ display path) else
  if max_bytes <? length
  then fail (label +:+ " exceeds the " +:+ show max_bytes +:+ "-byte limit: " +:+ display path) else
  contents ← io_ctx (ReadToEnd fd (max_bytes + 1)) ("Unable to read " +:+ label +:+ ": " +:+ display path);
  if max_bytes <? len contents
  then fail (label +:+ " exceeds the " +:+ show max_bytes +:+ "-byte limit: " +:+ display path)
  else mret contents.

Definition read_bounded_regular_file (path : Path) (max_bytes : Z) (label : string) : P bytes :=
  fd ← io_ctx (open_readonly_no_follow path) ("Unable to open " +:+ label +:+ ": " +:+ display path);
  read_bounded_open_file fd path max_bytes label.

(** What a bounded read guarantees, alone on the machine: the whole contents of
    a regular file within the limit, not reached through a final symbolic link;
    and reading changes nothing. *)
Section Reading.
Context `{!Platform}.

Definition same_files (s s' : Sys) : Prop :=
  sys_entries s' = sys_entries s ∧ sys_durable s' = sys_durable s ∧ sys_inodes s' = sys_inodes s ∧
  sys_uuids s' = sys_uuids s ∧ sys_keys s' = sys_keys s.

Lemma same_files_refl s : same_files s s.
Proof. done. Qed.
Lemma same_files_trans s1 s2 s3 : same_files s1 s2 → same_files s2 s3 → same_files s1 s3.
Proof. unfold same_files. intuition congruence. Qed.

(** The calls that only look. *)
Definition looks {R} (c : syscall R) : bool :=
  match c with
  | SymlinkMetadata _ | PathExists _ | OpenNoFollow _ | Metadata _ | ReadToEnd _ _ => true
  | _ => false
  end.

Lemma exec_looks {R} (c : syscall R) s : looks c = true → same_files s (exec c s).2.
Proof.
  intros Hc. unfold exec. destruct c; try done; destruct (call_fails _); by repeat split.
Qed.

Lemma read_bounded_ok path max label s b s' :
  run (read_bounded_regular_file path max label) s = (Ok b, s') →
  same_files s s' ∧ len b ≤ max ∧
  ∃ ino i, inode_at s path = Some (ino, i) ∧ i_kind i = RegularFile ∧ i_bytes i = b.
Proof.
  unfold read_bounded_regular_file, read_bounded_open_file, io_ctx, open_readonly_no_follow.
  rewrite run_P_bind, run_call. pose proof (exec_looks (OpenNoFollow path) s eq_refl) as Hsame1.
  destruct (exec (OpenNoFollow path) s) as [[fd|e] s1] eqn:Hopen; [|done]. cbn [run].
  rewrite run_P_bind, run_call. pose proof (exec_looks (Metadata fd) s1 eq_refl) as Hsame2.
  destruct (exec (Metadata fd) s1) as [[[[kind n] mode]|e] s2] eqn:Hmeta; [|done]. cbn [run].
  destruct (decide (kind ≠ RegularFile)) as [|Hkind]; [done|]. destruct (max <? n) eqn:Hn; [done|].
  rewrite run_P_bind, run_call. pose proof (exec_looks (ReadToEnd fd (max + 1)) s2 eq_refl) as Hsame3.
  destruct (exec (ReadToEnd fd (max + 1)) s2) as [[c|e] s3] eqn:Hread; [|done]. cbn [run].
  destruct (max <? len c) eqn:Hlen; [done|]. intros [= <- <-]. apply dec_stable in Hkind as ->.
  simpl in Hsame1, Hsame2, Hsame3.
  split; [by eapply same_files_trans, same_files_trans|]. split; [lia|].
  unfold exec in Hopen, Hmeta, Hread. destruct (call_fails _) in Hopen; [done|].
  destruct (call_fails _) in Hmeta; [done|]. destruct (call_fails _) in Hread; [done|].
  simpl in Hopen, Hmeta, Hread. destruct Hsame1 as (E1 & _ & I1 & _), Hsame2 as (_ & _ & I2 & _).
  destruct (lookup_path (tick s) path) as [[ino|]|] eqn:Hl; [|done..]. injection Hopen as -> Hs1.
  clear Hs1. rewrite I1 in Hmeta. rewrite I2, I1 in Hread.
  destruct (sys_inodes s !! fd) as [i|] eqn:Hi; [|done]. injection Hmeta as Hk Hn' _ _.
  injection Hread as <- _. exists fd, i. split_and!; [|done|].
  - unfold inode_at. unfold lookup_path in Hl |- *. simpl in Hl. by rewrite Hl, Hi.
  - symmetry. apply take_ge. unfold len in *. lia.
Qed.
End Reading.

(** A machine on which every call works; its UUIDs and keys are numbered. *)
Fixpoint tally (n : nat) : string := match n with O => EmptyString | S n => String "x"%char (tally n) end.
Definition numbered (n : nat) : bytes := replicate 31 7 ++ [Z.of_nat n mod 256].
#[export] Instance sample_platform : Platform | 100 := {|
  call_fails _ := false;
  written_before_failure _ := O;
  uuid_v4 n := "uuid-" +:+ tally n;
  gen_keypair n := (numbered n, numbered n ++ numbered n);
  process_id := 7;
  umask := 18
|}.
