(* ===== verification/Config.v ===== *)
(** Settings ([src/common.rs], and what [src/main.rs] and [src/relay.rs] read).

    Settings live in the process's environment: [init_args] loads the optional
    [.env] file, the file given on the command line, and the command line itself,
    in this order.  A start-up computation runs on the file system and the
    environment ([Process]).  The INI parser, the command-line parser and the URL
    parser are outside the repository. *)

From Stdlib Require Import Ascii String.
From S2P Require Import Prelude.
From S2P Require Import Text.
From S2P Require Import Net.
From S2P Require Import FileSystem.
From S2P Require Import HttpProxy.

(** ** Data *)

(** The environment; a value need not be UTF-8. *)
Abbreviation Env := (gmap string string).
Record Process := mkProcess { pr_sys : Sys; pr_env : Env }.
Definition set_sys (s : Sys) (p : Process) : Process := mkProcess s (pr_env p).
Definition set_env (e : Env) (p : Process) : Process := mkProcess (pr_sys p) e.

(** [Ini::load_from_str] followed by [section(None)]: an error, or the keys and
    values before the first section, in order. *)
Class IniLibrary := ini_general_section : string → option (list (string * string)).

(** What [clap] found on the command line: the values of the arguments that have
    one, in the order of [matches.ids()]. *)
Record Matches := mkMatches { mt_values : list (string * string) }.
Definition get_one (m : Matches) (id : string) : option string :=
  snd <$> List.find (λ x, bool_decide (x.1 = id)) (mt_values m).

(** An option that takes a value ([clap::Arg]). *)
Record Arg := mkArg {
  arg_id : string; arg_short : option ascii; arg_long : string; arg_value_name : string; arg_help : string
}.

(** The options [src/main.rs] declares; the default port is the protocol
    library's. *)
Definition RMEM : Z := 0.
Definition identity_args (rendezvous_port : Z) : list Arg := [
  mkArg "config" (Some "c"%char) "config" "FILE" "Sets a custom config file";
  mkArg "bind" (Some "b"%char) "bind" "IP" "Sets the IP address to bind to (default: all interfaces)";
  mkArg "port" (Some "p"%char) "port" ("NUMBER(default=" +:+ show rendezvous_port +:+ ")") "Sets the listening port";
  mkArg "relay-servers" (Some "r"%char) "relay-servers" "HOST"
    "Sets the default relay servers, separated by comma";
  mkArg "api-server" None "api-server" "URL" "Sets the API server used by the built-in TCP API proxy";
  mkArg "trust-proxy-headers" None "trust-proxy-headers" "Y/N"
    "Trust X-Real-IP/X-Forwarded-For on websocket listeners";
  mkArg "rmem" (Some "M"%char) "rmem" ("NUMBER(default=" +:+ show RMEM +:+ ")")
    "Sets UDP recv buffer size, set system rmem_max first, e.g., sudo sysctl -w net.core.rmem_max=52428800. vi /etc/sysctl.conf, net.core.rmem_max=52428800, sudo sysctl –p";
  mkArg "key" (Some "k"%char) "key" "KEY" "Only allow the client with the same key"].

(** Those of [src/relay.rs]. *)
Definition relay_args (relay_port : Z) : list Arg := [
  mkArg "bind" (Some "b"%char) "bind" "IP" "Sets the IP address to bind to (default: all interfaces)";
  mkArg "port" (Some "p"%char) "port" ("NUMBER(default=" +:+ show relay_port +:+ ")") "Sets the listening port";
  mkArg "key" (Some "k"%char) "key" "KEY" "Only allow the client with the same key";
  mkArg "trust-proxy-headers" None "trust-proxy-headers" "Y/N"
    "Trust X-Real-IP/X-Forwarded-For on websocket listeners"].

(** What [clap] can find for these options: each of them at most once.  (A second
    occurrence is an error of the command line.) *)
Definition parsed_from (args : list Arg) (m : Matches) : Prop :=
  NoDup (mt_values m).*1 ∧ (mt_values m).*1 ⊆ arg_id <$> args.

(** [Path::new] on a relative or absolute path, component by component. *)
Definition path_of (s : string) : Path :=
  let root := starts_with "/" s in
  let pieces := split_char "/"%char s in
  let component_of (first : bool) (x : string) : list component :=
    if str_empty x then []
    else if bool_decide (x = ".") then (if first then [CurDir] else [])
    else if bool_decide (x = "..") then [ParentDir] else [Normal x] in
  match pieces with
  | [] => []
  | x :: rest =>
      (if root then [RootDir] else component_of true x) ++ concat (component_of false <$> rest)
  end.

(** ** Environment *)

Section Environment.
Context `{!Platform} `{!IniLibrary}.

Definition on_sys {A} (p : P A) : M Process A := λ st,
  let '(r, s) := run p (pr_sys st) in (r, set_sys s st).

Definition PREFIX : string := "CAMELLIA_REMOTE_".

Definition arg_name (name : string) : string :=
  let normalized := replace_char "-"%char "_"%char (to_ascii_uppercase (trim name)) in
  if starts_with PREFIX normalized then normalized else PREFIX +:+ normalized.

(** [std::env::set_var], which panics on a name or a value the platform cannot
    store; start-up ends there, as it does on an error. *)
Definition settable (key value : string) : bool :=
  negb (str_empty key) && negb (contains_char "="%char key)
  && negb (contains_char (chr 0) key) && negb (contains_char (chr 0) value).
Definition set_var (key value : string) : M Process unit :=
  if settable key value then modify (λ st, set_env (<[key := value]> (pr_env st)) st)
  else bail "panicked: failed to set environment variable".

Definition set_arg (name value : string) : M Process unit := set_var (arg_name name) value.

(** [std::env::var(..).ok()]. *)
Definition env_var (name : string) (e : Env) : option string :=
  v ← e !! name; if is_utf8 (codes v) then Some v else None.

Definition get_arg_opt (name : string) (e : Env) : option string := env_var (arg_name name) e.
Definition get_arg_or (name default : string) (e : Env) : string :=
  match get_arg_opt name e with Some v => v | None => default end.
Definition get_arg (name : string) (e : Env) : string := get_arg_or name "" e.

(** The loop over the general section. *)
Fixpoint set_entries_of (l : list (string * string)) : M Process unit :=
  match l with
  | [] => mret tt
  | (key, value) :: l =>
      if bool_decide (arg_name key ≠ key)
      then bail ("Configuration keys must use the CAMELLIA_REMOTE_ prefix: " +:+ key)
      else set_var key value;; set_entries_of l
  end.

Definition MAX_CONFIG_BYTES : Z := 1024 * 1024.
Definition load_arg_file (path : Path) : M Process unit :=
  contents ← on_sys (read_bounded_regular_file path MAX_CONFIG_BYTES "Configuration file");
  contents ← lift (ok_or (utf8_of contents) ("Configuration file is not UTF-8: " +:+ display path));
  values ← lift (ok_or (ini_general_section contents)
                   ("Unable to parse configuration file: " +:+ display path));
  set_entries_of values.

Definition load_arg_file_if_present (path : Path) : M Process unit :=
  found ← on_sys (ask (SymlinkMetadata path));
  match found with
  | inl _ => load_arg_file path
  | inr NotFound => mret tt
  | inr _ => bail ("Unable to inspect configuration file: " +:+ display path)
  end.

Fixpoint set_args (l : list (string * string)) : M Process unit :=
  match l with
  | [] => mret tt
  | (id, v) :: l => set_arg id v;; set_args l
  end.

Definition init_args (m : Matches) : M Process unit :=
  load_arg_file_if_present (path_of ".env");;
  match get_one m "config" with
  | Some config => load_arg_file (path_of config)
  | None => mret tt
  end;;
  set_args (mt_values m).
End Environment.

(** ** Typed settings *)

(** [filter(|value| !value.trim().is_empty())]. *)
Definition not_blank (v : option string) : option string :=
  x ← v; if str_empty (trim x) then None else Some x.

Definition parse_yes_no (name value : string) : result bool :=
  let v := to_ascii_uppercase (trim value) in
  if bool_decide (v = "Y") then Ok true
  else if bool_decide (v = "N") then Ok false
  else Err (name +:+ " must be Y or N").

Definition get_yes_no_arg (name : string) (dflt : bool) (e : Env) : result bool :=
  match not_blank (get_arg_opt name e) with
  | Some value => parse_yes_no name value
  | None => Ok dflt
  end.

Definition get_bounded_usize_arg (name : string) (dflt minimum maximum : Z) (e : Env) : result Z :=
  value ← match not_blank (get_arg_opt name e) with
          | Some value => ok_or (parse_usize value) (name +:+ " must be an integer")
          | None => Ok dflt
          end;
  if negb ((minimum <=? value) && (value <=? maximum))
  then Err (name +:+ " must be between " +:+ show minimum +:+ " and " +:+ show maximum)
  else Ok value.

Definition parse_bind_address (value : string) : result (option IpAddr) :=
  let value := trim value in
  if str_empty value then Ok None
  else ip ← ok_or (parse_ip value) ("Invalid bind address: " +:+ value); Ok (Some ip).

Definition console_addr (bind_addr : option IpAddr) (port : Z) : option SocketAddr :=
  match bind_addr with
  | None => None
  | Some a =>
      if is_unspecified a || bool_decide (a = V4 LOCALHOST_V4) then None
      else Some (socket_addr_new (V4 LOCALHOST_V4) port)
  end.

(** [src/main.rs]: the identity server's port and receive buffer; the default
    port is the protocol library's.  (Of the integer parser's messages the model
    keeps one.) *)
Definition identity_port (rendezvous_port : Z) (e : Env) : result Z :=
  let text := match get_arg_opt "PORT" e with
              | Some v => v
              | None => match get_arg_opt "CAMELLIA_REMOTE_IDENTITY_PORT" e with
                        | Some v => v
                        | None => show rendezvous_port
                        end
              end in
  port ← ok_or (parse_i32 text) "invalid digit found in string";
  if negb ((3 <=? port) && (port <=? 65533)) then Err "Port must be between 3 and 65533" else Ok port.

Definition identity_rmem (e : Env) : result Z :=
  match not_blank (get_arg_opt "rmem" e) with
  | Some value => parse_usize_text value
  | None => Ok RMEM
  end.

(** [src/relay.rs]: what the relay is started with. *)
Record RelaySettings := mkRelaySettings {
  rl_bind : option IpAddr; rl_port : string; rl_key : string; rl_trust_proxy_headers : bool
}.
Definition relay_settings (relay_port : Z) (m : Matches) (e : Env) : result RelaySettings :=
  let default_port := get_arg_or "CAMELLIA_REMOTE_RELAY_PORT" (show relay_port) e in
  let bind := default (get_arg "BIND" e) (get_one m "bind") in
  bind_addr ← parse_bind_address bind;
  let key := default (get_arg "KEY" e) (get_one m "key") in
  trust ← match get_one m "trust-proxy-headers" with
          | Some value => parse_yes_no "trust-proxy-headers" value
          | None => get_yes_no_arg "TRUST_PROXY_HEADERS" false e
          end;
  Ok (mkRelaySettings bind_addr (default default_port (get_one m "port")) key trust).

(** ** Server lists *)

Section Servers.
Context `{H : !HttpLibrary}.

Definition MAX_SERVER_LIST_BYTES : Z := 4 * 1024.
Definition MAX_SERVER_COUNT : Z := 64.
Definition MAX_SERVER_BYTES : Z := 512.

Definition placeholder_host (host : string) : bool :=
  let canonical_host := to_ascii_lowercase (trim_end_char "."%char host) in
  bool_decide (canonical_host = "invalid") || ends_with ".invalid" canonical_host.

Definition more_than_host (parsed : Url) : bool :=
  negb (str_empty (url_username parsed)) || bool_decide (is_Some (url_password parsed))
  || bool_decide (is_Some (url_query parsed)) || bool_decide (is_Some (url_fragment parsed))
  || negb (str_empty (url_path parsed) || bool_decide (url_path parsed = "/"))
  || bool_decide (url_port parsed = Some 0).

(** One entry: the checks of the loop body. *)
Definition check_server (name server : string) : result unit :=
  if str_empty server then Err (name +:+ " contains an empty server entry") else
  if (MAX_SERVER_BYTES <? slen server) || has_control server
  then Err (name +:+ " contains an invalid server") else
  parsed ← with_context (url_parse ("tcp://" +:+ server))
             (name +:+ " contains an invalid server: " +:+ server);
  host ← ok_or (url_host_str parsed) (name +:+ " server has no host: " +:+ server);
  if more_than_host parsed
  then Err (name +:+ " must contain only host or host:port values") else
  if placeholder_host host
  then Err (name +:+ " contains a placeholder .invalid host") else Ok tt.

(** The loop: [seen] and [servers] hold the same entries. *)
Fixpoint collect_servers (name : string) (pieces servers : list string) : result (list string) :=
  match pieces with
  | [] => Ok servers
  | raw_server :: pieces =>
      let server := trim raw_server in
      check_server name server ≫= λ _,
      if bool_decide (server ∈ servers) then collect_servers name pieces servers
      else
        let servers := servers ++ [server] in
        if MAX_SERVER_COUNT <? len servers then Err (name +:+ " contains too many servers")
        else collect_servers name pieces servers
  end.

Definition get_servers (value name : string) : result (list string) :=
  if MAX_SERVER_LIST_BYTES <? slen value then Err (name +:+ " is too large")
  else if str_empty (trim value) then Ok []
  else collect_servers name (split_char ","%char value) [].

Definition server_with_default_port (server name : string) (default_port : Z) : result string :=
  parsed ← with_context (url_parse ("tcp://" +:+ server))
             (name +:+ " contains an invalid server: " +:+ server);
  match url_port parsed with
  | Some _ => Ok server
  | None =>
      host ← ok_or (url_host_str parsed) (name +:+ " server has no host: " +:+ server);
      Ok (host +:+ ":" +:+ show default_port)
  end.
End Servers.

(** ** The management credential (src/rendezvous_server.rs) *)

Definition device_verification_token `{!Platform} : M Process string :=
  e ← gets pr_env;
  let direct := (v ← env_var "CAMELLIA_REMOTE_DEVICE_VERIFICATION_TOKEN" e;
                 if str_empty v then None else Some v) in
  let file := (v ← get_arg_opt "device-verification-token-file" e;
               if str_empty v then None else Some v) in
  if bool_decide (is_Some direct) && bool_decide (is_Some file)
  then bail ("Set only one of CAMELLIA_REMOTE_DEVICE_VERIFICATION_TOKEN or " +:+
             "CAMELLIA_REMOTE_DEVICE_VERIFICATION_TOKEN_FILE") else
  match file with
  | Some path =>
      value ← on_sys (read_bounded_regular_file (path_of path) 4096
                        "CAMELLIA_REMOTE_DEVICE_VERIFICATION_TOKEN_FILE");
      value ← lift (ok_or (utf8_of value)
                      "CAMELLIA_REMOTE_DEVICE_VERIFICATION_TOKEN_FILE must be UTF-8");
      mret (trim value)
  | None => mret (default "" direct)
  end.

(** ** Lemmas *)

(** Assignments to the environment, in order. *)
Definition assign (l : list (string * string)) (e : Env) : Env :=
  foldl (λ e kv, <[kv.1 := kv.2]> e) e l.

(** The last assignment of a key. *)
Fixpoint last_value (key : string) (l : list (string * string)) : option string :=
  match l with
  | [] => None
  | kv :: l => match last_value key l with
               | Some v => Some v
               | None => if decide (kv.1 = key) then Some kv.2 else None
               end
  end.

Lemma assign_lookup l e key :
  assign l e !! key = match last_value key l with Some v => Some v | None => e !! key end.
Proof.
  revert e. induction l as [|[k v] l IH]; intros e; [done|]. simpl. rewrite IH.
  destruct (last_value key l); [done|]. simpl.
  destruct (decide (k = key)) as [->|]; [by rewrite lookup_insert_eq|by rewrite lookup_insert_ne].
Qed.

Lemma assign_app l l' e : assign (l ++ l') e = assign l' (assign l e).
Proof. apply foldl_app. Qed.

(** What a settings file contains. *)
Definition file_settings `{!IniLibrary} (s : Sys) (path : Path) (l : list (string * string)) : Prop :=
  ∃ ino i text, inode_at s path = Some (ino, i) ∧ i_kind i = RegularFile ∧
    len (i_bytes i) ≤ MAX_CONFIG_BYTES ∧ utf8_of (i_bytes i) = Some text ∧
    ini_general_section text = Some l ∧ Forall (λ kv, arg_name kv.1 = kv.1) l.

Section EnvironmentLemmas.
Context `{!Platform} `{!IniLibrary}.

(** What a step of start-up does on success: the files stay, and it assigns. *)
Definition assigns (st st' : Process) (l : list (string * string)) : Prop :=
  same_files (pr_sys st) (pr_sys st') ∧ pr_env st' = assign l (pr_env st).

Lemma assigns_trans st1 st2 st3 l l' :
  assigns st1 st2 l → assigns st2 st3 l' → assigns st1 st3 (l ++ l').
Proof.
  intros [H1 E1] [H2 E2]. split; [by eapply same_files_trans|]. by rewrite assign_app, E2, E1.
Qed.

Definition succeeds {A} (m : M Process A) (Q : A → Process → Prop) (st : Process) : Prop :=
  wp m (λ r st', match r with Ok a => Q a st' | Err _ => True end) st.

Lemma succeeds_bind {A B} (m : M Process A) (f : A → M Process B) Q st :
  succeeds m (λ a st', succeeds (f a) Q st') st → succeeds (m ≫= f) Q st.
Proof.
  unfold succeeds. intros Hm. apply wp_bind. eapply wp_mono; [|exact Hm]. by intros [] st' ?.
Qed.

Lemma succeeds_mono {A} (m : M Process A) (Q Q' : A → Process → Prop) st :
  (∀ a st', Q a st' → Q' a st') → succeeds m Q st → succeeds m Q' st.
Proof. intros HQ. apply wp_mono. intros []; eauto. Qed.

Lemma succeeds_any {A} (m : M Process A) st : succeeds m (λ _ _, True) st.
Proof. apply wp_intro. by intros [] ?. Qed.

Lemma succeeds_lift {A} (r : result A) (Q : A → Process → Prop) st :
  (∀ a, r = Ok a → Q a st) → succeeds (lift r) Q st.
Proof. intros HQ. apply wp_lift. destruct r; auto. Qed.

Lemma succeeds_on_sys {A} (p : P A) (Q : A → Process → Prop) st :
  (∀ a s', run p (pr_sys st) = (Ok a, s') → Q a (set_sys s' st)) → succeeds (on_sys p) Q st.
Proof.
  intros HQ. unfold succeeds, wp, on_sys. destruct (run p (pr_sys st)) as [[a|e] s']; [|done].
  by apply HQ.
Qed.

Lemma set_var_assigns key value st : succeeds (set_var key value) (λ _ st', assigns st st' [(key, value)]) st.
Proof.
  unfold succeeds, set_var. destruct (settable key value); [|by apply wp_bail].
  apply wp_modify. split; [apply same_files_refl|done].
Qed.

Lemma set_entries_assigns l st :
  succeeds (set_entries_of l)
    (λ _ st', assigns st st' l ∧ Forall (λ kv, arg_name kv.1 = kv.1) l) st.
Proof.
  revert st. induction l as [|[k v] l IH]; intros st; simpl.
  { apply wp_ret. split; [|done]. split; [apply same_files_refl|done]. }
  case_bool_decide as Hk; [by apply wp_bail|].
  apply succeeds_bind. eapply succeeds_mono; [|apply set_var_assigns]. simpl. intros _ st1 H1.
  eapply succeeds_mono; [|apply IH]. simpl. intros _ st2 [H2 Hl].
  split; [exact (assigns_trans _ _ _ _ _ H1 H2)|by constructor].
Qed.

Lemma set_args_assigns l st :
  succeeds (set_args l) (λ _ st', assigns st st' ((λ kv, (arg_name kv.1, kv.2)) <$> l)) st.
Proof.
  revert st. induction l as [|[k v] l IH]; intros st; simpl.
  { apply wp_ret. split; [apply same_files_refl|done]. }
  apply succeeds_bind. eapply succeeds_mono; [|apply set_var_assigns]. simpl. intros _ st1 H1.
  eapply succeeds_mono; [|apply IH]. simpl. intros _ st2 H2. exact (assigns_trans _ _ _ _ _ H1 H2).
Qed.

Lemma load_arg_file_assigns path st :
  succeeds (load_arg_file path)
    (λ _ st', ∃ l, assigns st st' l ∧ file_settings (pr_sys st) path l) st.
Proof.
  apply succeeds_bind, succeeds_on_sys. intros b s' Hrun.
  apply read_bounded_ok in Hrun as (Hsame & Hlen & ino & i & Hi & Hkind & <-).
  apply succeeds_bind, succeeds_lift. intros text Htext%ok_or_ok.
  apply succeeds_bind, succeeds_lift. intros l Hl%ok_or_ok.
  eapply succeeds_mono; [|apply set_entries_assigns]. simpl. intros _ st' [[Hsame' Henv] Hkeys].
  exists l. split.
  - split; [by eapply same_files_trans|done].
  - by exists ino, i, text.
Qed.

Lemma same_files_inode s s' path : same_files s s' → inode_at s' path = inode_at s path.
Proof. intros (E & _ & I & _). unfold inode_at, lookup_path. by rewrite E, I. Qed.

Lemma file_settings_same s s' path l :
  same_files s s' → file_settings s' path l → file_settings s path l.
Proof.
  intros Hsame (ino & i & text & Hi & ?). rewrite (same_files_inode s s') in Hi by done.
  by exists ino, i, text.
Qed.

Lemma load_if_present_assigns path st :
  succeeds (load_arg_file_if_present path)
    (λ _ st', ∃ l, assigns st st' l ∧
       (file_settings (pr_sys st) path l ∨ lookup_path (pr_sys st) path = None ∧ l = [])) st.
Proof.
  apply succeeds_bind, succeeds_on_sys. intros r s'. unfold ask. rewrite run_call.
  pose proof (exec_looks (SymlinkMetadata path) (pr_sys st) eq_refl) as Hsame.
  destruct (exec (SymlinkMetadata path) (pr_sys st)) as [r' s''] eqn:Hr. intros [= -> ->].
  destruct r as [k|[]]; [..|by apply wp_bail|by apply wp_bail].
  - eapply succeeds_mono; [|apply load_arg_file_assigns]. intros _ st' (l & [Hsame' Henv] & Hl). exists l. split; [split; [by eapply same_files_trans|done]|].
    left. by eapply file_settings_same.
  - apply wp_ret. exists []. split; [by split|]. right. split; [|done].
    unfold exec in Hr. destruct (call_fails _); [done|]. simpl in Hr.
    destruct (lookup_path (tick (pr_sys st)) path) as [[ino|]|] eqn:Hl; [|done|done].
    by destruct (sys_inodes _ !! ino).
Qed.
End EnvironmentLemmas.

(** *** Server lists *)

Definition add_new (acc : list string) (x : string) : list string :=
  if decide (x ∈ acc) then acc else acc ++ [x].
Definition first_occurrences (l : list string) : list string := foldl add_new [] l.

(** What an accepted server entry looks like. *)
Definition server_ok `{H : !HttpLibrary} (server : string) : Prop :=
  server ≠ "" ∧ slen server ≤ MAX_SERVER_BYTES ∧ has_control server = false ∧
  ∃ url host, url_parse ("tcp://" +:+ server) = Ok url ∧ url_host_str url = Some host ∧
    url_username url = "" ∧ url_password url = None ∧ url_query url = None ∧
    url_fragment url = None ∧ (url_path url = "" ∨ url_path url = "/") ∧ url_port url ≠ Some 0 ∧
    placeholder_host host = false.

Section ServersLemmas.
Context `{H : !HttpLibrary}.

Lemma str_empty_true s : str_empty s = true ↔ s = "".
Proof. by destruct s. Qed.

Lemma more_than_host_false u :
  more_than_host u = false ↔
  url_username u = "" ∧ url_password u = None ∧ url_query u = None ∧ url_fragment u = None ∧
  (url_path u = "" ∨ url_path u = "/") ∧ url_port u ≠ Some 0.
Proof.
  unfold more_than_host. rewrite !orb_false_iff, !bool_decide_eq_false, negb_false_iff, negb_false_iff,
    orb_true_iff, bool_decide_eq_true, !str_empty_true, <-!eq_None_not_Some. tauto.
Qed.

Lemma check_server_ok name server : is_ok (check_server name server) = true ↔ server_ok server.
Proof.
  unfold check_server, server_ok. destruct (str_empty server) eqn:He.
  { apply str_empty_true in He as ->. split; [done|by intros [[] _]]. }
  assert (server ≠ "") as Hne by (intros ->; done).
  destruct (_ || has_control server) eqn:Hb.
  { split; [done|]. intros (_ & ? & Hc & _). rewrite Hc, orb_false_r in Hb. unfold MAX_SERVER_BYTES in *. lia. }
  apply orb_false_iff in Hb as [Hlen Hctl].
  destruct (url_parse _) as [u|] eqn:Hu; [|split; [done|by intros (_ & _ & _ & ? & ? & ? & _)]]. simpl.
  destruct (url_host_str u) as [h|] eqn:Hh; [|split; [done|]; intros (_ & _ & _ & ? & ? & ? & ? & _); congruence].
  simpl. destruct (more_than_host u) eqn:Hbad.
  - split; [done|]. intros (_ & _ & _ & u' & h' & [= <-] & _ & ? & ? & ? & ? & ? & ? & _).
    enough (more_than_host u = false) by congruence. by apply more_than_host_false.
  - apply more_than_host_false in Hbad. destruct (placeholder_host h) eqn:Hph; simpl.
    + split; [done|]. intros (_ & _ & _ & ? & h' & [= <-] & Hh' & _ & _ & _ & _ & _ & _ & Hno).
      rewrite Hh in Hh'. injection Hh' as <-. congruence.
    + split; [|done]. intros _. split_and!; [done|lia|done|]. exists u, h. tauto.
Qed.

Lemma add_new_length acc x : len acc ≤ len (add_new acc x).
Proof. unfold add_new, len. case_decide; [done|]. rewrite length_app. simpl. lia. Qed.

Lemma foldl_add_new_length l acc : len acc ≤ len (foldl add_new acc l).
Proof.
  revert acc. induction l as [|x l IH]; intros acc; simpl; [done|].
  specialize (IH (add_new acc x)). pose proof (add_new_length acc x). lia.
Qed.

Lemma collect_servers_ok name pieces acc l :
  len acc ≤ MAX_SERVER_COUNT →
  collect_servers name pieces acc = Ok l ↔
    Forall (λ p, server_ok (trim p)) pieces ∧ len l ≤ MAX_SERVER_COUNT ∧
    l = foldl add_new acc (trim <$> pieces).
Proof.
  revert acc. induction pieces as [|p pieces IH]; intros acc Hacc; simpl.
  { split; [intros [= <-]; done|by intros (_ & _ & ->)]. }
  rewrite list.Forall_cons. pose proof (check_server_ok name (trim p)) as Hcheck.
  destruct (check_server name (trim p)) as [[]|e]; cbn [mbind result_bind is_ok] in *.
  2:{ split; [done|]. intros ([Hok%(proj2 Hcheck) _] & _). done. }
  unfold add_new at 2. case_bool_decide as Hin.
  { rewrite decide_True, IH by done. destruct Hcheck as [Hok _]. specialize (Hok eq_refl). tauto. }
  rewrite decide_False by done.
  destruct (MAX_SERVER_COUNT <? len (acc ++ [trim p])) eqn:Hmax.
  - split; [done|]. intros (_ & Hl & ->). apply Z.ltb_lt in Hmax.
    pose proof (foldl_add_new_length (trim <$> pieces) (acc ++ [trim p])).
    unfold fmap in *. lia.
  - rewrite IH by lia. destruct Hcheck as [Hok _]. specialize (Hok eq_refl). tauto.
Qed.

Lemma first_occurrences_nodup l : NoDup (first_occurrences l).
Proof.
  unfold first_occurrences. assert (NoDup ([] : list string)) as Hacc by constructor.
  revert Hacc. generalize ([] : list string). induction l as [|x l IH]; intros acc Hacc; simpl; [done|].
  apply IH. unfold add_new. case_decide; [done|]. apply list.NoDup_app. split_and!; [done| |by apply NoDup_singleton].
  intros y Hy ->%list_elem_of_singleton. done.
Qed.
End ServersLemmas.

(** ** Theorems *)

(** C22: Settings have a fixed precedence: after a successful start-up, a variable
    has the value the command line gives it; else that of the configuration file
    named on the command line; else that of [.env]; else what it had before. Both
    files were read whole, as bounded regular UTF-8 files whose keys all carry
    the product's prefix, and start-up changes no file. *)
Theorem settings_precedence `{!Platform} `{!IniLibrary} m st st' :
  init_args m st = (Ok tt, st') →
  same_files (pr_sys st) (pr_sys st') ∧ ∃ dotenv config,
    (file_settings (pr_sys st) (path_of ".env") dotenv ∨
     lookup_path (pr_sys st) (path_of ".env") = None ∧ dotenv = []) ∧
    match get_one m "config" with
    | Some path => file_settings (pr_sys st) (path_of path) config
    | None => config = []
    end ∧
    ∀ key, pr_env st' !! key =
      match last_value key ((λ kv, (arg_name kv.1, kv.2)) <$> mt_values m) with
      | Some v => Some v
      | None => match last_value key config with
                | Some v => Some v
                | None => match last_value key dotenv with
                          | Some v => Some v
                          | None => pr_env st !! key
                          end
                end
      end.
Proof.
  intros Hinit. enough (succeeds (init_args m) (λ _ st', same_files (pr_sys st) (pr_sys st') ∧
    ∃ dotenv config,
      (file_settings (pr_sys st) (path_of ".env") dotenv ∨
       lookup_path (pr_sys st) (path_of ".env") = None ∧ dotenv = []) ∧
      match get_one m "config" with
      | Some path => file_settings (pr_sys st) (path_of path) config
      | None => config = []
      end ∧ assigns st st' (dotenv ++ config ++ ((λ kv, (arg_name kv.1, kv.2)) <$> mt_values m))) st) as Hs.
  { unfold succeeds, wp in Hs. rewrite Hinit in Hs. cbn [fst snd] in Hs. destruct Hs as (Hsame & d & c & Hd & Hc & _ & Henv).
    split; [done|]. exists d, c. split_and!; [done..|]. intros key.
    by rewrite Henv, !assign_app, !assign_lookup. }
  apply succeeds_bind. eapply succeeds_mono; [|apply load_if_present_assigns].
  simpl. intros _ st1 (d & Hd & Hdot). apply succeeds_bind.
  apply (succeeds_mono _ (λ _ st2, ∃ c, assigns st st2 (d ++ c) ∧
    match get_one m "config" with
    | Some path => file_settings (pr_sys st) (path_of path) c
    | None => c = []
    end)).
  - intros _ st2 (c & Hc & Hcfg). eapply succeeds_mono; [|apply set_args_assigns].
    simpl. intros _ st3 Hargs. pose proof (assigns_trans _ _ _ _ _ Hc Hargs) as Hall.
    rewrite <-app_assoc in Hall. split; [apply Hall|]. by exists d, c.
  - destruct (get_one m "config") as [path|]; [|by apply wp_ret; exists []; rewrite app_nil_r].
    eapply succeeds_mono; [|apply load_arg_file_assigns]. simpl. intros _ st2 (c & Hc & Hcfg).
    exists c. split; [by eapply assigns_trans|]. eapply file_settings_same; [|done]. apply Hd.
Qed.

Definition sample_file (path : Path) (b : bytes) : Sys :=
  mkSys {[resolve path := Hard 1]} {[resolve path := Hard 1]}
    {[1%positive := mkInode RegularFile b 420 (Some b)]} 0 0 0.
Definition sample_ini (text : string) : option (list (string * string)) :=
  Some [("CAMELLIA_REMOTE_PORT", text); ("CAMELLIA_REMOTE_KEY", "from file")].
Definition sample_matches : Matches := mkMatches [("port", "21116")].
Definition sample_process : Process :=
  mkProcess (sample_file (path_of ".env") (codes "1")) {["CAMELLIA_REMOTE_BIND" := "::"]}.

Lemma settings_precedence_witness :
  let '(r, st') := init_args (H := sample_platform) (H0 := sample_ini) sample_matches sample_process in
  r = Ok tt ∧ get_arg "port" (pr_env st') = "21116" ∧ get_arg "KEY" (pr_env st') = "from file" ∧
  ∃ dotenv,
    (file_settings (H := sample_ini) (pr_sys sample_process) (path_of ".env") dotenv ∨
     lookup_path (pr_sys sample_process) (path_of ".env") = None ∧ dotenv = []) ∧
    pr_env st' !! "CAMELLIA_REMOTE_BIND" = Some "::".
Proof.
  pose proof (settings_precedence (H := sample_platform) (H0 := sample_ini) sample_matches sample_process) as Hp.
  vm_compute (init_args _ _) in Hp |- *.
  destruct (Hp _ eq_refl) as (_ & d & c & Hd & Hc & Henv).
  split_and!; [done..|]. exists d. split; [done|]. by vm_compute.
Defined.

(** The options are distinct in every way a user or the program can name them,
    with those [clap] adds for itself. *)
Lemma options_distinct port :
  let distinct args :=
    NoDup (arg_id <$> args) ∧ NoDup ("h"%char :: "V"%char :: omap arg_short args) ∧
    NoDup ("help" :: "version" :: (arg_long <$> args)) ∧ NoDup (arg_name ∘ arg_id <$> args) in
  distinct (identity_args port) ∧ distinct (relay_args port).
Proof. split; split_and!; apply (bool_decide_unpack _); by vm_compute. Qed.

Lemma option_value_among `{!Platform} id (l : list (string * string)) :
  NoDup l.*1 → (∀ i, i ∈ l.*1 → arg_name i = arg_name id → i = id) →
  last_value (arg_name id) ((λ kv, (arg_name kv.1, kv.2)) <$> l) = get_one (mkMatches l) id.
Proof.
  induction l as [|[i v] l IH]; intros Hn Hinj; [done|]. apply list.NoDup_cons in Hn as [Hi Hn].
  unfold get_one in *. rewrite fmap_cons. cbn [last_value mt_values List.find fst snd] in *.
  rewrite IH; [|done|intros j Hj; apply Hinj; by right].
  case_bool_decide as Hid; simpl in Hid.
  - subst i. rewrite decide_True by done. simpl. destruct (List.find _ l) as [[j w]|] eqn:E; [|done].
    apply List.find_some in E as [Hin Hj%bool_decide_eq_true]. simpl in Hj. subst j. destruct Hi.
    apply list_elem_of_fmap. exists (id, w). split; [done|]. by apply list_elem_of_In.
  - destruct (List.find _ l); [done|]. simpl. rewrite decide_False; [done|].
    intros Heq. apply Hid, Hinj; [by left|done].
Qed.

(** An option of the identity server sets its own variable and no other's: what
    [settings_precedence] gives a declared option's variable from the command
    line is what [clap] found under this option. *)
Theorem options_set_their_own_setting `{!Platform} port m a :
  parsed_from (identity_args port) m → a ∈ identity_args port →
  last_value (arg_name (arg_id a)) ((λ kv, (arg_name kv.1, kv.2)) <$> mt_values m) = get_one m (arg_id a).
Proof.
  intros [Hn Hsub] Ha. destruct m as [l]. apply option_value_among; [done|].
  intros i (b & -> & Hb)%Hsub%list_elem_of_fmap Heq. f_equal.
  destruct (options_distinct port) as [(_ & _ & _ & Hnames) _].
  apply list_elem_of_lookup in Ha as [j Hj], Hb as [k Hk].
  assert (j = k); [|congruence].
  eapply (NoDup_lookup _ _ _ _ Hnames); rewrite list_lookup_fmap; [by rewrite Hj|by rewrite Hk; simpl; rewrite Heq].
Qed.

(** A server list is accepted exactly when it is short enough and every entry
    between its commas, trimmed, is a host or a host and port (no credentials,
    path, query, fragment, port zero, control character or placeholder name, at
    most 512 bytes); the result is the distinct entries in the order they first
    occur, at most 64 of them; a blank setting is the empty list. *)
Theorem server_lists_are_wellformed `{H : !HttpLibrary} value name l :
  get_servers value name = Ok l ↔
  slen value ≤ MAX_SERVER_LIST_BYTES ∧
  (trim value = "" ∧ l = [] ∨
   trim value ≠ "" ∧ Forall (λ p, server_ok (trim p)) (split_char ","%char value) ∧
   l = first_occurrences (trim <$> split_char ","%char value) ∧
   NoDup l ∧ len l ≤ MAX_SERVER_COUNT).
Proof.
  unfold get_servers. destruct (_ <? slen value) eqn:Hlen.
  { split; [done|]. intros [? _]. lia. }
  destruct (str_empty (trim value)) eqn:Hblank.
  - apply str_empty_true in Hblank. split; [intros [= <-]; split; [lia|by left]|].
    intros (_ & [[_ ->]|[? _]]); [done|]. congruence.
  - assert (trim value ≠ "") as Hne by (intros Heq; by rewrite Heq in Hblank).
    rewrite collect_servers_ok by done. split.
    + intros (Hall & Hl & ->). split; [lia|]. right. split_and!; try done. apply first_occurrences_nodup.
    + intros (_ & [[? _]|(_ & Hall & -> & _ & Hl)]); done.
Qed.
