(* ===== verification/Listen.v ===== *)
(** Listening sockets and signals, for both servers ([listen_tcp],
    [listen_console], [accept_or_pending] and [listen_signal] of [src/common.rs]).

    Binding a socket is a parameter; what is bound, and whether the rest of the
    start goes on, is the model's. *)

From Stdlib Require Import String.
From S2P Require Import Prelude.
From S2P Require Import Net.
From S2P Require Import Config.

(** [FramedSocket::new_reuse], [tcp::new_listener] and [tcp::listen_any]. *)
Class Sockets := {
  udp_bind : SocketAddr → Z → result unit;
  tcp_bind : SocketAddr → result unit;
  tcp_any : Z → result unit
}.

(** A bound listener: a given address, or any on a port. *)
Inductive Bound := BoundTo (a : SocketAddr) | BoundAny (port : Z).

Section Listen.
Context `{N : !Sockets}.

Definition listen_tcp (bind_addr : option IpAddr) (port : Z) : result Bound :=
  match bind_addr with
  | Some a => _ ← tcp_bind (socket_addr_new a port); Ok (BoundTo (socket_addr_new a port))
  | None => _ ← tcp_any port; Ok (BoundAny port)
  end.

Definition listen_console (bind_addr : option IpAddr) (port : Z) : result (option SocketAddr) :=
  match console_addr bind_addr port with
  | Some addr => _ ← tcp_bind addr; Ok (Some addr)
  | None => Ok None
  end.

(** A listener that is not there never accepts anything: [None] is a call that
    does not return. *)
Definition accept_or_pending {L C} (accept : L → option (result C)) (listener : option L) : option (result C) :=
  match listener with Some listener => accept listener | None => None end.

(** The console's own listener is on the loopback address only, and exists only
    where the main listener would not accept a loopback connection. *)
Lemma listen_console_loopback bind_addr port c :
  listen_console bind_addr port = Ok (Some c) → c = SockV4 LOCALHOST_V4 port ∧ is_Some bind_addr.
Proof.
  unfold listen_console, console_addr. destruct bind_addr as [a|]; [|done]. simpl.
  destruct (_ || _); [done|]. destruct (tcp_bind _); [|done]. intros [= <-]. by split; [|eexists].
Qed.
End Listen.

(** [listen_signal]: it returns at the first of three signals. *)
Inductive Signal := SigTerminate | SigInterrupt | SigQuit | OtherSignal.
Definition listen_signal (s : Signal) : option (result unit) :=
  match s with SigTerminate | SigInterrupt | SigQuit => Some (Ok tt) | OtherSignal => None end.

#[export] Instance sample_sockets : Sockets | 100 := {|
  udp_bind _ _ := Ok tt; tcp_bind _ := Ok tt; tcp_any _ := Ok tt
|}.
