(* ===== verification/KeyStore.v ===== *)
(** The server's signing key ([src/common.rs]: [parse_private_key],
    [load_or_create_keypair] and what it calls; [get_server_sk] of both servers).

    The programs run on the file system of [FileSystem].  The theorems follow any
    number of threads that create or load the key at once, call by call, with
    calls failing at will, and what is left when the machine crashes at any moment;
    those are in [KeyRace]. *)

From Stdlib Require Import Ascii String.
From S2P Require Import Prelude.
From S2P Require Import Text.
From S2P Require Import FileSystem.

(** ** Data *)

(** The signature and base64 libraries.  A secret key is its bytes. *)
Class KeyLibrary := {
  SECRETKEYBYTES : Z;
  SEEDBYTES : Z;
  SIGN_PUBLICKEYBYTES : Z;
  b64_encode : bytes → string;
  b64_decode : string → option bytes;
  seed_from_slice : bytes → option bytes;
  keypair_from_seed : bytes → bytes;
  public_from_slice : bytes → option bytes;
  public_key : bytes → bytes
}.

(** What the code relies on: base64 text decodes to its bytes, needs no trimming
    and is UTF-8; a generated key is a whole key, rebuilt from its own seed, whose
    text fits the limit; UUIDs are distinct, longer than an extension and without a
    point. *)
Class KeyLaws (K : KeyLibrary) (L : Platform) : Prop := {
  b64_roundtrip : ∀ b, Forall (λ x, byte_ok x = true) b → b64_decode (b64_encode b) = Some b;
  b64_text : ∀ b, Forall (λ x, byte_ok x = true) b →
    trim (b64_encode b) = b64_encode b ∧ is_utf8 (codes (b64_encode b)) = true;
  keypair_whole : ∀ n, let sk := (gen_keypair n).2 in
    Forall (λ x, byte_ok x = true) sk ∧ len sk = SECRETKEYBYTES ∧ slen (b64_encode sk) ≤ 128 ∧
    ∃ seed, seed_from_slice (take (Z.to_nat SEEDBYTES) sk) = Some seed ∧ keypair_from_seed seed = sk;
  uuid_injective : ∀ m n, uuid_v4 m = uuid_v4 n → m = n;
  uuid_text : ∀ n, 4 < slen (uuid_v4 n) ∧ contains_char "."%char (uuid_v4 n) = false
}.

(** ** Operations *)

Section KeyStore.
Context `{L : !Platform} `{K : !KeyLibrary}.

Definition MAX_ENCODED_KEY_BYTES : Z := 128.
Definition parse_private_key (encoded label : string) : result bytes :=
  let encoded := trim encoded in
  if MAX_ENCODED_KEY_BYTES <? slen encoded then Err (label +:+ " is too large") else
  decoded ← ok_or (b64_decode encoded) (label +:+ " must be a base64 Ed25519 private key");
  if negb (len decoded =? SECRETKEYBYTES)
  then Err (label +:+ " must be a " +:+ show SECRETKEYBYTES +:+ "-byte Ed25519 private key") else
  seed ← ok_or (seed_from_slice (take (Z.to_nat SEEDBYTES) decoded))
           (label +:+ " has an invalid Ed25519 seed");
  let private_key := keypair_from_seed seed in
  if bool_decide (private_key ≠ decoded)
  then Err (label +:+ " is not a structurally valid Ed25519 private key") else Ok private_key.

Definition MAX_PRIVATE_KEY_FILE_BYTES : Z := 1024.
Definition read_secret_key (path : Path) : P (option bytes) :=
  opened ← ask (open_readonly_no_follow path);
  match opened with
  | inr NotFound => mret None
  | inr e => fail (io_text e)
  | inl file =>
      metadata ← io (Metadata file);
      let '(kind, _, mode) := metadata in
      if decide (kind ≠ RegularFile)
      then fail ("Private key path must be a regular file: " +:+ display path) else
      (if bool_decide (Z.land mode 63 ≠ 0) then io (SetMode file 384) else mret tt);;
      encoded ← read_bounded_open_file file path MAX_PRIVATE_KEY_FILE_BYTES "Private key";
      encoded ← of_result (ok_or (utf8_of encoded) ("Private key is not UTF-8: " +:+ display path));
      private_key ← of_result (parse_private_key encoded ("Private key " +:+ display path));
      mret (Some private_key)
  end.

(** The loop, with a bound on the number of draws. *)
Definition out_of_draws : string := "no compatible key drawn".
Fixpoint generate_compatible_secret_key (fuel : nat) : P bytes :=
  match fuel with
  | O => fail out_of_draws
  | S fuel =>
      keys ← ask GenKeypair;
      let encoded := b64_encode keys.1 in
      if negb (contains_char "/"%char encoded) && negb (contains_char ":"%char encoded)
      then mret keys.2 else generate_compatible_secret_key fuel
  end.

Definition parent_directory (path : Path) : Path :=
  match parent path with
  | Some (c :: d) => c :: d
  | _ => [CurDir]
  end.

Definition temp_name (name uuid : string) : string :=
  "." +:+ name +:+ "." +:+ show process_id +:+ "." +:+ uuid.

Definition sync_parent_directory (d : Path) : P unit := io (SyncDirectory d).

Definition create_secret_key_once (path : Path) (contents : bytes) : P unit :=
  let parent := parent_directory path in
  match file_name path with
  | None => fail "Private key path has no valid file name"
  | Some name =>
      uuid ← ask NewUuid;
      let temp_path := join parent (temp_name name uuid) in
      write_result ← catch (
        file ← io (CreateNew temp_path 384);
        io (WriteAll file contents);;
        io (SyncAll file);;
        linked ← ask (HardLink temp_path path);
        match linked with
        | inl _ => sync_parent_directory parent
        | inr AlreadyExists => mret tt
        | inr e => fail (io_text e)
        end);
      ask (RemoveFile temp_path);;
      of_result write_result
  end.

(** [read_bounded_regular_file(..).is_ok_and(|existing| existing == contents)]. *)
Definition already_written (path : Path) (contents : bytes) : P bool :=
  r ← catch (read_bounded_regular_file path (len contents + 1) "Public key");
  mret (match r with Ok existing => bool_decide (existing = contents) | Err _ => false end).

(** The loop of lines 492-520. *)
Fixpoint publish (attempts : nat) (path temp_path parent : Path) (contents : bytes) : P unit :=
  match attempts with
  | O => fail ("Unable to publish public key: " +:+ display path)
  | S attempts =>
      linked ← ask (HardLink temp_path path);
      match linked with
      | inl _ => sync_parent_directory parent
      | inr AlreadyExists =>
          metadata ← ask (SymlinkMetadata path);
          match metadata with
          | inr NotFound => publish attempts path temp_path parent contents
          | inr e => fail (io_text e)
          | inl None => fail ("Public key path must not be a symlink: " +:+ display path)
          | inl (Some _) =>
              same ← already_written path contents;
              if same : bool then mret tt else
              removed ← ask (RemoveFile path);
              match removed with
              | inl _ => sync_parent_directory parent;; publish attempts path temp_path parent contents
              | inr NotFound => publish attempts path temp_path parent contents
              | inr e => fail (io_text e)
              end
          end
      | inr e => fail (io_text e)
      end
  end.

Definition write_public_key (path : Path) (contents : bytes) : P unit :=
  metadata ← ask (SymlinkMetadata path);
  match metadata with
  | inl None => fail ("Public key path must not be a symlink: " +:+ display path)
  | _ =>
      same ← already_written path contents;
      if same : bool then mret tt else
      let parent := parent_directory path in
      match file_name path with
      | None => fail "Public key path has no valid file name"
      | Some name =>
          uuid ← ask NewUuid;
          let temp_path := join parent (temp_name name uuid) in
          write_result ← catch (
            file ← io (CreateNew temp_path 420);
            io (WriteAll file contents);;
            io (SyncAll file);;
            publish 3 path temp_path parent contents);
          ask (RemoveFile temp_path);;
          of_result write_result
      end
  end.

(** [wait] only delays the call when the key does not exist yet. *)
Definition load_or_create_keypair (fuel : nat) (secret_path : Path) (wait : Z) : P (string * bytes) :=
  (if 0 <? wait then ask (PathExists secret_path);; mret tt else mret tt);;
  found ← read_secret_key secret_path;
  match found with
  | None =>
      secret_key ← generate_compatible_secret_key fuel;
      create_secret_key_once secret_path (codes (b64_encode secret_key))
  | Some _ => mret tt
  end;;
  found ← read_secret_key secret_path;
  secret_key ← of_result (ok_or found ("Private key disappeared: " +:+ display secret_path));
  let public_key := b64_encode (drop (Z.to_nat (SECRETKEYBYTES / 2)) secret_key) in
  write_public_key (push_ext secret_path ".pub") (codes public_key);;
  mret (public_key, secret_key).

Definition gen_sk (fuel : nat) (wait : Z) : P (string * bytes) :=
  load_or_create_keypair fuel [Normal "id_ed25519"] wait.

(** [rendezvous_server.rs]. *)
Definition generated_key (key : string) : bool :=
  str_empty key || bool_decide (key = "-") || bool_decide (key = "_").
Definition rendezvous_server_sk (fuel : nat) (key : string) : P (string * bytes) :=
  let key := trim key in
  if generated_key key then gen_sk fuel 0 else
  private_key ← of_result (parse_private_key key "The rendezvous key");
  mret (b64_encode (public_key private_key), private_key).

(** [relay_server.rs]: the relay needs the public key only. *)
Definition relay_public_key (key : string) : result bytes :=
  if 128 <? slen key then Err "The relay key is too large" else
  decoded ← ok_or (b64_decode key) "The relay key must be base64 encoded";
  if len decoded =? SIGN_PUBLICKEYBYTES
  then ok_or (public_from_slice decoded) "The relay public key is invalid"
  else if len decoded =? SECRETKEYBYTES
  then private_key ← parse_private_key key "The relay key"; Ok (public_key private_key)
  else Err ("The relay key must be a " +:+ show SIGN_PUBLICKEYBYTES +:+ "-byte public or " +:+
            show SECRETKEYBYTES +:+ "-byte private Ed25519 key").
Definition relay_server_sk (fuel : nat) (key : string) : P string :=
  let key := trim key in
  if generated_key key then r ← gen_sk fuel 300; mret r.1 else
  public ← of_result (relay_public_key key);
  mret (b64_encode public).
End KeyStore.

(** ** Theorems *)

Section KeyTheorems.
Context `{L : !Platform} `{K : !KeyLibrary}.

Definition compatible (public : bytes) : bool :=
  negb (contains_char "/"%char (b64_encode public)) && negb (contains_char ":"%char (b64_encode public)).

(** A private key is accepted exactly when its trimmed text has at most 128
    bytes and decodes to a whole secret key: the one its own seed generates. So
    a key whose public half was altered is refused. *)
Theorem private_key_accepted_iff encoded label sk :
  parse_private_key encoded label = Ok sk ↔
  slen (trim encoded) ≤ MAX_ENCODED_KEY_BYTES ∧ b64_decode (trim encoded) = Some sk ∧
  len sk = SECRETKEYBYTES ∧
  ∃ seed, seed_from_slice (take (Z.to_nat SEEDBYTES) sk) = Some seed ∧ keypair_from_seed seed = sk.
Proof.
  unfold parse_private_key. destruct (_ <? slen (trim encoded)) eqn:Hlen.
  { split; [done|]. intros [? _]. lia. }
  destruct (b64_decode (trim encoded)) as [d|]; simpl; [|by split; [|intros (_ & ? & _)]].
  destruct (len d =? SECRETKEYBYTES) eqn:Hd; simpl.
  2:{ split; [done|]. intros (_ & [= ->] & ? & _). lia. }
  destruct (seed_from_slice (take (Z.to_nat SEEDBYTES) d)) as [seed|] eqn:Hseed; simpl.
  2:{ split; [done|]. intros (_ & [= ->] & _ & ? & ? & _). congruence. }
  case_bool_decide as Hpair.
  - split; [done|]. intros (_ & [= ->] & _ & seed' & Hs & Hp). rewrite Hseed in Hs. by injection Hs as <-.
  - split.
    + intros [= <-]. rewrite Hpair. split_and!; [lia|done|lia|]. exists seed. by rewrite Hseed.
    + intros (_ & [= ->] & _). by rewrite Hpair.
Qed.

(** Generating a key ends: if one of the next [fuel] key pairs has a public
    key whose text has no slash and no colon, the loop returns the secret half of
    the first such pair. *)
Theorem key_generation_terminates fuel k s :
  (k < fuel)%nat → compatible (gen_keypair (sys_keys s + k)).1 = true →
  (∀ j, (j < k)%nat → compatible (gen_keypair (sys_keys s + j)).1 = false) →
  (run (generate_compatible_secret_key fuel) s).1 = Ok (gen_keypair (sys_keys s + k)).2.
Proof.
  revert k s. induction fuel as [|fuel IH]; intros k s Hk Hyes Hno; [lia|].
  cbn [generate_compatible_secret_key]. rewrite run_P_bind. unfold ask. rewrite run_call.
  assert (exec GenKeypair s = (gen_keypair (sys_keys s), (perform GenKeypair (tick s)).2)) as ->.
  { unfold exec. by destruct (call_fails _). }
  cbn [run]. cbn zeta. fold (compatible (gen_keypair (sys_keys s)).1). destruct k as [|k].
  - rewrite Nat.add_0_r in Hyes |- *. by rewrite Hyes.
  - specialize (Hno 0%nat) as Hno0. rewrite Nat.add_0_r in Hno0. rewrite Hno0 by lia.
    rewrite (IH k); simpl; rewrite <-?Nat.add_succ_r; [done|lia|done|].
    intros j Hj. rewrite <-Nat.add_succ_r. apply Hno. lia.
Qed.
End KeyTheorems.

(** ** A concrete key library *)

(** Two characters for a byte. *)
Definition nibble (z : Z) : ascii := chr (if z <? 10 then 48 + z else 87 + z).
Fixpoint hex_text (b : bytes) : string :=
  match b with
  | [] => EmptyString
  | x :: b => String (nibble (x / 16)) (String (nibble (x mod 16)) (hex_text b))
  end.
Fixpoint hex_bytes (s : string) : option bytes :=
  match s with
  | EmptyString => Some []
  | String a (String b s) =>
      x ← digit_val 16 (code a); y ← digit_val 16 (code b); l ← hex_bytes s; Some (16 * x + y :: l)
  | _ => None
  end.

#[export] Instance sample_keys : KeyLibrary | 100 := {|
  SECRETKEYBYTES := 64;
  SEEDBYTES := 32;
  SIGN_PUBLICKEYBYTES := 32;
  b64_encode := hex_text;
  b64_decode := hex_bytes;
  seed_from_slice b := Some b;
  keypair_from_seed b := b ++ b;
  public_from_slice b := Some b;
  public_key b := drop 32 b
|}.

Lemma code_nibble z : 0 ≤ z < 16 → code (nibble z) = if z <? 10 then 48 + z else 87 + z.
Proof. intros Hz. unfold nibble. apply code_chr. destruct (z <? 10) eqn:E; lia. Qed.

Lemma hex_digit z : 0 ≤ z < 16 → digit_val 16 (code (nibble z)) = Some z.
Proof.
  intros Hz. rewrite code_nibble by done. unfold digit_val.
  destruct (z <? 10) eqn:E.
  - rewrite (proj2 (Z.leb_le 48 (48 + z))), (proj2 (Z.leb_le (48 + z) 57)) by lia. simpl.
    rewrite (proj2 (Z.ltb_lt _ _)) by lia. f_equal. lia.
  - rewrite (proj2 (Z.leb_le 48 (87 + z))), (proj2 (Z.leb_gt (87 + z) 57)) by lia. simpl.
    rewrite (proj2 (Z.leb_le 97 (87 + z))), (proj2 (Z.leb_le (87 + z) 122)) by lia. simpl.
    rewrite (proj2 (Z.ltb_lt _ _)) by lia. f_equal. lia.
Qed.

Lemma hex_roundtrip b : Forall (λ x, byte_ok x = true) b → hex_bytes (hex_text b) = Some b.
Proof.
  induction 1 as [|x b Hx _ IH]; [done|]. unfold byte_ok in Hx. cbn [hex_text hex_bytes].
  assert (0 ≤ x / 16 < 16) by (split; [apply Z.div_pos; lia|apply Z.div_lt_upper_bound; lia]).
  rewrite (hex_digit (x / 16)) by lia. simpl. rewrite hex_digit by (apply Z.mod_pos_bound; lia). simpl.
  rewrite IH. simpl. do 2 f_equal. pose proof (Z.div_mod x 16). lia.
Qed.

Lemma hex_printable b : Forall (λ x, byte_ok x = true) b → printable (codes (hex_text b)).
Proof.
  induction 1 as [|x b Hx _ IH]; [by constructor|]. unfold byte_ok in Hx.
  assert (0 ≤ x / 16 < 16) by (split; [apply Z.div_pos; lia|apply Z.div_lt_upper_bound; lia]).
  assert (0 ≤ x mod 16 < 16) by (apply Z.mod_pos_bound; lia).
  assert (∀ z, 0 ≤ z < 16 → 32 < code (nibble z) < 127) as Hn.
  { intros z Hz. rewrite code_nibble by done. destruct (z <? 10) eqn:E; lia. }
  repeat constructor; try apply Hn; done.
Qed.

Lemma hex_length b : slen (hex_text b) = 2 * len b.
Proof.
  induction b as [|x b IH]; [done|]. unfold slen, len in *. cbn [hex_text String.length length]. lia.
Qed.

Lemma tally_length n : slen (tally n) = Z.of_nat n.
Proof. induction n as [|n IH]; [done|]. unfold slen in *. cbn [tally String.length]. lia. Qed.

Lemma tally_text n : contains_char "."%char (tally n) = false.
Proof. by induction n as [|n IH]. Qed.

#[export] Instance sample_key_laws : KeyLaws sample_keys sample_platform | 100.
Proof.
  split.
  - apply hex_roundtrip.
  - intros b Hb%hex_printable. split; [by apply trim_printable|by apply utf8_printable].
  - intros n. cbn zeta. assert (Forall (λ x, byte_ok x = true) (numbered n)) as Hn.
    { unfold numbered. apply Forall_app. split; [repeat constructor|]. constructor; [|done].
      unfold byte_ok. pose proof (Z.mod_pos_bound (Z.of_nat n) 256). apply andb_true_intro. lia. }
    split_and!; [by apply Forall_app|done|done|]. by exists (numbered n).
  - intros m n Heq. apply (f_equal slen) in Heq. cbn [uuid_v4 sample_platform] in Heq.
    rewrite !slen_app, !tally_length in Heq. lia.
  - intros n. cbn [uuid_v4 sample_platform]. rewrite slen_app, tally_length.
    split; [change (slen "uuid-") with 5; lia|]. apply tally_text.
Qed.

Lemma key_generation_terminates_witness :
  (run (generate_compatible_secret_key 3) (mkSys ∅ ∅ ∅ 0 0 5)).1 = Ok (numbered 5 ++ numbered 5).
Proof.
  exact (key_generation_terminates 3 0 (mkSys ∅ ∅ ∅ 0 0 5) ltac:(lia) eq_refl ltac:(intros; lia)).
Defined.
