(* ===== verification/KeyRace.v ===== *)
(** Creating and loading the key file, by any number of threads at once, with
    failing calls, and what a crash leaves of it ([load_or_create_keypair] of
    [src/common.rs]).

    Rely-guarantee reasoning: [key_ok] is the invariant of the file system,
    [guarantee O] what a thread that drew the UUIDs [O] may change in one call,
    and [safe] verifies one thread's program against assertions that the calls of
    the others, with other UUIDs, cannot break.  Agreement is proved of runs without
    a crash; what survives one is the subject of [key_file_survives_crash], where
    [must_sync] follows the thread that made the file until it has synced it. *)

From Stdlib Require Import Ascii String.
From S2P Require Import Prelude.
From S2P Require Import Text.
From S2P Require Import FileSystem.
From S2P Require Import KeyStore.

(** ** Paths *)

Lemma file_name_some p n : file_name p = Some n → ∃ d, p = d ++ [Normal n].
Proof.
  unfold file_name. destruct (reverse p) as [|c r] eqn:Hr; [done|]. destruct c; try done.
  intros [= ->]. exists (reverse r). by rewrite <-reverse_cons, <-Hr, reverse_involutive.
Qed.

Lemma resolve_app p q : resolve (p ++ q) = resolve p ++ resolve q.
Proof. apply list.filter_app. Qed.

Lemma resolve_resolve p : resolve (resolve p) = resolve p.
Proof.
  unfold resolve. induction p as [|c p IH]; [done|]. rewrite filter_cons. case_decide; [|done].
  rewrite filter_cons_True by done. by rewrite IH.
Qed.

Lemma resolve_normal p n : resolve (p ++ [Normal n]) = resolve p ++ [Normal n].
Proof. by rewrite resolve_app. Qed.

Lemma file_name_app p n : file_name (p ++ [Normal n]) = Some n.
Proof. unfold file_name. by rewrite reverse_app. Qed.

Lemma push_ext_app p n e : push_ext (p ++ [Normal n]) e = p ++ [Normal (n +:+ e)].
Proof. unfold push_ext. rewrite reverse_app. simpl. by rewrite reverse_cons, reverse_involutive. Qed.

Lemma parent_directory_app p n : resolve (parent_directory (p ++ [Normal n])) = resolve p.
Proof.
  unfold parent_directory, parent. rewrite reverse_app. simpl. rewrite reverse_involutive.
  by destruct p.
Qed.

(** ** Temporary names *)


Lemma last_piece (a b u v : string) :
  contains_char "."%char u = false → contains_char "."%char v = false →
  a +:+ String "."%char u = b +:+ String "."%char v → u = v.
Proof.
  intros Hu Hv. revert b. induction a as [|x a IH]; intros [|y b] Heq.
  - by injection Heq.
  - injection Heq as _ Heq. exfalso. subst u. clear -Hu. induction b as [|z b IHb]; simpl in Hu; [done|].
    apply orb_false_iff in Hu as [_ Hu]. auto.
  - injection Heq as _ Heq. exfalso. subst v. clear -Hv. induction a as [|z a IHa]; simpl in Hv; [done|].
    apply orb_false_iff in Hv as [_ Hv]. auto.
  - injection Heq as _ Heq. by apply (IH b).
Qed.

(** ** The invariant *)

Section KeyRace.
Context `{L : !Platform} `{K : !KeyLibrary} {laws : KeyLaws K L}.
(** The key file is [name] in the directory [dir]. *)
Context (dir : Path) (name : string).
Implicit Types s : Sys.

Definition secret_path : Path := dir ++ [Normal name].
Definition public_path : Path := dir ++ [Normal (name +:+ ".pub")].
Definition key_place : Path := resolve secret_path.
Definition pub_place : Path := resolve public_path.
(** Where a thread that drew the n-th UUID puts its temporary file. *)
Definition temp_place (base : string) (n : nat) : Path :=
  resolve dir ++ [Normal (temp_name base (uuid_v4 n))].
Definition temp_places (n : nat) : list Path :=
  [temp_place name n; temp_place (name +:+ ".pub") n].

(** The key in the contents of a key file. *)
Definition key_of (b : bytes) : option bytes :=
  if len b <=? MAX_PRIVATE_KEY_FILE_BYTES
  then text ← utf8_of b; result_ok (parse_private_key text "") else None.

(** An inode that is a whole key file, on the disk too. *)
Definition whole_key (i : Inode) : Prop :=
  i_kind i = RegularFile ∧ i_synced i = Some (i_bytes i) ∧ is_Some (key_of (i_bytes i)).

Definition key_intact s : Prop :=
  ∀ e, sys_entries s !! key_place = Some e →
    ∃ ino i, e = Hard ino ∧ sys_inodes s !! ino = Some i ∧ whole_key i.

Record key_ok s : Prop := {
  ko_linked : ∀ p ino, sys_entries s !! p = Some (Hard ino) → is_Some (sys_inodes s !! ino);
  ko_intact : key_intact s;
  ko_durable : ∀ e, sys_durable s !! key_place = Some e → sys_entries s !! key_place = Some e
}.

(** The key file holds the key [sk]. *)
Definition key_is (sk : bytes) s : Prop :=
  ∃ ino i, sys_entries s !! key_place = Some (Hard ino) ∧ sys_inodes s !! ino = Some i ∧
    key_of (i_bytes i) = Some sk.

(** ** What a thread may change *)

Definition own_temp (O : gset nat) (p : Path) : Prop := ∃ n, n ∈ O ∧ p ∈ temp_places n.
Definition at_own_temp (O : gset nat) s (ino : Ino) : Prop :=
  ∃ p, own_temp O p ∧ sys_entries s !! p = Some (Hard ino).

Record guarantee (O : gset nat) s s' : Prop := {
  gu_uuids : (sys_uuids s ≤ sys_uuids s')%nat;
  gu_entries : ∀ p, sys_entries s' !! p ≠ sys_entries s !! p →
    p = key_place ∨ p = pub_place ∨ own_temp O p;
  gu_key : ∀ e, sys_entries s !! key_place = Some e → sys_entries s' !! key_place = Some e;
  gu_inodes : ∀ ino i, sys_inodes s !! ino = Some i → ∃ i', sys_inodes s' !! ino = Some i' ∧
    (i_kind i' = i_kind i ∧ i_bytes i' = i_bytes i ∧ i_synced i' = i_synced i ∨
     at_own_temp O s ino ∧ sys_entries s !! key_place ≠ Some (Hard ino));
  gu_links : ∀ p ino, sys_entries s' !! p = Some (Hard ino) →
    sys_entries s !! p = Some (Hard ino) ∨ sys_inodes s !! ino = None ∨ at_own_temp O s ino
}.

(** The UUIDs of a thread were drawn. *)
Definition drawn (O : gset nat) s : Prop := ∀ n, n ∈ O → (n < sys_uuids s)%nat.

(** An assertion the other threads' calls keep. *)
Definition stable (O : gset nat) (F : Sys → Prop) : Prop :=
  ∀ O' s s', O ## O' → drawn O s → key_ok s → key_ok s' → guarantee O' s s' → F s → F s'.

(** An assertion that every call keeps. *)
Definition permanent (F : Sys → Prop) : Prop :=
  ∀ O s s', key_ok s → key_ok s' → guarantee O s s' → F s → F s'.

Lemma permanent_stable O F : permanent F → stable O F.
Proof. intros HF O' s s' _ _ H1 H2 Hg. by eapply HF. Qed.

Lemma stable_and O F G : stable O F → stable O G → stable O (λ s, F s ∧ G s).
Proof. intros HF HG O' s s' ?? ?? ? [??]. split; [by eapply HF|by eapply HG]. Qed.

Lemma stable_true O : stable O (λ _, True).
Proof. done. Qed.

Lemma permanent_true : permanent (λ _, True).
Proof. done. Qed.

Lemma key_is_permanent sk : permanent (key_is sk).
Proof.
  intros O s s' _ _ [_ _ Hkey Hino _] (ino & i & He & Hi & Hsk).
  destruct (Hino ino i Hi) as (i' & Hi' & [(_ & Hb & _)|[_ []]]); [|done].
  exists ino, i'. rewrite Hb. eauto.
Qed.

(** ** Safe programs *)

Fixpoint safe {A} (p : prog A) (O : gset nat) (Pre : Sys → Prop) (Q : A → Sys → Prop) : Prop :=
  match p with
  | Ret a => ∀ s, key_ok s → Pre s → Q a s
  | Call c k => ∀ s, key_ok s → drawn O s → Pre s →
      let '(r, s') := exec c s in
      key_ok s' ∧ guarantee O s s' ∧ ∃ O' Post,
        O ⊆ O' ∧ (∀ n, n ∈ O' → n ∈ O ∨ (sys_uuids s ≤ n < sys_uuids s')%nat) ∧
        Post s' ∧ stable O' Post ∧ safe (k r) O' Post Q
  end.

Lemma safe_weaken {A} (p : prog A) O (Pre Pre' : Sys → Prop) Q :
  safe p O Pre Q → (∀ s, key_ok s → Pre' s → Pre s) → safe p O Pre' Q.
Proof.
  destruct p as [a|R c k]; intros Hp Hpre s Hok.
  - intros HPre. by apply Hp, Hpre.
  - intros Hd HPre. apply (Hp s Hok Hd). by apply Hpre.
Qed.

Lemma safe_post {A} (p : prog A) O Pre (Q Q' : A → Sys → Prop) :
  safe p O Pre Q → (∀ a s, key_ok s → Q a s → Q' a s) → safe p O Pre Q'.
Proof.
  intros Hp HQ. revert O Pre Hp. induction p as [a|R c k IH]; simpl; intros O Pre Hp s Hok.
  - auto.
  - intros Hd HPre. specialize (Hp s Hok Hd HPre). destruct (exec c s) as [r s'].
    destruct Hp as (Hok' & Hg & O' & Post & ? & ? & ? & ? & Hk). split_and!; [done..|].
    exists O', Post. eauto 10.
Qed.

Lemma pool_safe_bind {A B} (p : prog A) (f : A → prog B) O Pre R Q :
  safe p O Pre R → (∀ a O', O ⊆ O' → safe (f a) O' (R a) Q) → safe (prog_bind f p) O Pre Q.
Proof.
  revert O Pre. induction p as [a|T c k IH]; intros O Pre Hp Hf.
  - eapply safe_weaken; [by apply Hf|exact Hp].
  - simpl in Hp |- *. intros s Hok Hd HPre. specialize (Hp s Hok Hd HPre).
    destruct (exec c s) as [r s']. destruct Hp as (Hok' & Hg & O' & Post & Hsub & ? & ? & ? & Hk).
    split_and!; [done..|]. exists O', Post. split_and!; [done..|]. apply IH; [done|].
    intros a O2 Hsub2. apply Hf. by etrans.
Qed.

(** Permanent facts can be carried along. *)
Lemma safe_frame {A} (p : prog A) O (Pre F : Sys → Prop) Q :
  permanent F → safe p O Pre Q → safe p O (λ s, Pre s ∧ F s) (λ a s, Q a s ∧ F s).
Proof.
  intros HF. revert O Pre. induction p as [a|T c k IH]; intros O Pre Hp.
  - simpl in *. intros s Hok [HPre HFs]. auto.
  - simpl in Hp |- *. intros s Hok Hd [HPre HFs]. specialize (Hp s Hok Hd HPre).
    destruct (exec c s) as [r s']. destruct Hp as (Hok' & Hg & O' & Post & Hsub & ? & ? & ? & Hk).
    split_and!; [done..|]. exists O', (λ s, Post s ∧ F s). split_and!; [done..| | |by apply IH].
    + by eapply HF.
    + apply stable_and; [done|by apply permanent_stable].
Qed.

(** For programs that can fail, failure needs no postcondition. *)
Definition ok_then {A} (Q : A → Sys → Prop) (r : result A) s : Prop :=
  match r with Ok a => Q a s | Err _ => True end.

Lemma safe_P_bind {A B} (p : P A) (f : A → P B) O Pre R Q :
  safe p O Pre (ok_then R) → (∀ a O', O ⊆ O' → safe (f a) O' (R a) (ok_then Q)) →
  safe (p ≫= f) O Pre (ok_then Q).
Proof.
  intros Hp Hf. unfold mbind, P_bind. eapply pool_safe_bind; [exact Hp|].
  intros [a|e] O' Hsub; [by apply Hf|]. by intros s.
Qed.

Lemma safe_P_ret {A} (a : A) O (Pre : Sys → Prop) Q :
  (∀ s, key_ok s → Pre s → Q a s) → safe (mret a : P A) O Pre (ok_then Q).
Proof. done. Qed.

Lemma safe_fail {A} e O Pre Q : safe (fail e : P A) O Pre (ok_then Q).
Proof. by intros s. Qed.

Lemma safe_of_result {A} (r : result A) O (Pre : Sys → Prop) Q :
  (∀ a s, r = Ok a → key_ok s → Pre s → Q a s) → safe (of_result r) O Pre (ok_then Q).
Proof. intros HQ s Hok HPre. destruct r; simpl; auto. Qed.

Lemma safe_catch {A} (p : P A) O Pre (Q : result A → Sys → Prop) :
  safe p O Pre Q → safe (catch p) O Pre (ok_then Q).
Proof.
  intros Hp. unfold catch. eapply pool_safe_bind; [exact Hp|]. intros r O' _ s _ HQ. exact HQ.
Qed.

(** ** The calls, one by one *)

Lemma same_files_ok s s' : same_files s s' → key_ok s → key_ok s'.
Proof.
  intros (E & D & I & _) [Hl Hk Hd]. split.
  - intros p ino. rewrite E, I. apply Hl.
  - intros e. rewrite E, I. apply Hk.
  - intros e. rewrite E, D. apply Hd.
Qed.

Lemma same_files_guarantee O s s' : same_files s s' → guarantee O s s'.
Proof.
  intros (E & D & I & U & _). split; rewrite ?E, ?U; try done.
  - intros ino i Hi. exists i. rewrite I. auto.
  - intros p ino Hp. by left.
Qed.

Lemma same_files_drawn O s s' : same_files s s' → drawn O s → drawn O s'.
Proof. intros (_ & _ & _ & U & _) Hd n. rewrite U. apply Hd. Qed.

(** A call that only looks: its answer is a fact the others must not break. *)
Lemma safe_looks {A R} (c : syscall R) (k : R → prog A) O Pre Q (F : R → Sys → Prop) :
  looks c = true → stable O Pre → (∀ s s', same_files s s' → Pre s → Pre s') →
  (∀ r, stable O (F r)) →
  (∀ s r s', key_ok s → Pre s → exec c s = (r, s') → F r s') →
  (∀ r, safe (k r) O (λ s, Pre s ∧ F r s) Q) →
  safe (Call c k) O Pre Q.
Proof.
  intros Hc Hst Hsame HF Hexec Hk s Hok Hd HPre. pose proof (exec_looks c s Hc) as Hs.
  destruct (exec c s) as [r s'] eqn:Hr. simpl in Hs.
  split_and!; [by eapply same_files_ok|by apply same_files_guarantee|].
  exists O, (λ s, Pre s ∧ F r s). split_and!; [done|by left|by eapply Hsame|by eapply Hexec|by apply stable_and|done].
Qed.

(** What a call guarantees, and what it establishes. *)
Definition call_spec {R} (c : syscall R) O (Pre : Sys → Prop) (F : R → Sys → Prop) : Prop :=
  (∀ s r s', key_ok s → drawn O s → Pre s → exec c s = (r, s') →
     key_ok s' ∧ guarantee O s s' ∧ F r s') ∧ ∀ r, stable O (F r).

Lemma safe_call {A R} (c : syscall R) (k : R → prog A) O Pre F Q :
  call_spec c O Pre F → (∀ r, safe (k r) O (F r) Q) → safe (Call c k) O Pre Q.
Proof.
  intros [Hc HF] Hk s Hok Hd HPre. destruct (exec c s) as [r s'] eqn:Hr.
  destruct (Hc s r s' Hok Hd HPre Hr) as (? & ? & ?). split_and!; [done..|].
  exists O, (F r). split_and!; [done|by left|done|done|apply Hk].
Qed.

Lemma safe_ask {R} (c : syscall R) O Pre F : call_spec c O Pre F → safe (ask c) O Pre (ok_then F).
Proof. intros Hc. eapply safe_call; [exact Hc|]. by intros r s. Qed.

Lemma safe_io {A} (c : syscall (IoResult A)) O Pre (F : A → Sys → Prop) :
  call_spec c O Pre (λ r s, match r with inl a => F a s | inr _ => True end) →
  safe (io c) O Pre (ok_then F).
Proof. intros Hc. eapply safe_call; [exact Hc|]. by intros [a|e] s. Qed.

Lemma safe_io_ctx {A} (c : syscall (IoResult A)) e O Pre (F : A → Sys → Prop) :
  call_spec c O Pre (λ r s, match r with inl a => F a s | inr _ => True end) →
  safe (io_ctx c e) O Pre (ok_then F).
Proof. intros Hc. eapply safe_call; [exact Hc|]. by intros [a|e'] s. Qed.

Lemma spec_looks {R} (c : syscall R) O (Pre : Sys → Prop) F :
  looks c = true → (∀ r, stable O (F r)) →
  (∀ s r s', key_ok s → Pre s → exec c s = (r, s') → F r s') → call_spec c O Pre F.
Proof.
  intros Hc HF Hr. split; [|done]. intros s r s' Hok Hd HPre He. pose proof (exec_looks c s Hc) as Hs.
  rewrite He in Hs. split_and!; [by eapply same_files_ok|by apply same_files_guarantee|by eapply Hr].
Qed.

Lemma spec_look {R} (c : syscall R) O Pre : looks c = true → call_spec c O Pre (λ _ _, True).
Proof. intros. by apply spec_looks. Qed.

(** A new UUID becomes the thread's. *)
Lemma safe_uuid {B} (f : string → P B) O (Pre : Sys → Prop) Q :
  permanent Pre → (∀ n O', O ⊆ O' → n ∈ O' → safe (f (uuid_v4 n)) O' Pre Q) →
  safe (ask NewUuid ≫= f) O Pre Q.
Proof.
  intros HPre Hf s Hok Hd Hs. unfold exec. set (s1 := tick s).
  assert (same_files s s1) as Hs1 by by repeat split.
  set (s2 := (perform NewUuid s1).2).
  assert ((if call_fails (sys_calls s) then perform_failing NewUuid s1 else perform NewUuid s1)
    = (uuid_v4 (sys_uuids s), s2)) as -> by by destruct (call_fails _).
  assert (key_ok s2) as Hok2 by (destruct Hok as [H1 H2 H3]; split; [exact H1|exact H2|exact H3]).
  assert (guarantee O s s2) as Hg.
  { split; simpl; try done; [lia|..].
    - intros ino i Hi. exists i. auto.
    - intros p ino Hp. by left. }
  split_and!; [done..|]. exists ({[sys_uuids s]} ∪ O), Pre. split_and!.
  - apply union_subseteq_r.
  - intros n [->%elem_of_singleton|Hn]%elem_of_union; [right; simpl; lia|by left].
  - exact (HPre _ _ _ Hok Hok2 Hg Hs).
  - by apply permanent_stable.
  - apply Hf; [apply union_subseteq_r|]. by apply elem_of_union_l, elem_of_singleton.
Qed.

Lemma spec_keypair O Pre : call_spec GenKeypair O Pre (λ r _, ∃ n, r = gen_keypair n).
Proof.
  split; [|by intros r O' s s' _ _ _ _ _]. intros s r s' Hok Hd _ He.
  assert (r = gen_keypair (sys_keys s) ∧ s' = (perform GenKeypair (tick s)).2) as [-> ->].
  { unfold exec in He. destruct (call_fails _); by injection He as <- <-. }
  split_and!; [|split; simpl; try done|by eexists].
  - destruct Hok as [H1 H2 H3]. split; [exact H1|exact H2|exact H3].
  - intros ino i Hi. exists i. auto.
  - intros p ino Hp. by left.
Qed.

(** *** Places *)

Lemma resolve_temp base n : resolve (join (parent_directory (dir ++ [Normal base]))
    (temp_name base (uuid_v4 n))) = temp_place base n.
Proof. unfold join, temp_place. by rewrite resolve_normal, parent_directory_app. Qed.

Lemma temp_name_length base n : slen base + 4 < slen (temp_name base (uuid_v4 n)).
Proof.
  destruct (uuid_text n) as [Hlen _]. unfold temp_name. rewrite !slen_app.
  pose proof (slen_nonneg (show process_id)). change (slen ".") with 1. lia.
Qed.

Lemma temp_not_key n p : p ∈ temp_places n → p ≠ key_place ∧ p ≠ pub_place.
Proof.
  unfold key_place, pub_place, secret_path, public_path. rewrite !resolve_normal.
  assert (slen (name +:+ ".pub") = slen name + 4) as Hpub by by rewrite slen_app.
  intros [->|[->|[]%elem_of_nil]%elem_of_cons]%elem_of_cons; unfold temp_place.
  - pose proof (temp_name_length name n). split; intros [= Heq]%app_inv_head; rewrite Heq in *; lia.
  - pose proof (temp_name_length (name +:+ ".pub") n).
    split; intros [= Heq]%app_inv_head; rewrite Heq in *; lia.
Qed.

Lemma key_not_pub : key_place ≠ pub_place.
Proof.
  unfold key_place, pub_place, secret_path, public_path. rewrite !resolve_normal.
  intros [= Heq]%app_inv_head. apply (f_equal slen) in Heq. rewrite slen_app in Heq.
  change (slen ".pub") with 4 in Heq. lia.
Qed.

Lemma string_app_assoc (a b c : string) : a +:+ (b +:+ c) = (a +:+ b) +:+ c.
Proof. induction a as [|x a IH]; [done|]. exact (f_equal (String x) IH). Qed.

Lemma temp_name_split base uuid :
  temp_name base uuid = ("." +:+ base +:+ "." +:+ show process_id) +:+ String "."%char uuid.
Proof. unfold temp_name. by rewrite <-!string_app_assoc. Qed.

Lemma temp_name_uuid base base' m n :
  temp_name base (uuid_v4 m) = temp_name base' (uuid_v4 n) → m = n.
Proof.
  intros Heq. apply (uuid_injective (K := K)). eapply last_piece; [apply uuid_text..|].
  rewrite !temp_name_split in Heq. exact Heq.
Qed.

Lemma normal_inj a b : [Normal a] = [Normal b] → a = b.
Proof. by intros [= ->]. Qed.

Lemma temp_inj m n p : p ∈ temp_places m → p ∈ temp_places n → m = n.
Proof.
  unfold temp_places, temp_place. rewrite !elem_of_cons.
  intros Hm Hn. destruct Hm as [->|[->|[]%elem_of_nil]], Hn as [Hn|[Hn|[]%elem_of_nil]];
    apply app_inv_head, normal_inj in Hn; by eapply temp_name_uuid.
Qed.

(** *** A temporary file *)

(** An inode that only the temporary file at [p] names. *)
Definition private (p : Path) (ino : Ino) (b : bytes) (synced : bool) s : Prop :=
  sys_entries s !! p = Some (Hard ino) ∧
  (∀ q, sys_entries s !! q = Some (Hard ino) → q = p) ∧
  ∃ mode, sys_inodes s !! ino = Some (mkInode RegularFile b mode (if synced then Some b else None)).

Lemma own_temp_alone O O' n p : n ∈ O → p ∈ temp_places n → O ## O' → ¬ own_temp O' p.
Proof. intros Hn Hp Hdisj (m & Hm & Hpm). rewrite (temp_inj n m p) in Hn by done. by apply (Hdisj m). Qed.

Lemma private_stable O n p ino b sy : n ∈ O → p ∈ temp_places n → stable O (private p ino b sy).
Proof.
  intros Hn Hp O' s s' Hdisj _ _ _ [_ Hent _ Hino Hlink] (He & Honly & mode & Hi).
  assert (¬ own_temp O' p) as Hmine by (apply (own_temp_alone O O' n); [done..|]; by symmetry).
  assert (¬ at_own_temp O' s ino) as Hnot by (intros (q & Hq & Hqi); by rewrite (Honly q Hqi) in Hq).
  split; [|split].
  - destruct (decide (sys_entries s' !! p = sys_entries s !! p)) as [->|Hne]; [done|].
    destruct (temp_not_key n p Hp) as [? ?]. by destruct (Hent p Hne) as [?|[?|?]].
  - intros q Hq. destruct (Hlink q ino Hq) as [?|[?|?]]; [by apply Honly|congruence|done].
  - destruct (Hino ino _ Hi) as ([k b' mode' sy'] & Hi' & [(Hk & Hb & Hs)|[? _]]); [|done].
    simpl in *. subst. by exists mode'.
Qed.

(** Outcomes of [exec]. *)
Lemma exec_cases {R} (c : syscall R) s r s' :
  exec c s = (r, s') → perform c (tick s) = (r, s') ∨ perform_failing c (tick s) = (r, s').
Proof. unfold exec. destruct (call_fails _); auto. Qed.

Lemma key_ok_tick s : key_ok s → key_ok (tick s).
Proof. by apply same_files_ok. Qed.

Lemma guarantee_tick O s s' : guarantee O (tick s) s' → guarantee O s s'.
Proof. intros [H1 H2 H3 H4 H5]. split; [exact H1|exact H2|exact H3|exact H4|exact H5]. Qed.

Lemma guarantee_refl O s : guarantee O s s.
Proof. by apply same_files_guarantee. Qed.

(** To verify a call: its success, and that its failure changes nothing. *)
Lemma spec_call {R} (c : syscall R) O (Pre : Sys → Prop) (F : R → Sys → Prop) :
  (∀ s, Pre s → Pre (tick s)) → (∀ r, stable O (F r)) →
  (∀ s r s', key_ok s → Pre s → (perform c s = (r, s') ∨ perform_failing c s = (r, s')) →
     key_ok s' ∧ guarantee O s s' ∧ F r s') →
  call_spec c O Pre F.
Proof.
  intros Htick HF Hc. split; [|done]. intros s r s' Hok _ HPre Hr%exec_cases.
  destruct (Hc (tick s) r s' (key_ok_tick s Hok) (Htick s HPre) Hr) as (? & Hg & ?).
  split_and!; [done|by apply guarantee_tick|done].
Qed.

Lemma spec_create O n p mode :
  n ∈ O → resolve p ∈ temp_places n →
  call_spec (CreateNew p mode) O (λ _, True)
    (λ r s, match r with inl ino => private (resolve p) ino [] false s | inr _ => True end).
Proof.
  intros Hn Hp. apply spec_call; [done| |].
  { intros [ino|e]; [by eapply private_stable|by apply stable_true]. }
  intros s r s' Hok _ Hr. assert (r = inr OtherError ∧ s' = s ∨ perform (CreateNew p mode) s = (r, s')) as Hr'.
  { destruct Hr as [Hr|Hr]; [by right|left]. simpl in Hr. by injection Hr as <- <-. }
  clear Hr. destruct Hr' as [[-> ->]|Hr]; [by (split_and!; [|apply guarantee_refl|])|].
  simpl in Hr. unfold lookup_path in Hr. destruct (sys_entries s !! resolve p) as [e|] eqn:He.
  { injection Hr as <- <-. by (split_and!; [|apply guarantee_refl|]). }
  injection Hr as <- <-. set (ino := fresh (dom (sys_inodes s))).
  assert (sys_inodes s !! ino = None) as Hfresh by apply not_elem_of_dom, is_fresh.
  destruct Hok as [Hl Hk Hd]. destruct (temp_not_key n _ Hp) as [Hnk Hnp].
  assert (∀ q e', <[resolve p := Hard ino]> (sys_entries s) !! q = Some e' →
    q = resolve p ∧ e' = Hard ino ∨ q ≠ resolve p ∧ sys_entries s !! q = Some e') as Hins.
  { intros q e' [[<- <-]|[? ?]]%lookup_insert_Some; auto. }
  split_and!; [split|split|split]; simpl; try done.
  - intros q i [[-> [= ->]]|[_ Hq]]%Hins; [by rewrite lookup_insert_eq|].
    destruct (Hl q i Hq) as [x Hx]. rewrite lookup_insert_ne by congruence. by exists x.
  - intros e' [[? _]|[_ He']]%Hins; [done|]. destruct (Hk e' He') as (i & x & -> & Hx & ?).
    exists i, x. simpl. rewrite lookup_insert_ne by congruence. done.
  - intros e' He'%Hd. by rewrite lookup_insert_ne.
  - intros q Hq. right. right. exists n. split; [done|]. destruct (decide (q = resolve p)) as [->|Hne]; [done|].
    by rewrite lookup_insert_ne in Hq.
  - intros e' He'. by rewrite lookup_insert_ne.
  - intros i x Hi. exists x. rewrite lookup_insert_ne by congruence. auto.
  - intros q i [[-> [= ->]]|[_ Hq]]%Hins; [by right; left|by left].
  - by rewrite lookup_insert_eq.
  - split; [|eexists; by rewrite lookup_insert_eq].
    intros q [[-> _]|[_ Hq]]%Hins; [done|]. destruct (Hl q ino Hq). congruence.
Qed.

(** The owner of a temporary file may change its inode. *)
Lemma set_private O n p ino b sy i' s :
  n ∈ O → p ∈ temp_places n → key_ok s → private p ino b sy s →
  key_ok (set_inode ino i' s) ∧ guarantee O s (set_inode ino i' s).
Proof.
  intros Hn Hp [Hl Hk Hd] (He & Honly & mode & Hi). destruct (temp_not_key n p Hp) as [Hnk _].
  assert (sys_entries s !! key_place ≠ Some (Hard ino)) as Hkey by (intros Hkey; by apply Hnk; symmetry; apply Honly).
  split; split; simpl; try done.
  - intros q j Hq. destruct (Hl q j Hq) as [x Hx].
    destruct (decide (j = ino)) as [->|]; [rewrite lookup_insert_eq|rewrite lookup_insert_ne by done]; eauto.
  - intros e Hke. destruct (Hk e Hke) as (j & x & -> & Hx & Hw). exists j, x. simpl.
    rewrite lookup_insert_ne; [done|]. by intros <-.
  - intros j x Hx. destruct (decide (j = ino)) as [->|Hne].
    + exists i'. rewrite lookup_insert_eq. split; [done|]. right. split; [|done]. exists p. split; [|done]. by exists n.
    + exists x. rewrite lookup_insert_ne by done. auto.
  - intros q j Hq. by left.
Qed.

Lemma private_tick p ino b sy s : private p ino b sy s → private p ino b sy (tick s).
Proof. done. Qed.

Lemma private_set p ino b sy b' mode (sy' : bool) s :
  private p ino b sy s →
  private p ino b' sy' (set_inode ino (mkInode RegularFile b' mode (if sy' then Some b' else None)) s).
Proof.
  intros (He & Honly & _). split; [done|]. split; [done|]. exists mode. simpl. by rewrite lookup_insert_eq.
Qed.

Lemma spec_write O n p ino b :
  n ∈ O → p ∈ temp_places n →
  call_spec (WriteAll ino b) O (private p ino [] false)
    (λ r s, match r with inl _ => private p ino b false s | inr _ => True end).
Proof.
  intros Hn Hp. apply spec_call; [done|intros [[]|]; [by eapply private_stable|by apply stable_true]|].
  intros s r s' Hok Hpriv Hr. destruct (Hpriv) as (_ & _ & mode & Hi).
  simpl in Hr. rewrite Hi in Hr. simpl in Hr. destruct Hr as [[= <- <-]|[= <- <-]].
  - destruct (set_private O n p ino [] false (mkInode RegularFile b mode None) s) as [? ?]; [done..|].
    split_and!; [done..|]. by apply (private_set p ino [] false b mode false).
  - destruct (set_private O n p ino [] false (mkInode RegularFile
      (take (written_before_failure (sys_calls s)) b) mode None) s) as [? ?]; [done..|].
    by split_and!.
Qed.

Lemma spec_sync O n p ino b :
  n ∈ O → p ∈ temp_places n →
  call_spec (SyncAll ino) O (private p ino b false)
    (λ r s, match r with inl _ => private p ino b true s | inr _ => True end).
Proof.
  intros Hn Hp. apply spec_call; [done|intros [[]|]; [by eapply private_stable|by apply stable_true]|].
  intros s r s' Hok Hpriv Hr. destruct (Hpriv) as (_ & _ & mode & Hi).
  simpl in Hr. rewrite Hi in Hr. simpl in Hr. destruct Hr as [[= <- <-]|[= <- <-]].
  - destruct (set_private O n p ino b false (mkInode RegularFile b mode (Some b)) s) as [? ?]; [done..|].
    split_and!; [done..|]. by apply (private_set p ino b false b mode true).
  - by (split_and!; [|apply guarantee_refl|]).
Qed.

(** *** Links *)

(** A new entry for a file that is the thread's own temporary file. *)
Lemma set_entry_ok O p n place e s :
  n ∈ O → resolve p ∈ temp_places n → key_ok s →
  sys_entries s !! resolve p = Some e → sys_entries s !! resolve place = None →
  resolve place = pub_place ∨ resolve place = key_place ∧
    (∃ ino i, e = Hard ino ∧ sys_inodes s !! ino = Some i ∧ whole_key i) →
  key_ok (set_entry place e s) ∧ guarantee O s (set_entry place e s).
Proof.
  intros Hn Hp [Hl Hk Hd] He Hfree Hplace.
  assert (∀ q e', <[resolve place := e]> (sys_entries s) !! q = Some e' →
    q = resolve place ∧ e' = e ∨ sys_entries s !! q = Some e') as Hins.
  { intros q e' [[<- <-]|[? ?]]%lookup_insert_Some; auto. }
  assert (∀ e', sys_entries s !! key_place = Some e' →
    <[resolve place := e]> (sys_entries s) !! key_place = Some e') as Hkept.
  { intros e' He'. rewrite lookup_insert_ne; [done|]. intros Heq. rewrite Heq in Hfree. congruence. }
  split; split; simpl; try done.
  - intros q ino [[_ <-]|Hq]%Hins; [by apply (Hl (resolve p))|by apply (Hl q)].
  - intros e' [[Heq ->]|Hq]%Hins; [|by apply Hk].
    destruct Hplace as [Hpub|[_ Hwhole]]; [|done]. destruct key_not_pub. congruence.
  - intros e' He'. by apply Hkept, Hd.
  - intros q Hq. assert (q = resolve place) as ->.
    { destruct (decide (q = resolve place)); [done|]. by rewrite lookup_insert_ne in Hq. }
    destruct Hplace as [?|[? _]]; auto.
  - intros ino i Hi. exists i. auto.
  - intros q ino [[_ <-]|Hq]%Hins; [|by left]. right. right. exists (resolve p). split; [by exists n|done].
Qed.

Lemma spec_publish_key O n p b :
  n ∈ O → resolve p ∈ temp_places n → is_Some (key_of b) → ∀ ino,
  call_spec (HardLink p secret_path) O (private (resolve p) ino b true) (λ _ _, True).
Proof.
  intros Hn Hp Hkey ino. apply spec_call; [done|done|].
  intros s r s' Hok Hpriv Hr. destruct Hpriv as (He & _ & mode & Hi).
  destruct Hr as [Hr|[= <- <-]]; [|by (split_and!; [|apply guarantee_refl|])].
  simpl in Hr. unfold lookup_path in Hr. rewrite He in Hr.
  destruct (sys_entries s !! resolve secret_path) eqn:Hfree; injection Hr as <- <-;
    [by (split_and!; [|apply guarantee_refl|])|].
  destruct (set_entry_ok O p n secret_path (Hard ino) s) as [? ?]; [done..| |by split_and!].
  right. split; [done|]. by exists ino, (mkInode RegularFile b mode (Some b)).
Qed.

Lemma spec_publish_public O n p Pre :
  n ∈ O → resolve p ∈ temp_places n → (∀ s, Pre s → Pre (tick s)) →
  call_spec (HardLink p public_path) O Pre (λ _ _, True).
Proof.
  intros Hn Hp Htick. apply spec_call; [done|done|]. intros s r s' Hok _ Hr.
  destruct Hr as [Hr|[= <- <-]]; [|by (split_and!; [|apply guarantee_refl|])].
  simpl in Hr. unfold lookup_path in Hr. destruct (sys_entries s !! resolve p) as [e|] eqn:He;
    [destruct (sys_entries s !! resolve public_path) eqn:Hfree|];
    injection Hr as <- <-; try by (split_and!; [|apply guarantee_refl|]).
  destruct (set_entry_ok O p n public_path e s) as [? ?]; [done..|by left|by split_and!].
Qed.

Lemma spec_remove O p Pre :
  (∃ n, n ∈ O ∧ resolve p ∈ temp_places n) ∨ resolve p = pub_place → (∀ s, Pre s → Pre (tick s)) →
  call_spec (RemoveFile p) O Pre (λ _ _, True).
Proof.
  intros Hp Htick. apply spec_call; [done|done|]. intros s r s' Hok _ Hr.
  assert (s' = s ∨ s' = set_entries (delete (resolve p) (sys_entries s)) s) as [-> | ->].
  { destruct Hr as [Hr|[= <- <-]]; [|by left]. simpl in Hr. unfold lookup_path in Hr.
    repeat case_match; injection Hr as <- <-; auto. }
  { by (split_and!; [|apply guarantee_refl|]). }
  assert (resolve p ≠ key_place) as Hnk.
  { destruct Hp as [(n & _ & Hp)| ->]; [by apply (temp_not_key n)|]. intros Heq. by apply key_not_pub. }
  destruct Hok as [Hl Hk Hd]. split_and!; [split|split|done]; simpl; try done.
  - intros q ino [_ Hq]%lookup_delete_Some. by apply (Hl q).
  - intros e He. simpl in He. apply lookup_delete_Some in He as [_ Hq]. by apply Hk.
  - intros e He. rewrite lookup_delete_ne by done. by apply Hd.
  - intros q Hq. assert (q = resolve p) as ->.
    { destruct (decide (q = resolve p)); [done|]. by rewrite lookup_delete_ne in Hq. }
    destruct Hp as [(n & ? & ?)|?]; [|auto]. right. right. by exists n.
  - intros e He. by rewrite lookup_delete_ne.
  - intros ino i Hi. exists i. auto.
  - intros q ino [_ Hq]%lookup_delete_Some. by left.
Qed.

Lemma spec_sync_directory O d Pre :
  (∀ s, Pre s → Pre (tick s)) → call_spec (SyncDirectory d) O Pre (λ _ _, True).
Proof.
  intros Htick. apply spec_call; [done|done|]. intros s r s' [Hl Hk Hd] _ Hr.
  destruct Hr as [[= <- <-]|[= <- <-]]; [|by (split_and!; [|apply guarantee_refl|])].
  split_and!; [split|split|done]; simpl; try done.
  - intros e [He|[_ He]]%lookup_union_Some_raw.
    + by apply map_lookup_filter_Some in He as [He _].
    + apply map_lookup_filter_Some in He as [He _]. by apply Hd.
  - intros ino i Hi. exists i. auto.
  - intros q ino Hq. by left.
Qed.

Lemma spec_set_mode O fd mode (Pre : Sys → Prop) :
  permanent Pre → (∀ s, Pre s → Pre (tick s)) → call_spec (SetMode fd mode) O Pre (λ _ s, Pre s).
Proof.
  intros HPre Htick. apply spec_call; [done|intros; by apply permanent_stable|].
  intros s r s' Hok Hs Hr.
  enough (key_ok s' ∧ guarantee O s s') as [? Hg] by (split_and!; [done..|]; by apply (HPre O s s')).
  assert (s' = s ∨ ∃ i, sys_inodes s !! fd = Some i ∧
    s' = set_inode fd (mkInode (i_kind i) (i_bytes i) mode (i_synced i)) s) as [-> |(i & Hi & ->)].
  { destruct Hr as [Hr|[= <- <-]]; [|by left]. simpl in Hr.
    destruct (sys_inodes s !! fd) as [i|]; injection Hr as <- <-; eauto. }
  { split; [done|apply guarantee_refl]. }
  assert (∀ j x, sys_inodes s !! j = Some x → ∃ y,
    <[fd := mkInode (i_kind i) (i_bytes i) mode (i_synced i)]> (sys_inodes s) !! j = Some y ∧
    i_kind y = i_kind x ∧ i_bytes y = i_bytes x ∧ i_synced y = i_synced x) as Hsame.
  { intros j x Hx. destruct (decide (j = fd)) as [->|Hne].
    - rewrite lookup_insert_eq. rewrite Hi in Hx. injection Hx as <-. by eexists.
    - rewrite lookup_insert_ne by done. by exists x. }
  destruct Hok as [Hl Hk Hd]. split; split; simpl; try done.
  - intros q j Hq. destruct (Hl q j Hq) as [x Hx]. destruct (Hsame j x Hx) as (y & Hy & _). by exists y.
  - intros e He. destruct (Hk e He) as (j & x & -> & Hx & Hk1 & Hk2 & Hk3).
    destruct (Hsame j x Hx) as (y & Hy & E1 & E2 & E3). exists j, y. simpl.
    split_and!; [done..|]. unfold whole_key. by rewrite E1, E2, E3.
  - intros j x Hx. destruct (Hsame j x Hx) as (y & Hy & ?). exists y. auto.
  - intros q j Hq. by left.
Qed.

(** ** The programs *)

Abbreviation nothing := (λ _ : Sys, True) (only parsing).
Abbreviation done_ := (ok_then (λ _ _, True)) (only parsing).

(** The open file is the key file, and holds a key. *)
Definition key_open (ino : Ino) s : Prop :=
  sys_entries s !! key_place = Some (Hard ino) ∧
  ∃ i sk, sys_inodes s !! ino = Some i ∧ key_of (i_bytes i) = Some sk.

Lemma key_open_permanent ino : permanent (key_open ino).
Proof.
  intros O s s' _ _ [_ _ Hkey Hino _] (He & i & sk & Hi & Hsk). split; [by apply Hkey|].
  destruct (Hino ino i Hi) as (i' & Hi' & [(_ & Hb & _)|[_ []]]); [|done].
  exists i', sk. by rewrite Hb.
Qed.

Lemma parse_label e l l' sk : parse_private_key e l = Ok sk → parse_private_key e l' = Ok sk.
Proof.
  unfold parse_private_key. destruct (_ <? _); [done|]. destruct (b64_decode _) as [d|]; [|done]. simpl.
  destruct (negb _); [done|]. destruct (seed_from_slice _); [|done]. simpl. by destruct (bool_decide _).
Qed.

Lemma key_of_text b text l sk :
  len b ≤ MAX_PRIVATE_KEY_FILE_BYTES → utf8_of b = Some text → parse_private_key text l = Ok sk →
  key_of b = Some sk.
Proof.
  intros Hlen Ht Hp. unfold key_of. rewrite (proj2 (Z.leb_le _ _) Hlen), Ht. simpl.
  by rewrite (parse_label _ _ "" _ Hp).
Qed.

Lemma key_of_length b sk : key_of b = Some sk → len b ≤ MAX_PRIVATE_KEY_FILE_BYTES.
Proof. unfold key_of. destruct (_ <=? _) eqn:Hl; [lia|done]. Qed.

Lemma safe_read_open O ino label :
  safe (read_bounded_open_file ino secret_path MAX_PRIVATE_KEY_FILE_BYTES label) O (key_open ino)
    (ok_then (λ b s, len b ≤ MAX_PRIVATE_KEY_FILE_BYTES ∧ ∃ sk, key_of b = Some sk ∧ key_is sk s)).
Proof.
  unfold read_bounded_open_file.
  eapply (safe_P_bind _ _ _ _ (λ _, key_open ino)).
  { apply safe_io_ctx, spec_looks; [done| |].
    - intros [?|?]; [apply permanent_stable, key_open_permanent|apply stable_true].
    - intros s [?|?] s' _ Hs He; [|done]. by destruct (exec_cases _ _ _ _ He) as [Hx|Hx]; injection Hx as _ <-. }
  intros [[kind n] mode] O1 _. destruct (decide _); [apply safe_fail|]. destruct (_ <? _); [apply safe_fail|].
  eapply (safe_P_bind _ _ _ _ (λ b s, ∃ sk, key_of b = Some sk ∧ key_is sk s)).
  - apply safe_io_ctx, spec_looks; [done| |].
    + intros [b|?]; [|apply stable_true]. intros O' s s' _ _ H1 H2 Hg (sk & ? & Hsk). exists sk. split; [done|].
      exact (key_is_permanent sk O' s s' H1 H2 Hg Hsk).
    + intros s [b|e] s' _ (Hkey & i & sk & Hi & Hsk) He; [|done].
      destruct (exec_cases _ _ _ _ He) as [Hx|Hx]; [|done]. simpl in Hx. rewrite Hi in Hx.
      injection Hx as <- <-. pose proof (key_of_length _ _ Hsk) as Hlen.
      assert (take (Z.to_nat (MAX_PRIVATE_KEY_FILE_BYTES + 1)) (i_bytes i) = i_bytes i) as ->.
      { apply take_ge. unfold len, MAX_PRIVATE_KEY_FILE_BYTES in *. lia. }
      exists sk. split; [done|]. by exists ino, i.
  - intros b O2 _. destruct (_ <? len b) eqn:Hb; [apply safe_fail|]. apply safe_P_ret.
    intros s _ Hs. split; [lia|done].
Qed.

Lemma safe_read_secret O :
  safe (read_secret_key secret_path) O nothing
    (ok_then (λ r s, match r with Some sk => key_is sk s | None => True end)).
Proof.
  eapply (safe_P_bind _ _ _ _ (λ r s, match r with inl ino => key_open ino s | inr _ => True end)).
  { apply safe_ask, spec_looks; [done| |].
    - intros [ino|?]; [apply permanent_stable, key_open_permanent|apply stable_true].
    - intros s [ino|e] s' [_ Hk _] _ He; [|done].
      destruct (exec_cases _ _ _ _ He) as [Hx|Hx]; [|done]. simpl in Hx. unfold lookup_path in Hx.
      destruct (sys_entries (tick s) !! resolve secret_path) as [[j|]|] eqn:Hj; try done.
      injection Hx as -> <-. split; [done|].
      destruct (Hk _ Hj) as (j & i & [= <-] & Hi & _ & _ & [sk Hsk]). by exists i, sk. }
  intros [ino|[]] O1 _; [|by apply safe_P_ret|apply safe_fail..].
  eapply (safe_P_bind _ _ _ _ (λ _, key_open ino)).
  { apply safe_io, spec_looks; [done| |].
    - intros [?|?]; [apply permanent_stable, key_open_permanent|apply stable_true].
    - intros s [?|?] s' _ Hs He; [|done]. by destruct (exec_cases _ _ _ _ He) as [Hx|Hx]; injection Hx as _ <-. }
  intros [[kind n] mode] O2 _. destruct (decide _); [apply safe_fail|].
  eapply (safe_P_bind _ _ _ _ (λ _, key_open ino)).
  { case_bool_decide; [|by apply safe_P_ret]. apply safe_io.
    destruct (spec_set_mode O2 ino 384 (key_open ino)) as [Hc Hst]; [apply key_open_permanent|done|].
    split; [|intros [?|?]; [apply permanent_stable, key_open_permanent|apply stable_true]].
    intros s r s' ? ? ? Hr. destruct (Hc s r s') as (? & ? & ?); [done..|]. by destruct r. }
  intros _ O3 _. eapply safe_P_bind; [apply safe_read_open|]. intros b O4 _.
  eapply (safe_P_bind _ _ _ _ (λ text s, ∃ sk, key_of b = Some sk ∧ key_is sk s ∧
    len b ≤ MAX_PRIVATE_KEY_FILE_BYTES ∧ utf8_of b = Some text)).
  { apply safe_of_result. intros text s Ht _ (? & sk & ? & ?). exists sk. split_and!; [done..|].
    destruct (utf8_of b); simpl in Ht; congruence. }
  intros text O5 _. eapply (safe_P_bind _ _ _ _ key_is).
  { apply safe_of_result. intros k s Hp _ (sk & Hsk & His & Hlen & Ht).
    rewrite (key_of_text b text _ k Hlen Ht Hp) in Hsk. by injection Hsk as ->. }
  intros k O6 _. by apply safe_P_ret.
Qed.

Lemma safe_generate O fuel :
  safe (generate_compatible_secret_key fuel) O nothing (ok_then (λ sk _, ∃ n, sk = (gen_keypair n).2)).
Proof.
  revert O. induction fuel as [|fuel IH]; intros O; [apply safe_fail|].
  eapply safe_P_bind; [apply safe_ask, spec_keypair|]. intros keys O1 _. cbn zeta.
  destruct (_ && _).
  - apply safe_P_ret. intros s _ [n ->]. by exists n.
  - eapply safe_weaken; [apply IH|done].
Qed.

(** A generated key's text is a key file's contents. *)
Lemma key_of_generated n : key_of (codes (b64_encode (gen_keypair n).2)) = Some (gen_keypair n).2.
Proof.
  destruct (keypair_whole n) as (Hbytes & Hlen & Hslen & seed & Hseed & Hpair).
  apply (key_of_text _ (b64_encode (gen_keypair n).2) "").
  - rewrite len_codes. unfold MAX_PRIVATE_KEY_FILE_BYTES. lia.
  - unfold utf8_of. rewrite (proj2 (b64_text _ Hbytes)). by rewrite of_codes_codes.
  - unfold parse_private_key. rewrite (proj1 (b64_text _ Hbytes)). unfold MAX_ENCODED_KEY_BYTES.
    rewrite (proj2 (Z.ltb_ge _ _) Hslen), b64_roundtrip by done. simpl.
    rewrite Hlen, Z.eqb_refl. simpl. rewrite Hseed. simpl. rewrite Hpair.
    by rewrite bool_decide_eq_false_2 by (intros Hne; by apply Hne).
Qed.

Lemma safe_pure {A} (φ : Prop) (p : prog A) O (Pre : Sys → Prop) Q :
  (∀ s, Pre s → φ) → (φ → safe p O Pre Q) → safe p O Pre Q.
Proof.
  intros Hφ Hp. destruct p as [a|R c k].
  - intros s Hok HPre. exact (Hp (Hφ s HPre) s Hok HPre).
  - intros s Hok Hd HPre. exact (Hp (Hφ s HPre) s Hok Hd HPre).
Qed.

(** Writing a temporary file, up to where it is linked. *)
Lemma safe_temp_file {B} O n p mode b (rest : P B) Q :
  n ∈ O → resolve p ∈ temp_places n →
  (∀ ino O', O ⊆ O' → safe rest O' (private (resolve p) ino b true) (ok_then Q)) →
  safe (file ← io (CreateNew p mode); io (WriteAll file b);; io (SyncAll file);; rest) O nothing (ok_then Q).
Proof.
  intros Hn Hp Hrest. eapply safe_P_bind; [by apply safe_io, (spec_create O n)|]. intros ino O1 H1.
  eapply safe_P_bind; [apply (safe_io _ _ _ (λ _, private (resolve p) ino b false)), (spec_write O1 n); [by apply H1|done]|].
  intros [] O2 H2.
  eapply safe_P_bind; [apply (safe_io _ _ _ (λ _, private (resolve p) ino b true)), (spec_sync O2 n); [by apply H2, H1|done]|].
  intros [] O3 H3. apply Hrest. by do 2 (etrans; [eassumption|]).
Qed.

Lemma safe_sync_parent O d Pre :
  (∀ s, Pre s → Pre (tick s)) → safe (sync_parent_directory d) O Pre done_.
Proof.
  intros HPre. apply safe_io. destruct (spec_sync_directory O d Pre HPre) as [Hc _].
  split; [|by intros [?|?]]. intros s r s' ? ? ? Hr. destruct (Hc s r s') as (? & ? & ?); [done..|]. by destruct r.
Qed.

Lemma safe_create O b :
  is_Some (key_of b) → safe (create_secret_key_once secret_path b) O nothing done_.
Proof.
  intros Hb. unfold create_secret_key_once. unfold secret_path at 1 2. rewrite file_name_app.
  apply safe_uuid; [apply permanent_true|]. intros n O1 _ Hn.
  pose proof (resolve_temp name n) as Htemp.
  set (p := join (parent_directory (dir ++ [Normal name])) (temp_name name (uuid_v4 n))) in *.
  assert (resolve p ∈ temp_places n) as Hp by (rewrite Htemp; by left).
  eapply (safe_P_bind _ _ _ _ (λ _, nothing)).
  { apply safe_catch. apply (safe_post _ _ _ done_); [|done]. apply (safe_temp_file O1 n); [done..|]. intros ino O2 Hsub.
    eapply safe_P_bind; [apply safe_ask, (spec_publish_key O2 n p b); [by apply Hsub|done|done]|].
    intros [?|[]] O3 _; [by apply safe_sync_parent|apply safe_fail|by apply safe_P_ret|apply safe_fail]. }
  intros r O2 Hsub. eapply safe_P_bind.
  { apply safe_ask, spec_remove; [|done]. left. exists n. split; [by apply Hsub|done]. }
  intros u O3 _. by apply safe_of_result.
Qed.

Lemma safe_look {R} (c : syscall R) O Pre :
  looks c = true → safe (ask c) O Pre done_.
Proof. intros Hc. by apply safe_ask, spec_look. Qed.

Lemma safe_read_any O fd path max label :
  safe (read_bounded_open_file fd path max label) O nothing done_.
Proof.
  eapply safe_P_bind; [apply (safe_io_ctx _ _ _ _ (λ _, nothing))|].
  { apply spec_looks; [done|by intros [?|?]|]. by intros s [?|?]. }
  intros [[kind m] mode] O1 _. destruct (decide _); [apply safe_fail|]. destruct (_ <? _); [apply safe_fail|].
  eapply safe_P_bind; [apply (safe_io_ctx _ _ _ _ (λ _, nothing))|].
  { apply spec_looks; [done|by intros [?|?]|]. by intros s [?|?]. }
  intros b O2 _. destruct (_ <? _); [apply safe_fail|by apply safe_P_ret].
Qed.

Lemma safe_already O path b : safe (already_written path b) O nothing done_.
Proof.
  eapply safe_P_bind; [|by intros r O1 _; apply safe_P_ret].
  apply safe_catch. apply (safe_post _ _ _ done_); [|done].
  eapply safe_P_bind; [apply (safe_io_ctx _ _ _ _ (λ _, nothing))|].
  { apply spec_looks; [done|by intros [?|?]|]. by intros s [?|?]. }
  intros fd O1 _. apply safe_read_any.
Qed.

Lemma safe_publish attempts O n p d b :
  n ∈ O → resolve p ∈ temp_places n → safe (publish attempts public_path p d b) O nothing done_.
Proof.
  revert O. induction attempts as [|attempts IH]; intros O Hn Hp; [apply safe_fail|].
  eapply safe_P_bind; [by apply safe_ask, (spec_publish_public O n)|].
  intros [?|[]] O1 H1; [by apply safe_sync_parent|apply safe_fail| |apply safe_fail].
  assert (n ∈ O1) as Hn1 by by apply H1.
  eapply safe_P_bind; [by apply safe_look|]. intros [[k|]|[]] O2 H2;
    [|apply safe_fail|by apply IH; [apply H2|]|apply safe_fail..].
  eapply safe_P_bind; [apply safe_already|]. intros [] O3 H3; [by apply safe_P_ret|].
  eapply safe_P_bind; [apply safe_ask, spec_remove; [by right|done]|].
  intros [?|[]] O4 H4; [|by apply IH; [apply H4, H3, H2|]|apply safe_fail..].
  eapply safe_P_bind; [by apply safe_sync_parent|]. intros [] O5 H5. apply IH; [by apply H5, H4, H3, H2|done].
Qed.

Lemma safe_write_public O b : safe (write_public_key public_path b) O nothing done_.
Proof.
  eapply safe_P_bind; [by apply safe_look|]. intros m O1 _.
  assert (∀ O, safe (same ← already_written public_path b;
      if same : bool then mret tt else
      let parent := parent_directory public_path in
      match file_name public_path with
      | None => fail "Public key path has no valid file name"
      | Some name =>
          uuid ← ask NewUuid;
          let temp_path := join parent (temp_name name uuid) in
          write_result ← catch (
            file ← io (CreateNew temp_path 420);
            io (WriteAll file b);;
            io (SyncAll file);;
            publish 3 public_path temp_path parent b);
          ask (RemoveFile temp_path);;
          of_result write_result
      end) O nothing done_) as Hwrite.
  { clear O O1. intros O. eapply safe_P_bind; [apply safe_already|]. intros [] O1 _; [by apply safe_P_ret|].
    unfold public_path at 2. rewrite file_name_app. apply safe_uuid; [apply permanent_true|]. intros n O2 _ Hn.
    pose proof (resolve_temp (name +:+ ".pub") n) as Htemp. fold public_path in Htemp. cbn zeta.
    set (p := join (parent_directory public_path) (temp_name (name +:+ ".pub") (uuid_v4 n))) in *.
    assert (resolve p ∈ temp_places n) as Hp by (rewrite Htemp; by right; left).
    eapply (safe_P_bind _ _ _ _ (λ _, nothing)).
    { apply safe_catch. apply (safe_post _ _ _ done_); [|done]. apply (safe_temp_file O2 n); [done..|].
      intros ino O3 Hsub. eapply safe_weaken; [apply (safe_publish 3 O3 n); [by apply Hsub|done]|done]. }
    intros r O3 Hsub. eapply safe_P_bind.
    { apply safe_ask, spec_remove; [|done]. left. exists n. split; [by apply Hsub|done]. }
    intros u O4 _. by apply safe_of_result. }
  destruct m as [[k|]|e]; [apply Hwrite|apply safe_fail|apply Hwrite].
Qed.

Definition loaded (r : result (string * bytes)) s : Prop :=
  match r with
  | Ok (public, secret) =>
      key_is secret s ∧ public = b64_encode (drop (Z.to_nat (SECRETKEYBYTES / 2)) secret)
  | Err _ => True
  end.

Lemma safe_load O fuel wait : safe (load_or_create_keypair fuel secret_path wait) O nothing loaded.
Proof.
  apply (safe_post _ _ _ (ok_then (λ r s, loaded (Ok r) s))); [|by intros [[]|]].
  eapply (safe_P_bind _ _ _ _ (λ _, nothing)).
  { destruct (0 <? wait); [|by apply safe_P_ret].
    eapply safe_P_bind; [by apply safe_look|]. intros b O1 _. by apply safe_P_ret. }
  intros [] O1 _. eapply safe_P_bind; [apply safe_read_secret|]. intros found O2 _.
  eapply (safe_P_bind _ _ _ _ (λ _, nothing)).
  { destruct found as [sk|]; [by apply safe_P_ret|].
    eapply safe_P_bind; [eapply safe_weaken; [apply safe_generate|done]|].
    intros sk O3 _. apply (safe_pure (∃ n, sk = (gen_keypair n).2)); [done|]. intros [n ->].
    apply (safe_weaken _ _ nothing); [|done]. apply safe_create. rewrite key_of_generated. by eexists. }
  intros [] O3 _. eapply safe_P_bind; [apply safe_read_secret|]. intros found' O4 _.
  eapply (safe_P_bind _ _ _ _ key_is).
  { apply safe_of_result. intros sk s Hsk%ok_or_ok _ Hs. by subst. }
  intros sk O5 _. unfold secret_path at 1. rewrite push_ext_app. fold public_path.
  eapply (safe_P_bind _ _ _ _ (λ _, key_is sk)).
  - eapply safe_post; [eapply safe_weaken; [apply (safe_frame _ _ nothing (key_is sk)); [apply key_is_permanent|apply safe_write_public]|done]|].
    intros [] s _ [_ ?]; done.
  - intros [] O6 _. apply safe_P_ret. by intros s _ ?.
Qed.

(** ** Soundness: threads verified alone are safe together *)

Definition pool_ok {A} (Q : A → Sys → Prop) (ts : list (prog A)) s : Prop :=
  key_ok s ∧ ∃ (own : nat → gset nat) (pre : nat → Sys → Prop),
    (∀ i j, i ≠ j → own i ## own j) ∧ (∀ i, drawn (own i) s) ∧
    ∀ i p, ts !! i = Some p → pre i s ∧ stable (own i) (pre i) ∧ safe p (own i) (pre i) Q.

Lemma drawn_later O O' s s' : guarantee O' s s' → drawn O s → drawn O s'.
Proof. intros [Hu _ _ _ _] Hd n Hn. specialize (Hd n Hn). lia. Qed.

Lemma pool_step_ok {A} (Q : A → Sys → Prop) ts s ts' s' :
  pool_ok Q ts s → pool_step (ts, s) (ts', s') → pool_ok Q ts' s' ∧ ∃ O, guarantee O s s'.
Proof.
  intros (Hok & own & pre & Hdisj & Hdrawn & Hts) Hstep. inversion Hstep as [ts1 R c k ts2 ? r ? Hexec]; subst.
  set (i := length ts1).
  destruct (Hts i (Call c k)) as (Hpre & _ & Hsafe); [by apply list_lookup_middle|].
  specialize (Hsafe s Hok (Hdrawn i) Hpre). rewrite Hexec in Hsafe.
  destruct Hsafe as (Hok' & Hg & O' & Post & Hsub & Hnew & Hpost & Hst & Hk).
  split; [|by exists (own i)]. split; [done|].
  exists (λ j, if decide (j = i) then O' else own j), (λ j, if decide (j = i) then Post else pre j).
  assert (∀ j, j ≠ i → O' ## own j) as Hdisj'.
  { intros j Hj n Hn Hnj. destruct (Hnew n Hn) as [Hni|[Hni _]].
    - by apply (Hdisj i j (not_eq_sym Hj) n).
    - specialize (Hdrawn j n Hnj). lia. }
  split_and!.
  - intros j1 j2 Hne. repeat case_decide; subst; [done| | |by apply Hdisj]; [by apply Hdisj'|].
    symmetry. by apply Hdisj'.
  - intros j. case_decide as Hj; [|by eapply drawn_later]. intros n Hn. destruct (Hnew n Hn) as [Hni|?]; [|lia].
    by apply (drawn_later (own i) (own i) s s').
  - intros j p Hp. case_decide as Hj.
    + subst j. rewrite list_lookup_middle in Hp by done. injection Hp as <-. done.
    + destruct (Hts j p) as (Hj1 & Hj2 & Hj3).
      { rewrite <-Hp. unfold i in Hj. destruct (decide (j < length ts1)%nat).
        - by rewrite !lookup_app_l by done.
        - rewrite !lookup_app_r by lia. by destruct (j - length ts1)%nat eqn:E; [lia|]. }
      split_and!; [|done..]. apply (Hj2 (own i) s s'); [by apply Hdisj|done..].
Qed.

(** What every call keeps holds after any number of them. *)
Lemma pool_invariant {A} (Q : A → Sys → Prop) (J : list (prog A) → Sys → Prop) ts s ts' s' :
  (∀ ts s ts' s', pool_ok Q ts s → pool_step (ts, s) (ts', s') → J ts s → J ts' s') →
  pool_ok Q ts s → rtc pool_step (ts, s) (ts', s') → J ts s → pool_ok Q ts' s' ∧ J ts' s'.
Proof.
  intros HJ Hok Hsteps. remember (ts, s) as x eqn:Hx. remember (ts', s') as y eqn:Hy.
  revert ts s Hx Hok. induction Hsteps as [x|x [ts1 s1] y Hstep _ IH]; intros ts s -> Hok Hs.
  { by injection Hy as -> ->. }
  apply (IH Hy ts1 s1 eq_refl); [by eapply pool_step_ok|by eapply HJ].
Qed.

Lemma pool_steps_ok {A} (Q : A → Sys → Prop) (F : Sys → Prop) ts s ts' s' :
  permanent F → pool_ok Q ts s → F s → rtc pool_step (ts, s) (ts', s') → pool_ok Q ts' s' ∧ F s'.
Proof.
  intros HF Hok HFs Hsteps. apply (pool_invariant Q (λ _, F) ts s); [|done..].
  intros ts0 s0 ts1 s1 Hok0 Hstep. destruct (pool_step_ok Q _ _ _ _ Hok0 Hstep) as [Hok1 [O Hg]].
  apply (HF O); [apply Hok0|apply Hok1|done].
Qed.

(** The contents of a file that is no thread's temporary file. *)
Definition contents (ino : Ino) (b : bytes) s : Prop :=
  (∃ i, sys_inodes s !! ino = Some i ∧ i_bytes i = b) ∧
  ∀ n p, p ∈ temp_places n → sys_entries s !! p ≠ Some (Hard ino).

Lemma contents_permanent ino b : permanent (contents ino b).
Proof.
  intros O s s' _ _ [_ _ _ Hino Hlink] [(i & Hi & Hb) Hno].
  assert (¬ at_own_temp O s ino) as Hnot by (intros (p & (n & _ & Hp) & He); by apply (Hno n p)).
  split.
  - destruct (Hino ino i Hi) as (i' & Hi' & [(_ & Hb' & _)|[? _]]); [|done]. exists i'. by rewrite Hb'.
  - intros n p Hp He. destruct (Hlink p ino He) as [?|[?|?]]; [by apply (Hno n p)|congruence|done].
Qed.

Definition loaders (fuel : nat) (waits : list Z) : list (P (string * bytes)) :=
  load_or_create_keypair fuel secret_path <$> waits.

Lemma loaders_ok fuel waits s : key_ok s → pool_ok loaded (loaders fuel waits) s.
Proof.
  intros Hok. split; [done|]. exists (λ _, ∅), (λ _, nothing). split_and!; [done|by intros i n []%elem_of_empty|].
  intros i p Hp. apply list_lookup_fmap_Some in Hp as (w & -> & _). split_and!; [done|done|apply safe_load].
Qed.

(** ** What reaches the disk *)

(** A link that appears was answered as made. *)
Lemma link_made from to s :
  sys_entries s !! key_place = None → is_Some (sys_entries (exec (HardLink from to) s).2 !! key_place) →
  (exec (HardLink from to) s).1 = inl tt.
Proof.
  intros Hnone [e He]. unfold exec in *. destruct (call_fails _); simpl in *; [congruence|].
  repeat case_match; simpl in *; congruence.
Qed.

(** Once the key file's entry is on the disk it stays there. *)
Lemma durable_kept {R} (c : syscall R) s :
  key_ok s → is_Some (sys_durable s !! key_place) → is_Some (sys_durable (exec c s).2 !! key_place).
Proof.
  intros Hok [e Hd]. pose proof (ko_durable _ Hok e Hd) as He.
  assert (sys_durable (exec c s).2 = sys_durable s ∨
    ∃ d, (exec c s).2 = sync_directory d (tick s)) as [-> |[d ->]]; [|by exists e|].
  - unfold exec. destruct (call_fails _), c; simpl; repeat case_match; auto; right; by eexists.
  - exists e. simpl. destruct (decide (in_directory d key_place)) as [Hin|Hout].
    + apply lookup_union_Some_l, map_lookup_filter_Some. by split.
    + rewrite lookup_union_r; [by apply map_lookup_filter_Some|].
      apply map_lookup_filter_None. right. intros e' _ Hin. by apply Hout.
Qed.

(** Calls that can make the key file appear. *)
Definition makes_key {R} (c : syscall R) : Prop :=
  match c with
  | CreateNew p _ | HardLink _ p => resolve p = key_place
  | _ => False
  end.

Lemma makes_key_only {R} (c : syscall R) s :
  sys_entries s !! key_place = None → is_Some (sys_entries (exec c s).2 !! key_place) → makes_key c.
Proof.
  intros Hnone [e He]. unfold exec in He.
  destruct (call_fails _), c; simpl in *; repeat case_match; simpl in *;
    try congruence; try (apply lookup_delete_Some in He as [_ He]; congruence);
    (apply lookup_insert_Some in He as [[? _]|[_ He]]; [done|congruence]).
Qed.

(** With the key file in place, the program ends in [G] unless it has brought the
    file's entry to the disk. *)
Fixpoint must_sync {A} (G : A → Prop) (p : prog A) : Prop :=
  match p with
  | Ret a => G a
  | Call c k => ∀ s, is_Some (sys_entries s !! key_place) →
      is_Some (sys_durable (exec c s).2 !! key_place) ∨ must_sync G (k (exec c s).1)
  end.

(** A call of the program that makes the key file appear obliges it to. *)
Fixpoint syncs_creation {A} (G : A → Prop) (p : prog A) : Prop :=
  match p with
  | Ret a => True
  | Call c k => ∀ s, syncs_creation G (k (exec c s).1) ∧
      (sys_entries s !! key_place = None → is_Some (sys_entries (exec c s).2 !! key_place) →
       must_sync G (k (exec c s).1))
  end.

Lemma must_sync_bind {A B} (G : A → Prop) (G' : B → Prop) (f : A → prog B) (p : prog A) :
  must_sync G p → (∀ a, G a → must_sync G' (f a)) → must_sync G' (prog_bind f p).
Proof.
  intros Hp Hf. induction p as [a|R c k IH]; simpl in *; [by apply Hf|].
  intros s Hs. destruct (Hp s Hs); [by left|right; auto].
Qed.

Lemma syncs_bind {A B} (G : A → Prop) (G' : B → Prop) (f : A → prog B) (p : prog A) :
  syncs_creation G p → (∀ a, syncs_creation G' (f a)) → (∀ a, G a → must_sync G' (f a)) →
  syncs_creation G' (prog_bind f p).
Proof.
  intros Hp Hf Hg. induction p as [a|R c k IH]; simpl in *; [by apply Hf|].
  intros s. destruct (Hp s) as [H1 H2]. split; [by apply IH|].
  intros Hs Hs'. eapply must_sync_bind; [by apply H2|done].
Qed.

(** Programs that can fail need not have synced when they do. *)
Definition failed {A} (r : result A) : Prop := is_ok r = false.
Abbreviation syncs := (syncs_creation failed).

Lemma syncs_P_bind {A B} (p : P A) (f : A → P B) : syncs p → (∀ a, syncs (f a)) → syncs (p ≫= f).
Proof.
  intros Hp Hf. apply (syncs_bind failed); [done| |].
  - intros [a|e]; [apply Hf|done].
  - by intros [a|e].
Qed.

Lemma syncs_call {A R} (G : A → Prop) (c : syscall R) (k : R → prog A) :
  ¬ makes_key c → (∀ r, syncs_creation G (k r)) → syncs_creation G (Call c k).
Proof. intros Hc Hk s. split; [apply Hk|]. intros Hs Hs'. destruct Hc. by eapply makes_key_only. Qed.

(** Programs without such calls. *)
Fixpoint makes_no_key {A} (p : prog A) : Prop :=
  match p with
  | Ret a => True
  | Call c k => ¬ makes_key c ∧ ∀ r, makes_no_key (k r)
  end.

Lemma syncs_no_key {A} (G : A → Prop) (p : prog A) : makes_no_key p → syncs_creation G p.
Proof. induction p as [a|R c k IH]; [done|]. intros [Hc Hk]. apply syncs_call; auto. Qed.

Lemma no_key_bind {A B} (f : A → prog B) (p : prog A) :
  makes_no_key p → (∀ a, makes_no_key (f a)) → makes_no_key (prog_bind f p).
Proof. intros Hp Hf. induction p as [a|R c k IH]; simpl in *; [done|]. destruct Hp. auto. Qed.

Lemma no_key_P_bind {A B} (p : P A) (f : A → P B) :
  makes_no_key p → (∀ a, makes_no_key (f a)) → makes_no_key (p ≫= f).
Proof. intros Hp Hf. apply no_key_bind; [done|]. by intros [a|e]. Qed.

#[local] Ltac no_key := repeat first
  [ done | assumption | match goal with |- ¬ makes_key _ => by intros [] end | match goal with |- ∀ _, _ => intros ? end
  | apply no_key_P_bind | apply no_key_bind
  | match goal with |- makes_no_key (match ?x with _ => _ end) => destruct x end
  | progress unfold ask, io, io_ctx, of_result, fail, catch | progress cbn zeta
  | match goal with |- makes_no_key (Call _ _) => split end ].

Lemma no_key_already path b : makes_no_key (already_written path b).
Proof.
  unfold already_written, read_bounded_regular_file, open_readonly_no_follow. no_key.
Qed.

Lemma no_key_read_secret path : makes_no_key (read_secret_key path).
Proof. unfold read_secret_key, open_readonly_no_follow. no_key. Qed.

Lemma no_key_generate fuel : makes_no_key (generate_compatible_secret_key fuel).
Proof. induction fuel; cbn [generate_compatible_secret_key]; no_key. Qed.

Lemma no_key_public_link from : ¬ makes_key (HardLink from public_path).
Proof. simpl. intros Heq. by apply key_not_pub. Qed.
Lemma no_key_temp base n mode :
  base = name ∨ base = name +:+ ".pub" →
  ¬ makes_key (CreateNew (join (parent_directory (dir ++ [Normal base])) (temp_name base (uuid_v4 n))) mode).
Proof.
  intros Hbase. cbn [makes_key]. rewrite resolve_temp.
  assert (temp_place base n ∈ temp_places n) as Ht.
  { unfold temp_places. destruct Hbase as [-> | ->]; rewrite !elem_of_cons; auto. }
  by destruct (temp_not_key n _ Ht).
Qed.

Lemma no_key_publish attempts temp d b : makes_no_key (publish attempts public_path temp d b).
Proof.
  pose proof (no_key_already public_path b). pose proof (no_key_public_link temp).
  induction attempts; cbn [publish]; unfold sync_parent_directory; no_key.
Qed.

#[local] Opaque publish.

(** A call that draws a UUID. *)
Lemma exec_uuid s : (exec NewUuid s).1 = uuid_v4 (sys_uuids s).
Proof. unfold exec. by destruct (call_fails _). Qed.

Lemma syncs_uuid {A} (f : string → P A) :
  (∀ n, syncs (f (uuid_v4 n))) → syncs (ask NewUuid ≫= f).
Proof.
  intros Hf s. rewrite exec_uuid. split; [apply Hf|]. intros Hs Hs'. by destruct (makes_key_only NewUuid s).
Qed.

Lemma syncs_write_public b : syncs (write_public_key public_path b).
Proof.
  pose proof (no_key_already public_path b) as Hal.
  apply syncs_P_bind; [by apply syncs_no_key; no_key|]. intros m.
  assert (∀ (p : P unit) (q : P bool), makes_no_key q → syncs p →
    syncs (same ← q; if same : bool then mret tt else p)) as Hif.
  { intros p q Hq Hp. apply syncs_P_bind; [by apply syncs_no_key|]. by intros []. }
  destruct m as [[k|]|e]; [| by apply syncs_no_key; no_key|]; apply Hif; try done;
    cbn zeta; replace (file_name public_path) with (Some (name +:+ ".pub")) by (by rewrite <-file_name_app with (p := dir));
    apply syncs_uuid; intros n;
    pose proof (no_key_temp (name +:+ ".pub") n 420 ltac:(by right)); fold public_path in *;
    apply syncs_no_key; no_key; apply no_key_publish.
Qed.

(** Where the obligation is met: linked, the file's directory is synced, or the
    call fails. *)
Lemma syncs_create b : syncs (create_secret_key_once secret_path b).
Proof.
  unfold create_secret_key_once. cbn zeta.
  replace (file_name secret_path) with (Some name) by (by rewrite <-file_name_app with (p := dir)).
  apply syncs_uuid. intros n. pose proof (no_key_temp name n 384 ltac:(by left)). fold secret_path in *.
  apply (syncs_bind (λ r, ∀ a : unit, r ≠ Ok (Ok a))).
  - apply (syncs_bind failed); [|done|intros [a|e]; [done|]; by intros _ a].
    repeat (apply syncs_P_bind; [by apply syncs_no_key; no_key|intros ?]).
    intros s. split.
    { apply syncs_no_key. unfold sync_parent_directory. no_key. }
    intros Hnone Hsome. rewrite link_made by done.
    intros s' [e He]. unfold sync_parent_directory, io, exec.
      destruct (call_fails _); [by right|left]. exists e. simpl.
      apply lookup_union_Some_l, map_lookup_filter_Some. split; [done|].
      unfold in_directory, key_place. cbn [fst]. rewrite resolve_resolve. unfold secret_path.
      rewrite parent_directory_app, resolve_normal, drop_app_length, length_app. simpl. split; [done|lia].
  - intros [r|e]; [|done]. apply syncs_no_key. no_key.
  - intros [[[]|e]|e] Hr; [by destruct (Hr tt)|..|done]. intros s Hs. right. done.
Qed.

Lemma syncs_load fuel wait : syncs (load_or_create_keypair fuel secret_path wait).
Proof.
  unfold load_or_create_keypair. apply syncs_P_bind; [by apply syncs_no_key; no_key|]. intros [].
  apply syncs_P_bind; [apply syncs_no_key, no_key_read_secret|]. intros found.
  apply syncs_P_bind.
  { destruct found; [by apply syncs_no_key|].
    apply syncs_P_bind; [apply syncs_no_key, no_key_generate|]. intros sk. apply syncs_create. }
  intros []. apply syncs_P_bind; [apply syncs_no_key, no_key_read_secret|]. intros found'.
  apply syncs_P_bind; [by apply syncs_no_key; no_key|]. intros sk. cbn zeta.
  unfold secret_path. rewrite push_ext_app. fold public_path.
  apply syncs_P_bind; [apply syncs_write_public|]. by intros [].
Qed.

(** The thread that made the key file, until it has synced it. *)
Definition owes_sync {A} (i : nat) (ts : list (P A)) s : Prop :=
  is_Some (sys_entries s !! key_place) ∧
  (is_Some (sys_durable s !! key_place) ∨ ∀ p, ts !! i = Some p → must_sync failed p).

Lemma step_syncs {A} (ts : list (P A)) s ts' s' :
  pool_step (ts, s) (ts', s') → Forall syncs ts → Forall syncs ts'.
Proof.
  intros Hstep Hts. inversion Hstep as [l1 R c k l2 ? r ? Hexec]; subst. apply Forall_app in Hts as [H1 H2].
  apply Forall_cons_1 in H2 as [Hc H2]. apply Forall_app. split; [done|]. constructor; [|done].
  pose proof (proj1 (Hc s)) as Hk. by rewrite Hexec in Hk.
Qed.

Lemma step_durable {A} (Q : A → Sys → Prop) ts s ts' s' :
  pool_ok Q ts s → pool_step (ts, s) (ts', s') →
  is_Some (sys_durable s !! key_place) → is_Some (sys_durable s' !! key_place).
Proof.
  intros [Hok _] Hstep Hd. inversion Hstep as [l1 R c k l2 ? r ? Hexec]; subst.
  pose proof (durable_kept c s Hok Hd) as H1. by rewrite Hexec in H1.
Qed.

Lemma step_owes {A} (Q : result A → Sys → Prop) i ts s ts' s' :
  pool_ok Q ts s → pool_step (ts, s) (ts', s') → owes_sync i ts s → owes_sync i ts' s'.
Proof.
  intros Hok Hstep [[e He] Howes]. destruct (pool_step_ok Q _ _ _ _ Hok Hstep) as [_ [O Hg]].
  split; [exists e; by apply (gu_key _ _ _ Hg)|].
  destruct Howes as [Hd|Hmust]; [left; by eapply step_durable|].
  inversion Hstep as [l1 R c k l2 ? r ? Hexec]; subst. destruct (decide (i = length l1)) as [->|Hi].
  - specialize (Hmust (Call c k)). rewrite list_lookup_middle in Hmust by done.
    destruct (Hmust eq_refl s) as [Hd|Hk]; [by exists e|left; by rewrite Hexec in Hd|right].
    intros p. rewrite list_lookup_middle by done. intros [= <-]. by rewrite Hexec in Hk.
  - right. intros p Hp. apply Hmust. rewrite <-Hp. destruct (decide (i < length l1)%nat).
    + by rewrite !lookup_app_l by done.
    + rewrite !lookup_app_r by lia. by destruct (i - length l1)%nat eqn:E; [lia|].
Qed.

(** The key a thread created and returned is on the disk. *)
Lemma created_key_durable fuel waits s i ts1 s1 ts2 s2 ts s' r :
  key_ok s → rtc pool_step (loaders fuel waits, s) (ts1, s1) → sys_entries s1 !! key_place = None →
  thread_step i (ts1, s1) (ts2, s2) → is_Some (sys_entries s2 !! key_place) →
  rtc pool_step (ts2, s2) (ts, s') → ts !! i = Some (Ret (Ok r)) → is_Some (sys_durable s' !! key_place).
Proof.
  intros Hok Hsteps1 Hnone Hstep Hsome Hsteps2 Hr.
  destruct (pool_invariant loaded (λ ts _, Forall syncs ts) _ _ _ _ (λ _ _ _ _ _, step_syncs _ _ _ _)
    (loaders_ok fuel waits s Hok) Hsteps1) as [Hok1 Hsyncs].
  { apply Forall_fmap, Forall_true. intros w. apply syncs_load. }
  assert (pool_ok loaded ts2 s2) as Hok2 by (by eapply pool_step_ok, thread_pool_step).
  inversion Hstep as [? R c k ? r0 ? Hi Hexec]; subst.
  pose proof (proj1 (Forall_lookup _ _) Hsyncs i _ Hi s1) as [_ Hmust]. rewrite Hexec in Hmust.
  assert (owes_sync i (<[i := k r0]> ts1) s2) as Howes.
  { split; [done|]. right. intros p. rewrite list_lookup_insert_eq by by eapply lookup_lt_Some.
    intros [= <-]. by apply Hmust. }
  destruct (pool_invariant loaded (owes_sync i) _ _ _ _ (step_owes loaded i) Hok2 Hsteps2 Howes)
    as [_ [_ [Hd|Hbad]]]; [done|]. by apply Hbad in Hr.
Qed.

(** What is left of a whole key after a crash. *)
Lemma crash_keeps_whole s s' ino i :
  crashed s s' → sys_inodes s !! ino = Some i → whole_key i →
  ∃ i', sys_inodes s' !! ino = Some i' ∧ whole_key i' ∧ i_bytes i' = i_bytes i.
Proof.
  intros [_ _ Cino Ckept] Hi (Hk1 & Hk2 & Hk3). destruct (Ckept ino) as [i' Hi']; [by exists i|].
  destruct (Cino ino i' Hi') as (i0 & Hi0 & Hkind & Hsame). rewrite Hi in Hi0. injection Hi0 as <-.
  destruct (Hsame Hk2) as [Hb Hs]. exists i'. unfold whole_key. by rewrite Hkind, Hs, Hb.
Qed.

Lemma crash_keeps_durable s s' secret :
  key_ok s → crashed s s' → key_is secret s → is_Some (sys_durable s !! key_place) → key_is secret s'.
Proof.
  intros [Hl Hk Hd] Hcrash (ino & i & He & Hi & Hsk) [e Hdur].
  destruct (Hk _ He) as (? & ? & [= <-] & Hi' & Hw). rewrite Hi in Hi'. injection Hi' as <-.
  destruct (crash_keeps_whole s s' ino i Hcrash Hi Hw) as (i' & Hi' & _ & Hb).
  exists ino, i'. rewrite Hb. split_and!; [|done|done].
  pose proof (Hd e Hdur) as He'. destruct (crash_entries _ _ Hcrash key_place) as [Heq|Heq]; rewrite Heq; [done|congruence].
Qed.

(** C10: However many threads create or load the signing key at once, call by
    call and with calls failing at will, as long as the machine does not crash, all that succeed return one key: the one
    in the key file, with its public half. A key that is in the file stays, and
    no file that existed before is changed, so that links placed at the names the
    server uses cannot make it overwrite anything. *)
Theorem keypair_creation_agrees fuel waits s ts s' :
  key_ok s → rtc pool_step (loaders fuel waits, s) (ts, s') →
  (∀ i j a b, ts !! i = Some (Ret (Ok a)) → ts !! j = Some (Ret (Ok b)) → a = b) ∧
  (∀ i public secret, ts !! i = Some (Ret (Ok (public, secret))) →
     key_is secret s' ∧ public = b64_encode (drop (Z.to_nat (SECRETKEYBYTES / 2)) secret)) ∧
  (∀ secret, key_is secret s → key_is secret s') ∧
  (∀ ino b, contents ino b s → contents ino b s').
Proof.
  intros Hok Hsteps.
  assert (∀ F, permanent F → F s → pool_ok loaded ts s' ∧ F s') as Hall.
  { intros F HF HFs. eapply pool_steps_ok; [done| |done|done]. by apply loaders_ok. }
  assert (∀ i r, ts !! i = Some (Ret r) → loaded r s') as Hdone.
  { intros i r Hr. destruct (Hall _ permanent_true I) as [(Hok' & own & pre & _ & _ & Hts) _].
    destruct (Hts i (Ret r) Hr) as (Hpre & _ & Hsafe). by apply Hsafe. }
  split_and!.
  - intros i j [p1 k1] [p2 k2] [H1 ->]%Hdone [H2 ->]%Hdone.
    destruct H1 as (ino & x & He & Hx & Hk1), H2 as (ino' & x' & He' & Hx' & Hk2).
    rewrite He in He'. injection He' as <-. rewrite Hx in Hx'. injection Hx' as <-.
    rewrite Hk1 in Hk2. by injection Hk2 as <-.
  - intros i public secret Hr. by apply Hdone in Hr.
  - intros secret His. by apply (Hall (key_is secret) (key_is_permanent secret) His).
  - intros ino b Hc. by apply (Hall (contents ino b) (contents_permanent ino b) Hc).
Qed.

(** C16: Wherever the machine crashes while threads create or load the key, what
    is left of the key file is nothing at all or a whole key, never a torn or
    empty file.  A key survives the crash if it was on the disk before the threads
    started or had got there by then; and so does a key that was returned by the
    thread that created it, since that thread syncs the directory before it
    returns.  A thread that merely loads the key may return it before its creator
    has synced it: of such a key nothing is promised. *)
Theorem key_file_survives_crash fuel waits s ts s' s'' :
  key_ok s → rtc pool_step (loaders fuel waits, s) (ts, s') → crashed s' s'' →
  key_intact s'' ∧
  (∀ secret, key_is secret s' →
     is_Some (sys_durable s !! key_place) ∨ is_Some (sys_durable s' !! key_place) → key_is secret s'') ∧
  ∀ i ts1 s1 ts2 s2 public secret,
    rtc pool_step (loaders fuel waits, s) (ts1, s1) → sys_entries s1 !! key_place = None →
    thread_step i (ts1, s1) (ts2, s2) → is_Some (sys_entries s2 !! key_place) →
    rtc pool_step (ts2, s2) (ts, s') → ts !! i = Some (Ret (Ok (public, secret))) →
    key_is secret s''.
Proof.
  intros Hok Hsteps Hcrash. pose proof (loaders_ok fuel waits s Hok) as Hpool.
  destruct (pool_steps_ok loaded nothing _ _ _ _ permanent_true Hpool I Hsteps) as [Hpool' _].
  pose proof (proj1 Hpool') as Hok'. split_and!.
  - intros e He. destruct (ko_intact _ Hok' e) as (ino & i & -> & Hi & Hw).
    { destruct (crash_entries _ _ Hcrash key_place) as [Heq|Heq]; rewrite Heq in He; [done|].
      by apply (ko_durable _ Hok'). }
    destruct (crash_keeps_whole s' s'' ino i Hcrash Hi Hw) as (i' & Hi' & Hw' & _). by exists ino, i'.
  - intros secret Hkey [Hd|Hd]; apply (crash_keeps_durable s'); try done.
    eapply (pool_invariant loaded (λ _ s', is_Some (sys_durable s' !! key_place)));
      [|exact Hpool|exact Hsteps|exact Hd]. intros. by eapply step_durable.
  - intros i ts1 s1 ts2 s2 public secret Hsteps1 Hnone Hstep Hsome Hsteps2 Hr.
    apply (crash_keeps_durable s'); [done..| |].
    + destruct Hpool' as (_ & own & pre & _ & _ & Hts). destruct (Hts i _ Hr) as (Hpre & _ & Hsafe).
      by apply (Hsafe s' Hok' Hpre).
    + by apply (created_key_durable fuel waits s i ts1 s1 ts2 s2 ts s' (public, secret)).
Qed.
End KeyRace.

(** ** Witnesses *)

(** A thread that runs while the others wait. *)
Lemma run_steps `{!Platform} {A} (ts1 ts2 : list (prog A)) (p : prog A) s :
  rtc pool_step (ts1 ++ p :: ts2, s) (ts1 ++ Ret (run p s).1 :: ts2, (run p s).2).
Proof.
  revert s. induction p as [a|R c k IH]; intros s; [done|]. cbn [run].
  destruct (exec c s) as [r s'] eqn:Hr. eapply rtc_l; [by constructor|]. apply IH.
Qed.

Definition empty_sys : Sys := mkSys ∅ ∅ ∅ 0 0 0.
Lemma empty_sys_ok `{!Platform} `{!KeyLibrary} dir name : key_ok dir name empty_sys.
Proof. split; intros ?; [intros ?|..]; cbn [sys_entries sys_durable empty_sys]; by rewrite lookup_empty. Qed.

(** Two threads on an empty directory, the second after the first. *)
Definition sample_loader : P (string * bytes) :=
  load_or_create_keypair 2 (secret_path [] "id_ed25519") 0.
Definition after_one : Sys := (run sample_loader empty_sys).2.
Definition after_two : Sys := (run sample_loader after_one).2.
Definition sample_key : bytes := numbered 0 ++ numbered 0.
Definition sample_outcome : P (string * bytes) := Ret (Ok (hex_text (numbered 0), sample_key)).

Lemma sample_race :
  rtc pool_step (loaders [] "id_ed25519" 2 [0; 0], empty_sys) ([sample_outcome; sample_outcome], after_two).
Proof.
  etrans; [apply (run_steps [] [sample_loader] sample_loader)|].
  assert ((run sample_loader empty_sys).1 = Ok (hex_text (numbered 0), sample_key)) as -> by by vm_compute.
  etrans; [apply (run_steps [sample_outcome] [] sample_loader)|].
  assert ((run sample_loader after_one).1 = Ok (hex_text (numbered 0), sample_key)) as Hr by by vm_compute.
  change ((run sample_loader empty_sys).2) with after_one. by rewrite Hr.
Qed.

Lemma keypair_creation_agrees_witness :
  key_is [] "id_ed25519" sample_key after_two ∧ sys_keys after_two = 1%nat.
Proof.
  split; [|by vm_compute].
  destruct (keypair_creation_agrees [] "id_ed25519" 2 [0; 0] empty_sys
    [sample_outcome; sample_outcome] after_two (empty_sys_ok _ _) sample_race) as (_ & Hkey & _).
  by apply (Hkey 0%nat (hex_text (numbered 0))).
Defined.

(** The first thread call by call, while the second waits. *)
Definition next_call {A} (x : prog A * Sys) : prog A * Sys :=
  match x.1 with
  | Ret _ => x
  | Call c k => let '(r, s') := exec c x.2 in (k r, s')
  end.
Definition calls_of {A} (n : nat) (p : prog A) s : prog A * Sys := Nat.iter n next_call (p, s).
Definition is_call {A} (p : prog A) : bool := match p with Call _ _ => true | Ret _ => false end.

Lemma next_thread_step {A} (x : prog A * Sys) ts :
  is_call x.1 = true → thread_step 0 (x.1 :: ts, x.2) ((next_call x).1 :: ts, (next_call x).2).
Proof.
  destruct x as [[a|R c k] s]; [done|]. intros _. unfold next_call. cbn [fst snd].
  destruct (exec c s) as [r s'] eqn:Hr. by apply (thread_call 0 (Call c k :: ts) R c k).
Qed.

Lemma calls_steps {A} n (p : prog A) s ts :
  rtc pool_step (p :: ts, s) ((calls_of n p s).1 :: ts, (calls_of n p s).2).
Proof.
  induction n as [|n IH]; [done|]. etrans; [exact IH|].
  change (calls_of (S n) p s) with (next_call (calls_of n p s)).
  destruct (is_call (calls_of n p s).1) eqn:Hc.
  - by apply rtc_once, (thread_pool_step 0), next_thread_step.
  - by destruct (calls_of n p s) as [[] ?].
Qed.

(** The seventh call of a loader on an empty directory links the key file; then it
    runs to its end, and the machine keeps only what is on the disk. *)
Definition before_link : prog (result (string * bytes)) * Sys := calls_of 6 sample_loader empty_sys.
Definition linked : prog (result (string * bytes)) * Sys := next_call before_link.
Definition crashed_sys : Sys :=
  mkSys (sys_durable after_one) (sys_durable after_one) (sys_inodes after_one) 0 0 0.

Lemma linked_runs_on :
  rtc pool_step ([linked.1; sample_loader], linked.2) ([sample_outcome; sample_loader], after_one).
Proof.
  assert (sample_outcome = (calls_of 15 linked.1 linked.2).1) as -> by by vm_compute.
  assert (after_one = (calls_of 15 linked.1 linked.2).2) as -> by by vm_compute.
  apply (calls_steps 15 linked.1 linked.2 [sample_loader]).
Qed.

Lemma sample_crash : crashed after_one crashed_sys.
Proof.
  split; [intros p; right; exact eq_refl|exact eq_refl| |intros ino Hi; exact Hi].
  intros ino i Hi. exists i. split; [exact Hi|]. split; [exact eq_refl|]. intros Hs. by split.
Qed.

Lemma key_file_survives_crash_witness : key_is [] "id_ed25519" sample_key crashed_sys.
Proof.
  pose proof (calls_steps 6 sample_loader empty_sys [sample_loader]) as Hbefore.
  pose proof (next_thread_step before_link [sample_loader] ltac:(by vm_compute)) as Hlink.
  destruct (key_file_survives_crash [] "id_ed25519" 2 [0; 0] empty_sys
    [sample_outcome; sample_loader] after_one crashed_sys (empty_sys_ok _ _)) as (_ & _ & Hkey).
  - etrans; [exact Hbefore|]. eapply rtc_l; [exact (thread_pool_step 0 _ _ Hlink)|exact linked_runs_on].
  - exact sample_crash.
  - apply (Hkey 0%nat _ _ _ _ (hex_text (numbered 0)) sample_key Hbefore ltac:(by vm_compute) Hlink
      ltac:(eexists; by vm_compute) linked_runs_on eq_refl).
Defined.
