(* ===== verification/RelayStream.v ===== *)
(** Connections as the relay sees them ([src/relay_server.rs]: [StreamTrait] and
    its two implementations) and the address of a WebSocket client behind a proxy
    ([make_pair] of the relay, [handle_listener_inner] of the rendezvous server).

    Framing, the WebSocket protocol and HTTP are libraries: what arrives on a
    connection is a sequence of items, what is sent is a sequence of packets. *)

From Stdlib Require Import Ascii String.
From S2P Require Import Prelude.
From S2P Require Import Text.
From S2P Require Import Net.

(** ** Streams *)

(** What a relay reports: elapsed ms, total bits, highest and current speed in kb/s. *)
Abbreviation Usage := (Z * Z * Z * Z)%type.

(** What [StreamExt::next] yields on a [FramedStream], and on a WebSocket. *)
Inductive WsMessage := Binary (b : bytes) | Close | OtherMessage.
Inductive Item := FramedItem (r : result bytes) | WsItem (r : result WsMessage).

(** A stream is named by the number of the connection it was accepted as. *)
Record Stream := mkStream { st_conn : N; st_ws : bool; st_raw : bool }.

(** [StreamTrait::recv] of both implementations. *)
Definition recv (next : option Item) : option (result bytes) :=
  match next with
  | Some (FramedItem r) => Some r
  | Some (WsItem (Ok (Binary b))) => Some (Ok b)
  | Some (WsItem (Ok Close)) => None
  | Some (WsItem (Ok OtherMessage)) => Some (Ok [])
  | Some (WsItem (Err e)) => Some (Err e)
  | None => None
  end.

(** [send_raw]: what goes out on the connection. *)
Inductive Packet := FramePacket (b : bytes) | BinaryPacket (b : bytes).
Definition send_raw (s : Stream) (b : bytes) : Packet :=
  if st_ws s then BinaryPacket b else FramePacket b.

Definition is_ws (s : Stream) : bool := st_ws s.
Definition set_raw (s : Stream) : Stream :=
  if st_ws s then s else mkStream (st_conn s) false true.

(** The bytes a packet carries. *)
Definition payload (p : Packet) : bytes :=
  match p with FramePacket b | BinaryPacket b => b end.
Lemma payload_send s b : payload (send_raw s b) = b.
Proof. unfold send_raw. by destruct (st_ws s). Qed.
#[export] Hint Rewrite payload_send : srv.

(** ** The client's address *)

(** Names in lower case, values as bytes; [get] finds the first one. *)
Abbreviation Headers := (list (string * bytes)).
Definition header_get (name : string) (headers : Headers) : option bytes :=
  snd <$> List.find (λ h, bool_decide (h.1 = to_ascii_lowercase name)) headers.

(** [HeaderValue::to_str]: visible ASCII and tabs. *)
Definition to_str (value : bytes) : option string :=
  if forallb (λ b, ((32 <=? b) && (b <? 127)) || (b =? 9)) value then Some (of_codes value) else None.

Definition real_ip (headers : Headers) : option string :=
  header_value ← match header_get "X-Real-IP" headers with
                 | Some v => Some v
                 | None => header_get "X-Forwarded-For" headers
                 end;
  value ← to_str header_value;
  first ← head (split_char ","%char value);
  let value := trim first in
  if str_empty value then None else Some value.

(** The callback of the upgrade: the address used from then on. *)
Definition client_addr (trust_proxy_headers : bool) (headers : Headers) (addr : SocketAddr) : SocketAddr :=
  if negb trust_proxy_headers then addr else
  match ip ← real_ip headers; parse_ip ip with
  | Some real_ip_addr => socket_addr_new real_ip_addr (sa_port addr)
  | None => addr
  end.

Example client_addr_ex :
  client_addr true [("host", codes "h"); ("x-forwarded-for", codes " 192.0.2.9 , 10.0.0.1")]
    (SockV4 LOCALHOST_V4 40000) = SockV4 (mkV4 192 0 2 9) 40000.
Proof. by vm_compute. Qed.

(** ** Theorems *)

(** Proxy headers move a client to another address only when the operator
    trusts them and the first value parses as one; the source port, which keeps
    connections apart, always stays. *)
Theorem client_addr_keeps_port trust headers addr :
  sa_port (client_addr trust headers addr) = sa_port addr ∧
  (client_addr trust headers addr ≠ addr → trust = true ∧
   ∃ text ip, real_ip headers = Some text ∧ parse_ip text = Some ip ∧
     sa_ip (client_addr trust headers addr) = ip).
Proof.
  unfold client_addr. destruct trust; simpl; [|done].
  destruct (real_ip headers) as [text|]; simpl; [|done].
  destruct (parse_ip text) as [ip|] eqn:E; [|done].
  rewrite sa_port_new, sa_ip_new. split; [done|]. intros _. split; [done|]. by exists text, ip.
Qed.
