(* ===== verification/RelaySettings.v ===== *)
(** The relay's settings, address lists and console ([src/relay_server.rs]:
    [parse_ip_values], [load_ip_list], the [parse_*] functions, [check_params]
    and [check_cmd]).

    The atomics are a [Tuning] record, the two lists are sets of canonical
    addresses.  A console command is a program of at most two accesses to the
    shared state ([console_next]): [limit-speed] and [single-bandwidth] load the
    other bound before they store theirs, and [total-bandwidth] stores the total
    before it sets the limiter.  [console_step] interleaves the commands of several
    consoles, [check_cmd] runs one alone.  How a float is printed is a parameter. *)

From Stdlib Require Import Ascii String SpecFloat.
From S2P Require Import Prelude.
From S2P Require Import Text.
From S2P Require Import Net.
From S2P Require Import Float64.
From S2P Require Import FileSystem.
From S2P Require Import KeyStore.
From S2P Require Import Config.
From S2P Require Import RelayStream.

(** ** Data *)

Definition DOWNGRADE_THRESHOLD_SCALE : Z := 1000000.
Definition MAX_IP_LIST_BYTES : Z := 1024 * 1024.
Definition MAX_IP_LIST_ENTRIES : Z := 65536.
Definition BLACKLIST_FILE : string := "blacklist.txt".
Definition BLOCKLIST_FILE : string := "blocklist.txt".

Record Tuning := mkTuning {
  DOWNGRADE_THRESHOLD_SCALED : Z;
  DOWNGRADE_START_CHECK : Z;
  LIMIT_SPEED : Z;
  TOTAL_BANDWIDTH : Z;
  SINGLE_BANDWIDTH : Z
}.
(** The atomics' initial values. *)
Definition initial_tuning : Tuning :=
  mkTuning 660000 1800000 (32 * 1024 * 1024) (1024 * 1024 * 1024) (128 * 1024 * 1024).

Definition set_threshold (v : Z) (t : Tuning) : Tuning :=
  mkTuning v (DOWNGRADE_START_CHECK t) (LIMIT_SPEED t) (TOTAL_BANDWIDTH t) (SINGLE_BANDWIDTH t).
Definition set_start (v : Z) (t : Tuning) : Tuning :=
  mkTuning (DOWNGRADE_THRESHOLD_SCALED t) v (LIMIT_SPEED t) (TOTAL_BANDWIDTH t) (SINGLE_BANDWIDTH t).
Definition set_limit (v : Z) (t : Tuning) : Tuning :=
  mkTuning (DOWNGRADE_THRESHOLD_SCALED t) (DOWNGRADE_START_CHECK t) v (TOTAL_BANDWIDTH t) (SINGLE_BANDWIDTH t).
Definition set_total (v : Z) (t : Tuning) : Tuning :=
  mkTuning (DOWNGRADE_THRESHOLD_SCALED t) (DOWNGRADE_START_CHECK t) (LIMIT_SPEED t) v (SINGLE_BANDWIDTH t).
Definition set_single (v : Z) (t : Tuning) : Tuning :=
  mkTuning (DOWNGRADE_THRESHOLD_SCALED t) (DOWNGRADE_START_CHECK t) (LIMIT_SPEED t) (TOTAL_BANDWIDTH t) v.

(** What the console works on; [rc_limiter] is the speed of the shared limiter. *)
Record RelayState := mkRelayState {
  rc_tuning : Tuning;
  BLACKLIST : gset string;
  BLOCKLIST : gset string;
  USAGE : gmap string Usage;
  rc_limiter : f64
}.
Definition set_tuning (t : Tuning) (s : RelayState) : RelayState :=
  mkRelayState t (BLACKLIST s) (BLOCKLIST s) (USAGE s) (rc_limiter s).
Definition set_blacklist (l : gset string) (s : RelayState) : RelayState :=
  mkRelayState (rc_tuning s) l (BLOCKLIST s) (USAGE s) (rc_limiter s).
Definition set_blocklist (l : gset string) (s : RelayState) : RelayState :=
  mkRelayState (rc_tuning s) (BLACKLIST s) l (USAGE s) (rc_limiter s).
Definition set_limiter (x : f64) (s : RelayState) : RelayState :=
  mkRelayState (rc_tuning s) (BLACKLIST s) (BLOCKLIST s) (USAGE s) x.

(** ** Address lists *)

Fixpoint collect_ips (pieces acc : list string) : result (list string) :=
  match pieces with
  | [] => Ok acc
  | raw_ip :: pieces =>
      ip ← ok_or (parse_ip (trim raw_ip)) ("Invalid IP address: " +:+ raw_ip);
      let acc := acc ++ [show_ip ip] in
      if 64 <? len acc then Err "Too many IP addresses in one command" else collect_ips pieces acc
  end.
Definition parse_ip_values (value : string) : result (list string) :=
  collect_ips (split_char "|"%char value) [].

(** The address on a line of a list file, without comment and note. *)
Definition line_value (l : string) : string := first_word (before_char "#"%char l).

Fixpoint collect_lines (path : Path) (n : Z) (ls : list string) (ips : gset string)
    : result (gset string) :=
  match ls with
  | [] => Ok ips
  | l :: ls =>
      let value := line_value l in
      if str_empty value then collect_lines path (n + 1) ls ips else
      ip ← ok_or (parse_ip value)
             ("Invalid IP address in " +:+ display path +:+ " at line " +:+ show n);
      let ips := {[show_ip ip]} ∪ ips in
      if MAX_IP_LIST_ENTRIES <? Z.of_nat (size ips)
      then Err (display path +:+ " contains too many entries")
      else collect_lines path (n + 1) ls ips
  end.

Definition load_ip_list (path : Path) : P (gset string) :=
  m ← ask (SymlinkMetadata path);
  match m with
  | inr NotFound => mret ∅
  | _ =>
      contents ← read_bounded_regular_file path MAX_IP_LIST_BYTES "Relay IP list";
      contents ← of_result (ok_or (utf8_of contents) (display path +:+ " is not valid UTF-8"));
      of_result (collect_lines path 1 (lines contents) ∅)
  end.

(** ** Tuning *)

Definition parse_downgrade_threshold (value : string) : result Z :=
  value ← parse_f64 value;
  if negb (is_finite value && f64_lt (S754_zero false) value && f64_le value (f64_of 1))
  then Err "DOWNGRADE_THRESHOLD must be greater than 0 and at most 1" else
  let scaled := f64_to_usize (f64_round (f64_mul value (f64_of DOWNGRADE_THRESHOLD_SCALE))) in
  if scaled =? 0 then Err "DOWNGRADE_THRESHOLD must be at least 0.000001" else Ok scaled.

Definition parse_downgrade_start (value : string) : result Z :=
  seconds ← parse_usize_text value;
  if seconds =? 0 then Err "DOWNGRADE_START_CHECK must be greater than 0" else
  ok_or (usize_checked_mul seconds 1000) "DOWNGRADE_START_CHECK is too large".

Definition parse_bandwidth (name value : string) : result Z :=
  megabits ← parse_f64 value;
  let bits := f64_mul (f64_mul megabits (f64_of 1024)) (f64_of 1024) in
  if negb (is_finite megabits) || f64_le megabits (S754_zero false) || negb (is_finite bits)
     || f64_lt (f64_of usize_max) bits
  then Err (name +:+ " must be a positive bandwidth supported by this architecture")
  else Ok (f64_to_usize (f64_round bits)).

(** One optional setting. *)
Definition setting (name : string) (parse : string → result Z) (current : Z) (e : Env) : result Z :=
  match not_blank (get_arg_opt name e) with Some value => parse value | None => Ok current end.

(** Every setting is parsed before the first one is stored. *)
Definition check_params (e : Env) (t : Tuning) : result Tuning :=
  threshold ← setting "DOWNGRADE_THRESHOLD" parse_downgrade_threshold (DOWNGRADE_THRESHOLD_SCALED t) e;
  start ← setting "DOWNGRADE_START_CHECK" parse_downgrade_start (DOWNGRADE_START_CHECK t) e;
  limit ← setting "LIMIT_SPEED" (parse_bandwidth "LIMIT_SPEED") (LIMIT_SPEED t) e;
  total ← setting "TOTAL_BANDWIDTH" (parse_bandwidth "TOTAL_BANDWIDTH") (TOTAL_BANDWIDTH t) e;
  single ← setting "SINGLE_BANDWIDTH" (parse_bandwidth "SINGLE_BANDWIDTH") (SINGLE_BANDWIDTH t) e;
  if single <? limit then Err "LIMIT_SPEED must not exceed SINGLE_BANDWIDTH"
  else Ok (mkTuning threshold start limit total single).

(** ** The console *)

Section Console.
(** [{}] and [{:.2}] of a float. *)
Context (show_f64 show_f64_2 : f64 → string).

Definition console_help : list string :=
  ["blacklist-add(ba) <ip>"; "blacklist-remove(br) <ip>"; "blacklist(b) <ip>";
   "blocklist-add(Ba) <ip>"; "blocklist-remove(Br) <ip>"; "blocklist(B) <ip>";
   "downgrade-threshold(dt) [value]"; "downgrade-start-check(t) [value(second)]";
   "limit-speed(ls) [value(Mb/s)]"; "total-bandwidth(tb) [value(Mb/s)]";
   "single-bandwidth(sb) [value(Mb/s)]"; "usage(u)"].

(** The commands on one list: its new contents, and what is printed. *)
Definition list_add (what : string) (arg : option string) (l : gset string) : gset string * string :=
  match arg with
  | None => (l, "")
  | Some ip =>
      match parse_ip_values ip with
      | Err e => (l, line e)
      | Ok ips =>
          let additions := len (filter (λ x, x ∉ l) ips) in
          if MAX_IP_LIST_ENTRIES <? Z.min usize_max (Z.of_nat (size l) + additions)
          then (l, line (what +:+ " entry limit reached"))
          else (l ∪ list_to_set ips, "")
      end
  end.
Definition list_remove (arg : option string) (l : gset string) : gset string * string :=
  match arg with
  | None => (l, "")
  | Some ip =>
      if bool_decide (ip = "all") then (∅, "") else
      match parse_ip_values ip with
      | Err e => (l, line e)
      | Ok ips => (l ∖ list_to_set ips, "")
      end
  end.
Definition list_show (arg : option string) (l : gset string) : string :=
  match arg with
  | Some ip => match parse_ip ip with
               | Some ip => line (show_bool (bool_decide (show_ip ip ∈ l)))
               | None => line ("Invalid IP address: " +:+ ip)
               end
  | None => unlines (elements l)
  end.

(** [sort_by_key(Reverse(total))], which is stable. *)
Fixpoint insert_usage (x : string * Usage) (l : list (string * Usage)) : list (string * Usage) :=
  match l with
  | [] => [x]
  | y :: l' => if y.2.1.1.2 <? x.2.1.1.2 then x :: l else y :: insert_usage x l'
  end.
Definition sort_usage (l : list (string * Usage)) : list (string * Usage) :=
  foldl (λ acc x, insert_usage x acc) [] l.

Definition mebi (x : f64) : f64 := f64_div (f64_div x (f64_of 1024)) (f64_of 1024).
Definition usage_line (x : string * Usage) : string :=
  let '(ip, (elapsed, total, highest, speed)) := x in
  line (ip +:+ ": " +:+ show (elapsed / 1000) +:+ "s "
        +:+ show_f64_2 (f64_div (mebi (f64_of total)) (f64_of 8)) +:+ "MB " +:+ show highest
        +:+ "kb/s " +:+ show (total / elapsed) +:+ "kb/s " +:+ show speed +:+ "kb/s").
Definition show_usage (m : gmap string Usage) : string :=
  foldr (λ x s, (if x.2.1.1.1 =? 0 then "" else usage_line x) +:+ s) ""
    (sort_usage (map_to_list m)).

Definition with_tuning (f : Tuning → Tuning) (s : RelayState) : RelayState := set_tuning (f (rc_tuning s)) s.

(** Where a command stands: typed, about to store a bound it has compared, about
    to set the limiter's speed, or answered. *)
Inductive ConsolePc :=
  | Typed (cmd : string)
  | StoreLimit (value : Z)
  | StoreSingle (value : Z)
  | SetSpeed (value : Z)
  | Answer (res : string).

(** A command that sets a value or prints the current one. *)
Definition tune (arg : option string) (parse : string → result Z) (complaint : string)
    (store : Z → RelayState → ConsolePc * RelayState) (print : RelayState → string) (s : RelayState)
    : ConsolePc * RelayState :=
  match arg with
  | Some v => match parse v with
              | Ok value => store value s
              | Err e => (Answer (line ("Invalid " +:+ complaint +:+ ": " +:+ e)), s)
              end
  | None => (Answer (print s), s)
  end.

Definition compare_limit (value : Z) (s : RelayState) : ConsolePc * RelayState :=
  if SINGLE_BANDWIDTH (rc_tuning s) <? value
  then (Answer (line "LIMIT_SPEED must not exceed SINGLE_BANDWIDTH"), s)
  else (StoreLimit value, s).
Definition compare_single (value : Z) (s : RelayState) : ConsolePc * RelayState :=
  if value <? LIMIT_SPEED (rc_tuning s)
  then (Answer (line "SINGLE_BANDWIDTH must not be below LIMIT_SPEED"), s)
  else (StoreSingle value, s).
Definition store_total (value : Z) (s : RelayState) : ConsolePc * RelayState :=
  (SetSpeed value, with_tuning (set_total value) s).
Definition show_rate (n : Z) : string := line (show_f64 (mebi (f64_of n)) +:+ "Mb/s").

(** What [check_cmd] does up to its first access to the shared state, and that. *)
Definition first_access (cmd : string) (s : RelayState) : ConsolePc * RelayState :=
  let fds := split_char " "%char (trim cmd) in
  let arg := fds !! 1%nat in
  match fds with
  | [] => (Answer "", s)
  | c :: _ =>
      if is_cmd ["h"] c then (Answer (unlines console_help), s)
      else if is_cmd ["blacklist-add"; "ba"] c then
        let '(l, out) := list_add "Blacklist" arg (BLACKLIST s) in (Answer out, set_blacklist l s)
      else if is_cmd ["blacklist-remove"; "br"] c then
        let '(l, out) := list_remove arg (BLACKLIST s) in (Answer out, set_blacklist l s)
      else if is_cmd ["blacklist"; "b"] c then (Answer (list_show arg (BLACKLIST s)), s)
      else if is_cmd ["blocklist-add"; "Ba"] c then
        let '(l, out) := list_add "Blocklist" arg (BLOCKLIST s) in (Answer out, set_blocklist l s)
      else if is_cmd ["blocklist-remove"; "Br"] c then
        let '(l, out) := list_remove arg (BLOCKLIST s) in (Answer out, set_blocklist l s)
      else if is_cmd ["blocklist"; "B"] c then (Answer (list_show arg (BLOCKLIST s)), s)
      else if is_cmd ["downgrade-threshold"; "dt"] c then
        tune arg parse_downgrade_threshold "downgrade threshold"
          (λ v s, (Answer "", with_tuning (set_threshold v) s))
          (λ s, line (show_f64 (f64_div (f64_of (DOWNGRADE_THRESHOLD_SCALED (rc_tuning s)))
                                  (f64_of DOWNGRADE_THRESHOLD_SCALE)))) s
      else if is_cmd ["downgrade-start-check"; "t"] c then
        tune arg parse_downgrade_start "downgrade start"
          (λ v s, (Answer "", with_tuning (set_start v) s))
          (λ s, line (show (DOWNGRADE_START_CHECK (rc_tuning s) / 1000) +:+ "s")) s
      else if is_cmd ["limit-speed"; "ls"] c then
        tune arg (parse_bandwidth "LIMIT_SPEED") "limit speed" compare_limit
          (λ s, show_rate (LIMIT_SPEED (rc_tuning s))) s
      else if is_cmd ["total-bandwidth"; "tb"] c then
        tune arg (parse_bandwidth "TOTAL_BANDWIDTH") "total bandwidth" store_total
          (λ s, show_rate (TOTAL_BANDWIDTH (rc_tuning s))) s
      else if is_cmd ["single-bandwidth"; "sb"] c then
        tune arg (parse_bandwidth "SINGLE_BANDWIDTH") "single bandwidth" compare_single
          (λ s, show_rate (SINGLE_BANDWIDTH (rc_tuning s))) s
      else if is_cmd ["usage"; "u"] c then (Answer (show_usage (USAGE s)), s)
      else (Answer "", s)
  end.
(** One access. *)
Definition console_next (pc : ConsolePc) (s : RelayState) : ConsolePc * RelayState :=
  match pc with
  | Typed cmd => first_access cmd s
  | StoreLimit value => (Answer "", with_tuning (set_limit value) s)
  | StoreSingle value => (Answer "", with_tuning (set_single value) s)
  | SetSpeed value => (Answer "", set_limiter (f64_of value) s)
  | Answer _ => (pc, s)
  end.

(** Several consoles, one access at a time. *)
Inductive console_step : list ConsolePc * RelayState → list ConsolePc * RelayState → Prop :=
  | console_one ts1 pc ts2 s :
      console_step (ts1 ++ pc :: ts2, s) (ts1 ++ (console_next pc s).1 :: ts2, (console_next pc s).2).

(** A command that runs alone. *)
Definition answer_of (pc : ConsolePc) : string := match pc with Answer res => res | _ => "" end.
Definition check_cmd (cmd : string) (s : RelayState) : string * RelayState :=
  let '(pc, s) := console_next (Typed cmd) s in
  let '(pc, s) := console_next pc s in
  (answer_of pc, s).
End Console.

(** ** The start of the server *)

(** [start_with_bind] up to the listeners, and the limiter [io_loop] makes: the
    settings are read in this order, and an error ends the server.  (Of the port
    parser's messages the model keeps one.) *)
Record RelayConfig := mkRelayConfig {
  rg_key : string; rg_console : bool; rg_port : Z; rg_max_connections : Z
}.
Definition DEFAULT_MAX_RELAY_CONNECTIONS : Z := 8192.
Section Start.
Context `{!Platform} `{!KeyLibrary}.
Definition start_relay (fuel : nat) (port key : string) : M Process (RelayConfig * RelayState) :=
  key ← on_sys (relay_server_sk fuel key);
  e ← gets pr_env;
  runtime_console ← lift (get_yes_no_arg "ENABLE_RUNTIME_CONSOLE" false e);
  blacklist ← on_sys (load_ip_list (path_of BLACKLIST_FILE));
  blocklist ← on_sys (load_ip_list (path_of BLOCKLIST_FILE));
  port ← lift (ok_or (parse_u16 port) "invalid digit found in string");
  if negb ((1 <=? port) && (port <=? 65533)) then bail "Port must be between 1 and 65533" else
  max_connections ← lift (get_bounded_usize_arg "MAX_RELAY_CONNECTIONS"
                            DEFAULT_MAX_RELAY_CONNECTIONS 64 65536 e);
  tuning ← lift (check_params e initial_tuning);
  mret (mkRelayConfig key runtime_console port max_connections,
        mkRelayState tuning blacklist blocklist ∅ (f64_of (TOTAL_BANDWIDTH tuning))).
End Start.

(** ** Theorems *)

(** A canonical address. *)
Definition canonical_ip (x : string) : Prop := ∃ ip, x = show_ip ip.

(** A bandwidth in bits per second. *)
Definition bandwidth (n : Z) : Prop := 0 ≤ n ≤ usize_max.
Record tuning_ranges (t : Tuning) : Prop := {
  tw_threshold : 1 ≤ DOWNGRADE_THRESHOLD_SCALED t ≤ usize_max;
  tw_start : 1000 ≤ DOWNGRADE_START_CHECK t ≤ usize_max;
  tw_limit : bandwidth (LIMIT_SPEED t);
  tw_single : bandwidth (SINGLE_BANDWIDTH t);
  tw_total : bandwidth (TOTAL_BANDWIDTH t)
}.
Record list_wf (l : gset string) : Prop := {
  lw_size : Z.of_nat (size l) ≤ MAX_IP_LIST_ENTRIES;
  lw_canonical : ∀ x, x ∈ l → canonical_ip x
}.
(** What holds between any two accesses of any commands. *)
Record relay_ranges (s : RelayState) : Prop := {
  rw_tuning : tuning_ranges (rc_tuning s);
  rw_blacklist : list_wf (BLACKLIST s);
  rw_blocklist : list_wf (BLOCKLIST s);
  rw_limiter : ∃ n, bandwidth n ∧ rc_limiter s = f64_of n
}.
(** What holds between two commands when no two overlap. *)
Record relay_wf (s : RelayState) : Prop := {
  rw_ranges : relay_ranges s;
  rw_ordered : LIMIT_SPEED (rc_tuning s) ≤ SINGLE_BANDWIDTH (rc_tuning s);
  rw_speed : rc_limiter s = f64_of (TOTAL_BANDWIDTH (rc_tuning s))
}.

(** *** Lists *)

Section Lists.
Implicit Types l : gset string.

Lemma collect_ips_canonical pieces acc ips :
  Forall canonical_ip acc → collect_ips pieces acc = Ok ips → Forall canonical_ip ips.
Proof.
  revert acc. induction pieces as [|p pieces IH]; intros acc Hacc E; simpl in E; [by simplify_eq|].
  apply result_bind_ok in E as (ip & _ & E). case_match; [done|]. eapply IH; [|done].
  apply Forall_app. split; [done|]. constructor; [by exists ip|constructor].
Qed.

Lemma size_list_to_set (k : list string) : (size (list_to_set k : gset string) ≤ length k)%nat.
Proof.
  induction k as [|a k IH]; [done|]. rewrite list_to_set_cons, size_union_alt, size_singleton.
  assert (size (list_to_set k ∖ {[a]} : gset string) ≤ size (list_to_set k : gset string))%nat
    by by apply subseteq_size, subseteq_difference_l.
  simpl. lia.
Qed.

Lemma size_union_list l (ips : list string) :
  (size (l ∪ list_to_set ips) ≤ size l + length (filter (λ x, x ∉ l) ips))%nat.
Proof.
  rewrite size_union_alt. apply Nat.add_le_mono_l.
  trans (size (list_to_set (filter (λ x, x ∉ l) ips) : gset string)); [|apply size_list_to_set].
  apply subseteq_size. intros x.
  rewrite elem_of_difference, !elem_of_list_to_set, list_elem_of_filter. tauto.
Qed.

Lemma list_add_wf what arg l : list_wf l → list_wf (list_add what arg l).1.
Proof.
  intros [Hs Hc]. unfold list_add. destruct arg as [ip|]; [|done].
  destruct (parse_ip_values ip) as [ips|] eqn:E; [|done]. case_match; [done|]. reflect_bools. simpl.
  apply collect_ips_canonical in E as Hips; [|constructor]. rewrite list.Forall_forall in Hips. split.
  - pose proof (size_union_list l ips). unfold len, MAX_IP_LIST_ENTRIES, usize_max in *. lia.
  - intros x [Hx|Hx%elem_of_list_to_set]%elem_of_union; auto.
Qed.

Lemma list_wf_subseteq l l' : l' ⊆ l → list_wf l → list_wf l'.
Proof.
  intros Hsub [Hs Hc]. split; [|intros x Hx; apply Hc, Hsub, Hx]. pose proof (subseteq_size _ _ Hsub). lia.
Qed.

Lemma list_remove_wf arg l : list_wf l → list_wf (list_remove arg l).1.
Proof.
  intros Hl. unfold list_remove. destruct arg as [ip|]; [|done].
  case_bool_decide; [by eapply list_wf_subseteq; [apply empty_subseteq|]|].
  destruct (parse_ip_values ip) as [ips|]; [|done]. eapply list_wf_subseteq; [|done].
  by apply subseteq_difference_l.
Qed.

Lemma collect_lines_wf path n ls l l' :
  list_wf l → collect_lines path n ls l = Ok l' → list_wf l'.
Proof.
  revert n l. induction ls as [|x ls IH]; intros n l Hl E; simpl in E; [by simplify_eq|].
  case_match; [eauto|]. apply result_bind_ok in E as (ip & _ & E). case_match; [done|].
  reflect_bools. eapply IH; [|done]. destruct Hl as [Hs Hc].
  split; [lia|]. intros y [->%elem_of_singleton|Hy]%elem_of_union; [by exists ip|auto].
Qed.

Lemma list_wf_empty : list_wf ∅.
Proof. split; [rewrite size_empty; unfold MAX_IP_LIST_ENTRIES; lia|by intros x ?%elem_of_empty]. Qed.
End Lists.
#[export] Hint Resolve list_wf_empty list_add_wf list_remove_wf : srv.

(** *** Settings *)

Section Parsed.
Implicit Types v : string.

Lemma parse_downgrade_threshold_range v n :
  parse_downgrade_threshold v = Ok n → 1 ≤ n ≤ usize_max.
Proof.
  unfold parse_downgrade_threshold. intros (x & _ & E)%result_bind_ok. cbn zeta in E.
  case_match; [done|].
  pose proof (f64_to_usize_bounds (f64_round (f64_mul x (f64_of DOWNGRADE_THRESHOLD_SCALE)))).
  destruct (f64_to_usize _) as [|k|k]; simpl in E; simplify_eq; lia.
Qed.

Lemma parse_downgrade_start_range v n : parse_downgrade_start v = Ok n → 1000 ≤ n ≤ usize_max.
Proof.
  unfold parse_downgrade_start. intros (s & Hs & E)%result_bind_ok.
  assert (0 ≤ s ≤ usize_max) as Hrange.
  { apply (parse_unsigned_bounds usize_max v); [done|]. change (parse_usize v = Some s).
    by rewrite <-parse_usize_text_ok, Hs. }
  case_match; [done|]. apply ok_or_ok in E. unfold usize_checked_mul in E.
  case_match; simplify_eq. reflect_bools. lia.
Qed.

Lemma parse_bandwidth_range name v n : parse_bandwidth name v = Ok n → 0 ≤ n ≤ usize_max.
Proof.
  unfold parse_bandwidth. intros (x & _ & E)%result_bind_ok. cbn zeta in E.
  case_match; [done|]. injection E as <-. apply f64_to_usize_bounds.
Qed.

Lemma setting_range name parse current e n (R : Z → Prop) :
  R current → (∀ v m, parse v = Ok m → R m) → setting name parse current e = Ok n → R n.
Proof. intros Hc Hp. unfold setting. case_match; [apply Hp|]. by intros [= <-]. Qed.

Lemma check_params_wf e t t' :
  tuning_ranges t → check_params e t = Ok t' → tuning_ranges t' ∧ LIMIT_SPEED t' ≤ SINGLE_BANDWIDTH t'.
Proof.
  intros [Ht Hs Hl Hb Hn]. unfold check_params, bandwidth in *.
  intros (n1 & E1 & (n2 & E2 & (n3 & E3 & (n4 & E4 & (n5 & E5 & E)%result_bind_ok)%result_bind_ok)
    %result_bind_ok)%result_bind_ok)%result_bind_ok.
  apply (setting_range _ _ _ _ _ (λ n, 1 ≤ n ≤ usize_max)) in E1;
    [|done|apply parse_downgrade_threshold_range].
  apply (setting_range _ _ _ _ _ (λ n, 1000 ≤ n ≤ usize_max)) in E2;
    [|done|apply parse_downgrade_start_range].
  apply (setting_range _ _ _ _ _ (λ n, 0 ≤ n ≤ usize_max)) in E3;
    [|lia|apply parse_bandwidth_range].
  apply (setting_range _ _ _ _ _ (λ n, 0 ≤ n ≤ usize_max)) in E4;
    [|lia|apply parse_bandwidth_range].
  apply (setting_range _ _ _ _ _ (λ n, 0 ≤ n ≤ usize_max)) in E5;
    [|lia|apply parse_bandwidth_range].
  case_match; simplify_eq. reflect_bools. split; [by split|simpl; lia].
Qed.

Lemma initial_tuning_wf : tuning_ranges initial_tuning.
Proof. split; vm_compute; by split || by intros. Qed.
End Parsed.

(** *** Commands *)

Section Commands.
Context (show_f64 show_f64_2 : f64 → string).
Implicit Types (s : RelayState) (pc : ConsolePc) (arg : option string).
Abbreviation first_access := (first_access show_f64 show_f64_2).
Abbreviation console_next := (console_next show_f64 show_f64_2).
Abbreviation check_cmd := (check_cmd show_f64 show_f64_2).

Lemma tune_cases (Q : ConsolePc * RelayState → Prop) arg parse complaint store print s :
  (∀ out, Q (Answer out, s)) → (∀ v n, parse v = Ok n → Q (store n s)) →
  Q (tune arg parse complaint store print s).
Proof. intros Hp Hs. unfold tune. destruct arg as [v|]; [|done]. destruct (parse v) eqn:E; eauto. Qed.

(** A command, one by one: [Q] holds of its first access if it holds of that of
    each command. *)
Lemma first_access_cases (Q : ConsolePc * RelayState → Prop) cmd s :
  (∀ out, Q (Answer out, s)) →
  (∀ what arg, let x := list_add what arg (BLACKLIST s) in Q (Answer x.2, set_blacklist x.1 s)) →
  (∀ what arg, let x := list_add what arg (BLOCKLIST s) in Q (Answer x.2, set_blocklist x.1 s)) →
  (∀ arg, let x := list_remove arg (BLACKLIST s) in Q (Answer x.2, set_blacklist x.1 s)) →
  (∀ arg, let x := list_remove arg (BLOCKLIST s) in Q (Answer x.2, set_blocklist x.1 s)) →
  (∀ v n, parse_downgrade_threshold v = Ok n → Q (Answer "", with_tuning (set_threshold n) s)) →
  (∀ v n, parse_downgrade_start v = Ok n → Q (Answer "", with_tuning (set_start n) s)) →
  (∀ n, bandwidth n → Q (compare_limit n s) ∧ Q (store_total n s) ∧ Q (compare_single n s)) →
  Q (first_access cmd s).
Proof.
  intros Hprint Hba HBa Hbr HBr Hdt Ht Hbw.
  unfold first_access. destruct (split_char " "%char (trim cmd)) as [|c rest]; [apply Hprint|].
  set (arg := (c :: rest) !! 1%nat).
  repeat case_match; try apply Hprint; simplify_eq.
  - specialize (Hba "Blacklist" arg). by destruct (list_add _ _ _); simplify_eq.
  - specialize (Hbr arg). by destruct (list_remove _ _); simplify_eq.
  - specialize (HBa "Blocklist" arg). by destruct (list_add _ _ _); simplify_eq.
  - specialize (HBr arg). by destruct (list_remove _ _); simplify_eq.
  - by apply tune_cases.
  - by apply tune_cases.
  - apply tune_cases; [done|]. intros v n ?%parse_bandwidth_range. by apply Hbw.
  - apply tune_cases; [done|]. intros v n ?%parse_bandwidth_range. by apply Hbw.
  - apply tune_cases; [done|]. intros v n ?%parse_bandwidth_range. by apply Hbw.
Qed.

(** What a command carries from one access to the next. *)
Definition pc_ranges pc : Prop :=
  match pc with StoreLimit n | StoreSingle n | SetSpeed n => bandwidth n | Typed _ | Answer _ => True end.

Lemma console_next_ranges pc s :
  relay_ranges s → pc_ranges pc →
  relay_ranges (console_next pc s).2 ∧ pc_ranges (console_next pc s).1.
Proof.
  intros Hwf Hpc. pose proof Hwf as [[Ht Hs Hl Hb Hn] Hbl HBl Hlim].
  destruct pc as [cmd|n|n|n|res]; simpl in *; try (split; [|done]; split; simpl; eauto; by split).
  apply (first_access_cases (λ x, relay_ranges x.2 ∧ pc_ranges x.1)); simpl; intros;
    try (split; [|done]; split; simpl; auto with srv; by split).
  - split; [|done]. split; simpl; try done. split; simpl; try done. by eapply parse_downgrade_threshold_range.
  - split; [|done]. split; simpl; try done. split; simpl; try done. by eapply parse_downgrade_start_range.
  - unfold compare_limit, compare_single, store_total.
    split_and!; repeat case_match; simpl; try done; split; simpl; try done; by split.
Qed.

(** A command that runs alone: what it relies on between its accesses. *)
Definition still_ordered pc s : Prop :=
  LIMIT_SPEED (rc_tuning s) ≤ SINGLE_BANDWIDTH (rc_tuning s) ∧
  match pc with
  | SetSpeed n => n = TOTAL_BANDWIDTH (rc_tuning s)
  | StoreLimit n => n ≤ SINGLE_BANDWIDTH (rc_tuning s) ∧ rc_limiter s = f64_of (TOTAL_BANDWIDTH (rc_tuning s))
  | StoreSingle n => LIMIT_SPEED (rc_tuning s) ≤ n ∧ rc_limiter s = f64_of (TOTAL_BANDWIDTH (rc_tuning s))
  | Typed _ | Answer _ => rc_limiter s = f64_of (TOTAL_BANDWIDTH (rc_tuning s))
  end.

Lemma console_next_alone pc s :
  still_ordered pc s → still_ordered (console_next pc s).1 (console_next pc s).2.
Proof.
  intros [Ho Hrest]. destruct pc as [cmd|n|n|n|res]; simpl in *; try (split; simpl; naive_solver lia).
  apply (first_access_cases (λ x, still_ordered x.1 x.2)); simpl; intros; try by split.
  unfold compare_limit, compare_single, store_total.
  split_and!; repeat case_match; reflect_bools; split; simpl; try split; done || lia.
Qed.

(** Two accesses are enough for every command. *)
Lemma two_accesses cmd s :
  let x := console_next (Typed cmd) s in ∃ res, (console_next x.1 x.2).1 = Answer res.
Proof.
  cbn zeta. apply (first_access_cases (λ x, ∃ res, (console_next x.1 x.2).1 = Answer res));
    simpl; intros; try by eexists.
  unfold compare_limit, compare_single. split_and!; repeat case_match; by eexists.
Qed.

Lemma check_cmd_wf cmd s : relay_wf s → relay_wf (check_cmd cmd s).2.
Proof.
  intros [Hr Ho Hs]. assert (still_ordered (Typed cmd) s) as H1 by by split.
  apply console_next_alone, console_next_alone in H1.
  destruct (console_next_ranges (Typed cmd) s Hr I) as [Hr1 Hp1].
  destruct (console_next_ranges _ _ Hr1 Hp1) as [Hr2 _]. unfold check_cmd.
  pose proof (two_accesses cmd s) as [res Hres]. cbn zeta in Hres.
  destruct (console_next (Typed cmd) s) as [pc1 s1]. cbn [fst snd] in *.
  destruct (console_next pc1 s1) as [pc2 s2]. simpl in *. subst. by destruct H1.
Qed.

(** What a command that answers has done to the state. *)
Lemma check_cmd_answer cmd s : (check_cmd cmd s).1 ≠ "" → (check_cmd cmd s).2 = s.
Proof.
  unfold check_cmd. destruct s as [t bl Bl u lim]. simpl.
  apply (first_access_cases (λ x, (let '(pc, s) := x in let '(pc, s) := console_next pc s in (answer_of pc, s)).1 ≠ "" →
    (let '(pc, s) := x in let '(pc, s) := console_next pc s in (answer_of pc, s)).2 = _)); simpl; try done; intros; revert H.
  - unfold list_add. by repeat case_match.
  - unfold list_add. by repeat case_match.
  - unfold list_remove. by repeat case_match.
  - unfold list_remove. by repeat case_match.
  - intros _. unfold compare_limit, compare_single, store_total.
    split_and!; simpl; [destruct (_ <? _)|..|destruct (_ <? _)]; simpl; done.
Qed.
End Commands.

(** *** From start to any command *)

Section Runs.
Context `{L : !Platform} `{K : !KeyLibrary} (show_f64 show_f64_2 : f64 → string).

Definition run_commands (cmds : list string) (s : RelayState) : RelayState :=
  foldl (λ s c, (check_cmd show_f64 show_f64_2 c s).2) s cmds.

Lemma load_ip_list_wf path s l s' : run (load_ip_list path) s = (Ok l, s') → list_wf l.
Proof.
  unfold load_ip_list. rewrite run_P_bind. destruct (run (ask _) s) as [[m|e] s1]; [|done].
  assert (∀ s, run (contents ← read_bounded_regular_file path MAX_IP_LIST_BYTES "Relay IP list";
    contents ← of_result (ok_or (utf8_of contents) (display path +:+ " is not valid UTF-8"));
    of_result (collect_lines path 1 (lines contents) ∅)) s = (Ok l, s') → list_wf l) as Hread.
  { intros s2. rewrite run_P_bind. destruct (run _ s2) as [[b|e] s3]; [|done]. rewrite run_P_bind.
    destruct (ok_or _ _) as [text|]; [|done]. cbn [of_result run]. intros [= Hl _].
    by eapply collect_lines_wf; [apply list_wf_empty|]. }
  intros E. destruct m as [?|[]]; try by apply Hread in E.
  cbn in E. injection E as <- _. apply list_wf_empty.
Qed.

Definition started (x : RelayConfig * RelayState) : Prop :=
  relay_wf x.2 ∧ 1 ≤ rg_port x.1 ∧ rg_port x.1 + 2 ≤ 65535 ∧ 64 ≤ rg_max_connections x.1 ≤ 65536.

Lemma start_relay_started fuel port key st :
  succeeds (start_relay fuel port key) (λ x _, started x) st.
Proof.
  apply succeeds_bind, succeeds_on_sys. intros sk s1 _.
  apply succeeds_bind, wp_gets. apply succeeds_bind, succeeds_lift. intros con _.
  apply succeeds_bind, succeeds_on_sys. intros bl s2 Hbl%load_ip_list_wf.
  apply succeeds_bind, succeeds_on_sys. intros Bl s3 HBl%load_ip_list_wf.
  apply succeeds_bind, succeeds_lift. intros p _. case_match; [done|].
  apply succeeds_bind, succeeds_lift. intros max Hmax.
  apply succeeds_bind, succeeds_lift. intros t Ht.
  apply check_params_wf in Ht; [|apply initial_tuning_wf].
  reflect_bools. unfold get_bounded_usize_arg in Hmax.
  apply result_bind_ok in Hmax as (v & _ & Hmax). case_match; [done|]. injection Hmax as <-.
  reflect_bools. apply wp_ret. destruct Ht as [Ht Ho]. pose proof (tw_total _ Ht) as Htot.
  split_and!; simpl; [split; simpl; [split; simpl; [done..|]; eexists; split; [exact Htot|done]|done..]|lia..].
Qed.

Lemma console_steps_ranges pcs s pcs' s' :
  rtc (console_step show_f64 show_f64_2) (pcs, s) (pcs', s') →
  relay_ranges s → Forall pc_ranges pcs → relay_ranges s' ∧ Forall pc_ranges pcs'.
Proof.
  intros Hsteps. remember (pcs, s) as x eqn:Hx. remember (pcs', s') as y eqn:Hy.
  revert pcs s Hx. induction Hsteps as [x|x [pcs1 s1] y Hstep _ IH]; intros pcs s -> Hs Hpcs.
  { by injection Hy as -> ->. }
  inversion Hstep as [ts1 pc ts2 ?]; subst. apply Forall_app in Hpcs as [H1 H2].
  apply Forall_cons_1 in H2 as [Hpc H2]. destruct (console_next_ranges show_f64 show_f64_2 pc s Hs Hpc) as [Hs1 Hpc1].
  apply (IH eq_refl _ _ eq_refl Hs1). apply Forall_app. by split; [|constructor].
Qed.

(** C25: From a successful start on, between any two accesses of any number of
    console commands that overlap: every setting fits its machine type (the
    downgrade threshold is positive and the check starts after a second at least),
    each address list holds at most 65536 canonical addresses, and the shared
    limiter runs at a bandwidth.  When no two commands overlap, the speed limit
    also never exceeds the single bandwidth, and the shared limiter runs at the
    total bandwidth; overlapping ones can break the first
    ([concurrent_limits_can_cross]).  The port leaves room for the WebSocket
    listener, and the connection limit is between 64 and 65536. *)
Theorem relay_state_stays_wellformed fuel port key st config s st' cmds :
  start_relay fuel port key st = (Ok (config, s), st') →
  (∀ pcs s', rtc (console_step show_f64 show_f64_2) (Typed <$> cmds, s) (pcs, s') → relay_ranges s') ∧
  relay_wf (run_commands cmds s) ∧
  1 ≤ rg_port config ∧ rg_port config + 2 ≤ 65535 ∧ 64 ≤ rg_max_connections config ≤ 65536.
Proof.
  intros E. assert (started (config, s)) as [Hwf Hcfg].
  { pose proof (start_relay_started fuel port key st) as H. unfold succeeds, wp in H. by rewrite E in H. }
  split; [|split; [|done]].
  - intros pcs s' Hsteps. eapply console_steps_ranges; [exact Hsteps|apply Hwf|].
    by apply Forall_fmap, Forall_true.
  - unfold run_commands. clear E Hcfg. revert s Hwf.
    induction cmds as [|c cmds IH]; intros s Hwf; simpl; [done|]. apply IH, check_cmd_wf, Hwf.
Qed.
End Runs.

Definition sample_relay : Process :=
  mkProcess (sample_file (path_of BLACKLIST_FILE) (codes ("198.51.100.7 # abuse" +:+ newline)))
    {["CAMELLIA_REMOTE_LIMIT_SPEED" := "2.5"]}.
Definition sample_relay_key : string := hex_text (numbered 3).
Definition no_text (x : f64) : string := "".

Lemma relay_state_stays_wellformed_witness :
  match start_relay (H := sample_platform) (H0 := sample_keys) 1 "21117" sample_relay_key sample_relay with
  | (Ok (config, s), _) =>
      let s' := run_commands no_text no_text ["ls 0.5"; "ba ::1|10.0.0.1"; "tb 64"] s in
      relay_wf s' ∧ rg_port config = 21117 ∧ LIMIT_SPEED (rc_tuning s') = 524288 ∧
      size (BLACKLIST s') = 3%nat
  | _ => False
  end.
Proof.
  pose proof (relay_state_stays_wellformed (L := sample_platform) (K := sample_keys) no_text no_text
    1 "21117" sample_relay_key sample_relay) as Hwf.
  destruct (start_relay (H := sample_platform) (H0 := sample_keys) 1 "21117" sample_relay_key sample_relay)
    as [[[config s]|e] st'] eqn:E.
  - specialize (Hwf _ _ _ ["ls 0.5"; "ba ::1|10.0.0.1"; "tb 64"] eq_refl) as (_ & Hwf & _).
    split; [exact Hwf|]. clear Hwf. vm_compute in E. injection E as <- <- _. by vm_compute.
  - vm_compute in E. discriminate E.
Defined.

(** A console command that answers anything (a refusal, a report, the help
    text) has changed nothing; so a command never fails half-way. *)
Theorem console_answers_change_nothing show_f64 show_f64_2 cmd s :
  (check_cmd show_f64 show_f64_2 cmd s).1 ≠ "" → (check_cmd show_f64 show_f64_2 cmd s).2 = s.
Proof. apply check_cmd_answer. Qed.

Definition fresh_relay : RelayState := mkRelayState initial_tuning ∅ ∅ ∅ (f64_of 0).
Lemma console_answers_change_nothing_witness :
  (check_cmd no_text no_text "ls 129" fresh_relay).1 = line "LIMIT_SPEED must not exceed SINGLE_BANDWIDTH" ∧
  (check_cmd no_text no_text "ls 129" fresh_relay).2 = fresh_relay.
Proof.
  split; [by vm_compute|]. apply (console_answers_change_nothing no_text no_text). by vm_compute.
Defined.

(** Two console connections can break the bound that one alone keeps: with the
    initial settings, [limit-speed 100] and [single-bandwidth 50] at the same time
    can both be accepted, which leaves the speed limit at twice the single
    bandwidth. *)
Theorem concurrent_limits_can_cross :
  ∃ s, rtc (console_step no_text no_text) ([Typed "ls 100"; Typed "sb 50"], fresh_relay) ([Answer ""; Answer ""], s) ∧
    LIMIT_SPEED (rc_tuning fresh_relay) ≤ SINGLE_BANDWIDTH (rc_tuning fresh_relay) ∧
    LIMIT_SPEED (rc_tuning s) = 2 * SINGLE_BANDWIDTH (rc_tuning s).
Proof.
  set (a := 100 * 1048576). set (b := 50 * 1048576).
  assert (console_next no_text no_text (Typed "ls 100") fresh_relay = (StoreLimit a, fresh_relay)) as H1 by by vm_compute.
  assert (console_next no_text no_text (Typed "sb 50") fresh_relay = (StoreSingle b, fresh_relay)) as H2 by by vm_compute.
  pose proof (console_one no_text no_text [] (Typed "ls 100") [Typed "sb 50"] fresh_relay) as S1. rewrite H1 in S1.
  pose proof (console_one no_text no_text [StoreLimit a] (Typed "sb 50") [] fresh_relay) as S2. rewrite H2 in S2.
  eexists. split_and!.
  - eapply rtc_l; [exact S1|]. eapply rtc_l; [exact S2|].
    eapply rtc_l; [exact (console_one no_text no_text [StoreLimit a] (StoreSingle b) [] fresh_relay)|].
    eapply rtc_once. exact (console_one no_text no_text [] (StoreLimit a) [Answer ""] _).
  - by vm_compute.
  - by vm_compute.
Qed.

(** A bandwidth that the error text calls invalid: not zero, but it rounds to it. *)
Example tiny_bandwidth_is_zero : parse_bandwidth "LIMIT_SPEED" "0.0000001" = Ok 0.
Proof. by vm_compute. Qed.
