(* ===== verification/RelayPairing.v ===== *)
(** How the relay pairs connections ([src/relay_server.rs]: [handle_connection],
    [make_pair], [make_pair_], [remove_pending_if_generation]).

    Every accepted connection runs as a task.  [act] is one step of one task, up
    to its next await: the environment chooses the order, what arrives, and when
    a timer fires.  [run_actions] runs a sequence of such steps, so every
    interleaving is a list of actions.  The bytes a pair exchanges are followed
    in [RelayPump]; here a relay is a task that reports its usage and ends. *)

From Stdlib Require Import Ascii String.
From S2P Require Import Prelude.
From S2P Require Import Text.
From S2P Require Import Net.
From S2P Require Import Messages.
From S2P Require Import RelayStream.

(** ** Data *)

Record PendingRelay := mkPending { pe_stream : Stream; source_ip : IpAddr; generation : Z }.

(** The part of [RelayContext] that does not change. *)
Record RelayContext := mkRelayContext {
  rx_key : string; rx_trust_proxy_headers : bool; rx_runtime_console : bool
}.

Definition MAX_PENDING_RELAYS : Z := 4096.
Definition MAX_PENDING_RELAYS_PER_IP : Z := 32.

(** Where a task of a connection is. *)
Inductive Task :=
  (** the runtime console *)
  | Console
  (** the WebSocket upgrade *)
  | Upgrading (addr : SocketAddr)
  (** [make_pair_] waits for the first frame *)
  | Receiving (stream : Stream) (addr : SocketAddr)
  (** its stream waits in [PEERS]; the task sleeps *)
  | Sleeping (uuid : string) (g : Z)
  (** taken from [PEERS]; the usage entry comes next *)
  | Paired (stream pending : Stream) (addr : SocketAddr) (uuid : string)
  | Relaying (stream pending : Stream) (id uuid : string)
  (** [relay] has returned *)
  | Closing (stream pending : Stream) (id uuid : string).

(** [tasks] is indexed by the number of the connection the task was spawned for;
    [connection_slots] is the number of permits left. *)
Record Relay := mkRelay {
  PEERS : gmap string PendingRelay;
  NEXT_PENDING_GENERATION : Z;
  USAGE : gmap string Usage;
  BLOCKLIST : gset string;
  connection_slots : Z;
  tasks : gmap N Task;
  next_conn : N
}.

Definition set_peers (m : gmap string PendingRelay) (s : Relay) : Relay :=
  mkRelay m (NEXT_PENDING_GENERATION s) (USAGE s) (BLOCKLIST s) (connection_slots s) (tasks s) (next_conn s).
Definition set_next (g : Z) (s : Relay) : Relay :=
  mkRelay (PEERS s) g (USAGE s) (BLOCKLIST s) (connection_slots s) (tasks s) (next_conn s).
Definition set_usage (m : gmap string Usage) (s : Relay) : Relay :=
  mkRelay (PEERS s) (NEXT_PENDING_GENERATION s) m (BLOCKLIST s) (connection_slots s) (tasks s) (next_conn s).
Definition set_blocked (l : gset string) (s : Relay) : Relay :=
  mkRelay (PEERS s) (NEXT_PENDING_GENERATION s) (USAGE s) l (connection_slots s) (tasks s) (next_conn s).
Definition set_tasks (m : gmap N Task) (s : Relay) : Relay :=
  mkRelay (PEERS s) (NEXT_PENDING_GENERATION s) (USAGE s) (BLOCKLIST s) (connection_slots s) m (next_conn s).
Definition set_slots (n : Z) (s : Relay) : Relay :=
  mkRelay (PEERS s) (NEXT_PENDING_GENERATION s) (USAGE s) (BLOCKLIST s) n (tasks s) (next_conn s).
Definition set_conn (n : N) (s : Relay) : Relay :=
  mkRelay (PEERS s) (NEXT_PENDING_GENERATION s) (USAGE s) (BLOCKLIST s) (connection_slots s) (tasks s) n.

(** The server as it starts, with its connection limit. *)
Definition relay_start (max : Z) : Relay := mkRelay ∅ 1 ∅ ∅ max ∅ 0.

(** ** Operations *)

Section Pairing.
(** The protocol library: [RendezvousMessage::parse_from_bytes], [try_into_v4]. *)
Context (parse_from_bytes : bytes → option RendezvousMessage).
Context (try_into_v4 : SocketAddr → SocketAddr).
Context (context : RelayContext).

(** A task goes on, or ends and gives its permit back. *)
Definition proceed (c : N) (t : Task) (s : Relay) : Relay := set_tasks (<[c := t]> (tasks s)) s.
Definition finish (c : N) (s : Relay) : Relay :=
  set_slots (connection_slots s + 1) (set_tasks (delete c (tasks s)) s).

(** Every connection gets a number; the next one's is higher. *)
Definition handle_connection (addr : SocketAddr) (ws : bool) (s : Relay) : Relay :=
  let c := next_conn s in
  let s := set_conn (N.succ c) s in
  if connection_slots s <=? 0 then s else
  let ip := sa_ip (try_into_v4 addr) in
  let spawn (t : Task) := proceed c t (set_slots (connection_slots s - 1) s) in
  if rx_runtime_console context && negb ws && is_loopback ip then spawn Console else
  if decide (show_ip ip ∈ BLOCKLIST s) then s else
  spawn (if ws then Upgrading addr else Receiving (mkStream c false false) addr).

(** The answer of [make_pair]'s upgrade: the request's headers, or an error
    (the timeout included). *)
Definition upgrade (c : N) (addr : SocketAddr) (headers : option Headers) (s : Relay) : Relay :=
  match headers with
  | Some headers =>
      proceed c (Receiving (mkStream c true false)
                   (client_addr (rx_trust_proxy_headers context) headers addr)) s
  | None => finish c s
  end.

(** [timeout(30_000, stream.recv())]: [None] when the time is over. *)
Definition first_message (r : option (option Item)) : option RequestRelay :=
  next ← r;
  match recv next with
  | Some (Ok bytes) =>
      match parse_from_bytes bytes with
      | Some (Some (MRequestRelay rf)) => Some rf
      | _ => None
      end
  | _ => None
  end.

Definition authorised (rf : RequestRelay) : bool :=
  str_empty (rx_key context) || bool_decide (rf_licence_key rf = rx_key context).
Definition wellformed (rf : RequestRelay) : bool :=
  valid_relay_uuid (rf_uuid rf) && (slen (rf_licence_key rf) <=? 128).

Definition pending_for_ip (ip : IpAddr) (peers : gmap string PendingRelay) : Z :=
  mlen (filter (λ x, source_ip x.2 = ip) peers).

(** The block under the lock of [PEERS], and what the task does next. *)
Definition meet (c : N) (stream : Stream) (addr : SocketAddr) (uuid : string) (s : Relay) : Relay :=
  match PEERS s !! uuid with
  | Some pending => proceed c (Paired stream (pe_stream pending) addr uuid)
                      (set_peers (delete uuid (PEERS s)) s)
  | None =>
      if (MAX_PENDING_RELAYS <=? mlen (PEERS s))
         || (MAX_PENDING_RELAYS_PER_IP <=? pending_for_ip (sa_ip addr) (PEERS s))
      then finish c s else
      let g := NEXT_PENDING_GENERATION s in
      proceed c (Sleeping uuid g)
        (set_peers (<[uuid := mkPending stream (sa_ip addr) g]> (PEERS s))
           (set_next ((g + 1) mod 2 ^ 64) s))
  end.

Definition make_pair_ (c : N) (stream : Stream) (addr : SocketAddr) (r : option (option Item))
    (s : Relay) : Relay :=
  match first_message r with
  | Some rf =>
      if negb (authorised rf) then finish c s else
      if wellformed rf then meet c stream addr (rf_uuid rf) s else finish c s
  | None => finish c s
  end.

(** What the test returns is of no use to the caller. *)
Definition remove_pending_if_generation (uuid : string) (g : Z) (s : Relay) : bool * Relay :=
  match PEERS s !! uuid with
  | Some pending =>
      if generation pending =? g then (true, set_peers (delete uuid (PEERS s)) s) else (false, s)
  | None => (false, s)
  end.

Definition usage_id (addr : SocketAddr) : string := show_ip (sa_ip addr) +:+ ":" +:+ show (sa_port addr).

(** The entry of the new relay, and both streams raw if neither is a WebSocket. *)
Definition begin_relay (c : N) (stream pending : Stream) (addr : SocketAddr) (uuid : string) (s : Relay)
    : Relay :=
  let id := usage_id addr in
  let s := set_usage (<[id := (0, 0, 0, 0)]> (USAGE s)) s in
  if negb (is_ws stream) && negb (is_ws pending)
  then proceed c (Relaying (set_raw stream) (set_raw pending) id uuid) s
  else proceed c (Relaying stream pending id uuid) s.

(** ** Steps *)

Inductive Action :=
  | Accept (addr : SocketAddr) (ws : bool)
  | Upgraded (c : N) (headers : option Headers)
  | FirstFrame (c : N) (r : option (option Item))
  | SleepOver (c : N)
  | UsageInserted (c : N)
  | Report (c : N) (u : Usage)
  | RelayReturned (c : N)
  | UsageRemoved (c : N)
  | ConsoleClosed (c : N)
  | Blocked (l : gset string).

Definition act (a : Action) (s : Relay) : option Relay :=
  match a with
  | Accept addr ws => Some (handle_connection addr ws s)
  | Upgraded c headers =>
      match tasks s !! c with Some (Upgrading addr) => Some (upgrade c addr headers s) | _ => None end
  | FirstFrame c r =>
      match tasks s !! c with
      | Some (Receiving stream addr) => Some (make_pair_ c stream addr r s)
      | _ => None
      end
  | SleepOver c =>
      match tasks s !! c with
      | Some (Sleeping uuid g) => Some (finish c (remove_pending_if_generation uuid g s).2)
      | _ => None
      end
  | UsageInserted c =>
      match tasks s !! c with
      | Some (Paired stream pending addr uuid) => Some (begin_relay c stream pending addr uuid s)
      | _ => None
      end
  | Report c u =>
      match tasks s !! c with
      | Some (Relaying _ _ id _) => Some (set_usage (<[id := u]> (USAGE s)) s)
      | _ => None
      end
  | RelayReturned c =>
      match tasks s !! c with
      | Some (Relaying stream pending id uuid) => Some (proceed c (Closing stream pending id uuid) s)
      | _ => None
      end
  | UsageRemoved c =>
      match tasks s !! c with
      | Some (Closing _ _ id _) => Some (finish c (set_usage (delete id (USAGE s)) s))
      | _ => None
      end
  | ConsoleClosed c =>
      match tasks s !! c with Some Console => Some (finish c s) | _ => None end
  | Blocked l => Some (set_blocked l s)
  end.

Fixpoint run_actions (acts : list Action) (s : Relay) : option Relay :=
  match acts with
  | [] => Some s
  | a :: acts => s ← act a s; run_actions acts s
  end.
End Pairing.

(** ** Invariant *)

(** The connection, the one it was paired with and their common UUID. *)
Definition relays (t : Task) : option (Stream * Stream * string) :=
  match t with
  | Paired stream pending _ uuid | Relaying stream pending _ uuid | Closing stream pending _ uuid =>
      Some (stream, pending, uuid)
  | _ => None
  end.

Section PairingLemmas.
Context (parse_from_bytes : bytes → option RendezvousMessage).
Context (try_into_v4 : SocketAddr → SocketAddr).
Context (context : RelayContext).
Implicit Types (s : Relay) (acts : list Action) (u : string) (g : Z) (t : Task).

(** The first frame of connection [c] was an acceptable request for [u]. *)
Definition requested acts (c : N) u : Prop :=
  ∃ r rf, FirstFrame c r ∈ acts ∧ first_message parse_from_bytes r = Some rf ∧
    authorised context rf = true ∧ wellformed rf = true ∧ rf_uuid rf = u.

(** Nothing but a sleeping task is left of the connection, and it does not wait. *)
Definition given_away s (d : N) : Prop :=
  (∀ t, tasks s !! d = Some t → ∃ u g, t = Sleeping u g) ∧
  (∀ u p, PEERS s !! u = Some p → st_conn (pe_stream p) ≠ d).

Record pairing_inv (max : Z) acts s : Prop := {
  pi_slots : connection_slots s + mlen (tasks s) = max;
  pi_free : 0 ≤ connection_slots s;
  pi_old c t : tasks s !! c = Some t → (c < next_conn s)%N;
  pi_receiving c st a : tasks s !! c = Some (Receiving st a) → st_conn st = c;
  pi_waiting u p : PEERS s !! u = Some p →
    tasks s !! st_conn (pe_stream p) = Some (Sleeping u (generation p));
  pi_sleeping c u g : tasks s !! c = Some (Sleeping u g) →
    g < NEXT_PENDING_GENERATION s ∧ requested acts c u;
  pi_generations c c' u u' g :
    tasks s !! c = Some (Sleeping u g) → tasks s !! c' = Some (Sleeping u' g) → c = c';
  pi_pairs c t st p u : tasks s !! c = Some t → relays t = Some (st, p, u) →
    st_conn st = c ∧ st_conn p ≠ c ∧ (st_conn p < next_conn s)%N ∧
    requested acts c u ∧ requested acts (st_conn p) u ∧ given_away s (st_conn p);
  pi_once c c' t t' st p u st' p' u' :
    tasks s !! c = Some t → relays t = Some (st, p, u) →
    tasks s !! c' = Some t' → relays t' = Some (st', p', u') →
    st_conn p = st_conn p' → c = c';
  pi_next : 1 ≤ NEXT_PENDING_GENERATION s ≤ 1 + len acts
}.

Lemma requested_mono acts acts' c u : acts ⊆ acts' → requested acts c u → requested acts' c u.
Proof. intros Hsub (r & rf & Hin & Hr). exists r, rf. split; [by apply Hsub|done]. Qed.

Lemma pairing_inv_mono max acts acts' s :
  acts ⊆ acts' → len acts ≤ len acts' → pairing_inv max acts s → pairing_inv max acts' s.
Proof.
  intros Hsub Hlen []. split; try done.
  - intros c u g Hc. edestruct pi_sleeping0; [done|]. split; [done|]. by eapply requested_mono.
  - intros c t st p u Hc Ht. edestruct pi_pairs0 as (?&?&?&?&?&?); [done..|].
    split_and!; try done; by eapply requested_mono.
  - lia.
Qed.

Lemma mlen_delete_task c t (m : gmap N Task) : m !! c = Some t → mlen (delete c m) = mlen m - 1.
Proof. intros Hc. unfold mlen. rewrite map_size_delete_Some by eauto.
  pose proof (map_size_ne_0_lookup_2 m c ltac:(eauto)). lia. Qed.

(** A task that does not sleep, or whose stream no longer waits, may end. *)
Lemma inv_finish max acts s c t :
  tasks s !! c = Some t → (∀ u p, PEERS s !! u = Some p → st_conn (pe_stream p) ≠ c) →
  pairing_inv max acts s → pairing_inv max acts (finish c s).
Proof.
  intros Hc Hno []. split; simpl; try done.
  - rewrite (mlen_delete_task c t) by done. lia.
  - lia.
  - intros c' t' [_ ?]%lookup_delete_Some. eauto.
  - intros c' st a [_ ?]%lookup_delete_Some. eauto.
  - intros u p Hp. rewrite lookup_delete_ne by (by apply not_eq_sym, (Hno u)). eauto.
  - intros c' u g [_ ?]%lookup_delete_Some. eauto.
  - intros c1 c2 u u' g [_ ?]%lookup_delete_Some [_ ?]%lookup_delete_Some. eauto.
  - intros c' t' st p u [_ Hc']%lookup_delete_Some Ht. edestruct pi_pairs0 as (?&?&?&?&?&[Hg1 Hg2]); [done..|].
    split_and!; try done. split; [|done]. simpl. intros t'' [_ ?]%lookup_delete_Some. eauto.
  - intros c1 c2 t1 t2 st p u st' p' u' [_ ?]%lookup_delete_Some ? [_ ?]%lookup_delete_Some. eauto.
Qed.

(** A task that is not about to sleep may go on. *)
Definition sleeps (t : Task) : Prop := ∃ u g, t = Sleeping u g.
Lemma inv_proceed max acts s c t t' :
  tasks s !! c = Some t → ¬ sleeps t → ¬ sleeps t' →
  (∀ st a, t' = Receiving st a → st_conn st = c) →
  (∀ st p u, relays t' = Some (st, p, u) → ∃ st0 p0, relays t = Some (st0, p0, u) ∧
     st_conn st0 = st_conn st ∧ st_conn p0 = st_conn p) →
  pairing_inv max acts s → pairing_inv max acts (proceed c t' s).
Proof.
  intros Hc Hs Hs' Hrecv Hrel []. split; simpl; try done.
  - rewrite mlen_insert_old by eauto. done.
  - intros c' t1 [[<- <-]|[_ ?]]%lookup_insert_Some; eauto.
  - intros c' st a [[<- Heq]|[_ ?]]%lookup_insert_Some; eauto.
  - intros u p Hp%pi_waiting0. rewrite lookup_insert_ne; [done|]. intros ->.
    rewrite Hc in Hp. injection Hp as ->. destruct Hs. by eexists _, _.
  - intros c' u g [[<- Heq]|[_ ?]]%lookup_insert_Some; [|eauto]. destruct Hs'. by eexists _, _.
  - intros c1 c2 u u' g [[<- Heq]|[_ ?]]%lookup_insert_Some; [destruct Hs'; by eexists _, _|].
    intros [[<- Heq]|[_ ?]]%lookup_insert_Some; [destruct Hs'; by eexists _, _|eauto].
  - intros c' t1 st p u Hc' Ht1.
    assert (∃ t0 st0 p0, tasks s !! c' = Some t0 ∧ relays t0 = Some (st0, p0, u) ∧
      st_conn st0 = st_conn st ∧ st_conn p0 = st_conn p) as (t0 & st0 & p0 & H0 & Hr0 & Est & Ep).
    { apply lookup_insert_Some in Hc' as [[<- <-]|[_ ?]]; [|by eexists _, _, _].
      apply Hrel in Ht1 as (? & ? & ? & ? & ?). by eexists _, _, _. }
    rewrite <-Est, <-Ep. destruct (pi_pairs0 _ _ _ _ _ H0 Hr0) as (?&?&?&?&?&[Hg1 Hg2]). split_and!; try done.
    split; [|done]. simpl. intros t2 [[E' <-]|[_ ?]]%lookup_insert_Some; [|eauto].
    rewrite <-E' in Hg1.
    destruct (Hg1 t Hc) as (?&?&->). destruct Hs. by eexists _, _.
  - intros c1 c2 t1 t2 st p u st' p' u' H1 R1 H2 R2 E.
    assert (∀ c' t1 st p u, <[c:=t']> (tasks s) !! c' = Some t1 → relays t1 = Some (st, p, u) →
      ∃ t0 st0 p0, tasks s !! c' = Some t0 ∧ relays t0 = Some (st0, p0, u) ∧ st_conn p0 = st_conn p) as Hback.
    { intros c' t3 st3 p3 u3 [[<- <-]|[_ ?]]%lookup_insert_Some Ht3; [|by eexists _, _, _].
      apply Hrel in Ht3 as (? & ? & ? & ? & ?). by eexists _, _, _. }
    destruct (Hback _ _ _ _ _ H1 R1) as (?&?&?&?&?&?), (Hback _ _ _ _ _ H2 R2) as (?&?&?&?&?&?).
    eapply pi_once0; [done..|congruence].
Qed.

(** A new task, for the next connection. *)
Lemma inv_spawn max acts s t :
  0 < connection_slots s → ¬ sleeps t → relays t = None →
  (∀ st a, t = Receiving st a → st_conn st = next_conn s) →
  pairing_inv max acts s →
  pairing_inv max acts
    (proceed (next_conn s) t (set_slots (connection_slots s - 1) (set_conn (N.succ (next_conn s)) s))).
Proof.
  intros Hfree Hs Hr Hrecv []. set (c := next_conn s) in *.
  assert (tasks s !! c = None) as Hnew.
  { apply eq_None_not_Some. intros [t0 Ht0%pi_old0]. lia. }
  split; simpl; try done.
  - rewrite mlen_insert_new by done. lia.
  - lia.
  - intros c' t1 [[<- <-]|[_ Hc'%pi_old0]]%lookup_insert_Some; lia.
  - intros c' st a [[<- Heq]|[_ ?]]%lookup_insert_Some; eauto.
  - intros u p Hp%pi_waiting0. rewrite lookup_insert_ne; [done|]. congruence.
  - intros c' u g [[<- Heq]|[_ ?]]%lookup_insert_Some; [|eauto]. destruct Hs. by eexists _, _.
  - intros c1 c2 u u' g [[<- Heq]|[_ ?]]%lookup_insert_Some; [destruct Hs; by eexists _, _|].
    intros [[<- Heq]|[_ ?]]%lookup_insert_Some; [destruct Hs; by eexists _, _|eauto].
  - intros c' t1 st p u [[<- <-]|[_ Hc']]%lookup_insert_Some Ht1; [congruence|].
    destruct (pi_pairs0 _ _ _ _ _ Hc' Ht1) as (?&?&?&?&?&[Hg1 Hg2]). split_and!; try done; [lia|].
    split; [|done]. simpl. intros t2 [[E' <-]|[_ ?]]%lookup_insert_Some; [|eauto]. lia.
  - intros c1 c2 t1 t2 st p u st' p' u' [[_ <-]|[_ ?]]%lookup_insert_Some ?; [congruence|].
    intros [[_ <-]|[_ ?]]%lookup_insert_Some ?; [congruence|eauto].
Qed.

(** A stream starts to wait. *)
Lemma inv_wait max acts s c st a u ip :
  let g := NEXT_PENDING_GENERATION s in
  tasks s !! c = Some (Receiving st a) → PEERS s !! u = None → requested acts c u → g ≤ len acts →
  len acts < 2 ^ 64 - 1 → pairing_inv max acts s →
  pairing_inv max acts
    (proceed c (Sleeping u g) (set_peers (<[u := mkPending st ip g]> (PEERS s)) (set_next ((g + 1) mod 2 ^ 64) s))).
Proof.
  intros g Hc Hu Hreq Hg Hmax []. pose proof (pi_receiving0 _ _ _ Hc) as Hst.
  assert ((g + 1) mod 2 ^ 64 = g + 1) as -> by (apply Z.mod_small; lia).
  split; simpl; try done.
  - rewrite mlen_insert_old by eauto. done.
  - intros c' t1 [[<- <-]|[_ ?]]%lookup_insert_Some; eauto.
  - intros c' st' a' [[<- Heq]|[_ ?]]%lookup_insert_Some; [done|eauto].
  - intros u' p [[<- <-]|[Hne Hp%pi_waiting0]]%lookup_insert_Some; simpl.
    + by rewrite Hst, lookup_insert_eq.
    + rewrite lookup_insert_ne; [done|]. intros ->. congruence.
  - intros c' u' g' [[<- [= <- <-]]|[_ Hc']]%lookup_insert_Some; [split; [lia|done]|].
    apply pi_sleeping0 in Hc' as [? ?]. split; [lia|done].
  - intros c1 c2 u1 u2 g' [[<- [= <- <-]]|[_ H1]]%lookup_insert_Some [[<- Heq]|[_ H2]]%lookup_insert_Some;
      try done.
    + apply pi_sleeping0 in H2 as [? _]. lia.
    + injection Heq as <- <-. apply pi_sleeping0 in H1 as [? _]. lia.
    + eauto.
  - intros c' t1 st1 p u1 [[<- <-]|[_ Hc']]%lookup_insert_Some Ht1; [done|].
    destruct (pi_pairs0 _ _ _ _ _ Hc' Ht1) as (?&?&?&?&?&[Hg1 Hg2]). split_and!; try done.
    split; simpl.
    + intros t2 [[_ <-]|[_ ?]]%lookup_insert_Some; [by eexists _, _|eauto].
    + intros u2 q [[_ <-]|[_ ?]]%lookup_insert_Some; [|eauto]. simpl. intros Heq.
      destruct (Hg1 (Receiving st a)) as (?&?&?); [by rewrite <-Heq, Hst|done].
  - intros c1 c2 t1 t2 st1 p1 u1 st' p' u' [[_ <-]|[_ ?]]%lookup_insert_Some ?; [done|].
    intros [[_ <-]|[_ ?]]%lookup_insert_Some ?; [done|eauto].
  - lia.
Qed.

(** A stream meets the one that waits for it. *)
Lemma inv_pair max acts s c st a u p :
  tasks s !! c = Some (Receiving st a) → PEERS s !! u = Some p → requested acts c u →
  pairing_inv max acts s →
  pairing_inv max acts
    (proceed c (Paired st (pe_stream p) a u) (set_peers (delete u (PEERS s)) s)).
Proof.
  intros Hc Hu Hreq []. pose proof (pi_receiving0 _ _ _ Hc) as Hst.
  pose proof (pi_waiting0 _ _ Hu) as Hslp. destruct (pi_sleeping0 _ _ _ Hslp) as [_ Hreq'].
  assert (st_conn (pe_stream p) ≠ c) as Hne by congruence.
  assert (∀ u' q, PEERS s !! u' = Some q → st_conn (pe_stream q) = st_conn (pe_stream p) → u' = u) as Huniq.
  { intros u' q Hq%pi_waiting0 E. rewrite E in Hq. congruence. }
  split; simpl; try done.
  - rewrite mlen_insert_old by eauto. done.
  - intros c' t1 [[<- <-]|[_ ?]]%lookup_insert_Some; eauto.
  - intros c' st' a' [[<- Heq]|[_ ?]]%lookup_insert_Some; [done|eauto].
  - intros u' q [_ Hq%pi_waiting0]%lookup_delete_Some. rewrite lookup_insert_ne; [done|]. congruence.
  - intros c' u' g' [[<- Heq]|[_ Hc']]%lookup_insert_Some; [done|eauto].
  - intros c1 c2 u1 u2 g' [[_ Heq]|[_ H1]]%lookup_insert_Some; [done|].
    intros [[_ Heq]|[_ H2]]%lookup_insert_Some; [done|eauto].
  - intros c' t1 st1 p1 u1 [[<- <-]|[_ Hc']]%lookup_insert_Some Ht1.
    + injection Ht1 as <- <- <-. split_and!; try done; [by eapply pi_old0|]. split; simpl.
      * intros t2 [[E' <-]|[_ Ht2]]%lookup_insert_Some; [congruence|].
        rewrite Hslp in Ht2. injection Ht2 as <-. by eexists _, _.
      * intros u' q [Hu' Hq]%lookup_delete_Some E'. by apply Hu', eq_sym, (Huniq u' q).
    + destruct (pi_pairs0 _ _ _ _ _ Hc' Ht1) as (?&?&?&?&?&[Hg1 Hg2]). split_and!; try done.
      split; simpl.
      * intros t2 [[E' <-]|[_ ?]]%lookup_insert_Some; [|eauto]. rewrite <-E' in Hg1.
        destruct (Hg1 _ Hc) as (?&?&?). done.
      * intros u' q [_ Hq]%lookup_delete_Some. eauto.
  - intros c1 c2 t1 t2 st1 p1 u1 st2 p2 u2 [[<- <-]|[_ H1]]%lookup_insert_Some R1
      [[<- <-]|[_ H2]]%lookup_insert_Some R2 E; simplify_eq/=; [done|..|eauto].
    + destruct (pi_pairs0 _ _ _ _ _ H2 R2) as (_&_&_&_&_&[_ Hg2]). by destruct (Hg2 _ _ Hu).
    + destruct (pi_pairs0 _ _ _ _ _ H1 R1) as (_&_&_&_&_&[_ Hg2]). by destruct (Hg2 _ _ Hu).
Qed.

(** A waiting stream is removed. *)
Lemma inv_unwait max acts s u :
  pairing_inv max acts s → pairing_inv max acts (set_peers (delete u (PEERS s)) s).
Proof.
  intros []. split; simpl; try done.
  - intros u' p [_ ?]%lookup_delete_Some. eauto.
  - intros c t st p u' Hc Ht. destruct (pi_pairs0 _ _ _ _ _ Hc Ht) as (?&?&?&?&?&[Hg1 Hg2]).
    split_and!; try done. split; [done|]. simpl. intros u2 q [_ Hq]%lookup_delete_Some. eauto.
Qed.

(** The timer removes exactly the stream of its own connection. *)
Lemma sleep_over_own max acts s c u g :
  pairing_inv max acts s → tasks s !! c = Some (Sleeping u g) →
  let s' := (remove_pending_if_generation u g s).2 in
  PEERS s' = filter (λ x, st_conn (pe_stream x.2) ≠ c) (PEERS s) ∧
  (s' = s ∨ s' = set_peers (delete u (PEERS s)) s).
Proof.
  intros [] Hc. unfold remove_pending_if_generation.
  assert (∀ u' p, PEERS s !! u' = Some p → st_conn (pe_stream p) = c → u' = u ∧ generation p = g) as Hown.
  { intros u' p Hp%pi_waiting0 E. rewrite E in Hp. by simplify_eq. }
  destruct (PEERS s !! u) as [p|] eqn:Hu; [destruct (generation p =? g) eqn:Hg|]; simpl; reflect_bools.
  - split; [|by right]. apply map_eq. intros u'. apply option_eq. intros q.
    rewrite lookup_delete_Some, map_lookup_filter_Some. simpl. split; intros [H1 H2]; split; try done.
    + intros E. by apply H1, eq_sym, (Hown u' q).
    + intros <-. simplify_eq. apply H2. eapply pi_generations0; [|done]. by apply pi_waiting0.
  - split; [|by left]. symmetry. apply map_filter_id. intros u' q Hq E. apply Hg.
    destruct (Hown _ _ Hq E) as [-> ?]. by simplify_eq.
  - split; [|by left]. symmetry. apply map_filter_id. intros u' q Hq E.
    destruct (Hown _ _ Hq E) as [-> ?]. by simplify_eq.
Qed.

(** The tables of usage and blocked addresses play no part. *)
Lemma inv_same max acts s s' :
  PEERS s' = PEERS s → NEXT_PENDING_GENERATION s' = NEXT_PENDING_GENERATION s → tasks s' = tasks s →
  connection_slots s' = connection_slots s → (next_conn s ≤ next_conn s')%N →
  pairing_inv max acts s → pairing_inv max acts s'.
Proof.
  intros E1 E2 E3 E4 E5 []. unfold given_away in *.
  split; try unfold given_away; rewrite ?E1, ?E2, ?E3, ?E4; try done.
  - intros c t Hc%pi_old0. lia.
  - intros c t st p u Hc Ht. destruct (pi_pairs0 _ _ _ _ _ Hc Ht) as (?&?&?&?&?&?&?).
    split_and!; try done. lia.
Qed.

Lemma handle_connection_inv max acts addr ws s :
  pairing_inv max acts s → pairing_inv max acts (handle_connection try_into_v4 context addr ws s).
Proof.
  intros Hinv. unfold handle_connection. cbn zeta.
  assert (pairing_inv max acts (set_conn (N.succ (next_conn s)) s)) as Hskip.
  { eapply inv_same; [..|done]; simpl; try done. lia. }
  simpl. case_match; [done|]. reflect_bools.
  assert (∀ t, ¬ sleeps t → relays t = None → (∀ st a, t = Receiving st a → st_conn st = next_conn s) →
    pairing_inv max acts (proceed (next_conn s) t
      (set_slots (connection_slots s - 1) (set_conn (N.succ (next_conn s)) s)))) as Hspawn.
  { intros. by apply inv_spawn. }
  case_match; [apply Hspawn; [by intros (?&?&?)|done|done]|]. case_decide; [done|].
  destruct ws; apply Hspawn; try done; try (by intros (?&?&?)). by intros st a [= <- _].
Qed.

Lemma make_pair_inv max acts c st a r s :
  tasks s !! c = Some (Receiving st a) → FirstFrame c r ∈ acts →
  NEXT_PENDING_GENERATION s ≤ len acts → len acts < 2 ^ 64 - 1 → pairing_inv max acts s →
  pairing_inv max acts (make_pair_ parse_from_bytes context c st a r s).
Proof.
  intros Hc Hin Hg Hmax Hinv.
  assert (pairing_inv max acts (finish c s)) as Hfin.
  { eapply inv_finish; [done| |done]. intros u p Hp%(pi_waiting _ _ _ Hinv) E. rewrite E in Hp. congruence. }
  unfold make_pair_. destruct (first_message _ r) as [rf|] eqn:Hr; [|done].
  destruct (authorised context rf) eqn:Ha; simpl; [|done]. destruct (wellformed rf) eqn:Hw; [|done].
  assert (requested acts c (rf_uuid rf)) as Hreq by by exists r, rf.
  unfold meet. destruct (PEERS s !! rf_uuid rf) as [p|] eqn:Hu; [by apply inv_pair|].
  case_match; [done|]. by eapply inv_wait.
Qed.

Lemma act_inv max acts a s s' :
  act parse_from_bytes try_into_v4 context a s = Some s' → len (acts ++ [a]) < 2 ^ 64 - 1 →
  pairing_inv max acts s → pairing_inv max (acts ++ [a]) s'.
Proof.
  intros Hact Hlen Hinv0. pose proof (pi_next _ _ _ Hinv0) as Hnext.
  assert (len (acts ++ [a]) = len acts + 1) as Hlen' by (unfold len; rewrite length_app; simpl; lia).
  assert (pairing_inv max (acts ++ [a]) s) as Hinv.
  { apply (pairing_inv_mono max acts); [|lia|exact Hinv0]. by apply list_subseteq_app_l. }
  assert (a ∈ acts ++ [a]) as Hin by (apply elem_of_app; right; by apply list_elem_of_singleton).
  assert (∀ c t, tasks s !! c = Some t → ¬ sleeps t → ∀ u p, PEERS s !! u = Some p → st_conn (pe_stream p) ≠ c)
    as Hfree.
  { intros c t Hc Hn u p Hp%(pi_waiting _ _ _ Hinv) E. apply Hn. rewrite E in Hp. simplify_eq.
    by eexists _, _. }
  destruct a; simpl in Hact; repeat case_match; simplify_eq.
  - by apply handle_connection_inv.
  - unfold upgrade. destruct headers; [|by eapply inv_finish, Hinv; [done|eapply Hfree; [done|by intros (?&?&?)]]].
    eapply inv_proceed; try done; try (by intros (?&?&?)). by intros st ? [= <- _].
  - apply make_pair_inv; try done. lia.
  - edestruct sleep_over_own as [Hp Hs]; [exact Hinv|done|].
    eapply inv_finish with (t := Sleeping uuid g).
    + by destruct Hs as [->| ->].
    + intros u q. rewrite Hp, map_lookup_filter_Some. simpl. tauto.
    + destruct Hs as [->| ->]; [done|]. by apply inv_unwait.
  - unfold begin_relay. case_match; (eapply inv_proceed; [done|by intros (?&?&?)..|done| |by eapply inv_same, Hinv]).
    + intros st p u [= <- <- <-]. eexists _, _. split; [done|]. unfold set_raw. by repeat case_match.
    + intros st p u [= <- <- <-]. by eexists _, _.
  - by eapply inv_same, Hinv.
  - eapply inv_proceed; [done|by intros (?&?&?)..|done| |done]. intros st p u [= <- <- <-]. by eexists _, _.
  - eapply inv_finish; [done| |by eapply inv_same, Hinv]. eapply Hfree; [done|by intros (?&?&?)].
  - eapply inv_finish; [done| |done]. eapply Hfree; [done|by intros (?&?&?)].
  - by eapply inv_same, Hinv.
Qed.

Lemma relay_start_inv max : 0 ≤ max → pairing_inv max [] (relay_start max).
Proof. intros Hmax. split; simpl; try done; try (intros *; rewrite ?lookup_empty; done). unfold mlen. rewrite map_size_empty. lia. Qed.

Lemma run_actions_snoc acts a s :
  run_actions parse_from_bytes try_into_v4 context (acts ++ [a]) s =
  s' ← run_actions parse_from_bytes try_into_v4 context acts s;
  act parse_from_bytes try_into_v4 context a s'.
Proof.
  revert s. induction acts as [|b acts IH]; intros s; simpl; [by destruct (act _ _ _ a s)|].
  by destruct (act _ _ _ b s); simpl; [rewrite IH|].
Qed.

Lemma run_inv max acts s :
  0 ≤ max → len acts < 2 ^ 64 - 1 →
  run_actions parse_from_bytes try_into_v4 context acts (relay_start max) = Some s →
  pairing_inv max acts s.
Proof.
  intros Hmax. revert s. induction acts as [|a acts IH] using rev_ind; intros s Hlen.
  { intros [= <-]. by apply relay_start_inv. }
  rewrite run_actions_snoc, bind_Some. intros (s0 & H0 & Ha). eapply act_inv; [done..|].
  apply IH; [|done]. unfold len in *. rewrite length_app in Hlen. lia.
Qed.
End PairingLemmas.

(** ** Theorems *)

(** The connections whose streams a task holds; [c] is its own. *)
Definition holds (c : N) (t : Task) : list N :=
  match t with
  | Console | Upgrading _ | Receiving _ _ => [c]
  | Sleeping _ _ => []
  | Paired _ p _ _ | Relaying _ p _ _ | Closing _ p _ _ => [c; st_conn p]
  end.
Definition open_sockets (s : Relay) : Z :=
  Z.of_nat (sum_list_with (λ x, length (holds x.1 x.2)) (map_to_list (tasks s))) + mlen (PEERS s).

(** The specification of the pairing: a room in which, under each UUID, at most
    one connection waits. A timer takes out its own connection only. *)
Abbreviation Room := (gmap string N).
Definition room (s : Relay) : Room := (λ p, st_conn (pe_stream p)) <$> PEERS s.

Section PairingTheorems.
Context (parse_from_bytes : bytes → option RendezvousMessage).
Context (try_into_v4 : SocketAddr → SocketAddr).
Context (context : RelayContext).
Implicit Types (s : Relay) (acts : list Action).

Definition acceptable (r : option (option Item)) : option string :=
  rf ← first_message parse_from_bytes r;
  if authorised context rf && wellformed rf then Some (rf_uuid rf) else None.

Inductive room_step : Action → Room → Room → Prop :=
  | room_leave c m : room_step (SleepOver c) m (filter (λ x, x.2 ≠ c) m)
  | room_meet c r u d m : acceptable r = Some u → m !! u = Some d →
      room_step (FirstFrame c r) m (delete u m)
  | room_wait c r u m : acceptable r = Some u → m !! u = None → mlen m < MAX_PENDING_RELAYS →
      room_step (FirstFrame c r) m (<[u := c]> m)
  | room_full c r u m : acceptable r = Some u → m !! u = None → MAX_PENDING_RELAYS_PER_IP ≤ mlen m →
      room_step (FirstFrame c r) m m
  | room_ignore c r m : acceptable r = None → room_step (FirstFrame c r) m m
  | room_other a m : (∀ c, a ≠ SleepOver c) → (∀ c r, a ≠ FirstFrame c r) → room_step a m m.

Lemma make_pair_room c st a r s :
  st_conn st = c →
  room_step (FirstFrame c r) (room s) (room (make_pair_ parse_from_bytes context c st a r s)).
Proof.
  intros Hst. unfold make_pair_.
  destruct (first_message parse_from_bytes r) as [rf|] eqn:Hr.
  2:{ apply room_ignore. unfold acceptable. by rewrite Hr. }
  destruct (authorised context rf) eqn:Ha; simpl.
  2:{ apply room_ignore. unfold acceptable. by rewrite Hr; simpl; rewrite Ha. }
  destruct (wellformed rf) eqn:Hw; simpl.
  2:{ apply room_ignore. unfold acceptable. by rewrite Hr; simpl; rewrite Ha, Hw. }
  assert (acceptable r = Some (rf_uuid rf)) as Hacc by (unfold acceptable; rewrite Hr; simpl; by rewrite Ha, Hw).
  unfold meet. destruct (PEERS s !! rf_uuid rf) as [p|] eqn:Hu.
  { unfold room. simpl. rewrite fmap_delete. eapply room_meet; [done|]. rewrite lookup_fmap, Hu. done. }
  assert (room s !! rf_uuid rf = None) as Hnone by (unfold room; by rewrite lookup_fmap, Hu).
  assert (mlen (room s) = mlen (PEERS s)) as Hlen by (unfold room, mlen; by rewrite map_size_fmap).
  case_match; reflect_bools.
  - eapply room_full; [done..|]. change (room (finish c s)) with (room s).
    pose proof (mlen_filter_le (λ x, source_ip x.2 = sa_ip a) (PEERS s)).
    unfold pending_for_ip, MAX_PENDING_RELAYS, MAX_PENDING_RELAYS_PER_IP in *.
    destruct H; reflect_bools; lia.
  - change (room_step (FirstFrame c r) (room s) (room (set_peers
      (<[rf_uuid rf := mkPending st (sa_ip a) (NEXT_PENDING_GENERATION s)]> (PEERS s)) s))).
    unfold room at 2. simpl. rewrite fmap_insert. simpl. rewrite Hst. fold (room s). apply room_wait; [done..|lia].
Qed.

(** C15: The pairing table behaves like a room with at most one connection waiting
    under each UUID: an acceptable request meets the connection that waits, or
    waits itself, and is turned away only when at least 32 wait; a timer takes
    out its own connection and never one that reused the UUID. The code tells
    them apart by generation numbers, which this shows to be enough. *)
Theorem pairing_refines_waiting_room max acts s a s' :
  0 ≤ max → len acts < 2 ^ 64 - 1 →
  run_actions parse_from_bytes try_into_v4 context acts (relay_start max) = Some s →
  act parse_from_bytes try_into_v4 context a s = Some s' →
  room_step a (room s) (room s') ∧
  (∀ c r u d, a = FirstFrame c r → acceptable r = Some u → room s !! u = Some d →
     ∃ st p addr, tasks s' !! c = Some (Paired st p addr u) ∧ st_conn p = d).
Proof.
  intros Hmax Hlen Hrun Hact. apply run_inv in Hrun as Hinv; [|done..]. split.
  - destruct a; simpl in Hact; repeat case_match; simplify_eq;
      try (apply room_other; by intros).
    + unfold handle_connection. cbn zeta. repeat case_match; by apply room_other.
    + unfold upgrade. case_match; by apply room_other.
    + apply make_pair_room. by eapply pi_receiving.
    + edestruct sleep_over_own as [Hp _]; [exact Hinv|done|].
      change (room (finish c ?x)) with (room x). unfold room. rewrite Hp.
      assert ((λ p, st_conn (pe_stream p)) <$> filter (λ x, st_conn (pe_stream x.2) ≠ c) (PEERS s) =
              filter (λ x, x.2 ≠ c) (room s)) as ->; [|apply room_leave].
      unfold room. by rewrite map_filter_fmap.
    + unfold begin_relay. case_match; by apply room_other.
  - intros c r u d -> Hacc Hd. unfold room in Hd. rewrite lookup_fmap in Hd.
    destruct (PEERS s !! u) as [p|] eqn:Hu; [|done]. injection Hd as <-.
    simpl in Hact. repeat case_match; simplify_eq. unfold acceptable in Hacc. unfold make_pair_.
    destruct (first_message _ r) as [rf|]; [|done]. simpl in Hacc.
    destruct (authorised context rf), (wellformed rf); simpl in *; simplify_eq.
    unfold meet. rewrite Hu. eexists _, _, _. split; [apply lookup_insert_eq|done].
Qed.

(** C8: Every relay joins two different connections that both presented the same
    well-formed UUID with an accepted key; neither of the two takes part in
    anything else: no other task holds its stream, and it does not wait. *)
Theorem relay_pairs_matching_requests max acts s c t st p u :
  0 ≤ max → len acts < 2 ^ 64 - 1 →
  run_actions parse_from_bytes try_into_v4 context acts (relay_start max) = Some s →
  tasks s !! c = Some t → relays t = Some (st, p, u) →
  st_conn st = c ∧ st_conn p ≠ c ∧
  requested parse_from_bytes context acts c u ∧ requested parse_from_bytes context acts (st_conn p) u ∧
  (∀ c' t', tasks s !! c' = Some t' → c' ≠ c → (c ∉ holds c' t') ∧ (st_conn p ∉ holds c' t')) ∧
  (∀ u' q, PEERS s !! u' = Some q → st_conn (pe_stream q) ≠ c ∧ st_conn (pe_stream q) ≠ st_conn p).
Proof.
  intros Hmax Hlen Hrun Hc Ht. apply run_inv in Hrun as Hinv; [|done..].
  destruct (pi_pairs _ _ _ _ _ Hinv _ _ _ _ _ Hc Ht) as (Hst & Hne & _ & Hr1 & Hr2 & [Hg1 Hg2]).
  split_and!; try done.
  - intros c' t' Hc' Hne'.
    assert (∀ st' p' u', relays t' = Some (st', p', u') → (c ∉ [c'; st_conn p']) ∧ (st_conn p ∉ [c'; st_conn p']))
      as Hrel.
    { intros st' p' u' Ht'.
      destruct (pi_pairs _ _ _ _ _ Hinv _ _ _ _ _ Hc' Ht') as (_ & _ & _ & _ & _ & [Hg1' _]).
      assert (st_conn p ≠ c') by (intros <-; by destruct (Hg1 _ Hc') as (?&?&->)).
      assert (st_conn p' ≠ c) by (intros E; rewrite E in Hg1'; by destruct (Hg1' _ Hc) as (?&?&->)).
      assert (st_conn p ≠ st_conn p') by (intros E; by destruct Hne'; eapply (pi_once _ _ _ _ _ Hinv)).
      rewrite !not_elem_of_cons. split_and!; auto using not_elem_of_nil. }
    assert ((∀ u g, t' ≠ Sleeping u g) → st_conn p ≠ c') as Hawake.
    { intros Hs <-. destruct (Hg1 _ Hc') as (u0 & g0 & ->). by destruct (Hs u0 g0). }
    destruct t'; simpl in *; try (by eapply Hrel); rewrite ?list_elem_of_singleton;
      first [by split; [congruence|by apply Hawake] | split; apply not_elem_of_nil].
  - intros u' q Hq. split; [|eauto]. apply (pi_waiting _ _ _ _ _ Hinv) in Hq.
    intros E. rewrite E in Hq. simplify_eq.
Qed.

(** C27: A stream never waits for ever: whatever waits has a sleeping task whose
    timer, when it fires, takes it out of the table, leaves the other entries
    alone and returns the permit. *)
Theorem waiting_stream_times_out max acts s u p :
  0 ≤ max → len acts < 2 ^ 64 - 1 →
  run_actions parse_from_bytes try_into_v4 context acts (relay_start max) = Some s →
  PEERS s !! u = Some p →
  ∃ s', act parse_from_bytes try_into_v4 context (SleepOver (st_conn (pe_stream p))) s = Some s' ∧
    PEERS s' = delete u (PEERS s) ∧ connection_slots s' = connection_slots s + 1 ∧
    tasks s' !! st_conn (pe_stream p) = None.
Proof.
  intros Hmax Hlen Hrun Hp. apply run_inv in Hrun as Hinv; [|done..].
  pose proof (pi_waiting _ _ _ _ _ Hinv _ _ Hp) as Hs. simpl. rewrite Hs.
  eexists. split; [done|]. unfold remove_pending_if_generation. rewrite Hp, Z.eqb_refl. simpl.
  split_and!; [done..|]. apply lookup_delete_eq.
Qed.

(** *** Bounds *)

Record table_bounds s : Prop := {
  tb_all : mlen (PEERS s) ≤ MAX_PENDING_RELAYS;
  tb_ip ip : pending_for_ip ip (PEERS s) ≤ MAX_PENDING_RELAYS_PER_IP
}.

Lemma bounds_delete s u : table_bounds s → table_bounds (set_peers (delete u (PEERS s)) s).
Proof.
  intros [Hall Hip]. split; simpl.
  - pose proof (mlen_delete_le (PEERS s) u). lia.
  - intros ip. specialize (Hip ip). unfold pending_for_ip in *. rewrite map_filter_delete.
    pose proof (mlen_delete_le (filter (λ x, source_ip x.2 = ip) (PEERS s)) u). lia.
Qed.

Lemma bounds_same s s' : PEERS s' = PEERS s → table_bounds s → table_bounds s'.
Proof. intros E [Hall Hip]. split; by rewrite E. Qed.

Lemma meet_bounds c st a u s : table_bounds s → table_bounds (meet c st a u s).
Proof.
  intros Hb. unfold meet. destruct (PEERS s !! u) as [p|] eqn:Hu.
  { by eapply bounds_same, (bounds_delete s u). }
  case_match; [by eapply bounds_same, Hb|]. reflect_bools. destruct Hb as [Hall Hip]. split; simpl.
  - rewrite mlen_insert_new by done. lia.
  - intros ip. specialize (Hip ip). unfold pending_for_ip in *.
    destruct (decide (sa_ip a = ip)) as [<-|Hne].
    + rewrite map_filter_insert_True by done.
      pose proof (mlen_insert_le (filter (λ x, source_ip x.2 = sa_ip a) (PEERS s)) u
        (mkPending st (sa_ip a) (NEXT_PENDING_GENERATION s))). lia.
    + rewrite map_filter_insert_False by done. by rewrite delete_id.
Qed.

Lemma act_bounds a s s' :
  act parse_from_bytes try_into_v4 context a s = Some s' → table_bounds s → table_bounds s'.
Proof.
  intros Hact Hb. destruct a; simpl in Hact; repeat case_match; simplify_eq; try (by eapply bounds_same, Hb).
  - unfold handle_connection. cbn zeta. repeat case_match; by eapply bounds_same, Hb.
  - unfold upgrade. case_match; by eapply bounds_same, Hb.
  - unfold make_pair_. repeat case_match; first [by apply meet_bounds|by eapply bounds_same, Hb].
  - unfold remove_pending_if_generation. repeat case_match; simpl;
      first [by eapply bounds_same, Hb|by eapply bounds_same, (bounds_delete s uuid)].
  - unfold begin_relay. case_match; by eapply bounds_same, Hb.
Qed.

Lemma run_bounds max acts s :
  run_actions parse_from_bytes try_into_v4 context acts (relay_start max) = Some s → table_bounds s.
Proof.
  revert s. induction acts as [|a acts IH] using rev_ind; intros s.
  - intros [= <-]. split; done.
  - rewrite run_actions_snoc, bind_Some. intros (s0 & H0 & Ha). eapply act_bounds; eauto.
Qed.

Definition is_sleeping (t : Task) : bool := match t with Sleeping _ _ => true | _ => false end.

Lemma held_and_asleep (l : list (N * Task)) :
  (sum_list_with (λ x, length (holds x.1 x.2)) l + length (filter (λ x, is_sleeping x.2 = true) l)
   ≤ 2 * length l)%nat.
Proof.
  induction l as [|[c t] l IH]; [done|]. rewrite filter_cons. simpl.
  destruct t; simpl; try case_decide; simpl; lia || done.
Qed.

(** As many streams wait as tasks sleep, at most. *)
Lemma waiting_le_sleeping max acts s :
  pairing_inv parse_from_bytes context max acts s →
  (size (PEERS s) ≤ length (filter (λ x, is_sleeping x.2 = true) (map_to_list (tasks s))))%nat.
Proof.
  intros Hinv. rewrite <-length_map_to_list.
  rewrite <-(length_fmap (λ x, (st_conn (pe_stream x.2), Sleeping x.1 (generation x.2)))).
  apply submseteq_length, NoDup_submseteq.
  - apply NoDup_fmap_2_strong; [|apply NoDup_map_to_list].
    intros [u p] [u' p'] Hx%elem_of_map_to_list Hy%elem_of_map_to_list [= _ -> _]. simplify_eq. done.
  - intros [c t] ([u p] & [= -> ->] & Hx%elem_of_map_to_list)%list_elem_of_fmap.
    apply list_elem_of_filter. split; [done|]. apply elem_of_map_to_list. by apply (pi_waiting _ _ _ _ _ Hinv).
Qed.

(** Whatever arrives and in whatever order: at most the configured number of
    tasks runs; at most 4096 streams wait, at most 32 of one address; and at most
    twice as many sockets are open as there are permits. *)
Theorem relay_stays_within_bounds max acts s :
  0 ≤ max → len acts < 2 ^ 64 - 1 →
  run_actions parse_from_bytes try_into_v4 context acts (relay_start max) = Some s →
  mlen (tasks s) ≤ max ∧ connection_slots s = max - mlen (tasks s) ∧
  mlen (PEERS s) ≤ MAX_PENDING_RELAYS ∧
  (∀ ip, pending_for_ip ip (PEERS s) ≤ MAX_PENDING_RELAYS_PER_IP) ∧ open_sockets s ≤ 2 * max.
Proof.
  intros Hmax Hlen Hrun. apply run_bounds in Hrun as Hb. apply run_inv in Hrun as Hinv; [|done..].
  pose proof (pi_slots _ _ _ _ _ Hinv). pose proof (pi_free _ _ _ _ _ Hinv).
  destruct Hb as [Hall Hip]. split_and!; [lia|lia|done|done|].
  unfold open_sockets. pose proof (waiting_le_sleeping _ _ _ Hinv) as Hw.
  pose proof (held_and_asleep (map_to_list (tasks s))) as Hh.
  rewrite length_map_to_list in Hh. unfold mlen in *. lia.
Qed.
End PairingTheorems.

(** *** Concrete runs *)

(** A frame is a relay request whose UUID is the frame's text. *)
Definition sample_parse (b : bytes) : option RendezvousMessage :=
  Some (Some (MRequestRelay (mkRequestRelay "" (of_codes b) [] "" "key" "" "" None None [] []))).
Definition sample_context : RelayContext := mkRelayContext "key" false false.
Definition sample_request (u : string) : option (option Item) := Some (Some (FramedItem (Ok (codes u)))).
Definition sample_client (port : Z) : SocketAddr := SockV4 (mkV4 192 0 2 1) port.
Definition sample_run (acts : list Action) (max : Z) : option Relay :=
  run_actions sample_parse id sample_context acts (relay_start max).

(** Two clients meet; the first one's timer fires while they relay. *)
Definition sample_meeting : list Action :=
  [Accept (sample_client 1) false; Accept (sample_client 2) false;
   FirstFrame 0 (sample_request "session-1"); FirstFrame 1 (sample_request "session-1");
   UsageInserted 1; SleepOver 0].

(** The limit on connections does not bound the sockets: the permit of the side
    that waited is returned when its timer fires, although its socket is in use by
    the relay. With 64 permits, 65 sockets can be open at once. *)
Theorem relay_sockets_can_exceed_limit :
  ∃ acts s, sample_run acts 64 = Some s ∧ connection_slots s = 0 ∧ mlen (tasks s) = 64 ∧
    open_sockets s = 65.
Proof.
  set (acts := sample_meeting ++ replicate 63 (Accept (sample_client 3) false)).
  destruct (sample_run acts 64) as [s|] eqn:E; [|by vm_compute in E].
  exists acts, s. split; [exact E|]. vm_compute in E. injection E as <-. by vm_compute.
Qed.

Definition after (acts : list Action) : Relay := default (relay_start 0) (sample_run acts 64).

Lemma pairing_refines_waiting_room_witness :
  let s := after (take 3 sample_meeting) in
  let s' := after (take 4 sample_meeting) in
  room s = {["session-1" := 0%N]} ∧ room s' = ∅ ∧
  room_step sample_parse sample_context (FirstFrame 1 (sample_request "session-1")) (room s) (room s').
Proof.
  split; [by vm_compute|]. split; [by vm_compute|].
  apply (pairing_refines_waiting_room sample_parse id sample_context 64 (take 3 sample_meeting)); [lia|..];
    by vm_compute.
Defined.

Lemma relay_pairs_matching_requests_witness :
  let acts := take 5 sample_meeting in
  let s := after acts in
  let st := mkStream 1 false true in
  let p := mkStream 0 false true in
  tasks s !! 1%N = Some (Relaying st p "192.0.2.1:2" "session-1") ∧
  requested sample_parse sample_context acts 0 "session-1" ∧
  requested sample_parse sample_context acts 1 "session-1".
Proof.
  split; [by vm_compute|].
  destruct (relay_pairs_matching_requests sample_parse id sample_context 64 (take 5 sample_meeting)
    (after (take 5 sample_meeting)) 1 (Relaying (mkStream 1 false true) (mkStream 0 false true) "192.0.2.1:2" "session-1")
    (mkStream 1 false true) (mkStream 0 false true) "session-1") as (_ & _ & H1 & H0 & _);
    [lia|by vm_compute..|by split].
Defined.

Lemma waiting_stream_times_out_witness :
  let s := after (take 3 sample_meeting) in
  ∃ s', act sample_parse id sample_context (SleepOver 0) s = Some s' ∧ PEERS s' = ∅ ∧
    connection_slots s' = connection_slots s + 1.
Proof.
  destruct (waiting_stream_times_out sample_parse id sample_context 64 (take 3 sample_meeting)
    (after (take 3 sample_meeting)) "session-1"
    (mkPending (mkStream 0 false false) (V4 (mkV4 192 0 2 1)) 1)) as (s' & Hact & HP & Hslots & _);
    [lia|by vm_compute..|].
  exists s'. split; [exact Hact|]. split; [|exact Hslots]. rewrite HP. by vm_compute.
Defined.

Lemma relay_stays_within_bounds_witness :
  let s := after sample_meeting in mlen (tasks s) ≤ 64 ∧ open_sockets s ≤ 128 ∧ open_sockets s = 2.
Proof.
  destruct (relay_stays_within_bounds sample_parse id sample_context 64 sample_meeting (after sample_meeting))
    as (H1 & _ & _ & _ & H2); [lia|by vm_compute..|].
  split; [exact H1|]. split; [exact H2|]. by vm_compute.
Defined.
