(* ===== verification/RelayPump.v ===== *)
(** The relay loop ([src/relay_server.rs]: [relay]).

    One round of the loop is a computation on [Pump]: the branch [select!] takes
    with what it yields, the settings it reads and the clock come from the
    environment.  What the round sends, what it takes from the three limiters and
    the usage it reports are logged in the state, in order.  [f64] is the integer
    arithmetic of [Float64]. *)

From Stdlib Require Import Ascii String SpecFloat.
From S2P Require Import Prelude.
From S2P Require Import Text.
From S2P Require Import Net.
From S2P Require Import Float64.
From S2P Require Import RelayStream.

(** ** Data *)

(** [limiter], [blacklist_limiter] and the shared [total_limiter]. *)
Inductive Bucket := Single | Blacklist | Total.
(** [stream] and [peer]. *)
Inductive Side := TheStream | ThePeer.
#[export] Instance Bucket_eq_dec : EqDecision Bucket.
Proof. solve_decision. Defined.
#[export] Instance Side_eq_dec : EqDecision Side.
Proof. solve_decision. Defined.

Record Pump := mkPump {
  pu_clock : Clock;
  tm : Instant;
  elapsed : Z;
  total : Z;
  total_s : Z;
  highest_s : Z;
  downgrade : bool;
  blacked : bool;
  last_recv_time : Instant;
  sent : list (Side * Packet);
  consumed : list (Bucket * Z);
  reports : list Usage
}.

Definition set_pu_clock (c : Clock) (p : Pump) : Pump :=
  mkPump c (tm p) (elapsed p) (total p) (total_s p) (highest_s p) (downgrade p) (blacked p)
    (last_recv_time p) (sent p) (consumed p) (reports p).
#[export] Instance pump_clock : HasClock Pump := 
  {| clock_of := pu_clock; with_clock := set_pu_clock; clock_with_clock c p := eq_refl |}.

(** What a round reads of the shared settings. *)
Record Shared := mkShared {
  sh_blocklist : gset string; sh_blacklist : gset string; sh_start_check : Z
}.

(** What is read once, when the relay starts. *)
Record Limits := mkLimits {
  lm_single : Z;      (* SINGLE_BANDWIDTH *)
  lm_threshold : Z    (* DOWNGRADE_THRESHOLD_SCALED *)
}.

(** The branch taken: a side yields an item (and how the send of its bytes ends),
    or the timer ticks. *)
Inductive Branch :=
  | Received (from : Side) (next : option Item) (send : result unit)
  | Tick.

(** ** Operations *)

(** [usize] addition wraps (release profile). *)
Definition usize_add (a b : Z) : Z := (a + b) mod 2 ^ 64.

Definition log_consumed (b : Bucket) (n : Z) (p : Pump) : Pump :=
  mkPump (pu_clock p) (tm p) (elapsed p) (total p) (total_s p) (highest_s p) (downgrade p) (blacked p)
    (last_recv_time p) (sent p) (consumed p ++ [(b, n)]) (reports p).
Definition log_sent (to : Side) (x : Packet) (p : Pump) : Pump :=
  mkPump (pu_clock p) (tm p) (elapsed p) (total p) (total_s p) (highest_s p) (downgrade p) (blacked p)
    (last_recv_time p) (sent p ++ [(to, x)]) (consumed p) (reports p).
Definition count (nb : Z) (p : Pump) : Pump :=
  mkPump (pu_clock p) (tm p) (elapsed p) (usize_add (total p) nb) (usize_add (total_s p) nb) (highest_s p)
    (downgrade p) (blacked p) (last_recv_time p) (sent p) (consumed p) (reports p).
Definition set_last_recv (t : Instant) (p : Pump) : Pump :=
  mkPump (pu_clock p) (tm p) (elapsed p) (total p) (total_s p) (highest_s p) (downgrade p) (blacked p)
    t (sent p) (consumed p) (reports p).
Definition set_blacked (b : bool) (p : Pump) : Pump :=
  mkPump (pu_clock p) (tm p) (elapsed p) (total p) (total_s p) (highest_s p) (downgrade p) b
    (last_recv_time p) (sent p) (consumed p) (reports p).
Definition set_downgrade (p : Pump) : Pump :=
  mkPump (pu_clock p) (tm p) (elapsed p) (total p) (total_s p) (highest_s p) true (blacked p)
    (last_recv_time p) (sent p) (consumed p) (reports p).
(** The new window: its start, the speed of the last one, the report. *)
Definition next_window (t : Instant) (n speed : Z) (p : Pump) : Pump :=
  let highest_s := Z.max (highest_s p) speed in
  let elapsed := usize_add (elapsed p) n in
  mkPump (pu_clock p) t elapsed (total p) 0 highest_s (downgrade p) (blacked p)
    (last_recv_time p) (sent p) (consumed p) (reports p ++ [(elapsed, total p, highest_s, speed)]).

Section Relay.
Context (stream peer : Stream) (limits : Limits) (ip : string).

Definition other (side : Side) : Side := match side with TheStream => ThePeer | ThePeer => TheStream end.
Definition stream_of (side : Side) : Stream := match side with TheStream => stream | ThePeer => peer end.

(** The first two branches: false ends the loop. *)
Definition forward (from : Side) (next : option Item) (send : result unit) : M Pump bool :=
  match recv next with
  | Some (Ok bytes) =>
      now ← instant_now;
      modify (set_last_recv now);;
      let nb := len bytes * 8 in
      slow ← gets (λ p, blacked p || downgrade p);
      modify (log_consumed (if slow : bool then Blacklist else Single) nb);;
      modify (log_consumed Total nb);;
      modify (count nb);;
      if is_empty bytes then mret true else
      match send with
      | Ok _ => modify (log_sent (other from) (send_raw (stream_of (other from)) bytes));; mret true
      | Err e => bail e
      end
  | _ => mret false
  end.

(** The timer: more than thirty seconds without a frame. *)
Definition check_idle : M Pump unit :=
  now ← instant_now;
  idle ← gets (λ p, as_secs (duration_since now (last_recv_time p)));
  if 30 <? idle then bail "Timeout" else mret tt.

Definition single_f64 : f64 := f64_of (lm_single limits).
Definition threshold_f64 : f64 := f64_div (f64_of (lm_threshold limits)) (f64_of 1000000).
(** [total as f64 > elapsed as f64 * sb / 1_000. * downgrade_threshold]. *)
Definition exceeds (total elapsed : Z) : bool :=
  f64_lt (f64_mul (f64_div (f64_mul (f64_of elapsed) single_f64) (f64_of 1000)) threshold_f64)
    (f64_of total).

(** The end of a round, once a second. *)
Definition account (shared : Shared) : M Pump bool :=
  now ← instant_now;
  n ← gets (λ p, as_millis (duration_since now (tm p)));
  if n <? 1000 then mret true else
  if decide (ip ∈ sh_blocklist shared) then mret false else
  modify (set_blacked (bool_decide (ip ∈ sh_blacklist shared)));;
  now ← instant_now;
  speed ← gets (λ p, total_s p / n);
  modify (next_window now n speed);;
  p ← gets id;
  (if (sh_start_check shared <? elapsed p) && negb (downgrade p) && exceeds (total p) (elapsed p)
   then modify set_downgrade else mret tt);;
  mret true.

Definition round (branch : Branch) (shared : Shared) : M Pump bool :=
  go ← match branch with
       | Received from next send => forward from next send
       | Tick => check_idle;; mret true
       end;
  if go : bool then account shared else mret false.

(** The relay so far: it still runs, or it returned. *)
Inductive Outcome := Running | Returned (r : result unit).

Fixpoint relay_loop (rounds : list (Branch * Shared)) (p : Pump) : Outcome * Pump :=
  match rounds with
  | [] => (Running, p)
  | (branch, shared) :: rounds =>
      match round branch shared p with
      | (Ok true, p) => relay_loop rounds p
      | (Ok false, p) => (Returned (Ok tt), p)
      | (Err e, p) => (Returned (Err e), p)
      end
  end.

(** The state before the first round; both readings of the clock. *)
Definition pump_start (clock : Clock) : Pump :=
  let '(t, clock) := clock_read clock in
  let '(t', clock) := clock_read clock in
  mkPump clock t 0 0 0 0 false false t' [] [] [].
Definition relay (clock : Clock) (rounds : list (Branch * Shared)) : Outcome * Pump :=
  relay_loop rounds (pump_start clock).
End Relay.

(** The text [relay] looks up in both lists, and the one [handle_connection] does. *)
Definition relay_ip (addr : SocketAddr) : string := show_ip (sa_ip addr).
Definition accepted_ip (try_into_v4 : SocketAddr → SocketAddr) (addr : SocketAddr) : string :=
  show_ip (sa_ip (try_into_v4 addr)).

(** ** What happened, from the rounds alone *)

Definition arrived (branch : Branch) : option (Side * bytes) :=
  match branch with
  | Received from next _ => match recv next with Some (Ok b) => Some (from, b) | _ => None end
  | Tick => None
  end.
(** The bits of the frames that arrived, in order. *)
Definition received (rounds : list (Branch * Shared)) : list Z :=
  omap (λ x, (λ y, len y.2 * 8) <$> arrived x.1) rounds.
Definition sumZ (l : list Z) : Z := foldr Z.add 0 l.

Section Specification.
Context (stream peer : Stream).
(** What forwarding the frames means: each one, unless empty, to the other side. *)
Definition forwarded_one (branch : Branch) : list (Side * Packet) :=
  match arrived branch with
  | Some (from, b) => if is_empty b then [] else [(other from, send_raw (stream_of stream peer (other from)) b)]
  | None => []
  end.
Definition forwarded (rounds : list (Branch * Shared)) : list (Side * Packet) :=
  concat ((λ x, forwarded_one x.1) <$> rounds).
End Specification.

(** ** One round *)

Section Rounds.
Context (stream peer : Stream) (limits : Limits) (ip : string).
Implicit Types (p : Pump) (sh : Shared).

(** What a round adds to the log of the limiters. *)
Definition consumption p (branch : Branch) : list (Bucket * Z) :=
  match arrived branch with
  | Some (_, b) => [(if blacked p || downgrade p then Blacklist else Single, len b * 8); (Total, len b * 8)]
  | None => []
  end.
Definition counted (branch : Branch) (n : Z) : Z :=
  match arrived branch with Some (_, b) => usize_add n (len b * 8) | None => n end.

Lemma wp_account sh p :
  wp (account limits ip sh) (λ r p',
    sent p' = sent p ∧ consumed p' = consumed p ∧ total p' = total p ∧
    last_recv_time p' = last_recv_time p ∧ (downgrade p = true → downgrade p' = true) ∧
    ck_now (pu_clock p) ≤ ck_now (pu_clock p') ∧
    (r = Ok true ∨ r = Ok false ∧ ip ∈ sh_blocklist sh)) p.
Proof.
  unfold account. wp_steps. simpl in *. case_match; wp_steps.
  { simpl. split_and!; auto; lia. }
  case_decide; wp_steps; simpl in *; [split_and!; auto; lia|].
  case_match; wp_steps; simpl in *; split_and!; auto; lia.
Qed.

Lemma wp_round branch sh p :
  wp (round stream peer limits ip branch sh) (λ r p',
    consumed p' = consumed p ++ consumption p branch ∧ total p' = counted branch (total p) ∧
    (downgrade p = true → downgrade p' = true) ∧ ck_now (pu_clock p) ≤ ck_now (pu_clock p') ∧
    (r = Ok true → sent p' = sent p ++ forwarded_one stream peer branch) ∧
    (sent p' = sent p ∨ sent p' = sent p ++ forwarded_one stream peer branch)) p.
Proof.
  unfold round, consumption, counted, forwarded_one. destruct branch as [from next send|]; simpl.
  - wp_steps. unfold forward. destruct (recv next) as [[b|e]|] eqn:E; simpl; wp_steps;
      try (simpl; rewrite !app_nil_r; split_and!; auto; lia).
    simpl in *. destruct (is_empty b) eqn:Hb; wp_steps.
    + eapply wp_mono; [|apply wp_account]. simpl. intros r p' (-> & -> & -> & _ & ? & ? & _).
      rewrite <-app_assoc. simpl. rewrite !app_nil_r. split_and!; auto; lia.
    + destruct send as [[]|e]; wp_steps.
      * eapply wp_mono; [|apply wp_account]. simpl. intros r p' (-> & -> & -> & _ & ? & ? & _).
        rewrite <-app_assoc. simpl. split_and!; auto; lia.
      * simpl. rewrite <-app_assoc. split_and!; auto; lia || done.
  - wp_steps. unfold check_idle. wp_steps. simpl in *. case_match; wp_steps.
    { simpl. rewrite !app_nil_r. split_and!; auto; lia. }
    eapply wp_mono; [|apply wp_account]. simpl. intros r p' (-> & -> & -> & _ & ? & ? & _).
    rewrite !app_nil_r. split_and!; auto; lia.
Qed.
End Rounds.

(** ** Many rounds *)

Section Loops.
Context (stream peer : Stream) (limits : Limits) (ip : string).
Implicit Types (p : Pump) (sh : Shared) (rounds pre post : list (Branch * Shared)).

Lemma loop_app pre post p :
  relay_loop stream peer limits ip (pre ++ post) p =
  match relay_loop stream peer limits ip pre p with
  | (Running, p') => relay_loop stream peer limits ip post p'
  | x => x
  end.
Proof.
  revert p. induction pre as [|[b sh] pre IH]; intros p; simpl; [done|].
  destruct (round _ _ _ _ b sh p) as [[[]|e] p']; [apply IH|done..].
Qed.

(** A relay that has returned did so in one round, and ran until then. *)
Lemma loop_returned rounds p r p' :
  relay_loop stream peer limits ip rounds p = (Returned r, p') →
  ∃ pre b sh post p0 r0, rounds = pre ++ (b, sh) :: post ∧
    relay_loop stream peer limits ip pre p = (Running, p0) ∧
    round stream peer limits ip b sh p0 = (r0, p').
Proof.
  revert p. induction rounds as [|[b sh] rounds IH]; intros p; simpl; [done|].
  destruct (round stream peer limits ip b sh p) as [r0 p1] eqn:E. destruct r0 as [[]|e].
  - intros (pre & b' & sh' & post & p0 & r0 & -> & Hpre & Hr)%IH.
    exists ((b, sh) :: pre), b', sh', post, p0, r0. simpl. by rewrite E.
  - intros [= _ <-]. by exists [], b, sh, rounds, p, (Ok false).
  - intros [= _ <-]. by exists [], b, sh, rounds, p, (Err e).
Qed.

(** Rule induction: what every completed round preserves. *)
Lemma loop_ind (I : list (Branch * Shared) → Pump → Prop) pre rounds p p' :
  (∀ pre b sh p p', I pre p → round stream peer limits ip b sh p = (Ok true, p') → I (pre ++ [(b, sh)]) p') →
  I pre p → relay_loop stream peer limits ip rounds p = (Running, p') → I (pre ++ rounds) p'.
Proof.
  intros Hstep. revert pre p. induction rounds as [|[b sh] rounds IH]; intros pre p HI; simpl.
  { intros [= <-]. by rewrite app_nil_r. }
  destruct (round stream peer limits ip b sh p) as [[[]|e] p1] eqn:E; [|done..].
  intros Hrun. replace (pre ++ (b, sh) :: rounds) with ((pre ++ [(b, sh)]) ++ rounds) by by rewrite <-app_assoc.
  apply (IH _ p1); [by eapply Hstep|done].
Qed.

Definition amounts (which : Bucket → bool) (l : list (Bucket * Z)) : list Z :=
  (filter (λ x, which x.1 = true) l).*2.
Definition is_total (b : Bucket) : bool := bool_decide (b = Total).

Lemma amounts_app which l l' : amounts which (l ++ l') = amounts which l ++ amounts which l'.
Proof. unfold amounts. by rewrite list.filter_app, fmap_app. Qed.
Lemma sumZ_app l l' : sumZ (l ++ l') = sumZ l + sumZ l'.
Proof. induction l; simpl; [done|lia]. Qed.
Lemma received_snoc rounds b sh :
  received (rounds ++ [(b, sh)]) = received rounds ++ match arrived b with Some y => [len y.2 * 8] | None => [] end.
Proof. unfold received. rewrite omap_app. simpl. by destruct (arrived b). Qed.
Lemma forwarded_snoc rounds b sh :
  forwarded stream peer (rounds ++ [(b, sh)]) = forwarded stream peer rounds ++ forwarded_one stream peer b.
Proof. unfold forwarded. rewrite fmap_app, concat_app. simpl. by rewrite app_nil_r. Qed.

(** The state of a relay that runs, from its rounds. *)
Record pump_inv rounds p : Prop := {
  pm_sent : sent p = forwarded stream peer rounds;
  pm_total : amounts is_total (consumed p) = received rounds;
  pm_one : amounts (λ b, negb (is_total b)) (consumed p) = received rounds;
  pm_count : total p = sumZ (received rounds) mod 2 ^ 64
}.

Lemma pump_inv_step rounds b sh p p' :
  pump_inv rounds p → round stream peer limits ip b sh p = (Ok true, p') → pump_inv (rounds ++ [(b, sh)]) p'.
Proof.
  intros [Hs Ht Ho Hc] E.
  destruct (wp_run _ _ _ _ _ (wp_round stream peer limits ip b sh p) E) as (Ec & Etot & _ & _ & Es & _).
  specialize (Es eq_refl). split.
  - by rewrite Es, Hs, forwarded_snoc.
  - rewrite Ec, amounts_app, Ht, received_snoc. unfold consumption.
    destruct (arrived b) as [[f x]|]; [|done]. by destruct (blacked p || downgrade p).
  - rewrite Ec, amounts_app, Ho, received_snoc. unfold consumption.
    destruct (arrived b) as [[f x]|]; [|done]. by destruct (blacked p || downgrade p).
  - rewrite Etot, Hc, received_snoc, sumZ_app. unfold counted, usize_add.
    destruct (arrived b) as [[f x]|]; simpl; [|by rewrite Z.add_0_r].
    by rewrite Zplus_mod_idemp_l, Z.add_0_r.
Qed.

Lemma relay_running clock rounds p :
  relay stream peer limits ip clock rounds = (Running, p) → pump_inv rounds p.
Proof.
  intros Hrun. apply (loop_ind pump_inv [] rounds (pump_start clock)); [apply pump_inv_step| |exact Hrun].
  unfold pump_start. destruct (clock_read clock) as [t c]. by destruct (clock_read c).
Qed.

(** Bytes in and out of a side. *)
Definition bytes_to (side : Side) (l : list (Side * Packet)) : bytes :=
  concat ((λ x, payload x.2) <$> filter (λ x, x.1 = side) l).
Definition bytes_from (side : Side) rounds : bytes :=
  concat ((λ x, match arrived x.1 with
                | Some (from, b) => if decide (from = side) then b else []
                | None => []
                end) <$> rounds).

Lemma bytes_to_app side l l' : bytes_to side (l ++ l') = bytes_to side l ++ bytes_to side l'.
Proof. unfold bytes_to. by rewrite list.filter_app, fmap_app, concat_app. Qed.

Lemma bytes_forwarded side rounds :
  bytes_to side (forwarded stream peer rounds) = bytes_from (other side) rounds.
Proof.
  induction rounds as [|[b sh] rounds IH]; [done|].
  change (forwarded stream peer ((b, sh) :: rounds))
    with (forwarded_one stream peer b ++ forwarded stream peer rounds).
  rewrite bytes_to_app, IH. unfold bytes_from. simpl. f_equal.
  unfold forwarded_one. destruct (arrived b) as [[from x]|]; [|done].
  destruct x as [|y x]; simpl; [by destruct (decide _)|].
  unfold bytes_to. rewrite filter_cons, filter_nil. simpl.
  destruct side, from; simpl; try done; by rewrite payload_send, app_nil_r.
Qed.
End Loops.

(** ** Theorems *)

Section PumpTheorems.
Context (stream peer : Stream) (limits : Limits) (ip : string).
Implicit Types (p : Pump) (sh : Shared) (rounds pre post : list (Branch * Shared)).

(** C12: The relay forwards faithfully: the bytes sent to a side are exactly those
    received from the other side, unmodified and in order, in all rounds while it
    runs; of a relay that has returned, at most the frame of its last round is
    missing. *)
Theorem relay_forwards_in_order clock rounds o p :
  relay stream peer limits ip clock rounds = (o, p) →
  match o with
  | Running => ∀ side, bytes_to side (sent p) = bytes_from (other side) rounds
  | Returned _ => ∃ before x after last finished,
      rounds = before ++ x :: after ∧ relay stream peer limits ip clock before = (Running, last) ∧
      (finished = before ∨ finished = before ++ [x]) ∧
      ∀ side, bytes_to side (sent p) = bytes_from (other side) finished
  end.
Proof.
  destruct o as [|r]; intros Hrun.
  - intros side. by rewrite (pm_sent _ _ _ _ (relay_running _ _ _ _ _ _ _ Hrun)), bytes_forwarded.
  - apply loop_returned in Hrun as (pre & b & sh & post & p0 & r0 & -> & Hpre & Hr).
    pose proof (pm_sent _ _ _ _ (relay_running _ _ _ _ _ _ _ Hpre)) as Hs.
    destruct (wp_run _ _ _ _ _ (wp_round stream peer limits ip b sh p0) Hr) as (_ & _ & _ & _ & _ & [E|E]).
    + exists pre, (b, sh), post, p0, pre. split_and!; [done|done|by left|].
      intros side. by rewrite E, Hs, bytes_forwarded.
    + exists pre, (b, sh), post, p0, (pre ++ [(b, sh)]). split_and!; [done|done|by right|].
      intros side. by rewrite E, Hs, <-forwarded_snoc with (sh := sh), bytes_forwarded.
Qed.

(** C33: Every frame that arrives is paid for once with the shared limiter and once
    with exactly one of the relay's own two, for all its bits, and is counted in
    the relay's total (which wraps at the machine's width). *)
Theorem relay_accounts_every_bit clock rounds p :
  relay stream peer limits ip clock rounds = (Running, p) →
  amounts is_total (consumed p) = received rounds ∧
  amounts (λ b, negb (is_total b)) (consumed p) = received rounds ∧
  total p = sumZ (received rounds) mod 2 ^ 64.
Proof. by intros [? ? ? ?]%relay_running. Qed.

(** C38: A downgrade is final: whatever follows, the relay stays downgraded and
    takes nothing more from its full-speed limiter. *)
Theorem relay_downgrade_is_final clock pre post p o p' :
  relay stream peer limits ip clock pre = (Running, p) → downgrade p = true →
  relay stream peer limits ip clock (pre ++ post) = (o, p') →
  downgrade p' = true ∧ ∃ new, consumed p' = consumed p ++ new ∧ Single ∉ new.*1.
Proof.
  intros Hpre Hd. unfold relay in *. rewrite loop_app, Hpre. clear Hpre pre.
  revert p Hd. induction post as [|[b sh] post IH]; intros p Hd; simpl.
  { intros [= _ <-]. split; [done|]. exists []. rewrite app_nil_r. split; [done|apply not_elem_of_nil]. }
  destruct (round stream peer limits ip b sh p) as [r p1] eqn:E.
  destruct (wp_run _ _ _ _ _ (wp_round stream peer limits ip b sh p) E) as (Ec & _ & Hd1 & _).
  assert (Single ∉ (consumption p b).*1) as Hslow.
  { unfold consumption. destruct (arrived b) as [[f x]|]; [|apply not_elem_of_nil].
    rewrite Hd, orb_true_r. simpl. rewrite !not_elem_of_cons. split_and!; [done..|apply not_elem_of_nil]. }
  destruct r as [[]|e].
  - intros (Hd' & new & En & Hn)%IH; [|auto]. split; [done|]. exists (consumption p b ++ new).
    rewrite En, Ec, <-app_assoc. split; [done|]. rewrite fmap_app, not_elem_of_app. done.
  - intros [= _ <-]. split; [auto|]. by exists (consumption p b).
  - intros [= _ <-]. split; [auto|]. by exists (consumption p b).
Qed.

(** *** Idle relays *)

(** When the last frame arrived, from the rounds alone: the reading of the clock
    with which the last round that was given a frame began; before the first such
    round, [t]. *)
Fixpoint last_arrival (rounds : list (Branch * Shared)) (p : Pump) (t : Instant) : Instant :=
  match rounds with
  | [] => t
  | (b, sh) :: rounds =>
      let t := match arrived b with Some _ => (clock_read (pu_clock p)).1 | None => t end in
      last_arrival rounds (round stream peer limits ip b sh p).2 t
  end.

Lemma round_last_recv b sh p :
  wp (round stream peer limits ip b sh) (λ r p', r = Ok true →
    last_recv_time p' = match arrived b with Some _ => (clock_read (pu_clock p)).1 | None => last_recv_time p end) p.
Proof.
  unfold round. destruct b as [from next send|]; simpl.
  - wp_steps. unfold forward. destruct (recv next) as [[x|e]|]; wp_steps; try done.
    simpl in *. rewrite H. destruct (is_empty x); wp_steps; [|destruct send; wp_steps; [|done]];
      (eapply wp_mono; [|apply wp_account]); simpl; by intros r p' (_ & _ & _ & -> & _) _.
  - wp_steps. unfold check_idle. wp_steps. simpl in *. case_match; wp_steps; [done|].
    eapply wp_mono; [|apply wp_account]. simpl. by intros r p' (_ & _ & _ & -> & _) _.
Qed.

Lemma loop_last_recv rounds p p' :
  relay_loop stream peer limits ip rounds p = (Running, p') →
  last_recv_time p' = last_arrival rounds p (last_recv_time p).
Proof.
  revert p. induction rounds as [|[b sh] rounds IH]; intros p; simpl; [by intros [= <-]|].
  pose proof (round_last_recv b sh p) as Hr. unfold wp in Hr.
  destruct (round stream peer limits ip b sh p) as [[[]|e] q]; [|done..]. simpl in *.
  intros ->%IH. by rewrite <-Hr.
Qed.

Lemma tick_spec sh p :
  let now := (clock_read (pu_clock p)).1 in
  wp (round stream peer limits ip Tick sh) (λ r _,
    r = Err "Timeout" ↔ from_secs 31 ≤ duration_since now (last_recv_time p)) p.
Proof.
  unfold round, check_idle. wp_steps. simpl in *. rewrite H. simpl. case_match; wp_steps.
  - split; [intros _|done]. apply as_secs_ge. reflect_bools. lia.
  - eapply wp_mono; [|apply wp_account]. simpl. intros r p' (_ & _ & _ & _ & _ & _ & Hr).
    reflect_bools. rewrite <-as_secs_ge. split; [|lia].
    destruct Hr as [->|[-> _]]; done.
Qed.

(** C34: An idle relay ends, and only an idle one does so: whatever rounds a relay
    has completed, the next tick of its timer ends it with a timeout exactly when
    thirty-one seconds have passed since the last frame arrived from either side,
    or since the relay began if none has. *)
Theorem idle_relay_times_out clock rounds sh p :
  relay stream peer limits ip clock rounds = (Running, p) →
  let began := (clock_read (clock_read clock).2).1 in
  (relay stream peer limits ip clock (rounds ++ [(Tick, sh)])).1 = Returned (Err "Timeout") ↔
  from_secs 31 ≤ duration_since (clock_read (pu_clock p)).1 (last_arrival rounds (pump_start clock) began).
Proof.
  intros Hrun. cbn zeta. unfold relay in *.
  assert (last_recv_time (pump_start clock) = (clock_read (clock_read clock).2).1) as Hbegan.
  { unfold pump_start. destruct (clock_read clock) as [t c]. simpl. by destruct (clock_read c). }
  rewrite <-Hbegan, <-(loop_last_recv _ _ _ Hrun), loop_app, Hrun. simpl.
  pose proof (tick_spec sh p) as Ht. cbn zeta in Ht. unfold wp in Ht.
  destruct (round stream peer limits ip Tick sh p) as [[[]|e] p']; simpl in *; rewrite <-Ht; (split; congruence).
Qed.

(** *** Lists *)

(** The reading with which a round that began in [p] looks at its window. *)
Definition window_reading (p : Pump) : Instant := (clock_read (clock_read (pu_clock p)).2).1.

Lemma account_blocked sh p :
  ip ∈ sh_blocklist sh → tm p + from_millis 1000 ≤ (clock_read (pu_clock p)).1 →
  wp (account limits ip sh) (λ r _, r = Ok false) p.
Proof.
  intros Hin Hlate. unfold account. wp_steps. simpl in *. rewrite H in Hlate. simpl in Hlate. case_match; reflect_bools.
  - exfalso. assert (1000 ≤ as_millis (duration_since t (tm p))); [|lia].
    apply as_millis_ge. unfold duration_since. lia.
  - rewrite decide_True by done. by wp_steps.
Qed.

(** Blocking an address ends its relays: the first round that looks at its window
    a second or more after the last report finds the address and returns, whatever
    it did before. *)
Theorem blocked_relay_returns clock rounds b sh p :
  relay stream peer limits ip clock rounds = (Running, p) →
  ip ∈ sh_blocklist sh → tm p + from_millis 1000 ≤ window_reading p →
  ∃ r, (relay stream peer limits ip clock (rounds ++ [(b, sh)])).1 = Returned r.
Proof.
  intros Hrun Hin Hlate. unfold relay in *. rewrite loop_app, Hrun. simpl.
  assert (wp (round stream peer limits ip b sh) (λ r _, r ≠ Ok true) p) as Hr.
  { assert (∀ q, tm q = tm p → pu_clock q = (clock_read (pu_clock p)).2 →
      wp (account limits ip sh) (λ r _, r ≠ Ok true) q) as Hacc.
    { intros q Et Ec. eapply wp_mono; [|apply account_blocked; [done|by rewrite Et, Ec]]. simpl. congruence. }
    unfold round. destruct b as [from next send|]; wp_steps.
    - unfold forward. destruct (recv next) as [[x|e]|]; wp_steps; try done. simpl in *.
      destruct (is_empty x); [wp_steps; apply Hacc; simpl; [done|by rewrite H]|].
      destruct send; wp_steps; [apply Hacc; simpl; [done|by rewrite H]|done].
    - unfold check_idle. wp_steps. simpl in *. case_match; wp_steps; [done|apply Hacc; simpl; [done|by rewrite H]]. }
  unfold wp in Hr. destruct (round stream peer limits ip b sh p) as [[[]|e] q]; simpl in *; by eauto.
Qed.

(** *** Usage *)

(** What a relay that started at [t0] reports. *)
Record usage_inv (t0 : Instant) p : Prop := {
  us_window : tm p ≤ ck_now (pu_clock p);
  us_elapsed : 0 ≤ elapsed p ∧ from_millis (elapsed p) ≤ tm p - t0;
  us_rate : 1000 * len (reports p) ≤ elapsed p;
  us_highest : Forall (λ u : Usage, u.2 ≤ u.1.2 ∧ u.1.2 ≤ highest_s p) (reports p)
}.

Lemma account_usage t0 sh p :
  usage_inv t0 p →
  wp (account limits ip sh) (λ r p', ck_now (pu_clock p) ≤ ck_now (pu_clock p') ∧
    (ck_now (pu_clock p') - t0 < from_millis (2 ^ 64) → usage_inv t0 p')) p.
Proof.
  intros [Hw [H0 He] Hr Hh]. unfold account. wp_steps. simpl in *. case_match; wp_steps.
  { simpl. split; [lia|]. intros _. split; simpl; try done. lia. }
  case_decide; wp_steps; simpl in *.
  { split; [lia|]. intros _. split; simpl; try done. lia. }
  reflect_bools. rename t1 into t2. set (n := as_millis (duration_since t (tm p))) in *.
  assert (from_millis n ≤ t - tm p) as Hn.
  { assert (n ≤ n) as Hn by done. apply as_millis_ge in Hn. unfold duration_since, from_millis in *. lia. }
  assert (ck_now c0 - t0 < from_millis (2 ^ 64) → usage_inv t0 (next_window t2 n (total_s p / n)
    (set_pu_clock c0 (set_blacked (bool_decide (ip ∈ sh_blacklist sh)) (set_pu_clock c p))))) as Hnext.
  { intros Hlim. unfold from_millis in *.
    assert (usize_add (elapsed p) n = elapsed p + n) as E by (apply Z.mod_small; lia).
    split; simpl; rewrite ?E; [lia|unfold from_millis; lia| |].
    - unfold len in *. rewrite length_app. simpl. lia.
    - apply Forall_app. split; [|apply list.Forall_singleton; simpl; lia].
      eapply list.Forall_impl; [exact Hh|]. simpl. lia. }
  case_match; wp_steps; simpl in *; (split; [lia|]); intros Hl%Hnext; [|done]. by destruct Hl.
Qed.

Lemma round_usage t0 b sh p :
  usage_inv t0 p →
  wp (round stream peer limits ip b sh) (λ r p', ck_now (pu_clock p) ≤ ck_now (pu_clock p') ∧
    (ck_now (pu_clock p') - t0 < from_millis (2 ^ 64) → usage_inv t0 p')) p.
Proof.
  intros Hinv.
  assert (∀ q, tm q = tm p → elapsed q = elapsed p → reports q = reports p → highest_s q = highest_s p →
    ck_now (pu_clock p) ≤ ck_now (pu_clock q) → usage_inv t0 q) as Hsame.
  { intros q E1 E2 E3 E4 E5. destruct Hinv. split; rewrite ?E1, ?E2, ?E3, ?E4; try done. lia. }
  assert (∀ q, usage_inv t0 q → ck_now (pu_clock p) ≤ ck_now (pu_clock q) →
    wp (account limits ip sh) (λ r p', ck_now (pu_clock p) ≤ ck_now (pu_clock p') ∧
    (ck_now (pu_clock p') - t0 < from_millis (2 ^ 64) → usage_inv t0 p')) q) as Hacc.
  { intros q Hq Hle. eapply wp_mono; [|by apply (account_usage t0)]. simpl. intros r p' [? ?]. split; [lia|done]. }
  unfold round. destruct b as [from next send|]; wp_steps.
  - unfold forward. destruct (recv next) as [[x|e]|]; wp_steps; try (split; [lia|done]).
    simpl in *. destruct (is_empty x); wp_steps; [apply Hacc; [apply Hsame|]; simpl in *; done || lia|].
    destruct send; wp_steps; [apply Hacc; [apply Hsame|]; simpl in *; done || lia|].
    split; simpl in *; [lia|]. intros _. apply Hsame; simpl; done || lia.
  - unfold check_idle. wp_steps. simpl in *.
    case_match; wp_steps; [split; simpl in *; [lia|]; intros _; apply Hsame; simpl; done || lia|].
    apply Hacc; [apply Hsame|]; simpl in *; done || lia.
Qed.

Lemma loop_clock rounds p :
  ∀ o p', relay_loop stream peer limits ip rounds p = (o, p') → ck_now (pu_clock p) ≤ ck_now (pu_clock p').
Proof.
  revert p. induction rounds as [|[b sh] rounds IH]; intros p o p'; simpl; [intros [= _ <-]; lia|].
  pose proof (wp_round stream peer limits ip b sh p) as Hr. unfold wp in Hr.
  destruct (round stream peer limits ip b sh p) as [[[]|e] q]; simpl in Hr; destruct Hr as (_ & _ & _ & Hle & _).
  - intros ?%IH. lia.
  - intros [= _ <-]. done.
  - intros [= _ <-]. done.
Qed.

(** The usage a relay reports is honest while its clock spans fewer than 2^64
    milliseconds: at most one report a second, the reported time never exceeds
    the time that has passed, and no report's speed exceeds the highest speed it
    gives. *)
Theorem usage_reports_are_honest clock rounds p :
  relay stream peer limits ip clock rounds = (Running, p) →
  ck_now (pu_clock p) - ck_now clock < from_millis (2 ^ 64) →
  1000 * len (reports p) ≤ elapsed p ∧
  from_millis (elapsed p) ≤ ck_now (pu_clock p) - ck_now clock ∧
  Forall (λ u : Usage, u.2 ≤ u.1.2 ∧ u.1.2 ≤ highest_s p) (reports p).
Proof.
  intros Hrun Hlim.
  assert (usage_inv (ck_now clock) p) as [Hw [_ He] Hr Hh].
  { assert (usage_inv (ck_now clock) (pump_start clock)) as Hstart.
    { unfold pump_start. destruct (clock_read clock) as [t c] eqn:E1. destruct (clock_read c) as [t' c'] eqn:E2.
      apply clock_read_mono in E1 as [? ?], E2 as [? ?]. split; simpl; try done; unfold from_millis; lia. }
    unfold relay in Hrun. revert Hstart Hrun. generalize (pump_start clock).
    induction rounds as [|[b sh] rounds IH]; intros q Hq; simpl; [by intros [= <-]|].
    pose proof (round_usage (ck_now clock) b sh q Hq) as Hround. unfold wp in Hround.
    destruct (round stream peer limits ip b sh q) as [[[]|e] q']; [|done..]. simpl in Hround.
    intros Hrun. apply (IH q'); [|done]. apply Hround. apply loop_clock in Hrun. lia. }
  split_and!; [done|lia|done].
Qed.
End PumpTheorems.

(** *** The address the lists are asked about *)

Definition sample_limits : Limits := mkLimits (128 * 1024 * 1024) 660000.


(** An IPv4 client accepted on a dual-stack socket escapes the lists while it
    relays: the server turns it away when it connects, since that check removes
    the mapping, but the relay looks up the mapped text. Its relay runs on, at
    full speed, with its address on both lists. *)
Theorem mapped_client_escapes_lists (try_into_v4 : SocketAddr → SocketAddr) stream peer port :
  let addr := SockV6 (mkV6 0 0 0 0 0 65535 49152 513) port 0 0 in
  try_into_v4 addr = SockV4 (mkV4 192 0 2 1) port →
  let listed : gset string := {[accepted_ip try_into_v4 addr]} in
  let frame := (Received ThePeer (Some (FramedItem (Ok [1; 2; 3]))) (Ok tt), mkShared listed listed 1800000) in
  ∃ p, relay stream peer sample_limits (relay_ip addr) (mkClock 0 (replicate 20 1000000000%N)) [frame; frame] = (Running, p) ∧
    accepted_ip try_into_v4 addr = "192.0.2.1" ∧ relay_ip addr = "::ffff:192.0.2.1" ∧
    len (reports p) = 2 ∧ blacked p = false ∧ consumed p = [(Single, 24); (Total, 24); (Single, 24); (Total, 24)].
Proof.
  intros addr Hv4 listed frame.
  assert (accepted_ip try_into_v4 addr = "192.0.2.1") as Hacc by (unfold accepted_ip; by rewrite Hv4).
  assert (relay_ip addr = "::ffff:192.0.2.1") as Hip by by vm_compute.
  unfold frame, listed. rewrite Hacc, Hip.
  destruct (relay stream peer _ _ _ _) as [o p] eqn:E. exists p.
  vm_compute in E. injection E as <- <-. by vm_compute.
Qed.

Lemma mapped_client_escapes_lists_witness :
  let v4 (a : SocketAddr) := match a with SockV6 i p _ _ => match to_ipv4_mapped i with
                               | Some v => SockV4 v p | None => a end | _ => a end in
  let addr := SockV6 (mkV6 0 0 0 0 0 65535 49152 513) 40000 0 0 in
  v4 addr = SockV4 (mkV4 192 0 2 1) 40000 ∧ relay_ip addr = "::ffff:192.0.2.1".
Proof.
  set (v4 := λ a : SocketAddr, _). cbn zeta. assert (v4 (SockV6 (mkV6 0 0 0 0 0 65535 49152 513) 40000 0 0) =
    SockV4 (mkV4 192 0 2 1) 40000) as Hv4 by by vm_compute.
  split; [exact Hv4|].
  destruct (mapped_client_escapes_lists v4 (mkStream 1 false true) (mkStream 0 false true) 40000 Hv4)
    as (p & _ & _ & Hip & _).
  exact Hip.
Defined.

(** *** Concrete relays *)

Definition near : Stream := mkStream 1 true false.
Definition far : Stream := mkStream 0 false false.
Definition calm : Shared := mkShared ∅ ∅ 1800000.
Definition hello (from : Side) : Branch * Shared :=
  (Received from (Some (FramedItem (Ok [104; 105]))) (Ok tt), calm).
Definition seconds (n : nat) : Clock := mkClock 0 (replicate n 1000000000%N).
Abbreviation sample_relay := (relay near far sample_limits "192.0.2.1" (seconds 60)).
Definition talk : list (Branch * Shared) := [hello ThePeer; hello TheStream; (Tick, calm)].

Lemma relay_forwards_in_order_witness :
  let p := (sample_relay talk).2 in
  sample_relay talk = (Running, p) ∧ bytes_to TheStream (sent p) = [104; 105] ∧
  sent p = [(TheStream, BinaryPacket [104; 105]); (ThePeer, FramePacket [104; 105])].
Proof.
  assert (sample_relay talk = (Running, (sample_relay talk).2)) as E by by vm_compute.
  split; [exact E|]. split; [|by vm_compute].
  pose proof (relay_forwards_in_order near far sample_limits "192.0.2.1" (seconds 60) talk Running _ E) as H.
  cbv beta iota in H. transitivity (bytes_from (other TheStream) talk); [exact (H TheStream)|by vm_compute].
Defined.

Lemma relay_accounts_every_bit_witness :
  let p := (sample_relay talk).2 in total p = 32 ∧ amounts is_total (consumed p) = [16; 16].
Proof.
  destruct (relay_accounts_every_bit near far sample_limits "192.0.2.1" (seconds 60) talk (sample_relay talk).2)
    as (H1 & _ & H3); [by vm_compute|]. split; [rewrite H3|rewrite H1]; by vm_compute.
Defined.

(** A full second at several times the bandwidth, with the check from the start. *)
Definition flood : Branch * Shared :=
  (Received ThePeer (Some (FramedItem (Ok (replicate 100 1)))) (Ok tt), mkShared ∅ ∅ 1000).
Definition slow_limits : Limits := mkLimits 8 660000.
Abbreviation flooded := (relay near far slow_limits "192.0.2.1" (seconds 60)).

Lemma relay_downgrade_is_final_witness :
  let p := (flooded [flood]).2 in
  downgrade p = true ∧ consumed p = [(Single, 800); (Total, 800)] ∧
  downgrade (flooded ([flood] ++ talk)).2 = true.
Proof.
  split; [by vm_compute|]. split; [by vm_compute|].
  apply (relay_downgrade_is_final near far slow_limits "192.0.2.1" (seconds 60) [flood] talk
    (flooded [flood]).2 (flooded ([flood] ++ talk)).1); [by vm_compute|by vm_compute|].
  apply surjective_pairing.
Defined.

(** A frame after forty seconds, then a tick [n] seconds later. *)
Definition frame_then_tick (n : N) : Clock :=
  mkClock 0 [0%N; 0%N; 40000000000%N; 0%N; 0%N; (n * 1000000000)%N; 0%N].
Abbreviation late_relay n := (relay near far sample_limits "192.0.2.1" (frame_then_tick n)).
Lemma idle_relay_times_out_witness :
  (late_relay 32 ([hello ThePeer] ++ [(Tick, calm)])).1 = Returned (Err "Timeout") ∧
  (late_relay 5 ([hello ThePeer] ++ [(Tick, calm)])).1 ≠ Returned (Err "Timeout").
Proof.
  split.
  - apply (idle_relay_times_out near far sample_limits "192.0.2.1" (frame_then_tick 32) [hello ThePeer] calm
      (late_relay 32 [hello ThePeer]).2); by vm_compute.
  - intros Hlate%(idle_relay_times_out near far sample_limits "192.0.2.1" (frame_then_tick 5) [hello ThePeer] calm
      (late_relay 5 [hello ThePeer]).2); by vm_compute.
Defined.

Definition blocking : Shared := mkShared {["192.0.2.1"]} ∅ 1800000.
Lemma blocked_relay_returns_witness :
  ∃ r, (relay near far sample_limits "192.0.2.1" (seconds 60) ([] ++ [((hello ThePeer).1, blocking)])).1 = Returned r.
Proof.
  apply (blocked_relay_returns near far sample_limits "192.0.2.1" (seconds 60) [] (hello ThePeer).1 blocking
    (pump_start (seconds 60))); [done|by apply (bool_decide_unpack _); vm_compute|by vm_compute].
Defined.

Lemma usage_reports_are_honest_witness :
  let p := (sample_relay talk).2 in
  1000 * len (reports p) ≤ elapsed p ∧ from_millis (elapsed p) ≤ ck_now (pu_clock p) ∧ len (reports p) = 3.
Proof.
  destruct (usage_reports_are_honest near far sample_limits "192.0.2.1" (seconds 60) talk (sample_relay talk).2)
    as (H1 & H2 & _); [by vm_compute|by vm_compute|].
  split; [exact H1|]. split; [|by vm_compute]. by rewrite Z.sub_0_r in H2.
Defined.
