(* ===== verification/RelayServer.v ===== *)
(** The relay as a whole ([src/relay.rs]; [start_with_bind], [io_loop] and
    [handle_connection] of [src/relay_server.rs]).

    A [Whole] puts the parts together: the tasks and tables of [RelayPairing], the
    settings and the console of [RelaySettings], one [Pump] of [RelayPump] for
    every relay under way, the listeners, and the shared limiters.  [io_loop] makes
    a new limiter each time it is entered; a connection keeps the one it was
    accepted with.  [step] runs one event; which events happen, and what arrives
    with them, is the environment's choice.  A console command and the beginning of
    a relay are several events, one for each access to the shared settings, so that
    anything can happen in between.  The projections show that nothing happens to a
    part but what its own file describes. *)

From Stdlib Require Import Ascii String SpecFloat.
From S2P Require Import Prelude.
From S2P Require Import Text.
From S2P Require Import Net.
From S2P Require Import Messages.
From S2P Require Import Float64.
From S2P Require Import FileSystem.
From S2P Require Import Config.
From S2P Require Import Listen.
From S2P Require Import KeyStore.
From S2P Require Import RelayStream.
From S2P Require Import RelaySettings.
From S2P Require Import RelayPairing.
From S2P Require Import RelayPump.

(** ** Data *)

Record RelayListeners := mkRelayListeners {
  listener : Bound; listener2 : Bound; listener_console : option SocketAddr
}.

(** A relay under way: what [relay] read when it began ([pg_slow] is the speed of
    its slow limiter), and the state of its loop. *)
Record Pumping := mkPumping { pg_limits : Limits; pg_slow : Z; pg_ip : string; pg_pump : Pump }.

(** A relay that has entered [USAGE] and is about to load its settings: its clock,
    its address, and what it has loaded. *)
Inductive Opening := LoadSingle | LoadLimit (single : Z) | LoadThreshold (single limit : Z).
Record Beginning := mkBeginning { bg_clock : Clock; bg_ip : string; bg_opening : Opening }.

(** What does not change after the start. *)
Record Setup := mkSetup {
  su_bind : option IpAddr; su_port : Z; su_context : RelayContext; su_max_connections : Z
}.

(** [wh_limiters] are the speeds of all limiters made so far, the current one last;
    [wh_held] is the one a connection holds; [wh_consoles] are the commands under
    way, [wh_beginnings] the relays that have not loaded all their settings;
    [wh_answers] is what the console has written to each of its connections. *)
Record Whole := mkWhole {
  wh_relay : Relay;
  wh_tuning : Tuning;
  wh_blacklist : gset string;
  wh_limiters : list f64;
  wh_held : gmap N nat;
  wh_consoles : gmap N ConsolePc;
  wh_beginnings : gmap N Beginning;
  wh_pumps : gmap N Pumping;
  wh_listeners : RelayListeners;
  wh_answers : list (N * string)
}.

Definition with_relay (s : Relay) (w : Whole) : Whole :=
  mkWhole s (wh_tuning w) (wh_blacklist w) (wh_limiters w) (wh_held w) (wh_consoles w) (wh_beginnings w)
    (wh_pumps w) (wh_listeners w) (wh_answers w).
Definition with_pumps (m : gmap N Pumping) (w : Whole) : Whole :=
  mkWhole (wh_relay w) (wh_tuning w) (wh_blacklist w) (wh_limiters w) (wh_held w) (wh_consoles w) (wh_beginnings w)
    m (wh_listeners w) (wh_answers w).
Definition with_held (m : gmap N nat) (w : Whole) : Whole :=
  mkWhole (wh_relay w) (wh_tuning w) (wh_blacklist w) (wh_limiters w) m (wh_consoles w) (wh_beginnings w)
    (wh_pumps w) (wh_listeners w) (wh_answers w).
Definition with_consoles (m : gmap N ConsolePc) (w : Whole) : Whole :=
  mkWhole (wh_relay w) (wh_tuning w) (wh_blacklist w) (wh_limiters w) (wh_held w) m (wh_beginnings w)
    (wh_pumps w) (wh_listeners w) (wh_answers w).
Definition with_beginnings (m : gmap N Beginning) (w : Whole) : Whole :=
  mkWhole (wh_relay w) (wh_tuning w) (wh_blacklist w) (wh_limiters w) (wh_held w) (wh_consoles w) m
    (wh_pumps w) (wh_listeners w) (wh_answers w).
Definition with_answers (l : list (N * string)) (w : Whole) : Whole :=
  mkWhole (wh_relay w) (wh_tuning w) (wh_blacklist w) (wh_limiters w) (wh_held w) (wh_consoles w) (wh_beginnings w)
    (wh_pumps w) (wh_listeners w) l.

(** [addr] is the client's; [input] is what the console read, if it read in time. *)
Inductive Event :=
  | NewConnection (addr : SocketAddr) (ws : bool)
  | NewOnConsole (addr : SocketAddr)
  | ListenerFailed
  | Command (c : N) (input : option bytes)
  | ConsoleAccess (c : N)
  | UpgradeDone (c : N) (headers : option Headers)
  | FirstMessage (c : N) (r : option (option Item))
  | SleepEnds (c : N)
  | RelayBegins (c : N) (clock : Clock)
  | RelayLoads (c : N)
  | Round (c : N) (branch : Branch)
  | RelayEnds (c : N).

(** ** Operations *)

Section Whole.
Context `{So : !Sockets}.
Context (parse_from_bytes : bytes → option RendezvousMessage) (try_into_v4 : SocketAddr → SocketAddr).
Context (show_f64 show_f64_2 : f64 → string).
Context (setup : Setup).
Implicit Types w : Whole.

(** One step of one part. *)
Definition perform (a : Action) w : Whole :=
  match act parse_from_bytes try_into_v4 (su_context setup) a (wh_relay w) with
  | Some s => with_relay s w
  | None => w
  end.

(** [handle_connection] with a clone of the context; the limiter goes with it (the
    number of a refused connection is never used again). *)
Definition connection (addr : SocketAddr) (ws : bool) w : Whole :=
  let c := next_conn (wh_relay w) in
  with_held (<[c := pred (length (wh_limiters w))]> (wh_held w)) (perform (Accept addr ws) w).

(** *** The console *)

Definition limiter_of (c : N) w : nat := default 0%nat (wh_held w !! c).

(** What a command reads and what it writes; it never writes [USAGE]. *)
Definition console_view (c : N) w : RelayState :=
  mkRelayState (wh_tuning w) (wh_blacklist w) (RelayPairing.BLOCKLIST (wh_relay w))
    (RelayPairing.USAGE (wh_relay w)) (default (f64_of 0) (wh_limiters w !! limiter_of c w)).
Definition console_store (c : N) (s : RelayState) w : Whole :=
  perform (Blocked (RelaySettings.BLOCKLIST s))
    (mkWhole (wh_relay w) (rc_tuning s) (RelaySettings.BLACKLIST s)
       (<[limiter_of c w := rc_limiter s]> (wh_limiters w)) (wh_held w) (wh_consoles w) (wh_beginnings w)
       (wh_pumps w) (wh_listeners w) (wh_answers w)).

(** The console's task has read its input, or given up. *)
Definition command (c : N) (input : option bytes) w : Whole :=
  match tasks (wh_relay w) !! c, wh_consoles w !! c with
  | Some Console, None =>
      match input ≫= (λ buffer, utf8_of (take 1024 buffer)) with
      | Some data => with_consoles (<[c := Typed data]> (wh_consoles w)) w
      | None => perform (ConsoleClosed c) w
      end
  | _, _ => w
  end.

Definition command_access (c : N) (pc : ConsolePc) w : Whole :=
  let '(pc, s) := console_next show_f64 show_f64_2 pc (console_view c w) in
  with_consoles (<[c := pc]> (wh_consoles w)) (console_store c s w).

(** One access of its command; when that has its answer, the task writes it and
    ends. *)
Definition console_access (c : N) w : Whole :=
  match tasks (wh_relay w) !! c, wh_consoles w !! c with
  | Some Console, Some (Answer res) =>
      perform (ConsoleClosed c)
        (with_answers (wh_answers w ++ [(c, res)]) (with_consoles (delete c (wh_consoles w)) w))
  | Some Console, Some pc => command_access c pc w
  | _, _ => w
  end.

(** *** Relays *)

(** The entry of the new relay. *)
Definition relay_begins (c : N) (clock : Clock) w : Whole :=
  match tasks (wh_relay w) !! c with
  | Some (Paired _ _ addr _) =>
      with_beginnings (<[c := mkBeginning clock (relay_ip addr) LoadSingle]> (wh_beginnings w))
        (perform (UsageInserted c) w)
  | _ => w
  end.

(** [relay] loads one of its settings; after the last one its loop begins.  (It
    reads its clock before the first load and after the last one: the two readings
    of [pump_start].) *)
Definition relay_loads (c : N) w : Whole :=
  let t := wh_tuning w in
  match wh_beginnings w !! c with
  | Some (mkBeginning clock ip opening) =>
      match opening with
      | LoadSingle =>
          with_beginnings (<[c := mkBeginning clock ip (LoadLimit (SINGLE_BANDWIDTH t))]> (wh_beginnings w)) w
      | LoadLimit single =>
          with_beginnings (<[c := mkBeginning clock ip (LoadThreshold single (LIMIT_SPEED t))]> (wh_beginnings w)) w
      | LoadThreshold single limit =>
          let g := mkPumping (mkLimits single (DOWNGRADE_THRESHOLD_SCALED t)) limit ip (pump_start clock) in
          with_pumps (<[c := g]> (wh_pumps w)) (with_beginnings (delete c (wh_beginnings w)) w)
      end
  | None => w
  end.

Definition shared w : Shared :=
  mkShared (RelayPairing.BLOCKLIST (wh_relay w)) (wh_blacklist w) (DOWNGRADE_START_CHECK (wh_tuning w)).

(** The report a round has added. *)
Definition new_report (p p' : Pump) : option Usage :=
  if len (reports p) <? len (reports p') then list.last (reports p') else None.

Definition relay_round (c : N) (branch : Branch) w : Whole :=
  match tasks (wh_relay w) !! c, wh_pumps w !! c with
  | Some (Relaying stream pending _ _), Some g =>
      match round stream pending (pg_limits g) (pg_ip g) branch (shared w) (pg_pump g) with
      | (Ok true, p) =>
          let w := with_pumps (<[c := mkPumping (pg_limits g) (pg_slow g) (pg_ip g) p]> (wh_pumps w)) w in
          match new_report (pg_pump g) p with Some u => perform (Report c u) w | None => w end
      | _ => perform (RelayReturned c) (with_pumps (delete c (wh_pumps w)) w)
      end
  | _, _ => w
  end.

(** *** The loop *)

Definition open_relay_listeners (bind_addr : option IpAddr) (port : Z) (runtime_console : bool)
    : result RelayListeners :=
  l ← listen_tcp bind_addr port;
  l2 ← listen_tcp bind_addr (port + 2);
  c ← (if runtime_console then listen_console bind_addr port else Ok None);
  Ok (mkRelayListeners l l2 c).

(** [io_loop] broke off: [main_task] listens anew and enters it again, which makes
    a new limiter. *)
Definition restart w : result Whole :=
  ls ← open_relay_listeners (su_bind setup) (su_port setup) (rx_runtime_console (su_context setup));
  Ok (mkWhole (wh_relay w) (wh_tuning w) (wh_blacklist w)
        (wh_limiters w ++ [f64_of (TOTAL_BANDWIDTH (wh_tuning w))]) (wh_held w) (wh_consoles w) (wh_beginnings w)
        (wh_pumps w) ls (wh_answers w)).

(** An error ends the server. *)
Definition step (e : Event) w : result Whole :=
  match e with
  | NewConnection addr ws => Ok (connection addr ws w)
  | NewOnConsole addr =>
      match accept_or_pending (λ _, Some (Ok addr)) (listener_console (wh_listeners w)) with
      | Some (Ok addr) => Ok (connection addr false w)
      | _ => Ok w
      end
  | ListenerFailed => restart w
  | Command c input => Ok (command c input w)
  | ConsoleAccess c => Ok (console_access c w)
  | UpgradeDone c headers => Ok (perform (Upgraded c headers) w)
  | FirstMessage c r => Ok (perform (FirstFrame c r) w)
  | SleepEnds c => Ok (perform (SleepOver c) w)
  | RelayBegins c clock => Ok (relay_begins c clock w)
  | RelayLoads c => Ok (relay_loads c w)
  | Round c branch => Ok (relay_round c branch w)
  | RelayEnds c => Ok (perform (UsageRemoved c) w)
  end.

Fixpoint run_events (es : list Event) w : result Whole :=
  match es with [] => Ok w | e :: es => w ← step e w; run_events es w end.

(** [main_task] and [listen_signal], whichever ends first: the relay as it
    stands, or how it ended. *)
Fixpoint run_until (es : list (Event + Signal)) w : Whole + result unit :=
  match es with
  | [] => inl w
  | inl e :: es => match step e w with Ok w => run_until es w | Err err => inr (Err err) end
  | inr s :: es => match listen_signal s with Some res => inr res | None => run_until es w end
  end.
End Whole.

(** *** The start *)

Section Start.
Context `{So : !Sockets} `{P : !Platform} `{K : !KeyLibrary} `{I : !IniLibrary}.

(** The first entry into [io_loop]. *)
Definition first_loop (bind_addr : option IpAddr) (trust_proxy_headers : bool) (x : RelayConfig * RelayState)
    : result (Setup * Whole) :=
  let '(config, s) := x in
  ls ← open_relay_listeners bind_addr (rg_port config) (rg_console config);
  Ok (mkSetup bind_addr (rg_port config)
        (mkRelayContext (rg_key config) trust_proxy_headers (rg_console config)) (rg_max_connections config),
      mkWhole (set_blocked (RelaySettings.BLOCKLIST s) (relay_start (rg_max_connections config)))
        (rc_tuning s) (RelaySettings.BLACKLIST s) [rc_limiter s] ∅ ∅ ∅ ∅ ls []).

(** [main] of [src/relay.rs]. *)
Definition relay_main (fuel : nat) (relay_port : Z) (m : Matches) : M Process (Setup * Whole) :=
  load_arg_file_if_present (path_of ".env");;
  e ← gets pr_env;
  rs ← lift (relay_settings relay_port m e);
  x ← start_relay fuel (rl_port rs) (rl_key rs);
  lift (first_loop (rl_bind rs) (rl_trust_proxy_headers rs) x).
End Start.

(** ** Projections *)

(** The relays under way, as the tasks know them. *)
Definition relaying_task (t : Task) : option (Stream * Stream * string * string) :=
  match t with Relaying st p id u => Some (st, p, id, u) | _ => None end.
Definition relaying (s : Relay) : gmap N (Stream * Stream * string * string) := omap relaying_task (tasks s).

(** The branches taken by the relay of connection [c]. *)
Definition rounds_of (c : N) (es : list Event) : list Branch :=
  omap (λ e, match e with Round c' b => if decide (c' = c) then Some b else None | _ => None end) es.

Section Projections.
Context `{So : !Sockets}.
Context (parse_from_bytes : bytes → option RendezvousMessage) (try_into_v4 : SocketAddr → SocketAddr).
Context (show_f64 show_f64_2 : f64 → string).
Context (setup : Setup).
Implicit Types (w : Whole) (s : Relay) (es : list Event).
Abbreviation perform := (perform parse_from_bytes try_into_v4 setup).
Abbreviation step := (step parse_from_bytes try_into_v4 show_f64 show_f64_2 setup).
Abbreviation run_events := (run_events parse_from_bytes try_into_v4 show_f64 show_f64_2 setup).
Abbreviation run_actions := (run_actions parse_from_bytes try_into_v4 (su_context setup)).
Abbreviation act := (act parse_from_bytes try_into_v4 (su_context setup)).

Lemma run_events_snoc es e w : run_events (es ++ [e]) w = (w' ← run_events es w; step e w').
Proof.
  revert w. induction es as [|x es IH]; intros w; simpl; [by destruct (step e w)|].
  by destruct (step x w); simpl; [rewrite IH|].
Qed.

(** How the relay stands after [es]: where its events took it, ended by a
    signal, or by a listener that could not be bound again. *)
Definition stands_after (es : list (Event + Signal)) w (x : Whole + result unit) : Prop :=
  match x with
  | inl w' => run_events (omap (λ e, match e with inl e => Some e | inr _ => None end) es) w = Ok w'
  | inr (Ok _) => ∃ sg : Signal, inr sg ∈ es ∧ listen_signal sg = Some (Ok tt)
  | inr (Err err) => inl ListenerFailed ∈ es ∧ ∃ w', restart setup w' = Err err
  end.

Lemma step_error e w err : step e w = Err err → e = ListenerFailed ∧ restart setup w = Err err.
Proof. destruct e; simpl; try done. by destruct (listener_console _). Qed.

(** The relay runs its events until a signal ends it; without one it ends only
    when a listener failed and none could be bound in its place. *)
Theorem relay_runs_until_signalled (es : list (Event + Signal)) w :
  stands_after es w (run_until parse_from_bytes try_into_v4 show_f64 show_f64_2 setup es w).
Proof.
  revert w. induction es as [|[e|sg] es IH]; intros w; simpl; [done|..].
  - destruct (step e w) as [w'|err] eqn:Hstep.
    + specialize (IH w'). destruct (run_until _ _ _ _ _ es w') as [w2|[u|err]]; simpl in *.
      * by rewrite Hstep.
      * destruct IH as (sg & ? & ?). exists sg. split; [by right|done].
      * destruct IH as (? & ?). split; [by right|done].
    + apply step_error in Hstep as [-> Hrestart]. split; [by left|]. by exists w.
  - specialize (IH w). destruct sg; simpl; try (eexists; split; [by left|done]).
    destruct (run_until _ _ _ _ _ es w) as [w2|[u|err]]; simpl in *; [done| |].
    + destruct IH as (sg & ? & ?). exists sg. split; [by right|done].
    + destruct IH as (? & ?). split; [by right|done].
Qed.

(** *** The tasks and tables *)

(** The tables went from those of [w] to those of [w'] by at most [n] actions, all
    in [A]. *)
Definition moves (A : Action → Prop) (n : Z) w w' : Prop :=
  ∃ acts, len acts ≤ n ∧ Forall A acts ∧ run_actions acts (wh_relay w) = Some (wh_relay w').

Lemma run_actions_app l l' s : run_actions (l ++ l') s = (s' ← run_actions l s; run_actions l' s').
Proof.
  revert s. induction l as [|a l IH]; intros s; [done|]. simpl. by destruct (act a s); simpl; [rewrite IH|].
Qed.

Lemma moves_same A n w w' : 0 ≤ n → wh_relay w' = wh_relay w → moves A n w w'.
Proof. intros Hn E. exists []. rewrite E. by split_and!. Qed.
Lemma moves_perform (A : Action → Prop) a w w0 : A a → wh_relay w0 = wh_relay w → moves A 1 w (perform a w0).
Proof.
  intros Ha E. unfold perform. rewrite E. destruct (act a (wh_relay w)) as [s|] eqn:Hact.
  - exists [a]. simpl. rewrite Hact. split_and!; [done|by repeat constructor|done].
  - by apply moves_same.
Qed.
Lemma moves_relay A n w w1 w2 : wh_relay w2 = wh_relay w1 → moves A n w w1 → moves A n w w2.
Proof. intros E (l & Hl & HA & Hr). exists l. by rewrite E. Qed.
Lemma moves_trans A n n' w w' w'' : moves A n w w' → moves A n' w' w'' → moves A (n + n') w w''.
Proof.
  intros (l & Hl & HA & E) (l' & Hl' & HA' & E'). exists (l ++ l'). split_and!.
  - unfold len in *. rewrite length_app. lia.
  - by apply Forall_app.
  - by rewrite run_actions_app, E.
Qed.
Lemma moves_mono (A A' : Action → Prop) n n' w w' :
  (∀ a, A a → A' a) → n ≤ n' → moves A n w w' → moves A' n' w w'.
Proof. intros HA Hn (l & Hl & Hall & E). exists l. split_and!; [lia|by eapply list.Forall_impl|done]. Qed.

(** A first frame comes from the event that brought it. *)
Definition caused es (a : Action) : Prop := ∀ c r, a = FirstFrame c r → FirstMessage c r ∈ es.

Lemma step_moves e w w' : step e w = Ok w' → moves (caused [e]) 2 w w'.
Proof.
  assert (∀ a w0, caused [e] a → wh_relay w0 = wh_relay w → moves (caused [e]) 2 w (perform a w0)) as Hone.
  { intros a w0 Ha E. eapply moves_mono; [done| |by apply moves_perform]. lia. }
  assert (∀ addr ws, moves (caused [e]) 2 w (connection parse_from_bytes try_into_v4 setup addr ws w)) as Hconn.
  { intros addr ws. destruct (Hone (Accept addr ws) w) as (l & Hl & HA & E); [done..|]. by exists l. }
  destruct e as [addr ws|addr| |c input|c|c headers|c r|c|c clock|c|c branch|c]; simpl.
  - intros [= <-]. apply Hconn.
  - destruct (listener_console _); simpl; intros [= <-]; [apply Hconn|by apply moves_same].
  - unfold restart. intros (ls & _ & [= <-])%result_bind_ok. by apply moves_same.
  - intros [= <-]. unfold command. destruct (tasks _ !! c) as [[]|]; try by apply moves_same.
    destruct (wh_consoles w !! c); [by apply moves_same|].
    destruct (_ ≫= _); [by apply moves_same|by apply Hone].
  - intros [= <-]. unfold console_access. destruct (tasks _ !! c) as [[]|]; try by apply moves_same.
    destruct (wh_consoles w !! c) as [pc|]; [|by apply moves_same].
    destruct pc; try by apply Hone.
    all: unfold command_access; destruct (console_next _ _ _ _) as [pc' s].
    all: by apply (moves_relay _ _ _ (console_store parse_from_bytes try_into_v4 setup c s w)); [|apply Hone].
  - intros [= <-]. by apply Hone.
  - intros [= <-]. apply Hone; [|done]. intros c' r' [= -> ->]. by apply list_elem_of_singleton.
  - intros [= <-]. by apply Hone.
  - intros [= <-]. unfold relay_begins. destruct (tasks _ !! c) as [[]|]; try by apply moves_same.
    destruct (Hone (UsageInserted c) w) as (l & Hl & HA & E); [done..|]. by exists l.
  - intros [= <-]. unfold relay_loads. destruct (wh_beginnings w !! c) as [[clock ip []]|]; by apply moves_same.
  - intros [= <-]. unfold relay_round. destruct (tasks _ !! c) as [[]|]; try by apply moves_same.
    destruct (wh_pumps w !! c) as [g|]; [|by apply moves_same].
    destruct (round _ _ _ _ _ _ _) as [[[]|] p]; try by apply Hone.
    cbn zeta. destruct (new_report _ _); [by apply Hone|by apply moves_same].
  - intros [= <-]. by apply Hone.
Qed.

Lemma run_moves es w w' : run_events es w = Ok w' → moves (caused es) (2 * len es) w w'.
Proof.
  revert w'. induction es as [|e es IH] using rev_ind; intros w'.
  { intros [= <-]. by apply moves_same. }
  rewrite run_events_snoc. intros (w0 & H0 & He)%result_bind_ok.
  assert (2 * len (es ++ [e]) = 2 * len es + 2) as -> by (unfold len; rewrite length_app; simpl; lia).
  eapply moves_trans.
  - eapply moves_mono; [|done|by apply IH]. intros a Ha c r E. apply elem_of_app. left. by apply Ha.
  - eapply moves_mono; [|done|by apply step_moves]. intros a Ha c r E. apply elem_of_app. right. by apply Ha.
Qed.

(** *** The relays *)

Lemma relaying_proceed c t s :
  relaying (proceed c t s) =
  match relaying_task t with Some x => <[c:=x]> (relaying s) | None => delete c (relaying s) end.
Proof. unfold relaying, proceed. simpl. rewrite omap_insert. by destruct (relaying_task t). Qed.
Lemma relaying_finish c s : relaying (finish c s) = delete c (relaying s).
Proof. unfold relaying, finish. simpl. by rewrite omap_delete. Qed.
Lemma relaying_lookup c s : relaying s !! c = tasks s !! c ≫= relaying_task.
Proof. apply lookup_omap. Qed.

(** Only two actions begin or end a relay. *)
Lemma act_relaying a s s' :
  (∀ c t, tasks s !! c = Some t → (c < next_conn s)%N) → act a s = Some s' →
  match a with
  | UsageInserted c => ∃ st p addr u st' p', tasks s !! c = Some (Paired st p addr u) ∧
      relaying s' = <[c := (st', p', usage_id addr, u)]> (relaying s)
  | RelayReturned c => relaying s' = delete c (relaying s)
  | _ => relaying s' = relaying s
  end.
Proof.
  intros Hnew Hact.
  assert (∀ c, relaying s !! c = None → delete c (relaying s) = relaying s) as Hid by (intros; by apply delete_id).
  destruct a; simpl in Hact; repeat case_match; simplify_eq; try done;
    try (rewrite relaying_finish; apply Hid; rewrite relaying_lookup; by simplify_option_eq).
  - assert (relaying s !! next_conn s = None) as Hn.
    { rewrite relaying_lookup. destruct (tasks s !! next_conn s) eqn:E; [|done]. apply Hnew in E. lia. }
    unfold handle_connection. cbn zeta. simpl. repeat case_match; try done; rewrite relaying_proceed; simpl;
      repeat case_match; by apply Hid.
  - unfold upgrade. destruct headers; [rewrite relaying_proceed|rewrite relaying_finish]; apply Hid;
      rewrite relaying_lookup; by simplify_option_eq.
  - assert (relaying s !! c = None) as Hn by (rewrite relaying_lookup; by simplify_option_eq).
    unfold make_pair_, meet. repeat case_match; rewrite ?relaying_finish, ?relaying_proceed; by apply Hid.
  - assert (relaying s !! c = None) as Hn by (rewrite relaying_lookup; by simplify_option_eq).
    rewrite relaying_finish. unfold remove_pending_if_generation. repeat case_match; by apply Hid.
  - unfold begin_relay. case_match; rewrite relaying_proceed; simpl; by eexists _, _, _, _, _, _.
  - by rewrite relaying_proceed.
Qed.

Lemma act_new a s s' :
  act a s = Some s' → (∀ c t, tasks s !! c = Some t → (c < next_conn s)%N) →
  (next_conn s ≤ next_conn s')%N ∧ ∀ c t, tasks s' !! c = Some t → (c < next_conn s')%N.
Proof.
  intros Hact Hnew.
  assert (∀ c t, is_Some (tasks s !! c) → (∀ c' t', <[c:=t]> (tasks s) !! c' = Some t' → (c' < next_conn s)%N)) as Hput.
  { intros c t [t0 Hc] c' t' [[<- _]|[_ ?]]%lookup_insert_Some; eauto. }
  assert (∀ c, (∀ c' t', delete c (tasks s) !! c' = Some t' → (c' < next_conn s)%N)) as Hdel.
  { intros c c' t' [_ ?]%lookup_delete_Some; eauto. }
  destruct a; simpl in Hact; repeat case_match; simplify_eq.
  - unfold handle_connection. cbn zeta. simpl.
    assert (∀ c t, tasks s !! c = Some t → (c < N.succ (next_conn s))%N) as Hsucc by (intros c t ?%Hnew; lia).
    repeat case_match; simpl; (split; [lia|]); try exact Hsucc;
      (intros c t [[<- _]|[_ ?]]%lookup_insert_Some; [lia|by eapply Hsucc]).
  - unfold upgrade. case_match; simpl; (split; [done|]); [by apply Hput|apply Hdel].
  - unfold make_pair_, meet. repeat case_match; simpl; (split; [done|]); first [by apply Hput|apply Hdel].
  - unfold remove_pending_if_generation. repeat case_match; simpl; (split; [done|]); apply Hdel.
  - unfold begin_relay. repeat case_match; simpl; (split; [done|]); by apply Hput.
  - by split.
  - simpl. split; [done|]. by apply Hput.
  - simpl. split; [done|]. apply Hdel.
  - simpl. split; [done|]. apply Hdel.
  - by split.
Qed.
End Projections.

(** ** Invariant *)

Section Invariant.
Context `{So : !Sockets}.
Context (parse_from_bytes : bytes → option RendezvousMessage) (try_into_v4 : SocketAddr → SocketAddr).
Context (show_f64 show_f64_2 : f64 → string).
Context (setup : Setup).
Implicit Types (w : Whole) (s : Relay) (es : list Event) (g : Pumping).
Abbreviation perform := (perform parse_from_bytes try_into_v4 setup).
Abbreviation step := (step parse_from_bytes try_into_v4 show_f64 show_f64_2 setup).
Abbreviation run_events := (run_events parse_from_bytes try_into_v4 show_f64 show_f64_2 setup).
Abbreviation act := (act parse_from_bytes try_into_v4 (su_context setup)).

(** What the settings of a relay under way are within. *)
Definition settings_ok g : Prop :=
  bandwidth (lm_single (pg_limits g)) ∧ 1 ≤ lm_threshold (pg_limits g) ≤ usize_max ∧ bandwidth (pg_slow g).
Definition opening_ok (o : Opening) : Prop :=
  match o with
  | LoadSingle => True
  | LoadLimit single => bandwidth single
  | LoadThreshold single limit => bandwidth single ∧ bandwidth limit
  end.

(** [ok] is what is known of each relay under way; [calm] that no listener has
    failed. *)
Record whole_wf (ok : N → Stream → Stream → Pumping → Prop) (calm : Prop) w : Prop := {
  ww_tuning : tuning_ranges (wh_tuning w);
  ww_blacklist : list_wf (wh_blacklist w);
  ww_blocklist : list_wf (RelayPairing.BLOCKLIST (wh_relay w));
  ww_new : ∀ c t, tasks (wh_relay w) !! c = Some t → (c < next_conn (wh_relay w))%N;
  ww_dom : ∀ c, is_Some (wh_pumps w !! c) ∨ is_Some (wh_beginnings w !! c) ↔ is_Some (relaying (wh_relay w) !! c);
  ww_apart : ∀ c, is_Some (wh_beginnings w !! c) → wh_pumps w !! c = None;
  ww_settings : ∀ c g, wh_pumps w !! c = Some g → settings_ok g;
  ww_pumps : ∀ c g st p id u, wh_pumps w !! c = Some g →
    relaying (wh_relay w) !! c = Some (st, p, id, u) → ok c st p g;
  ww_consoles : ∀ c pc, wh_consoles w !! c = Some pc → pc_ranges pc;
  ww_beginnings : ∀ c b, wh_beginnings w !! c = Some b → opening_ok (bg_opening b);
  ww_some : (0 < length (wh_limiters w))%nat;
  ww_speeds : Forall (λ x, ∃ n, bandwidth n ∧ x = f64_of n) (wh_limiters w);
  ww_calm : calm → length (wh_limiters w) = 1%nat
}.

Lemma whole_wf_ext ok ok' (calm calm' : Prop) w :
  (∀ c st p g, wh_pumps w !! c = Some g → ok c st p g → ok' c st p g) → (calm' → calm) →
  whole_wf ok calm w → whole_wf ok' calm' w.
Proof.
  intros Hok Hc [W1 W2 W3 W4 W5 W6 W7 W8 W9 W10 W11 W12 W13]. split; try done; [|auto].
  intros c g st p id u Hg Hr. eapply Hok; [done|]. by eapply W8.
Qed.

(** A change to nothing but the tables' own parts. *)
Lemma wf_consoles ok calm m w :
  (∀ c pc, m !! c = Some pc → pc_ranges pc) → whole_wf ok calm w → whole_wf ok calm (with_consoles m w).
Proof. intros Hm [W1 W2 W3 W4 W5 W6 W7 W8 W9 W10 W11 W12 W13]. by split. Qed.
Lemma wf_answers ok calm l w : whole_wf ok calm w → whole_wf ok calm (with_answers l w).
Proof. intros [W1 W2 W3 W4 W5 W6 W7 W8 W9 W10 W11 W12 W13]. by split. Qed.

(** An action that neither begins nor ends a relay. *)
Definition steady (a : Action) : bool :=
  match a with UsageInserted _ | RelayReturned _ => false | _ => true end.
(** The block list changes by [Blocked] only. *)
Lemma act_blocklist a s s' :
  act a s = Some s' → list_wf (RelayPairing.BLOCKLIST s) → (∀ l, a = Blocked l → list_wf l) →
  list_wf (RelayPairing.BLOCKLIST s').
Proof.
  intros Hact Hl Hb. destruct a; simpl in Hact; repeat case_match; simplify_eq; try done.
  - unfold handle_connection. cbn zeta. by repeat case_match.
  - unfold upgrade. by case_match.
  - unfold make_pair_, meet. by repeat case_match.
  - unfold remove_pending_if_generation. by repeat case_match.
  - unfold begin_relay. by case_match.
  - by apply Hb.
Qed.

Lemma wf_perform ok calm a w :
  whole_wf ok calm w → steady a = true → (∀ l, a = Blocked l → list_wf l) → whole_wf ok calm (perform a w).
Proof.
  intros Hwf Ha Hb. unfold perform. destruct (act a (wh_relay w)) as [s'|] eqn:Hact; [|done].
  pose proof Hwf as [W1 W2 W3 W4 W5 W6 W7 W8 W9 W10 W11 W12 W13].
  pose proof (act_relaying _ _ _ a _ s' W4 Hact) as Hrel.
  assert (relaying s' = relaying (wh_relay w)) as Hsame by (by destruct a).
  split; simpl; rewrite ?Hsame; try done.
  - by eapply act_blocklist.
  - by eapply act_new.
Qed.

Lemma wf_connection ok calm addr ws w :
  whole_wf ok calm w → whole_wf ok calm (connection parse_from_bytes try_into_v4 setup addr ws w).
Proof.
  intros Hwf. apply (wf_perform ok calm (Accept addr ws)) in Hwf as [W1 W2 W3 W4 W5 W6 W7 W8 W9 W10 W11 W12 W13];
    [|done..]. by split.
Qed.

(** *** The console *)

Lemma console_view_ranges ok calm c w : whole_wf ok calm w → relay_ranges (console_view c w).
Proof.
  intros [W1 W2 W3 W4 W5 W6 W7 W8 W9 W10 W11 W12 W13]. split; simpl; try done.
  destruct (wh_limiters w !! _) as [x|] eqn:Hx; simpl.
  - by apply (proj1 (Forall_lookup _ _) W12 _ _ Hx).
  - exists 0. split; [by vm_compute|done].
Qed.

Lemma wf_console_store ok calm c (s : RelayState) w :
  whole_wf ok calm w → relay_ranges s →
  whole_wf ok calm (console_store parse_from_bytes try_into_v4 setup c s w).
Proof.
  intros [W1 W2 W3 W4 W5 W6 W7 W8 W9 W10 W11 W12 W13] [R1 R2 R3 R4].
  apply wf_perform; [|done|by intros l [= <-]]. split; simpl; try done; rewrite ?length_insert; try done.
  by apply Forall_insert.
Qed.

Lemma wf_command ok calm c input w :
  whole_wf ok calm w → whole_wf ok calm (command parse_from_bytes try_into_v4 setup c input w).
Proof.
  intros Hwf. unfold command. destruct (tasks _ !! c) as [[]|]; try done.
  destruct (wh_consoles w !! c); [done|]. destruct (_ ≫= _); [|by apply wf_perform].
  apply wf_consoles; [|done]. intros c' pc [[_ <-]|[_ Hpc]]%lookup_insert_Some; [done|by eapply ww_consoles].
Qed.

Lemma wf_command_access ok calm c pc w :
  whole_wf ok calm w → pc_ranges pc →
  whole_wf ok calm (command_access parse_from_bytes try_into_v4 show_f64 show_f64_2 setup c pc w).
Proof.
  intros Hwf Hpc. unfold command_access.
  pose proof (console_next_ranges show_f64 show_f64_2 pc _ (console_view_ranges _ _ c w Hwf) Hpc) as [Hs Hpc'].
  destruct (console_next _ _ _ _) as [pc' s]. apply wf_consoles; [|by apply wf_console_store].
  intros c' pc0 [[_ <-]|[_ Hc']]%lookup_insert_Some; [done|by eapply ww_consoles].
Qed.

Lemma wf_console_access ok calm c w :
  whole_wf ok calm w →
  whole_wf ok calm (console_access parse_from_bytes try_into_v4 show_f64 show_f64_2 setup c w).
Proof.
  intros Hwf. unfold console_access. destruct (tasks _ !! c) as [[]|]; try done.
  destruct (wh_consoles w !! c) as [pc|] eqn:Hpc; [|done]. pose proof (ww_consoles _ _ _ Hwf _ _ Hpc).
  destruct pc; try by apply wf_command_access. apply wf_perform; [|done..]. apply wf_answers, wf_consoles; [|done].
  intros c' pc0 [_ Hc']%lookup_delete_Some. by eapply ww_consoles.
Qed.

Lemma wf_restart ok (calm calm' : Prop) w w' :
  whole_wf ok calm w → restart setup w = Ok w' → (calm' → False) → whole_wf ok calm' w'.
Proof.
  intros [W1 W2 W3 W4 W5 W6 W7 W8 W9 W10 W11 W12 W13] Hr Hno. apply result_bind_ok in Hr as (ls & _ & [= <-]).
  split; simpl; try done; rewrite ?length_app; simpl; [lia|].
  apply Forall_app. split; [done|]. apply list.Forall_singleton. eexists. split; [exact (tw_total _ W1)|done].
Qed.

(** *** The beginning of a relay *)

Lemma wf_begins ok calm c clock w :
  whole_wf ok calm w → whole_wf ok calm (relay_begins parse_from_bytes try_into_v4 setup c clock w).
Proof.
  intros Hwf. unfold relay_begins. destruct (tasks _ !! c) as [[]|] eqn:Hc; try done.
  pose proof Hwf as [W1 W2 W3 W4 W5 W6 W7 W8 W9 W10 W11 W12 W13]. unfold perform.
  destruct (act (UsageInserted c) (wh_relay w)) as [s'|] eqn:Hact.
  2:{ simpl in Hact. by rewrite Hc in Hact. }
  destruct (act_relaying _ _ _ (UsageInserted c) _ s' W4 Hact) as (st & p & addr' & u & st' & p' & _ & Hrel).
  assert (wh_pumps w !! c = None) as Hnone.
  { apply eq_None_not_Some. intros Hp. assert (is_Some (relaying (wh_relay w) !! c)) as [? Hr] by by apply W5; left.
    by rewrite relaying_lookup, Hc in Hr. }
  split; simpl; rewrite ?Hrel; try done.
  - by eapply act_blocklist.
  - by eapply act_new.
  - intros c'. destruct (decide (c' = c)) as [->|Hne].
    + rewrite !lookup_insert_eq. split; [by eexists|by right; eexists].
    + rewrite !lookup_insert_ne by done. apply W5.
  - intros c' [b [[<- _]|[_ Hb]]%lookup_insert_Some]; [done|]. apply W6. by eexists.
  - intros c' g st0 p0 id0 u0 Hg. assert (c ≠ c') by congruence. rewrite lookup_insert_ne by done. by apply W8.
  - intros c' b [[_ <-]|[_ Hb]]%lookup_insert_Some; [done|by eapply W10].
Qed.

(** A load: [ok'] has to be shown of the relay whose loop it starts. *)
Lemma wf_loads ok ok' calm c w :
  whole_wf ok calm w → (∀ c' st p g, wh_pumps w !! c' = Some g → ok c' st p g → ok' c' st p g) →
  (∀ st p clock limits slow ip, let g := mkPumping limits slow ip (pump_start clock) in
     wh_pumps w !! c = None → wh_pumps (relay_loads c w) !! c = Some g → ok' c st p g) →
  whole_wf ok' calm (relay_loads c w).
Proof.
  intros Hwf Hext Hnew. pose proof Hwf as [W1 W2 W3 W4 W5 W6 W7 W8 W9 W10 W11 W12 W13].
  unfold relay_loads in *. destruct (wh_beginnings w !! c) as [[clock ip o]|] eqn:Hb; [|by eapply whole_wf_ext].
  assert (wh_pumps w !! c = None) as Hnone by (apply W6; by eexists).
  pose proof (W10 _ _ Hb) as Ho. pose proof W1 as [T1 T2 T3 T4 T5].
  assert (∀ o', opening_ok o' → whole_wf ok' calm
    (with_beginnings (<[c := mkBeginning clock ip o']> (wh_beginnings w)) w)) as Hload.
  { intros o' Ho'. apply (whole_wf_ext _ ok' _ calm) in Hwf as [_ _ _ _ _ _ _ H8 _ _ _ _ _]; [|done..].
    split; simpl; try done.
    - intros c'. rewrite <-W5. destruct (decide (c' = c)) as [->|Hne]; [|by rewrite lookup_insert_ne].
      rewrite lookup_insert_eq, Hb. split; intros [?|?]; eauto.
    - intros c' [b [[<- _]|[_ Hc']]%lookup_insert_Some]; [done|]. apply W6. by eexists.
    - intros c' b [[_ <-]|[_ Hc']]%lookup_insert_Some; [done|by eapply W10]. }
  destruct o as [|single|single limit]; simpl in Ho; [by apply Hload..|]. destruct Ho as [Ho1 Ho2].
  split; simpl; try done.
  - intros c'. rewrite <-W5. destruct (decide (c' = c)) as [->|Hne].
    + rewrite lookup_insert_eq, Hb. split; intros _; [right; by eexists|left; by eexists].
    + by rewrite lookup_insert_ne, lookup_delete_ne.
  - intros c' [b [Hne Hc']%lookup_delete_Some]. rewrite lookup_insert_ne by done. apply W6. by eexists.
  - intros c' g [[_ <-]|[_ Hg]]%lookup_insert_Some; [split; [exact Ho1|by split]|by eapply W7].
  - intros c' g st p id u [[<- <-]|[Hne Hg]]%lookup_insert_Some Hr.
    + apply Hnew; [done|]. simpl. by rewrite lookup_insert_eq.
    + eapply Hext; [done|by eapply W8].
  - intros c' b [_ Hc']%lookup_delete_Some. by eapply W10.
Qed.

(** *** The rounds *)

(** Every other relay stays as it is. *)
Lemma wf_round ok ok' calm c b w :
  whole_wf ok calm w → (∀ c' st p g, c' ≠ c → wh_pumps w !! c' = Some g → ok c' st p g → ok' c' st p g) →
  (∀ st p g p', wh_pumps w !! c = Some g → ok c st p g →
     round st p (pg_limits g) (pg_ip g) b (shared w) (pg_pump g) = (Ok true, p') →
     ok' c st p (mkPumping (pg_limits g) (pg_slow g) (pg_ip g) p')) →
  whole_wf ok' calm (relay_round parse_from_bytes try_into_v4 setup c b w).
Proof.
  intros Hwf Hother Hround'. pose proof Hwf as [W1 W2 W3 W4 W5 W6 W7 W8 W9 W10 W11 W12 W13].
  assert (wh_pumps w !! c = None → whole_wf ok' calm w) as Hidle.
  { intros Hn. eapply whole_wf_ext; [|done|done]. intros c' st p g Hg. apply Hother; [|done]. intros ->. congruence. }
  unfold relay_round. destruct (tasks (wh_relay w) !! c) as [t|] eqn:Ht.
  2:{ apply Hidle. apply eq_None_not_Some. intros Hp. assert (is_Some (relaying (wh_relay w) !! c)) as [? Hr]
        by by apply W5; left. by rewrite relaying_lookup, Ht in Hr. }
  assert (relaying_task t = None → wh_pumps w !! c = None) as Hnot.
  { intros E. apply eq_None_not_Some. intros Hp. assert (is_Some (relaying (wh_relay w) !! c)) as [? Hr]
      by by apply W5; left. rewrite relaying_lookup, Ht in Hr. simpl in Hr. congruence. }
  destruct t as [| | | | |st p id u|]; try by apply Hidle, Hnot.
  destruct (wh_pumps w !! c) as [g|] eqn:Hg; [|by apply Hidle].
  assert (relaying (wh_relay w) !! c = Some (st, p, id, u)) as Hr by (by rewrite relaying_lookup, Ht).
  assert (wh_beginnings w !! c = None) as Hb.
  { apply eq_None_not_Some. intros Hb%W6. congruence. }
  pose proof (W8 _ _ _ _ _ _ Hg Hr) as Hok.
  assert (whole_wf ok' calm (perform (RelayReturned c) (with_pumps (delete c (wh_pumps w)) w))) as Hend.
  { unfold perform. simpl. rewrite Ht. split; simpl; rewrite ?relaying_proceed; simpl; try done.
    - intros c' t' [[<- _]|[_ ?]]%lookup_insert_Some; eauto.
    - intros c'. destruct (decide (c' = c)) as [->|Hne];
        [rewrite !lookup_delete_eq, Hb; split; [intros [[]|[]]|intros []]; done
        |rewrite !lookup_delete_ne by done; apply W5].
    - intros c' Hc'. rewrite lookup_delete_None. right. by apply W6.
    - intros c' g' [_ Hg']%lookup_delete_Some. by eapply W7.
    - intros c' g' st' p' id' u' [Hne Hg']%lookup_delete_Some. rewrite lookup_delete_ne by done.
      intros Hr'. apply Hother; [done..|]. by eapply W8. }
  destruct (round _ _ _ _ _ _ _) as [[[]|e] p'] eqn:Hround; [|exact Hend..].
  set (g' := mkPumping _ _ _ p'). cbn zeta.
  assert (whole_wf ok' calm (with_pumps (<[c:=g']> (wh_pumps w)) w)) as Hgo.
  { split; simpl; try done.
    - intros c'. rewrite <-W5. destruct (decide (c' = c)) as [->|Hne]; [|by rewrite lookup_insert_ne].
      rewrite lookup_insert_eq, Hg. split; intros _; left; by eexists.
    - intros c' Hc'. assert (c ≠ c') by (intros ->; apply W6 in Hc'; congruence).
      rewrite lookup_insert_ne by done. by apply W6.
    - intros c' g0 [[<- <-]|[_ Hg']]%lookup_insert_Some; [exact (W7 _ _ Hg)|by eapply W7].
    - intros c' g0 st' p0 id' u' [[<- <-]|[Hne Hg']]%lookup_insert_Some Hr'.
      + rewrite Hr in Hr'. injection Hr' as <- <- _ _. by apply Hround'.
      + apply Hother; [done..|]. by eapply W8. }
  destruct (new_report _ _); [by apply wf_perform|exact Hgo].
Qed.

Lemma rounds_of_snoc c es e :
  rounds_of c (es ++ [e]) = rounds_of c es ++ match e with Round c' b => if decide (c' = c) then [b] else [] | _ => [] end.
Proof.
  unfold rounds_of. rewrite omap_app. f_equal. destruct e; simpl; try done. by case_decide.
Qed.

(** *** The history of a relay *)

(** After [es], the next load of connection [c] starts the loop of its relay. *)
Definition opens_after w0 es c : Prop :=
  ∃ w w', run_events es w0 = Ok w ∧ wh_pumps w !! c = None ∧
    step (RelayLoads c) w = Ok w' ∧ is_Some (wh_pumps w' !! c).

(** [g] is a run of [relay] between the two streams, and its rounds are those its
    connection was given since its loop began: every one, and no other. *)
Definition run_of w0 es c (st p : Stream) g : Prop :=
  ∃ es1 es2 clock rounds, es = es1 ++ RelayLoads c :: es2 ∧ opens_after w0 es1 c ∧
    relay st p (pg_limits g) (pg_ip g) clock rounds = (Running, pg_pump g) ∧ rounds.*1 = rounds_of c es2.

Lemma run_of_other w0 es e c st p g :
  (∀ b, e ≠ Round c b) → run_of w0 es c st p g → run_of w0 (es ++ [e]) c st p g.
Proof.
  intros He (es1 & es2 & clock & rounds & -> & Hopen & Hrun & Hrounds).
  exists es1, (es2 ++ [e]), clock, rounds. rewrite <-app_assoc. split_and!; [done..|].
  rewrite rounds_of_snoc, Hrounds. destruct e; rewrite ?app_nil_r; try done.
  rewrite decide_False by (intros ->; by destruct (He branch)). by rewrite app_nil_r.
Qed.

Lemma run_of_round w0 es c b st p g sh p' :
  run_of w0 es c st p g → round st p (pg_limits g) (pg_ip g) b sh (pg_pump g) = (Ok true, p') →
  run_of w0 (es ++ [Round c b]) c st p (mkPumping (pg_limits g) (pg_slow g) (pg_ip g) p').
Proof.
  intros (es1 & es2 & clock & rounds & -> & Hopen & Hrun & Hrounds) Hround.
  exists es1, (es2 ++ [Round c b]), clock, (rounds ++ [(b, sh)]). rewrite <-app_assoc. split_and!; [done..| |].
  - unfold relay in *. cbn [pg_limits pg_ip pg_pump]. rewrite loop_app, Hrun. simpl. by rewrite Hround.
  - rewrite fmap_app, Hrounds, rounds_of_snoc. simpl. by rewrite decide_True.
Qed.

Lemma run_of_opens w0 es w c st p clock limits slow ip :
  let g := mkPumping limits slow ip (pump_start clock) in
  run_events es w0 = Ok w → wh_pumps w !! c = None → wh_pumps (relay_loads c w) !! c = Some g →
  run_of w0 (es ++ [RelayLoads c]) c st p g.
Proof.
  intros g Hrun Hnone Hg. exists es, [], clock, []. split_and!; [done| |done|done].
  exists w, (relay_loads c w). split_and!; [done..|]. by eexists.
Qed.

Abbreviation wf w0 es := (whole_wf (run_of w0 es%list) (ListenerFailed ∉ es%list)).

Lemma wf_event w0 es e w w' :
  run_events es w0 = Ok w → wf w0 es w → step e w = Ok w' → wf w0 (es ++ [e]) w'.
Proof.
  intros Hrun Hwf Hstep.
  assert (ListenerFailed ∉ es ++ [e] → ListenerFailed ∉ es) as Hcalm by (rewrite elem_of_app; tauto).
  assert (∀ w1, (∀ c b, e ≠ Round c b) → wf w0 es w1 → wf w0 (es ++ [e]) w1) as Hext.
  { intros w1 He. apply whole_wf_ext; [|done]. intros c st p g _. by apply run_of_other. }
  destruct e as [addr ws|addr| |c input|c|c headers|c r|c|c clock|c|c branch|c]; simpl in Hstep.
  - injection Hstep as <-. by apply Hext, wf_connection.
  - destruct (listener_console _); simpl in Hstep; injection Hstep as <-; apply Hext; [done|by apply wf_connection|done|done].
  - eapply wf_restart; [by apply (Hext w)|done|]. intros Hn. apply Hn, elem_of_app. right. by apply list_elem_of_singleton.
  - injection Hstep as <-. by apply Hext, wf_command.
  - injection Hstep as <-. by apply Hext, wf_console_access.
  - injection Hstep as <-. by apply Hext, wf_perform.
  - injection Hstep as <-. by apply Hext, wf_perform.
  - injection Hstep as <-. by apply Hext, wf_perform.
  - injection Hstep as <-. by apply Hext, wf_begins.
  - injection Hstep as <-. eapply whole_wf_ext; [done|exact Hcalm|]. apply (wf_loads (run_of w0 es)); [done|..].
    + intros c' st p g _. by apply run_of_other.
    + intros st p clock limits slow ip g. by apply run_of_opens.
  - injection Hstep as <-. eapply whole_wf_ext; [done|exact Hcalm|]. apply (wf_round (run_of w0 es)); [done|..].
    + intros c' st p g Hne _. apply run_of_other. intros b [= ->]. done.
    + intros st p g p' _. by apply run_of_round.
  - injection Hstep as <-. by apply Hext, wf_perform.
Qed.

Lemma run_wf es w w' : wf w [] w → run_events es w = Ok w' → wf w es w'.
Proof.
  intros Hwf. revert w'. induction es as [|e es IH] using rev_ind; intros w'; [by intros [= <-]|].
  rewrite run_events_snoc. intros (w1 & H1 & He)%result_bind_ok. by eapply wf_event; [..|apply IH|].
Qed.
End Invariant.

(** ** Theorems *)

Section RelayTheorems.
Context `{So : !Sockets} `{P : !Platform} `{K : !KeyLibrary} `{I : !IniLibrary}.
Context (parse_from_bytes : bytes → option RendezvousMessage) (try_into_v4 : SocketAddr → SocketAddr).
Context (show_f64 show_f64_2 : f64 → string).
Implicit Types (w : Whole) (es : list Event).
Abbreviation run_events setup := (run_events parse_from_bytes try_into_v4 show_f64 show_f64_2 setup).
Abbreviation step setup := (step parse_from_bytes try_into_v4 show_f64 show_f64_2 setup).

(** What the start guarantees. *)
Record started_ok (setup : Setup) w : Prop := {
  so_wf : whole_wf (λ _ _ _ _, False) True w;
  so_max : 64 ≤ su_max_connections setup ≤ 65536;
  so_relay : ∃ l, wh_relay w = set_blocked l (relay_start (su_max_connections setup))
}.

Lemma main_started fuel relay_port m st setup w st' :
  relay_main fuel relay_port m st = (Ok (setup, w), st') → started_ok setup w.
Proof.
  intros Hrun. assert (succeeds (relay_main fuel relay_port m) (λ x _, started_ok x.1 x.2) st) as Hs.
  { apply succeeds_bind. eapply succeeds_mono; [|apply succeeds_any]. intros _ st1 _.
    apply succeeds_bind, wp_gets, succeeds_bind, succeeds_lift. intros rs _.
    apply succeeds_bind. eapply succeeds_mono; [|apply start_relay_started].
    intros [config s] st2 ([[R1 R2 R3 R4] _ _] & _ & _ & Hmax). simpl in *. apply succeeds_lift.
    intros [setup' w'] (ls & _ & [= <- <-])%result_bind_ok.
    assert (∀ c, tasks (relay_start (rg_max_connections config)) !! c = None) as Hempty by (intros; apply lookup_empty).
    split; [|done|by eexists]. split; simpl; try done; intros *; rewrite ?lookup_empty; try done.
    - rewrite relaying_lookup. simpl. rewrite lookup_empty. split; [intros [[]|[]]|intros []]; done.
    - lia.
    - by apply list.Forall_singleton. }
  unfold succeeds, wp in Hs. by rewrite Hrun in Hs.
Qed.

(** A running server, seen from its parts. *)
Lemma reachable setup w es w' :
  started_ok setup w → run_events setup es w = Ok w' →
  whole_wf (run_of parse_from_bytes try_into_v4 show_f64 show_f64_2 setup w es) (ListenerFailed ∉ es) w' ∧
  ∃ acts, len acts ≤ 2 * len es + 1 ∧ Forall (caused es) acts ∧
    run_actions parse_from_bytes try_into_v4 (su_context setup) acts (relay_start (su_max_connections setup)) =
      Some (wh_relay w').
Proof.
  intros [Hwf _ [l Hl]] Hrun. split.
  - eapply run_wf, Hrun. by eapply whole_wf_ext, Hwf.
  - apply run_moves in Hrun as (acts & Hlen & Hall & Hacts). exists (Blocked l :: acts). split_and!.
    + unfold len in *. simpl. lia.
    + by constructor.
    + simpl. by rewrite <-Hl.
Qed.

(** The task and the run behind a relay under way. *)
Lemma relay_under_way setup w es w' c g :
  started_ok setup w → run_events setup es w = Ok w' → wh_pumps w' !! c = Some g →
  ∃ stream pending id u, tasks (wh_relay w') !! c = Some (Relaying stream pending id u) ∧
    run_of parse_from_bytes try_into_v4 show_f64 show_f64_2 setup w es c stream pending g.
Proof.
  intros Hstart Hrun Hg. destruct (reachable _ _ _ _ Hstart Hrun) as [Hwf _].
  assert (is_Some (relaying (wh_relay w') !! c)) as [[[[stream pending] id] u] Hr].
  { apply (ww_dom _ _ _ Hwf). left. by eexists. }
  pose proof (ww_pumps _ _ _ Hwf _ _ _ _ _ _ Hg Hr). exists stream, pending, id, u. split; [|done].
  rewrite relaying_lookup in Hr. destruct (tasks _ !! c) as [[]|]; try done. by injection Hr as -> -> -> ->.
Qed.

(** Connection [c] asked for [u], with an accepted key. *)
Definition asked setup es (c : N) (u : string) : Prop :=
  ∃ r rf, FirstMessage c r ∈ es ∧ first_message parse_from_bytes r = Some rf ∧
    authorised (su_context setup) rf = true ∧ wellformed rf = true ∧ rf_uuid rf = u.

Lemma requested_asked setup es acts c u :
  Forall (caused es) acts → requested parse_from_bytes (su_context setup) acts c u → asked setup es c u.
Proof.
  intros Hall (r & rf & Hin & Hrf). exists r, rf. split; [|done].
  rewrite list.Forall_forall in Hall. by eapply Hall.
Qed.

(** The bytes of the frames that a side has given these rounds. *)
Definition bytes_of (side : Side) (branches : list Branch) : bytes :=
  concat ((λ b, match arrived b with
                | Some (from, x) => if decide (from = side) then x else []
                | None => []
                end) <$> branches).

Lemma bytes_of_rounds side (rounds : list (Branch * Shared)) : bytes_from side rounds = bytes_of side rounds.*1.
Proof. unfold bytes_of. by rewrite <-list_fmap_compose. Qed.

(** C9: The relay forwards everything and nothing else, from its command line to
    the bytes: a relay under way between two connections has sent to each of the
    two exactly the bytes of all frames the other has given it since its loop
    began, unmodified and in order, and both connections had asked for the same
    UUID with an accepted key. *)
Theorem relay_joins_and_forwards fuel relay_port m st setup w st' es w' c g :
  relay_main fuel relay_port m st = (Ok (setup, w), st') →
  run_events setup es w = Ok w' → 2 * len es + 2 < 2 ^ 64 - 1 → wh_pumps w' !! c = Some g →
  ∃ stream pending id u es1 es2,
    tasks (wh_relay w') !! c = Some (Relaying stream pending id u) ∧
    es = es1 ++ RelayLoads c :: es2 ∧
    opens_after parse_from_bytes try_into_v4 show_f64 show_f64_2 setup w es1 c ∧
    (∀ side, bytes_to side (sent (pg_pump g)) = bytes_of (other side) (rounds_of c es2)) ∧
    st_conn stream = c ∧ st_conn pending ≠ c ∧ asked setup es c u ∧ asked setup es (st_conn pending) u.
Proof.
  intros Hstart%main_started Hrun Hlen Hg. pose proof (so_max _ _ Hstart).
  destruct (relay_under_way _ _ _ _ _ _ Hstart Hrun Hg)
    as (stream & pending & id & u & Ht & es1 & es2 & clock & rounds & Hes & Hopen & Hrelay & Hrounds).
  destruct (reachable _ _ _ _ Hstart Hrun) as [_ (acts & Hacts & Hall & Hpair)].
  apply run_inv in Hpair; [|lia..].
  destruct (pi_pairs _ _ _ _ _ Hpair _ _ _ _ _ Ht eq_refl) as (H1 & H2 & _ & H3 & H4 & _).
  exists stream, pending, id, u, es1, es2. split_and!; try done; [|by eapply requested_asked..].
  intros side. by rewrite (pm_sent _ _ _ _ (relay_running _ _ _ _ _ _ _ Hrelay)), bytes_forwarded,
    bytes_of_rounds, Hrounds.
Qed.

(** C21: The relay serves within its settings: however clients connect, relay and
    disappear, and however the accesses of the consoles' commands come between
    those of the relays that start, at most the configured number of tasks and of
    relays run, at most twice as many sockets are open, the tables keep their
    bounds, every setting, and every setting a relay has loaded, stays in its
    range, all limiters run at a bandwidth, and as long as no listener fails there
    is one shared limiter. *)
Theorem relay_serves_within_bounds fuel relay_port m st setup w st' es w' :
  relay_main fuel relay_port m st = (Ok (setup, w), st') →
  run_events setup es w = Ok w' → 2 * len es + 2 < 2 ^ 64 - 1 →
  let s := wh_relay w' in
  mlen (tasks s) ≤ su_max_connections setup ≤ 65536 ∧ mlen (wh_pumps w') ≤ mlen (tasks s) ∧
  connection_slots s = su_max_connections setup - mlen (tasks s) ∧
  mlen (PEERS s) ≤ MAX_PENDING_RELAYS ∧ (∀ ip, pending_for_ip ip (PEERS s) ≤ MAX_PENDING_RELAYS_PER_IP) ∧
  open_sockets s ≤ 2 * su_max_connections setup ∧
  tuning_ranges (wh_tuning w') ∧ list_wf (wh_blacklist w') ∧ list_wf (RelayPairing.BLOCKLIST s) ∧
  (∀ c g, wh_pumps w' !! c = Some g → settings_ok g) ∧
  Forall (λ x, ∃ n, bandwidth n ∧ x = f64_of n) (wh_limiters w') ∧
  (ListenerFailed ∉ es → length (wh_limiters w') = 1%nat).
Proof.
  intros Hstart%main_started Hrun Hlen s. pose proof (so_max _ _ Hstart).
  destruct (reachable _ _ _ _ Hstart Hrun) as [Hwf (acts & Hacts & _ & Hpair)].
  apply relay_stays_within_bounds in Hpair as (? & ? & ? & ? & ?); [|lia..].
  assert (mlen (wh_pumps w') ≤ mlen (tasks s)) as Hpumps.
  { unfold mlen. rewrite <-!size_dom. apply inj_le, subseteq_size. intros c Hc%elem_of_dom.
    assert (is_Some (relaying (wh_relay w') !! c)) as [? Hr] by (by apply (ww_dom _ _ _ Hwf); left).
    rewrite relaying_lookup in Hr. apply elem_of_dom.
    unfold s. destruct (tasks _ !! c); [by eexists|done]. }
  unfold s in *. destruct Hwf. split_and!; try done; lia.
Qed.

(** C28: Blocking an address is effective at once: once the text under which a
    relay looks itself up is on the block list, the first round of that relay that
    looks at its window a second or more after the last report is its last one,
    whatever the round brings, and the task then ends and gives its permit back.
    (The text is that of the client's address; for a mapped IPv4 client it is not
    the one it was accepted under: [mapped_client_escapes_lists].) *)
Theorem blocked_relay_ends fuel relay_port m st setup w st' es w' c g b :
  relay_main fuel relay_port m st = (Ok (setup, w), st') →
  run_events setup es w = Ok w' → wh_pumps w' !! c = Some g →
  pg_ip g ∈ RelayPairing.BLOCKLIST (wh_relay w') →
  tm (pg_pump g) + from_millis 1000 ≤ window_reading (pg_pump g) →
  ∃ w'', run_events setup [Round c b; RelayEnds c] w' = Ok w'' ∧ wh_pumps w'' !! c = None ∧
    tasks (wh_relay w'') !! c = None ∧ connection_slots (wh_relay w'') = connection_slots (wh_relay w') + 1.
Proof.
  intros Hstart%main_started Hrun Hg Hin Hlate.
  destruct (relay_under_way _ _ _ _ _ _ Hstart Hrun Hg)
    as (stream & pending & id & u & Ht & es1 & es2 & clock & rounds & _ & _ & Hrelay & _).
  destruct (blocked_relay_returns stream pending (pg_limits g) (pg_ip g) clock rounds b (shared w') _ Hrelay)
    as [r Hr]; [done..|].
  unfold relay in *. rewrite loop_app, Hrelay in Hr. simpl in Hr.
  simpl. unfold relay_round. rewrite Ht, Hg.
  destruct (round _ _ _ _ b _ _) as [[[]|e] p]; simpl in Hr; [done|..]; eexists;
    (split; [reflexivity|]); unfold perform; simpl; rewrite Ht; simpl; rewrite lookup_insert_eq; simpl;
    by rewrite !lookup_delete_eq.
Qed.
End RelayTheorems.

(** ** Concrete runs *)

(** A relay started with the console enabled, on an empty disk. *)
Definition relay_process : Process :=
  mkProcess (mkSys ∅ ∅ ∅ 0 0 0) {["CAMELLIA_REMOTE_ENABLE_RUNTIME_CONSOLE" := "Y"]}.
Definition relay_command_line : Matches := mkMatches [("port", "21117"); ("key", sample_relay_key)].
Abbreviation sample_main :=
  (relay_main (So := sample_sockets) (P := sample_platform) (K := sample_keys) (I := sample_ini) 1 21117
     relay_command_line relay_process).

(** A frame is a request for the UUID that is its text, with the server's key. *)
Definition keyed_parse (key : string) (b : bytes) : option RendezvousMessage :=
  Some (Some (MRequestRelay (mkRequestRelay "" (of_codes b) [] "" key "" "" None None [] []))).

Definition greeting (from : Side) : Branch := Received from (Some (FramedItem (Ok [104; 105]))) (Ok tt).
Definition relay_clock : Clock := mkClock 0 (replicate 20 1000000000%N).
Definition sample_relaying : list Event :=
  [NewConnection (sample_client 1) false; NewConnection (sample_client 2) false;
   FirstMessage 0 (sample_request "session-1"); FirstMessage 1 (sample_request "session-1");
   RelayBegins 1 relay_clock; RelayLoads 1; RelayLoads 1; RelayLoads 1; Round 1 (greeting ThePeer)].

(** The sample server after some events. *)
Definition sample_after (es : list Event) : option (Setup * Whole) :=
  match sample_main.1 with
  | Ok (setup, w) =>
      w' ← result_ok (run_events (So := sample_sockets) (keyed_parse (rx_key (su_context setup))) id no_text no_text setup es w);
      Some (setup, w')
  | Err _ => None
  end.

(** A failed listener splits the total bandwidth: the relays that run keep the
    limiter of the loop that ended, new connections get another one, and the
    console reaches only its own. Here the operator lowers the total to 1 Mbit/s,
    and the relay that was running still shares a limiter of 1024 Mbit/s. *)
Theorem restart_splits_bandwidth :
  ∃ setup w, sample_after (sample_relaying ++ [ListenerFailed; NewConnection (SockV4 LOCALHOST_V4 9) false;
                             Command 2 (Some (codes "tb 1")); ConsoleAccess 2; ConsoleAccess 2; ConsoleAccess 2]) =
      Some (setup, w) ∧
    wh_limiters w = [f64_of (1024 * 1024 * 1024); f64_of (1024 * 1024)] ∧ wh_held w !! 1%N = Some 0%nat ∧
    is_Some (wh_pumps w !! 1%N) ∧ TOTAL_BANDWIDTH (wh_tuning w) = 1024 * 1024.
Proof.
  destruct (sample_after _) as [[setup w]|] eqn:E; [|by vm_compute in E]. exists setup, w. split; [done|].
  vm_compute in E. injection E as _ <-. split_and!; try (by vm_compute). apply (bool_decide_unpack _). by vm_compute.
Qed.

(** A relay can load two bounds that were never in force together: the operator
    raises both, one command after the other, between its two loads, and its slow
    limiter, for blacklisted and downgraded clients, is then the faster one. *)
Definition console_command (c : N) (text : string) : list Event :=
  [NewConnection (SockV4 LOCALHOST_V4 9) false; Command c (Some (codes text));
   ConsoleAccess c; ConsoleAccess c; ConsoleAccess c].
Theorem loads_can_cross :
  ∃ setup w g, sample_after (take 4 sample_relaying ++ console_command 2 "sb 40" ++ [RelayBegins 1 relay_clock; RelayLoads 1]
      ++ console_command 3 "sb 128" ++ console_command 4 "ls 100" ++ [RelayLoads 1; RelayLoads 1]) = Some (setup, w) ∧
    LIMIT_SPEED (wh_tuning w) ≤ SINGLE_BANDWIDTH (wh_tuning w) ∧ wh_pumps w !! 1%N = Some g ∧
    lm_single (pg_limits g) = 40 * 1048576 ∧ pg_slow g = 100 * 1048576.
Proof.
  destruct (sample_after _) as [[setup w]|] eqn:E; [|by vm_compute in E].
  destruct (wh_pumps w !! 1%N) as [g|] eqn:Hg; vm_compute in E; injection E as _ <-; vm_compute in Hg; [|done].
  injection Hg as <-. eexists _, _, _. split; [reflexivity|]. by vm_compute.
Qed.

Abbreviation sample_parser setup := (keyed_parse (rx_key (su_context setup))).

Lemma sample_reached es setup w' :
  sample_after es = Some (setup, w') →
  ∃ w st', sample_main = (Ok (setup, w), st') ∧
    run_events (So := sample_sockets) (sample_parser setup) id no_text no_text setup es w = Ok w'.
Proof.
  unfold sample_after. destruct sample_main as [[[setup' w]|e] st']; simpl; [|done].
  destruct (run_events _ _ _ _ _ es w) as [w''|] eqn:Hrun; [|done]. intros [= <- <-]. by exists w, st'.
Qed.

Lemma relay_joins_and_forwards_witness :
  ∃ setup w g, sample_after sample_relaying = Some (setup, w) ∧ wh_pumps w !! 1%N = Some g ∧
    bytes_to TheStream (sent (pg_pump g)) = [104; 105] ∧
    asked (sample_parser setup) setup sample_relaying 1 "session-1" ∧
    asked (sample_parser setup) setup sample_relaying 0 "session-1".
Proof.
  assert ((x ← sample_after sample_relaying; g ← wh_pumps x.2 !! 1%N;
    Some (bytes_to TheStream (sent (pg_pump g)), tasks (wh_relay x.2) !! 1%N)) =
    Some ([104; 105], Some (Relaying (mkStream 1 false true) (mkStream 0 false true) "192.0.2.1:2" "session-1")))
    as Hvalue by by vm_compute.
  destruct (sample_after sample_relaying) as [[setup w]|] eqn:Hafter; [|done].
  destruct (sample_reached _ _ _ Hafter) as (w0 & st' & Hmain & Hrun).
  cbn in Hvalue. destruct (wh_pumps w !! 1%N) as [g|] eqn:Hg; [|done]. injection Hvalue as Hbytes Htask.
  destruct (relay_joins_and_forwards _ _ _ _ _ _ _ _ _ _ _ _ _ 1%N g Hmain Hrun)
    as (stream & pending & id' & u & es1 & es2 & Ht & _ & _ & _ & _ & _ & H1 & H0); [by vm_compute|done|].
  rewrite Htask in Ht. injection Ht as <- <- <- <-. exists setup, w, g. by split_and!.
Defined.

Lemma relay_serves_within_bounds_witness :
  ∃ setup w, sample_after sample_relaying = Some (setup, w) ∧ mlen (wh_pumps w) = 1 ∧
    mlen (tasks (wh_relay w)) ≤ su_max_connections setup ≤ 65536 ∧ length (wh_limiters w) = 1%nat.
Proof.
  assert ((λ x, mlen (wh_pumps x.2)) <$> sample_after sample_relaying = Some 1) as Hvalue by by vm_compute.
  destruct (sample_after sample_relaying) as [[setup w]|] eqn:Hafter; [|done].
  destruct (sample_reached _ _ _ Hafter) as (w0 & st' & Hmain & Hrun). injection Hvalue as Hone.
  destruct (relay_serves_within_bounds _ _ _ _ _ _ _ _ _ _ _ _ _ Hmain Hrun)
    as (Htasks & _ & _ & _ & _ & _ & _ & _ & _ & _ & _ & Hcalm); [by vm_compute|].
  exists setup, w. split; [reflexivity|]. split; [exact Hone|]. split; [exact Htasks|].
  apply Hcalm. intros Hin. repeat (apply elem_of_cons in Hin as [?|Hin]; [discriminate|]).
  by apply elem_of_nil in Hin.
Defined.

(** The operator blocks the address of the second client while it relays, after its
    first round. *)
Definition sample_blocking : list Event :=
  sample_relaying ++ [NewConnection (SockV4 LOCALHOST_V4 9) false; Command 2 (Some (codes "Ba 192.0.2.1"));
    ConsoleAccess 2; ConsoleAccess 2].

Lemma blocked_relay_ends_witness :
  ∃ setup w w', sample_after sample_blocking = Some (setup, w) ∧
    run_events (So := sample_sockets) (sample_parser setup) id no_text no_text setup
      [Round 1 (greeting ThePeer); RelayEnds 1] w = Ok w' ∧
    wh_pumps w' !! 1%N = None ∧ tasks (wh_relay w') !! 1%N = None.
Proof.
  assert ((x ← sample_after sample_blocking; g ← wh_pumps x.2 !! 1%N;
    Some (bool_decide (pg_ip g ∈ RelayPairing.BLOCKLIST (wh_relay x.2)),
          tm (pg_pump g) + from_millis 1000 <=? window_reading (pg_pump g))) = Some (true, true))
    as Hvalue by by vm_compute.
  destruct (sample_after sample_blocking) as [[setup w]|] eqn:Hafter; [|done].
  destruct (sample_reached _ _ _ Hafter) as (w0 & st' & Hmain & Hrun).
  cbn in Hvalue. destruct (wh_pumps w !! 1%N) as [g|] eqn:Hg; [|done]. injection Hvalue as Hin Hlate.
  destruct (blocked_relay_ends _ _ _ _ _ _ _ _ _ _ _ _ _ 1%N g (greeting ThePeer) Hmain Hrun Hg)
    as (w' & Hend & Hp & Ht & _); [by apply bool_decide_eq_true in Hin|by apply Z.leb_le|].
  exists setup, w, w'. by split_and!.
Defined.
