(* ===== verification/Handshake.v ===== *)
(** The key exchange of a rendezvous connection ([src/rendezvous_server.rs]:
    [attempt_handshake] over TCP, [attempt_handshake_ws] over WebSocket).

    The server signs a fresh public key and sends it; the client answers with its
    own and the session key, sealed for the server's.  The crypto library and the
    framed stream are parameters.  What a handshake does is a function of the key
    pair it draws and of what arrives; the messages it sends are part of the
    result. *)

From Stdlib Require Import String.
From S2P Require Import Prelude.
From S2P Require Import Messages.
From S2P Require Import RelayStream.

(** ** Interfaces *)

(** [sign::sign], [box_::open], [PublicKey::from_slice], the lengths; the
    client's side ([box_::seal]) appears in the laws only. *)
Class BoxLibrary := {
  BOX_PUBLICKEYBYTES : Z;
  NONCEBYTES : Z;
  KEYBYTES : Z;
  sign : bytes → bytes → bytes;
  box_public_from_slice : bytes → option bytes;
  box_open : bytes → bytes → bytes → bytes → option bytes;
  box_seal : bytes → bytes → bytes → bytes → bytes;
  box_pair : bytes → bytes → Prop
}.

(** What is sealed for a key pair opens with it; the bytes of a public key are a
    public key; a key has [BOX_PUBLICKEYBYTES] bytes. *)
Class BoxLaws (B : BoxLibrary) : Prop := {
  box_opens : ∀ m n pk sk pk' sk', box_pair pk sk → box_pair pk' sk' →
    box_open (box_seal m n pk sk') n pk' sk = Some m;
  box_slice : ∀ pk sk, box_pair pk sk → len pk = BOX_PUBLICKEYBYTES ∧ box_public_from_slice pk = Some pk
}.

(** [FramedStream::set_key] and [is_secured]. *)
Class FramedLibrary := {
  Framed : Type;
  set_key : bytes → Framed → Framed;
  is_secured : Framed → bool
}.
Class FramedLaws (F : FramedLibrary) : Prop := { set_key_secures : ∀ k f, is_secured (set_key k f) = true }.

(** ** Operations *)

Section Handshake.
Context `{B : !BoxLibrary} `{F : !FramedLibrary}.
Context (parse_from_bytes : bytes → option RendezvousMessage).

(** The outcome: what was sent, and the session key. *)
Record Exchange (S : Type) := mkExchange { hs_sent : list Union; hs_key : result bytes; hs_stream : S }.
Arguments mkExchange {S}. Arguments hs_sent {S}. Arguments hs_key {S}. Arguments hs_stream {S}.

Definition zero_nonce : bytes := replicate (Z.to_nat NONCEBYTES) 0.

(** Over TCP.  [tmp] is the pair [gen_keypair] draws, [send] how the send ends and
    [next] what [next_timeout] yields. *)
Definition attempt_handshake (sk : bytes) (tmp : bytes * bytes) (send : result unit)
    (next : option (result bytes)) (stream : Framed) : Exchange Framed :=
  let msg_out := MKeyExchange [sign tmp.1 sk] in
  match send with
  | Err err => mkExchange [] (Err ("Unable to send rendezvous key exchange: " +:+ err)) stream
  | Ok _ =>
      let fail e := mkExchange [msg_out] (Err e) stream in
      match next with
      | None => fail "Rendezvous key exchange timed out or the peer disconnected"
      | Some (Err err) => fail ("Unable to read rendezvous key exchange response: " +:+ err)
      | Some (Ok bytes) =>
          match parse_from_bytes bytes with
          | None => fail "Malformed rendezvous key exchange response"
          | Some (Some (MKeyExchange keys)) =>
              match keys with
              | [key0; key1] =>
                  if negb (len key0 =? BOX_PUBLICKEYBYTES) then fail "Invalid rendezvous key exchange response" else
                  match box_public_from_slice key0 with
                  | None => fail "Invalid rendezvous client public key"
                  | Some client_pk =>
                      match box_open key1 zero_nonce client_pk tmp.2 with
                      | None => fail "Unable to decrypt rendezvous session key"
                      | Some symmetric =>
                          if negb (len symmetric =? KEYBYTES) then fail "Invalid rendezvous session key length" else
                          let stream := set_key symmetric stream in
                          if negb (is_secured stream)
                          then mkExchange [msg_out] (Err "Rendezvous stream did not enter encrypted mode") stream
                          else mkExchange [msg_out] (Ok symmetric) stream
                      end
                  end
              | _ => fail "Invalid rendezvous key exchange response"
              end
          | Some _ => fail "Expected rendezvous key exchange response"
          end
      end
  end.

(** The loop that waits for a binary message: items in the order they arrive; when
    they run out the time is over. *)
Fixpoint ws_response (items : list (option (result WsMessage))) : result bytes :=
  match items with
  | Some (Ok (Binary bytes)) :: _ => Ok bytes
  | Some (Ok Close) :: _ | None :: _ => Err "Rendezvous WebSocket closed during key exchange"
  | Some (Ok _) :: items => ws_response items
  | Some (Err err) :: _ => Err ("Unable to read rendezvous WebSocket key exchange response: " +:+ err)
  | [] => Err "Rendezvous WebSocket key exchange timed out"
  end.

(** Over WebSocket; [encoded] is whether the message could be written to bytes. *)
Definition attempt_handshake_ws (sk : bytes) (tmp : bytes * bytes) (encoded : bool) (send : result unit)
    (items : list (option (result WsMessage))) : Exchange unit :=
  let msg_out := MKeyExchange [sign tmp.1 sk] in
  if negb encoded then mkExchange [] (Err "Unable to encode rendezvous key exchange") tt else
  match send with
  | Err err => mkExchange [] (Err ("Unable to send rendezvous key exchange: " +:+ err)) tt
  | Ok _ =>
      mkExchange [msg_out] (
        bytes ← ws_response items;
        match parse_from_bytes bytes with
        | None => Err "Malformed rendezvous WebSocket key exchange response"
        | Some (Some (MKeyExchange keys)) =>
            match keys with
            | [key0; key1] =>
                if negb (len key0 =? BOX_PUBLICKEYBYTES)
                then Err "Invalid rendezvous WebSocket key exchange response" else
                client_pk ← ok_or (box_public_from_slice key0) "Invalid rendezvous WebSocket client public key";
                symmetric ← ok_or (box_open key1 zero_nonce client_pk tmp.2)
                              "Unable to decrypt rendezvous WebSocket session key";
                if negb (len symmetric =? KEYBYTES)
                then Err "Invalid rendezvous WebSocket session key length" else Ok symmetric
            | _ => Err "Invalid rendezvous WebSocket key exchange response"
            end
        | Some _ => Err "Expected rendezvous WebSocket key exchange response"
        end) tt
  end.
End Handshake.
Arguments mkExchange {S}. Arguments hs_sent {S}. Arguments hs_key {S}. Arguments hs_stream {S}.

(** ** Theorems *)

Section HandshakeTheorems.
Context `{B : !BoxLibrary} `{F : !FramedLibrary}.
Context (parse_from_bytes : bytes → option RendezvousMessage).

(** What a response must be for the server to take the session key [k] from it. *)
Definition offers (tmp_sk bytes k : bytes) : Prop :=
  ∃ key0 key1 pk, parse_from_bytes bytes = Some (Some (MKeyExchange [key0; key1])) ∧
    len key0 = BOX_PUBLICKEYBYTES ∧ box_public_from_slice key0 = Some pk ∧
    box_open key1 zero_nonce pk tmp_sk = Some k ∧ len k = KEYBYTES.

Lemma handshake_ok `{!FramedLaws F} sk tmp send next stream k :
  hs_key (attempt_handshake parse_from_bytes sk tmp send next stream) = Ok k ↔
  send = Ok tt ∧ ∃ bytes, next = Some (Ok bytes) ∧ offers tmp.2 bytes k.
Proof.
  unfold attempt_handshake, offers. destruct send as [[]|e]; simpl; [|naive_solver].
  destruct next as [[bytes|e]|]; simpl; [|naive_solver..].
  destruct (parse_from_bytes bytes) as [[[]|]|] eqn:E; simpl; try naive_solver.
  destruct keys as [|key0 [|key1 [|? ?]]]; simpl; try naive_solver.
  destruct (len key0 =? BOX_PUBLICKEYBYTES) eqn:Hk; simpl; reflect_bools; [|naive_solver].
  destruct (box_public_from_slice key0) as [pk|] eqn:Hpk; simpl; [|naive_solver].
  destruct (box_open key1 zero_nonce pk tmp.2) as [sym|] eqn:Ho; simpl; [|naive_solver].
  destruct (len sym =? KEYBYTES) eqn:Hl; simpl; reflect_bools; [|naive_solver].
  rewrite set_key_secures. simpl. naive_solver.
Qed.

Lemma handshake_ws_ok sk tmp encoded send items k :
  hs_key (attempt_handshake_ws parse_from_bytes sk tmp encoded send items) = Ok k ↔
  encoded = true ∧ send = Ok tt ∧ ∃ bytes, ws_response items = Ok bytes ∧ offers tmp.2 bytes k.
Proof.
  unfold attempt_handshake_ws, offers. destruct encoded; simpl; [|naive_solver].
  destruct send as [[]|e]; simpl; [|naive_solver].
  destruct (ws_response items) as [bytes|e]; simpl; [|naive_solver].
  destruct (parse_from_bytes bytes) as [[[]|]|] eqn:E; simpl; try naive_solver.
  destruct keys as [|key0 [|key1 [|? ?]]]; simpl; try naive_solver.
  destruct (len key0 =? BOX_PUBLICKEYBYTES) eqn:Hk; simpl; reflect_bools; [|naive_solver].
  destruct (box_public_from_slice key0) as [pk|] eqn:Hpk; simpl; [|naive_solver].
  destruct (box_open key1 zero_nonce pk tmp.2) as [sym|] eqn:Ho; simpl; [|naive_solver].
  destruct (len sym =? KEYBYTES) eqn:Hl; simpl; reflect_bools; naive_solver.
Qed.

(** All that a handshake sends is the signed key; over TCP it ends with an
    encrypted stream. *)
Definition key_exchange (m : Union) : Prop := ∃ k, m = MKeyExchange [k].
Lemma handshake_sends sk tmp send next stream :
  Forall key_exchange (hs_sent (attempt_handshake parse_from_bytes sk tmp send next stream)).
Proof. unfold attempt_handshake. repeat case_match; simpl; repeat constructor; by eexists. Qed.
Lemma handshake_ws_sends sk tmp encoded send items :
  Forall key_exchange (hs_sent (attempt_handshake_ws parse_from_bytes sk tmp encoded send items)).
Proof. unfold attempt_handshake_ws. repeat case_match; simpl; repeat constructor; by eexists. Qed.
Lemma handshake_secures `{!FramedLaws F} sk tmp send next stream k :
  hs_key (attempt_handshake parse_from_bytes sk tmp send next stream) = Ok k →
  is_secured (hs_stream (attempt_handshake parse_from_bytes sk tmp send next stream)) = true.
Proof. unfold attempt_handshake. repeat case_match; simpl; try done. intros _. apply set_key_secures. Qed.

Lemma ws_response_ok items bytes :
  ws_response items = Ok bytes ↔
  ∃ pre post, items = pre ++ Some (Ok (Binary bytes)) :: post ∧ Forall (λ x, x = Some (Ok OtherMessage)) pre.
Proof.
  split.
  - induction items as [|[[[b| |]|e]|] items IH]; simpl; try done.
    + intros [= ->]. by exists [], items.
    + intros (pre & post & -> & Hpre)%IH. exists (Some (Ok OtherMessage) :: pre), post. split; [done|]. by constructor.
  - intros (pre & post & -> & Hpre). induction Hpre as [|x pre -> _ IH]; [done|exact IH].
Qed.

Lemma same_option {A} (r r' : result A) : (∀ a, r = Ok a ↔ r' = Ok a) → result_ok r = result_ok r'.
Proof.
  intros Hr. destruct r as [a|e], r' as [a'|e']; simpl; [..|done].
  - destruct (Hr a) as [H1 _]. specialize (H1 eq_refl). congruence.
  - discriminate (proj1 (Hr a) eq_refl).
  - discriminate (proj2 (Hr a') eq_refl).
Qed.

(** The two transports agree: a WebSocket handshake, whatever it skips before
    the first binary message, sends the same message and takes the same session
    key as the TCP handshake that receives that message as its frame, and fails
    when that one fails. *)
Theorem handshakes_agree `{!FramedLaws F} sk tmp send stream pre bytes post :
  Forall (λ x, x = Some (Ok OtherMessage)) pre →
  let tcp := attempt_handshake parse_from_bytes sk tmp send (Some (Ok bytes)) stream in
  let ws := attempt_handshake_ws parse_from_bytes sk tmp true send
              (pre ++ Some (Ok (Binary bytes)) :: post) in
  hs_sent ws = hs_sent tcp ∧ result_ok (hs_key ws) = result_ok (hs_key tcp).
Proof.
  intros Hpre. cbn zeta. split.
  - unfold attempt_handshake, attempt_handshake_ws. simpl. destruct send; [|done].
    by repeat case_match.
  - apply same_option. intros k. rewrite handshake_ok, handshake_ws_ok.
    assert (ws_response (pre ++ Some (Ok (Binary bytes)) :: post) = Ok bytes) as ->
      by (apply ws_response_ok; by exists pre, post).
    split.
    + intros (_ & Hs & b & [= <-] & Ho). split; [done|]. by exists bytes.
    + intros (Hs & b & [= <-] & Ho). split; [done|]. split; [done|]. by exists bytes.
Qed.

(** C31: Key agreement: a client that answers with its public key and a key of the
    right length, sealed for the key the server sent, ends up sharing that key
    with the server, over either transport; the TCP stream is then encrypted. *)
Theorem honest_client_shares_key `{!BoxLaws B} `{!FramedLaws F} sk tmp stream cpk csk k answer items :
  box_pair tmp.1 tmp.2 → box_pair cpk csk → len k = KEYBYTES →
  parse_from_bytes answer = Some (Some (MKeyExchange [cpk; box_seal k zero_nonce tmp.1 csk])) →
  ws_response items = Ok answer →
  let tcp := attempt_handshake parse_from_bytes sk tmp (Ok tt) (Some (Ok answer)) stream in
  hs_key tcp = Ok k ∧ is_secured (hs_stream tcp) = true ∧
  hs_key (attempt_handshake_ws parse_from_bytes sk tmp true (Ok tt) items) = Ok k.
Proof.
  intros Htmp Hc Hk Hp Hi. cbn zeta. destruct (box_slice cpk csk Hc) as [Hlen Hslice].
  assert (offers tmp.2 answer k) as Hoff.
  { exists cpk, (box_seal k zero_nonce tmp.1 csk), cpk. split_and!; try done. by apply box_opens. }
  assert (hs_key (attempt_handshake parse_from_bytes sk tmp (Ok tt) (Some (Ok answer)) stream) = Ok k) as Hok.
  { apply handshake_ok. split; [done|]. by exists answer. }
  split; [exact Hok|]. split; [by eapply handshake_secures|].
  apply handshake_ws_ok. split_and!; [done..|]. by exists answer.
Qed.
End HandshakeTheorems.

(** *** A concrete library *)

(** A public key is the secret key's bytes; sealing prepends both ends' keys. *)
#[export] Instance sample_box : BoxLibrary | 100 := {|
  BOX_PUBLICKEYBYTES := 2;
  NONCEBYTES := 1;
  KEYBYTES := 3;
  sign m sk := sk ++ m;
  box_public_from_slice b := Some b;
  box_open c n pk sk :=
    if bool_decide (take (length (pk ++ sk)) c = pk ++ sk) then Some (drop (length (pk ++ sk)) c) else None;
  box_seal m n pk sk := sk ++ pk ++ m;
  box_pair pk sk := pk = sk ∧ len pk = 2
|}.
#[export] Instance sample_box_laws : BoxLaws sample_box | 100.
Proof.
  split; simpl.
  - intros m n pk sk pk' sk' [<- _] [<- _]. rewrite app_assoc.
    rewrite take_app_length, drop_app_length. by rewrite bool_decide_eq_true_2.
  - intros pk sk [_ ?]. done.
Qed.
#[export] Instance sample_framed : FramedLibrary | 100 := {|
  Framed := option bytes; set_key k _ := Some k; is_secured f := bool_decide (is_Some f)
|}.
#[export] Instance sample_framed_laws : FramedLaws sample_framed | 100.
Proof. split. intros k f. by apply bool_decide_eq_true_2. Qed.

Definition sample_stream : @Framed sample_framed := None.

(** A frame holds two two-byte keys and what is sealed. *)
Definition sample_exchange (b : bytes) : option RendezvousMessage :=
  Some (Some (MKeyExchange [take 2 b; drop 2 b])).

Lemma handshakes_agree_witness :
  let tcp := attempt_handshake sample_exchange [9] ([1; 2], [1; 2]) (Ok tt) (Some (Ok [3; 4; 3; 4; 1; 2; 5; 6; 7])) sample_stream in
  let ws := attempt_handshake_ws sample_exchange [9] ([1; 2], [1; 2]) true (Ok tt)
              [Some (Ok OtherMessage); Some (Ok (Binary [3; 4; 3; 4; 1; 2; 5; 6; 7]))] in
  result_ok (hs_key ws) = result_ok (hs_key tcp) ∧ hs_key tcp = Ok [5; 6; 7].
Proof.
  split; [|by vm_compute].
  apply (handshakes_agree sample_exchange [9] ([1; 2], [1; 2]) (Ok tt) sample_stream [Some (Ok OtherMessage)]
    [3; 4; 3; 4; 1; 2; 5; 6; 7] []).
  by constructor.
Defined.

Lemma honest_client_shares_key_witness :
  hs_key (attempt_handshake sample_exchange [9] ([1; 2], [1; 2]) (Ok tt) (Some (Ok [3; 4; 3; 4; 1; 2; 5; 6; 7])) sample_stream)
    = Ok [5; 6; 7].
Proof.
  apply (honest_client_shares_key sample_exchange [9] ([1; 2], [1; 2]) sample_stream [3; 4] [3; 4] [5; 6; 7]
    [3; 4; 3; 4; 1; 2; 5; 6; 7] [Some (Ok (Binary [3; 4; 3; 4; 1; 2; 5; 6; 7]))]); by vm_compute.
Defined.
