(* ===== verification/RelayCheck.v ===== *)
(** The relay servers the identity server hands out ([src/rendezvous_server.rs]:
    [parse_relay_servers], the first and third branch of [io_loop] and
    [check_relay_servers]).

    The loop owns the configured list and the list of servers in use; a check
    probes the configured servers and reports those it reached on the loop's event
    queue.  The console puts new configurations on the same queue.  A run is a
    list of events chosen by the environment. *)

From Stdlib Require Import String.
From S2P Require Import Prelude.
From S2P Require Import Text.
From S2P Require Import HttpProxy.
From S2P Require Import Config.
From S2P Require Import Registration.
From S2P Require Import Server.

(** ** Data *)

Definition RENDEZVOUS_EVENT_QUEUE_CAPACITY : Z := 4096.

Inductive Data := RelayServers0 (s : string) | RelayServers (l : list string).

(** A spawned check: servers still being probed and those reached so far, in the
    order of their answers; then the report; then the end of the flag. *)
Inductive Check := Probing (pending alive : list string) | Reporting (alive : list string) | Ending.

(** [RELAY_CHECK_RUNNING] is [lp_running]. *)
Record Loop := mkLoop { lp_rs : Rs; lp_queue : list Data; lp_running : bool; lp_checks : list Check }.

Definition set_lp_rs (rs : Rs) (lp : Loop) : Loop :=
  mkLoop rs (lp_queue lp) (lp_running lp) (lp_checks lp).
Definition set_queue (q : list Data) (lp : Loop) : Loop :=
  mkLoop (lp_rs lp) q (lp_running lp) (lp_checks lp).
Definition set_checks (l : list Check) (lp : Loop) : Loop :=
  mkLoop (lp_rs lp) (lp_queue lp) (lp_running lp) l.
Definition set_relay_servers (l : list string) (rs : Rs) : Rs :=
  mkRs l (relay_servers0 rs) (rendezvous_servers rs) (inner rs).

(** ** Operations *)

Section Check.
Context `{H : !HttpLibrary}.
(** [config::RELAY_PORT]. *)
Context (relay_port : Z).

Definition parse_relay_servers (s : string) (rs : Rs) : result Rs :=
  l ← get_servers s "relay-servers";
  Ok (mkRs l l (rendezvous_servers rs) (inner rs)).

(** The servers [check_relay_servers] connects to. *)
Definition check_targets (rs0 : list string) : list string :=
  filter (λ x, is_ok (server_with_default_port x "relay-servers" relay_port) = true) rs0.

(** The timer's branch. *)
Definition check_tick (lp : Loop) : Loop :=
  let rs0 := relay_servers0 (lp_rs lp) in
  if (1 <? len rs0) && negb (lp_running lp)
  then mkLoop (lp_rs lp) (lp_queue lp) true (lp_checks lp ++ [Probing (check_targets rs0) []])
  else lp.

(** [tx.send]: waits while the queue is full. *)
Definition put (d : Data) (lp : Loop) : option Loop :=
  if len (lp_queue lp) <? RENDEZVOUS_EVENT_QUEUE_CAPACITY
  then Some (set_queue (lp_queue lp ++ [d]) lp) else None.

(** The connection to the [i]-th server still pending succeeded or failed. *)
Definition probed (i : nat) (reached : bool) (c : Check) : Check :=
  match c with
  | Probing pending alive =>
      match pending !! i with
      | Some x => Probing (delete i pending) (if reached then alive ++ [x] else alive)
      | None => c
      end
  | _ => c
  end.

(** The next step of a check whose probes are over. *)
Definition advance (t : nat) (lp : Loop) : Loop :=
  match lp_checks lp !! t with
  | Some (Probing [] alive) =>
      set_checks (<[t := if is_empty alive then Ending else Reporting alive]> (lp_checks lp)) lp
  | Some (Reporting alive) =>
      match put (RelayServers alive) lp with
      | Some lp => set_checks (<[t := Ending]> (lp_checks lp)) lp
      | None => lp
      end
  | Some Ending => mkLoop (lp_rs lp) (lp_queue lp) false (delete t (lp_checks lp))
  | _ => lp
  end.

(** The branch of the event queue. *)
Definition handle_data (d : Data) (rs : Rs) : Rs :=
  match d with
  | RelayServers0 s => match parse_relay_servers s rs with Ok rs => rs | Err _ => rs end
  | RelayServers l => set_relay_servers l rs
  end.
Definition receive_data (lp : Loop) : Loop :=
  match lp_queue lp with
  | [] => lp
  | d :: q => set_lp_rs (handle_data d (lp_rs lp)) (set_queue q lp)
  end.

Inductive LoopEvent :=
  | CheckTick
  | Probed (t i : nat) (reached : bool)
  | Advance (t : nat)
  | Configure (s : string)
  | Receive.

Definition loop_step (e : LoopEvent) (lp : Loop) : Loop :=
  match e with
  | CheckTick => check_tick lp
  | Probed t i reached => set_checks (alter (probed i reached) t (lp_checks lp)) lp
  | Advance t => advance t lp
  | Configure s => default lp (put (RelayServers0 s) lp)
  | Receive => receive_data lp
  end.
Definition loop_run (es : list LoopEvent) (lp : Loop) : Loop := foldl (λ lp e, loop_step e lp) lp es.

(** The loop when the server starts with the setting [relay-servers]. *)
Definition start_loop (s : string) (rs : Rs) : result Loop :=
  rs ← parse_relay_servers s rs; Ok (mkLoop rs [] false []).

(** ** The invariant *)

(** The servers a configuration names. *)
Definition configures (s : string) (l : list string) : Prop := get_servers s "relay-servers" = Ok l.

(** [l] reports servers of one configuration in [K]. *)
Definition reported (K : list string → Prop) (l : list string) : Prop := ∃ k, K k ∧ l ⊆+ k.

Definition check_ok (K : list string → Prop) (c : Check) : Prop :=
  match c with
  | Probing pending alive => reported K (pending ++ alive)
  | Reporting alive => alive ≠ [] ∧ reported K alive
  | Ending => True
  end.
Definition data_ok (K : list string → Prop) (d : Data) : Prop :=
  match d with
  | RelayServers0 s => ∀ l, configures s l → K l
  | RelayServers l => l ≠ [] ∧ reported K l
  end.

Record loop_wf (K : list string → Prop) (lp : Loop) : Prop := {
  lw_queue : len (lp_queue lp) ≤ RENDEZVOUS_EVENT_QUEUE_CAPACITY;
  lw_running : length (lp_checks lp) = if lp_running lp then 1%nat else 0%nat;
  lw_config : K (relay_servers0 (lp_rs lp));
  lw_servers : reported K (relay_servers (lp_rs lp));
  lw_usable : relay_servers0 (lp_rs lp) ≠ [] → relay_servers (lp_rs lp) ≠ [];
  lw_checks : Forall (check_ok K) (lp_checks lp);
  lw_data : Forall (data_ok K) (lp_queue lp)
}.

Definition is_configure (e : LoopEvent) : Prop := match e with Configure _ => True | _ => False end.

Lemma one_check K lp t c :
  loop_wf K lp → lp_checks lp !! t = Some c → lp_running lp = true ∧ lp_checks lp = [c] ∧ t = 0%nat.
Proof.
  intros Hwf Ht. pose proof (lw_running _ _ Hwf) as Hn.
  destruct (lp_checks lp) as [|c' [|? ?]], (lp_running lp), t; simpl in *; by simplify_eq.
Qed.

Lemma probed_ok K i b c : check_ok K c → check_ok K (probed i b c).
Proof.
  destruct c as [pending alive| |]; simpl; [|done..].
  intros (k & Hk & Hsub). destruct (pending !! i) as [x|] eqn:Hi; [|by exists k]. exists k. split; [done|].
  etrans; [|exact Hsub]. rewrite (delete_Permutation pending i x Hi) at 2.
  destruct b; [|by apply submseteq_cons]. rewrite app_assoc. apply Permutation_submseteq.
  by rewrite Permutation_app_comm.
Qed.

Lemma put_wf K d lp lp' : loop_wf K lp → data_ok K d → put d lp = Some lp' → loop_wf K lp'.
Proof.
  intros [W1 W2 W3 W4 W5 W6 W7] Hd. unfold put. destruct (_ <? _) eqn:Hlen; [|discriminate].
  intros [= <-]. reflect_bools.
  split; try done; simpl.
  - unfold len in *. rewrite length_app. simpl. lia.
  - apply Forall_app. by split; [|constructor].
Qed.

Lemma loop_step_wf K e lp :
  loop_wf K lp → (∀ s l, e = Configure s → configures s l → K l) → loop_wf K (loop_step e lp).
Proof.
  intros Hwf HK. destruct e as [|t i b|t|s|]; simpl.
  - unfold check_tick. destruct (_ && _) eqn:E; [|done]. apply andb_true_iff in E as [_ Hrun%negb_true_iff].
    destruct Hwf as [W1 W2 W3 W4 W5 W6 W7]. rewrite Hrun in W2. split; try done; simpl.
    + rewrite length_app. simpl. lia.
    + apply Forall_app. split; [done|]. constructor; [|constructor]. simpl. rewrite app_nil_r.
      exists (relay_servers0 (lp_rs lp)). split; [done|]. apply sublist_submseteq, sublist_filter.
  - destruct Hwf as [W1 W2 W3 W4 W5 W6 W7]. split; try done; simpl; [by rewrite length_alter|].
    apply Forall_alter; [done|]. intros c _ Hc. by apply probed_ok.
  - unfold advance. destruct (lp_checks lp !! t) as [c|] eqn:Ht; [|done].
    destruct (one_check _ _ _ _ Hwf Ht) as (Hrun & Hchecks & ->).
    pose proof (lw_checks _ _ Hwf) as Hok. rewrite Hchecks in Hok. apply Forall_inv in Hok.
    destruct c as [[|x pending] alive|alive|]; [|done|..].
    + destruct Hwf as [W1 W2 W3 W4 W5 W6 W7]. split; try done; simpl; rewrite Hchecks; simpl; [by rewrite Hrun|].
      constructor; [|constructor]. destruct (is_empty alive) eqn:He; [done|]. simpl.
      split; [by destruct alive|exact Hok].
    + destruct (put _ lp) as [lp'|] eqn:Hput; [|done].
      pose proof (put_wf K (RelayServers alive) _ _ Hwf Hok Hput) as [W1 W2 W3 W4 W5 W6 W7].
      unfold put in Hput. destruct (_ <? _); [|discriminate]. injection Hput as <-.
      split; try done; simpl in *; rewrite Hchecks; simpl; [by rewrite Hrun|by constructor].
    + destruct Hwf as [W1 W2 W3 W4 W5 W6 W7]. split; try done; simpl; rewrite Hchecks; done.
  - destruct (put _ lp) as [lp'|] eqn:Hput; [|done]. eapply put_wf; [done| |done].
    simpl. intros l. by apply HK.
  - unfold receive_data. destruct Hwf as [W1 W2 W3 W4 W5 W6 W7].
    destruct (lp_queue lp) as [|d q] eqn:Hq; [by rewrite <-Hq in *; split|].
    apply list.Forall_cons in W7 as [Hd Hqs].
    assert (len q ≤ RENDEZVOUS_EVENT_QUEUE_CAPACITY) by (unfold len in *; simpl in *; lia).
    destruct d as [s|l]; simpl in *.
    + unfold parse_relay_servers. destruct (get_servers s "relay-servers") as [l|] eqn:Hs; simpl; split; try done; simpl.
      * by apply Hd.
      * exists l. split; [by apply Hd|done].
    + destruct Hd as [Hne Hd]. by split.
Qed.

Lemma loop_run_wf K es lp :
  loop_wf K lp → (∀ s l, Configure s ∈ es → configures s l → K l) → loop_wf K (loop_run es lp).
Proof.
  revert lp. induction es as [|e es IH]; intros lp Hwf HK; [done|]. simpl. apply IH.
  - apply loop_step_wf; [done|]. intros s l ->. apply HK. by left.
  - intros s l Hs. apply HK. by right.
Qed.

(** Nothing in the loop changes the shared settings. *)
Lemma loop_step_inner e lp : inner (lp_rs (loop_step e lp)) = inner (lp_rs lp).
Proof.
  destruct e as [|t j b|t|s|]; simpl; [| | | |].
  - unfold check_tick. by case_match.
  - done.
  - unfold advance, put. by repeat case_match; simplify_eq.
  - unfold put. by case_match.
  - unfold receive_data. destruct (lp_queue lp) as [|[s|l] q]; simpl; try done.
    unfold parse_relay_servers. by destruct (get_servers s _).
Qed.
Lemma put_inner d lp lp' : put d lp = Some lp' → inner (lp_rs lp') = inner (lp_rs lp).
Proof. unfold put. case_match; intros; by simplify_eq. Qed.

Lemma start_loop_wf s rs lp : start_loop s rs = Ok lp → loop_wf (configures s) lp.
Proof.
  unfold start_loop, parse_relay_servers. destruct (get_servers _ _) as [l|] eqn:E; [|done].
  intros [= <-]. split; try done; simpl. by exists l.
Qed.
End Check.

(** ** Theorems *)

Section RelayCheckTheorems.
Context `{H : !HttpLibrary} (relay_port : Z).
Abbreviation run := (loop_run relay_port).

(** C29: From the start on, whatever is configured and however the probes end: at
    most one check runs, the event queue keeps its capacity, the servers handed
    out all belong to one configuration given so far, and there is one to hand out
    whenever the current configuration names one.  As long as nothing is
    reconfigured, they are servers of the start-up setting. *)
Theorem relay_list_is_configured s rs lp es :
  start_loop s rs = Ok lp →
  let lp' := run es lp in
  let given l := configures s l ∨ ∃ s', Configure s' ∈ es ∧ configures s' l in
  (length (lp_checks lp') ≤ 1)%nat ∧ len (lp_queue lp') ≤ RENDEZVOUS_EVENT_QUEUE_CAPACITY ∧
  given (relay_servers0 (lp_rs lp')) ∧
  (∃ k, given k ∧ relay_servers (lp_rs lp') ⊆+ k) ∧
  (relay_servers0 (lp_rs lp') ≠ [] → relay_servers (lp_rs lp') ≠ []) ∧
  (Forall (λ e, ¬ is_configure e) es →
   configures s (relay_servers0 (lp_rs lp')) ∧ relay_servers (lp_rs lp') ⊆+ relay_servers0 (lp_rs lp')).
Proof.
  intros Hstart. cbn zeta. pose proof (start_loop_wf s rs lp Hstart) as Hwf.
  assert (loop_wf (λ l, configures s l ∨ ∃ s', Configure s' ∈ es ∧ configures s' l) lp) as Hwf'.
  { unfold start_loop, parse_relay_servers in Hstart. destruct (get_servers _ _) as [l|] eqn:E; [|done].
    injection Hstart as <-. split; try done; simpl; [by left|]. exists l. split; [by left|done]. }
  pose proof (loop_run_wf relay_port _ es lp Hwf') as Hrun.
  destruct Hrun as [W1 W2 W3 W4 W5 W6 W7]; [intros s' l Hs Hl; right; by exists s'|].
  split; [rewrite W2; destruct (lp_running (run es lp)); lia|]. do 4 (split; [done|]).
  intros Hno.
  assert (loop_wf (configures s) (run es lp)) as [_ _ V3 (k & Hk & Hsub) _ _ _].
  { apply loop_run_wf; [done|]. intros s' l Hin _. rewrite list.Forall_forall in Hno. by destruct (Hno _ Hin). }
  split; [done|]. unfold configures in *. rewrite V3 in Hk. by injection Hk as <-.
Qed.

(** The servers whose probe succeeded. *)
Fixpoint reached (pending : list string) (answers : list bool) : list string :=
  match pending, answers with
  | x :: pending, b :: answers => if b : bool then x :: reached pending answers else reached pending answers
  | _, _ => []
  end.

Lemma probes_run pending answers alive rs q run' :
  length answers = length pending →
  run (Probed 0 0 <$> answers) (mkLoop rs q run' [Probing pending alive]) =
    mkLoop rs q run' [Probing [] (alive ++ reached pending answers)].
Proof.
  revert answers alive. induction pending as [|x pending IH]; intros [|b answers] alive Hlen; try done.
  - simpl. by rewrite app_nil_r.
  - simpl. unfold set_checks. simpl. rewrite IH by (simpl in Hlen; lia). destruct b; [|done].
    by rewrite <-app_assoc.
Qed.

(** A check ends, and reports exactly the servers that answered: once each
    probe has succeeded or failed, three further steps of the check clear its
    flag; the loop then hands out the reached servers, or, when there are none,
    goes on with those it had. *)
Theorem relay_check_reports_reachable rs pending answers :
  length answers = length pending →
  let lp := mkLoop rs [] true [Probing pending []] in
  run ((Probed 0 0 <$> answers) ++ [Advance 0; Advance 0; Advance 0; Receive]) lp =
    mkLoop (if is_empty (reached pending answers) then rs
            else set_relay_servers (reached pending answers) rs) [] false [].
Proof.
  intros Hlen. cbn zeta. unfold loop_run. rewrite foldl_app. fold (run (Probed 0 0 <$> answers)
    (mkLoop rs [] true [Probing pending []])). rewrite probes_run by done. simpl.
  by destruct (reached pending answers).
Qed.

(** A queue without configurations. *)
Definition reports_only (q : list Data) : Prop := Forall (λ d, ∃ l, d = RelayServers l) q.

Lemma quiet_run es lp :
  Forall (λ e, ¬ is_configure e) es → lp_queue lp = [] → lp_checks lp = [] → lp_running lp = false →
  len (relay_servers0 (lp_rs lp)) ≤ 1 → run es lp = lp.
Proof.
  intros Hes Hq Hc Hr Hlen. induction Hes as [|e es He _ IH]; [done|]. simpl.
  assert (loop_step relay_port e lp = lp) as Hstep; [|by rewrite Hstep].
  destruct lp as [rs q running checks]. simpl in *. subst.
  destruct e as [|t i b|t|s|]; simpl; try done.
  unfold check_tick. simpl. destruct (1 <? len _) eqn:E; [reflect_bools; lia|done].
Qed.

(** A check outlives the configuration it was made for: when the console
    configures at most one server while a check of an older list is about to
    report, the report replaces the new configuration, and the servers of the old
    one are handed out until the next reconfiguration. *)
Theorem stale_check_outlives_configuration rs alive s servers :
  configures s servers → len servers ≤ 1 →
  let lp := run [Configure s; Receive; Advance 0; Receive; Advance 0] (mkLoop rs [] true [Reporting alive]) in
  relay_servers0 (lp_rs lp) = servers ∧
  ∀ es, Forall (λ e, ¬ is_configure e) es → relay_servers (lp_rs (run es lp)) = alive.
Proof.
  intros Hs Hlen. cbn zeta.
  assert (run [Configure s; Receive; Advance 0; Receive; Advance 0] (mkLoop rs [] true [Reporting alive])
    = mkLoop (mkRs alive servers (rendezvous_servers rs) (inner rs)) [] false []) as ->.
  { unfold configures in Hs. simpl. unfold receive_data at 2. simpl. unfold parse_relay_servers. by rewrite Hs. }
  split; [done|]. intros es Hes. by rewrite quiet_run.
Qed.
End RelayCheckTheorems.

(** ** Concrete instances *)

Definition sample_loop_rs : Rs := mkRs [] [] [] (sample_inner true).
Definition sample_events : list LoopEvent :=
  [CheckTick; Probed 0 1 true; CheckTick; Probed 0 0 false; Advance 0; Advance 0; Advance 0; Receive].

Lemma relay_list_is_configured_witness :
  ∃ lp, start_loop "relay-a,relay-b" sample_loop_rs = Ok lp ∧
    let lp' := loop_run 21117 sample_events lp in
    relay_servers (lp_rs lp') = ["relay-b"] ∧ (length (lp_checks lp') ≤ 1)%nat.
Proof.
  eexists. split; [by vm_compute|]. cbn zeta. split; [by vm_compute|].
  apply (relay_list_is_configured 21117 "relay-a,relay-b" sample_loop_rs _ sample_events).
  by vm_compute.
Defined.

Lemma relay_check_reports_reachable_witness :
  loop_run 21117 [Probed 0 0 true; Probed 0 0 false; Advance 0; Advance 0; Advance 0; Receive]
    (mkLoop sample_loop_rs [] true [Probing ["a"; "b"] []]) =
  mkLoop (set_relay_servers ["a"] sample_loop_rs) [] false [].
Proof. apply (relay_check_reports_reachable 21117 sample_loop_rs ["a"; "b"] [true; false]). done. Defined.

Lemma stale_check_outlives_configuration_witness :
  let lp := loop_run 21117 [Configure "relay-c"; Receive; Advance 0; Receive; Advance 0]
              (mkLoop sample_loop_rs [] true [Reporting ["relay-a"]]) in
  relay_servers (lp_rs (loop_run 21117 [CheckTick; Receive] lp)) = ["relay-a"].
Proof.
  apply (stale_check_outlives_configuration 21117 sample_loop_rs ["relay-a"] "relay-c" ["relay-c"]).
  - by vm_compute.
  - by vm_compute.
  - repeat constructor; intros [].
Defined.
