(* ===== verification/Console.v ===== *)
(** The runtime console of the identity server ([src/rendezvous_server.rs]:
    [check_cmd]).

    A command works on the shared [Server] state and prints a text; a new list of
    relay servers goes to the event loop, so it is part of the result.  The order
    in which a hash map is iterated and the wall-clock time printed for an age are
    parameters. *)

From Stdlib Require Import Ascii String.
From S2P Require Import Prelude.
From S2P Require Import Text.
From S2P Require Import Net.
From S2P Require Import RateLimit.
From S2P Require Import Database.
From S2P Require Import PeerCache.
From S2P Require Import Messages.
From S2P Require Import Externals.
From S2P Require Import Registration.
From S2P Require Import Pending.
From S2P Require Import HttpProxy.
From S2P Require Import Config.
From S2P Require Import Server.
From S2P Require Import RelayCheck.

(** ** Parameters *)

Class HashOrder := hash_order : ∀ V, gmap string V → list (string * V).
Class HashOrderLaws (O : HashOrder) : Prop := hash_order_perm : ∀ V m, hash_order V m ≡ₚ map_to_list m.
Arguments hash_order {_ V}.

(** ** Printing *)

(** [{:?}] of a string.  Characters that need the [\u{..}] form do not occur in
    addresses, nor in server names ([get_servers] refuses control characters). *)
Fixpoint escape (s : string) : string :=
  match s with
  | EmptyString => ""
  | String a s =>
      let rest := escape s in
      if (code a =? 34) || (code a =? 92) then String "\" (String a rest)
      else if code a =? 10 then String "\" (String "n" rest)
      else if code a =? 13 then String "\" (String "r" rest)
      else if code a =? 9 then String "\" (String "t" rest)
      else String a rest
  end.
Definition quote : string := of_codes [34].
Definition debug_str (s : string) : string := quote +:+ escape s +:+ quote.

(** [i32] addition as a release build has it. *)
Definition i32_wrapping_add (a b : Z) : Z := (a + b + 2 ^ 31) mod 2 ^ 32 - 2 ^ 31.

(** ** Operations *)

Section Console.
Context {D : Type} `{!PeerStore D} `{X : !Externals} `{R : !Entropy} `{H : !HttpLibrary} `{O : !HashOrder}.
(** The time printed for a punch request of a given age. *)
Context (event_iso : Z → string).

Definition transient (s : Server D) : Transient := rs_transient (sv_reg s).
Definition set_blockers (b : IpBlockMap) (s : Server D) : Server D :=
  set_reg (set_transient (mkTransient b (tr_changes (transient s))) (sv_reg s)) s.
Definition set_changes (c : IpChangesMap) (s : Server D) : Server D :=
  set_reg (set_transient (mkTransient (tr_blockers (transient s)) c) (sv_reg s)) s.

(** [Instant::elapsed]. *)
Definition elapsed (t : Instant) : M (Server D) Z :=
  now ← instant_now; mret (duration_since now t).

(** [HashMap::retain] with a predicate that reads the clock. *)
Fixpoint retain_if {V} (keep : V → M (Server D) bool) (l : list (string * V)) (m : gmap string V)
    : M (Server D) (gmap string V) :=
  match l with
  | [] => mret m
  | (k, v) :: l => b ← keep v; retain_if keep l (if b : bool then m else delete k m)
  end.

(** The loop over [0..stop] that prints the entries from [start] on. *)
Fixpoint page {V} (print : string → V → M (Server D) string) (i start stop : Z) (l : list (string * V))
    : M (Server D) string :=
  match l with
  | [] => mret ""
  | (k, v) :: l =>
      if stop <=? i then mret "" else
      if i <? start then page print (i + 1) start stop l else
      x ← print k v; rest ← page print (i + 1) start stop l; mret (x +:+ rest)
  end.
Definition listing {V} (print : string → V → M (Server D) string) (start : Z) (m : gmap string V)
    : M (Server D) string :=
  page print 0 start (i32_wrapping_add start 10) (hash_order m).

(** The argument as a position, [-1] when it is not one. *)
Definition position (arg : option string) : Z := default (-1) (x ← arg; parse_i32 x).
Definition is_dash (arg : option string) : bool := bool_decide (arg = Some "-").

Definition keep_blocker (e : IpBlock) : M (Server D) bool :=
  a ← elapsed e.1.2;
  if as_secs a <=? IP_BLOCK_DUR then mret true else
  b ← elapsed e.2.2; mret (as_secs b <=? DAY_SECONDS).
Definition blocker_text (e : IpBlock) : M (Server D) string :=
  a ← elapsed e.1.2; b ← elapsed e.2.2;
  mret (line (show e.1.1 +:+ "/" +:+ show (as_secs a) +:+ "s "
        +:+ show (Z.of_nat (size e.2.1)) +:+ "/" +:+ show (as_secs b) +:+ "s")).
Definition blocker_line (ip : string) (e : IpBlock) : M (Server D) string :=
  x ← blocker_text e; mret (ip +:+ ": " +:+ x).

Definition console_ip_blocker (ip dash : option string) : M (Server D) string :=
  m ← gets (λ s, tr_blockers (transient s));
  m ← retain_if keep_blocker (hash_order m) m;
  modify (set_blockers m);;
  let head := line (show (mlen m)) in
  let start := position ip in
  if start <? 0 then
    match ip with
    | Some ip =>
        x ← match m !! ip with Some e => blocker_text e | None => mret "" end;
        (if is_dash dash then modify (set_blockers (delete ip m)) else mret tt);;
        mret (head +:+ x)
    | None => x ← listing blocker_line 0 m; mret (head +:+ x)
    end
  else x ← listing blocker_line start m; mret (head +:+ x).

Definition keep_change (v : IpChange) : M (Server D) bool :=
  a ← elapsed v.1; mret ((as_secs a <? IP_CHANGE_DUR_X2) && (1 <? mlen v.2)).
Definition debug_ips (ips : gmap string Z) : string :=
  "{" +:+ foldr (λ kv rest, debug_str kv.1 +:+ ": " +:+ show kv.2 +:+
                            (if str_empty rest then "" else ", " +:+ rest)) "" (hash_order ips) +:+ "}".
Definition change_text (v : IpChange) : M (Server D) string :=
  a ← elapsed v.1; mret (line (show (as_secs a) +:+ "s " +:+ debug_ips v.2)).
Definition change_line (id : string) (v : IpChange) : M (Server D) string :=
  x ← change_text v; mret (id +:+ ": " +:+ x).

(** Here a number above ten million is an identifier and a position. *)
Definition console_ip_changes (id dash : option string) : M (Server D) string :=
  m ← gets (λ s, tr_changes (transient s));
  m ← retain_if keep_change (hash_order m) m;
  modify (set_changes m);;
  let head := line (show (mlen m)) in
  let start := position id in
  found ← (if (0 <=? start) && (start <=? 10000000) then mret (start, "", m) else
           match id with
           | Some id =>
               x ← match m !! id with Some v => change_text v | None => mret "" end;
               if is_dash dash then modify (set_changes (delete id m));; mret (start, x, delete id m)
               else mret (start, x, m)
           | None => mret (0, "", m)
           end);
  let '(start, x, m) := found in
  rest ← (if 0 <=? start then listing change_line start m else mret "");
  mret (head +:+ x +:+ rest).

Fixpoint punch_lines (l : list PunchReqEntry) : M (Server D) string :=
  match l with
  | [] => mret ""
  | e :: l =>
      age ← elapsed (tm e);
      rest ← punch_lines l;
      mret (line (event_iso age +:+ " " +:+ from_ip e +:+ " -> " +:+ to_id e +:+ "@" +:+ to_ip e) +:+ rest)
  end.
Definition console_punch_requests (arg size : option string) : M (Server D) string :=
  if is_dash arg then modify (set_punch_reqs []);; mret "" else
  let start := default 0 (x ← arg; parse_usize x) in
  let page_size := default 10 (x ← size; parse_usize x) in
  let page_size := if page_size =? 0 then 10 else page_size in
  log ← gets sv_punch_reqs;
  punch_lines (take (Z.to_nat page_size) (drop (Z.to_nat start) log)).

Definition set_always_use_relay (b : bool) (s : Server D) : Server D :=
  mkServer (sv_reg s) (sv_pending s) (sv_draws s) (sv_tcp_punch s) (sv_chans s) (sv_punch_reqs s)
    (sv_rotation s) b (sv_rates s) (sv_proxy_slots s) (sv_keepalives s).
Definition console_always_use_relay (arg : option string) : M (Server D) string :=
  match arg with
  | Some v =>
      match parse_yes_no "always-use-relay" v with
      | Ok value => modify (set_always_use_relay value);; mret ""
      | Err err => mret (line ("Invalid always-use-relay value: " +:+ err))
      end
  | None => b ← gets sv_always_use_relay; mret (line ("ALWAYS_USE_RELAY: " +:+ show_bool b))
  end.

(** The addresses are parsed, and not used further. *)
Definition console_test_geo (rs : Rs) (a b : option string) : M (Server D) string :=
  let answer := relay ← get_relay_server rs; mret (debug_str relay) in
  match x ← a; parse_ip x with
  | None => mret ""
  | Some _ =>
      match b with
      | Some b => match parse_ip b with Some _ => answer | None => mret "" end
      | None => answer
      end
  end.

Definition rendezvous_help : list string :=
  ["relay-servers(rs) <separated by ,>"; "reload-geo(rg)"; "ip-blocker(ib) [<ip>|<number>] [-]";
   "ip-changes(ic) [<id>|<number>] [-]"; "punch-requests(pr) [<number>] [-]";
   "always-use-relay(aur)"; "test-geo(tg) <ip1> <ip2>"].

(** The text printed, and the event sent to the loop; [closed] is whether the
    loop's queue is closed. *)
Definition check_cmd (rs : Rs) (closed : bool) (cmd : string) : M (Server D) (string * option Data) :=
  let fds := split_char " "%char (trim cmd) in
  let arg := fds !! 1%nat in
  let arg2 := fds !! 2%nat in
  let text (m : M (Server D) string) : M (Server D) (string * option Data) := x ← m; mret (x, None) in
  match fds with
  | [] => mret ("", None)
  | c :: _ =>
      if is_cmd ["h"] c then mret (unlines rendezvous_help, None)
      else if is_cmd ["relay-servers"; "rs"] c then
        match arg with
        | Some l =>
            match get_servers l "relay-servers" with
            | Err err => mret (line ("Invalid relay server configuration: " +:+ err), None)
            | Ok _ => if closed then mret (line "Rendezvous event queue is closed", None)
                      else mret ("", Some (RelayServers0 l))
            end
        | None => mret (unlines (relay_servers rs), None)
        end
      else if is_cmd ["ip-blocker"; "ib"] c then text (console_ip_blocker arg arg2)
      else if is_cmd ["ip-changes"; "ic"] c then text (console_ip_changes arg arg2)
      else if is_cmd ["punch-requests"; "pr"] c then text (console_punch_requests arg arg2)
      else if is_cmd ["always-use-relay"; "aur"] c then text (console_always_use_relay arg)
      else if is_cmd ["test-geo"; "tg"] c then text (console_test_geo rs arg arg2)
      else mret ("", None)
  end.
End Console.

(** ** Lemmas *)

Section Reads.
Context {D : Type} `{X : !Externals}.
Implicit Types s : Server D.

(** Only the clock has moved. *)
Definition later s s' : Prop := ∃ c, ck_now (sv_clock s) ≤ ck_now c ∧ s' = set_sv_clock c s.

Lemma set_sv_clock_same s : set_sv_clock (sv_clock s) s = s.
Proof. by destruct s as [[[] []]]. Qed.
#[export] Instance later_preorder : PreOrder (@later).
Proof.
  split.
  - intros s. exists (sv_clock s). split; [lia|]. by rewrite set_sv_clock_same.
  - intros s1 s2 s3 (c & Hc & ->) (c' & Hc' & ->). exists c'. split; [|done].
    change (ck_now c ≤ ck_now c') in Hc'. lia.
Qed.
Lemma later_now s s' : later s s' → ck_now (sv_clock s) ≤ ck_now (sv_clock s').
Proof. by intros (c & Hc & ->). Qed.

(** [m] succeeds and does nothing but read the clock. *)
Definition reads {A} (m : M (Server D) A) : Prop := ∀ s, wp m (λ r s', is_ok r = true ∧ later s s') s.

Lemma reads_ret {A} (a : A) : reads (mret a).
Proof. intros s. by apply wp_ret. Qed.
Lemma reads_bind {A B} (m : M (Server D) A) (f : A → M (Server D) B) :
  reads m → (∀ a, reads (f a)) → reads (m ≫= f).
Proof.
  intros Hm Hf s. apply wp_bind. eapply wp_mono; [|apply Hm].
  intros [a|e] s1 [Hok Hl]; [|done]. eapply wp_mono; [|apply Hf].
  intros r s2 [Hok' Hl']. split; [done|by etrans].
Qed.
Lemma reads_gets {A} (f : Server D → A) : reads (gets f).
Proof. intros s. by apply wp_gets. Qed.

Lemma wp_elapsed t (Q : result Z → Server D → Prop) s :
  (∀ s', later s s' → Q (Ok (duration_since (ck_now (sv_clock s')) t)) s') → wp (elapsed t) Q s.
Proof.
  intros HQ. apply wp_bind, wp_instant_now. intros now c _ Hle Hc. apply wp_ret.
  rewrite <-Hc. apply (HQ (set_sv_clock c s)). exists c. split; [|done]. change (sv_clock s) with (clock_of s). lia.
Qed.
Lemma reads_elapsed t : reads (elapsed t).
Proof. intros s. by apply wp_elapsed. Qed.
End Reads.
#[export] Hint Resolve reads_ret reads_gets reads_elapsed : srv.

(** Walk through a computation that only reads. *)
Ltac reading :=
  repeat (
    lazymatch goal with
    | |- reads (_ ≫= _) => apply reads_bind
    | |- reads (match ?x with _ => _ end) => destruct x
    | |- ∀ _, reads _ => intros ?
    | |- reads _ => solve [eauto with srv]
    end; cbn beta zeta).

Section ConsoleLemmas.
Context {D : Type} `{!PeerStore D} `{X : !Externals} `{R : !Entropy} `{H : !HttpLibrary} `{O : !HashOrder}.
Context (event_iso : Z → string).
Implicit Types s : Server D.

Lemma reads_blocker_text e : reads (D := D) (blocker_text e).
Proof. unfold blocker_text. reading. Qed.
Hint Resolve reads_blocker_text : srv.
Lemma reads_blocker_line ip e : reads (D := D) (blocker_line ip e).
Proof. unfold blocker_line. reading. Qed.
Lemma reads_change_text v : reads (D := D) (change_text v).
Proof. unfold change_text. reading. Qed.
Hint Resolve reads_change_text : srv.
Lemma reads_change_line id v : reads (D := D) (change_line id v).
Proof. unfold change_line. reading. Qed.
Lemma reads_listing {V} (print : string → V → M (Server D) string) start m :
  (∀ k v, reads (print k v)) → reads (listing print start m).
Proof.
  intros Hp. unfold listing. generalize (i32_wrapping_add start 10) as stop, 0 as i.
  induction (hash_order m) as [|[k v] l IH]; intros stop i; simpl; reading.
Qed.
Lemma reads_punch_lines l : reads (D := D) (punch_lines event_iso l).
Proof. induction l; simpl; reading. Qed.

(** [retain] with a test that only turns an entry down once it is [dead]. *)
Section Retain.
Context {V : Type} (keep : V → M (Server D) bool) (dead : Instant → V → Prop).
Hypothesis dead_mono : ∀ t t' v, t ≤ t' → dead t v → dead t' v.
Hypothesis keep_spec : ∀ v s,
  wp (keep v) (λ r s', later s s' ∧ ∃ b : bool, r = Ok b ∧ (b = false → dead (ck_now (sv_clock s')) v)) s.

Lemma wp_retain_if l (m : gmap string V) s (Q : result (gmap string V) → Server D → Prop) :
  (∀ k v, (k, v) ∈ l → m !! k = Some v) → NoDup l.*1 →
  (∀ m' s', later s s' → m' ⊆ m →
     (∀ k v, m !! k = Some v → m' !! k = None → dead (ck_now (sv_clock s')) v) → Q (Ok m') s') →
  wp (retain_if keep l m) Q s.
Proof.
  revert m s Q. induction l as [|[k v] l IH]; intros m s Q Hin Hnd HQ; simpl.
  { apply wp_ret, HQ; [done..|]. congruence. }
  simpl in Hnd. apply list.NoDup_cons in Hnd as [Hk Hnd].
  assert (m !! k = Some v) as Hkv by (apply Hin; by left).
  apply wp_bind. eapply wp_mono; [|apply keep_spec]. intros r s1 (Hl1 & b & -> & Hb).
  apply IH; [|done|].
  - intros k' v' Hk'. assert (k' ≠ k).
    { intros ->. apply Hk. by apply (list_elem_of_fmap_2' _ _ (k, v')). }
    destruct b; [|rewrite lookup_delete_ne by done]; apply Hin; by right.
  - intros m' s2 Hl2 Hsub Hdead. apply HQ; [by etrans| |].
    + destruct b; [done|]. etrans; [exact Hsub|apply delete_subseteq].
    + intros k' v' Hv' Hn. destruct b; [by eapply Hdead|]. destruct (decide (k' = k)) as [->|Hne].
      * simplify_eq. eapply dead_mono; [by apply later_now|by apply Hb].
      * apply (Hdead k'); [by rewrite lookup_delete_ne|done].
Qed.

Lemma wp_retain_map `{!HashOrderLaws O} (m : gmap string V) s (Q : result (gmap string V) → Server D → Prop) :
  (∀ m' s', later s s' → m' ⊆ m →
     (∀ k v, m !! k = Some v → m' !! k = None → dead (ck_now (sv_clock s')) v) → Q (Ok m') s') →
  wp (retain_if keep (hash_order m) m) Q s.
Proof.
  intros HQ. apply wp_retain_if; [| |done].
  - intros k v Hin. rewrite hash_order_perm in Hin. by apply elem_of_map_to_list.
  - rewrite hash_order_perm. apply NoDup_fst_map_to_list.
Qed.
End Retain.

Lemma as_secs_gt d n : n < as_secs d → from_secs n ≤ d.
Proof. intros. apply as_secs_ge. lia. Qed.

Lemma keep_blocker_spec e s :
  wp (keep_blocker e) (λ r s', later s s' ∧ ∃ b : bool, r = Ok b ∧
    (b = false → block_stale (ck_now (sv_clock s')) e)) s.
Proof.
  unfold keep_blocker. apply wp_bind, wp_elapsed. intros s1 Hl1.
  destruct (_ <=? IP_BLOCK_DUR) eqn:H1; [by apply wp_ret; split; [|exists true]|].
  apply wp_bind, wp_elapsed. intros s2 Hl2. apply wp_ret. split; [by etrans|]. eexists. split; [done|].
  intros H2. reflect_bools. apply later_now in Hl2. apply block_stale_spec.
  apply as_secs_gt in H1, H2. unfold window_expired. rewrite !Z.leb_le. split; [|done].
  etrans; [exact H1|]. by apply duration_since_mono.
Qed.
End ConsoleLemmas.
#[export] Hint Resolve reads_blocker_text reads_blocker_line reads_change_text reads_change_line
  reads_listing reads_punch_lines : srv.

(** ** The invariant of the server *)

Section ConsoleSafe.
Context {D : Type} `{!PeerStore D} `{X : !Externals} `{L : !ExternalLaws X}
  `{R : !Entropy} `{H : !HttpLibrary} `{O : !HashOrder}.
Context (event_iso : Z → string) (i : Inner).
Implicit Types s : Server D.

Lemma reads_safe {A} (m : M (Server D) A) : reads m → safe i m.
Proof.
  intros Hm s Hs. eapply wp_mono; [|apply Hm]. intros r s' [_ (c & _ & ->)]. by apply clock_safe.
Qed.

Lemma reads_retain_if {V} (keep : V → M (Server D) bool) l m :
  (∀ v, reads (keep v)) → reads (retain_if keep l m).
Proof. intros Hk. revert m. induction l as [|[k v] l IH]; intros m; simpl; reading. Qed.

Lemma reads_keep_blocker e : reads (D := D) (keep_blocker e).
Proof. unfold keep_blocker. reading. Qed.
Lemma reads_keep_change v : reads (D := D) (keep_change v).
Proof. unfold keep_change. reading. Qed.
Hint Resolve reads_keep_blocker reads_keep_change reads_retain_if : srv.
Hint Extern 2 (safe _ _) => apply reads_safe; solve [eauto with srv] : safe.

Lemma safe_transient f : safe i (modify (λ s, set_reg (set_transient (f s) (sv_reg s)) s)).
Proof. apply safe_modify.
  intros s [S1 S2 S3 S4 S5]. split; try done.
  pose proof (clock_wf i _ _ (sv_clock s) (f s) S1) as Hreg.
  by destruct s as [[[] ?]].
Qed.
Lemma safe_set_blockers b : safe i (modify (@set_blockers D b)).
Proof. apply (safe_transient (λ s, mkTransient b (tr_changes (transient s)))). Qed.
Lemma safe_set_changes b : safe i (modify (@set_changes D b)).
Proof. apply (safe_transient (λ s, mkTransient (tr_blockers (transient s)) b)). Qed.
Lemma safe_clear_log : safe i (modify (@set_punch_reqs D [])).
Proof. apply safe_modify. by intros s [S1 S2 S3 S4 S5]. Qed.
Lemma safe_always b : safe i (modify (@set_always_use_relay D b)).
Proof. apply safe_modify. by intros s [S1 S2 S3 S4 S5]. Qed.
Hint Resolve safe_set_blockers safe_set_changes safe_clear_log safe_always : safe.

Lemma safe_check_cmd rs closed cmd : safe (D := D) i (check_cmd event_iso rs closed cmd).
Proof.
  unfold check_cmd, console_ip_blocker, console_ip_changes, console_punch_requests, console_always_use_relay,
    console_test_geo. cbn zeta.
  destruct (split_char _ _) as [|c fds]; [apply safe_ret|]. safety.
Qed.
End ConsoleSafe.
#[export] Hint Resolve reads_keep_blocker reads_keep_change reads_retain_if : srv.

(** ** What a command can change *)

Section Tampers.
Context {D : Type} `{!PeerStore D} `{X : !Externals} `{R : !Entropy} `{H : !HttpLibrary} `{O : !HashOrder}.
Context (event_iso : Z → string).
Implicit Types s : Server D.

(** The clock moves on, the limiter tables and the log of punch requests only lose
    entries, the rotation of the relays and the relay switch are anything, and the
    rest stays. *)
Definition tampered s s' : Prop :=
  ∃ c tr log rot aur, ck_now (sv_clock s) ≤ ck_now c ∧
    tr_blockers tr ⊆ tr_blockers (transient s) ∧ tr_changes tr ⊆ tr_changes (transient s) ∧
    len log ≤ len (sv_punch_reqs s) ∧
    s' = mkServer (mkRegState (set_clock c (rs_pm (sv_reg s))) tr) (sv_pending s) (sv_draws s) (sv_tcp_punch s)
           (sv_chans s) log rot aur (sv_rates s) (sv_proxy_slots s) (sv_keepalives s).

#[local] Instance tampered_preorder : PreOrder tampered.
Proof.
  split.
  - intros [[[] []]]. eexists _, _, _, _, _. split_and!; [done..|]. reflexivity.
  - intros s1 s2 s3 (c & tr & log & rot & aur & Hc & Hb & Hch & Hl & ->)
      (c' & tr' & log' & rot' & aur' & Hc' & Hb' & Hch' & Hl' & ->). simpl in *.
    eexists c', tr', log', rot', aur'. split_and!; [|by etrans|by etrans|lia|done].
    change (ck_now c ≤ ck_now c') in Hc'. lia.
Qed.

Lemma later_tampered s s' : later s s' → tampered s s'.
Proof.
  intros (c & Hc & ->).
  exists c, (transient s), (sv_punch_reqs s), (sv_rotation s), (sv_always_use_relay s). by split_and!.
Qed.

Definition tampers {A} (m : M (Server D) A) : Prop := ∀ s, wp m (λ _ s', tampered s s') s.

Lemma tampers_reads {A} (m : M (Server D) A) : reads m → tampers m.
Proof.
  intros Hm s. eapply wp_mono; [|apply Hm]. intros r s' [_ Hl]. by apply later_tampered.
Qed.
Lemma tampers_bind {A B} (m : M (Server D) A) (f : A → M (Server D) B) :
  tampers m → (∀ a, tampers (f a)) → tampers (m ≫= f).
Proof.
  intros Hm Hf s. apply wp_bind. eapply wp_mono; [|apply Hm].
  intros [a|e] s1 H1; [|done]. eapply wp_mono; [|apply Hf]. intros r s2 H2. by etrans.
Qed.
Lemma tampers_modify f : (∀ s, tampered s (f s)) → tampers (modify f).
Proof. intros Hf s. apply wp_modify, Hf. Qed.
Lemma tampers_always b : tampers (modify (@set_always_use_relay D b)).
Proof.
  apply tampers_modify. intros [[[] []]]. by eexists _, _, _, _, _; split_and!.
Qed.
Lemma tampers_clear_log : tampers (modify (@set_punch_reqs D [])).
Proof.
  apply tampers_modify. intros [[[] []]]. eexists _, _, _, _, _. split_and!; [done..| |reflexivity].
  unfold len. simpl. lia.
Qed.
Lemma tampers_relay_server rs : tampers (get_relay_server rs).
Proof.
  intros s. apply wp_get_relay_server. intros relay n _. destruct s as [[[] []]].
  by eexists _, _, _, _, _; split_and!.
Qed.
Hint Extern 2 (tampers _) => apply tampers_reads; solve [eauto with srv] : srv.
Hint Resolve tampers_always tampers_clear_log tampers_relay_server : srv.
Hint Resolve reads_listing reads_blocker_line reads_blocker_text reads_change_line reads_change_text
  reads_punch_lines : srv.

(** A table once pruned: what is stored later is a part of it. *)
Lemma retained_sub {V} (keep : V → M (Server D) bool) l (m : gmap string V) s :
  (∀ v, reads (keep v)) →
  wp (retain_if keep l m) (λ r s', later s s' ∧ ∃ m', r = Ok m' ∧ m' ⊆ m) s.
Proof.
  intros Hkeep. revert m s. induction l as [|[k v] l IH]; intros m s; simpl.
  { apply wp_ret. split; [done|]. by exists m. }
  apply wp_bind. eapply wp_mono; [|apply Hkeep]. intros [b|e] s1 [Hok H1]; [|done].
  eapply wp_mono; [|apply IH]. intros r s2 (H2 & m' & -> & Hsub). split; [by etrans|].
  exists m'. split; [done|]. etrans; [exact Hsub|]. destruct b; [done|apply delete_subseteq].
Qed.

Lemma tampered_blockers s s1 m :
  later s s1 → m ⊆ tr_blockers (transient s) → tampered s (set_blockers m s1).
Proof.
  intros (c & Hc & ->) Hm.
  exists c, (mkTransient m (tr_changes (transient s))), (sv_punch_reqs s), (sv_rotation s), (sv_always_use_relay s).
  by split_and!.
Qed.
Lemma tampered_changes s s1 m :
  later s s1 → m ⊆ tr_changes (transient s) → tampered s (set_changes m s1).
Proof.
  intros (c & Hc & ->) Hm.
  exists c, (mkTransient (tr_blockers (transient s)) m), (sv_punch_reqs s), (sv_rotation s), (sv_always_use_relay s).
  by split_and!.
Qed.

Lemma tampers_ip_blocker ip dash : tampers (console_ip_blocker ip dash).
Proof.
  intros s. unfold console_ip_blocker. apply wp_bind, wp_gets, wp_bind.
  eapply wp_mono; [|apply retained_sub, reads_keep_blocker]. intros r s1 (Hl & m & -> & Hsub).
  apply wp_bind, wp_modify. set (s2 := set_blockers m s1).
  assert (tampered s s2) as H2 by (by apply tampered_blockers).
  assert (∀ x, wp (x) (λ _ s', tampered s2 s') s2 → wp x (λ (_ : result string) s', tampered s s') s2) as Hmono.
  { intros x Hx. eapply wp_mono; [|exact Hx]. intros r' s' H'. by etrans. }
  apply Hmono. cbn zeta.
  destruct (position ip <? 0); [|by apply tampers_reads; reading].
  destruct ip as [ip|]; [|by apply tampers_reads; reading].
  apply wp_bind. eapply (wp_mono _ (λ r s', later s2 s')).
  2:{ assert (reads (D := D) (match m !! ip with Some e => blocker_text e | None => mret "" end)) as Hr by reading.
      eapply wp_mono; [|apply Hr]. by intros ? ? [_ ?]. }
  intros [x|e] s3 H3; [|by apply later_tampered].
  destruct (is_dash dash).
  - apply wp_bind, wp_modify, wp_ret. apply (tampered_blockers s2 s3 (delete ip m)); [done|apply delete_subseteq].
  - apply wp_bind, wp_ret, wp_ret. by apply later_tampered.
Qed.


Lemma tampers_ip_changes id dash : tampers (console_ip_changes id dash).
Proof.
  intros s. unfold console_ip_changes. apply wp_bind, wp_gets, wp_bind.
  eapply wp_mono; [|apply retained_sub, reads_keep_change]. intros r s1 (Hl & m & -> & Hsub).
  apply wp_bind, wp_modify. set (s2 := set_changes m s1).
  assert (tampered s s2) as H2 by (by apply tampered_changes).
  assert (∀ A (x : M (Server D) A), reads x → wp x (λ _ s', tampered s2 s') s2) as Hread.
  { intros A x Hx. by apply tampers_reads. }
  cbn zeta. apply wp_bind. eapply (wp_mono _ (λ _ s', tampered s2 s')).
  - intros [[[start x] m']|e] s3 H3; [|by etrans]. apply wp_bind.
    assert (reads (D := D) (if 0 <=? start then listing change_line start m' else mret "")) as Hr by reading.
    eapply wp_mono; [|apply (tampers_reads _ Hr)]. intros [rest|e] s4 H4; [apply wp_ret|]; (etrans; [|done]); by etrans.
  - destruct (_ && _); [by apply Hread; reading|]. destruct id as [id|]; [|by apply Hread; reading].
    apply wp_bind. assert (reads (D := D) (match m !! id with Some v => change_text v | None => mret "" end)) as Hr by reading.
    eapply wp_mono; [|apply Hr]. intros [x|e] s3 [Hok H3]; [|done].
    destruct (is_dash dash).
    + apply wp_bind, wp_modify, wp_ret. apply (tampered_changes s2 s3 (delete id m)); [done|apply delete_subseteq].
    + apply wp_ret. by apply later_tampered.
Qed.
Hint Resolve tampers_ip_blocker tampers_ip_changes : srv.

(** Whatever is typed at the console. *)
Lemma tampers_check_cmd rs closed cmd : tampers (check_cmd event_iso rs closed cmd).
Proof.
  unfold check_cmd, console_punch_requests, console_always_use_relay, console_test_geo. cbn zeta.
  repeat (
    lazymatch goal with
    | |- tampers (_ ≫= _) => apply tampers_bind
    | |- tampers (match ?x with _ => _ end) => destruct x
    | |- ∀ _, tampers _ => intros ?
    | |- tampers _ => solve [eauto with srv]
    end; cbn beta zeta).
Qed.
End Tampers.

(** ** Theorems *)

Section ConsoleTheorems.
Context {D : Type} `{!PeerStore D} `{X : !Externals} `{R : !Entropy} `{H : !HttpLibrary} `{O : !HashOrder}
  `{OL : !HashOrderLaws O}.
Context (event_iso : Z → string).
Implicit Types s : Server D.

Definition blockers_of s : IpBlockMap := tr_blockers (transient s).

(** The limiter loses nothing but entries that have run out. *)
Definition limiter_kept s s' : Prop :=
  ck_now (sv_clock s) ≤ ck_now (sv_clock s') ∧ blockers_of s' ⊆ blockers_of s ∧
  ∀ ip e, blockers_of s !! ip = Some e → blockers_of s' !! ip = None →
    block_stale (ck_now (sv_clock s')) e.

Lemma limiter_kept_same s s' :
  ck_now (sv_clock s) ≤ ck_now (sv_clock s') → blockers_of s' = blockers_of s → limiter_kept s s'.
Proof. intros Hc Heq. split; [done|]. rewrite Heq. split; [done|]. congruence. Qed.
Lemma later_kept s s' : later s s' → limiter_kept s s'.
Proof. intros (c & Hc & ->). by apply limiter_kept_same. Qed.
#[local] Instance kept_preorder : PreOrder limiter_kept.
Proof.
  split; [intros s; by apply limiter_kept_same|].
  intros s1 s2 s3 (Hc & Hsub & Hdead) (Hc' & Hsub' & Hdead').
  split; [lia|]. split; [by etrans|]. intros ip e He Hn.
  destruct (blockers_of s2 !! ip) as [e'|] eqn:E.
  - rewrite (lookup_weaken _ _ _ _ E Hsub) in He. simplify_eq. by eapply Hdead'.
  - eapply block_stale_mono; [exact Hc'|by eapply Hdead].
Qed.

Definition keeps_limiter {A} (m : M (Server D) A) : Prop := ∀ s, wp m (λ _ s', limiter_kept s s') s.

Lemma keeps_reads {A} (m : M (Server D) A) : reads m → keeps_limiter m.
Proof. intros Hm s. eapply wp_mono; [|apply Hm]. intros r s' [_ Hl]. by apply later_kept. Qed.
Lemma keeps_bind {A B} (m : M (Server D) A) (f : A → M (Server D) B) :
  keeps_limiter m → (∀ a, keeps_limiter (f a)) → keeps_limiter (m ≫= f).
Proof.
  intros Hm Hf s. apply wp_bind. eapply wp_mono; [|apply Hm].
  intros [a|e] s1 H1; [|done]. eapply wp_mono; [|apply Hf]. intros r s2 H2. by etrans.
Qed.
Lemma keeps_modify f :
  (∀ s, sv_clock (f s) = sv_clock s ∧ blockers_of (f s) = blockers_of s) → keeps_limiter (modify f).
Proof. intros Hf s. apply wp_modify. destruct (Hf s) as [Hc Hb]. apply limiter_kept_same; [by rewrite Hc|done]. Qed.
Hint Extern 2 (keeps_limiter _) => apply keeps_reads; solve [eauto with srv] : srv.
Hint Extern 2 (keeps_limiter (modify _)) => apply keeps_modify; by intros : srv.
Ltac keeping :=
  repeat (
    lazymatch goal with
    | |- keeps_limiter (_ ≫= _) => apply keeps_bind
    | |- keeps_limiter (match ?x with _ => _ end) => destruct x
    | |- ∀ _, keeps_limiter _ => intros ?
    | |- keeps_limiter _ => solve [eauto with srv]
    end; cbn beta zeta).

Lemma keeps_relay_server rs : keeps_limiter (get_relay_server rs).
Proof. intros s. apply wp_get_relay_server. intros relay n _. by apply limiter_kept_same. Qed.
Hint Resolve keeps_relay_server : srv.

Lemma keeps_ip_blocker ip dash : is_dash dash = false → keeps_limiter (console_ip_blocker ip dash).
Proof.
  intros Hd s. unfold console_ip_blocker. apply wp_bind, wp_gets, wp_bind.
  apply (wp_retain_map keep_blocker block_stale block_stale_mono keep_blocker_spec).
  intros m s1 Hl Hsub Hdead. apply wp_bind, wp_modify.
  assert (limiter_kept s (set_blockers m s1)) as Hkept.
  { split; [exact (later_now _ _ Hl)|]. split; [exact Hsub|exact Hdead]. }
  cbn zeta. rewrite Hd.
  match goal with |- wp ?m _ _ => assert (keeps_limiter m) as Hm by keeping end.
  eapply wp_mono; [|apply Hm]. intros r s2 H2. by etrans.
Qed.

Lemma keeps_check_cmd rs closed cmd :
  is_dash (split_char " "%char (trim cmd) !! 2%nat) = false → keeps_limiter (check_cmd event_iso rs closed cmd).
Proof.
  intros Hd. unfold check_cmd. destruct (split_char _ _) as [|c fds]; [keeping|].
  pose proof (keeps_ip_blocker ((c :: fds) !! 1%nat) _ Hd) as Hib. revert Hib. generalize ((c :: fds) !! 2%nat).
  intros arg2 Hib. unfold console_ip_changes, console_punch_requests, console_always_use_relay, console_test_geo.
  cbn zeta. keeping.
Qed.

(** Looking at the server does not weaken it: whatever command is given on the
    console, unless it asks to remove an entry, the limiter still agrees with the
    reference that never forgets an address, so every later request is decided as
    if nobody had looked. *)
Theorem console_keeps_limiter rs closed cmd s spec :
  is_dash (split_char " "%char (trim cmd) !! 2%nat) = false →
  let s' := (check_cmd event_iso rs closed cmd s).2 in
  agrees (ck_now (sv_clock s)) (blockers_of s) spec →
  agrees (ck_now (sv_clock s')) (blockers_of s') spec.
Proof.
  intros Hd. cbn zeta. destruct (check_cmd event_iso rs closed cmd s) as [r s'] eqn:Hrun. simpl.
  destruct (wp_run _ _ _ _ _ (keeps_check_cmd rs closed cmd Hd s) Hrun) as (Hc & Hsub & Hdead).
  intros Hag ip. specialize (Hag ip). pose proof (Hdead ip) as Hdead'.
  destruct (blockers_of s' !! ip) as [e|] eqn:E.
  - by rewrite (lookup_weaken _ _ _ _ E Hsub) in Hag.
  - destruct (blockers_of s !! ip) as [e|], (spec !! ip) as [e'|]; try done.
    + subst. by apply Hdead'.
    + by eapply block_stale_mono.
Qed.
End ConsoleTheorems.

(** ** Concrete instances *)

#[export] Instance sample_order : HashOrder | 100 := λ _ m, map_to_list m.
#[export] Instance sample_order_laws : HashOrderLaws sample_order | 100.
Proof. by intros V m. Qed.

(** One address still limited, one whose windows are over. *)
Definition sample_blockers : IpBlockMap :=
  <["192.0.2.1" := ((30, from_secs 90000), ({["device01"]}, from_secs 90000))]>
    {["192.0.2.2" := ((3, from_secs 10), (∅, from_secs 10))]}.
Definition sample_console_server : Server SqlDb :=
  set_blockers sample_blockers (set_sv_clock (mkClock (from_secs 90010) []) sample_server).

Lemma console_keeps_limiter_witness :
  let s' := (check_cmd show sample_rs false "ip-blocker 0" sample_console_server).2 in
  map_to_list (blockers_of s') = [("192.0.2.1", ((30, from_secs 90000), ({["device01"]}, from_secs 90000)))] ∧
  agrees (ck_now (sv_clock s')) (blockers_of s') sample_blockers.
Proof.
  split; [by vm_compute|].
  apply (console_keeps_limiter show sample_rs false "ip-blocker 0" sample_console_server sample_blockers).
  - by vm_compute.
  - intros ip. change (blockers_of sample_console_server) with sample_blockers.
    by destruct (sample_blockers !! ip).
Defined.
