(* ===== verification/Connections.v ===== *)
(** The front of the identity server ([src/rendezvous_server.rs]: [io_loop],
    [handle_listener], [handle_listener2], [handle_listener_inner],
    [handle_tcp], [handle_udp]).

    A [Front] is the shared server, the event loop, the free permits and the open
    connections, each in a [Stage] of its life.  [front_step] runs one event of one
    connection, or one of the background; which events happen, and what arrives
    with them, is the environment's choice.  The messages of the handlers, the
    handshakes, the console and the relay checks are those of the other files. *)

From Stdlib Require Import Ascii String.
From S2P Require Import Prelude.
From S2P Require Import Text.
From S2P Require Import Net.
From S2P Require Import RateLimit.
From S2P Require Import Database.
From S2P Require Import PeerCache.
From S2P Require Import Messages.
From S2P Require Import Externals.
From S2P Require Import Registration.
From S2P Require Import Pending.
From S2P Require Import HttpProxy.
From S2P Require Import Server.
From S2P Require Import RelayStream.
From S2P Require Import Handshake.
From S2P Require Import RelayCheck.
From S2P Require Import Console.

(** ** Interfaces *)

(** [Encrypt]: the ciphers of one direction of a WebSocket connection. *)
Class EncryptLibrary := {
  Encrypt : Type;
  Encrypt_new : bytes → Encrypt;
  enc : bytes → Encrypt → option bytes * Encrypt;
  dec : bytes → Encrypt → option bytes * Encrypt
}.

(** [parse_from_bytes] and [write_to_bytes] at [RendezvousMessage]. *)
Class WireFormat := {
  parse_from_bytes : bytes → option RendezvousMessage;
  write_to_bytes : Union → option bytes
}.

(** ** Data *)

Definition PEER_CACHE_IDLE_SECS : Z := 600.

Section Data.
Context {D : Type} `{F : !FramedLibrary} `{E : !EncryptLibrary}.

(** What a serving connection reads from and writes to; a WebSocket's sending task
    is gone once its cipher is. *)
Inductive Io := TcpIo (f : Framed) | WsIo (dec_in : Encrypt) (enc_out : option Encrypt).

Inductive Stage :=
  | ConsoleCommand
  | NatExchange
  | NatQuery (f : Framed)
  | Upgrading
  | Exchanging (ws : bool)
  | Serving (c : ChanId) (io : Io) (health_keepalive_started : bool).

(** A connection's task: its clone of the server, the client's address. *)
Record Conn := mkConn { cn_rs : Rs; cn_addr : SocketAddr; cn_stage : Stage }.

(** What leaves on a connection. *)
Inductive Sent :=
  | SentText (s : string)
  | SentKey (m : Union)
  | SentFrame (secured : bool) (m : Union)
  | SentBinary (b : bytes).

Record Front := mkFront {
  fr_server : Server D;
  fr_loop : Loop;
  fr_slots : Z;
  fr_conns : gmap N Conn;
  fr_next : N;
  fr_sent : list (N * Sent)
}.

Definition set_server (s : Server D) (fr : Front) : Front :=
  mkFront s (fr_loop fr) (fr_slots fr) (fr_conns fr) (fr_next fr) (fr_sent fr).
Definition set_loop (l : Loop) (fr : Front) : Front :=
  mkFront (fr_server fr) l (fr_slots fr) (fr_conns fr) (fr_next fr) (fr_sent fr).
Definition set_stage (n : N) (st : Stage) (fr : Front) : Front :=
  mkFront (fr_server fr) (fr_loop fr) (fr_slots fr)
    (alter (λ cn, mkConn (cn_rs cn) (cn_addr cn) st) n (fr_conns fr)) (fr_next fr) (fr_sent fr).
Definition set_addr (n : N) (a : SocketAddr) (fr : Front) : Front :=
  mkFront (fr_server fr) (fr_loop fr) (fr_slots fr)
    (alter (λ cn, mkConn (cn_rs cn) a (cn_stage cn)) n (fr_conns fr)) (fr_next fr) (fr_sent fr).
Definition send (n : N) (l : list Sent) (fr : Front) : Front :=
  mkFront (fr_server fr) (fr_loop fr) (fr_slots fr) (fr_conns fr) (fr_next fr)
    (fr_sent fr ++ ((λ m, (n, m)) <$> l)).

(** The end of a task: [_permit] is dropped. *)
Definition finish (n : N) (fr : Front) : Front :=
  mkFront (fr_server fr) (fr_loop fr) (fr_slots fr + 1) (delete n (fr_conns fr)) (fr_next fr) (fr_sent fr).
End Data.
Arguments Front D {F E}.

(** ** Operations *)

Section Front.
Context {D : Type} `{!PeerStore D} `{X : !Externals} `{R : !Entropy} `{H : !HttpLibrary} `{O : !HashOrder}
  `{B : !BoxLibrary} `{F : !FramedLibrary} `{E : !EncryptLibrary} `{W : !WireFormat}.
Context (event_iso : Z → string) (relay_port : Z).
(** The key of the server, its secret part. *)
Context (key : string) (sk : bytes).
Implicit Types fr : Front D.

(** [try_acquire_owned], a clone of the loop's server, and the new task. *)
Definition spawn_task (addr : SocketAddr) (st : Stage) fr : Front D :=
  if fr_slots fr <=? 0 then fr else
  mkFront (fr_server fr) (fr_loop fr) (fr_slots fr - 1)
    (<[fr_next fr := mkConn (lp_rs (fr_loop fr)) addr st]> (fr_conns fr)) (fr_next fr + 1) (fr_sent fr).

Definition handle_listener (addr : SocketAddr) (ws : bool) fr : Front D :=
  spawn_task addr (if ws then Upgrading else Exchanging false) fr.

Definition handle_listener2 (addr : SocketAddr) fr : Front D :=
  if runtime_console (inner (lp_rs (fr_loop fr))) && is_loopback (sa_ip (try_into_v4 addr))
  then spawn_task addr ConsoleCommand fr else spawn_task addr NatExchange fr.

(** The console's task: [input] is what one read of at most 1024 bytes within a
    second gave.  The task waits while the loop's queue is full. *)
Definition console_command (n : N) (cn : Conn) (input : option bytes) fr : Front D :=
  match input with
  | None => finish n fr
  | Some buffer =>
      match utf8_of (take 1024 buffer) with
      | None => finish n fr
      | Some data =>
          match check_cmd event_iso (cn_rs cn) false data (fr_server fr) with
          | (Ok (res, None), s) => finish n (send n [SentText res] (set_server s fr))
          | (Ok (res, Some d), s) =>
              match put d (fr_loop fr) with
              | Some l => finish n (send n [SentText res] (set_loop l (set_server s fr)))
              | None => fr
              end
          | (Err _, s) => finish n (set_server s fr)
          end
      end
  end.

(** *** The NAT-test port *)

Definition nat_exchange (n : N) (tmp : bytes * bytes) (sent : result unit)
    (next : option (result bytes)) (stream : Framed) fr : Front D :=
  let x := attempt_handshake parse_from_bytes sk tmp sent next stream in
  let fr := send n (SentKey <$> hs_sent x) fr in
  match hs_key x with
  | Ok _ => set_stage n (NatQuery (hs_stream x)) fr
  | Err _ => finish n fr
  end.

(** The answer to the one request, if it is one. *)
Definition nat_answer (cn : Conn) (msg_in : RendezvousMessage) : M (Server D) (option Union) :=
  match msg_in with
  | Some (MTestNatRequest _) => mret (Some (MTestNatResponse (mkTestNatResponse (sa_port (cn_addr cn)) None)))
  | Some (MOnlineRequest peers) =>
      if (len peers <=? ONLINE_QUERY_MAX_PEERS) && forallb valid_peer_id peers
      then msg ← build_online_response peers; mret (Some msg) else mret None
  | _ => mret None
  end.

Definition nat_query (n : N) (cn : Conn) (f : Framed) (next : option (result bytes)) fr : Front D :=
  match next with
  | Some (Ok bytes) =>
      match parse_from_bytes bytes with
      | Some msg_in =>
          match nat_answer cn msg_in (fr_server fr) with
          | (Ok (Some msg), s) => finish n (send n [SentFrame (is_secured f) msg] (set_server s fr))
          | (_, s) => finish n (set_server s fr)
          end
      | None => finish n fr
      end
  | _ => finish n fr
  end.

(** *** The main ports *)

(** The upgrade of a WebSocket; [None] when it failed or took too long. *)
Definition upgraded (n : N) (cn : Conn) (headers : option Headers) fr : Front D :=
  match headers with
  | Some headers =>
      set_stage n (Exchanging true)
        (set_addr n (client_addr (trust_proxy_headers (inner (cn_rs cn))) headers (cn_addr cn)) fr)
  | None => finish n fr
  end.

(** A new channel, cached under the client's address. *)
Definition begin_serving (n : N) (cn : Conn) (io : Io) fr : Front D :=
  match open_connection (cn_addr cn) (fr_server fr) with
  | (Ok c, s) => set_stage n (Serving c io false) (set_server s fr)
  | (Err _, s) => finish n (set_server s fr)
  end.

Definition tcp_exchange (n : N) (cn : Conn) (tmp : bytes * bytes) (sent : result unit)
    (next : option (result bytes)) (stream : Framed) fr : Front D :=
  let x := attempt_handshake parse_from_bytes sk tmp sent next stream in
  let fr := send n (SentKey <$> hs_sent x) fr in
  match hs_key x with
  | Ok _ => begin_serving n cn (TcpIo (hs_stream x)) fr
  | Err _ => finish n fr
  end.

Definition ws_exchange (n : N) (cn : Conn) (tmp : bytes * bytes) (encoded : bool) (sent : result unit)
    (items : list (option (result WsMessage))) fr : Front D :=
  let x := attempt_handshake_ws parse_from_bytes sk tmp encoded sent items in
  let fr := send n (SentKey <$> hs_sent x) fr in
  match hs_key x with
  | Ok k => begin_serving n cn (WsIo (Encrypt_new k) (Some (Encrypt_new k))) fr
  | Err _ => finish n fr
  end.

(** The end of [handle_listener_inner]. *)
Definition close (n : N) (cn : Conn) (c : ChanId) fr : Front D :=
  finish n (set_server (close_connection c (cn_addr cn) (fr_server fr)).2 fr).

Definition io_is_ws (io : Io) : bool := match io with TcpIo _ => false | WsIo _ _ => true end.

(** [handle_tcp_msg] on behalf of a connection, which goes on or ends. *)
Definition serve (n : N) (cn : Conn) (c : ChanId) (io : Io) (started : bool) (api : Api)
    (msg_in : RendezvousMessage) fr : Front D :=
  match handle_tcp_msg (cn_rs cn) api msg_in (Some c) started (cn_addr cn) key (io_is_ws io) (fr_server fr) with
  | (Ok (true, started), s) => set_stage n (Serving c io started) (set_server s fr)
  | (_, s) => close n cn c (set_server s fr)
  end.

(** [handle_tcp]. *)
Definition handle_tcp (n : N) (cn : Conn) (c : ChanId) (io : Io) (started : bool) (api : Api)
    (bytes : bytes) fr : Front D :=
  match parse_from_bytes bytes with
  | Some msg_in => serve n cn c io started api msg_in fr
  | None => close n cn c fr
  end.

(** One round of the reading loops: [next] is [None] when thirty seconds passed. *)
Definition incoming (n : N) (cn : Conn) (c : ChanId) (io : Io) (started : bool) (api : Api)
    (next : option (option Item)) fr : Front D :=
  match io with
  | TcpIo f =>
      match next with
      | Some (Some (FramedItem (Ok bytes))) => handle_tcp n cn c io started api bytes fr
      | _ => close n cn c fr
      end
  | WsIo dec_in enc_out =>
      match next with
      | Some (Some (WsItem (Ok msg))) =>
          match msg with
          | Binary bytes =>
              let '(plain, dec_in) := dec bytes dec_in in
              let io := WsIo dec_in enc_out in
              match plain with
              | None => close n cn c fr
              | Some bytes =>
                  if is_empty bytes then set_stage n (Serving c io started) fr
                  else handle_tcp n cn c io started api bytes fr
              end
          | Close => close n cn c fr
          | OtherMessage => fr
          end
      | _ => close n cn c fr
      end
  end.

(** The sending half takes one message; [sent] is whether it could be sent. *)
Definition outgoing (n : N) (cn : Conn) (c : ChanId) (io : Io) (started : bool) (sent : bool) fr : Front D :=
  match io with
  | TcpIo f =>
      match next_message c (fr_server fr) with
      | (Ok (Some msg), s) =>
          let fr := set_server s fr in
          if sent then send n [SentFrame (is_secured f) msg] fr else close n cn c fr
      | _ => fr
      end
  | WsIo _ None => fr
  | WsIo dec_in (Some enc_out) =>
      match next_message c (fr_server fr) with
      | (Ok (Some msg), s) =>
          let fr := set_server s fr in
          let gone fr := set_stage n (Serving c (WsIo dec_in None) started)
                           (set_server (drop_receiver c (fr_server fr)).2 fr) in
          match write_to_bytes msg with
          | None => fr
          | Some bytes =>
              match enc bytes enc_out with
              | (None, _) => gone fr
              | (Some bytes, enc_out) =>
                  if sent then send n [SentBinary bytes] (set_stage n (Serving c (WsIo dec_in (Some enc_out)) started) fr)
                  else gone fr
              end
          end
      | _ => fr
      end
  end.

(** *** The background *)

(** The timer of the peer cache. *)
Definition cleanup_tick : M (Server D) Z :=
  evicted ← on_pm (evict_inactive PEER_CACHE_IDLE_SECS);
  now ← instant_now;
  removed ← state (λ s,
    let '(r, t) := cleanup_transient_state now (transient s) in (r, set_reg (set_transient t (sv_reg s)) s));
  mret (evicted + removed.1 + removed.2).

(** A datagram. *)
Definition datagram (bytes : bytes) (addr : SocketAddr) : M (Server D) unit :=
  match parse_from_bytes bytes with Some msg_in => handle_udp msg_in addr | None => mret tt end.

Inductive Event :=
  | Accept (addr : SocketAddr) (ws : bool)
  | Accept2 (addr : SocketAddr)
  | CommandRead (n : N) (input : option bytes)
  | NatKeys (n : N) (tmp : bytes * bytes) (sent : result unit) (next : option (result bytes)) (stream : Framed)
  | NatMessage (n : N) (next : option (result bytes))
  | Upgraded (n : N) (headers : option Headers)
  | TcpKeys (n : N) (tmp : bytes * bytes) (sent : result unit) (next : option (result bytes)) (stream : Framed)
  | WsKeys (n : N) (tmp : bytes * bytes) (encoded : bool) (sent : result unit)
           (items : list (option (result WsMessage)))
  | Incoming (n : N) (api : Api) (next : option (option Item))
  | Outgoing (n : N) (sent : bool)
  | Datagram (bytes : bytes) (addr : SocketAddr)
  | KeepAlive (c : ChanId)
  | CleanupTick
  | LoopStep (e : LoopEvent)
  | TimePasses (c : Clock).

(** The connection an event belongs to. *)
Definition event_conn (e : Event) : option N :=
  match e with
  | CommandRead n _ | NatKeys n _ _ _ _ | NatMessage n _ | Upgraded n _ | TcpKeys n _ _ _ _
  | WsKeys n _ _ _ _ | Incoming n _ _ | Outgoing n _ => Some n
  | _ => None
  end.

(** An event of a connection in its stage; in another stage it does not happen. *)
Definition conn_step (e : Event) (n : N) (cn : Conn) fr : Front D :=
  match e, cn_stage cn with
  | CommandRead _ input, ConsoleCommand => console_command n cn input fr
  | NatKeys _ tmp sent next stream, NatExchange => nat_exchange n tmp sent next stream fr
  | NatMessage _ next, NatQuery f => nat_query n cn f next fr
  | Upgraded _ headers, Upgrading => upgraded n cn headers fr
  | TcpKeys _ tmp sent next stream, Exchanging false => tcp_exchange n cn tmp sent next stream fr
  | WsKeys _ tmp encoded sent items, Exchanging true => ws_exchange n cn tmp encoded sent items fr
  | Incoming _ api next, Serving c io started => incoming n cn c io started api next fr
  | Outgoing _ sent, Serving c io started => outgoing n cn c io started sent fr
  | _, _ => fr
  end.

Definition run_server {A} (m : M (Server D) A) fr : Front D := set_server (m (fr_server fr)).2 fr.

(** Configurations reach the loop through the console only. *)
Definition front_step (e : Event) fr : Front D :=
  match event_conn e with
  | Some n => match fr_conns fr !! n with Some cn => conn_step e n cn fr | None => fr end
  | None =>
      match e with
      | Accept addr ws => handle_listener addr ws fr
      | Accept2 addr => handle_listener2 addr fr
      | Datagram bytes addr => run_server (datagram bytes addr) fr
      | KeepAlive c => if bool_decide (c ∈ sv_keepalives (fr_server fr))
                       then run_server (keepalive_tick c) fr else fr
      | CleanupTick => run_server cleanup_tick fr
      | LoopStep (Configure _) => fr
      | LoopStep e => set_loop (loop_step relay_port e (fr_loop fr)) fr
      | TimePasses c => if ck_now (sv_clock (fr_server fr)) <=? ck_now c
                        then set_server (set_sv_clock c (fr_server fr)) fr else fr
      | _ => fr
      end
  end.
Definition front_run (es : list Event) fr : Front D := foldl (λ fr e, front_step e fr) fr es.
End Front.

(** ** What handlers do to the connections' channels *)

(** [s'] has the channels and keep-alive tasks of [s]; a cached sink is an old
    one, or this connection's under its own address. *)
Definition links `{X : !Externals} {D} (sink : option ChanId) (addr : SocketAddr) (s s' : Server D) : Prop :=
  dom (sv_chans s') = dom (sv_chans s) ∧ sv_keepalives s' = sv_keepalives s ∧
  ∀ a c, sv_tcp_punch s' !! a = Some c →
    sv_tcp_punch s !! a = Some c ∨ (sink = Some c ∧ a = try_into_v4 addr).

Section Links.
Context {D : Type} `{!PeerStore D} `{X : !Externals} `{R : !Entropy} `{H : !HttpLibrary} `{O : !HashOrder}.
Context (sink : option ChanId) (addr : SocketAddr).
Implicit Types s : Server D.

#[export] Instance links_preorder : PreOrder (@links X D sink addr).
Proof.
  split; [intros s; split_and!; auto|]. intros s1 s2 s3 (D1 & K1 & P1) (D2 & K2 & P2).
  split_and!; [congruence..|]. intros a c Hc. destruct (P2 a c Hc) as [Hc'|?]; [auto|by right].
Qed.

Definition linked {A} (m : M (Server D) A) : Prop := ∀ s, wp m (λ _ s', links sink addr s s') s.

Lemma links_same s s' :
  sv_chans s' = sv_chans s → sv_keepalives s' = sv_keepalives s → sv_tcp_punch s' = sv_tcp_punch s →
  links sink addr s s'.
Proof. intros H1 H2 H3. unfold links. rewrite H1, H2, H3. split_and!; auto. Qed.
Hint Resolve links_same : srv.

Lemma linked_ret {A} (a : A) : linked (mret a).
Proof. intros s. by apply wp_ret. Qed.
Lemma linked_bail {A} e : linked (bail e : M _ A).
Proof. intros s. by apply wp_bail. Qed.
Lemma linked_lift {A} (r : result A) : linked (lift r).
Proof. intros s. by apply wp_lift. Qed.
Lemma linked_gets {A} (f : Server D → A) : linked (gets f).
Proof. intros s. by apply wp_gets. Qed.
Lemma linked_bind {A B} (m : M _ A) (f : A → M _ B) : linked m → (∀ a, linked (f a)) → linked (m ≫= f).
Proof.
  intros Hm Hf s. apply wp_bind. eapply wp_mono; [|apply Hm]. intros [a|e] s1 H1; [|done].
  eapply wp_mono; [|apply Hf]. intros r s2 H2. by etrans.
Qed.
Lemma linked_attempt {A} (m : M _ A) : linked m → linked (attempt m).
Proof. intros Hm s. apply wp_attempt, Hm. Qed.
Lemma linked_modify f :
  (∀ s, sv_chans (f s) = sv_chans s ∧ sv_keepalives (f s) = sv_keepalives s ∧ sv_tcp_punch (f s) = sv_tcp_punch s) →
  linked (modify f).
Proof. intros Hf s. apply wp_modify. destruct (Hf s) as (? & ? & ?). by apply links_same. Qed.
Lemma linked_now : linked instant_now.
Proof. intros s. apply wp_instant_now. intros. by apply links_same. Qed.
Lemma linked_on_reg {A} (m : M (RegState D) A) : linked (on_reg m).
Proof. intros s. apply wp_on_reg, wp_intro. intros. by apply links_same. Qed.
Lemma linked_on_pm {A} (m : M (PeerMap D) A) : linked (on_pm m).
Proof. apply linked_on_reg. Qed.
Lemma linked_on_tokens {A} (m : M Rendezvous A) : linked (on_tokens m).
Proof. intros s. apply wp_on_tokens, wp_intro. intros. by apply links_same. Qed.
Lemma linked_on_proxy {A} (m : M Proxy A) : linked (on_proxy m).
Proof. intros s. apply wp_on_proxy, wp_intro. intros. by apply links_same. Qed.
Lemma linked_relay_server rs : linked (get_relay_server rs).
Proof. intros s. apply wp_get_relay_server. intros. by apply links_same. Qed.

Lemma linked_try_send c msg : linked (try_send c msg).
Proof.
  intros s. apply wp_try_send; [|done]. intros ch Hc _ _. split_and!; [|done|by left].
  simpl. by rewrite dom_alter_L.
Qed.
Lemma linked_forget a : linked (modify (λ s, set_tcp_punch (delete a (sv_tcp_punch s)) s)).
Proof.
  intros s. apply wp_modify. split_and!; [done..|]. simpl. intros a' c [_ ?]%lookup_delete_Some. by left.
Qed.
Lemma linked_cache_sink : linked (cache_sink addr sink).
Proof.
  intros s. unfold cache_sink. destruct sink as [c|]; [|apply wp_ret; split_and!; auto].
  apply wp_modify. split_and!; [done..|]. simpl. intros a c' [[<- <-]|[_ ?]]%lookup_insert_Some; [by right|by left].
Qed.
End Links.
#[export] Hint Resolve linked_ret linked_bail linked_lift linked_gets linked_now linked_on_reg linked_on_pm
  linked_on_tokens linked_on_proxy linked_relay_server linked_try_send linked_forget linked_cache_sink : srv.
#[export] Hint Extern 3 (linked _ _ (modify _)) => apply linked_modify; by intros : srv.

(** Walk through a handler. *)
Ltac linking :=
  repeat (
    lazymatch goal with
    | |- linked _ _ (_ ≫= _) => apply linked_bind
    | |- linked _ _ (attempt _) => apply linked_attempt
    | |- linked _ _ (match ?x with _ => _ end) => destruct x
    | |- ∀ _, linked _ _ _ => intros ?
    | |- linked _ _ _ => solve [eauto with srv]
    end; cbn beta zeta).

Section LinkedHandlers.
Context {D : Type} `{!PeerStore D} `{X : !Externals} `{R : !Entropy} `{H : !HttpLibrary} `{O : !HashOrder}.
Context (sink : option ChanId) (addr : SocketAddr).

Lemma linked_send_to_sink sink' msg : linked (D := D) sink addr (send_to_sink sink' msg).
Proof. unfold send_to_sink. linking. Qed.
Hint Resolve linked_send_to_sink : srv.
Lemma linked_send_to_tcp msg a : linked (D := D) sink addr (send_to_tcp msg a).
Proof. unfold send_to_tcp. linking. Qed.
Lemma linked_send_to_tcp_sync msg a : linked (D := D) sink addr (send_to_tcp_sync msg a).
Proof. unfold send_to_tcp_sync. linking. Qed.
Lemma linked_read_peer l : linked (D := D) sink addr (read_peer l).
Proof. unfold read_peer. linking. Qed.
Hint Resolve linked_send_to_tcp linked_send_to_tcp_sync linked_read_peer : srv.
Lemma linked_get_pk version id : linked (D := D) sink addr (get_pk version id).
Proof. unfold get_pk. linking. Qed.
Hint Resolve linked_get_pk : srv.
Lemma linked_hole_sent phs a udp : linked (D := D) sink addr (handle_hole_sent phs a udp).
Proof. unfold handle_hole_sent, consume. linking. Qed.
Lemma linked_local_addr la : linked (D := D) sink addr (handle_local_addr la).
Proof. unfold handle_local_addr, consume. linking. Qed.
Lemma linked_log_punch a peer_addr id : linked (D := D) sink addr (log_punch_request a peer_addr id).
Proof. unfold log_punch_request. linking. Qed.
Hint Resolve linked_log_punch : srv.
Lemma linked_tcp_punch rs a ph key ws :
  linked (D := D) sink addr (handle_tcp_punch_hole_request rs a ph key ws).
Proof.
  unfold handle_tcp_punch_hole_request, handle_punch_hole_request, route_punch_request, reserve, cancel. linking.
Qed.
Lemma linked_request_relay rs a rf : linked (D := D) sink addr (handle_request_relay rs sink a rf).
Proof. unfold handle_request_relay, send_relay_failure, reserve, cancel. linking. Qed.
Lemma linked_relay_response rr : linked (D := D) sink addr (handle_relay_response rr).
Proof. unfold handle_relay_response, allow_err, consume. linking. Qed.
Lemma linked_online n peers states : linked (D := D) sink addr (online_states n peers states).
Proof. revert n states. induction peers; intros n states; simpl; linking. Qed.
Hint Resolve linked_hole_sent linked_local_addr linked_tcp_punch linked_request_relay linked_relay_response
  linked_online : srv.

Lemma linked_udp msg a : linked (D := D) sink addr (handle_udp msg a).
Proof. unfold handle_udp, allow_err. destruct msg as [[]|]; linking. Qed.
Lemma linked_retain_if {V} (keep : V → M (Server D) bool) l m :
  (∀ v, linked sink addr (keep v)) → linked sink addr (retain_if keep l m).
Proof. intros Hk. revert m. induction l as [|[] l IH]; intros m; simpl; linking. Qed.
Lemma linked_reads {A} (m : M (Server D) A) : reads m → linked sink addr m.
Proof.
  intros Hm s. eapply wp_mono; [|apply Hm]. intros r s' [_ (c & _ & ->)]. by apply links_same.
Qed.
Hint Extern 2 (linked _ _ _) => apply linked_reads; solve [eauto with srv] : srv.
Lemma linked_check_cmd event_iso rs closed cmd : linked (D := D) sink addr (check_cmd event_iso rs closed cmd).
Proof.
  unfold check_cmd, console_ip_blocker, console_ip_changes, console_punch_requests, console_always_use_relay,
    console_test_geo. cbn zeta.
  destruct (split_char _ _) as [|c fds]; linking.
Qed.
Lemma linked_next c : linked (D := D) sink addr (next_message c).
Proof.
  intros s. apply wp_state. destruct (sv_chans s !! c) as [[[|m q] o]|] eqn:Hc; [done| |done].
  split_and!; [|done|by left]. simpl. rewrite dom_insert_lookup_L; [done|]. by eexists.
Qed.
Lemma linked_drop c : linked (D := D) sink addr (drop_receiver c).
Proof. intros s. apply wp_modify. split_and!; [|done|by left]. simpl. by rewrite dom_alter_L. Qed.

(** One message: the channels and sinks as above, and at most one keep-alive task
    per connection, started together with its flag. *)
Definition served (c : ChanId) (a : SocketAddr) (started : bool) (s : Server D)
    (r : result (bool * bool)) (s' : Server D) : Prop :=
  (links (Some c) a s s' ∧ ∀ b st, r = Ok (b, st) → st = started) ∨
  (started = false ∧ ∃ s1, links (Some c) a s s1 ∧ s' = add_keepalive c s1 ∧ ∃ b, r = Ok (b, true)).
End LinkedHandlers.
#[export] Hint Resolve linked_hole_sent linked_local_addr linked_tcp_punch linked_request_relay
  linked_relay_response linked_online linked_send_to_sink linked_check_cmd linked_udp linked_next linked_drop : srv.

Section Served.
Context {D : Type} `{!PeerStore D} `{X : !Externals} `{R : !Entropy} `{H : !HttpLibrary}.

Lemma wp_served (m : M (Server D) bool) c a started s :
  linked (Some c) a m → wp (b ← m; mret (b, started)) (served c a started s) s.
Proof.
  intros Hm. apply wp_bind. eapply wp_mono; [|apply Hm]. intros [b|e] s' Hl.
  - apply wp_ret. left. split; [done|]. by intros ?? [= _ <-].
  - left. by split.
Qed.

Lemma wp_tcp_msg rs api msg c started a key ws (s : Server D) :
  wp (handle_tcp_msg rs api msg (Some c) started a key ws) (served c a started s) s.
Proof.
  assert (∀ b, wp (mret (b, started)) (served c a started s) s) as Hret.
  { intros b. apply wp_ret. left. split; [done|]. by intros ?? [= _ <-]. }
  unfold handle_tcp_msg. cbn zeta. destruct msg as [[]|]; try exact (Hret _); try apply wp_served;
    unfold handle_register_peer, handle_register_pk, handle_test_nat_request, handle_online_query,
      handle_http_proxy, build_online_response, allow_err; try solve [linking].
  unfold handle_health_check. destruct (_ || _); [apply (Hret true)|].
  destruct started; [apply (Hret true)|]. apply wp_bind, wp_modify, wp_ret. right. split; [done|].
  exists s. split_and!; [done..|by exists true].
Qed.
End Served.

(** ** The invariant of the front *)

Section Invariant.
Context {D : Type} `{!PeerStore D} `{X : !Externals} `{R : !Entropy} `{H : !HttpLibrary} `{O : !HashOrder}
  `{B : !BoxLibrary} `{F : !FramedLibrary} `{E : !EncryptLibrary}.
Context (i : Inner).
Implicit Types s : Server D.
Implicit Types cn : Conn.

Definition chan_of cn : option ChanId := match cn_stage cn with Serving c _ _ => Some c | _ => None end.

(** [e] encrypts with an acceptable session key. *)
Definition keyed (e : Encrypt) : Prop :=
  ∃ k, len k = KEYBYTES ∧ rtc (λ e1 e2, ∃ b c, enc b e1 = (c, e2)) (Encrypt_new k) e.
(** What a serving connection writes on is encrypted. *)
Definition io_ok (io : Io) : Prop :=
  match io with TcpIo f => is_secured f = true | WsIo _ (Some e) => keyed e | WsIo _ None => True end.

Definition stage_ok s (a : SocketAddr) (st : Stage) : Prop :=
  match st with
  | ConsoleCommand => runtime_console i = true ∧ is_loopback (sa_ip (try_into_v4 a)) = true
  | NatQuery f => is_secured f = true
  | Serving c io started => c ∈ dom (sv_chans s) ∧ (started = false → c ∉ sv_keepalives s) ∧
      io_ok io
  | _ => True
  end.
Definition conn_ok s cn : Prop := inner (cn_rs cn) = i ∧ stage_ok s (cn_addr cn) (cn_stage cn).

(** Channels belong to one connection each, sinks are those of open connections
    under their own address, keep-alive tasks are distinct. *)
Record table_wf s (conns : gmap N Conn) : Prop := {
  tw_ok : ∀ n cn, conns !! n = Some cn → conn_ok s cn;
  tw_own : ∀ n n' cn cn' c, conns !! n = Some cn → conns !! n' = Some cn' →
    chan_of cn = Some c → chan_of cn' = Some c → n = n';
  tw_punch : ∀ a c, sv_tcp_punch s !! a = Some c →
    ∃ n cn, conns !! n = Some cn ∧ chan_of cn = Some c ∧ a = try_into_v4 (cn_addr cn);
  tw_keep : NoDup (sv_keepalives s);
  tw_kept : ∀ c, c ∈ sv_keepalives s → c ∈ dom (sv_chans s)
}.

Lemma conn_ok_links a s s' cn :
  links None a s s' → conn_ok s cn → conn_ok s' cn.
Proof. intros (Hd & Hk & _) [Hi Hst]. split; [done|]. destruct (cn_stage cn); simpl in *; rewrite ?Hd, ?Hk; done. Qed.

Lemma table_links a s s' conns : links None a s s' → table_wf s conns → table_wf s' conns.
Proof.
  intros Hl [T1 T2 T3 T4 T5]. pose proof Hl as (Hd & Hk & Hp). split; rewrite ?Hk, ?Hd; try done.
  - intros n cn Hn. eapply conn_ok_links; eauto.
  - intros b c Hc. destruct (Hp b c Hc) as [?|[? _]]; [by apply T3|done].
Qed.

(** A connection that is not serving changes its stage. *)
Lemma table_insert s conns n cn cn' :
  table_wf s conns → (conns !! n = Some cn ∨ conns !! n = None) → chan_of cn = None →
  chan_of cn' = None → conn_ok s cn' → table_wf s (<[n:=cn']> conns).
Proof.
  intros [T1 T2 T3 T4 T5] Hn Hc Hc' Hok. split; try done.
  - intros m x [[_ <-]|[_ ?]]%lookup_insert_Some; eauto.
  - intros m m' x x' c [[_ <-]|[_ ?]]%lookup_insert_Some [[_ <-]|[_ ?]]%lookup_insert_Some ??; [congruence..|eauto].
  - intros a c (m & x & Hm & Hx & ->)%T3. exists m, x. split_and!; [|done..].
    rewrite lookup_insert_ne; [done|]. intros ->. destruct Hn; congruence.
Qed.

Lemma table_delete s conns n cn :
  table_wf s conns → conns !! n = Some cn →
  (∀ c a, chan_of cn = Some c → sv_tcp_punch s !! a ≠ Some c) → table_wf s (delete n conns).
Proof.
  intros [T1 T2 T3 T4 T5] Hn Hgone. split; try done.
  - intros m x [_ ?]%lookup_delete_Some; eauto.
  - intros m m' x x' c [_ ?]%lookup_delete_Some [_ ?]%lookup_delete_Some ??; eauto.
  - intros a c Ha. destruct (T3 a c Ha) as (m & x & Hm & Hx & ->). exists m, x. split_and!; [|done..].
    rewrite lookup_delete_ne; [done|]. intros ->. rewrite Hn in Hm. injection Hm as ->. exact (Hgone c _ Hx Ha).
Qed.

Lemma lookup_put (conns : gmap N Conn) n cn m : <[n:=cn]> conns !! m = if decide (m = n) then Some cn else conns !! m.
Proof. case_decide; [subst; apply lookup_insert_eq|by apply lookup_insert_ne]. Qed.

(** The connection that owns channel [c] goes on serving, after a step that may
    have cached its sink. *)
Lemma table_links_own s s' conns n cn c a io io' st st' :
  table_wf s conns → conns !! n = Some cn → cn_stage cn = Serving c io st → a = cn_addr cn →
  links (Some c) a s s' → (st' = false → st = false) →
  io_ok io' →
  table_wf s' (<[n := mkConn (cn_rs cn) a (Serving c io' st')]> conns).
Proof.
  intros [T1 T2 T3 T4 T5] Hn Hst -> (Hd & Hk & Hp) Hflag Hio.
  assert (chan_of cn = Some c) as Hc by (unfold chan_of; by rewrite Hst).
  destruct (T1 n cn Hn) as [Hi Hok]. rewrite Hst in Hok. destruct Hok as (Hdom & Hfl & _).
  split; rewrite ?Hk, ?Hd; try done.
  - intros m x Hm. rewrite lookup_put in Hm. case_decide; [|].
    + injection Hm as <-. split; [done|]. simpl. rewrite Hd, Hk. split_and!; auto.
    + destruct (T1 m x Hm) as [Hi' Hok']. split; [done|].
      destruct (cn_stage x); simpl in *; rewrite ?Hd, ?Hk; done.
  - intros m m' x x' c' Hm Hm' Hx Hx'. rewrite lookup_put in Hm, Hm'. repeat case_decide; subst; [done|..].
    + injection Hm' as <-. simpl in Hx'. injection Hx' as <-. by apply (T2 m n x cn c).
    + injection Hm as <-. simpl in Hx. injection Hx as <-. by apply (T2 n m' cn x' c).
    + by apply (T2 m m' x x' c').
  - intros b c' Hb. destruct (Hp b c' Hb) as [Hold|[[= <-] ->]].
    + destruct (T3 b c' Hold) as (m & x & Hm & Hx & ->). destruct (decide (m = n)) as [->|Hne].
      * rewrite Hn in Hm. injection Hm as <-. exists n. eexists.
        rewrite lookup_insert_eq. split_and!; [done| |done]. by rewrite <-Hx, Hc.
      * exists m, x. by rewrite lookup_insert_ne.
    + exists n. eexists. rewrite lookup_insert_eq. by split_and!.
Qed.

Lemma table_keepalive s conns n cn c io :
  table_wf s conns → conns !! n = Some cn → cn_stage cn = Serving c io false →
  table_wf (add_keepalive c s) (<[n := mkConn (cn_rs cn) (cn_addr cn) (Serving c io true)]> conns).
Proof.
  intros Hwf Hn Hst. pose proof (tw_ok _ _ Hwf n cn Hn) as [Hi Hok]. rewrite Hst in Hok. destruct Hok as (Hdom & Hfl & Hio).
  assert (chan_of cn = Some c) as Hc by (unfold chan_of; by rewrite Hst).
  pose proof (table_links_own s s conns n cn c _ io io false true Hwf Hn Hst eq_refl
    (links_same _ _ _ _ eq_refl eq_refl eq_refl) (λ _, eq_refl) Hio) as [T1 T2 T3 T4 T5].
  split; try done.
  - intros m x Hm. destruct (T1 m x Hm) as [Hi' Hok']. split; [done|].
    rewrite lookup_put in Hm. case_decide as Hmn.
    + injection Hm as <-. simpl in *. split_and!; [done|done|apply Hok'].
    + assert (chan_of x ≠ Some c) as Hx by (intros Hx; apply Hmn; by apply (tw_own _ _ Hwf m n x cn c)).
      unfold chan_of in Hx. destruct (cn_stage x); simpl in *; try done. destruct Hok' as (? & Hfl' & ?).
      split_and!; [done| |done]. intros Hb%Hfl'. rewrite elem_of_cons. intros [->|?]; [by apply Hx|done].
  - simpl. apply list.NoDup_cons. split; [by apply Hfl|done].
  - simpl. intros c' [->|?]%elem_of_cons; auto.
Qed.

(** A new connection gets a channel of its own. *)
Lemma table_open s conns n cn io :
  table_wf s conns → conns !! n = Some cn → chan_of cn = None →
  io_ok io →
  let c := fresh (dom (sv_chans s)) in
  let s' := (open_connection (cn_addr cn) s).2 in
  table_wf s' (<[n := mkConn (cn_rs cn) (cn_addr cn) (Serving c io false)]> conns).
Proof.
  intros [T1 T2 T3 T4 T5] Hn Hnone Hio c s'. assert (c ∉ dom (sv_chans s)) as Hfresh by apply is_fresh.
  assert (∀ m x, conns !! m = Some x → chan_of x ≠ Some c) as Hother.
  { intros m x Hm Hx. destruct (T1 m x Hm) as [_ Hok]. unfold chan_of in Hx.
    destruct (cn_stage x); simplify_eq. by destruct Hok. }
  split.
  - intros m x Hm. rewrite lookup_put in Hm. case_decide.
    + injection Hm as <-. destruct (T1 n cn Hn) as [Hi _]. split; [done|]. simpl. split_and!; [|by intros _ ?%T5|done].
      rewrite dom_insert_L. apply elem_of_union. left. by apply elem_of_singleton.
    + destruct (T1 m x Hm) as [Hi Hok]. split; [done|]. destruct (cn_stage x); simpl in *; try done.
      destruct Hok as (Hin & Hr). split; [|exact Hr]. rewrite dom_insert_L. apply elem_of_union. by right.
  - intros m m' x x' c' Hm Hm' Hx Hx'. rewrite lookup_put in Hm, Hm'. repeat case_decide; subst; [done|..].
    + injection Hm' as <-. injection Hx' as <-. by destruct (Hother m x).
    + injection Hm as <-. injection Hx as <-. by destruct (Hother m' x').
    + by apply (T2 m m' x x' c').
  - simpl. intros a c' [[<- <-]|[Hne Ha]]%lookup_insert_Some.
    + exists n. eexists. rewrite lookup_insert_eq. by split_and!.
    + destruct (T3 a c' Ha) as (m & x & Hm & Hx & ->). exists m, x. rewrite lookup_insert_ne; [done|congruence].
  - done.
  - simpl. intros c' Hc'. rewrite dom_insert_L. apply elem_of_union. right. by apply T5.
Qed.

(** The end of a serving connection takes its sink along. *)
Lemma table_close s conns n cn c :
  table_wf s conns → conns !! n = Some cn → chan_of cn = Some c →
  table_wf (close_connection c (cn_addr cn) s).2 (delete n conns).
Proof.
  intros Hwf Hn Hc. set (s' := (close_connection c (cn_addr cn) s).2).
  assert (links None (cn_addr cn) s s' ∧ ∀ a, sv_tcp_punch s' !! a ≠ Some c) as [Hl Hgone].
  { unfold s', close_connection, modify. simpl. case_bool_decide as Hown.
    - split; [split_and!; simpl; [by rewrite dom_alter_L|done|]|].
      + intros a c' [_ ?]%lookup_delete_Some. by left.
      + simpl. intros a [Hne Ha]%lookup_delete_Some.
        destruct (tw_punch _ _ Hwf a c Ha) as (m & x & Hm & Hx & ->).
        assert (m = n) as -> by (by eapply (tw_own _ _ Hwf)). rewrite Hn in Hm. by injection Hm as <-.
    - split; [split_and!; simpl; [by rewrite dom_alter_L|done|by left]|].
      simpl. intros a Ha. destruct (tw_punch _ _ Hwf a c Ha) as (m & x & Hm & Hx & ->).
      assert (m = n) as -> by (by eapply (tw_own _ _ Hwf)). rewrite Hn in Hm. by injection Hm as <-. }
  eapply table_delete; [by eapply table_links|done|]. intros c' a Hc'. rewrite Hc in Hc'. injection Hc' as <-. apply Hgone.
Qed.
End Invariant.

Section FrontInvariant.
Context {D : Type} `{!PeerStore D} `{X : !Externals} `{L : !ExternalLaws X} `{R : !Entropy} `{H : !HttpLibrary}
  `{O : !HashOrder} `{B : !BoxLibrary} `{F : !FramedLibrary} `{FL : !FramedLaws F} `{E : !EncryptLibrary}
  `{W : !WireFormat}.
Context (event_iso : Z → string) (relay_port : Z) (key : string) (sk : bytes).
Context (i : Inner) (max_connections : Z).
Implicit Types fr : Front D.
Abbreviation step := (front_step (D := D) event_iso relay_port key sk).

(** A message encrypted with an acceptable session key. *)
Definition encrypted (b : bytes) : Prop :=
  ∃ e e' m plain, keyed e ∧ write_to_bytes m = Some plain ∧ enc plain e = (Some b, e').

(** Only the key exchange leaves in the clear, and console answers on the loopback
    console. *)
Definition sent_ok (o : Sent) : Prop :=
  match o with
  | SentText _ => runtime_console i = true
  | SentKey m => ∃ k, m = MKeyExchange [k]
  | SentFrame secured _ => secured = true
  | SentBinary b => encrypted b
  end.

Record front_wf fr : Prop := {
  fw_server : server_wf i (fr_server fr);
  fw_slots : 0 ≤ fr_slots fr ∧ fr_slots fr + mlen (fr_conns fr) = max_connections;
  fw_next : ∀ n cn, fr_conns fr !! n = Some cn → (n < fr_next fr)%N;
  fw_loop : inner (lp_rs (fr_loop fr)) = i;
  fw_table : table_wf i (fr_server fr) (fr_conns fr);
  fw_sent : ∀ x, x ∈ fr_sent fr → sent_ok x.2
}.

(** The table with one connection replaced. *)
Definition put_conn (n : N) (cn : Conn) fr : Front D :=
  mkFront (fr_server fr) (fr_loop fr) (fr_slots fr) (<[n:=cn]> (fr_conns fr)) (fr_next fr) (fr_sent fr).

Lemma alter_put {K} `{Countable K} {A} (f : A → A) (k : K) (m : gmap K A) a :
  m !! k = Some a → alter f k m = <[k := f a]> m.
Proof.
  intros Hk. apply map_eq. intros j. destruct (decide (j = k)) as [->|Hne].
  - by rewrite lookup_alter_eq, Hk, lookup_insert_eq.
  - by rewrite lookup_alter_ne, lookup_insert_ne.
Qed.

Lemma set_stage_put n cn st fr :
  fr_conns fr !! n = Some cn → set_stage n st fr = put_conn n (mkConn (cn_rs cn) (cn_addr cn) st) fr.
Proof. intros Hn. unfold set_stage. by rewrite (alter_put _ n _ cn). Qed.
Lemma set_addr_put n cn a fr :
  fr_conns fr !! n = Some cn → set_addr n a fr = put_conn n (mkConn (cn_rs cn) a (cn_stage cn)) fr.
Proof. intros Hn. unfold set_addr. by rewrite (alter_put _ n _ cn). Qed.

(** The parts of a front a step works on, one at a time. *)
Lemma wf_put fr n cn cn' s' :
  front_wf fr → fr_conns fr !! n = Some cn → server_wf i s' →
  table_wf i s' (<[n:=cn']> (fr_conns fr)) → front_wf (put_conn n cn' (set_server s' fr)).
Proof.
  intros [W1 W2 W3 W4 W5 W6] Hn Hs Ht. split; try done; simpl.
  - rewrite mlen_insert_old by (by eexists). done.
  - intros m x [[<- _]|[_ Hm]]%lookup_insert_Some; eauto.
Qed.
Lemma wf_stage fr n cn st :
  front_wf fr → fr_conns fr !! n = Some cn → chan_of cn = None →
  (∀ c io b, st ≠ Serving c io b) → stage_ok i (fr_server fr) (cn_addr cn) st → front_wf (set_stage n st fr).
Proof.
  intros Hwf Hn Hc Hst Hok. rewrite (set_stage_put n cn) by done.
  replace fr with (set_server (fr_server fr) fr) by (by destruct fr).
  eapply wf_put; [done|done|apply Hwf|]. eapply table_insert; [apply Hwf|by left|done| |].
  - unfold chan_of. simpl. destruct st; try done. by destruct (Hst c io health_keepalive_started).
  - split; [|done]. by destruct (tw_ok _ _ _ (fw_table _ Hwf) n cn Hn).
Qed.
Lemma wf_server a fr s' :
  front_wf fr → server_wf i s' → links None a (fr_server fr) s' → front_wf (set_server s' fr).
Proof. intros [W1 W2 W3 W4 W5 W6] Hs Hl. split; try done. by eapply table_links. Qed.
Lemma wf_send fr n l : front_wf fr → Forall sent_ok l → front_wf (send n l fr).
Proof.
  intros [W1 W2 W3 W4 W5 W6] Hl. split; try done. simpl. intros x [?|Hx]%elem_of_app; [by apply W6|].
  apply list_elem_of_fmap in Hx as (o & -> & Ho). rewrite list.Forall_forall in Hl. by apply Hl.
Qed.
Lemma wf_loop fr l : front_wf fr → inner (lp_rs l) = i → front_wf (set_loop l fr).
Proof. by intros [W1 W2 W3 W4 W5 W6] Hl. Qed.
Lemma wf_delete fr n cn s' :
  front_wf fr → fr_conns fr !! n = Some cn → server_wf i s' →
  table_wf i s' (delete n (fr_conns fr)) → front_wf (finish n (set_server s' fr)).
Proof.
  intros [W1 W2 W3 W4 W5 W6] Hn Hs Ht. split; try done; simpl.
  - unfold mlen in *. rewrite map_size_delete_Some by (by eexists).
    assert (size (fr_conns fr) ≠ 0%nat) by (intros Hz%map_size_empty_inv; by rewrite Hz, lookup_empty in Hn).
    lia.
  - intros m x [_ Hm]%lookup_delete_Some; eauto.
Qed.
Lemma wf_finish fr n cn :
  front_wf fr → fr_conns fr !! n = Some cn → chan_of cn = None → front_wf (finish n fr).
Proof.
  intros Hwf Hn Hc. replace fr with (set_server (fr_server fr) fr) by (by destruct fr).
  eapply wf_delete; [done|done|apply Hwf|]. eapply table_delete; [apply Hwf|done|]. congruence.
Qed.
Lemma wf_close fr n cn c :
  front_wf fr → fr_conns fr !! n = Some cn → chan_of cn = Some c → front_wf (close n cn c fr).
Proof.
  intros Hwf Hn Hc. eapply wf_delete; [done|done|apply safe_close, Hwf|].
  eapply table_close; [apply Hwf|done|done].
Qed.
Lemma wf_admit fr a st :
  front_wf fr → (∀ c io b, st ≠ Serving c io b) → stage_ok i (fr_server fr) a st → front_wf (spawn_task a st fr).
Proof.
  intros [W1 W2 W3 W4 W5 W6] Hst Hok. unfold spawn_task. destruct (fr_slots fr <=? 0) eqn:Hs; [done|]. reflect_bools.
  assert (fr_conns fr !! fr_next fr = None) as Hn.
  { destruct (fr_conns fr !! fr_next fr) eqn:Hn; [|done]. apply W3 in Hn. lia. }
  split; try done; simpl.
  - rewrite mlen_insert_new by done. lia.
  - intros m x [[<- _]|[_ Hm]]%lookup_insert_Some; [lia|]. apply W3 in Hm. lia.
  - eapply (table_insert _ _ _ _ (mkConn (lp_rs (fr_loop fr)) a Upgrading)); [done|by right|done| |].
    + unfold chan_of. simpl. destruct st; try done. by destruct (Hst c io health_keepalive_started).
    + by split.
Qed.

Lemma wf_run {A} a (m : M (Server D) A) fr r s :
  front_wf fr → linked None a m → safe i m → m (fr_server fr) = (r, s) → front_wf (set_server s fr).
Proof.
  intros Hwf Hl Hs Hm. eapply (wf_server a); [done|by apply (wp_run _ _ _ _ _ (Hs _ (fw_server _ Hwf)) Hm)|].
  by apply (wp_run _ _ _ _ _ (Hl _) Hm).
Qed.

Lemma keys_ok l : Forall key_exchange l → Forall sent_ok (SentKey <$> l).
Proof. intros Hl. apply Forall_fmap. eapply list.Forall_impl; [done|]. by intros m [k ->]; exists k. Qed.

(** *** One event *)

Lemma wf_console fr n cn input :
  front_wf fr → fr_conns fr !! n = Some cn → cn_stage cn = ConsoleCommand →
  front_wf (console_command event_iso n cn input fr).
Proof.
  intros Hwf Hn Hst. assert (chan_of cn = None) as Hc by (unfold chan_of; by rewrite Hst).
  destruct (tw_ok _ _ _ (fw_table _ Hwf) n cn Hn) as [_ Hok]. rewrite Hst in Hok. destruct Hok as [Hcon _].
  assert (∀ fr' res, front_wf fr' → fr_conns fr' = fr_conns fr → front_wf (finish n (send n [SentText res] fr'))) as Hend.
  { intros fr' res Hwf' Heq. eapply (wf_finish _ n cn); [|simpl; by rewrite Heq|done].
    apply wf_send; [done|]. by repeat constructor. }
  unfold console_command. destruct input as [buffer|]; [|by eapply wf_finish].
  destruct (utf8_of _) as [data|]; [|by eapply wf_finish].
  destruct (check_cmd event_iso (cn_rs cn) false data (fr_server fr)) as [r s] eqn:Hrun.
  assert (front_wf (set_server s fr)) as Hwf'.
  { eapply (wf_run (cn_addr cn)); [done|apply linked_check_cmd|apply safe_check_cmd|exact Hrun]. }
  destruct r as [[res [d|]]|e]; [| |by eapply wf_finish].
  - destruct (put d (fr_loop fr)) as [l|] eqn:Hput; [|done]. apply Hend; [|done].
    apply wf_loop; [done|]. rewrite (put_inner _ _ _ Hput). apply Hwf.
  - by apply Hend.
Qed.

Lemma wf_nat_keys fr n cn tmp sent next stream :
  front_wf fr → fr_conns fr !! n = Some cn → cn_stage cn = NatExchange →
  front_wf (nat_exchange sk n tmp sent next stream fr).
Proof.
  intros Hwf Hn Hst. assert (chan_of cn = None) as Hc by (unfold chan_of; by rewrite Hst).
  unfold nat_exchange. cbn zeta. set (x := attempt_handshake _ _ _ _ _ _).
  assert (front_wf (send n (SentKey <$> hs_sent x) fr)) as Hwf'.
  { apply wf_send; [done|]. apply keys_ok, handshake_sends. }
  destruct (hs_key x) as [k|e] eqn:Hk; [|by eapply wf_finish].
  eapply wf_stage; [done|exact Hn|done|done|]. by eapply handshake_secures.
Qed.

Lemma linked_nat_answer a cn msg : linked (D := D) None a (nat_answer cn msg).
Proof. unfold nat_answer, build_online_response. destruct msg as [[]|]; linking. Qed.
Lemma safe_nat_answer cn msg : safe (D := D) i (nat_answer cn msg).
Proof.
  unfold nat_answer, build_online_response. pose proof (safe_online (D := D) i).
  destruct msg as [[]|]; safety.
Qed.

Lemma wf_nat_query fr n cn f next :
  front_wf fr → fr_conns fr !! n = Some cn → cn_stage cn = NatQuery f → front_wf (nat_query n cn f next fr).
Proof.
  intros Hwf Hn Hst. assert (chan_of cn = None) as Hc by (unfold chan_of; by rewrite Hst).
  destruct (tw_ok _ _ _ (fw_table _ Hwf) n cn Hn) as [_ Hok]. rewrite Hst in Hok.
  unfold nat_query. destruct next as [[b|]|]; try by eapply wf_finish.
  destruct (parse_from_bytes b) as [msg|]; [|by eapply wf_finish].
  destruct (nat_answer cn msg (fr_server fr)) as [r s] eqn:Hrun.
  assert (front_wf (set_server s fr)) as Hwf'.
  { eapply (wf_run (cn_addr cn)); [done|apply linked_nat_answer|apply safe_nat_answer|exact Hrun]. }
  destruct r as [[m|]|e]; try by eapply wf_finish.
  eapply (wf_finish _ n cn); [|exact Hn|done]. apply wf_send; [done|]. by repeat constructor.
Qed.

Lemma wf_begin fr n cn io :
  front_wf fr → fr_conns fr !! n = Some cn → chan_of cn = None →
  io_ok io →
  front_wf (begin_serving n cn io fr).
Proof.
  intros Hwf Hn Hc Hio. unfold begin_serving, open_connection. rewrite (set_stage_put n cn) by done.
  eapply wf_put; [done|done| |by apply table_open; [apply Hwf|..]].
  exact (safe_open i (cn_addr cn) _ (fw_server _ Hwf)).
Qed.

Lemma wf_tcp_keys fr n cn tmp sent next stream :
  front_wf fr → fr_conns fr !! n = Some cn → cn_stage cn = Exchanging false →
  front_wf (tcp_exchange sk n cn tmp sent next stream fr).
Proof.
  intros Hwf Hn Hst. assert (chan_of cn = None) as Hc by (unfold chan_of; by rewrite Hst).
  unfold tcp_exchange. cbn zeta. set (x := attempt_handshake _ _ _ _ _ _).
  assert (front_wf (send n (SentKey <$> hs_sent x) fr)) as Hwf'.
  { apply wf_send; [done|]. apply keys_ok, handshake_sends. }
  destruct (hs_key x) as [k|e] eqn:Hk; [|by eapply wf_finish].
  apply wf_begin; [done..|]. by eapply handshake_secures.
Qed.

Lemma wf_ws_keys fr n cn tmp encoded sent items :
  front_wf fr → fr_conns fr !! n = Some cn → cn_stage cn = Exchanging true →
  front_wf (ws_exchange sk n cn tmp encoded sent items fr).
Proof.
  intros Hwf Hn Hst. assert (chan_of cn = None) as Hc by (unfold chan_of; by rewrite Hst).
  unfold ws_exchange. cbn zeta. set (x := attempt_handshake_ws _ _ _ _ _ _).
  assert (front_wf (send n (SentKey <$> hs_sent x) fr)) as Hwf'.
  { apply wf_send; [done|]. apply keys_ok, handshake_ws_sends. }
  destruct (hs_key x) as [k|e] eqn:Hk; [|by eapply wf_finish]. apply wf_begin; [done..|].
  unfold x in Hk. apply handshake_ws_ok in Hk as (_ & _ & b & _ & key0 & key1 & pk & _ & _ & _ & _ & Hlen).
  exists k. by split; [|apply rtc_refl].
Qed.

Lemma wf_upgraded fr n cn headers :
  front_wf fr → fr_conns fr !! n = Some cn → cn_stage cn = Upgrading → front_wf (upgraded n cn headers fr).
Proof.
  intros Hwf Hn Hst. assert (chan_of cn = None) as Hc by (unfold chan_of; by rewrite Hst).
  destruct (tw_ok _ _ _ (fw_table _ Hwf) n cn Hn) as [Hi _].
  unfold upgraded. destruct headers as [headers|]; [|by eapply wf_finish].
  rewrite (set_addr_put n cn) by done. set (cn1 := mkConn _ _ _).
  assert (front_wf (put_conn n cn1 fr)) as Hwf1.
  { replace fr with (set_server (fr_server fr) fr) by (by destruct fr).
    eapply wf_put; [done|done|apply Hwf|]. eapply table_insert; [apply Hwf|by left|done|by unfold chan_of; simpl; rewrite Hst|].
    split; [done|]. simpl. by rewrite Hst. }
  eapply (wf_stage _ n cn1); [done|simpl; by rewrite lookup_insert_eq| |done|done].
  unfold chan_of. simpl. by rewrite Hst.
Qed.

(** A serving connection after a step that kept its own links. *)
Lemma wf_own fr n cn c io io' st st' s' :
  front_wf fr → fr_conns fr !! n = Some cn → cn_stage cn = Serving c io st → server_wf i s' →
  links (Some c) (cn_addr cn) (fr_server fr) s' → (st' = false → st = false) →
  io_ok io' →
  front_wf (set_stage n (Serving c io' st') (set_server s' fr)).
Proof.
  intros Hwf Hn Hst Hs Hl Hflag Hio. rewrite (set_stage_put n cn) by done.
  eapply wf_put; [done..|]. eapply table_links_own; [apply Hwf|done..].
Qed.

Lemma links_weaken c a s s' : links (D := D) None a s s' → links (Some c) a s s'.
Proof.
  intros (Hd & Hk & Hp). split_and!; [done..|]. intros b c' Hb. destruct (Hp b c' Hb) as [?|[? _]]; [by left|done].
Qed.

Lemma own_stage fr n cn c io st :
  front_wf fr → fr_conns fr !! n = Some cn → cn_stage cn = Serving c io st →
  chan_of cn = Some c ∧ io_ok io.
Proof.
  intros Hwf Hn Hst. destruct (tw_ok _ _ _ (fw_table _ Hwf) n cn Hn) as [_ Hok]. rewrite Hst in Hok.
  split; [by unfold chan_of; rewrite Hst|apply Hok].
Qed.

(** Closing right after a step of the connection itself. *)
Lemma wf_own_close fr n cn c io st s' :
  front_wf fr → fr_conns fr !! n = Some cn → cn_stage cn = Serving c io st → server_wf i s' →
  links (Some c) (cn_addr cn) (fr_server fr) s' → front_wf (close n cn c (set_server s' fr)).
Proof.
  intros Hwf Hn Hst Hs Hl. destruct (own_stage _ _ _ _ _ _ Hwf Hn Hst) as [Hc Hio].
  pose proof (wf_own fr n cn c io io st st s' Hwf Hn Hst Hs Hl (λ x, x) Hio) as Hwf'.
  rewrite (set_stage_put n cn) in Hwf' by done.
  replace (mkConn (cn_rs cn) (cn_addr cn) (Serving c io st)) with cn in Hwf' by (rewrite <-Hst; by destruct cn).
  replace (put_conn n cn (set_server s' fr)) with (set_server s' fr) in Hwf'.
  2:{ unfold put_conn, set_server. simpl. by rewrite insert_id. }
  by apply wf_close.
Qed.

Lemma wf_serve fr n cn c io st api msg :
  front_wf fr → fr_conns fr !! n = Some cn → cn_stage cn = Serving c io st →
  ∀ io', io_ok io' →
  front_wf (serve key n cn c io' st api msg fr).
Proof.
  intros Hwf Hn Hst io' Hio. destruct (tw_ok _ _ _ (fw_table _ Hwf) n cn Hn) as [Hi _].
  destruct (own_stage _ _ _ _ _ _ Hwf Hn Hst) as [Hc Hio0].
  unfold serve. destruct (handle_tcp_msg _ _ _ _ _ _ _ _ _) as [r s'] eqn:Hrun.
  pose proof (wp_run _ _ _ _ _ (safe_tcp_msg i (cn_rs cn) api msg (Some c) st (cn_addr cn) key (io_is_ws io') Hi
    _ (fw_server _ Hwf)) Hrun) as Hs.
  destruct (wp_run _ _ _ _ _ (wp_tcp_msg (cn_rs cn) api msg c st (cn_addr cn) key (io_is_ws io') _) Hrun)
    as [[Hl Hflag]|(-> & s1 & Hl & -> & b & ->)].
  - destruct r as [[[|] st']|e]; [|by eapply wf_own_close..].
    rewrite (Hflag _ _ eq_refl). by eapply wf_own.
  - assert (server_wf i s1) as Hs1 by (by destruct Hs).
    assert (front_wf (set_stage n (Serving c io' true) (set_server (add_keepalive c s1) fr))) as Hwf'.
    { rewrite (set_stage_put n cn) by done. eapply wf_put; [done..|].
      pose proof (table_links_own i (fr_server fr) s1 _ n cn c _ io io' false false (fw_table _ Hwf) Hn Hst eq_refl Hl (λ x, x) Hio) as Ht.
      eapply table_keepalive in Ht; [|by apply lookup_insert_eq|done]. by rewrite insert_insert_eq in Ht. }
    destruct b; [done|].
    rewrite (set_stage_put n cn) in Hwf' by done. set (cn' := mkConn _ _ _) in Hwf'.
    pose proof (wf_close _ n cn' c Hwf' (lookup_insert_eq _ _ _) eq_refl) as Hclose.
    unfold close, finish, put_conn in *. simpl in *. by rewrite delete_insert_eq in Hclose.
Qed.

Lemma wf_incoming fr n cn c io st api next :
  front_wf fr → fr_conns fr !! n = Some cn → cn_stage cn = Serving c io st →
  front_wf (incoming key n cn c io st api next fr).
Proof.
  intros Hwf Hn Hst. destruct (own_stage _ _ _ _ _ _ Hwf Hn Hst) as [Hc Hio].
  assert (front_wf (close n cn c fr)) as Hclose by by apply wf_close.
  assert (∀ io' b, io_ok io' →
    front_wf (handle_tcp key n cn c io' st api b fr)) as Hhandle.
  { intros io' b Hio'. unfold handle_tcp. destruct (parse_from_bytes b); [by eapply wf_serve|done]. }
  unfold incoming. destruct io as [f|dec_in enc_out].
  - destruct next as [[[[b|e]|r]|]|]; try done. by apply Hhandle.
  - destruct next as [[[r|[[b| |]|e]]|]|]; try done.
    destruct (dec b dec_in) as [[plain|] dec_in']; [|done].
    destruct (is_empty plain); [|by apply Hhandle].
    replace fr with (set_server (fr_server fr) fr) by (by destruct fr).
    eapply wf_own; [done..|apply Hwf|reflexivity|done|done].
Qed.

Lemma wf_outgoing fr n cn c io st sent :
  front_wf fr → fr_conns fr !! n = Some cn → cn_stage cn = Serving c io st →
  front_wf (outgoing n cn c io st sent fr).
Proof.
  intros Hwf Hn Hst. destruct (own_stage _ _ _ _ _ _ Hwf Hn Hst) as [Hc Hio].
  unfold outgoing. destruct io as [f|dec_in [enc_out|]]; [| |done];
    destruct (next_message c (fr_server fr)) as [[[msg|]|e] s] eqn:Hrun; try done;
    pose proof (wp_run _ _ _ _ _ (safe_next i c _ (fw_server _ Hwf)) Hrun) as Hs;
    pose proof (wp_run _ _ _ _ _ (linked_next None (cn_addr cn) c _) Hrun) as Hl;
    assert (front_wf (set_server s fr)) as Hwf' by (eapply wf_server; [done|exact Hs|exact Hl]).
  - destruct sent; [|by eapply wf_own_close; [..|apply links_weaken]].
    apply wf_send; [done|]. by repeat constructor.
  - cbn zeta. assert (front_wf (set_stage n (Serving c (WsIo dec_in None) st)
      (set_server (drop_receiver c s).2 (set_server s fr)))) as Hgone.
    { eapply wf_own; [exact Hwf'|exact Hn|exact Hst|by apply (safe_drop i c)| |done|done].
      apply links_weaken, linked_drop. }
    destruct (write_to_bytes msg) as [b|] eqn:Hmsg; [|done].
    destruct (enc b enc_out) as [[cipher|] enc_out'] eqn:Henc; [|done].
    destruct sent; [|done]. apply wf_send.
    2:{ apply list.Forall_singleton. by exists enc_out, enc_out', msg, b. }
    eapply wf_own; [done..|by apply links_weaken|done|].
    destruct Hio as (k & Hk & Hrtc). exists k. split; [done|]. eapply rtc_r; [exact Hrtc|by exists b, (Some cipher)].
Qed.

Lemma safe_cleanup : safe (D := D) i cleanup_tick.
Proof.
  intros s Hs. apply wp_bind. eapply wp_mono; [|apply (safe_on_pm i (evict_inactive PEER_CACHE_IDLE_SECS)); [|done]].
  2:{ intros pm Hpm Hok. eapply wp_mono; [|by apply (wp_evict_frame from_json)]. done. }
  intros [n|e] s1 Hs1; [|done]. apply wp_bind, wp_instant_now. intros t c _ _ _.
  apply (clock_safe i c) in Hs1. apply wp_bind, wp_state. destruct (cleanup_transient_state _ _) as [r tr].
  apply wp_ret. destruct Hs1 as [S1 S2 S3 S4 S5]. split; try done.
  pose proof (clock_wf i _ _ c tr S1) as Hreg. by destruct s1 as [[[] ?]].
Qed.
Lemma linked_cleanup a : linked (D := D) None a cleanup_tick.
Proof.
  unfold cleanup_tick. linking. intros s. apply wp_state. destruct (cleanup_transient_state _ _). by apply links_same.
Qed.

Lemma wf_step e fr : front_wf fr → front_wf (step e fr).
Proof.
  intros Hwf. unfold front_step. destruct (event_conn e) as [n|] eqn:Hconn.
  - destruct (fr_conns fr !! n) as [cn|] eqn:Hn; [|done]. unfold conn_step.
    destruct e; try done; simpl in Hconn; injection Hconn as ->; destruct (cn_stage cn) as [| | | |[]|] eqn:Hst; try done.
    + by apply wf_console.
    + by eapply wf_nat_keys.
    + by eapply wf_nat_query.
    + by apply wf_upgraded.
    + by apply wf_tcp_keys.
    + by apply wf_ws_keys.
    + by apply wf_incoming.
    + by apply wf_outgoing.
  - assert (∀ a A (m : M (Server D) A), linked None a m → safe i m → front_wf (run_server m fr)) as Hrun.
    { intros a A m Hl Hs. unfold run_server. destruct (m (fr_server fr)) as [r s] eqn:Hm. by eapply wf_run. }
    destruct e as [a ws|a|n input|n tmp sent next stream|n next|n headers|n tmp sent next stream
      |n tmp encoded sent items|n api next|n sent|b a|c| |e|c]; try done.
    + unfold handle_listener. apply wf_admit; [done|by destruct ws|by destruct ws].
    + unfold handle_listener2. destruct (_ && _) eqn:Hcon; apply wf_admit; try done.
      apply andb_true_iff in Hcon as [Hcon Hloop]. rewrite (fw_loop _ Hwf) in Hcon. by split.
    + apply (Hrun a); unfold datagram; destruct (parse_from_bytes b);
        [apply linked_udp|apply linked_ret|apply safe_udp|apply safe_ret].
    + case_bool_decide; [|done]. apply (Hrun device_addr); [apply linked_try_send|apply safe_try_send].
    + apply (Hrun device_addr); [apply linked_cleanup|apply safe_cleanup].
    + assert (front_wf (set_loop (loop_step relay_port e (fr_loop fr)) fr)); [|by destruct e].
      apply wf_loop; [done|]. rewrite loop_step_inner. apply Hwf.
    + destruct (_ <=? _); [|done]. eapply (wf_server device_addr); [done|by apply clock_safe, Hwf|by apply links_same].
Qed.

Lemma wf_front_run es fr : front_wf fr → front_wf (front_run event_iso relay_port key sk es fr).
Proof. revert fr. induction es as [|e es IH]; intros fr Hwf; [done|]. by apply IH, wf_step. Qed.
End FrontInvariant.

(** ** Theorems *)

(** The server when it has just started. *)
Definition start_front `{F : !FramedLibrary} `{E : !EncryptLibrary} {D} (s : Server D) (lp : Loop) (max : Z) : Front D :=
  mkFront s lp max ∅ 0 [].

Record fresh_start `{!PeerStore D} `{X : !Externals} (i : Inner) (s : Server D) (lp : Loop) (max : Z) : Prop := {
  fs_server : server_wf i s;
  fs_punch : sv_tcp_punch s = ∅;
  fs_keep : sv_keepalives s = [];
  fs_loop : inner (lp_rs lp) = i;
  fs_max : 0 ≤ max
}.

Section FrontTheorems.
Context {D : Type} `{!PeerStore D} `{X : !Externals} `{L : !ExternalLaws X} `{R : !Entropy} `{H : !HttpLibrary}
  `{O : !HashOrder} `{B : !BoxLibrary} `{F : !FramedLibrary} `{FL : !FramedLaws F} `{E : !EncryptLibrary}
  `{W : !WireFormat}.
Context (event_iso : Z → string) (relay_port : Z) (key : string) (sk : bytes).
Context (i : Inner) (max_connections : Z).
Implicit Types fr : Front D.
Abbreviation step := (front_step (D := D) event_iso relay_port key sk).
Abbreviation run := (front_run (D := D) event_iso relay_port key sk).

Lemma start_wf s lp : fresh_start i s lp max_connections → front_wf i max_connections (start_front s lp max_connections).
Proof.
  intros [F1 F2 F3 F4 F5]. split; try done; simpl.
  - split; [done|]. unfold mlen. rewrite map_size_empty. lia.
  - split; rewrite ?F2, ?F3; try done; [constructor|]. intros c Hc. by apply elem_of_nil in Hc.
  - intros x Hx. by apply elem_of_nil in Hx.
Qed.

Lemma sinks_bounded (s : Server D) (conns : gmap N Conn) : table_wf i s conns → mlen (sv_tcp_punch s) ≤ mlen conns.
Proof.
  intros Ht. set (ks := (λ x : N * Conn, try_into_v4 (cn_addr x.2)) <$> map_to_list conns).
  assert (dom (sv_tcp_punch s) ⊆ (list_to_set ks : gset SocketAddr)) as Hsub.
  { intros a [c Ha]%elem_of_dom. destruct (tw_punch _ _ _ Ht a c Ha) as (n & cn & Hn & _ & ->).
    apply elem_of_list_to_set, list_elem_of_fmap. exists (n, cn). split; [done|]. by apply elem_of_map_to_list. }
  apply subseteq_size in Hsub. rewrite size_dom in Hsub. unfold mlen.
  assert (size (list_to_set ks : gset SocketAddr) ≤ length ks)%nat.
  { clear. induction ks as [|k ks IH]; [done|]. rewrite list_to_set_cons.
    pose proof (gset_size_insert_le k (list_to_set ks)). simpl in *. lia. }
  unfold ks in *. rewrite length_fmap, length_map_to_list in *. lia.
Qed.

(** C3: However clients connect, upgrade, exchange keys, send and disappear, and
    whatever the console, the timers and the event loop do meanwhile: the server
    keeps its invariant, every permit is either free or held by one open
    connection, every cached sink is that of an open connection under its own
    address, so there are never more than [MAX_RENDEZVOUS_CONNECTIONS], and no
    connection has two keep-alive tasks. *)
Theorem front_invariant s lp es :
  fresh_start i s lp max_connections →
  let fr := run es (start_front s lp max_connections) in
  server_wf i (fr_server fr) ∧
  0 ≤ fr_slots fr ∧ fr_slots fr + mlen (fr_conns fr) = max_connections ∧
  mlen (sv_tcp_punch (fr_server fr)) ≤ max_connections ∧
  (∀ a c, sv_tcp_punch (fr_server fr) !! a = Some c →
     ∃ n cn, fr_conns fr !! n = Some cn ∧ chan_of cn = Some c ∧ a = try_into_v4 (cn_addr cn)) ∧
  NoDup (sv_keepalives (fr_server fr)).
Proof.
  intros Hstart fr. pose proof (wf_front_run event_iso relay_port key sk i max_connections es _ (start_wf s lp Hstart)) as Hwf.
  fold fr in Hwf. pose proof (sinks_bounded _ _ (fw_table _ _ _ Hwf)). destruct Hwf as [W1 [W2 W2'] W3 W4 W5 W6].
  split_and!; [done..| | |]; [lia|apply W5|apply W5].
Qed.

(** Text is sent in the console's stage only. *)
Lemma step_text e fr n t : (n, SentText t) ∈ fr_sent (step e fr) →
  (n, SentText t) ∈ fr_sent fr ∨
  ∃ input cn, e = CommandRead n input ∧ fr_conns fr !! n = Some cn ∧ cn_stage cn = ConsoleCommand.
Proof.
  unfold front_step. destruct (event_conn e) as [m|] eqn:He.
  2:{ destruct e as [a ws|a|m input|m tmp sent next stream|m next|m headers|m tmp sent next stream
        |m tmp encoded sent items|m api next|m sent|b a|c| |e|c]; try done; try (intros ?; by left).
      - unfold handle_listener, spawn_task. case_match; intros ?; by left.
      - unfold handle_listener2, spawn_task. repeat (case_match; simpl); intros ?; by left.
      - case_bool_decide; intros ?; by left.
      - destruct e; intros ?; by left.
      - case_match; intros ?; by left. }
  destruct (fr_conns fr !! m) as [cn|] eqn:Hm; [|by intros ?; left]. unfold conn_step.
  assert (∀ l : list Union, ¬ SentText t ∈ (SentKey <$> l)) as Hkeys.
  { intros l (x & ? & _)%list_elem_of_fmap. done. }
  destruct e; try done; simpl in He; injection He as ->; destruct (cn_stage cn) as [| | | |[]|] eqn:Hst; try (intros ?; by left);
    unfold console_command, nat_exchange, nat_query, upgraded, tcp_exchange, ws_exchange, begin_serving,
      incoming, outgoing, handle_tcp, serve, close; cbn zeta;
    repeat case_match; try (intros ?; by left); intros Hin; cbn in Hin;
    (apply elem_of_app in Hin as [Hin|Hin]; [by left|]);
    try (apply list_elem_of_singleton in Hin; simplify_eq);
    try (apply list_elem_of_fmap in Hin as (x & [= -> <-] & Hin); by apply Hkeys in Hin).
  all: right; eexists _, _; by split_and!.
Qed.

(** C11: Nothing but the key exchange leaves a connection in the clear: after it,
    every message goes out on a TCP stream in encrypted mode or as the encryption
    of a message under an acceptable session key; text goes out only as the answer
    to a command read on a connection from a loopback address, while the operator
    has enabled the console. *)
Theorem nothing_leaves_in_the_clear s lp es n o :
  fresh_start i s lp max_connections →
  (n, o) ∈ fr_sent (run es (start_front s lp max_connections)) →
  match o with
  | SentText _ => runtime_console i = true ∧ ∃ es1 input es2 cn, es = es1 ++ CommandRead n input :: es2 ∧
      fr_conns (run es1 (start_front s lp max_connections)) !! n = Some cn ∧
      cn_stage cn = ConsoleCommand ∧ is_loopback (sa_ip (try_into_v4 (cn_addr cn))) = true
  | SentKey m => ∃ k, m = MKeyExchange [k]
  | SentFrame secured _ => secured = true
  | SentBinary b => encrypted b
  end.
Proof.
  intros Hstart Hin.
  pose proof (λ es, wf_front_run event_iso relay_port key sk i max_connections es _ (start_wf s lp Hstart)) as Hwf.
  pose proof (fw_sent _ _ _ (Hwf es) (n, o) Hin) as Hsent. destruct o as [t|?|? ?|?]; try done. split; [done|].
  clear Hsent. induction es as [|e es IH] using rev_ind; [by apply elem_of_nil in Hin|].
  unfold front_run in Hin. rewrite foldl_app in Hin. simpl in Hin.
  fold (run es (start_front s lp max_connections)) in Hin.
  destruct (step_text e _ n t Hin) as [Hold|(input & cn & -> & Hn & Hst)].
  - destruct (IH Hold) as (es1 & input & es2 & cn & -> & Hrest). exists es1, input, (es2 ++ [e]), cn.
    by rewrite <-app_assoc.
  - exists es, input, [], cn. split_and!; [done..|].
    destruct (tw_ok _ _ _ (fw_table _ _ _ (Hwf es)) n cn Hn) as [_ Hok]. rewrite Hst in Hok. apply Hok.
Qed.

(** *** Refinement *)

(** What can happen to the shared server: an event of [server_step], a console
    command, the cleanup. *)
Inductive service_step : Server D → Server D → Prop :=
  | service_server s s' : server_step i s s' → service_step s s'
  | service_console s rs closed cmd : service_step s (check_cmd event_iso rs closed cmd s).2
  | service_cleanup s : service_step s (cleanup_tick s).2.

Abbreviation reaches fr fr' := (rtc service_step (fr_server fr) (fr_server fr')).

Lemma reaches_server s s' : server_step i s s' → rtc service_step s s'.
Proof. intros Hs. by apply rtc_once, service_server. Qed.

Lemma reaches_close n cn c fr : reaches fr (close n cn c fr).
Proof. apply reaches_server, srv_close. Qed.

Lemma reaches_tcp n cn c io st api b fr :
  inner (cn_rs cn) = i → reaches fr (handle_tcp key n cn c io st api b fr).
Proof.
  intros Hi. unfold handle_tcp. destruct (parse_from_bytes b) as [msg|]; [|apply reaches_close].
  unfold serve. destruct (handle_tcp_msg _ _ _ _ _ _ _ _ _) as [r s] eqn:Hrun.
  assert (rtc service_step (fr_server fr) s) as Hs.
  { pose proof (srv_message i (fr_server fr) (cn_rs cn) api msg (Some c) st (cn_addr cn) key (io_is_ws io) Hi) as Hm.
    rewrite Hrun in Hm. by apply reaches_server. }
  destruct r as [[[|] st']|e]; [done|..]; (etrans; [exact Hs|apply reaches_server, srv_close]).
Qed.

Lemma reaches_nat cn msg fr r s :
  inner (cn_rs cn) = i → nat_answer cn msg (fr_server fr) = (r, s) → rtc service_step (fr_server fr) s.
Proof.
  intros Hi Hrun. unfold nat_answer in Hrun.
  destruct msg as [[]|]; try (injection Hrun as _ <-; done).
  destruct (_ && _) eqn:Hvalid; [|by injection Hrun as _ <-]. apply andb_true_iff in Hvalid as [Hlen Hids].
  pose proof (srv_message i (fr_server fr) (cn_rs cn) (mkApi (λ _ _ _ _ _, Err "") (λ _, Err "")) (Some (MOnlineRequest peers)) None false
    (cn_addr cn) key false Hi) as Hm.
  apply reaches_server. unfold handle_tcp_msg, handle_online_query in Hm.
  assert ((ONLINE_QUERY_MAX_PEERS <? len peers) = false) as Hlen' by (reflect_bools; lia).
  rewrite Hlen', Hids in Hm. simpl in Hm. unfold mbind, M_bind in *.
  destruct (build_online_response peers (fr_server fr)) as [[m|e] s1]; simpl in *; by injection Hrun as _ <-.
Qed.

Lemma step_reaches e fr : front_wf i max_connections fr → reaches fr (step e fr).
Proof.
  intros Hwf. unfold front_step. destruct (event_conn e) as [n|] eqn:Hconn.
  - destruct (fr_conns fr !! n) as [cn|] eqn:Hn; [|done]. unfold conn_step.
    destruct (tw_ok _ _ _ (fw_table _ _ _ Hwf) n cn Hn) as [Hi _].
    destruct e; try done; simpl in Hconn; injection Hconn as ->; destruct (cn_stage cn) as [| | | |[]|] eqn:Hst; try done.
    + unfold console_command. destruct input as [b|]; [|done]. destruct (utf8_of _) as [data|]; [|done].
      pose proof (service_console (fr_server fr) (cn_rs cn) false data) as Hc.
      destruct (check_cmd _ _ _ _ _) as [[[res [d|]]|e] s]; try by apply rtc_once.
      destruct (put d (fr_loop fr)); [by apply rtc_once|done].
    + unfold nat_exchange. cbn zeta. by destruct (hs_key _).
    + unfold nat_query. destruct next as [[b|]|]; try done. destruct (parse_from_bytes b) as [msg|]; [|done].
      destruct (nat_answer cn msg (fr_server fr)) as [r s] eqn:Hrun.
      pose proof (reaches_nat cn msg fr r s Hi Hrun). by destruct r as [[]|].
    + unfold upgraded. by destruct headers.
    + unfold tcp_exchange. cbn zeta. destruct (hs_key _); [|done]. apply reaches_server, (srv_open i _ (cn_addr cn)).
    + unfold ws_exchange. cbn zeta. destruct (hs_key _); [|done]. apply reaches_server, (srv_open i _ (cn_addr cn)).
    + unfold incoming. destruct io as [f|dec_in enc_out].
      * destruct next as [[[[b|e]|r]|]|]; try apply reaches_close. by apply reaches_tcp.
      * destruct next as [[[r|[[b| |]|e]]|]|]; try apply reaches_close; [|done].
        destruct (dec b dec_in) as [[plain|] dec_in']; [|apply reaches_close].
        destruct (is_empty plain); [done|by apply reaches_tcp].
    + pose proof (srv_next i (fr_server fr) c) as Hnext. apply reaches_server in Hnext.
      unfold outgoing. destruct io as [f|dec_in [enc_out|]]; [| |done];
        destruct (next_message c (fr_server fr)) as [[[msg|]|e] s]; try done; simpl in Hnext.
      * destruct sent; [done|]. etrans; [exact Hnext|apply reaches_server, srv_close].
      * cbn zeta. assert (rtc service_step (fr_server fr) (drop_receiver c s).2) as Hdrop.
        { etrans; [exact Hnext|apply reaches_server, srv_drop]. }
        destruct (write_to_bytes msg) as [b|]; [|done].
        destruct (enc b enc_out) as [[cipher|] enc_out']; [|done]. by destruct sent.
  - destruct e as [a ws|a|n input|n tmp sent next stream|n next|n headers|n tmp sent next stream
      |n tmp encoded sent items|n api next|n sent|b a|c| |e|c]; try done.
    + unfold handle_listener, spawn_task. by destruct (_ <=? _).
    + unfold handle_listener2, spawn_task. by destruct (_ && _), (_ <=? _).
    + unfold run_server, datagram. destruct (parse_from_bytes b) as [msg|]; [|done]. apply reaches_server, srv_datagram.
    + case_bool_decide; [|done]. by apply reaches_server, srv_keepalive.
    + apply rtc_once, service_cleanup.
    + by destruct e.
    + destruct (_ <=? _) eqn:Hle; [|done]. reflect_bools. by apply reaches_server, srv_clock.
Qed.

(** The connection layer adds nothing of its own: whatever happens on the
    listeners and connections, the shared server goes through steps of its
    message-level specification (a message handled, a channel opened, drained,
    closed, a datagram, a keep-alive, the clock), console commands and cleanups. *)
Theorem front_refines_service fr es :
  front_wf i max_connections fr → rtc service_step (fr_server fr) (fr_server (run es fr)).
Proof.
  revert fr. induction es as [|e es IH]; intros fr Hwf; [done|].
  etrans; [by apply (step_reaches e)|]. by apply IH, wf_step.
Qed.

(** *** The key exchange *)

(** The event in which connection [n] receives an acceptable session key. *)
Definition exchanged (n : N) (e : Event) : Prop :=
  match e with
  | NatKeys m tmp _ next _ | TcpKeys m tmp _ next _ =>
      m = n ∧ ∃ bytes k, next = Some (Ok bytes) ∧ offers parse_from_bytes tmp.2 bytes k
  | WsKeys m tmp _ _ items =>
      m = n ∧ ∃ bytes k, ws_response items = Ok bytes ∧ offers parse_from_bytes tmp.2 bytes k
  | _ => False
  end.

Definition established (st : Stage) : Prop :=
  match st with NatQuery _ | Serving _ _ _ => True | _ => False end.

Ltac others := repeat case_match; simpl; rewrite ?lookup_delete_ne, ?lookup_alter_ne by done; done.

Lemma step_others e n fr m :
  event_conn e = Some n → m ≠ n → fr_conns (step e fr) !! m = fr_conns fr !! m.
Proof.
  intros He Hm. unfold front_step. rewrite He. destruct (fr_conns fr !! n) as [cn|] eqn:Hn; [|done].
  unfold conn_step. destruct e; try done; destruct (cn_stage cn) as [| | | |[]|]; try done;
    unfold console_command, nat_exchange, nat_query, upgraded, tcp_exchange, ws_exchange, begin_serving,
      incoming, outgoing, handle_tcp, serve, close; simpl in He; injection He as ->; cbn zeta; try others.
Qed.

Lemma step_background e fr n cn :
  event_conn e = None → fr_conns (step e fr) !! n = Some cn → ¬ established (cn_stage cn) ∨ fr_conns fr !! n = Some cn.
Proof.
  intros He. unfold front_step. rewrite He.
  assert (∀ a st, ¬ established st → fr_conns (spawn_task a st fr) !! n = Some cn →
    ¬ established (cn_stage cn) ∨ fr_conns fr !! n = Some cn) as Hadmit.
  { intros a st Hst. unfold spawn_task. destruct (_ <=? _); [by right|]. simpl.
    intros [[_ <-]|[_ ?]]%lookup_insert_Some; [by left|by right]. }
  destruct e as [a ws|a|m input|m tmp sent next stream|m next|m headers|m tmp sent next stream
      |m tmp encoded sent items|m api next|m sent|b a|c| |e|c]; try done.
  - apply Hadmit. destruct ws; by intros [].
  - unfold handle_listener2. destruct (_ && _); apply Hadmit; by intros [].
  - by right.
  - case_bool_decide; by right.
  - by right.
  - destruct e; by right.
  - destruct (_ <=? _); by right.
Qed.

(** A connection whose keys are not exchanged yet. *)
Lemma step_unestablished e n cn fr :
  event_conn e = Some n → fr_conns fr !! n = Some cn → ¬ established (cn_stage cn) →
  exchanged n e ∨
  (∀ cn', fr_conns (step e fr) !! n = Some cn' → ¬ established (cn_stage cn')) ∧
  (cn_stage cn ≠ ConsoleCommand → fr_server (step e fr) = fr_server fr).
Proof.
  intros He Hn Hst. unfold front_step. rewrite He, Hn. unfold conn_step.
  assert (exchanged n e ∨ (∀ cn', fr_conns fr !! n = Some cn' → ¬ established (cn_stage cn')) ∧
    (cn_stage cn ≠ ConsoleCommand → fr_server fr = fr_server fr)) as Hsame.
  { right. split; [|done]. intros cn' Hn'. rewrite Hn in Hn'. by injection Hn' as <-. }
  assert (∀ fr', fr_conns fr' = fr_conns fr → fr_server fr' = fr_server fr → exchanged n e ∨
    (∀ cn', fr_conns (finish n fr') !! n = Some cn' → ¬ established (cn_stage cn')) ∧
    (cn_stage cn ≠ ConsoleCommand → fr_server (finish n fr') = fr_server fr)) as Hgone.
  { intros fr' _ Hs. right. split; [|done]. simpl. by rewrite lookup_delete_eq. }
  destruct e; try done; simpl in He; injection He as ->;
    destruct (cn_stage cn) as [| | | |[]|] eqn:Hc; try done; try by destruct Hst.
  - right. split; [|done]. intros cn'. unfold console_command.
    repeat case_match; simpl; rewrite ?lookup_delete_eq, ?Hn; intros ?; simplify_eq; by rewrite Hc.
  - unfold nat_exchange. cbn zeta. destruct (hs_key _) as [k|] eqn:Hk; [|by apply Hgone].
    pose proof (proj1 (handshake_ok _ _ _ _ _ _ _) Hk) as (_ & b & -> & Ho). left. split; [done|]. by exists b, k.
  - unfold upgraded. destruct headers as [h|]; [|by apply Hgone]. right. split; [|done]. simpl.
    rewrite !lookup_alter_eq, Hn. by intros ? [= <-].
  - unfold tcp_exchange. cbn zeta. destruct (hs_key _) as [k|] eqn:Hk; [|by apply Hgone].
    pose proof (proj1 (handshake_ok _ _ _ _ _ _ _) Hk) as (_ & b & -> & Ho). left. split; [done|]. by exists b, k.
  - unfold ws_exchange. cbn zeta. destruct (hs_key _) as [k|] eqn:Hk; [|by apply Hgone].
    apply handshake_ws_ok in Hk as (_ & _ & b & Hr & Ho). left. split; [done|]. by exists b, k.
Qed.

Lemma established_exchanged es s lp n cn :
  fr_conns (run es (start_front s lp max_connections)) !! n = Some cn → established (cn_stage cn) →
  Exists (exchanged n) es.
Proof.
  revert n cn. induction es as [|e es IH] using rev_ind; intros n cn Hn Hst; [done|].
  unfold front_run in Hn. rewrite foldl_app in Hn. simpl in Hn.
  fold (run es (start_front s lp max_connections)) in Hn. set (fr := run es _) in *.
  apply Exists_app. destruct (event_conn e) as [m|] eqn:He.
  - destruct (decide (n = m)) as [->|Hne].
    + destruct (fr_conns fr !! m) as [cn0|] eqn:Hm.
      * destruct (decide (Is_true (match cn_stage cn0 with NatQuery _ | Serving _ _ _ => true | _ => false end))) as [Hd|Hd].
        { left. apply (IH m cn0); [done|]. by destruct (cn_stage cn0). }
        right. apply Exists_cons_hd.
        assert (¬ established (cn_stage cn0)) as Hno by (destruct (cn_stage cn0); naive_solver).
        destruct (step_unestablished e m cn0 fr He Hm Hno) as [Hx|[Hx _]]; [done|]. by destruct (Hx cn Hn).
      * unfold front_step in Hn. rewrite He, Hm in Hn. by rewrite Hm in Hn.
    + left. rewrite (step_others e m) in Hn by done. by apply (IH n cn).
  - left. destruct (step_background e fr n cn He Hn) as [?|Hn']; [done|]. by apply (IH n cn).
Qed.

(** C2: No client is served before the key exchange: when an event of a connection
    changes the shared server at all, the server has received an acceptable session
    key on that connection, or it is a console command from a loopback address that
    the operator has enabled. *)
Theorem key_exchange_guards_server s lp es e n :
  fresh_start i s lp max_connections → event_conn e = Some n →
  let fr := run es (start_front s lp max_connections) in
  fr_server (step e fr) ≠ fr_server fr →
  Exists (exchanged n) (es ++ [e]) ∨
  ∃ cn, fr_conns fr !! n = Some cn ∧ cn_stage cn = ConsoleCommand ∧ runtime_console i = true ∧
    is_loopback (sa_ip (try_into_v4 (cn_addr cn))) = true.
Proof.
  intros Hstart He fr Hchange.
  pose proof (wf_front_run event_iso relay_port key sk i max_connections es _ (start_wf s lp Hstart)) as Hwf.
  fold fr in Hwf. destruct (fr_conns fr !! n) as [cn|] eqn:Hn.
  2:{ destruct Hchange. unfold front_step. by rewrite He, Hn. }
  pose proof (tw_ok _ _ _ (fw_table _ _ _ Hwf) n cn Hn) as [_ Hok].
  assert (established (cn_stage cn) ∨ ¬ established (cn_stage cn)) as [Hst|Hst]
    by (destruct (cn_stage cn); simpl; tauto).
  - left. apply Exists_app. left. by eapply established_exchanged.
  - destruct (step_unestablished e n cn fr He Hn Hst) as [Hx|[_ Hsame]].
    + left. apply Exists_app. right. by apply Exists_cons_hd.
    + destruct (cn_stage cn) eqn:Hc; try (destruct Hchange; by apply Hsame).
      right. exists cn. destruct Hok. by split_and!.
Qed.

(** *** The end of a silent connection *)

(** The event of a wait that runs out. *)
Definition timeout_event (n : N) (cn : Conn) (tmp : bytes * bytes) (sent : result unit) (stream : Framed) (api : Api) : Event :=
  match cn_stage cn with
  | ConsoleCommand => CommandRead n None
  | NatExchange => NatKeys n tmp sent None stream
  | NatQuery _ => NatMessage n None
  | Upgrading => Upgraded n None
  | Exchanging false => TcpKeys n tmp sent None stream
  | Exchanging true => WsKeys n tmp true sent []
  | Serving _ _ _ => Incoming n api None
  end.

(** A client that says nothing cannot hold on to the server: in every stage of
    a connection the wait for the client is bounded, and when it runs out the
    connection is over, its permit is free and its sink is no longer cached. *)
Theorem silent_connection_ends fr n cn tmp sent stream api :
  front_wf i max_connections fr → fr_conns fr !! n = Some cn →
  let fr' := step (timeout_event n cn tmp sent stream api) fr in
  fr_conns fr' !! n = None ∧ fr_slots fr' = fr_slots fr + 1 ∧
  ∀ c a, chan_of cn = Some c → sv_tcp_punch (fr_server fr') !! a ≠ Some c.
Proof.
  intros Hwf Hn. cbn zeta. unfold chan_of, timeout_event.
  destruct (cn_stage cn) as [| |f| |[]|c io st] eqn:Hst; unfold front_step; simpl; rewrite Hn; unfold conn_step; rewrite Hst.
  - simpl. by rewrite lookup_delete_eq.
  - unfold nat_exchange, attempt_handshake. destruct sent; simpl; by rewrite lookup_delete_eq.
  - simpl. by rewrite lookup_delete_eq.
  - simpl. by rewrite lookup_delete_eq.
  - unfold ws_exchange, attempt_handshake_ws. destruct sent; simpl; by rewrite lookup_delete_eq.
  - unfold tcp_exchange, attempt_handshake. destruct sent; simpl; by rewrite lookup_delete_eq.
  - assert (incoming key n cn c io st api None fr = close n cn c fr) as -> by by destruct io.
    assert (chan_of cn = Some c) as Hc by (unfold chan_of; by rewrite Hst).
    pose proof (wf_close i max_connections fr n cn c Hwf Hn Hc) as Hwf'.
    split; [simpl; apply lookup_delete_eq|]. split; [done|]. intros c' a [= <-] Ha.
    destruct (tw_punch _ _ _ (fw_table _ _ _ Hwf') a c Ha) as (m & x & Hm & Hx & _).
    simpl in Hm. apply lookup_delete_Some in Hm as [Hne Hm]. apply Hne.
    by apply (tw_own _ _ _ (fw_table _ _ _ Hwf) n m cn x c).
Qed.
End FrontTheorems.

(** ** Concrete instances *)

#[export] Instance sample_encrypt : EncryptLibrary | 100 := {|
  Encrypt := bytes; Encrypt_new k := k; enc b k := (Some b, k); dec b k := (Some b, k)
|}.
(** One byte is a query, anything else a key exchange. *)
#[export] Instance sample_wire : WireFormat | 100 := {|
  parse_from_bytes b := match b with
                        | [_] => Some (Some (MOnlineRequest ["device01"]))
                        | _ => sample_exchange b
                        end;
  write_to_bytes m := Some [1]
|}.

Definition sample_front_loop : Loop := mkLoop (mkRs [] [] [] (sample_inner true)) [] false [].
Lemma sample_fresh : fresh_start (sample_inner true) fresh_server sample_front_loop 64.
Proof. by split; [apply fresh_server_wf|..]. Qed.

(** A client connects, exchanges keys, asks, and is answered. *)
Definition sample_session : list Event :=
  [Accept controller_addr false;
   TcpKeys 0 ([1; 2], [1; 2]) (Ok tt) (Some (Ok [3; 4; 3; 4; 1; 2; 5; 6; 7])) sample_stream;
   Incoming 0 (mkApi (sample_post 204) (λ _, Err "offline")) (Some (Some (FramedItem (Ok [9]))));
   Outgoing 0 true].
Abbreviation sample_run := (front_run (D := SqlDb) show 21117 "key" [9] sample_session
  (start_front fresh_server sample_front_loop 64)).

Lemma front_invariant_witness :
  fr_slots sample_run = 63 ∧ mlen (sv_tcp_punch (fr_server sample_run)) = 1 ∧
  fr_slots sample_run + mlen (fr_conns sample_run) = 64.
Proof.
  split; [by vm_compute|]. split; [by vm_compute|].
  apply (front_invariant show 21117 "key" [9] (sample_inner true) 64 fresh_server sample_front_loop
    sample_session sample_fresh).
Defined.

Lemma nothing_leaves_in_the_clear_witness :
  fr_sent sample_run = [(0%N, SentKey (MKeyExchange [[9; 1; 2]])); (0%N, SentFrame true (MOnlineResponse [0]))] ∧
  (0%N, SentFrame true (MOnlineResponse [0])) ∈ fr_sent sample_run ∧ true = true.
Proof.
  assert (fr_sent sample_run = [(0%N, SentKey (MKeyExchange [[9; 1; 2]])); (0%N, SentFrame true (MOnlineResponse [0]))])
    as Hsent by (by vm_compute).
  assert ((0%N, SentFrame true (MOnlineResponse [0])) ∈ fr_sent sample_run) as Hin.
  { rewrite Hsent. right. by left. }
  split; [exact Hsent|]. split; [exact Hin|].
  exact (nothing_leaves_in_the_clear show 21117 "key" [9] (sample_inner true) 64 fresh_server sample_front_loop
    sample_session 0%N (SentFrame true (MOnlineResponse [0])) sample_fresh Hin).
Defined.

Lemma front_refines_service_witness :
  rtc (service_step show (sample_inner true)) fresh_server (fr_server sample_run).
Proof.
  apply (front_refines_service show 21117 "key" [9] (sample_inner true) 64
    (start_front fresh_server sample_front_loop 64) sample_session).
  apply start_wf, sample_fresh.
Defined.

Lemma key_exchange_guards_server_witness :
  Exists (exchanged 0) (take 2 sample_session).
Proof.
  destruct (key_exchange_guards_server (D := SqlDb) show 21117 "key" [9] (sample_inner true) 64 fresh_server
    sample_front_loop (take 1 sample_session)
    (TcpKeys 0 ([1; 2], [1; 2]) (Ok tt) (Some (Ok [3; 4; 3; 4; 1; 2; 5; 6; 7])) sample_stream) 0%N sample_fresh eq_refl)
    as [Hx|(cn & _ & _ & Hcon & _)].
  - intros Heq. apply (f_equal (λ s, mlen (sv_tcp_punch s))) in Heq. by vm_compute in Heq.
  - exact Hx.
  - by vm_compute in Hcon.
Defined.

Lemma silent_connection_ends_witness :
  let fr := front_run (D := SqlDb) show 21117 "key" [9] (take 1 sample_session)
              (start_front fresh_server sample_front_loop 64) in
  let fr' := front_step show 21117 "key" [9] (TcpKeys 0 ([1; 2], [1; 2]) (Ok tt) None sample_stream) fr in
  fr_slots fr = 63 ∧ fr_slots fr' = fr_slots fr + 1.
Proof.
  cbn zeta. split; [by vm_compute|].
  apply (silent_connection_ends (D := SqlDb) show 21117 "key" [9] (sample_inner true) 64
    (front_run show 21117 "key" [9] (take 1 sample_session) (start_front fresh_server sample_front_loop 64)) 0%N
    (mkConn (lp_rs sample_front_loop) controller_addr (Exchanging false)) ([1; 2], [1; 2]) (Ok tt) sample_stream
    (mkApi (sample_post 204) (λ _, Err "offline"))).
  - apply wf_front_run, start_wf, sample_fresh.
  - by vm_compute.
Defined.
