(* ===== verification/Interleave.v ===== *)
(** Handlers cut at their critical sections, and the interleavings of any
    number of them.

    A [Prog] is a computation of [M] with its interleaving points made explicit:
    a tree whose nodes are sections, computations that no other task can get
    into (a block under a lock, one access to a shared value, one database
    call), and whose edges are the points where other tasks may run.  [run]
    executes the sections one after the other: the handler as the other files
    define it.  [pool_step] runs one section of one of the tasks of a pool.

    [task_ok] is a program logic for one task among others, in the style of
    rely and guarantee: every section keeps the invariant [I] and stays within
    the preorder [Rel], and between two sections the others may do anything
    within the same bounds.  A task can own a share of a resource [G], and the
    proofs can use auxiliary state [W].  The theorem is [pool_ok_steps]: tasks
    that are each [task_ok] keep the invariant together. *)

From stdpp Require Import list.
From S2P Require Import Prelude.

(** ** Programs *)

Inductive Prog (S A : Type) : Type :=
  | Ret (r : result A)
  | Sect {X : Type} (m : M S X) (k : result X → Prog S A).
Arguments Ret {S A} _.
Arguments Sect {S A X} _ _.

Section Programs.
Context {S : Type}.

Fixpoint run {A} (p : Prog S A) : M S A := λ s,
  match p with
  | Ret r => (r, s)
  | Sect m k => let '(r, s') := m s in run (k r) s'
  end.

Fixpoint bind_prog {A B} (f : A → Prog S B) (p : Prog S A) : Prog S B :=
  match p with
  | Ret (Ok a) => f a
  | Ret (Err e) => Ret (Err e)
  | Sect m k => Sect m (λ r, bind_prog f (k r))
  end.

#[export] Instance Prog_ret : MRet (Prog S) := λ A a, Ret (Ok a).
#[export] Instance Prog_bind : MBind (Prog S) := λ A B f p, bind_prog f p.

(** One critical section. *)
Definition sect {A} (m : M S A) : Prog S A := Sect m Ret.

(** [match p { Ok(..) => .., Err(..) => .. }]. *)
Fixpoint try_prog {A} (p : Prog S A) : Prog S (result A) :=
  match p with
  | Ret r => Ret (Ok r)
  | Sect m k => Sect m (λ r, try_prog (k r))
  end.

Definition fail_prog {A} (e : string) : Prog S A := Ret (Err e).
Definition lift_prog {A} (r : result A) : Prog S A := Ret r.

Definition finished {A} (p : Prog S A) : Prop := ∃ r, p = Ret r.
#[export] Instance finished_dec {A} (p : Prog S A) : Decision (finished p).
Proof. by destruct p; [left; eexists|right; intros [? ?]..]. Defined.
End Programs.

(** ** Running a program without interruption *)

(** Two computations that do the same from every state. *)
#[export] Instance M_equiv {S A} : Equiv (M S A) := λ m n, ∀ s, m s = n s.
#[export] Instance M_equivalence {S A} : Equivalence (≡@{M S A}).
Proof.
  split; [done|by intros m n H s; rewrite H|].
  intros m n o H1 H2 s. by rewrite (H1 s), (H2 s).
Qed.

(** A program that, uninterrupted, is the computation [m]. *)
Definition runs_as {S A} (p : Prog S A) (m : M S A) : Prop := run p ≡ m.

Section RunsAs.
Context {S : Type}.

#[export] Instance bind_M_proper {A B} :
  Proper (pointwise_relation A (≡) ==> (≡) ==> (≡)) (mbind (M := M S) (A := A) (B := B)).
Proof.
  intros f g Hfg m n Hmn s. unfold mbind, M_bind. rewrite (Hmn s).
  destruct (n s) as [[a|e] s']; [apply Hfg|done].
Qed.
#[export] Instance attempt_proper {A} : Proper ((≡@{M S A}) ==> (≡)) attempt.
Proof. intros m n Hmn s. unfold attempt. by rewrite (Hmn s). Qed.

Lemma runs_ret {A} (a : A) : runs_as (S := S) (mret a) (mret a).
Proof. done. Qed.
Lemma runs_fail {A} e : runs_as (S := S) (A := A) (fail_prog e) (bail e).
Proof. done. Qed.
Lemma runs_lift {A} (r : result A) : runs_as (S := S) (lift_prog r) (lift r).
Proof. done. Qed.
Lemma runs_sect {A} (m : M S A) : runs_as (sect m) m.
Proof. intros s. simpl. by destruct (m s). Qed.
Lemma runs_bind {A B} (p : Prog S A) m (f : A → Prog S B) g :
  runs_as p m → (∀ a, runs_as (f a) (g a)) → runs_as (p ≫= f) (m ≫= g).
Proof.
  intros Hp Hf. unfold runs_as in *. rewrite <-Hp. clear Hp m. intros s. revert s.
  induction p as [[a|e]|X m k IH]; intros s; simpl; [apply Hf|done|].
  unfold mbind, M_bind in *. simpl. destruct (m s) as [r s']. apply IH.
Qed.
Lemma runs_try {A} (p : Prog S A) m : runs_as p m → runs_as (try_prog p) (attempt m).
Proof.
  intros Hp. unfold runs_as in *. rewrite <-Hp. clear Hp m. intros s. revert s.
  induction p as [r|X m k IH]; intros s; simpl; [done|].
  unfold attempt in *. destruct (m s) as [r s']. apply IH.
Qed.
Lemma runs_equiv {A} (p : Prog S A) m n : m ≡ n → runs_as p m → runs_as p n.
Proof. intros Hmn Hp. unfold runs_as in *. by rewrite Hp. Qed.
End RunsAs.

(** An embedding of the computations of a part of the state into those of the
    whole, compatible with every construct. *)
Class Embedding {T S} (F : ∀ A, M T A → M S A) := {
  emb_proper A :: Proper ((≡) ==> (≡)) (F A);
  emb_lift {A} (r : result A) : F A (lift r) ≡ lift r;
  emb_bind {A B} (m : M T A) (f : A → M T B) : F B (m ≫= f) ≡ F A m ≫= (λ a, F B (f a));
  emb_attempt {A} (m : M T A) : F _ (attempt m) ≡ attempt (F A m)
}.

(** A part that can be read and replaced. *)
Lemma zoom_embedding {T S} (view : S → T) (update : T → S → S) :
  (∀ s t, view (update t s) = t) → (∀ s t t', update t' (update t s) = update t' s) →
  (∀ s, update (view s) s = s) → Embedding (λ A, zoom (A := A) view update).
Proof.
  intros Hget Hput Hid. split.
  - intros A m n Hmn s. unfold zoom. by rewrite (Hmn (view s)).
  - intros A r s. unfold zoom, lift. by rewrite Hid.
  - intros A B m f s. unfold zoom, mbind, M_bind. destruct (m (view s)) as [[a|e] t]; [|done].
    rewrite Hget. destruct (f a t) as [r t']. by rewrite Hput.
  - intros A m s. unfold zoom, attempt. by destruct (m (view s)).
Qed.

Lemma embedding_trans {R T S} (F : ∀ A, M T A → M S A) (E : ∀ A, M R A → M T A) :
  Embedding F → Embedding E → Embedding (λ A m, F A (E A m)).
Proof.
  intros HF HE. split.
  - intros A m n Hmn. by apply (emb_proper (F := F)), (emb_proper (F := E)).
  - intros A r. by rewrite !emb_lift.
  - intros A B m f. rewrite emb_bind. apply emb_bind.
  - intros A m. by rewrite !emb_attempt.
Qed.

Section RunsEmbedded.
Context {T S : Type} (F : ∀ A, M T A → M S A) `{!Embedding F}.

Lemma runs_emb_ret {A} (a : A) : runs_as (mret a) (F A (mret a)).
Proof. eapply runs_equiv; [symmetry; apply (emb_lift (Ok a))|done]. Qed.
Lemma runs_emb_lift {A} (r : result A) : runs_as (lift_prog r) (F A (lift r)).
Proof. eapply runs_equiv; [symmetry; apply emb_lift|done]. Qed.
Lemma runs_emb_bind {A B} (p : Prog S A) m (f : A → Prog S B) g :
  runs_as p (F A m) → (∀ a, runs_as (f a) (F B (g a))) → runs_as (p ≫= f) (F B (m ≫= g)).
Proof. intros. eapply runs_equiv; [symmetry; apply emb_bind|by apply runs_bind]. Qed.
Lemma runs_emb_try {A} (p : Prog S A) m : runs_as p (F A m) → runs_as (try_prog p) (F _ (attempt m)).
Proof. intros. eapply runs_equiv; [symmetry; apply emb_attempt|by apply runs_try]. Qed.
End RunsEmbedded.

Create HintDb runs.
#[export] Hint Resolve runs_ret runs_fail runs_lift runs_sect : runs.

(** Compare a program with a computation, one construct at a time. *)
Ltac same_run_step :=
  lazymatch goal with
  | |- runs_as (_ ≫= _) (_ ≫= _) => apply runs_bind
  | |- runs_as (try_prog _) (attempt _) => apply runs_try
  | |- runs_as (match ?x with _ => _ end) (match ?x with _ => _ end) => destruct x
  | |- ∀ _, runs_as _ _ => intros ?
  | |- runs_as _ _ => solve [eauto with runs]
  end.
Ltac same_run := repeat (same_run_step; cbn beta zeta).

(** ** Tasks *)

(** A pool of tasks on a shared state.  [spawn] says which tasks may start, and
    [env] what else may happen to the state at any time. *)
Section Pool.
Context {S : Type} (spawn : Prog S unit → Prop) (env : S → S → Prop).

Inductive pool_step : list (Prog S unit) * S → list (Prog S unit) * S → Prop :=
  | pool_sect ts n X (m : M S X) k s r s' :
      ts !! n = Some (Sect m k) → m s = (r, s') → pool_step (ts, s) (<[n := k r]> ts, s')
  | pool_spawn ts p s : spawn p → pool_step (ts, s) (ts ++ [p], s)
  | pool_env ts s s' : env s s' → pool_step (ts, s) (ts, s').

(** Running a task to its end without interruption is one of the schedules. *)
Lemma run_is_schedule done (p : Prog S unit) rest s :
  rtc pool_step (done ++ p :: rest, s) (done ++ Ret (run p s).1 :: rest, (run p s).2).
Proof.
  revert s. induction p as [r|X m k IH]; intros s; simpl; [reflexivity|].
  destruct (m s) as [r s'] eqn:Hm. eapply rtc_l; [|apply IH].
  assert (<[length done := k r]> (done ++ Sect m k :: rest) = done ++ k r :: rest) as <-
    by (by rewrite insert_app_r_alt, Nat.sub_diag by lia).
  eapply pool_sect; [|exact Hm]. rewrite lookup_app_r by lia. by rewrite Nat.sub_diag.
Qed.

(** Tasks cannot block each other: one after the other, all of them end. *)
Lemma pool_drains ts s :
  ∃ ts' s', rtc pool_step (ts, s) (ts', s') ∧ Forall finished ts' ∧ length ts' = length ts.
Proof.
  assert (∀ fin rest s, Forall finished fin → ∃ ts' s',
    rtc pool_step (fin ++ rest, s) (ts', s') ∧ Forall finished ts' ∧
    length ts' = length (fin ++ rest)) as Hdrain; [|by apply (Hdrain [])].
  clear ts s. intros fin rest. revert fin.
  induction rest as [|p rest IH]; intros fin s Hfin; [exists fin, s; by rewrite app_nil_r|].
  destruct (IH (fin ++ [Ret (run p s).1]) (run p s).2) as (ts' & s' & Hsteps & Hts & Hlen).
  { apply Forall_app. split; [done|]. constructor; [by eexists|constructor]. }
  exists ts', s'. split_and!; [|done|].
  - etrans; [apply run_is_schedule|]. by rewrite <-app_assoc in Hsteps.
  - rewrite Hlen, !length_app. simpl. lia.
Qed.
End Pool.

(** ** Shares of a resource *)

(** A commutative monoid up to an equivalence. *)
Class Shares (G : Type) `{Equiv G} := {
  share_op : G → G → G;
  share_none : G;
  #[export] share_equiv :: Equivalence (≡@{G});
  #[export] share_op_proper :: Proper ((≡) ==> (≡) ==> (≡)) share_op;
  #[export] share_comm :: Comm (≡) share_op;
  #[export] share_assoc :: Assoc (≡) share_op;
  #[export] share_left_id :: LeftId (≡) share_none share_op
}.
Infix "⋅" := share_op (at level 50, left associativity).

Lemma share_left `{Shares G} (a : G) : share_none ⋅ a ≡ a.
Proof. apply share_left_id. Qed.
Lemma share_swap `{Shares G} (a b c : G) : a ⋅ (b ⋅ c) ≡ b ⋅ (a ⋅ c).
Proof. by rewrite (share_assoc a b c), (share_comm a b), <-(share_assoc b a c). Qed.

(** A number of permits. *)
#[export] Instance nat_equiv : Equiv nat := (=).
#[export] Instance nat_shares : Shares nat.
Proof.
  refine (Build_Shares nat _ Nat.add 0%nat _ _ _ _ _); repeat intro; unfold equiv, nat_equiv in *; lia.
Defined.

(** A bag of things. *)
Record Bag (A : Type) := mkBag { bag_list : list A }.
Arguments mkBag {A} _.
Arguments bag_list {A} _.
#[export] Instance bag_equiv {A} : Equiv (Bag A) := λ a b, bag_list a ≡ₚ bag_list b.
#[export] Instance bag_shares {A} : Shares (Bag A).
Proof.
  refine (Build_Shares (Bag A) _ (λ a b, mkBag (bag_list a ++ bag_list b)) (mkBag []) _ _ _ _ _);
    unfold equiv, bag_equiv.
  - split; repeat intro; [done|by symmetry|by etrans].
  - intros a b Hab c d Hcd. simpl. by rewrite Hab, Hcd.
  - intros a b. simpl. apply Permutation_app_comm.
  - intros a b c. simpl. by rewrite (assoc (++)).
  - by intros a.
Defined.

(** Two resources side by side. *)
#[export] Instance prod_shares `{Shares G1, Shares G2} : Shares (G1 * G2).
Proof.
  refine (Build_Shares (G1 * G2) _ (λ a b, (a.1 ⋅ b.1, a.2 ⋅ b.2)) (share_none, share_none) _ _ _ _ _).
  - intros a b Hab c d Hcd. f_equiv; by rewrite Hab, Hcd.
  - intros a b. f_equiv; apply share_comm.
  - intros a b c. f_equiv; apply share_assoc.
  - intros [a1 a2]. simpl. f_equiv; apply share_left_id.
Defined.

(** ** The logic *)

Section Logic.
Context {S W G : Type} `{Shares G}.
Context (I : G → W → S → Prop) `{!Proper ((≡) ==> (=) ==> (=) ==> iff) I}.
Context (Rel : W * S → W * S → Prop) `{!PreOrder Rel}.

Lemma inv_share g g' w s : g ≡ g' → I g w s → I g' w s.
Proof. intros Hg. by rewrite Hg. Qed.

(** The rest of a task that owns [g], last ran in [(w, s)], keeps the
    invariant and ends with [Q]. *)
Fixpoint task_ok {A} (p : Prog S A) (Q : result A → G → W → S → Prop) (g : G) (w : W) (s : S) : Prop :=
  match p with
  | Ret r => ∀ w' s', Rel (w, s) (w', s') → Q r g w' s'
  | Sect m k => ∀ f w1 s1, Rel (w, s) (w1, s1) → I (g ⋅ f) w1 s1 →
      wp m (λ r s2, ∃ g' w2, Rel (w1, s1) (w2, s2) ∧ I (g' ⋅ f) w2 s2 ∧
              task_ok (k r) Q g' w2 s2) s1
  end.

(** A task that has not started yet does not mind what happens before. *)
Lemma task_later {A} (p : Prog S A) Q g w s w' s' :
  Rel (w, s) (w', s') → task_ok p Q g w s → task_ok p Q g w' s'.
Proof.
  intros Hrel Hp. destruct p as [r|X m k]; simpl in *.
  - intros w2 s2 Hrel2. apply Hp. by etrans.
  - intros f w1 s1 Hrel1. apply Hp. by etrans.
Qed.

Lemma task_mono {A} (p : Prog S A) (P Q : result A → G → W → S → Prop) g w s :
  (∀ r g' w' s', Rel (w, s) (w', s') → P r g' w' s' → Q r g' w' s') →
  task_ok p P g w s → task_ok p Q g w s.
Proof.
  revert g w s. induction p as [r|X m k IH]; intros g w s HPQ Hp; simpl in *; [by auto|].
  intros f w1 s1 Hrel HI. eapply wp_mono; [|by apply Hp].
  intros r s2 (g' & w2 & Hrel2 & HI2 & Hk). exists g', w2. split_and!; [done..|].
  apply IH; [|done]. intros r' g1 w' s' Hrel3. apply HPQ. etrans; [done|]. by etrans.
Qed.

Lemma task_ret {A} (a : A) (Q : result A → G → W → S → Prop) g w s :
  (∀ w' s', Rel (w, s) (w', s') → Q (Ok a) g w' s') → task_ok (mret a) Q g w s.
Proof. done. Qed.

Lemma task_bind {A B} (p : Prog S A) (f : A → Prog S B) (Q : result B → G → W → S → Prop) g w s :
  task_ok p (λ r g' w' s', match r with
                           | Ok a => task_ok (f a) Q g' w' s'
                           | Err e => Q (Err e) g' w' s'
                           end) g w s →
  task_ok (p ≫= f) Q g w s.
Proof.
  unfold mbind, Prog_bind. revert g w s. induction p as [[a|e]|X m k IH]; intros g w s Hp; simpl in *.
  - by apply Hp.
  - done.
  - intros fr w1 s1 Hrel HI. eapply wp_mono; [|by apply Hp].
    intros r s2 (g' & w2 & Hrel2 & HI2 & Hk). exists g', w2. split_and!; [done..|]. by apply IH.
Qed.

Lemma task_try {A} (p : Prog S A) (Q : result (result A) → G → W → S → Prop) g w s :
  task_ok p (λ r, Q (Ok r)) g w s → task_ok (try_prog p) Q g w s.
Proof.
  revert g w s. induction p as [r|X m k IH]; intros g w s Hp; simpl in *; [done|].
  intros fr w1 s1 Hrel HI. eapply wp_mono; [|by apply Hp].
  intros r s2 (g' & w2 & Hrel2 & HI2 & Hk). exists g', w2. split_and!; [done..|]. by apply IH.
Qed.

(** A section: it may change what the task owns, and the auxiliary state. *)
Lemma task_sect {A} (m : M S A) (Q : result A → G → W → S → Prop) g w s :
  (∀ f w1 s1, Rel (w, s) (w1, s1) → I (g ⋅ f) w1 s1 →
     wp m (λ r s2, ∃ g' w2, Rel (w1, s1) (w2, s2) ∧ I (g' ⋅ f) w2 s2 ∧
             ∀ w' s', Rel (w2, s2) (w', s') → Q r g' w' s') s1) →
  task_ok (sect m) Q g w s.
Proof. done. Qed.

(** ** Pools of sound tasks *)

Definition total (gs : list G) : G := foldr share_op share_none gs.

(** A finished task owns nothing. *)
Definition gives_back {A} (r : result A) (g : G) (w : W) (s : S) : Prop := g ≡ share_none.

Definition pool_ok (ts : list (Prog S unit)) (w : W) (s : S) : Prop :=
  ∃ gs, Forall2 (λ p g, task_ok p gives_back g w s) ts gs ∧ I (total gs) w s.

Lemma total_insert gs n g :
  gs !! n = Some g → ∃ f, total gs ≡ g ⋅ f ∧ ∀ g', total (<[n := g']> gs) ≡ g' ⋅ f.
Proof.
  revert n. induction gs as [|g0 gs IH]; intros [|n] Hn; simpl in *; simplify_eq.
  - by exists (total gs).
  - destruct (IH n Hn) as (f & H1 & H2). exists (g0 ⋅ f). unfold total in *. rewrite H1.
    split; [|intros g'; rewrite H2]; apply share_swap.
Qed.

Lemma total_app gs g : total (gs ++ [g]) ≡ g ⋅ total gs.
Proof.
  induction gs as [|g0 gs IH]; simpl; [done|]. unfold total in *. rewrite IH. apply share_swap.
Qed.

Lemma all_later ts gs w s w' s' :
  Rel (w, s) (w', s') → Forall2 (λ p g, task_ok (A := unit) p gives_back g w s) ts gs →
  Forall2 (λ p g, task_ok p gives_back g w' s') ts gs.
Proof. intros Hrel. induction 1; constructor; [by eapply task_later|done]. Qed.

Context (spawn : Prog S unit → Prop) (env : S → S → Prop).
Context (spawn_ok : ∀ p, spawn p → ∀ w s, task_ok p gives_back share_none w s).
Context (env_ok : ∀ g w s s', I g w s → env s s' → ∃ w', Rel (w, s) (w', s') ∧ I g w' s').

Lemma pool_ok_step ts s ts' s' w :
  pool_step spawn env (ts, s) (ts', s') → pool_ok ts w s →
  ∃ w', Rel (w, s) (w', s') ∧ pool_ok ts' w' s'.
Proof.
  intros Hstep (gs & Hts & HI).
  inversion Hstep as [? n X m k ? r ? Hn Hm|? p ? Hp|??? Henv]; subst.
  - destruct (Forall2_lookup_l _ _ _ _ _ Hts Hn) as (g & Hg & Hok). simpl in Hok.
    destruct (total_insert gs n g Hg) as (f & Hf & Hf').
    specialize (Hok f w s (reflexivity _) (inv_share _ _ _ _ Hf HI)).
    apply (wp_run _ _ _ _ _ Hok) in Hm as (g' & w' & Hrel & HI' & Hk).
    exists w'. split; [done|]. exists (<[n := g']> gs). split.
    + apply Forall2_insert; [|done]. by apply (all_later _ _ w s).
    + by eapply inv_share, HI'.
  - exists w. split; [done|]. exists (gs ++ [share_none]). split.
    + apply Forall2_app; [done|]. constructor; [by apply spawn_ok|constructor].
    + eapply inv_share, HI. by rewrite total_app, share_left.
  - destruct (env_ok _ _ _ _ HI Henv) as (w' & Hrel & HI'). exists w'. split; [done|].
    exists gs. split; [|done]. by apply (all_later _ _ w s).
Qed.

(** Whatever the schedule, the invariant holds. *)
Lemma pool_ok_steps ts s ts' s' w :
  rtc (pool_step spawn env) (ts, s) (ts', s') → pool_ok ts w s →
  ∃ w', Rel (w, s) (w', s') ∧ pool_ok ts' w' s'.
Proof.
  intros Hsteps. remember (ts, s) as x eqn:Hx. remember (ts', s') as y eqn:Hy.
  revert ts s w Hx. induction Hsteps as [|x [ts1 s1] z Hstep _ IH]; intros ts s w -> Hok.
  - injection Hy as <- <-. by exists w.
  - destruct (pool_ok_step _ _ _ _ _ Hstep Hok) as (w1 & Hrel1 & Hok1).
    destruct (IH Hy _ _ _ eq_refl Hok1) as (w2 & Hrel2 & Hok2).
    exists w2. split; [by etrans|done].
Qed.

(** When every task is finished, nothing is owned. *)
Lemma pool_ok_finished ts w s : pool_ok ts w s → Forall finished ts → I share_none w s.
Proof.
  intros (gs & Hts & HI) Hfin. eapply inv_share, HI. clear HI.
  induction Hts as [|p g ts gs Hp _ IH]; [done|].
  inversion Hfin as [|?? [r ->] Hfin']; subst. unfold total in *. simpl.
  specialize (IH Hfin').
  pose proof (Hp w s (reflexivity _)) as Hg. unfold gives_back in Hg. by rewrite IH, Hg, share_left.
Qed.

(** Tasks of which none has started. *)
Lemma pool_ok_fresh ts w s :
  Forall spawn ts → I share_none w s → pool_ok ts w s.
Proof.
  intros Hts HI. exists ((λ _, share_none) <$> ts). split.
  - induction Hts as [|p ts Hp _ IH]; simpl; constructor; [by apply spawn_ok|done].
  - eapply inv_share, HI. clear Hts. symmetry. induction ts as [|p ts IH]; simpl; [done|]. unfold total in IH. by rewrite IH, share_left.
Qed.
End Logic.

(** ** Schedules *)

(** The next section of task [n]; nothing if it is finished. *)
Definition step_at {S} (x : list (Prog S unit) * S) (n : nat) : list (Prog S unit) * S :=
  match x.1 !! n with
  | Some (Sect m k) => let '(r, s') := m x.2 in (<[n := k r]> x.1, s')
  | _ => x
  end.
Definition schedule {S} (ns : list nat) (x : list (Prog S unit) * S) : list (Prog S unit) * S :=
  foldl step_at x ns.

Lemma schedule_steps {S} (spawn : Prog S unit → Prop) (env : S → S → Prop) ns x :
  rtc (pool_step spawn env) x (schedule ns x).
Proof.
  revert x. induction ns as [|n ns IH]; intros [ts s]; [done|]. simpl.
  etrans; [|apply IH]. unfold step_at. simpl.
  destruct (ts !! n) as [[r|X m k]|] eqn:Hn; [done| |done].
  destruct (m s) as [r s'] eqn:Hm. apply rtc_once. by eapply pool_sect.
Qed.

Lemma schedule_reaches {S} (spawn : Prog S unit → Prop) (env : S → S → Prop) ns x :
  rtc (pool_step spawn env) x ((schedule ns x).1, (schedule ns x).2).
Proof. rewrite <-surjective_pairing. apply schedule_steps. Qed.
