(* ===== verification/Tasks.v ===== *)
(** The identity server's handlers, cut at their critical sections
    ([src/rendezvous_server.rs], [src/peer.rs]).

    Every connection is served by a task of its own, and the handlers of
    [Server] are not atomic: between two accesses to the shared state (a block
    under a lock, an atomic, a database call, a [try_send]) the other tasks run.
    Here each handler is a [Prog] whose sections are these accesses, in the
    order of the source.  [..._task] is the handler [...].

    The theorems: uninterrupted, each program is the handler of [Server]
    ([tasks_run_as_handlers]), so that the rest of the development and this
    file speak of the same code. *)

From Stdlib Require Import Ascii String.
From S2P Require Import Prelude.
From S2P Require Import Text.
From S2P Require Import Net.
From S2P Require Import RateLimit.
From S2P Require Import Database.
From S2P Require Import PeerCache.
From S2P Require Import Messages.
From S2P Require Import Externals.
From S2P Require Import Registration.
From S2P Require Import Pending.
From S2P Require Import HttpProxy.
From S2P Require Import Server.
From S2P Require Import Console.
From S2P Require Import Connections.
From S2P Require Import Interleave.

Definition set_slots {D} (n : Z) (s : Server D) : Server D :=
  mkServer (sv_reg s) (sv_pending s) (sv_draws s) (sv_tcp_punch s) (sv_chans s) (sv_punch_reqs s)
    (sv_rotation s) (sv_always_use_relay s) (sv_rates s) n (sv_keepalives s).

Section Tasks.
Context {D : Type} `{!PeerStore D} `{X : !Externals} `{R : !Entropy} `{H : !HttpLibrary}.

Abbreviation Task := (Prog (Server D)).

(** ** The peer cache *)

Definition pm_sect {A} (m : M (PeerMap D) A) : Task A := sect (on_pm m).

(** [peer.write().await.last_access_time = Instant::now()]: the time is read
    first. *)
Definition touch_task (l : LockPeer) : Task unit :=
  t ← pm_sect instant_now;
  pm_sect (modify (λ pm, set_heap (alter (set_last_access t) l (pm_heap pm)) pm)).

Definition peer_default_task : Task Peer :=
  t1 ← pm_sect instant_now;
  t2 ← pm_sect instant_now;
  t3 ← pm_sect instant_now;
  mret (mkPeer (SockV4 UNSPECIFIED_V4 0) (get_expired_time instant_min t1) t2 [] [] [] false None
          (mkPeerInfo "") (0, get_expired_time instant_min t3)).

(** One candidate after the other, each under its own lock. *)
Fixpoint evict_scan_task (idle_secs : Z) (snapshot : list (string * LockPeer))
    : Task (list (string * Instant)) :=
  match snapshot with
  | [] => mret []
  | (id, l) :: rest =>
      c ← pm_sect (evict_candidate idle_secs id l);
      cs ← evict_scan_task idle_secs rest;
      mret (c ++ cs)
  end.

(** The removal holds the map's lock. *)
Definition evict_section (snapshot : list (string * LockPeer)) (candidates : list (string * Instant))
    : M (PeerMap D) Z :=
  before ← gets (λ pm, mlen (pm_map pm));
  modify (evict_remove snapshot candidates);;
  after ← gets (λ pm, mlen (pm_map pm));
  mret (before - after).

Definition evict_inactive_task (idle_secs : Z) : Task Z :=
  snapshot ← pm_sect (gets (λ pm, map_to_list (pm_map pm)));
  candidates ← evict_scan_task idle_secs snapshot;
  if is_empty candidates then mret 0 else pm_sect (evict_section snapshot candidates).

Definition evict_then_insert_task (id : string) (peer : LockPeer) : Task (option LockPeer) :=
  evict_inactive_task PEER_CACHE_ACTIVE_GRACE_SECS;;
  pm_sect (state (final_section id peer)).

Definition cache_peer_task (id : string) (peer : LockPeer) : Task (option LockPeer) :=
  next ← pm_sect (gets (read_section id));
  match next with
  | Return r => mret r
  | TryInsert =>
      next ← pm_sect (state (insert_section id peer));
      match next with Return r => mret r | _ => evict_then_insert_task id peer end
  | Evict => evict_then_insert_task id peer
  end.

Definition get_task (id : string) : Task (option LockPeer) :=
  p ← pm_sect (gets (λ pm, pm_map pm !! id));
  match p with
  | Some peer => touch_task peer;; mret (Some peer)
  | None =>
      r ← try_prog (pm_sect (db_get_peer id));
      stored_peer ← lift_prog (with_context r (load_context id));
      match stored_peer with
      | None => mret None
      | Some v =>
          i ← lift_prog (ok_or (from_json (db_info v)) (metadata_context id));
          d ← peer_default_task;
          peer ← pm_sect (alloc (mkPeer (socket_addr d) (last_reg_time d) (last_access_time d)
                            (db_guid v) (db_uuid v) (db_pk v)
                            (persistence_in_progress d) (deployment_verified_at d) i (reg_pk d)));
          cache_peer_task id peer
      end
  end.

Definition get_or_task (id : string) : Task (option LockPeer) :=
  p ← get_task id;
  match p with
  | Some p => mret (Some p)
  | None => d ← peer_default_task; tmp ← pm_sect (alloc d); cache_peer_task id tmp
  end.

Definition get_in_memory_task (id : string) : Task (option LockPeer) :=
  p ← pm_sect (gets (λ pm, pm_map pm !! id));
  match p with
  | Some peer => touch_task peer;; mret (Some peer)
  | None => mret None
  end.

(** ** Registration *)

Definition register_begin_task (inner : Inner)
    (post : string → string → string → string → string → result Z)
    (rk : RegisterPk) (socket_addr' : SocketAddr) : Task (RegisterPkResult + PersistTask) :=
  if negb (str_empty (rk_old_id rk)) then mret (inl NOT_SUPPORT) else
  if negb (valid_peer_id (rk_id rk)) || is_empty (rk_uuid rk)
     || (REGISTER_UUID_MAX_LEN <? len (rk_uuid rk)) || negb (len (rk_pk rk) =? PUBLICKEYBYTES)
  then mret (inl INVALID_ID_FORMAT) else
  let ip := show_ip (sa_ip socket_addr') in
  allowed ← sect (on_reg (request_allowed ip (rk_id rk)));
  if negb allowed then mret (inl TOO_FREQUENT) else
  let authorization :=
    if allow_unmanaged_devices inner then inr false
    else match verify_device_deployment inner post (rk_id rk) (rk_uuid rk) (rk_pk rk) with
         | Ok true => inr true
         | Ok false => inl NOT_DEPLOYED
         | Err _ => inl SERVER_ERROR
         end in
  match authorization with
  | inl answer => mret (inl answer)
  | inr managed_authorized =>
      found ← get_or_task (rk_id rk);
      match found with
      | None => mret (inl SERVER_ERROR)
      | Some peer =>
          stage ← pm_sect (with_write peer
            (stage_peer_registration socket_addr' (rk_uuid rk) (rk_pk rk) ip managed_authorized));
          match stage with
          | Busy => mret (inl SERVER_ERROR)
          | UuidMismatch => mret (inl UUID_MISMATCH)
          | TooFrequent => mret (inl TOO_FREQUENT)
          | Unchanged =>
              (if managed_authorized : bool
               then pm_sect (with_write peer (now ← instant_now; put (set_verified_at (Some now))))
               else mret tt);;
              mret (inl OK)
          | Persist pending =>
              mret (inr (mkPersistTask (rk_id rk) peer (rk_uuid rk) (rk_pk rk)
                           managed_authorized pending))
          end
      end
  end.

(** The spawned task; whoever spawned it waits for it. *)
Definition persist_task_task (t : PersistTask) : Task unit :=
  written ← try_prog (pm_sect (persist_write t));
  pm_sect (persist_finish t written).

Definition register_pk_task (inner : Inner)
    (post : string → string → string → string → string → result Z)
    (rk : RegisterPk) (socket_addr' : SocketAddr) : Task (option RegisterPkResult) :=
  begun ← register_begin_task inner post rk socket_addr';
  match begun with
  | inl answer => mret (Some answer)
  | inr task =>
      persistence ← try_prog (persist_task_task task);
      match persistence with
      | Err _ => mret (Some SERVER_ERROR)
      | Ok tt =>
          (if pr_ip_changed (pt_pending task)
           then sect (on_reg (note_ip_change (rk_id rk) (show_ip (sa_ip socket_addr'))));; mret tt
           else mret tt);;
          mret (Some OK)
      end
  end.

Definition register_peer_task (inner : Inner) (rendezvous_servers : list string)
    (rp : RegisterPeer) (socket_addr' : SocketAddr)
    : Task (RegisterPeerResponse * option ConfigUpdate) :=
  found ← get_task (rp_id rp);
  r ← match found with
      | Some old => pm_sect (with_write old (heartbeat inner socket_addr'))
      | None => mret (true, None)
      end;
  let cu := if rp_serial rp <? serial inner
            then Some (mkConfigUpdate (serial inner) rendezvous_servers) else None in
  mret (mkRegisterPeerResponse r.1, cu).

(** ** Channels *)

Definition send_to_sink_task (sink : option ChanId) (msg : Union) : Task bool :=
  match sink with Some tx => sect (try_send tx msg) | None => mret false end.

(** The entry leaves the table under its lock; the message is sent after. *)
Definition take_sink (addr : SocketAddr) : M (Server D) (option ChanId) :=
  tcp ← gets (λ s, sv_tcp_punch s !! try_into_v4 addr);
  modify (λ s, set_tcp_punch (delete (try_into_v4 addr) (sv_tcp_punch s)) s);;
  mret tcp.

Definition send_to_tcp_task (msg : Union) (addr : SocketAddr) : Task unit :=
  tcp ← sect (take_sink addr);
  sent ← send_to_sink_task tcp msg;
  if sent : bool then mret tt
  else fail_prog "Rendezvous TCP recipient is unavailable or backpressured".

Definition send_relay_failure_task (sink : option ChanId) (reason : string) : Task bool :=
  send_to_sink_task sink (MRelayResponse (relay_refusal reason)).

Definition send_to_tcp_sync_task (msg : Union) (addr : SocketAddr) : Task unit :=
  entry ← sect (gets (λ s, sv_tcp_punch s !! try_into_v4 addr));
  match entry with
  | None => fail_prog "Rendezvous TCP recipient is unavailable"
  | Some tx =>
      sent ← sect (try_send tx msg);
      if sent : bool then mret tt else fail_prog "Rendezvous TCP recipient is backpressured"
  end.

(** ** Answers of a device *)

Definition get_pk_task (version id : string) : Task bytes :=
  if str_empty version then mret [] else
  r ← try_prog (get_task id);
  match r with
  | Ok (Some peer) => p ← sect (read_peer peer); mret (sign_id_pk id (pk p))
  | Ok None => mret []
  | Err _ => mret []
  end.

Definition handle_hole_sent_task (phs : PunchHoleSent) (addr : SocketAddr) (is_udp : bool) : Task unit :=
  if negb (valid_peer_id (phs_id phs)) || (64 <? slen (phs_version phs))
     || (RELAY_SERVER_NAME_MAX_LEN <? slen (phs_relay_server phs))
     || negb (valid_optional_mangled_addr (phs_socket_addr_v6 phs))
  then fail_prog "Rejected malformed punch-hole response" else
  pending ← sect (consume (phs_rendezvous_token phs) (phs_id phs) (phs_socket_addr phs) (Some Direct));
  pk' ← get_pk_task (phs_version phs) (phs_id phs);
  send_to_tcp_task (MPunchHoleResponse (mkPunchHoleResponse (mangle_encode addr) pk' None
      (c_relay_server pending) (enum_value (phs_nat_type phs)) false is_udp (phs_socket_addr_v6 phs)))
    (c_requester pending).

Definition handle_local_addr_task (la : LocalAddr) : Task unit :=
  if negb (valid_peer_id (la_id la)) || (64 <? slen (la_version la))
     || (RELAY_SERVER_NAME_MAX_LEN <? slen (la_relay_server la))
     || negb (bool_decide (is_Some (mangle_try_decode (la_local_addr la))))
     || negb (valid_optional_mangled_addr (la_socket_addr_v6 la))
  then fail_prog "Rejected malformed local-address response" else
  pending ← sect (consume (la_rendezvous_token la) (la_id la) (la_socket_addr la) (Some Local));
  pk' ← get_pk_task (la_version la) (la_id la);
  send_to_tcp_task (MPunchHoleResponse (mkPunchHoleResponse (la_local_addr la) pk' None
      (c_relay_server pending) None true false (la_socket_addr_v6 la)))
    (c_requester pending).

Definition handle_relay_response_task (rr : RelayResponse) : Task unit :=
  let id := relay_response_id rr in
  if negb (valid_peer_id id) || (negb (str_empty (rr_uuid rr)) && negb (valid_relay_uuid (rr_uuid rr)))
     || (RELAY_SERVER_NAME_MAX_LEN <? slen (rr_relay_server rr)) || (1024 <? slen (rr_refuse_reason rr))
     || (64 <? slen (rr_version rr)) || negb (valid_optional_mangled_addr (rr_socket_addr_v6 rr))
  then mret tt else
  pending ← try_prog (sect (consume (rr_rendezvous_token rr) id (rr_socket_addr rr) (Some Relay)));
  match pending with
  | Err _ => mret tt
  | Ok pending =>
      pk' ← get_pk_task (rr_version rr) id;
      let relay := if str_empty (rr_refuse_reason rr) then c_relay_server pending else "" in
      try_prog (send_to_tcp_task (MRelayResponse (mkRelayResponse [] (rr_uuid rr) relay (RelayPk pk')
          (rr_refuse_reason rr) (rr_version rr) (rr_socket_addr_v6 rr) [] (rr_other rr)))
        (c_requester pending));;
      mret tt
  end.

(** ** Requests of a controller *)

(** [PUNCH_REQS] is locked from the search to the entry. *)
Definition route_punch_request_task (rs : Rs) (addr : SocketAddr) (ph : PunchHoleRequest) (ws : bool)
    (peer_addr : SocketAddr) : Task (Union * option SocketAddr) :=
  sect (log_punch_request addr peer_addr (ph_id ph));;
  let peer_is_lan := is_lan rs peer_addr in
  let lan := is_lan rs addr in
  relay ← sect (get_relay_server rs);
  always ← sect (gets sv_always_use_relay);
  let force := always || xorb peer_is_lan lan in
  let relay := if force && peer_is_lan then local_ip (inner rs) else relay in
  let nat_type := if force then Known SYMMETRIC else ph_nat_type ph in
  let same_intranet := negb (ph_force_relay ph) && negb ws
                       && ((peer_is_lan && lan) || same_ip peer_addr addr) in
  let socket_addr' := mangle_encode addr in
  token ← sect (reserve addr (ph_id ph) (if same_intranet then Local else Direct) relay);
  mret (if same_intranet
        then MFetchLocalAddr (mkFetchLocalAddr socket_addr' relay (ph_socket_addr_v6 ph) token)
        else MPunchHole (mkPunchHole socket_addr' nat_type relay (ph_force_relay ph)
                           (ph_socket_addr_v6 ph) token),
        Some peer_addr).

Definition handle_punch_hole_request_task (rs : Rs) (addr : SocketAddr) (ph : PunchHoleRequest)
    (key : string) (ws : bool) : Task (Union * option SocketAddr) :=
  if malformed_punch_request ph then mret (punch_refused ID_NOT_EXIST) else
  if negb (str_empty key) && bool_decide (ph_licence_key ph ≠ key)
  then mret (punch_refused LICENSE_MISMATCH) else
  found ← get_task (ph_id ph);
  match found with
  | None => mret (punch_refused ID_NOT_EXIST)
  | Some peer =>
      r ← sect (read_peer peer);
      now ← sect instant_now;
      if REG_TIMEOUT <=? as_millis (duration_since now (last_reg_time r))
      then mret (punch_refused OFFLINE)
      else route_punch_request_task rs addr ph ws (socket_addr r)
  end.

Definition handle_tcp_punch_hole_request_task (rs : Rs) (addr : SocketAddr) (ph : PunchHoleRequest)
    (key : string) (ws : bool) : Task unit :=
  routed ← handle_punch_hole_request_task rs addr ph key ws;
  match routed.2 with
  | Some peer_addr =>
      sent ← try_prog (send_to_tcp_sync_task routed.1 peer_addr);
      match sent with
      | Ok _ => mret tt
      | Err _ =>
          match rendezvous_token_of routed.1 with Some token => sect (cancel token) | None => mret tt end;;
          send_to_tcp_sync_task (MPunchHoleResponse (punch_failure OFFLINE)) addr
      end
  | None => send_to_tcp_sync_task routed.1 addr
  end.

Definition handle_request_relay_task (rs : Rs) (sink : option ChanId) (addr : SocketAddr)
    (rf : RequestRelay) : Task bool :=
  if malformed_relay_request rf then mret false else
  found ← get_in_memory_task (rf_id rf);
  match found with
  | None => send_relay_failure_task sink "Peer is offline"
  | Some peer =>
      p ← sect (read_peer peer);
      let peer_addr := socket_addr p in
      now ← sect instant_now;
      if negb (as_millis (duration_since now (last_reg_time p)) <? REG_TIMEOUT)
      then send_relay_failure_task sink "Peer is offline" else
      relay ← (if is_lan rs peer_addr then mret (local_ip (inner rs)) else sect (get_relay_server rs));
      token ← try_prog (sect (reserve addr (rf_id rf) Relay relay));
      match token with
      | Err _ => send_relay_failure_task sink "Rendezvous server is busy"
      | Ok token =>
          sent ← try_prog (send_to_tcp_sync_task
                   (MRequestRelay (relay_request_for_device addr token relay rf)) peer_addr);
          match sent with
          | Ok _ => mret true
          | Err _ => sect (cancel token);; send_relay_failure_task sink "Peer is offline"
          end
      end
  end.

(** ** The other messages *)

Fixpoint online_states_task (i : nat) (peers : list string) (states : bytes) : Task bytes :=
  match peers with
  | [] => mret states
  | id :: peers =>
      found ← get_in_memory_task id;
      states ← match found with
               | None => mret states
               | Some peer =>
                   p ← sect (read_peer peer);
                   now ← sect instant_now;
                   mret (if as_millis (duration_since now (last_reg_time p)) <? REG_TIMEOUT
                         then set_online_bit i states else states)
               end;
      online_states_task (S i) peers states
  end.

Definition build_online_response_task (peers : list string) : Task Union :=
  states ← online_states_task 0 peers (replicate ((length peers + 7) / 8) 0);
  mret (MOnlineResponse states).

Definition handle_online_query_task (sink : option ChanId) (peers : list string) : Task bool :=
  if (ONLINE_QUERY_MAX_PEERS <? len peers) || negb (forallb valid_peer_id peers)
  then mret false
  else msg ← build_online_response_task peers; send_to_sink_task sink msg.

Definition cache_sink_task (addr : SocketAddr) (sink : option ChanId) : Task unit :=
  match sink with
  | Some tx => sect (modify (λ s, set_tcp_punch (<[try_into_v4 addr := tx]> (sv_tcp_punch s)) s))
  | None => mret tt
  end.

Definition handle_register_peer_task (rs : Rs) (sink : option ChanId) (addr : SocketAddr)
    (rp : RegisterPeer) : Task bool :=
  if negb (valid_peer_id (rp_id rp)) then mret true else
  cache_sink_task addr sink;;
  r ← try_prog (register_peer_task (inner rs) (rendezvous_servers rs) rp addr);
  match r with
  | Err _ => mret false
  | Ok (resp, cu) =>
      sent ← send_to_sink_task sink (MRegisterPeerResponse resp);
      if negb sent then mret false else
      match cu with
      | None => mret true
      | Some cu => send_to_sink_task sink (MConfigUpdate cu)
      end
  end.

Definition handle_register_pk_task (rs : Rs) (api : Api) (sink : option ChanId) (addr : SocketAddr)
    (rk : RegisterPk) : Task bool :=
  cache_sink_task addr sink;;
  r ← try_prog (register_pk_task (inner rs) (api_post api) rk addr);
  match r with
  | Ok (Some res) => send_to_sink_task sink (MRegisterPkResponse (mkRegisterPkResponse res 0))
  | Ok None => mret true
  | Err _ => mret false
  end.

(** [http_proxy_slots.try_acquire_owned()], and the end of the permit. *)
Definition try_acquire_proxy : M (Server D) bool :=
  state (λ s, if sv_proxy_slots s <=? 0 then (false, s) else (true, set_slots (sv_proxy_slots s - 1) s)).
Definition release_proxy : M (Server D) unit :=
  modify (λ s, set_slots (sv_proxy_slots s + 1) s).

(** The permit is held while the upstream is asked. *)
Definition proxy_upstream_task (rs : Rs) (api : Api) (addr : SocketAddr) (req : HttpProxyRequest)
    : Task HttpProxyResponse :=
  permit ← sect try_acquire_proxy;
  if negb permit then mret (proxy_error 503 "API proxy is busy") else
  let resp := match handle_http_proxy_request (api_send api) (api_server (inner rs)) req (sa_ip addr) with
              | Ok resp => resp
              | Err _ => proxy_error 502 "API upstream request failed"
              end in
  sect release_proxy;;
  mret resp.

Definition handle_http_proxy_task (rs : Rs) (api : Api) (sink : option ChanId) (addr : SocketAddr)
    (key : string) (req : HttpProxyRequest) : Task bool :=
  resp ←
    (if negb (http_proxy_authorized true key (hp_licence_key req))
     then mret (proxy_error 403 "API proxy authorization failed")
     else
       allowed ← sect (on_proxy (allow_http_proxy_request (sa_ip addr)));
       if negb allowed then mret (proxy_error 429 "API proxy rate limit exceeded")
       else proxy_upstream_task rs api addr req);
  send_to_sink_task sink (MHttpProxyResponse resp).

Definition handle_test_nat_request_task (rs : Rs) (sink : option ChanId) (addr : SocketAddr)
    (tar : TestNatRequest) : Task bool :=
  let cu := if tar_serial tar <? serial (inner rs) then Some (config_update rs) else None in
  send_to_sink_task sink (MTestNatResponse (mkTestNatResponse (sa_port addr) cu));; mret false.

Definition handle_health_check_task (sink : option ChanId) (started : bool) (token : string)
    : Task (bool * bool) :=
  if str_empty token || (256 <? slen token) then mret (true, started)
  else if started then mret (true, true)
  else sect (start_health_check_keepalive sink);; mret (true, true).

Definition handle_tcp_msg_task (rs : Rs) (api : Api) (msg_in : RendezvousMessage) (sink : option ChanId)
    (health_keepalive_started : bool) (addr : SocketAddr) (key : string) (ws : bool)
    : Task (bool * bool) :=
  let go (m : Task bool) : Task (bool * bool) := b ← m; mret (b, health_keepalive_started) in
  match msg_in with
  | Some (MRegisterPeer rp) => go (handle_register_peer_task rs sink addr rp)
  | Some (MRegisterPk rk) => go (handle_register_pk_task rs api sink addr rk)
  | Some (MPunchHoleRequest ph) =>
      go (r ← try_prog (handle_tcp_punch_hole_request_task rs addr ph key ws); mret (is_ok r))
  | Some (MRequestRelay rf) => go (handle_request_relay_task rs sink addr rf)
  | Some (MRelayResponse rr) => go (handle_relay_response_task rr;; mret false)
  | Some (MPunchHoleSent phs) =>
      go ((try_prog (handle_hole_sent_task phs addr false);; mret tt);; mret false)
  | Some (MLocalAddr la) => go ((try_prog (handle_local_addr_task la);; mret tt);; mret false)
  | Some (MTestNatRequest tar) => go (handle_test_nat_request_task rs sink addr tar)
  | Some (MOnlineRequest peers) => go (handle_online_query_task sink peers)
  | Some (MHttpProxyRequest req) => go (handle_http_proxy_task rs api sink addr key req)
  | Some (MHc token) => handle_health_check_task sink health_keepalive_started token
  | Some (MKeyExchange _) => mret (true, health_keepalive_started)
  | _ => mret (false, health_keepalive_started)
  end.

Definition handle_udp_task (msg_in : RendezvousMessage) (addr : SocketAddr) : Task unit :=
  match msg_in with
  | Some (MPunchHoleSent phs) => try_prog (handle_hole_sent_task phs addr true);; mret tt
  | _ => mret tt
  end.

(** The timer: the eviction, then one table after the other. *)
Definition cleanup_blockers (now : Instant) : M (Server D) Z :=
  state (λ s, let t := transient s in let blockers := retain_blockers now (tr_blockers t) in
    (mlen (tr_blockers t) - mlen blockers,
     set_reg (set_transient (mkTransient blockers (tr_changes t)) (sv_reg s)) s)).
Definition cleanup_changes (now : Instant) : M (Server D) Z :=
  state (λ s, let t := transient s in let changes := retain_changes now (tr_changes t) in
    (mlen (tr_changes t) - mlen changes,
     set_reg (set_transient (mkTransient (tr_blockers t) changes) (sv_reg s)) s)).
Definition cleanup_task : Task Z :=
  evicted ← evict_inactive_task PEER_CACHE_IDLE_SECS;
  now ← sect instant_now;
  blockers ← sect (cleanup_blockers now);
  changes ← sect (cleanup_changes now);
  mret (evicted + blockers + changes).

(** A connection's end: its entry, if it is still this connection's, then its
    channel. *)
Definition forget_own_sink (c : ChanId) (addr : SocketAddr) : M (Server D) unit :=
  modify (λ s, let key := try_into_v4 addr in
    if bool_decide (sv_tcp_punch s !! key = Some c)
    then set_tcp_punch (delete key (sv_tcp_punch s)) s else s).
Definition close_task (c : ChanId) (addr : SocketAddr) : Task unit :=
  sect (forget_own_sink c addr);;
  sect (drop_receiver c).

(** A connection's start: a channel, then its entry. *)
Definition new_channel : M (Server D) ChanId := λ s,
  let c := fresh (dom (sv_chans s)) in (Ok c, set_chans (<[c := mkChannel [] true]> (sv_chans s)) s).
Definition open_task (addr : SocketAddr) : Task ChanId :=
  c ← sect new_channel;
  cache_sink_task addr (Some c);;
  mret c.
End Tasks.

(** ** Uninterrupted *)

#[export] Instance on_peers_embedding {D} : Embedding (λ A, on_peers (D := D) (A := A)).
Proof. apply zoom_embedding; by intros []. Qed.
#[export] Instance on_reg_embedding {D} : Embedding (λ A, on_reg (D := D) (A := A)).
Proof. apply zoom_embedding; by intros []. Qed.
#[export] Instance on_pm_embedding {D} : Embedding (λ A, on_pm (D := D) (A := A)).
Proof. exact (embedding_trans _ _ on_reg_embedding on_peers_embedding). Qed.

(** [same_run], through the embeddings. *)
Ltac same_run_on_step :=
  lazymatch goal with
  | |- runs_as _ (on_reg (on_peers ?m)) => change (on_reg (on_peers m)) with (on_pm m)
  | |- runs_as (_ ≫= _) (on_pm (_ ≫= _)) => apply (runs_emb_bind (λ A, on_pm (A := A)))
  | |- runs_as (_ ≫= _) (on_reg (_ ≫= _)) => apply (runs_emb_bind (λ A, on_reg (A := A)))
  | |- runs_as (mret _) (on_pm (mret _)) => apply (runs_emb_ret (λ A, on_pm (A := A)))
  | |- runs_as (mret _) (on_reg (mret _)) => apply (runs_emb_ret (λ A, on_reg (A := A)))
  | |- runs_as (lift_prog _) (on_pm (lift _)) => apply (runs_emb_lift (λ A, on_pm (A := A)))
  | |- runs_as (try_prog _) (on_pm (attempt _)) => apply (runs_emb_try (λ A, on_pm (A := A)))
  | |- runs_as (try_prog _) (on_reg (attempt _)) => apply (runs_emb_try (λ A, on_reg (A := A)))
  | |- runs_as (pm_sect _) (on_pm _) => apply runs_sect
  | |- runs_as (match ?x with _ => _ end) (on_pm (match ?x with _ => _ end)) => destruct x
  | |- runs_as (match ?x with _ => _ end) (on_reg (match ?x with _ => _ end)) => destruct x
  | |- _ => same_run_step
  end.
Ltac same_run_on := repeat (same_run_on_step; cbn beta zeta).

Section RunsAsHandler.
Context {D : Type} `{!PeerStore D} `{X : !Externals} `{R : !Entropy} `{H : !HttpLibrary}.

Lemma runs_touch l : runs_as (S := Server D) (touch_task l) (on_pm (touch l)).
Proof. unfold touch_task, touch. same_run_on. Qed.
Hint Resolve runs_touch : runs.
Lemma runs_peer_default : runs_as (S := Server D) peer_default_task (on_pm (peer_default instant_min)).
Proof. unfold peer_default_task, peer_default. same_run_on. Qed.
Hint Resolve runs_peer_default : runs.
Lemma runs_evict_scan idle snapshot :
  runs_as (S := Server D) (evict_scan_task idle snapshot) (on_pm (evict_scan idle snapshot)).
Proof.
  induction snapshot as [|[id l] rest IH]; cbn [evict_scan_task evict_scan]; same_run_on.
Qed.
Hint Resolve runs_evict_scan : runs.
Lemma runs_evict_inactive idle :
  runs_as (S := Server D) (evict_inactive_task idle) (on_pm (evict_inactive idle)).
Proof. unfold evict_inactive_task, evict_inactive. same_run_on. Qed.
Hint Resolve runs_evict_inactive : runs.
Lemma runs_cache_peer id l :
  runs_as (S := Server D) (cache_peer_task id l) (on_pm (cache_peer id l)).
Proof. unfold cache_peer_task, cache_peer, evict_then_insert_task, evict_then_insert. same_run_on. Qed.
Hint Resolve runs_cache_peer : runs.
Lemma runs_get id : runs_as (S := Server D) (get_task id) (on_pm (pm_get id)).
Proof. unfold get_task, pm_get, get. same_run_on. Qed.
Hint Resolve runs_get : runs.
Lemma runs_get_or id : runs_as (S := Server D) (get_or_task id) (on_pm (pm_get_or id)).
Proof. unfold get_or_task, pm_get_or, get_or. same_run_on. Qed.
Hint Resolve runs_get_or : runs.
Lemma runs_get_in_memory id : runs_as (S := Server D) (get_in_memory_task id) (on_pm (get_in_memory id)).
Proof. unfold get_in_memory_task, get_in_memory. same_run_on. Qed.
Hint Resolve runs_get_in_memory : runs.
Lemma runs_register_begin i post rk addr :
  runs_as (S := Server D) (register_begin_task i post rk addr) (on_reg (register_begin i post rk addr)).
Proof. unfold register_begin_task, register_begin. same_run_on. Qed.
Hint Resolve runs_register_begin : runs.
Lemma runs_register_pk i post rk addr :
  runs_as (S := Server D) (register_pk_task i post rk addr) (on_reg (register_pk_common i post rk addr)).
Proof. unfold register_pk_task, register_pk_common, persist_task_task, persist_task. same_run_on. Qed.
Hint Resolve runs_register_pk : runs.
Lemma runs_register_peer i servers rp addr :
  runs_as (S := Server D) (register_peer_task i servers rp addr) (on_reg (register_peer_common i servers rp addr)).
Proof. unfold register_peer_task, register_peer_common. same_run_on. Qed.
Hint Resolve runs_register_peer : runs.

Lemma runs_send_to_sink sink msg :
  runs_as (S := Server D) (send_to_sink_task sink msg) (send_to_sink sink msg).
Proof. unfold send_to_sink_task, send_to_sink. same_run. Qed.
Hint Resolve runs_send_to_sink : runs.
Lemma runs_cache_sink addr sink :
  runs_as (S := Server D) (cache_sink_task addr sink) (cache_sink addr sink).
Proof. unfold cache_sink_task, cache_sink. same_run. Qed.
Hint Resolve runs_cache_sink : runs.
Lemma runs_send_to_tcp msg addr :
  runs_as (S := Server D) (send_to_tcp_task msg addr) (send_to_tcp msg addr).
Proof.
  apply (runs_equiv _ (tcp ← take_sink addr; sent ← send_to_sink tcp msg;
    if sent : bool then mret tt else bail "Rendezvous TCP recipient is unavailable or backpressured")).
  - done.
  - unfold send_to_tcp_task. same_run.
Qed.
Lemma runs_send_to_tcp_sync msg addr :
  runs_as (S := Server D) (send_to_tcp_sync_task msg addr) (send_to_tcp_sync msg addr).
Proof. unfold send_to_tcp_sync_task, send_to_tcp_sync. same_run. Qed.
Hint Resolve runs_send_to_tcp runs_send_to_tcp_sync : runs.
Lemma runs_get_pk version id : runs_as (S := Server D) (get_pk_task version id) (get_pk version id).
Proof. unfold get_pk_task, get_pk. same_run. Qed.
Hint Resolve runs_get_pk : runs.
Lemma runs_hole_sent phs addr udp :
  runs_as (S := Server D) (handle_hole_sent_task phs addr udp) (handle_hole_sent phs addr udp).
Proof. unfold handle_hole_sent_task, handle_hole_sent. same_run. Qed.
Lemma runs_local_addr la :
  runs_as (S := Server D) (handle_local_addr_task la) (handle_local_addr la).
Proof. unfold handle_local_addr_task, handle_local_addr. same_run. Qed.
Lemma runs_relay_response rr :
  runs_as (S := Server D) (handle_relay_response_task rr) (handle_relay_response rr).
Proof. unfold handle_relay_response_task, handle_relay_response, allow_err. same_run. Qed.
Lemma runs_tcp_punch rs addr ph key ws :
  runs_as (S := Server D) (handle_tcp_punch_hole_request_task rs addr ph key ws)
    (handle_tcp_punch_hole_request rs addr ph key ws).
Proof.
  unfold handle_tcp_punch_hole_request_task, handle_tcp_punch_hole_request, handle_punch_hole_request_task,
    handle_punch_hole_request, route_punch_request_task, route_punch_request. same_run.
Qed.
Lemma runs_request_relay rs sink addr rf :
  runs_as (S := Server D) (handle_request_relay_task rs sink addr rf) (handle_request_relay rs sink addr rf).
Proof.
  unfold handle_request_relay_task, handle_request_relay, send_relay_failure_task, send_relay_failure. same_run.
Qed.
Lemma runs_online_states n peers states :
  runs_as (S := Server D) (online_states_task n peers states) (online_states n peers states).
Proof.
  revert n states. induction peers as [|id peers IH]; intros n states;
    cbn [online_states_task online_states]; same_run.
Qed.
Hint Resolve runs_hole_sent runs_local_addr runs_relay_response runs_tcp_punch runs_request_relay
  runs_online_states : runs.

(** The permit comes back: uninterrupted, there is always one. *)
Lemma runs_proxy_upstream rs api addr req :
  runs_as (S := Server D) (proxy_upstream_task rs api addr req)
    (slots ← gets sv_proxy_slots;
     if slots <=? 0 then mret (proxy_error 503 "API proxy is busy") else
     match handle_http_proxy_request (api_send api) (api_server (inner rs)) req (sa_ip addr) with
     | Ok resp => mret resp
     | Err _ => mret (proxy_error 502 "API upstream request failed")
     end).
Proof.
  intros s. unfold proxy_upstream_task. simpl. unfold mbind, M_bind, try_acquire_proxy, state, gets.
  destruct (sv_proxy_slots s <=? 0); [done|]. simpl.
  assert (set_slots (sv_proxy_slots s - 1 + 1) s = s) as Hs by (rewrite Z.sub_add; by destruct s).
  change (set_slots (sv_proxy_slots s - 1 + 1) (set_slots (sv_proxy_slots s - 1) s))
    with (set_slots (sv_proxy_slots s - 1 + 1) s). rewrite Hs.
  by destruct (handle_http_proxy_request _ _ _ _).
Qed.
Hint Resolve runs_proxy_upstream : runs.
End RunsAsHandler.

#[export] Hint Resolve runs_evict_inactive runs_register_peer runs_register_pk runs_send_to_sink
  runs_cache_sink runs_hole_sent runs_local_addr runs_relay_response runs_tcp_punch runs_request_relay
  runs_online_states runs_proxy_upstream : runs.

Section WholeHandlers.
Context {D : Type} `{!PeerStore D} `{X : !Externals} `{R : !Entropy} `{H : !HttpLibrary}.

Lemma runs_tcp_msg rs api msg sink started addr key ws :
  runs_as (S := Server D) (handle_tcp_msg_task rs api msg sink started addr key ws)
    (handle_tcp_msg rs api msg sink started addr key ws).
Proof.
  unfold handle_tcp_msg_task, handle_tcp_msg, handle_register_peer_task, handle_register_peer,
    handle_register_pk_task, handle_register_pk, handle_http_proxy_task, handle_http_proxy,
    handle_test_nat_request_task, handle_test_nat_request, handle_online_query_task, handle_online_query,
    handle_health_check_task, handle_health_check, build_online_response_task, build_online_response, allow_err.
  destruct msg as [[]|]; same_run.
Qed.
Lemma runs_udp msg addr : runs_as (S := Server D) (handle_udp_task msg addr) (handle_udp msg addr).
Proof. unfold handle_udp_task, handle_udp, allow_err. destruct msg as [[]|]; same_run. Qed.
Lemma runs_cleanup : runs_as (S := Server D) cleanup_task cleanup_tick.
Proof.
  apply (runs_equiv _ (evicted ← on_pm (evict_inactive PEER_CACHE_IDLE_SECS); now ← instant_now;
    blockers ← cleanup_blockers now; changes ← cleanup_changes now; mret (evicted + blockers + changes))).
  - apply bind_M_proper; [intros e|done]. apply bind_M_proper; [by intros now s|done].
  - unfold cleanup_task. same_run.
Qed.
Lemma runs_open addr : runs_as (S := Server D) (open_task addr) (open_connection addr).
Proof. done. Qed.
Lemma runs_close c addr : runs_as (S := Server D) (close_task c addr) (close_connection c addr).
Proof. done. Qed.
End WholeHandlers.

(** The programs are the handlers: a handler cut at its critical sections
    and run without interruption gives the same answer and leaves the same
    state as the handler of [Server], from every state and for every message;
    so do the datagrams, the periodic cleanup, and the start and end of a
    connection. *)
Theorem tasks_run_as_handlers {D} `{!PeerStore D} `{X : !Externals} `{R : !Entropy} `{H : !HttpLibrary}
    rs api msg sink started addr key ws c (s : Server D) :
  run (handle_tcp_msg_task rs api msg sink started addr key ws) s =
    handle_tcp_msg rs api msg sink started addr key ws s ∧
  run (handle_udp_task msg addr) s = handle_udp msg addr s ∧
  run cleanup_task s = cleanup_tick s ∧
  run (open_task addr) s = open_connection addr s ∧
  run (close_task c addr) s = close_connection c addr s.
Proof.
  split_and!; [apply runs_tcp_msg|apply runs_udp|apply runs_cleanup|apply runs_open|apply runs_close].
Qed.
