(* ===== verification/TaskSafety.v ===== *)
(** What holds while the handlers of [Tasks] interleave.

    Every task runs among any number of others, section by section.  The shares
    of a task are the proxy permits it holds and the registrations it is
    writing to the database; the auxiliary state remembers for which identifier
    each peer was made.  That a cached peer equals its row is too much to ask at
    this granularity: a row may be read, then changed, and then cached
    ([stale_row_can_be_cached]).  What survives is that the two agree on the key
    and, without management, on the device UUID ([interleaved_peers_agree]), the
    structure of the cache, every bound, the limiter tables included, one writer
    per peer, and that nobody takes over an identity.  Every claim about an
    interleaving is one about the sections of [Tasks]. *)

From Stdlib Require Import Ascii String.
From S2P Require Import Prelude.
From S2P Require Import Text.
From S2P Require Import Net.
From S2P Require Import RateLimit.
From S2P Require Import Database.
From S2P Require Import PeerCache.
From S2P Require Import Messages.
From S2P Require Import Externals.
From S2P Require Import Registration.
From S2P Require Import Pending.
From S2P Require Import HttpProxy.
From S2P Require Import Server.
From S2P Require Import Console.
From S2P Require Import Connections.
From S2P Require Import Interleave.
From S2P Require Import Tasks.

(** For which identifier a peer was made. *)
Abbreviation Names := (gmap LockPeer string).
(** The permits a task holds, and the registrations it is writing. *)
Abbreviation Share := (nat * Bag PersistTask)%type.

(** ** The invariant *)

Section Invariant.
Context {D : Type} `{!PeerStore D} `{X : !Externals}.
Context (i : Inner).
Implicit Types pm : PeerMap D.
Implicit Types s : Server D.

(** A row stays: its key, and without management its device. *)
Definition row_kept (o o' : option DbPeer) : Prop :=
  ∀ v, o = Some v → ∃ v', o' = Some v' ∧ db_guid v' = db_guid v ∧
    (allow_unmanaged_devices i = true → db_uuid v' = db_uuid v).

(** A key and a device UUID that are blank, or those of the row. *)
Definition agrees (row : option DbPeer) (g u : bytes) : Prop :=
  (g = [] ∧ u = []) ∨
  ∃ v, row = Some v ∧ db_guid v = g ∧ (allow_unmanaged_devices i = true → db_uuid v = u).

(** The peer a task is writing. *)
Definition in_persist (t : PersistTask) (p : Peer) : Prop :=
  persistence_in_progress p = true ∧ guid p = pr_guid (pt_pending t) ∧
  uuid p = pt_uuid t ∧ pk p = pt_pk t.

Record task_sound (ns : Names) pm (t : PersistTask) : Prop := {
  ts_name : ns !! pt_peer t = Some (pt_id t);
  ts_managed : pt_managed t = negb (allow_unmanaged_devices i);
  ts_authorized : change_authorized t;
  ts_rollback : agrees (ps_row (pm_db pm) (pt_id t)) (pr_guid (pt_pending t))
                  (rb_uuid (pr_rollback (pt_pending t)));
  ts_peer : ∃ p, pm_heap pm !! pt_peer t = Some p ∧ in_persist t p
}.

(** The cache maps an identifier to a peer made for it; a peer that nobody is
    writing is blank or has the key of its row; a peer that is being written
    has exactly one writer. *)
Record peers_ok (ns : Names) (ts : list PersistTask) pm : Prop := {
  po_ok : ps_ok (pm_db pm);
  po_rows : ∀ id v, ps_row (pm_db pm) id = Some v → db_guid v ≠ [] ∧ db_uuid v ≠ [];
  po_room : mlen (pm_map pm) ≤ max_cached_peers pm;
  po_names : dom ns = dom (pm_heap pm);
  po_map : ∀ id l, pm_map pm !! id = Some l → ns !! l = Some id;
  po_idle : ∀ l id p, ns !! l = Some id → pm_heap pm !! l = Some p →
    persistence_in_progress p = false → agrees (ps_row (pm_db pm) id) (guid p) (uuid p);
  po_busy : ∀ l p, pm_heap pm !! l = Some p → persistence_in_progress p = true →
    l ∈ (pt_peer <$> ts);
  po_tasks : ∀ t, t ∈ ts → task_sound ns pm t;
  po_distinct : NoDup (pt_peer <$> ts)
}.

(** The two limiter tables within their capacities, their counters in range. *)
Record transient_wf (t : Transient) : Prop := {
  tr_blockers_wf : blockers_wf MAX_TRACKED_IP_BLOCKERS (tr_blockers t);
  tr_changes_wf : changes_wf MAX_TRACKED_IP_CHANGES (tr_changes t)
}.

Record tasks_wf (g : Share) (ns : Names) s : Prop := {
  tw_peers : peers_ok ns (bag_list g.2) (rs_pm (sv_reg s));
  tw_permits : 0 ≤ sv_proxy_slots s ∧ sv_proxy_slots s + Z.of_nat g.1 = HTTP_PROXY_MAX_CONCURRENCY;
  tw_pending : mlen (sv_pending s) ≤ PENDING_RENDEZVOUS_CAPACITY;
  tw_rates : rates_wf (sv_rates s);
  tw_queues : ∀ c ch, sv_chans s !! c = Some ch →
    len (ch_queue ch) ≤ RENDEZVOUS_CONNECTION_QUEUE_CAPACITY;
  tw_log : len (sv_punch_reqs s) ≤ PUNCH_REQUEST_LOG_CAPACITY;
  tw_tables : transient_wf (rs_transient (sv_reg s))
}.

(** What no section undoes. *)
Definition advances (x y : Names * Server D) : Prop :=
  x.1 ⊆ y.1 ∧ ∀ id, row_kept (row_of (sv_reg x.2) id) (row_of (sv_reg y.2) id).

(** ** Lemmas: the parts of the invariant *)

Lemma row_kept_refl o : row_kept o o.
Proof. intros v ->. by exists v. Qed.
Lemma row_kept_trans o1 o2 o3 : row_kept o1 o2 → row_kept o2 o3 → row_kept o1 o3.
Proof.
  intros H1 H2 v (v1 & H & Hg1 & Hu1)%H1. destruct (H2 v1 H) as (v2 & -> & Hg2 & Hu2).
  exists v2. split_and!; [done|congruence|]. intros Hun. by rewrite Hu2, Hu1.
Qed.

#[export] Instance advances_preorder : PreOrder advances.
Proof.
  split.
  - intros [ns s]. split; [done|]. intros id. apply row_kept_refl.
  - intros [n1 s1] [n2 s2] [n3 s3] [A1 A2] [B1 B2]. split; simpl in *; [by etrans|].
    intros id. by eapply row_kept_trans.
Qed.

Lemma agrees_kept o o' g u : row_kept o o' → agrees o g u → agrees o' g u.
Proof.
  intros Hk [Hb|(v & Hv & Hg & Hu)]; [by left|right].
  destruct (Hk v Hv) as (v' & Hv' & Hg' & Hu'). exists v'. split_and!; [done|congruence|].
  intros Hun. by rewrite Hu', Hu.
Qed.

#[export] Instance tasks_wf_proper : Proper ((≡) ==> (=) ==> (=) ==> iff) tasks_wf.
Proof.
  assert (∀ g g' ns s, g ≡ g' → tasks_wf g ns s → tasks_wf g' ns s) as Himp.
  { intros [n [l]] [n' [l']] ns s [Hn Hl] [[P1 P2 P3 P4 P5 P6 P7 P8 P9] T2 T3 T4 T5 T6 T7].
    unfold equiv, nat_equiv, bag_equiv in *. simpl in *. subst n'.
    split; simpl; try done. split; try done.
    - intros lo p Hp Hprog. rewrite <-Hl. by eapply P7.
    - intros t. rewrite <-Hl. apply P8.
    - by rewrite <-Hl. }
  intros g g' Hg ns ? <- s ? <-. split; apply Himp; [done|by symmetry].
Qed.

(** Two peers a writer cannot tell apart. *)
Definition same_core (p p' : Peer) : Prop :=
  guid p' = guid p ∧ uuid p' = uuid p ∧ pk p' = pk p ∧
  persistence_in_progress p' = persistence_in_progress p.

Lemma same_ident_core p p' : same_ident p p' → same_core p p'.
Proof. by intros (?&?&?&_&?). Qed.
Lemma same_core_refl p : same_core p p.
Proof. done. Qed.

(** A change of the cache that leaves every identity alone. *)
Record pm_frame (ns ns' : Names) pm pm' : Prop := {
  pf_ok : ps_ok (pm_db pm');
  pf_rows : ∀ id, ps_row (pm_db pm') id = ps_row (pm_db pm) id;
  pf_room : mlen (pm_map pm') ≤ max_cached_peers pm';
  pf_names : ns ⊆ ns';
  pf_dom : dom ns' = dom (pm_heap pm');
  pf_map : ∀ id l, pm_map pm' !! id = Some l → ns' !! l = Some id;
  pf_old : ∀ l p', pm_heap pm' !! l = Some p' →
    match pm_heap pm !! l with
    | Some p => same_core p p'
    | None => persistence_in_progress p' = false ∧
        ∀ id, ns' !! l = Some id → agrees (ps_row (pm_db pm) id) (guid p') (uuid p')
    end;
  pf_dom_heap : dom (pm_heap pm) ⊆ dom (pm_heap pm')
}.

Lemma frame_ok ns ns' ts pm pm' : peers_ok ns ts pm → pm_frame ns ns' pm pm' → peers_ok ns' ts pm'.
Proof.
  intros [P1 P2 P3 P4 P5 P6 P7 P8 P9] [F1 F2 F3 F4 F5 F6 F7 F8]. split; try done.
  - intros id v. rewrite F2. apply P2.
  - intros l id p' Hl Hp' Hprog. rewrite F2. pose proof (F7 l p' Hp') as Hold.
    destruct (pm_heap pm !! l) as [p|] eqn:Hp; [|by apply Hold].
    destruct Hold as (-> & -> & _ & Hpr). apply (P6 l); [|done|congruence].
    assert (is_Some (ns !! l)) as [id' Hid'] by (apply elem_of_dom; rewrite P4; by apply elem_of_dom).
    pose proof (lookup_weaken _ _ _ _ Hid' F4). congruence.
  - intros l p' Hp' Hprog. pose proof (F7 l p' Hp') as Hold.
    destruct (pm_heap pm !! l) as [p|] eqn:Hp; [|destruct Hold; congruence].
    destruct Hold as (_ & _ & _ & Hpr). apply (P7 l p Hp). congruence.
  - intros t Ht. destruct (P8 t Ht) as [T1 T2 T3 T4 (p & Hp & Hin)]. split; try done.
    + by eapply lookup_weaken.
    + by rewrite F2.
    + assert (is_Some (pm_heap pm' !! pt_peer t)) as [p' Hp'].
      { apply elem_of_dom, F8, elem_of_dom. by exists p. }
      exists p'. split; [done|]. pose proof (F7 _ p' Hp') as Hold. rewrite Hp in Hold.
      destruct Hold as (Hg & Hu & Hk & Hpr), Hin as (? & ? & ? & ?). split_and!; congruence.
Qed.

(** A change of the rows that keeps them. *)
Lemma rows_ok ns ts pm d :
  peers_ok ns ts pm → ps_ok d → (∀ id v, ps_row d id = Some v → db_guid v ≠ [] ∧ db_uuid v ≠ []) →
  (∀ id, row_kept (ps_row (pm_db pm) id) (ps_row d id)) → peers_ok ns ts (set_db d pm).
Proof.
  intros [P1 P2 P3 P4 P5 P6 P7 P8 P9] Hd Hrows Hkept. split; simpl; try done.
  - intros l id p Hl Hp Hprog. eapply agrees_kept; [done|]. by eapply P6.
  - intros t Ht. destruct (P8 t Ht) as [T1 T2 T3 T4 T5]. split; try done. by eapply agrees_kept.
Qed.
End Invariant.

(** ** Lemmas: sections and programs *)

Abbreviation ok i := (task_ok (tasks_wf i) (advances i)).

Section Rules.
Context {D : Type} `{!PeerStore D} `{X : !Externals}.
Context (i : Inner).
Implicit Types s : Server D.

Lemma ok_bind {A B} (p : Prog (Server D) A) (f : A → Prog (Server D) B) Q g ns s :
  ok i p (λ r g' ns' s', match r with Ok a => ok i (f a) Q g' ns' s' | Err e => Q (Err e) g' ns' s' end) g ns s →
  ok i (p ≫= f) Q g ns s.
Proof. apply task_bind, _. Qed.
Lemma ok_try {A} (p : Prog (Server D) A) Q g ns s : ok i p (λ r, Q (Ok r)) g ns s → ok i (try_prog p) Q g ns s.
Proof. apply task_try. Qed.
Lemma ok_later {A} (p : Prog (Server D) A) Q g ns s ns' s' :
  advances i (ns, s) (ns', s') → ok i p Q g ns s → ok i p Q g ns' s'.
Proof. apply task_later, _. Qed.

(** A section that keeps the invariant, whatever the shares, and ends with
    [P]. *)
Definition keeps {A} (m : M (Server D) A) (C : Names → Server D → Prop)
    (P : result A → Names → Server D → Prop) : Prop :=
  ∀ g ns s, tasks_wf i g ns s → C ns s →
    wp m (λ r s', ∃ ns', advances i (ns, s) (ns', s') ∧ tasks_wf i g ns' s' ∧ P r ns' s') s.

Definition stable (P : Names → Server D → Prop) : Prop :=
  ∀ ns s ns' s', advances i (ns, s) (ns', s') → P ns s → P ns' s'.

(** A program that does so, between whatever the others do. *)
Definition meets {A} (p : Prog (Server D) A) (C : Names → Server D → Prop)
    (P : result A → Names → Server D → Prop) : Prop :=
  ∀ Q g ns s, C ns s →
    (∀ r ns' s', advances i (ns, s) (ns', s') → P r ns' s' → Q r g ns' s') → ok i p Q g ns s.

Abbreviation anything := (λ (_ : Names) (_ : Server D), True).
Abbreviation any_end := (λ _ (_ : Names) (_ : Server D), True).
Definition fine {A} (p : Prog (Server D) A) : Prop := meets p anything any_end.
Definition harmless {A} (m : M (Server D) A) : Prop := keeps m anything any_end.

Lemma meets_sect {A} (m : M (Server D) A) C P :
  stable C → (∀ r, stable (P r)) → keeps m C P → meets (sect m) C P.
Proof.
  intros HC HP Hm Q g ns s Hc HQ. apply task_sect. intros f ns1 s1 Hadv1 Hwf1.
  eapply wp_mono; [|apply (Hm _ _ _ Hwf1); by eapply HC].
  intros r s2 (ns2 & Hadv2 & Hwf2 & Hp2). exists g, ns2. split_and!; [done..|].
  intros ns3 s3 Hadv3. apply HQ; [|by eapply HP].
  etrans; [exact Hadv1|]. etrans; [exact Hadv2|done].
Qed.

Lemma meets_weaken {A} (p : Prog (Server D) A) (C C' : Names → Server D → Prop) P P' :
  (∀ ns s, C' ns s → C ns s) → (∀ r ns s, P r ns s → P' r ns s) → meets p C P → meets p C' P'.
Proof. intros HC HP Hp Q g ns s Hc HQ. apply Hp; auto. Qed.

Lemma fine_weaken {A} (p : Prog (Server D) A) C P : (∀ ns s, C ns s) → meets p C P → fine p.
Proof. intros HC. apply meets_weaken; [by intros|done]. Qed.

Lemma stable_anything : stable anything.
Proof. done. Qed.

Lemma fine_ret {A} (a : A) : fine (mret a).
Proof. intros Q g ns s _ HQ. apply task_ret. intros ns' s' Hadv. by apply HQ. Qed.
Lemma fine_fail {A} e : fine (A := A) (fail_prog e).
Proof. intros Q g ns s _ HQ ns' s' Hadv. by apply HQ. Qed.
Lemma fine_lift {A} (r : result A) : fine (lift_prog r).
Proof. intros Q g ns s _ HQ ns' s' Hadv. by apply HQ. Qed.
Lemma fine_sect {A} (m : M (Server D) A) : harmless m → fine (sect m).
Proof. by apply meets_sect. Qed.
Lemma fine_bind {A B} (p : Prog (Server D) A) (f : A → Prog (Server D) B) :
  fine p → (∀ a, fine (f a)) → fine (p ≫= f).
Proof.
  intros Hp Hf Q g ns s _ HQ. apply ok_bind, Hp; [done|]. intros [a|e] ns' s' Hadv _.
  - apply Hf; [done|]. intros r ns2 s2 Hadv2. apply HQ. by etrans.
  - by apply HQ.
Qed.
Lemma fine_try {A} (p : Prog (Server D) A) : fine p → fine (try_prog p).
Proof. intros Hp Q g ns s _ HQ. apply ok_try, Hp; [done|]. intros r ns' s' Hadv _. by apply HQ. Qed.
End Rules.

(** Chain the steps of a task. *)
Ltac adv := solve [repeat (etrans; [done|]); done].

Create HintDb fine.
#[export] Hint Resolve fine_ret fine_fail fine_lift : fine.

(** Walk through a program, one construct at a time. *)
Ltac harmless_walk :=
  repeat (
    lazymatch goal with
    | |- fine _ (_ ≫= _) => apply fine_bind
    | |- fine _ (try_prog _) => apply fine_try
    | |- fine _ (match ?x with _ => _ end) => destruct x
    | |- ∀ _, fine _ _ => intros ?
    | |- fine _ _ => solve [eauto with fine]
    end; cbn beta zeta).

(** ** Lemmas: the sections *)

Section Sections.
Context {D : Type} `{!PeerStore D} `{X : !Externals} `{L : !ExternalLaws X} `{R : !Entropy} `{H : !HttpLibrary}.
Context (i : Inner).
Implicit Types s : Server D.
Implicit Types pm : PeerMap D.

(** A section of the peer cache. *)
Lemma keeps_pm {A} (m : M (PeerMap D) A) (C : Names → Prop) (P : result A → Names → PeerMap D → Prop) :
  (∀ ns ts pm, peers_ok i ns ts pm → C ns → wp m (λ r pm', ∃ ns', pm_frame i ns ns' pm pm' ∧ P r ns' pm') pm) →
  keeps i (on_pm m) (λ ns _, C ns) (λ r ns s, P r ns (rs_pm (sv_reg s))).
Proof.
  intros Hm g ns s [T1 T2 T3 T4 T5 T6 T7] HC. apply wp_on_pm.
  eapply wp_mono; [|by apply (Hm ns _ _ T1)]. intros r pm' (ns' & Hf & HP). exists ns'.
  split_and!; [| |done].
  - split; simpl; [apply Hf|]. intros id. unfold row_of. simpl. rewrite (pf_rows _ _ _ _ _ Hf).
    apply row_kept_refl.
  - split; try done. by eapply frame_ok.
Qed.

(** The cache, its heap untouched. *)
Lemma frame_map ns ts pm m c :
  peers_ok i ns ts pm → (∀ id l, m !! id = Some l → ns !! l = Some id) → mlen m ≤ max_cached_peers pm →
  pm_frame i ns ns pm (set_map m (set_clock c pm)).
Proof.
  intros [P1 P2 P3 P4 P5 P6 P7 P8 P9] Hm Hroom. split; simpl; try done.
  intros l p' Hp'. by rewrite Hp'.
Qed.

Lemma frame_clock ns ts pm c : peers_ok i ns ts pm → pm_frame i ns ns pm (set_clock c pm).
Proof.
  intros Hok. pose proof (frame_map ns ts pm (pm_map pm) c Hok (po_map _ _ _ _ Hok) (po_room _ _ _ _ Hok)) as Hf.
  exact Hf.
Qed.

(** One peer changed, its identity untouched. *)
Lemma frame_write ns ts pm l p p' c :
  peers_ok i ns ts pm → pm_heap pm !! l = Some p → same_core p p' →
  pm_frame i ns ns pm (set_heap (<[l := p']> (pm_heap pm)) (set_clock c pm)).
Proof.
  intros [P1 P2 P3 P4 P5 P6 P7 P8 P9] Hp Hs. split; simpl; try done.
  - rewrite dom_insert_L, P4. apply elem_of_dom_2 in Hp. set_solver.
  - intros l' q [[<- <-]|[Hne Hq]]%lookup_insert_Some; [by rewrite Hp|by rewrite Hq].
  - rewrite dom_insert_L. apply union_subseteq_r.
Qed.

Lemma frame_refl ns ts pm : peers_ok i ns ts pm → pm_frame i ns ns pm pm.
Proof. intros Hok. pose proof (frame_clock ns ts pm (pm_clock pm) Hok) as Hf. by destruct pm. Qed.

Lemma frame_later ns ts pm pm' : peers_ok i ns ts pm → PeerCache.later pm pm' → pm_frame i ns ns pm pm'.
Proof. intros Hok (c & -> & _). by eapply frame_clock. Qed.

(** A peer that was made for an identifier. *)
Definition made_for (id : string) (l : LockPeer) (ns : Names) : Prop := ns !! l = Some id.
Definition ends_with (id : string) (r : result (option LockPeer)) (ns : Names) : Prop :=
  ∀ l, r = Ok (Some l) → made_for id l ns.

Lemma stable_made_for id l : stable (D := D) i (λ ns _, made_for id l ns).
Proof. intros ns s ns' s' [Hns _] Hl. by eapply lookup_weaken. Qed.
Lemma stable_ends_with id r : stable (D := D) i (λ ns _, ends_with id r ns).
Proof. intros ns s ns' s' Hadv He l Hl. eapply stable_made_for; eauto. Qed.

Lemma keeps_pm_harmless {A} (m : M (PeerMap D) A) :
  (∀ ns ts pm, peers_ok i ns ts pm → wp m (λ _ pm', pm_frame i ns ns pm pm') pm) →
  fine i (pm_sect m).
Proof.
  intros Hm. apply fine_sect. intros g ns s Hwf _.
  eapply wp_mono; [|apply (keeps_pm m (λ _, True) (λ _ _ _, True)); [|exact Hwf|done]].
  - intros r s' (ns' & ? & ? & _). by exists ns'.
  - intros ns0 ts pm Hok _. eapply wp_mono; [|by eapply Hm]. intros r pm' Hf. by exists ns0.
Qed.

Lemma fine_pm_gets {A} (f : PeerMap D → A) : fine i (pm_sect (gets f)).
Proof. apply keeps_pm_harmless. intros ns ts pm Hok. apply wp_gets. by eapply frame_refl. Qed.
Lemma fine_pm_now : fine (D := D) i (pm_sect instant_now).
Proof.
  apply keeps_pm_harmless. intros ns ts pm Hok. apply wp_instant_now. intros t c _ _ _.
  by eapply frame_clock.
Qed.
Lemma fine_touch l : fine (D := D) i (touch_task l).
Proof.
  apply fine_bind; [apply fine_pm_now|]. intros t. apply keeps_pm_harmless. intros ns ts pm Hok.
  apply wp_modify. destruct (pm_heap pm !! l) as [p|] eqn:Hp.
  - pose proof (frame_write ns ts pm l p (set_last_access t p) (pm_clock pm) Hok Hp) as Hf.
    assert (alter (set_last_access t) l (pm_heap pm) = <[l := set_last_access t p]> (pm_heap pm)) as ->.
    { apply map_eq. intros l'. destruct (decide (l = l')) as [<-|Hne].
      - by rewrite lookup_alter_eq, Hp, lookup_insert_eq.
      - by rewrite lookup_alter_ne, lookup_insert_ne. }
    destruct pm. by apply Hf.
  - assert (alter (set_last_access t) l (pm_heap pm) = pm_heap pm) as ->.
    { apply map_eq. intros l'. destruct (decide (l = l')) as [<-|Hne].
      - by rewrite lookup_alter_eq, Hp.
      - by rewrite lookup_alter_ne. }
    destruct pm. by eapply frame_refl.
Qed.
Lemma fine_evict_scan idle snapshot : fine (D := D) i (evict_scan_task idle snapshot).
Proof.
  induction snapshot as [|[id l] rest IH]; cbn [evict_scan_task]; [apply fine_ret|].
  apply fine_bind; [|intros c; apply fine_bind; [exact IH|intros cs; apply fine_ret]].
  apply keeps_pm_harmless. intros ns ts pm Hok. apply wp_evict_candidate. intros cs pm' Hlater _ _.
  by eapply frame_later.
Qed.
Lemma fine_evict_section snapshot cs : fine (D := D) i (pm_sect (evict_section snapshot cs)).
Proof.
  apply keeps_pm_harmless. intros ns ts pm Hok.
  apply wp_bind, wp_gets, wp_bind, wp_modify, wp_bind, wp_gets, wp_ret.
  destruct (evict_remove_sub snapshot cs pm) as (m & -> & Hsub).
  pose proof (frame_map ns ts pm m (pm_clock pm) Hok) as Hf.
  destruct pm as [c h m0 d mx hd lk]. apply Hf.
  - intros id l Hl. apply (po_map _ _ _ _ Hok). by eapply lookup_weaken.
  - pose proof (mlen_subseteq _ _ Hsub). pose proof (po_room _ _ _ _ Hok). simpl in *. lia.
Qed.
Lemma fine_evict_inactive idle : fine (D := D) i (evict_inactive_task idle).
Proof.
  apply fine_bind; [apply fine_pm_gets|]. intros snapshot. apply fine_bind; [apply fine_evict_scan|].
  intros cs. destruct (is_empty cs); [apply fine_ret|apply fine_evict_section].
Qed.

(** A new entry for a peer that was made for it. *)
Lemma frame_insert ns ts pm id l :
  peers_ok i ns ts pm → made_for id l ns → pm_map pm !! id = None →
  mlen (pm_map pm) < max_cached_peers pm →
  pm_frame i ns ns pm (set_map (<[id := l]> (pm_map pm)) pm).
Proof.
  intros Hok Hl Hid Hroom.
  pose proof (frame_map ns ts pm (<[id := l]> (pm_map pm)) (pm_clock pm) Hok) as Hf.
  destruct pm as [c h m0 d mx hd lk]. apply Hf.
  - intros id' l' [[<- <-]|[_ Hl']]%lookup_insert_Some; [done|by apply (po_map _ _ _ _ Hok)].
  - simpl in *. rewrite mlen_insert_new by done. lia.
Qed.

Definition next_ends_with (id : string) (r : result CacheNext) (ns : Names) : Prop :=
  ∀ l, r = Ok (Return (Some l)) → made_for id l ns.
Lemma stable_next_ends_with id r : stable (D := D) i (λ ns _, next_ends_with id r ns).
Proof. intros ns s ns' s' Hadv He l Hl. eapply stable_made_for; eauto. Qed.

Lemma meets_read_section id :
  meets (D := D) i (pm_sect (gets (read_section id))) (λ _ _, True) (λ r ns _, next_ends_with id r ns).
Proof.
  apply meets_sect; [done|apply stable_next_ends_with|].
  apply (keeps_pm _ (λ _, True) (λ r ns _, next_ends_with id r ns)). intros ns ts pm Hok _.
  apply wp_gets. exists ns. split; [by eapply frame_refl|]. intros l. unfold read_section.
  destruct (pm_map pm !! id) as [l'|] eqn:Hid; [|by destruct (_ <? _)]. intros [= ->].
  by apply (po_map _ _ _ _ Hok).
Qed.

Lemma meets_insert_section id l :
  meets (D := D) i (pm_sect (state (insert_section id l))) (λ ns _, made_for id l ns)
    (λ r ns _, next_ends_with id r ns).
Proof.
  apply meets_sect; [apply stable_made_for|apply stable_next_ends_with|].
  apply (keeps_pm _ (made_for id l) (λ r ns _, next_ends_with id r ns)). intros ns ts pm Hok Hl.
  apply wp_state. exists ns. unfold insert_section. destruct (pm_map pm !! id) as [l'|] eqn:Hid.
  - split; [by eapply frame_refl|]. intros l0 [= ->]. by apply (po_map _ _ _ _ Hok).
  - destruct (_ <? _) eqn:Hroom; simpl.
    + reflect_bools. split; [by eapply frame_insert|]. by intros l0 [= ->].
    + split; [by eapply frame_refl|done].
Qed.

Lemma meets_final_section id l :
  meets (D := D) i (pm_sect (state (final_section id l))) (λ ns _, made_for id l ns)
    (λ r ns _, ends_with id r ns).
Proof.
  apply meets_sect; [apply stable_made_for|apply stable_ends_with|].
  apply (keeps_pm _ (made_for id l) (λ r ns _, ends_with id r ns)). intros ns ts pm Hok Hl.
  apply wp_state. exists ns. unfold final_section. destruct (pm_map pm !! id) as [l'|] eqn:Hid.
  - split; [by eapply frame_refl|]. intros l0 [= ->]. by apply (po_map _ _ _ _ Hok).
  - destruct (_ <=? _) eqn:Hroom; simpl.
    + split; [by eapply frame_refl|done].
    + reflect_bools. split; [by eapply frame_insert|]. by intros l0 [= ->].
Qed.

Lemma meets_evict_then_insert id l :
  meets (D := D) i (evict_then_insert_task id l) (λ ns _, made_for id l ns) (λ r ns _, ends_with id r ns).
Proof.
  intros Q g ns s Hl HQ. apply ok_bind, fine_evict_inactive; [done|]. intros [a|e] ns1 s1 Hadv1 _.
  - apply meets_final_section; [by eapply stable_made_for|]. intros r ns2 s2 Hadv2. apply HQ. by etrans.
  - by apply HQ.
Qed.

Lemma meets_cache_peer id l :
  meets (D := D) i (cache_peer_task id l) (λ ns _, made_for id l ns) (λ r ns _, ends_with id r ns).
Proof.
  intros Q g ns s Hl HQ. apply ok_bind, meets_read_section; [done|]. intros [n|e] ns1 s1 Hadv1 Hn.
  2:{ by apply HQ. }
  assert (made_for id l ns1) as Hl1 by (by eapply stable_made_for).
  assert (ok i (evict_then_insert_task id l) Q g ns1 s1) as Hevict.
  { apply meets_evict_then_insert; [done|]. intros r ns2 s2 Hadv2. apply HQ. by etrans. }
  destruct n as [o| |]; [| |done].
  - apply task_ret. intros ns2 s2 Hadv2. apply HQ; [by etrans|]. intros l' [= ->].
    eapply stable_made_for; [done|]. by apply Hn.
  - apply ok_bind, meets_insert_section; [done|]. intros [n|e] ns2 s2 Hadv2 Hn2.
    2:{ apply HQ; [by etrans|done]. }
    destruct n as [o| |].
    + apply task_ret. intros ns3 s3 Hadv3. apply HQ; [adv|]. intros l' [= ->].
      eapply stable_made_for; [done|]. by apply Hn2.
    + apply meets_evict_then_insert; [by eapply stable_made_for|]. intros r ns3 s3 Hadv3.
      apply HQ. adv.
    + apply meets_evict_then_insert; [by eapply stable_made_for|]. intros r ns3 s3 Hadv3.
      apply HQ. adv.
Qed.

(** *** Lookups *)

(** A peer fit to stand for an identifier. *)
Definition stands_for (id : string) (p : Peer) s : Prop :=
  persistence_in_progress p = false ∧ agrees i (row_of (sv_reg s) id) (guid p) (uuid p).
Definition read_for (id : string) (r : result (option DbPeer)) s : Prop :=
  ∀ v, r = Ok (Some v) → agrees i (row_of (sv_reg s) id) (db_guid v) (db_uuid v).

Lemma stable_stands_for id p : stable (D := D) i (λ _ s, stands_for id p s).
Proof. intros ns s ns' s' [_ Hk] [Hp Ha]. split; [done|]. by eapply agrees_kept. Qed.
Lemma stable_read_for id r : stable (D := D) i (λ _ s, read_for id r s).
Proof. intros ns s ns' s' [_ Hk] Hr v Hv. eapply agrees_kept; [done|]. by apply Hr. Qed.

Lemma meets_db_get id :
  meets (D := D) i (pm_sect (db_get_peer id)) (λ _ _, True) (λ r _ s, read_for id r s).
Proof.
  apply meets_sect; [done|apply stable_read_for|]. intros g ns s Hwf _.
  pose proof (tw_peers _ _ _ _ Hwf) as Hok.
  apply wp_on_pm, wp_db_get_peer; [apply Hok|]. intros r d Hd Hrows Hr.
  assert (∀ j, row_kept i (row_of (sv_reg s) j) (ps_row d j)) as Hkept.
  { intros j. rewrite Hrows. apply row_kept_refl. }
  exists ns. split_and!.
  - by split.
  - destruct Hwf as [T1 T2 T3 T4 T5 T6 T7]. split; try done. simpl. apply rows_ok; [done..| |done].
    intros j v. rewrite Hrows. apply (po_rows _ _ _ _ Hok).
  - intros v Hv. specialize (Hr _ Hv). right. exists v. unfold row_of. simpl. by rewrite Hrows, Hr.
Qed.

Lemma meets_peer_default :
  meets (D := D) i peer_default_task (λ _ _, True)
    (λ r _ _, ∀ p, r = Ok p → guid p = [] ∧ uuid p = [] ∧ persistence_in_progress p = false).
Proof.
  intros Q g ns s _ HQ. do 3 (apply ok_bind, fine_pm_now; [done|];
    intros [?|?] ? ? ? _; [|apply HQ; [adv|done]]).
  apply task_ret. intros ns4 s4 Hadv. apply HQ; [adv|]. by intros p [= <-].
Qed.

Lemma frame_alloc ns ts pm id l p :
  peers_ok i ns ts pm → pm_heap pm !! l = None → persistence_in_progress p = false →
  agrees i (ps_row (pm_db pm) id) (guid p) (uuid p) →
  pm_frame i ns (<[l := id]> ns) pm (set_heap (<[l := p]> (pm_heap pm)) pm).
Proof.
  intros [P1 P2 P3 P4 P5 P6 P7 P8 P9] Hl Hprog Hag.
  assert (ns !! l = None) as Hns by (apply not_elem_of_dom; rewrite P4; by apply not_elem_of_dom).
  split; simpl; try done.
  - by apply insert_subseteq.
  - by rewrite !dom_insert_L, P4.
  - intros id' l' Hm%P5. rewrite lookup_insert_ne; [done|congruence].
  - intros l' p' [[<- <-]|[Hne Hp']]%lookup_insert_Some.
    + rewrite Hl. split; [done|]. intros id'. rewrite lookup_insert_eq. by intros [= <-].
    + by rewrite Hp'.
  - rewrite dom_insert_L. apply union_subseteq_r.
Qed.

Definition allocs (id : string) (r : result LockPeer) (ns : Names) : Prop :=
  ∀ l, r = Ok l → made_for id l ns.

Lemma meets_alloc id p :
  meets (D := D) i (pm_sect (alloc p)) (λ _ s, stands_for id p s) (λ r ns _, allocs id r ns).
Proof.
  apply meets_sect; [apply stable_stands_for| |].
  { intros r ns s ns' s' Hadv He l Hl. eapply stable_made_for; eauto. }
  intros g ns s [T1 T2 T3 T4 T5 T6 T7] [Hprog Hag]. apply wp_on_pm, wp_alloc. intros l Hl.
  pose proof (frame_alloc ns _ _ id l p T1 Hl Hprog Hag) as Hf.
  exists (<[l := id]> ns). split_and!.
  - split; [apply Hf|]. intros j. apply row_kept_refl.
  - split; try done. by eapply frame_ok.
  - intros l' [= <-]. apply lookup_insert_eq.
Qed.

(** A new peer, cached. *)
Lemma meets_alloc_cache id p :
  meets (D := D) i (peer ← pm_sect (alloc p); cache_peer_task id peer)
    (λ _ s, stands_for id p s) (λ r ns _, ends_with id r ns).
Proof.
  intros Q g ns s Hp HQ. apply ok_bind, (meets_alloc id); [done|]. intros [l|e] ns1 s1 Hadv1 Hl.
  - apply meets_cache_peer; [by apply Hl|]. intros r ns2 s2 Hadv2. apply HQ. by etrans.
  - by apply HQ.
Qed.

Lemma meets_find id :
  meets (D := D) i (pm_sect (gets (λ pm, pm_map pm !! id))) (λ _ _, True) (λ r ns _, ends_with id r ns).
Proof.
  apply meets_sect; [done|apply stable_ends_with|].
  apply (keeps_pm _ (λ _, True) (λ r ns _, ends_with id r ns)). intros ns ts pm Hok _.
  apply wp_gets. exists ns. split; [by eapply frame_refl|]. intros l [= Hl]. by apply (po_map _ _ _ _ Hok).
Qed.

(** Touching a cached peer. *)
Lemma meets_touch_ret id l :
  meets (D := D) i (touch_task l;; mret (Some l)) (λ ns _, made_for id l ns) (λ r ns _, ends_with id r ns).
Proof.
  intros Q g ns s Hl HQ. apply ok_bind, fine_touch; [done|]. intros [[]|e] ns1 s1 Hadv1 _.
  - apply task_ret. intros ns2 s2 Hadv2. apply HQ; [by etrans|]. intros l' [= <-].
    eapply stable_made_for; [|done]. by etrans.
  - by apply HQ.
Qed.

Lemma meets_get id :
  meets (D := D) i (get_task id) (λ _ _, True) (λ r ns _, ends_with id r ns).
Proof.
  intros Q g ns s _ HQ. apply ok_bind, meets_find; [done|]. intros [[l|]|e] ns1 s1 Hadv1 Hl.
  { apply (meets_touch_ret id); [by apply Hl|]. intros r ns2 s2 Hadv2. apply HQ. by etrans. }
  2:{ by apply HQ. }
  apply ok_bind, ok_try, meets_db_get; [done|]. intros r ns2 s2 Hadv2 Hr. apply ok_bind.
  intros ns3 s3 Hadv3. assert (advances i (ns, s) (ns3, s3)) as Hadv by (adv).
  destruct r as [[v|]|e]; cbn [with_context].
  - apply ok_bind. intros ns4 s4 Hadv4. destruct (ok_or _ _) as [inf|e].
    2:{ apply HQ; [by etrans|done]. }
    apply ok_bind, meets_peer_default; [done|]. intros [d|e] ns5 s5 Hadv5 Hd.
    2:{ apply HQ; [adv|done]. }
    apply meets_alloc_cache.
    + destruct (Hd d eq_refl) as (_ & _ & Hp). split; [done|]. simpl.
      eapply (stable_read_for id (Ok (Some v)) ns2 s2); [adv|done|done].
    + intros r' ns6 s6 Hadv6. apply HQ. adv.
  - apply task_ret. intros ns4 s4 Hadv4. apply HQ; [by etrans|done].
  - by apply HQ.
Qed.

Lemma meets_get_or id :
  meets (D := D) i (get_or_task id) (λ _ _, True) (λ r ns _, ends_with id r ns).
Proof.
  intros Q g ns s _ HQ. apply ok_bind, meets_get; [done|]. intros [[l|]|e] ns1 s1 Hadv1 Hl.
  - apply task_ret. intros ns2 s2 Hadv2. apply HQ; [by etrans|]. intros l' [= <-].
    eapply stable_made_for; [done|]. by apply Hl.
  - apply ok_bind, meets_peer_default; [done|]. intros [d|e] ns2 s2 Hadv2 Hd.
    2:{ apply HQ; [by etrans|done]. }
    apply meets_alloc_cache.
    + destruct (Hd d eq_refl) as (Hg & Hu & Hp). split; [done|]. left. by rewrite Hg, Hu.
    + intros r' ns3 s3 Hadv3. apply HQ. adv.
  - by apply HQ.
Qed.

Lemma fine_get id : fine (D := D) i (get_task id).
Proof. intros Q g ns s _ HQ. apply meets_get; [done|]. intros r ns' s' Hadv _. by apply HQ. Qed.
Lemma fine_get_in_memory id : fine (D := D) i (get_in_memory_task id).
Proof.
  apply fine_bind; [apply fine_pm_gets|]. intros [l|]; [|apply fine_ret].
  apply fine_bind; [apply fine_touch|]. intros []. apply fine_ret.
Qed.

(** *** Registration *)

(** The clock and the limiter tables. *)
Lemma clock_tables_ok g ns s c tr :
  tasks_wf i g ns s → transient_wf tr →
  tasks_wf i g ns (set_reg (mkRegState (set_clock c (rs_pm (sv_reg s))) tr) s) ∧
  advances i (ns, s) (ns, set_reg (mkRegState (set_clock c (rs_pm (sv_reg s))) tr) s).
Proof.
  intros [T1 T2 T3 T4 T5 T6 T7] Htr. split.
  - split; try done. eapply frame_ok; [exact T1|]. by eapply frame_clock.
  - split; [done|]. intros id. apply row_kept_refl.
Qed.

Lemma harmless_tables {A} (m : M (RegState D) A) :
  (∀ r Q, transient_wf (rs_transient r) →
     (∀ a c tr, transient_wf tr → Q (Ok a) (mkRegState (set_clock c (rs_pm r)) tr)) → wp m Q r) →
  fine i (sect (on_reg m)).
Proof.
  intros Hm. apply fine_sect. intros g ns s Hwf _. apply wp_on_reg, Hm; [apply Hwf|]. intros a c tr Htr.
  destruct (clock_tables_ok g ns s c tr Hwf Htr). by exists ns.
Qed.

Lemma fine_request_allowed ip id : fine (D := D) i (sect (on_reg (request_allowed ip id))).
Proof.
  apply harmless_tables. intros r Q [Hb Hc] HQ. apply wp_bind, wp_instant_now. intros t c _ _ _.
  apply wp_state. simpl. destruct (allow_ip_request _ _ _ _) as [ok b] eqn:Hallow. apply HQ. split; [|done].
  by eapply (allow_ip_request_wf _ ip id t).
Qed.
Lemma fine_note_ip_change id ip : fine (D := D) i (sect (on_reg (note_ip_change id ip))).
Proof.
  apply harmless_tables. intros r Q [Hb Hc] HQ. apply wp_bind, wp_instant_now. intros t c _ _ _.
  apply wp_state. simpl. destruct (record_ip_change _ _ _ _) as [ok m] eqn:Hrec. apply HQ. split; [done|].
  pose proof (record_ip_change_in_wf MAX_TRACKED_IP_CHANGES (tr_changes (rs_transient r)) id ip t Hc) as Hwf.
  unfold record_ip_change in Hrec. by rewrite Hrec in Hwf.
Qed.

(** A write under the peer's lock that keeps its identity. *)
Lemma fine_with_write {A} l (m : M Guard A) :
  (∀ g, wp m (λ _ g', same_core (gd_peer g) (gd_peer g')) g) → fine (D := D) i (pm_sect (with_write l m)).
Proof.
  intros Hm. apply keeps_pm_harmless. intros ns ts pm Hok.
  destruct (pm_heap pm !! l) as [p|] eqn:Hp.
  - eapply wp_with_write; [done|]. eapply wp_mono; [|apply Hm]. intros r g' Hs.
    by eapply frame_write.
  - unfold wp, with_write. rewrite Hp. by eapply frame_refl.
Qed.

Lemma fine_verified l :
  fine (D := D) i (pm_sect (with_write l (now ← instant_now; put (set_verified_at (Some now))))).
Proof.
  apply fine_with_write. intros [c p]. apply wp_bind, wp_instant_now. intros t c' _ _ _. by apply wp_put.
Qed.
Lemma fine_heartbeat inner addr l : fine (D := D) i (pm_sect (with_write l (heartbeat inner addr))).
Proof.
  apply fine_with_write. intros g. apply wp_heartbeat. intros r g' (request & change & _ & Hspec).
  destruct request; [by rewrite Hspec|]. by destruct Hspec as (_ & [now ->] & _).
Qed.

(** A new writer of a peer that had none. *)
Lemma peers_stage ns ts pm l id p p' t c :
  peers_ok i ns ts pm → ns !! l = Some id → pm_heap pm !! l = Some p → persistence_in_progress p = false →
  pt_peer t = l → pt_id t = id → pt_managed t = negb (allow_unmanaged_devices i) → change_authorized t →
  pr_guid (pt_pending t) = guid p → rb_uuid (pr_rollback (pt_pending t)) = uuid p → in_persist t p' →
  peers_ok i ns (t :: ts) (set_heap (<[l := p']> (pm_heap pm)) (set_clock c pm)).
Proof.
  intros [P1 P2 P3 P4 P5 P6 P7 P8 P9] Hns Hp Hprog Ht Hid Hman Hauth Hg Hu Hin. split; simpl; try done.
  - rewrite dom_insert_L, P4. apply elem_of_dom_2 in Hp. set_solver.
  - intros l' id' q Hl' [[<- <-]|[Hne Hq]]%lookup_insert_Some Hqp.
    + destruct Hin as [? _]. congruence.
    + by eapply P6.
  - intros l' q [[<- <-]|[Hne Hq]]%lookup_insert_Some Hqp; rewrite elem_of_cons.
    + by left.
    + right. by eapply P7.
  - intros t' [->|Ht']%elem_of_cons.
    + split; simpl; try done; [by rewrite Ht, Hid| |].
      * rewrite Hg, Hu, Hid. by apply (P6 l).
      * exists p'. by rewrite Ht, lookup_insert_eq.
    + destruct (P8 t' Ht') as [T1 T2 T3 T4 (q & Hq & Hin')]. split; try done.
      exists q. split; [|done]. simpl. rewrite lookup_insert_ne; [done|].
      intros Heq. rewrite Heq in Hp. destruct Hin' as [? _]. congruence.
  - constructor; [|done]. rewrite Ht. intros (t' & Heq & Ht')%list_elem_of_fmap.
    destruct (P8 t' Ht') as [_ _ _ _ (q & Hq & Hin')]. rewrite Heq in Hp. destruct Hin' as [? _]. congruence.
Qed.

(** What staging does to the shares. *)
Definition staged_share (id : string) (l : LockPeer) (u k : bytes) (managed : bool)
    (r : result PeerRegistrationStage) (g g' : Share) : Prop :=
  match r with
  | Ok (Persist q) => g' = (g.1, mkBag (mkPersistTask id l u k managed q :: bag_list g.2))
  | _ => g' = g
  end.

Lemma ok_stage id l addr u k ip managed Q g ns s :
  made_for id l ns → u ≠ [] → managed = negb (allow_unmanaged_devices i) →
  (∀ r g' ns' s', advances i (ns, s) (ns', s') → staged_share id l u k managed r g g' → Q r g' ns' s') →
  ok i (pm_sect (D := D) (with_write l (stage_peer_registration addr u k ip managed))) Q g ns s.
Proof.
  intros Hl Hu Hman HQ. apply task_sect. intros f ns1 s1 Hadv1 Hwf.
  assert (made_for id l ns1) as Hl1 by (by eapply (stable_made_for id l ns s ns1 s1)).
  pose proof (tw_peers _ _ _ _ Hwf) as Hok.
  assert (is_Some (pm_heap (rs_pm (sv_reg s1)) !! l)) as [p Hp].
  { apply elem_of_dom. rewrite <-(po_names _ _ _ _ Hok). by apply elem_of_dom_2 in Hl1. }
  apply wp_on_pm. eapply wp_with_write; [done|]. apply wp_stage. simpl. intros r [c p'] Hspec. simpl in Hspec.
  set (s2 := set_reg _ s1).
  assert (advances i (ns1, s1) (ns1, s2)) as Hadv2 by (split; [done|intros j; apply row_kept_refl]).
  assert (same_core p p' → tasks_wf i (g ⋅ f) ns1 s2) as Hsame.
  { intros Hs. destruct Hwf as [T1 T2 T3 T4 T5 T6 T7]. split; try done. eapply frame_ok; [exact T1|].
    by eapply frame_write. }
  assert (∀ g' ns' s', advances i (ns1, s2) (ns', s') → staged_share id l u k managed r g g' → Q r g' ns' s') as HQ'.
  { intros g' ns' s' Hadv Hr. apply HQ; [adv|done]. }
  destruct r as [[| | | |q]|e]; simpl in Hspec.
  5:{ destruct Hspec as (Hprog & Href & rp & now & str & b & -> & Hjson & -> & _).
      set (q := mkPendingReg _ _ _ _) in *. set (t := mkPersistTask id l u k managed q).
      exists (g.1, mkBag (t :: bag_list g.2)), ns1. split_and!; [done| |by intros; apply HQ'].
      destruct Hwf as [T1 T2 T3 T4 T5 T6 T7]. split; try done.
      apply (peers_stage ns1 _ _ l id p); try done. simpl.
      by eapply not_refused_authorized. }
  all: exists g, ns1; split_and!; [done|apply Hsame|by intros; apply HQ'].
  all: try (by destruct Hspec as [-> _]).
  - by destruct Hspec as ([rp ->] & _).
  - by destruct Hspec as (_ & _ & [rp ->] & _).
Qed.

(** The statement of a writer keeps every row. *)
Lemma wp_write_rows ns ts pm t (Q : result bytes → PeerMap D → Prop) :
  peers_ok i ns (t :: ts) pm →
  (∀ r d, ps_ok d → (∀ id v, ps_row d id = Some v → db_guid v ≠ [] ∧ db_uuid v ≠ []) →
     (∀ id, row_kept i (ps_row (pm_db pm) id) (ps_row d id)) →
     (∀ g, r = Ok g → agrees i (ps_row d (pt_id t)) g (pt_uuid t)) → Q r (set_db d pm)) →
  wp (persist_write t) Q pm.
Proof.
  intros Hok HQ. destruct (po_tasks _ _ _ _ Hok t ltac:(left)) as [_ Hman Hauth Hrb _].
  destruct Hok as [P1 P2 _ _ _ _ _ _ _]. destruct Hauth as [Hu Hauth].
  assert (∀ d, (∀ id, ps_row d id = ps_row (pm_db pm) id) → ps_ok d → ∀ e, Q (Err e) (set_db d pm)) as Hsame.
  { intros d Hd Hokd e. apply HQ; try done.
    - intros id v. rewrite Hd. apply P2.
    - intros id. rewrite Hd. apply row_kept_refl. }
  assert (∀ d g, ps_ok d → g ≠ [] → (∀ v, ps_row (pm_db pm) (pt_id t) = Some v → db_guid v = g ∧
      (allow_unmanaged_devices i = true → db_uuid v = pt_uuid t)) →
    (∀ id, ps_row d id = if decide (id = pt_id t)
       then Some (mkDbPeer g (pt_uuid t) (pt_pk t) (pr_serialized_info (pt_pending t)))
       else ps_row (pm_db pm) id) → Q (Ok g) (set_db d pm)) as Hwritten.
  { intros d g Hokd Hg Hold Hrow. apply HQ; [done| | |].
    - intros id v. rewrite Hrow. case_decide; [by intros [= <-]|apply P2].
    - intros id. rewrite Hrow. case_decide as Hid; [subst id|apply row_kept_refl].
      intros v Hv. destruct (Hold v Hv) as [Hgv Huv]. eexists. split_and!; [done|done|].
      intros Hun. symmetry. by apply Huv.
    - intros g' [= <-]. right. eexists. by rewrite Hrow, decide_True. }
  unfold persist_write. destruct (pr_guid (pt_pending t)) as [|z g0] eqn:Hg; simpl.
  - apply wp_zoom, wp_intro. intros [g|e] d Hins.
    + destruct (ps_insert_ok _ _ _ _ _ _ _ P1 Hins) as (? & ? & Hnone & Hrows).
      apply Hwritten; [done..| |done]. intros v Hv. congruence.
    + destruct (ps_insert_err _ _ _ _ _ _ _ P1 Hins). by apply Hsame.
  - apply wp_bind, wp_zoom, wp_intro. intros [[]|e] d Hupd.
    + apply wp_ret. destruct (ps_update_ok _ _ _ _ _ _ _ P1 Hupd) as (Hokd & Hrows).
      destruct Hrb as [[? _]|(v & Hv & Hgv & Huv)]; [done|].
      apply Hwritten; [done..| |by apply (Hrows v)]. intros v' Hv'. rewrite Hv in Hv'. injection Hv' as <-.
      split; [done|]. intros Hun. destruct (P2 _ _ Hv) as [_ Hne]. specialize (Huv Hun).
      rewrite Hun in Hman. simpl in Hman. destruct Hauth as [?|[?|[? _]]]; congruence.
    + destruct (ps_update_err _ _ _ _ _ _ _ _ P1 Hupd). by apply Hsame.
Qed.

(** A writer lets go of its peer. *)
Lemma peers_finish ns ts pm t w p r p' c :
  peers_ok i ns (t :: ts) pm → pm_heap pm !! pt_peer t = Some p → finished_spec t w p r p' →
  (∀ g, w = Ok g → agrees i (ps_row (pm_db pm) (pt_id t)) g (pt_uuid t)) →
  peers_ok i ns ts (set_heap (<[pt_peer t := p']> (pm_heap pm)) (set_clock c pm)).
Proof.
  intros [P1 P2 P3 P4 P5 P6 P7 P8 P9] Hp [Hprog Hfin] Hw.
  destruct (P8 t ltac:(left)) as [T1 _ _ T4 (q & Hq & _ & Hg & Hu & _)]. rewrite Hp in Hq. injection Hq as <-.
  assert ((pt_peer t ∉ (pt_peer <$> ts)) ∧ NoDup (pt_peer <$> ts)) as [Hnot Hnd] by (by inversion P9).
  split; simpl; try done.
  - rewrite dom_insert_L, P4. apply elem_of_dom_2 in Hp. set_solver.
  - intros l id q Hl [[<- <-]|[Hne Hq]]%lookup_insert_Some Hqp; [|by eapply P6].
    rewrite T1 in Hl. injection Hl as <-. destruct w as [g|e].
    + destruct Hfin as (_ & -> & -> & _). rewrite Hu. by apply Hw.
    + destruct Hfin as (_ & -> & Hrb). rewrite Hg, <-Hrb in *. done.
  - intros l q [[<- <-]|[Hne Hq]]%lookup_insert_Some Hqp; [congruence|].
    specialize (P7 l q Hq Hqp). simpl in P7. apply elem_of_cons in P7 as [->|?]; done.
  - intros t' Ht'. destruct (P8 t' ltac:(by right)) as [U1 U2 U3 U4 (q & Hq & Hin)]. split; try done.
    exists q. split; [|done]. simpl. rewrite lookup_insert_ne; [done|]. intros Heq. apply Hnot.
    rewrite Heq. by apply list_elem_of_fmap_2.
Qed.

(** A writer, from the staged peer to its end. *)
Lemma ok_persist_task t Q g ns s :
  (∀ r ns' s', advances i (ns, s) (ns', s') → Q r g ns' s') →
  ok i (persist_task_task (D := D) t) Q (g.1, mkBag (t :: bag_list g.2)) ns s.
Proof.
  intros HQ. set (gt := (g.1, mkBag (t :: bag_list g.2)) : Share).
  apply ok_bind, ok_try, task_sect. intros f ns1 s1 Hadv1 Hwf. pose proof Hwf as [T1 T2 T3 T4 T5 T6 T7].
  apply wp_on_pm. eapply wp_write_rows; [exact T1|]. intros w d Hd Hrows Hkept Hw.
  set (sw := set_reg _ s1).
  assert (advances i (ns1, s1) (ns1, sw)) as Hadvw by (by split).
  exists gt, ns1. split_and!; [done| |].
  { split; try done. by apply rows_ok. }
  intros ns2 s2 Hadv2. apply task_sect. intros f' ns3 s3 Hadv3 Hwf3.
  assert (∀ gd, w = Ok gd → agrees i (row_of (sv_reg s3) (pt_id t)) gd (pt_uuid t)) as Hw3.
  { intros gd Hgd. eapply agrees_kept; [|by apply Hw].
    assert (advances i (ns1, sw) (ns3, s3)) as [_ Hk] by adv. apply Hk. }
  clear T1 T2 T3 T4 T5 T6 T7. pose proof Hwf3 as [T1 T2 T3 T4 T5 T6 T7].
  destruct (po_tasks _ _ _ _ T1 t ltac:(left)) as [_ _ _ _ (p & Hp & _)].
  apply wp_on_pm. eapply wp_persist_finish; [done|]. intros r p' c Hfin.
  set (s4 := set_reg _ s3).
  assert (advances i (ns3, s3) (ns3, s4)) as Hadv4 by (split; [done|intros id; apply row_kept_refl]).
  exists g, ns3. split_and!; [done| |].
  - split; try done. by eapply peers_finish.
  - intros ns5 s5 Hadv5. apply HQ. adv.
Qed.

(** A registration up to its answer or its writer. *)
Definition begun_share (r : result (RegisterPkResult + PersistTask)) (g g' : Share) : Prop :=
  match r with
  | Ok (inr t) => g' = (g.1, mkBag (t :: bag_list g.2))
  | _ => g' = g
  end.

Lemma ok_register_begin post rk addr Q g ns s :
  (∀ r g' ns' s', advances i (ns, s) (ns', s') → begun_share r g g' → Q r g' ns' s') →
  ok i (register_begin_task (D := D) i post rk addr) Q g ns s.
Proof.
  intros HQ. unfold register_begin_task.
  assert (∀ a ns1 s1, advances i (ns, s) (ns1, s1) →
    ok i (mret (inl a) : Prog (Server D) (RegisterPkResult + PersistTask)) Q g ns1 s1) as Hanswer.
  { intros a ns1 s1 Hadv1. apply task_ret. intros ns' s' Hadv. apply HQ; [adv|done]. }
  destruct (negb (str_empty _)); [by apply Hanswer|].
  destruct (_ || _) eqn:Hvalid; [by apply Hanswer|]. reflect_bools.
  assert (rk_uuid rk ≠ []) as Hu by (by intros Hnil; rewrite Hnil in *).
  apply ok_bind, fine_request_allowed; [done|]. intros [allowed|e] ns1 s1 Hadv1 _; [|by apply HQ].
  destruct (negb allowed); [by apply Hanswer|].
  destruct (if allow_unmanaged_devices i then _ else _) as [a|managed] eqn:Hauth; [by apply Hanswer|].
  assert (managed = negb (allow_unmanaged_devices i)) as Hman.
  { destruct (allow_unmanaged_devices i); [by simplify_eq|].
    by destruct (verify_device_deployment _ _ _ _ _) as [[|]|]; simplify_eq. }
  apply ok_bind, meets_get_or; [done|]. intros [[l|]|e] ns2 s2 Hadv2 Hl.
  2:{ apply Hanswer. adv. }
  2:{ apply HQ; [adv|done]. }
  apply ok_bind, (ok_stage (rk_id rk)); [by apply Hl|done|done|]. intros r g' ns3 s3 Hadv3 Hr.
  assert (advances i (ns, s) (ns3, s3)) as Hadv by adv.
  destruct r as [[| | | |q]|e]; simpl in Hr; subst g'; try (by apply Hanswer); try (by apply HQ).
  - apply ok_bind. assert (fine i (if managed then pm_sect (D := D) (with_write l
      (now ← instant_now; put (set_verified_at (Some now)))) else mret tt)) as Hver.
    { destruct managed; [apply fine_verified|apply fine_ret]. }
    apply Hver; [done|]. intros [[]|e] ns4 s4 Hadv4 _; [apply Hanswer; adv|apply HQ; [adv|done]].
  - apply task_ret. intros ns4 s4 Hadv4. apply HQ; [adv|done].
Qed.

Lemma fine_register_pk post rk addr : fine (D := D) i (register_pk_task i post rk addr).
Proof.
  intros Q g ns s _ HQ. apply ok_bind, ok_register_begin. intros [[a|t]|e] g' ns1 s1 Hadv1 Hg; simpl in Hg; subst g'.
  - apply task_ret. intros ns2 s2 Hadv2. apply HQ; [adv|done].
  - apply ok_bind, ok_try, ok_persist_task. intros r ns2 s2 Hadv2.
    assert (fine i (match r with
      | Err _ => mret (Some SERVER_ERROR)
      | Ok tt => (if pr_ip_changed (pt_pending t)
           then sect (on_reg (D := D) (note_ip_change (rk_id rk) (show_ip (sa_ip addr))));; mret tt
           else mret tt);; mret (Some OK)
      end)) as Hrest.
    { destruct r as [[]|e]; [|apply fine_ret]. apply fine_bind; [|intros []; apply fine_ret].
      destruct (pr_ip_changed _); [|apply fine_ret].
      apply fine_bind; [apply fine_note_ip_change|]. intros ?. apply fine_ret. }
    apply Hrest; [done|]. intros r' ns3 s3 Hadv3 _. apply HQ; [adv|done].
  - by apply HQ.
Qed.

Lemma fine_register_peer inner servers rp addr :
  fine (D := D) i (register_peer_task inner servers rp addr).
Proof.
  apply fine_bind; [apply fine_get|]. intros found. apply fine_bind.
  - destruct found; [apply fine_heartbeat|apply fine_ret].
  - intros r. apply fine_ret.
Qed.

(** *** The rest of the server *)

(** A section that leaves the peers alone, the clock apart. *)
Definition spares_peers s s' : Prop :=
  (∃ c tr, sv_reg s' = mkRegState (set_clock c (rs_pm (sv_reg s))) tr ∧
     (transient_wf (rs_transient (sv_reg s)) → transient_wf tr)) ∧
  sv_proxy_slots s' = sv_proxy_slots s.

Lemma spares_tables s s' tr :
  sv_reg s' = mkRegState (rs_pm (sv_reg s)) tr → (transient_wf (rs_transient (sv_reg s)) → transient_wf tr) →
  sv_proxy_slots s' = sv_proxy_slots s → spares_peers s s'.
Proof.
  intros Hr Htr Hs. split; [|done]. exists (pm_clock (rs_pm (sv_reg s))), tr. split; [|done]. rewrite Hr.
  by destruct (rs_pm (sv_reg s)).
Qed.
Lemma spares_refl s s' : sv_reg s' = sv_reg s → sv_proxy_slots s' = sv_proxy_slots s → spares_peers s s'.
Proof.
  intros Hr. apply (spares_tables s s' (rs_transient (sv_reg s))); [|done]. rewrite Hr. by destruct (sv_reg s).
Qed.

Lemma fine_spares {A} (m : M (Server D) A) :
  (∀ g ns s, tasks_wf i g ns s → wp m (λ _ s', spares_peers s s' ∧
     mlen (sv_pending s') ≤ PENDING_RENDEZVOUS_CAPACITY ∧ rates_wf (sv_rates s') ∧
     (∀ c ch, sv_chans s' !! c = Some ch → len (ch_queue ch) ≤ RENDEZVOUS_CONNECTION_QUEUE_CAPACITY) ∧
     len (sv_punch_reqs s') ≤ PUNCH_REQUEST_LOG_CAPACITY) s) →
  fine i (sect m).
Proof.
  intros Hm. apply fine_sect. intros g ns s Hwf _. eapply wp_mono; [|by apply (Hm g ns)].
  intros r s' ([(c & tr & Hreg & Htr) Hslots] & Hp & Hr & Hq & Hl). exists ns.
  destruct (clock_tables_ok g ns s c tr Hwf) as [Hwf' Hadv]; [apply Htr, Hwf|]. rewrite <-Hreg in *.
  destruct Hwf' as [T1 T2 _ _ _ _ T7]. split_and!; [by destruct Hadv| |done].
  split; try done. by rewrite Hslots.
Qed.

(** ... and whose other parts stay. *)
Ltac spares := split_and!; [by apply spares_refl|try done..].

Lemma fine_gets {A} (f : Server D → A) : fine i (sect (gets f)).
Proof. apply fine_spares. intros g ns s [T1 T2 T3 T4 T5 T6 T7]. apply wp_gets. spares. Qed.
Lemma fine_now : fine (D := D) i (sect instant_now).
Proof.
  apply fine_spares. intros g ns s [T1 T2 T3 T4 T5 T6 T7]. apply wp_instant_now. intros t c _ _ _.
  split_and!; [|done..]. split; [|done]. by exists c, (rs_transient (sv_reg s)).
Qed.
Lemma fine_read_peer l : fine (D := D) i (sect (read_peer l)).
Proof.
  apply fine_spares. intros g ns s [T1 T2 T3 T4 T5 T6 T7]. apply wp_bind, wp_gets, wp_lift. spares.
Qed.
Lemma fine_try_send c msg : fine (D := D) i (sect (try_send c msg)).
Proof.
  apply fine_spares. intros g ns s [T1 T2 T3 T4 T5 T6 T7]. apply wp_try_send; [|spares].
  intros ch Hc _ Hroom. spares. intros c' ch'. simpl.
  destruct (decide (c' = c)) as [->|Hne]; [|rewrite lookup_alter_ne by done; apply T5].
  rewrite lookup_alter_eq, Hc. intros [= <-]. simpl. unfold len in *. rewrite length_app. simpl. lia.
Qed.
Lemma fine_set_tcp_punch (f : Server D → gmap SocketAddr ChanId) :
  fine i (sect (modify (λ s, set_tcp_punch (f s) s))).
Proof. apply fine_spares. intros g ns s [T1 T2 T3 T4 T5 T6 T7]. apply wp_modify. spares. Qed.
Lemma fine_take_sink addr : fine (D := D) i (sect (take_sink addr)).
Proof.
  apply fine_spares. intros g ns s [T1 T2 T3 T4 T5 T6 T7].
  apply wp_bind, wp_gets, wp_bind, wp_modify, wp_ret. spares.
Qed.
Lemma fine_keepalive sink : fine (D := D) i (sect (start_health_check_keepalive sink)).
Proof.
  apply fine_spares. intros g ns s [T1 T2 T3 T4 T5 T6 T7]. destruct sink; [apply wp_modify|apply wp_ret]; spares.
Qed.
Lemma fine_reserve q id k relay : fine (D := D) i (sect (reserve q id k relay)).
Proof.
  apply fine_spares. intros g ns s [T1 T2 T3 T4 T5 T6 T7]. apply wp_on_tokens, wp_reserve.
  intros o z (_ & m & [Hsub _] & Ho). simpl in Hsub. pose proof (mlen_subseteq _ _ Hsub).
  split_and!; try done.
  - split; [|done]. by exists (rz_clock z), (rs_transient (sv_reg s)).
  - simpl. destruct o as [t|e]; [|rewrite Ho; lia].
    destruct Ho as (Hfree & Hlt & _ & ->). rewrite mlen_insert_new by done. lia.
Qed.
Lemma fine_consume t id q k : fine (D := D) i (sect (consume t id q k)).
Proof.
  apply fine_spares. intros g ns s [T1 T2 T3 T4 T5 T6 T7]. apply wp_on_tokens, wp_consume. intros r z _ Hr.
  split_and!; try done.
  - split; [|done]. by exists (rz_clock z), (rs_transient (sv_reg s)).
  - pose proof (mlen_delete_le (sv_pending s) t). simpl in *. destruct r as [c|e].
    + destruct Hr as (a & _ & _ & Hin). apply consume_in_ok in Hin as (en & _ & _ & -> & _). lia.
    + destruct Hr as [-> | ->]; lia.
Qed.
Lemma fine_cancel t : fine (D := D) i (sect (cancel t)).
Proof.
  apply fine_spares. intros g ns s [T1 T2 T3 T4 T5 T6 T7]. apply wp_on_tokens, wp_modify.
  split_and!; try done.
  - split; [|done]. by exists (sv_clock s), (rs_transient (sv_reg s)).
  - simpl. pose proof (mlen_delete_le (sv_pending s) t). lia.
Qed.
Lemma fine_allow_proxy ip : fine (D := D) i (sect (on_proxy (allow_http_proxy_request ip))).
Proof.
  apply fine_spares. intros g ns s [T1 T2 T3 T4 T5 T6 T7]. apply wp_on_proxy, wp_allow_http_proxy; [apply T4|].
  intros ok p Hstep. split_and!; try done.
  - split; [|done]. by exists (px_clock p), (rs_transient (sv_reg s)).
  - by eapply (proxy_step_wf (mkProxy (sv_clock s) (sv_rates s))).
Qed.
Lemma fine_get_relay_server rs : fine (D := D) i (sect (get_relay_server rs)).
Proof.
  apply fine_spares. intros g ns s [T1 T2 T3 T4 T5 T6 T7]. apply wp_get_relay_server. intros. spares.
Qed.
Lemma fine_log_punch addr peer_addr id : fine (D := D) i (sect (log_punch_request addr peer_addr id)).
Proof.
  apply fine_spares. intros g ns s [T1 T2 T3 T4 T5 T6 T7]. apply wp_log_punch. intros l c Hl.
  split_and!; try done; [|by apply Hl]. split; [|done]. by exists c, (rs_transient (sv_reg s)).
Qed.
Lemma fine_cleanup_blockers now : fine (D := D) i (sect (cleanup_blockers now)).
Proof.
  apply fine_spares. intros g ns s [T1 T2 T3 T4 T5 T6 T7]. apply wp_state. split_and!; try done.
  eapply spares_tables; [done| |done]. intros [Hb Hc]. split; [|done]. by apply retain_blockers_wf.
Qed.
Lemma fine_cleanup_changes now : fine (D := D) i (sect (cleanup_changes now)).
Proof.
  apply fine_spares. intros g ns s [T1 T2 T3 T4 T5 T6 T7]. apply wp_state. split_and!; try done.
  eapply spares_tables; [done| |done]. intros [Hb Hc]. split; [done|]. by apply retain_changes_wf.
Qed.
Lemma fine_forget_own_sink c addr : fine (D := D) i (sect (forget_own_sink c addr)).
Proof.
  apply fine_spares. intros g ns s [T1 T2 T3 T4 T5 T6 T7]. apply wp_modify. cbn beta zeta. case_bool_decide; spares.
Qed.
Lemma fine_drop_receiver c : fine (D := D) i (sect (drop_receiver c)).
Proof.
  apply fine_spares. intros g ns s [T1 T2 T3 T4 T5 T6 T7]. apply wp_modify. spares. simpl.
  intros c' ch Hc'. destruct (decide (c' = c)) as [->|Hne].
  - rewrite lookup_alter_eq in Hc'. destruct (sv_chans s !! c) as [ch0|] eqn:Hc0; [|done].
    injection Hc' as <-. by apply (T5 c ch0).
  - rewrite lookup_alter_ne in Hc' by done. by apply (T5 c').
Qed.
Lemma fine_new_channel : fine (D := D) i (sect new_channel).
Proof.
  apply fine_spares. intros g ns s [T1 T2 T3 T4 T5 T6 T7]. unfold wp, new_channel. simpl. spares.
  intros c ch [[_ <-]|[_ Hc]]%lookup_insert_Some; [by vm_compute|by apply (T5 c)].
Qed.
Lemma fine_next_message c : fine (D := D) i (sect (next_message c)).
Proof.
  apply fine_spares. intros g ns s [T1 T2 T3 T4 T5 T6 T7]. apply wp_state.
  destruct (sv_chans s !! c) as [[[|m q] o]|] eqn:Hc; simpl; spares.
  intros c' ch [[_ <-]|[_ Hc']]%lookup_insert_Some; [|by apply (T5 c')].
  pose proof (T5 c _ Hc) as Hlen. unfold len in *. simpl in *. lia.
Qed.

(** The permit: taken, then given back. *)
Lemma permits_ok g g' ns s n :
  tasks_wf i g ns s → g'.2 = g.2 → 0 ≤ n → n + Z.of_nat g'.1 = HTTP_PROXY_MAX_CONCURRENCY →
  tasks_wf i g' ns (set_slots n s).
Proof. intros [T1 T2 T3 T4 T5 T6 T7] Hbag Hn Hsum. split; try done. by rewrite Hbag. Qed.

Lemma fine_proxy_upstream rs api addr req : fine (D := D) i (proxy_upstream_task rs api addr req).
Proof.
  intros Q g ns s _ HQ. apply ok_bind, task_sect. intros f ns1 s1 Hadv1 Hwf.
  pose proof (tw_permits _ _ _ _ Hwf) as [Hge Hsum]. simpl in Hsum.
  apply wp_state. destruct (sv_proxy_slots s1 <=? 0) eqn:Hfull; reflect_bools; cbn [fst snd].
  - exists g, ns1. split_and!; [done..|]. intros ns2 s2 Hadv2 ns3 s3 Hadv3. apply HQ; [adv|done].
  - set (s1' := set_slots _ s1). assert (advances i (ns1, s1) (ns1, s1')) as Hadv1'.
    { split; [done|]. intros id. apply row_kept_refl. }
    exists (S g.1, g.2), ns1. split_and!; [done| |].
    { apply (permits_ok (g ⋅ f)); [done..|lia|]. simpl. lia. }
    intros ns2 s2 Hadv2. cbn [negb]. apply ok_bind, task_sect. intros f' ns3 s3 Hadv3 Hwf3.
    pose proof (tw_permits _ _ _ _ Hwf3) as [Hge3 Hsum3]. simpl in Hsum3.
    set (s3' := set_slots (sv_proxy_slots s3 + 1) s3).
    assert (advances i (ns3, s3) (ns3, s3')) as Hadv3'.
    { split; [done|]. intros id. apply row_kept_refl. }
    apply wp_modify. exists g, ns3. split_and!; [done| |].
    { apply (permits_ok ((S g.1, g.2) ⋅ f')); [done..|lia|]. simpl. lia. }
    intros ns4 s4 Hadv4. apply task_ret. intros ns5 s5 Hadv5. apply HQ; [|done].
    change (advances i (ns3, s3') (ns4, s4)) in Hadv4. adv.
Qed.
End Sections.

#[export] Hint Resolve fine_evict_inactive fine_get fine_get_in_memory fine_register_pk fine_register_peer
  fine_gets fine_now fine_read_peer fine_try_send fine_set_tcp_punch fine_take_sink fine_keepalive
  fine_reserve fine_consume fine_cancel fine_allow_proxy fine_get_relay_server fine_log_punch
  fine_cleanup_blockers fine_cleanup_changes fine_forget_own_sink fine_drop_receiver fine_new_channel
  fine_next_message fine_proxy_upstream : fine.

Section Handlers.
Context {D : Type} `{!PeerStore D} `{X : !Externals} `{L : !ExternalLaws X} `{R : !Entropy} `{H : !HttpLibrary}.
Context (i : Inner).

Lemma fine_online n peers states : fine (D := D) i (online_states_task n peers states).
Proof.
  revert n states. induction peers as [|id peers IH]; intros n states; cbn [online_states_task]; harmless_walk.
Qed.
Hint Resolve fine_online : fine.

Lemma fine_tcp_msg rs api msg sink started addr key ws :
  inner rs = i → fine (D := D) i (handle_tcp_msg_task rs api msg sink started addr key ws).
Proof.
  intros Hi. unfold handle_tcp_msg_task, handle_register_peer_task, handle_register_pk_task,
    handle_http_proxy_task, handle_test_nat_request_task, handle_online_query_task, handle_health_check_task,
    build_online_response_task, handle_request_relay_task, handle_relay_response_task, handle_hole_sent_task,
    handle_local_addr_task, handle_tcp_punch_hole_request_task, handle_punch_hole_request_task,
    route_punch_request_task, get_pk_task, send_relay_failure_task, send_to_tcp_task, send_to_tcp_sync_task,
    send_to_sink_task, cache_sink_task. rewrite Hi. destruct msg as [[]|]; harmless_walk.
Qed.

Lemma fine_udp msg addr : fine (D := D) i (handle_udp_task msg addr).
Proof.
  unfold handle_udp_task, handle_hole_sent_task, get_pk_task, send_to_tcp_task, send_to_sink_task.
  destruct msg as [[]|]; harmless_walk.
Qed.
Lemma fine_cleanup : fine (D := D) i cleanup_task.
Proof. unfold cleanup_task. harmless_walk. Qed.
Lemma fine_open addr : fine (D := D) i (open_task addr).
Proof. unfold open_task, cache_sink_task. harmless_walk. Qed.
Lemma fine_close c addr : fine (D := D) i (close_task c addr).
Proof. unfold close_task. harmless_walk. Qed.
End Handlers.

(** ** The server's tasks *)

Definition whole {S A} (p : Prog S A) : Prog S unit := p ≫= λ _, mret tt.

Section ServerTasks.
Context {D : Type} `{!PeerStore D} `{X : !Externals} `{R : !Entropy} `{H : !HttpLibrary}.
Context (i : Inner).

(** What runs on the server: a connection's start, messages, deliveries,
    keep-alives and end, a datagram, a query on the NAT-test port, the timer. *)
Inductive server_task : Prog (Server D) unit → Prop :=
  | st_message rs api msg sink started addr key ws :
      inner rs = i → server_task (whole (handle_tcp_msg_task rs api msg sink started addr key ws))
  | st_datagram msg addr : server_task (whole (handle_udp_task msg addr))
  | st_online peers : server_task (whole (build_online_response_task peers))
  | st_cleanup : server_task (whole cleanup_task)
  | st_open addr : server_task (whole (open_task addr))
  | st_close c addr : server_task (whole (close_task c addr))
  | st_drop c : server_task (whole (sect (drop_receiver c)))
  | st_next c : server_task (whole (sect (next_message c)))
  | st_keepalive c : server_task (whole (sect (keepalive_tick c))).

(** What else happens: time passes, handles and locks on peers come and go,
    and the console runs a command, which takes one lock. *)
Inductive surroundings : Server D → Server D → Prop :=
  | env_clock s c : ck_now (sv_clock s) ≤ ck_now c → surroundings s (set_sv_clock c s)
  | env_handles s h locked :
      let pm := rs_pm (sv_reg s) in
      surroundings s (set_reg (set_pm (mkPeerMap (pm_clock pm) (pm_heap pm) (pm_map pm) (pm_db pm)
                                         (max_cached_peers pm) h locked) (sv_reg s)) s)
  | env_console (O : HashOrder) event_iso rs closed cmd s r s' :
      check_cmd event_iso rs closed cmd s = (r, s') → surroundings s s'.

Abbreviation server_steps := (rtc (pool_step server_task surroundings)).

(** Nobody holds a permit or writes a peer. *)
Definition quiet (s : Server D) : Prop := ∃ ns, tasks_wf i share_none ns s.

(** The bounds of the server, whatever is going on. *)
Record within_bounds (s : Server D) : Prop := {
  wb_cache : pm_wf (rs_pm (sv_reg s));
  wb_proxy : 0 ≤ sv_proxy_slots s ≤ HTTP_PROXY_MAX_CONCURRENCY;
  wb_pending : mlen (sv_pending s) ≤ PENDING_RENDEZVOUS_CAPACITY;
  wb_rates : rates_wf (sv_rates s);
  wb_queues : ∀ c ch, sv_chans s !! c = Some ch →
    len (ch_queue ch) ≤ RENDEZVOUS_CONNECTION_QUEUE_CAPACITY;
  wb_log : len (sv_punch_reqs s) ≤ PUNCH_REQUEST_LOG_CAPACITY;
  wb_tables : transient_wf (rs_transient (sv_reg s))
}.

Definition at_rest (s : Server D) : Prop :=
  sv_proxy_slots s = HTTP_PROXY_MAX_CONCURRENCY ∧
  ∀ l p, pm_heap (rs_pm (sv_reg s)) !! l = Some p → persistence_in_progress p = false.

Lemma tasks_wf_bounds g ns s : tasks_wf i g ns s → within_bounds s.
Proof.
  intros [T1 [T2 T2'] T3 T4 T5 T6 T7]. split; try done; [|lia]. split.
  - apply (po_room _ _ _ _ T1).
  - intros id l Hl. apply elem_of_dom. rewrite <-(po_names _ _ _ _ T1).
    by eapply elem_of_dom_2, (po_map _ _ _ _ T1).
  - intros j k l Hj Hk. apply (po_map _ _ _ _ T1) in Hj, Hk. congruence.
Qed.

Lemma quiet_at_rest s : quiet s → at_rest s.
Proof.
  intros (ns & T). split.
  - pose proof (tw_permits _ _ _ _ T) as [_ Hsum]. simpl in Hsum. lia.
  - intros l p Hp. apply not_true_iff_false. intros Hprog.
    pose proof (po_busy _ _ _ _ (tw_peers _ _ _ _ T) l p Hp Hprog) as Hin. by apply elem_of_nil in Hin.
Qed.

Context `{L : !ExternalLaws X}.

Lemma server_task_ok p : server_task p → ∀ ns s, ok i p gives_back share_none ns s.
Proof.
  intros Hp ns s. assert (fine i p) as Hfine.
  { destruct Hp; (apply fine_bind; [|intros ?; apply fine_ret]).
    - by apply fine_tcp_msg.
    - apply fine_udp.
    - apply fine_bind; [apply fine_online|]. intros ?. apply fine_ret.
    - apply fine_cleanup.
    - apply fine_open.
    - apply fine_close.
    - apply fine_drop_receiver.
    - apply fine_next_message.
    - apply fine_try_send. }
  by apply Hfine.
Qed.

Lemma surroundings_ok g ns s s' :
  tasks_wf i g ns s → surroundings s s' → ∃ ns', advances i (ns, s) (ns', s') ∧ tasks_wf i g ns' s'.
Proof.
  intros Hwf Henv. destruct Henv as [s c Hc|s h locked pm|O event_iso rs closed cmd s r s' Hcmd].
  - exists ns. by apply and_comm, clock_tables_ok; [|apply Hwf].
  - exists ns. split; [by split; [|intros id; apply row_kept_refl]|].
    pose proof Hwf as [[P1 P2 P3 P4 P5 P6 P7 P8 P9] T2 T3 T4 T5 T6 T7]. split; try done.
    split; try done. intros t Ht. by destruct (P8 t Ht).
  - pose proof (wp_run _ _ _ _ _ (tampers_check_cmd event_iso rs closed cmd s) Hcmd)
      as (c & tr & log & rot & aur & _ & Hb & Hch & Hlog & ->).
    pose proof (tw_tables _ _ _ _ Hwf) as [HTb HTc].
    destruct (clock_tables_ok i g ns s c tr Hwf) as [Hwf' Hadv].
    { split; [by eapply blockers_wf_submap|by eapply changes_wf_submap]. }
    exists ns. split; [exact Hadv|]. destruct Hwf' as [T1 T2 T3 T4 T5 T6 T7]. split; try done. simpl in *. lia.
Qed.

Lemma server_steps_ok ts s ts' s' w :
  server_steps (ts, s) (ts', s') → pool_ok (tasks_wf i) (advances i) ts w s →
  ∃ w', advances i (w, s) (w', s') ∧ pool_ok (tasks_wf i) (advances i) ts' w' s'.
Proof.
  apply (pool_ok_steps (tasks_wf i) (advances i) server_task surroundings server_task_ok surroundings_ok).
Qed.

Lemma server_start ts s : Forall server_task ts → quiet s →
  ∃ w, pool_ok (tasks_wf i) (advances i) ts w s.
Proof.
  intros Hts (ns & Hwf). exists ns.
  by apply (pool_ok_fresh (tasks_wf i) (advances i) server_task server_task_ok).
Qed.

Lemma pool_ok_bounds ts w s : pool_ok (tasks_wf i) (advances i) ts w s →
  within_bounds s ∧ (Forall finished ts → at_rest s).
Proof.
  intros Hok. split.
  - destruct Hok as (gs & _ & Hwf). by eapply tasks_wf_bounds.
  - intros Hfin. apply quiet_at_rest. exists w. by apply (pool_ok_finished (tasks_wf i) (advances i) ts).
Qed.
End ServerTasks.

(** ** Theorems: any number of tasks *)

(** Under every interleaving of the handlers of any number of connections,
    section by section, with datagrams, the timer, queries and console commands
    in between: the cache keeps its capacity and never maps two identifiers to
    one peer; at most 64 upstream requests run at once; at most 10000 answers
    are pending, 4096 addresses are rate-limited, 64 messages wait for a
    connection and 10000 punch requests are logged; and when the last task has
    ended every permit is back and no peer is left locked by a registration. *)
Theorem interleaved_handlers_keep_bounds {D} `{!PeerStore D} `{X : !Externals} `{L : !ExternalLaws X}
    `{R : !Entropy} `{H : !HttpLibrary} i ts ts' (s s' : Server D) :
  Forall (server_task i) ts → quiet i s →
  rtc (pool_step (server_task i) surroundings) (ts, s) (ts', s') →
  within_bounds s' ∧ (Forall finished ts' → at_rest s').
Proof.
  intros Hts Hs Hsteps. destruct (server_start i ts s Hts Hs) as [w Hok].
  destruct (server_steps_ok i _ _ _ _ _ Hsteps Hok) as (w' & _ & Hok'). by eapply pool_ok_bounds.
Qed.


(** C6: No interleaving loses an identity or hands it to somebody else.  From
    any moment on, a device that is stored stays stored under its key, and as
    long as the server does not manage devices it keeps its device UUID:
    whatever lookups of stale rows, evictions, failing statements and
    simultaneous registrations of the same identifier come in between. *)
Theorem interleaved_identities_are_kept {D} `{!PeerStore D} `{X : !Externals} `{L : !ExternalLaws X}
    `{R : !Entropy} `{H : !HttpLibrary} i ts0 ts1 ts2 (s0 s1 s2 : Server D) id v :
  Forall (server_task i) ts0 → quiet i s0 →
  rtc (pool_step (server_task i) surroundings) (ts0, s0) (ts1, s1) →
  rtc (pool_step (server_task i) surroundings) (ts1, s1) (ts2, s2) →
  row_of (sv_reg s1) id = Some v →
  ∃ v', row_of (sv_reg s2) id = Some v' ∧ db_guid v' = db_guid v ∧
    (allow_unmanaged_devices i = true → db_uuid v' = db_uuid v).
Proof.
  intros Hts Hs Hsteps1 Hsteps2 Hv. destruct (server_start i ts0 s0 Hts Hs) as [w0 Hok0].
  destruct (server_steps_ok i _ _ _ _ _ Hsteps1 Hok0) as (w1 & _ & Hok1).
  destruct (server_steps_ok i _ _ _ _ _ Hsteps2 Hok1) as (w2 & [_ Hkept] & _).
  by apply Hkept.
Qed.

(** No handler can hold the others up for ever: from every state that an
    interleaving can reach there is a way for all the tasks to end, and then
    every permit is back and no peer is left locked. *)
Theorem tasks_always_drain {D} `{!PeerStore D} `{X : !Externals} `{L : !ExternalLaws X}
    `{R : !Entropy} `{H : !HttpLibrary} i ts ts' (s s' : Server D) :
  Forall (server_task i) ts → quiet i s →
  rtc (pool_step (server_task i) surroundings) (ts, s) (ts', s') →
  ∃ ts2 s2, rtc (pool_step (server_task i) surroundings) (ts', s') (ts2, s2) ∧
    length ts2 = length ts' ∧ Forall finished ts2 ∧ at_rest s2.
Proof.
  intros Hts Hs Hsteps. destruct (server_start i ts s Hts Hs) as [w Hok].
  destruct (server_steps_ok i _ _ _ _ _ Hsteps Hok) as (w' & _ & Hok').
  destruct (pool_drains (server_task i) surroundings ts' s') as (ts2 & s2 & Hdrain & Hfin & Hlen).
  destruct (server_steps_ok i _ _ _ _ _ Hdrain Hok') as (w2 & _ & Hok2).
  exists ts2, s2. split_and!; [done..|]. by apply (pool_ok_bounds i ts2 w2).
Qed.

(** ** Concrete instances *)

(** Two registrations of one stored device, by its owner and by a stranger. *)
Definition owner_task (unmanaged : bool) : Prog (Server SqlDb) unit :=
  whole (handle_tcp_msg_task (mkRs [] [] [] (sample_inner unmanaged)) (mkApi (sample_post 204) (λ _, Err "offline"))
    (Some (MRegisterPk (sample_rk [1]))) None false sample_addr "" false).
Definition stranger_task (unmanaged : bool) : Prog (Server SqlDb) unit :=
  whole (handle_tcp_msg_task (mkRs [] [] [] (sample_inner unmanaged)) (mkApi (sample_post 204) (λ _, Err "offline"))
    (Some (MRegisterPk (sample_rk [9]))) None false sample_addr "" false).

Lemma fresh_server_quiet unmanaged : quiet (sample_inner unmanaged) fresh_server.
Proof.
  assert (peers_ok (sample_inner unmanaged) ∅ [] (rs_pm (sv_reg fresh_server))) as Hpeers.
  { apply Build_peers_ok.
    - exact sample_row_map_ok.
    - exact (rw_rows _ _ _ (sample_reg_wf true)).
    - by vm_compute.
    - by rewrite !dom_empty_L.
    - intros id l Hl. simpl in Hl. by rewrite lookup_empty in Hl.
    - intros l id p Hl. simpl in Hl. by rewrite lookup_empty in Hl.
    - intros l p Hp. simpl in Hp. by rewrite lookup_empty in Hp.
    - intros t Ht. by apply elem_of_nil in Ht.
    - constructor. }
  destruct (fresh_server_wf) as [_ S2 S3 S4 S5].
  exists ∅. apply Build_tasks_wf; [exact Hpeers|by vm_compute|exact S2|exact S3|exact S4|exact S5|].
  split; (split; [by vm_compute|apply map_Forall_empty]).
Qed.

Lemma sample_tasks unmanaged :
  Forall (server_task (sample_inner unmanaged)) [owner_task unmanaged; stranger_task unmanaged].
Proof. repeat constructor. Qed.

(** One section of each in turn. *)
Definition in_turn (n : nat) : list nat := concat (replicate n [0%nat; 1%nat]).
Definition sample_race (unmanaged : bool) (n : nat) : list (Prog (Server SqlDb) unit) * Server SqlDb :=
  schedule (in_turn n) ([owner_task unmanaged; stranger_task unmanaged], fresh_server).

Lemma sample_race_steps unmanaged n :
  rtc (pool_step (server_task (sample_inner unmanaged)) surroundings)
    ([owner_task unmanaged; stranger_task unmanaged], fresh_server)
    ((sample_race unmanaged n).1, (sample_race unmanaged n).2).
Proof. apply schedule_reaches. Qed.

Definition is_finished {S A} (p : Prog S A) : bool := match p with Ret _ => true | _ => false end.
Lemma all_finished {S A} (ts : list (Prog S A)) : forallb is_finished ts = true → Forall finished ts.
Proof.
  intros Hts. apply Forall_forall. intros p Hp.
  pose proof (proj1 (forallb_forall _ _) Hts p Hp). destruct p; [by eexists|done].
Qed.

Lemma interleaved_handlers_keep_bounds_witness :
  within_bounds (sample_race false 6).2 ∧ at_rest (sample_race false 30).2.
Proof.
  split.
  - apply (interleaved_handlers_keep_bounds (sample_inner false) _ _ _ _
      (sample_tasks false) (fresh_server_quiet false) (sample_race_steps false 6)).
  - apply (interleaved_handlers_keep_bounds (sample_inner false) _ _ _ _
      (sample_tasks false) (fresh_server_quiet false) (sample_race_steps false 30)).
    apply all_finished. by vm_compute.
Defined.


Lemma interleaved_identities_are_kept_witness :
  ∃ v', row_of (sv_reg (sample_race true 30).2) "device01" = Some v' ∧ db_uuid v' = [1].
Proof.
  destruct (interleaved_identities_are_kept (sample_inner true) _ _ _ fresh_server fresh_server
    (sample_race true 30).2 "device01" (mkDbPeer (sample_uuid 0) [1] [2] "{}")
    (sample_tasks true) (fresh_server_quiet true) (rtc_refl _ _) (sample_race_steps true 30)
    ltac:(by vm_compute)) as (v' & Hv & _ & Hu).
  exists v'. split; [exact Hv|]. by apply Hu.
Defined.

Lemma tasks_always_drain_witness :
  ∃ ts2 s2, rtc (pool_step (server_task (sample_inner false)) surroundings)
      ((sample_race false 6).1, (sample_race false 6).2) (ts2, s2) ∧ at_rest s2.
Proof.
  destruct (tasks_always_drain (sample_inner false) _ _ _ _
    (sample_tasks false) (fresh_server_quiet false) (sample_race_steps false 6)) as (ts2 & s2 & Hsteps & _ & _ & Hrest).
  exists ts2, s2. split; [exact Hsteps|exact Hrest].
Defined.

(** A controller's lookup reads the row; the device is replaced, goes quiet and
    is evicted; the lookup goes on, over a minute late. *)
Definition reader_task : Prog (Server SqlDb) unit :=
  whole (handle_tcp_msg_task (mkRs [] [] [] (sample_inner false)) (mkApi (sample_post 204) (λ _, Err "offline"))
    (Some (MPunchHoleRequest sample_ph)) None false controller_addr "key" false).
Definition late (ns1 ns2 : list nat) (now : Instant) (x : list (Prog (Server SqlDb) unit) * Server SqlDb) :=
  let y := schedule ns1 x in schedule ns2 (y.1, set_sv_clock (mkClock now []) y.2).
Lemma late_schedule i ns1 ns2 now x :
  ck_now (sv_clock (schedule ns1 x).2) ≤ now →
  rtc (pool_step (server_task i) surroundings) x ((late ns1 ns2 now x).1, (late ns1 ns2 now x).2).
Proof.
  intros Hnow. etrans; [apply (schedule_reaches _ _ ns1)|].
  eapply rtc_l; [by apply pool_env, (env_clock _ (mkClock now []))|]. apply schedule_reaches.
Qed.
Definition sample_stale : list (Prog (Server SqlDb) unit) * Server SqlDb :=
  late (replicate 2 0%nat ++ replicate 40 1%nat) (replicate 40 2%nat ++ replicate 40 0%nat) (from_secs 11000)
    ([reader_task; stranger_task false; whole cleanup_task], fresh_server).

(** The coherence of cache and rows that holds between whole handlers
    ([reg_wf] of [Registration]) does not survive inside them: a lookup that is
    held up for more than a minute between its read of the database and its
    insertion into the cache can put an identity there that has been replaced
    since. *)
Theorem stale_row_can_be_cached :
  ∃ ts' (s' : Server SqlDb),
    rtc (pool_step (server_task (sample_inner false)) surroundings)
      ([reader_task; stranger_task false; whole cleanup_task], fresh_server) (ts', s') ∧
    Forall finished ts' ∧
    ∃ v l p, row_of (sv_reg s') "device01" = Some v ∧ pm_map (rs_pm (sv_reg s')) !! "device01" = Some l ∧
      pm_heap (rs_pm (sv_reg s')) !! l = Some p ∧ db_uuid v = [9] ∧ uuid p = [1].
Proof.
  exists sample_stale.1, sample_stale.2. split_and!.
  - apply late_schedule. by vm_compute.
  - apply all_finished. by vm_compute.
  - eexists _, _, _. split_and!; by vm_compute.
Qed.
