(* ===== verification/ConnectionTasks.v ===== *)
(** The tasks of connections, cut at their critical sections
    ([src/rendezvous_server.rs]: [handle_listener], [handle_listener_inner],
    [handle_listener2]).

    [Connections] runs one event of a connection at a time; here the life of a
    connection is one program, from the permit it takes to the permit it returns,
    and its handlers are the programs of [Tasks].  What the client sends and how
    the sockets behave is the script of the connection.  The programs keep what a connection
    does to the shared state; what it writes to its own socket is recorded in
    [Connections].  The task that writes to a WebSocket is a program of its own.

    The theorems: run without interruption, a connection is its events in
    [Connections] ([connection_runs_as_events]); whatever else runs between any
    two sections of any number of connections, the cached sinks are never more than
    the open connections, and nothing of a connection outlives it
    ([connections_leave_nothing_behind]). *)

From Stdlib Require Import Ascii String.
From S2P Require Import Prelude.
From S2P Require Import Text.
From S2P Require Import Net.
From S2P Require Import RateLimit.
From S2P Require Import Database.
From S2P Require Import PeerCache.
From S2P Require Import Messages.
From S2P Require Import Externals.
From S2P Require Import Registration.
From S2P Require Import Pending.
From S2P Require Import HttpProxy.
From S2P Require Import Server.
From S2P Require Import RelayStream.
From S2P Require Import Handshake.
From S2P Require Import RelayCheck.
From S2P Require Import Console.
From S2P Require Import Connections.
From S2P Require Import Interleave.
From S2P Require Import Tasks.
From S2P Require Import TaskSafety.

(** ** Data *)

(** The shared server and the free permits of [connection_slots]. *)
Record Hub (D : Type) := mkHub { hb_server : Server D; hb_slots : Z }.
Arguments mkHub {D} _ _. Arguments hb_server {D} _. Arguments hb_slots {D} _.

Definition on_hub {D A} (m : M (Server D) A) : M (Hub D) A :=
  zoom hb_server (λ s h, mkHub s (hb_slots h)) m.

(** A program of the server, on the hub. *)
Fixpoint on_server {D A} (p : Prog (Server D) A) : Prog (Hub D) A :=
  match p with
  | Ret r => Ret r
  | Sect m k => Sect (on_hub m) (λ r, on_server (k r))
  end.

(** What happens to a serving connection: a read (with the upstream API its
    handler would ask) or the chance to write a queued message. *)
Inductive Input :=
  | Read (api : Api) (next : option (option Item))
  | Write (sent : bool).

(** The key exchange, with the pair it draws. *)
Record Script `{F : !FramedLibrary} := mkScript {
  sc_headers : option Headers;
  sc_tmp : bytes * bytes;
  sc_encoded : bool;
  sc_sent : result unit;
  sc_answer : option (result bytes);
  sc_stream : Framed;
  sc_items : list (option (result WsMessage));
  sc_inputs : list Input
}.

(** ** Operations *)

Section ConnectionTasks.
Context {D : Type} `{!PeerStore D} `{X : !Externals} `{R : !Entropy} `{H : !HttpLibrary} `{B : !BoxLibrary}
  `{F : !FramedLibrary} `{E : !EncryptLibrary} `{W : !WireFormat}.
Context (key : string) (sk : bytes).

Abbreviation HubTask := (Prog (Hub D)).

(** [connection_slots.try_acquire_owned()], and the end of [_permit]. *)
Definition try_acquire_connection : M (Hub D) bool :=
  state (λ h, if hb_slots h <=? 0 then (false, h) else (true, mkHub (hb_server h) (hb_slots h - 1))).
Definition release_connection : M (Hub D) unit :=
  modify (λ h, mkHub (hb_server h) (hb_slots h + 1)).

(** One message, and whether the connection goes on. *)
Definition tcp_msg_task (rs : Rs) (addr : SocketAddr) (c : ChanId) (ws started : bool) (api : Api)
    (msg_in : RendezvousMessage) : HubTask (bool * bool) :=
  r ← try_prog (on_server (handle_tcp_msg_task rs api msg_in (Some c) started addr key ws));
  mret (match r with Ok x => x | Err _ => (false, started) end).

(** The loop of a TCP connection; when the script ends the client stays
    silent, and the timeout breaks the loop. *)
Fixpoint tcp_loop (rs : Rs) (addr : SocketAddr) (c : ChanId) (started : bool) (inputs : list Input)
    : HubTask unit :=
  match inputs with
  | [] => mret tt
  | Write sent :: inputs =>
      msg ← on_server (sect (next_message c));
      match msg with
      | Some _ => if sent then tcp_loop rs addr c started inputs else mret tt
      | None => tcp_loop rs addr c started inputs
      end
  | Read api next :: inputs =>
      match next with
      | Some (Some (FramedItem (Ok bytes))) =>
          match parse_from_bytes bytes with
          | Some msg_in =>
              r ← tcp_msg_task rs addr c false started api msg_in;
              if r.1 : bool then tcp_loop rs addr c r.2 inputs else mret tt
          | None => mret tt
          end
      | _ => mret tt
      end
  end.

(** The reading loop of a WebSocket connection. *)
Fixpoint ws_loop (rs : Rs) (addr : SocketAddr) (c : ChanId) (ws_encrypt_in : Encrypt) (started : bool)
    (inputs : list Input) : HubTask unit :=
  match inputs with
  | [] => mret tt
  | Write _ :: inputs => ws_loop rs addr c ws_encrypt_in started inputs
  | Read api next :: inputs =>
      match next with
      | Some (Some (WsItem (Ok (Binary bytes)))) =>
          let '(plain, ws_encrypt_in) := dec bytes ws_encrypt_in in
          match plain with
          | None => mret tt
          | Some bytes =>
              if is_empty bytes then ws_loop rs addr c ws_encrypt_in started inputs else
              match parse_from_bytes bytes with
              | Some msg_in =>
                  r ← tcp_msg_task rs addr c true started api msg_in;
                  if r.1 : bool then ws_loop rs addr c ws_encrypt_in r.2 inputs else mret tt
              | None => mret tt
              end
          end
      | Some (Some (WsItem (Ok OtherMessage))) => ws_loop rs addr c ws_encrypt_in started inputs
      | _ => mret tt
      end
  end.

(** [forward]: queued messages, encrypted, until one cannot be sent; then the
    receiver is gone. *)
Fixpoint forward_task (c : ChanId) (ws_encrypt_out : Encrypt) (sends : list bool) : HubTask unit :=
  match sends with
  | [] => mret tt
  | sent :: sends =>
      msg ← on_server (sect (next_message c));
      match msg with
      | None => forward_task c ws_encrypt_out sends
      | Some msg =>
          match write_to_bytes msg with
          | None => forward_task c ws_encrypt_out sends
          | Some bytes =>
              match enc bytes ws_encrypt_out with
              | (Some _, ws_encrypt_out) =>
                  if sent : bool then forward_task c ws_encrypt_out sends
                  else on_server (sect (drop_receiver c))
              | (None, _) => on_server (sect (drop_receiver c))
              end
          end
      end
  end.

(** Whatever ends the loop, the end of the connection follows. *)
Definition handle_listener_inner_task (rs : Rs) (addr : SocketAddr) (ws : bool) (sc : Script) : HubTask unit :=
  if ws then
    match sc_headers sc with
    | None => fail_prog "Rendezvous WebSocket upgrade timed out"
    | Some headers =>
        let addr := client_addr (trust_proxy_headers (inner rs)) headers addr in
        k ← lift_prog (hs_key (attempt_handshake_ws parse_from_bytes sk (sc_tmp sc) (sc_encoded sc) (sc_sent sc)
                                 (sc_items sc)));
        c ← on_server (open_task addr);
        try_prog (ws_loop rs addr c (Encrypt_new k) false (sc_inputs sc));;
        on_server (close_task c addr)
    end
  else
    _ ← lift_prog (hs_key (attempt_handshake parse_from_bytes sk (sc_tmp sc) (sc_sent sc) (sc_answer sc)
                             (sc_stream sc)));
    c ← on_server (open_task addr);
    try_prog (tcp_loop rs addr c false (sc_inputs sc));;
    on_server (close_task c addr).

Definition handle_listener_task (rs : Rs) (addr : SocketAddr) (ws : bool) (sc : Script) : HubTask unit :=
  permit ← sect try_acquire_connection;
  if negb permit then mret tt else
  try_prog (handle_listener_inner_task rs addr ws sc);;
  sect release_connection.

(** The NAT-test port, past the branch of the console (a command of the console
    is a step of the surroundings). *)
Definition nat_answer_task (addr : SocketAddr) (msg_in : RendezvousMessage) : HubTask unit :=
  match msg_in with
  | Some (MOnlineRequest peers) =>
      if (len peers <=? ONLINE_QUERY_MAX_PEERS) && forallb valid_peer_id peers
      then on_server (build_online_response_task peers);; mret tt else mret tt
  | _ => mret tt
  end.
Definition nat_test_task (addr : SocketAddr) (sc : Script) (next : option (result bytes)) : HubTask unit :=
  permit ← sect try_acquire_connection;
  if negb permit then mret tt else
  try_prog (
    _ ← lift_prog (hs_key (attempt_handshake parse_from_bytes sk (sc_tmp sc) (sc_sent sc) (sc_answer sc)
                             (sc_stream sc)));
    match next with
    | Some (Ok bytes) => match parse_from_bytes bytes with Some msg_in => nat_answer_task addr msg_in | None => mret tt end
    | _ => mret tt
    end);;
  sect release_connection.
End ConnectionTasks.

(** ** Uninterrupted *)

Section Uninterrupted.
Context {D : Type}.

Lemma run_on_server {A} (p : Prog (Server D) A) h :
  run (on_server p) h = ((run p (hb_server h)).1, mkHub (run p (hb_server h)).2 (hb_slots h)).
Proof.
  revert h. induction p as [r|X0 m k IH]; intros [s n]; simpl; [done|].
  unfold on_hub, zoom. simpl. destruct (m s) as [r s']. by rewrite IH.
Qed.

Lemma run_prog_bind {S A C} (p : Prog S A) (f : A → Prog S C) s :
  run (p ≫= f) s = match run p s with (Ok a, s') => run (f a) s' | (Err e, s') => (Err e, s') end.
Proof. apply (runs_bind p (run p) f (λ a, run (f a))); done. Qed.
Lemma run_prog_try {S A} (p : Prog S A) s : run (try_prog p) s = (Ok (run p s).1, (run p s).2).
Proof.
  pose proof (runs_try p (run p) (reflexivity _) s) as Hr. unfold attempt in Hr. by destruct (run p s).
Qed.
End Uninterrupted.

(** ** A connection and its events *)

Section Events.
Context {D : Type} `{!PeerStore D} `{X : !Externals} `{R : !Entropy} `{H : !HttpLibrary} `{O : !HashOrder}
  `{B : !BoxLibrary} `{F : !FramedLibrary} `{E : !EncryptLibrary} `{W : !WireFormat}.
Context (event_iso : Z → string) (relay_port : Z) (key : string) (sk : bytes).
Implicit Types fr : Front D.

Abbreviation frun := (front_run event_iso relay_port key sk).

Definition hub_of fr : Hub D := mkHub (fr_server fr) (fr_slots fr).

(** An API nobody asks. *)
Definition no_api : Api := mkApi (λ _ _ _ _ _, Err "") (λ _, Err "").
Definition input_event (n : N) (i : Input) : Event :=
  match i with Read api next => Incoming n api next | Write sent => Outgoing n sent end.
Definition input_events (n : N) (inputs : list Input) : list Event :=
  (input_event n <$> inputs) ++ [Incoming n no_api None].
Definition connection_events (n : N) (ws : bool) (sc : Script) : list Event :=
  (if ws then [Upgraded n (sc_headers sc); WsKeys n (sc_tmp sc) (sc_encoded sc) (sc_sent sc) (sc_items sc)]
   else [TcpKeys n (sc_tmp sc) (sc_sent sc) (sc_answer sc) (sc_stream sc)])
  ++ input_events n (sc_inputs sc).

(** Nothing happens any more to a connection that has ended. *)
Lemma events_gone n es fr :
  Forall (λ e, event_conn e = Some n) es → fr_conns fr !! n = None → frun es fr = fr.
Proof.
  intros Hes Hn. induction Hes as [|e es He _ IH]; [done|]. 
  change (frun es (front_step event_iso relay_port key sk e fr) = fr).
  assert (front_step event_iso relay_port key sk e fr = fr) as -> by (unfold front_step; by rewrite He, Hn). done.
Qed.
Lemma input_events_of n inputs : Forall (λ e, event_conn e = Some n) (input_events n inputs).
Proof.
  unfold input_events. apply Forall_app. split; [|by constructor].
  apply Forall_fmap, Forall_true. by intros [].
Qed.
Hint Resolve input_events_of : core.

(** A connection has ended: as its program, short of the permit. *)
Definition ends_as {A} (n : N) (p : Prog (Hub D) A) fr fr' : Prop :=
  fr_server fr' = hb_server (run p (hub_of fr)).2 ∧ fr_slots fr' = hb_slots (run p (hub_of fr)).2 + 1 ∧
  fr_conns fr' = delete n (fr_conns fr).

Lemma ends_close n cn c fr es :
  Forall (λ e, event_conn e = Some n) es →
  ends_as n (on_server (close_task c (cn_addr cn))) fr (frun es (close n cn c fr)).
Proof.
  intros Hes. rewrite (events_gone n) by (done || by apply lookup_delete_eq).
  unfold ends_as. rewrite run_on_server. by rewrite (runs_close c (cn_addr cn) (fr_server fr)).
Qed.
End Events.

Section Loops.
Context {D : Type} `{!PeerStore D} `{X : !Externals} `{R : !Entropy} `{H : !HttpLibrary} `{O : !HashOrder}
  `{B : !BoxLibrary} `{F : !FramedLibrary} `{E : !EncryptLibrary} `{W : !WireFormat}.
Context (event_iso : Z → string) (relay_port : Z) (key : string) (sk : bytes).
Implicit Types fr : Front D.
Context (n : N) (rs : Rs) (addr : SocketAddr) (c : ChanId).

Abbreviation frun := (front_run event_iso relay_port key sk).
Abbreviation fstep := (front_step event_iso relay_port key sk).
Abbreviation serving io started := (mkConn rs addr (Serving c io started)).

(** A loop, and the end of the connection after it. *)
Definition ends (p : Prog (Hub D) unit) fr fr' : Prop := ends_as n (try_prog p;; on_server (close_task c addr)) fr fr'.

Lemma ends_breaks fr es io started :
  Forall (λ e, event_conn e = Some n) es → ends (mret tt) fr (frun es (close n (serving io started) c fr)).
Proof. intros Hes. apply (ends_close event_iso relay_port key sk n (serving io started) c fr es Hes). Qed.

Lemma ends_step {A} (q : Prog (Hub D) A) (g : A → Prog (Hub D) unit) a fr fr1 fr' :
  run q (hub_of fr) = (Ok a, hub_of fr1) → delete n (fr_conns fr1) = delete n (fr_conns fr) →
  ends (g a) fr1 fr' → ends (q ≫= g) fr fr'.
Proof.
  unfold ends, ends_as. rewrite !run_prog_bind, !run_prog_try, run_prog_bind. intros -> Hconns.
  cbn match. by rewrite Hconns.
Qed.

Lemma ends_same p fr fr1 fr' :
  hub_of fr1 = hub_of fr → delete n (fr_conns fr1) = delete n (fr_conns fr) → ends p fr1 fr' → ends p fr fr'.
Proof. unfold ends, ends_as. by intros -> ->. Qed.

Lemma step_input fr io started inp :
  fr_conns fr !! n = Some (serving io started) →
  fstep (input_event n inp) fr = conn_step event_iso key sk (input_event n inp) n (serving io started) fr.
Proof. intros Hn. unfold front_step. destruct inp; simpl; by rewrite Hn. Qed.

Lemma next_message_quiet (s : Server D) r s' :
  next_message c s = (r, s') → ∃ o, r = Ok o ∧ (o = None → s' = s).
Proof. unfold next_message, state. destruct (sv_chans s !! c) as [[[|m q] o]|]; intros [= <- <-]; by eexists. Qed.

Lemma delete_alter_eq {A} (f : A → A) (m : gmap N A) : delete n (alter f n m) = delete n m.
Proof.
  apply map_eq. intros k. destruct (decide (k = n)) as [->|]; [by rewrite !lookup_delete_eq|].
  by rewrite !lookup_delete_ne, lookup_alter_ne.
Qed.

(** One message of a connection. *)
Lemma ends_serves io0 io started api msg fr es g :
  fr_conns fr !! n = Some (serving io0 started) →
  Forall (λ e, event_conn e = Some n) es →
  (∀ started' fr1, fr_conns fr1 !! n = Some (serving io started') → ends (g started') fr1 (frun es fr1)) →
  ends (r ← tcp_msg_task key rs addr c (io_is_ws io) started api msg; if r.1 : bool then g r.2 else mret tt) fr
    (frun es (serve key n (serving io started) c io started api msg fr)).
Proof.
  intros Hn Hes Hg. unfold serve.
  pose proof (runs_tcp_msg rs api msg (Some c) started addr key (io_is_ws io) (fr_server fr)) as Hrun.
  simpl cn_rs in *. simpl cn_addr in *.
  destruct (handle_tcp_msg _ _ _ _ _ _ _ _ _) as [r s'].
  assert (∀ x, (match r with Ok x => x | Err _ => (false, started) end) = x →
    run (tcp_msg_task key rs addr c (io_is_ws io) started api msg) (hub_of fr) = (Ok x, hub_of (set_server s' fr))) as Hmsg.
  { intros x <-. unfold tcp_msg_task. rewrite run_prog_bind, run_prog_try, run_on_server. cbn [hub_of hb_server]. by rewrite Hrun. }
  destruct r as [[[|] st]|e].
  - apply (ends_step _ _ (true, st) _ (set_stage n (Serving c io st) (set_server s' fr))); [by apply Hmsg|by apply delete_alter_eq|].
    apply Hg. simpl. by rewrite lookup_alter_eq, Hn.
  - eapply ends_step; [by apply Hmsg|done|]. by apply ends_breaks.
  - eapply ends_step; [by apply Hmsg|done|]. by apply ends_breaks.
Qed.
End Loops.

Section Runs.
Context {D : Type} `{!PeerStore D} `{X : !Externals} `{R : !Entropy} `{H : !HttpLibrary} `{O : !HashOrder}
  `{B : !BoxLibrary} `{F : !FramedLibrary} `{E : !EncryptLibrary} `{W : !WireFormat}.
Context (event_iso : Z → string) (relay_port : Z) (key : string) (sk : bytes).
Implicit Types fr : Front D.
Context (n : N) (rs : Rs) (addr : SocketAddr) (c : ChanId).

Abbreviation frun := (front_run event_iso relay_port key sk).
Abbreviation serving io started := (mkConn rs addr (Serving c io started)).

Lemma input_events_cons inp inputs : input_events n (inp :: inputs) = input_event n inp :: input_events n inputs.
Proof. done. Qed.

Lemma frun_cons e es fr : frun (e :: es) fr = frun es (front_step event_iso relay_port key sk e fr).
Proof. done. Qed.

(** The client stays silent. *)
Lemma silence_ends io started fr :
  fr_conns fr !! n = Some (serving io started) →
  ends n addr c (mret tt) fr (frun (input_events n []) fr).
Proof.
  intros Hn. change (input_events n []) with [input_event n (Read no_api None)].
  rewrite frun_cons, (step_input _ _ _ _ n rs addr c fr io started (Read no_api None) Hn).
  destruct io; by apply (ends_breaks event_iso relay_port key sk n rs addr c fr [] _ started).
Qed.

Lemma tcp_loop_ends inputs f started fr :
  fr_conns fr !! n = Some (serving (TcpIo f) started) →
  ends n addr c (tcp_loop key rs addr c started inputs) fr (frun (input_events n inputs) fr).
Proof.
  revert started fr. induction inputs as [|[api next|sent] inputs IH]; intros started fr Hn;
    [by eapply silence_ends|..];
    rewrite input_events_cons, frun_cons, (step_input _ _ _ _ n rs addr c fr _ _ _ Hn);
    cbn [input_event conn_step cn_stage incoming outgoing tcp_loop];
    pose proof (input_events_of n inputs) as Hes.
  - destruct next as [[[[b|e]|r]|]|]; try by apply ends_breaks.
    unfold handle_tcp. destruct (parse_from_bytes b) as [msg|]; [|by apply ends_breaks].
    apply (ends_serves event_iso relay_port key sk n rs addr c (TcpIo f) (TcpIo f) started api msg fr _
      (λ st, tcp_loop key rs addr c st inputs)); [done..|]. intros started' fr1. apply IH.
  - destruct (next_message c (fr_server fr)) as [r s'] eqn:Hmsg.
    destruct (next_message_quiet c _ _ _ Hmsg) as (o & -> & Ho).
    eapply (ends_step n addr c _ _ o _ (set_server s' fr)); [by rewrite run_on_server; simpl; rewrite Hmsg|done|].
    destruct o as [msg|]; [destruct sent|].
    + apply (ends_same n addr c _ _ (send n [SentFrame (is_secured f) msg] (set_server s' fr))); [done..|by apply IH].
    + by apply ends_breaks.
    + rewrite (Ho eq_refl). destruct fr; by apply IH.
Qed.

Definition is_read (inp : Input) : Prop := match inp with Read _ _ => True | Write _ => False end.

Lemma ws_loop_ends inputs dec_in enc_out started fr :
  Forall is_read inputs → fr_conns fr !! n = Some (serving (WsIo dec_in enc_out) started) →
  ends n addr c (ws_loop key rs addr c dec_in started inputs) fr (frun (input_events n inputs) fr).
Proof.
  intros Hread. revert dec_in started fr. induction Hread as [|inp inputs Hinp _ IH]; intros dec_in started fr Hn;
    [by eapply silence_ends|]. destruct inp as [api next|]; [|done].
  rewrite input_events_cons, frun_cons, (step_input _ _ _ _ n rs addr c fr _ _ _ Hn).
  cbn [input_event conn_step cn_stage incoming ws_loop]. pose proof (input_events_of n inputs) as Hes.
  destruct next as [[[r|[[b| |]|e]]|]|]; try by apply ends_breaks.
  - destruct (dec b dec_in) as [[plain|] dec_in']; [|by apply ends_breaks].
    destruct (is_empty plain).
    + apply (ends_same n addr c _ fr (set_stage n (Serving c (WsIo dec_in' enc_out) started) fr));
        [done|by apply delete_alter_eq|]. apply IH. simpl. by rewrite lookup_alter_eq, Hn.
    + unfold handle_tcp. destruct (parse_from_bytes plain) as [msg|]; [|by apply ends_breaks].
      apply (ends_serves event_iso relay_port key sk n rs addr c (WsIo dec_in enc_out) (WsIo dec_in' enc_out) started api msg fr _
        (λ st, ws_loop key rs addr c dec_in' st inputs)); [done..|]. intros started' fr1. apply IH.
  - by apply IH.
Qed.
End Runs.

Section Equivalence.
Context {D : Type} `{!PeerStore D} `{X : !Externals} `{R : !Entropy} `{H : !HttpLibrary} `{O : !HashOrder}
  `{B : !BoxLibrary} `{F : !FramedLibrary} `{E : !EncryptLibrary} `{W : !WireFormat}.
Context (event_iso : Z → string) (relay_port : Z) (key : string) (sk : bytes).
Implicit Types fr : Front D.

Abbreviation frun := (front_run event_iso relay_port key sk).
Abbreviation fstep := (front_step event_iso relay_port key sk).

(** A connection whose key exchange fails is over. *)
Lemma ends_failed {A} n e fr fr0 es :
  Forall (λ e, event_conn e = Some n) es → hub_of fr0 = hub_of fr →
  delete n (fr_conns fr0) = delete n (fr_conns fr) →
  ends_as n (fail_prog e : Prog (Hub D) A) fr (frun es (finish n fr0)).
Proof.
  intros Hes Hhub Hconns. rewrite (events_gone event_iso relay_port key sk n) by (done || by apply lookup_delete_eq).
  unfold ends_as. cbn [run fail_prog snd]. rewrite <-Hhub. by simpl; rewrite Hconns.
Qed.

(** From the channel on. *)
Lemma ends_serving n rs addr st io fr fr0 es (loop : ChanId → Prog (Hub D) unit) :
  fr_conns fr0 !! n = Some (mkConn rs addr st) → hub_of fr0 = hub_of fr →
  delete n (fr_conns fr0) = delete n (fr_conns fr) →
  (∀ c fr1, fr_conns fr1 !! n = Some (mkConn rs addr (Serving c io false)) → ends n addr c (loop c) fr1 (frun es fr1)) →
  ends_as n (c ← on_server (open_task addr); try_prog (loop c);; on_server (close_task c addr)) fr
    (frun es (begin_serving n (mkConn rs addr st) io fr0)).
Proof.
  intros Hn Hhub Hconns Hloop. unfold begin_serving. cbn [cn_addr].
  destruct (open_connection addr (fr_server fr0)) as [r s'] eqn:Hopen. injection Hopen as <- Hs'.
  set (c := fresh _) in *. set (fr1 := set_stage n (Serving c io false) (set_server s' fr0)).
  assert (run (on_server (open_task addr)) (hub_of fr) = (Ok c, hub_of fr1)) as Hrun.
  { rewrite run_on_server, runs_open, <-Hhub. unfold fr1. by rewrite <-Hs'. }
  destruct (Hloop c fr1) as (E1 & E2 & E3).
  { simpl. by rewrite lookup_alter_eq, Hn. }
  unfold ends_as. rewrite run_prog_bind, Hrun. split_and!; [done..|]. rewrite E3. simpl. by rewrite delete_alter_eq.
Qed.

Lemma inner_ends n rs addr ws sc fr :
  (ws = true → Forall is_read (sc_inputs sc)) →
  fr_conns fr !! n = Some (mkConn rs addr (if ws then Upgrading else Exchanging false)) →
  ends_as n (handle_listener_inner_task key sk rs addr ws sc) fr (frun (connection_events n ws sc) fr).
Proof.
  intros Hread Hn. pose proof (input_events_of n (sc_inputs sc)) as Hes.
  unfold handle_listener_inner_task, connection_events. destruct ws.
  - rewrite <-app_comm_cons, frun_cons. unfold front_step at 1. cbn [event_conn]. rewrite Hn.
    cbn [conn_step cn_stage]. unfold upgraded. cbn [cn_rs cn_addr].
    destruct (sc_headers sc) as [headers|]; [|by apply ends_failed; [apply Forall_cons|..]].
    set (addr' := client_addr _ _ _). set (fr0 := set_stage n (Exchanging true) (set_addr n addr' fr)).
    assert (fr_conns fr0 !! n = Some (mkConn rs addr' (Exchanging true))) as Hn0.
    { simpl. rewrite !lookup_alter_eq, Hn. done. }
    assert (delete n (fr_conns fr0) = delete n (fr_conns fr)) as Hconns by (simpl; by rewrite !delete_alter_eq).
    rewrite <-app_comm_cons, frun_cons. unfold front_step at 1. cbn [event_conn]. rewrite Hn0.
    cbn [conn_step cn_stage]. unfold ws_exchange. cbn zeta.
    destruct (hs_key _) as [k|e]; [|by apply ends_failed].
    apply (ends_serving n rs addr' (Exchanging true) (WsIo (Encrypt_new k) (Some (Encrypt_new k)))); [done..|].
    intros c fr1 Hn1. apply (ws_loop_ends event_iso relay_port key sk n rs addr' c _ _ (Some (Encrypt_new k))); [|done].
    by apply Hread.
  - rewrite <-app_comm_cons, frun_cons. unfold front_step at 1. cbn [event_conn]. rewrite Hn.
    cbn [conn_step cn_stage]. unfold tcp_exchange. cbn zeta.
    destruct (hs_key _) as [k|e]; [|by apply ends_failed].
    eapply (ends_serving n rs addr (Exchanging false)); [done..|].
    intros c fr1 Hn1. by eapply tcp_loop_ends.
Qed.

(** One connection at a time, its program is its events: from the permit it
    takes, through upgrade, key exchange, messages in both directions and
    timeouts, to its end, the program leaves the same server and the same number
    of permits as the events of [Connections] for the same script, after which
    the connection is gone. *)
Theorem connection_runs_as_events addr ws sc fr :
  (ws = true → Forall is_read (sc_inputs sc)) → fr_conns fr !! fr_next fr = None →
  let fr' := frun (Accept addr ws :: connection_events (fr_next fr) ws sc) fr in
  (run (handle_listener_task key sk (lp_rs (fr_loop fr)) addr ws sc) (hub_of fr)).2 = hub_of fr' ∧
  fr_conns fr' = fr_conns fr.
Proof.
  intros Hread Hfresh. cbn zeta. rewrite frun_cons. unfold front_step. cbn [event_conn].
  unfold handle_listener, spawn_task, handle_listener_task. rewrite run_prog_bind. simpl run.
  unfold try_acquire_connection, state. cbn [hub_of hb_slots hb_server].
  destruct (fr_slots fr <=? 0).
  { rewrite (events_gone event_iso relay_port key sk (fr_next fr)); [done| |done].
    apply Forall_app. split; [by destruct ws; repeat constructor|apply input_events_of]. }
  set (fr1 := mkFront _ _ _ _ _ _). cbn [negb].
  destruct (inner_ends (fr_next fr) (lp_rs (fr_loop fr)) addr ws sc fr1 Hread) as (E1 & E2 & E3).
  { simpl. apply lookup_insert_eq. }
  rewrite run_prog_bind, run_prog_try. change (mkHub (fr_server fr) (fr_slots fr - 1)) with (hub_of fr1).
  destruct (run (handle_listener_inner_task _ _ _ _ _ _) (hub_of fr1)) as [r h].
  cbn [fst snd run sect release_connection modify] in *. unfold hub_of. rewrite E1, E2, E3.
  split; [done|]. simpl. by rewrite delete_insert_id.
Qed.
End Equivalence.

(** ** What a connection owns *)

(** Every section leaves the channels, the keep-alive tasks and the cached sinks
    alone, this connection's own sink apart. *)
Fixpoint tidy `{!Externals} {D A} (sink : option ChanId) (addr : SocketAddr) (p : Prog (Server D) A) : Prop :=
  match p with
  | Ret _ => True
  | Sect m k => (∀ s, wp m (λ _ s', ∀ a c, sv_tcp_punch s' !! a = Some c →
        sv_tcp_punch s !! a = Some c ∨ (sink = Some c ∧ a = try_into_v4 addr)) s) ∧
      ∀ r, tidy sink addr (k r)
  end.

Section Tidy.
Context {D : Type} `{!PeerStore D} `{X : !Externals} `{R : !Entropy} `{H : !HttpLibrary} `{O : !HashOrder}.
Context (sink : option ChanId) (addr : SocketAddr).

Lemma tidy_bind {A B} (p : Prog (Server D) A) (f : A → Prog (Server D) B) :
  tidy sink addr p → (∀ a, tidy sink addr (f a)) → tidy sink addr (p ≫= f).
Proof.
  intros Hp Hf. unfold mbind, Prog_bind. induction p as [[a|e]|X0 m k IH]; simpl in *; [apply Hf|done|].
  destruct Hp as [Hm Hk]. split; [done|]. auto.
Qed.
Lemma tidy_try {A} (p : Prog (Server D) A) : tidy sink addr p → tidy sink addr (try_prog p).
Proof. induction p as [r|X0 m k IH]; simpl; [done|]. intros [Hm Hk]. split; [done|]. auto. Qed.
Lemma tidy_ret {A} (a : A) : tidy (D := D) sink addr (mret a).
Proof. done. Qed.
Lemma tidy_fail {A} e : tidy (D := D) (A := A) sink addr (fail_prog e).
Proof. done. Qed.
Lemma tidy_lift {A} (r : result A) : tidy (D := D) sink addr (lift_prog r).
Proof. done. Qed.
Lemma tidy_linked {A} (m : M (Server D) A) : linked sink addr m → tidy sink addr (sect m).
Proof. intros Hm. split; [|done]. intros s. eapply wp_mono; [|apply Hm]. by intros r s' (_ & _ & ?). Qed.
End Tidy.
#[global] Arguments tidy : simpl never.
#[export] Hint Resolve tidy_ret tidy_fail tidy_lift tidy_linked linked_read_peer linked_log_punch : srv.

(** Walk through a program. *)
Ltac tidying :=
  repeat (
    lazymatch goal with
    | |- tidy _ _ (_ ≫= _) => apply tidy_bind
    | |- tidy _ _ (try_prog _) => apply tidy_try
    | |- tidy _ _ (pm_sect _) => apply tidy_linked, linked_on_pm
    | |- tidy _ _ (match ?x with _ => _ end) => destruct x
    | |- ∀ _, tidy _ _ _ => intros ?
    | |- True => exact I
    | |- tidy _ _ _ => solve [eauto with srv]
    end; cbn beta zeta).

Section TidyTasks.
Context {D : Type} `{!PeerStore D} `{X : !Externals} `{R : !Entropy} `{H : !HttpLibrary} `{O : !HashOrder}.
Context (sink : option ChanId) (addr : SocketAddr).
Abbreviation tidy_task p := (tidy (D := D) sink addr p).

Lemma tidy_touch l : tidy_task (touch_task l).
Proof. unfold touch_task. tidying. Qed.
Lemma tidy_peer_default : tidy_task peer_default_task.
Proof. unfold peer_default_task. tidying. Qed.
Lemma tidy_evict_scan idle snapshot : tidy_task (evict_scan_task idle snapshot).
Proof.
  induction snapshot as [|[id l] rest IH]; [done|]. cbn [evict_scan_task]. tidying.
Qed.
Hint Resolve tidy_touch tidy_peer_default tidy_evict_scan : srv.
Lemma tidy_evict_inactive idle : tidy_task (evict_inactive_task idle).
Proof. unfold evict_inactive_task. tidying. Qed.
Hint Resolve tidy_evict_inactive : srv.
Lemma tidy_cache_peer id peer : tidy_task (cache_peer_task id peer).
Proof. unfold cache_peer_task, evict_then_insert_task. tidying. Qed.
Hint Resolve tidy_cache_peer : srv.
Lemma tidy_get id : tidy_task (get_task id).
Proof. unfold get_task. tidying. Qed.
Hint Resolve tidy_get : srv.
Lemma tidy_get_or id : tidy_task (get_or_task id).
Proof. unfold get_or_task. tidying. Qed.
Lemma tidy_get_in_memory id : tidy_task (get_in_memory_task id).
Proof. unfold get_in_memory_task. tidying. Qed.
Hint Resolve tidy_get_or tidy_get_in_memory : srv.
Lemma tidy_register_pk inner post rk a : tidy_task (register_pk_task inner post rk a).
Proof. unfold register_pk_task, register_begin_task, persist_task_task. cbn zeta. tidying. Qed.
Lemma tidy_register_peer inner servers rp a : tidy_task (register_peer_task inner servers rp a).
Proof. unfold register_peer_task. tidying. Qed.
Lemma tidy_send_to_sink s msg : tidy_task (send_to_sink_task s msg).
Proof. unfold send_to_sink_task. tidying. Qed.
Hint Resolve tidy_register_pk tidy_register_peer tidy_send_to_sink : srv.
Lemma linked_take_sink a : linked (D := D) sink addr (take_sink a).
Proof. unfold take_sink. linking. Qed.
Hint Resolve linked_take_sink : srv.
Lemma tidy_send_to_tcp msg a : tidy_task (send_to_tcp_task msg a).
Proof. unfold send_to_tcp_task. tidying. Qed.
Lemma tidy_send_to_tcp_sync msg a : tidy_task (send_to_tcp_sync_task msg a).
Proof. unfold send_to_tcp_sync_task. tidying. Qed.
Lemma tidy_get_pk version id : tidy_task (get_pk_task version id).
Proof. unfold get_pk_task. tidying. Qed.
Hint Resolve tidy_send_to_tcp tidy_send_to_tcp_sync tidy_get_pk : srv.
Lemma tidy_hole_sent phs a udp : tidy_task (handle_hole_sent_task phs a udp).
Proof. unfold handle_hole_sent_task, consume. tidying. Qed.
Lemma tidy_local_addr la : tidy_task (handle_local_addr_task la).
Proof. unfold handle_local_addr_task, consume. tidying. Qed.
Lemma tidy_relay_response rr : tidy_task (handle_relay_response_task rr).
Proof. unfold handle_relay_response_task, consume. tidying. Qed.
Lemma tidy_tcp_punch rs a ph key ws : tidy_task (handle_tcp_punch_hole_request_task rs a ph key ws).
Proof.
  unfold handle_tcp_punch_hole_request_task, handle_punch_hole_request_task, route_punch_request_task, reserve, cancel.
  tidying.
Qed.
Lemma tidy_request_relay rs a rf : tidy_task (handle_request_relay_task rs sink a rf).
Proof. unfold handle_request_relay_task, send_relay_failure_task, reserve, cancel. tidying. Qed.
Lemma tidy_online i peers states : tidy_task (online_states_task i peers states).
Proof. revert i states. induction peers; intros i states; cbn [online_states_task]; tidying. Qed.
Hint Resolve tidy_hole_sent tidy_local_addr tidy_relay_response tidy_tcp_punch tidy_request_relay tidy_online : srv.

Lemma linked_try_acquire : linked (D := D) sink addr try_acquire_proxy.
Proof. intros s. apply wp_state. destruct (_ <=? _); by apply links_same. Qed.
Lemma tidy_proxy_upstream rs api a req : tidy_task (proxy_upstream_task rs api a req).
Proof.
  unfold proxy_upstream_task, release_proxy. cbn zeta. apply tidy_bind; [|tidying].
  apply tidy_linked, linked_try_acquire.
Qed.
Lemma tidy_keepalive s : tidy_task (sect (start_health_check_keepalive s)).
Proof.
  split; [|done]. intros s0. unfold start_health_check_keepalive. destruct s; [apply wp_modify|apply wp_ret]; by left.
Qed.
Lemma tidy_cache_sink : tidy_task (cache_sink_task addr sink).
Proof.
  unfold cache_sink_task. destruct sink as [c|]; [|done]. split; [|done]. intros s. apply wp_modify.
  intros a c'. simpl. intros [[<- <-]|[_ ?]]%lookup_insert_Some; [by right|by left].
Qed.
Hint Resolve tidy_proxy_upstream tidy_keepalive tidy_cache_sink : srv.
Lemma tidy_tcp_msg rs api msg started a key ws :
  a = addr → tidy_task (handle_tcp_msg_task rs api msg sink started a key ws).
Proof.
  intros ->. unfold handle_tcp_msg_task, handle_register_peer_task, handle_register_pk_task, handle_http_proxy_task,
    handle_test_nat_request_task, handle_online_query_task, handle_health_check_task, build_online_response_task.
  cbn zeta. destruct msg as [[]|]; tidying.
Qed.
Lemma tidy_udp msg a : tidy_task (handle_udp_task msg a).
Proof. unfold handle_udp_task. destruct msg as [[]|]; tidying. Qed.
Lemma tidy_cleanup : tidy_task cleanup_task.
Proof.
  unfold cleanup_task. tidying;
    (apply tidy_linked; intros s; apply wp_state; by apply links_same).
Qed.
End TidyTasks.
#[export] Hint Resolve tidy_online : srv.

(** ** The invariant of the hub *)

(** A task of a connection holds its permit and, while it serves, the entry of
    its sink. *)
Abbreviation Held := (Bag (option (ChanId * SocketAddr))).
Abbreviation HubShare := (Share * Held)%type.

Section HubInvariant.
Context {D : Type} `{!PeerStore D} `{X : !Externals}.
Context (i : Inner) (max_connections : Z).
Implicit Types h : Hub D.

Record hub_wf (g : HubShare) (ns : Names) (h : Hub D) : Prop := {
  hw_server : tasks_wf i g.1 ns (hb_server h);
  hw_slots : 0 ≤ hb_slots h;
  hw_permits : hb_slots h + len (bag_list g.2) = max_connections;
  hw_sinks : ∀ a c, sv_tcp_punch (hb_server h) !! a = Some c → Some (c, a) ∈ bag_list g.2
}.

Definition hub_advances (x y : Names * Hub D) : Prop := advances i (x.1, hb_server x.2) (y.1, hb_server y.2).

#[export] Instance hub_advances_preorder : PreOrder hub_advances.
Proof. split; [by intros x; unfold hub_advances|]. intros x y z ??. unfold hub_advances in *. by etrans. Qed.
#[export] Instance hub_wf_proper : Proper ((≡) ==> (=) ==> (=) ==> iff) hub_wf.
Proof.
  assert (∀ g g' ns h, g ≡ g' → hub_wf g ns h → hub_wf g' ns h) as Himp.
  { intros [g1 [b]] [g1' [b']] ns h [H1 H2] [W1 W2 W3 W4]. unfold equiv, bag_equiv in H2. simpl in *.
    split; simpl; [by rewrite <-H1|done| |]; [unfold len in *; by rewrite <-H2|].
    intros a c. rewrite <-H2. apply W4. }
  intros g g' Hg ns ? <- h ? <-. split; apply Himp; [done|by symmetry].
Qed.

Abbreviation hok := (task_ok hub_wf hub_advances).

(** A program of the server on the hub, by a task that holds [b]. *)
Lemma hok_on_server {A} (p : Prog (Server D) A) sink addr Q g b ns h :
  tidy sink addr p → (∀ c, sink = Some c → Some (c, try_into_v4 addr) ∈ bag_list b) →
  task_ok (tasks_wf i) (advances i) p (λ r g' ns' s', ∀ h', hb_server h' = s' → Q r (g', b) ns' h') g ns (hb_server h) →
  hok (on_server p) Q (g, b) ns h.
Proof.
  intros Htidy Hown. revert g ns h. induction p as [r|X0 m k IH]; intros g ns h Hp.
  - simpl in *. intros ns' h' Hadv. by apply (Hp ns' (hb_server h')).
  - destruct Htidy as [Hm Hk]. intros [f1 f2] ns1 h1 Hadv Hwf. destruct Hwf as [W1 W2 W3 W4].
    specialize (Hp f1 ns1 (hb_server h1) Hadv W1). specialize (Hm (hb_server h1)).
    unfold on_hub, wp, zoom in *. destruct (m (hb_server h1)) as [r s']. simpl in Hm, Hp |- *.
    destruct Hp as (g' & ns' & Hadv' & Hwf' & Hrest).
    exists (g', b), ns'. split_and!; [done| |by apply IH].
    split; simpl in *; [done..|]. intros a c Ha. destruct (Hm a c Ha) as [Hold|[-> ->]]; [by apply W4|].
    apply elem_of_app. left. by apply Hown.
Qed.

(** Programs that end holding what they started with. *)
Definition calm {A} (b : Held) (p : Prog (Hub D) A) : Prop :=
  ∀ Q ns h, (∀ r ns' h', hub_advances (ns, h) (ns', h') → Q r (share_none, b) ns' h') → hok p Q (share_none, b) ns h.

Lemma calm_ret {A} b (a : A) : calm b (mret a).
Proof. intros Q ns h HQ. apply task_ret. intros ns' h' Hadv. by apply HQ. Qed.
Lemma calm_lift {A} b (r : result A) : calm b (lift_prog r).
Proof. intros Q ns h HQ. cbn. intros ns' h' Hadv. by apply HQ. Qed.
Lemma calm_fail {A} b e : calm (A := A) b (fail_prog e).
Proof. intros Q ns h HQ. cbn. intros ns' h' Hadv. by apply HQ. Qed.
Lemma calm_bind {A B} b (p : Prog (Hub D) A) (f : A → Prog (Hub D) B) :
  calm b p → (∀ a, calm b (f a)) → calm b (p ≫= f).
Proof.
  intros Hp Hf Q ns h HQ. apply (task_bind hub_wf hub_advances). apply Hp. intros [a|e] ns' h' Hadv; [|by apply HQ].
  apply Hf. intros r ns2 h2 Hadv2. apply HQ. by etrans.
Qed.
Lemma calm_try {A} b (p : Prog (Hub D) A) : calm b p → calm b (try_prog p).
Proof. intros Hp Q ns h HQ. apply task_try. apply Hp. intros r ns' h' Hadv. by apply HQ. Qed.
Lemma calm_on_server {A} (p : Prog (Server D) A) sink addr b :
  fine i p → tidy sink addr p → (∀ c, sink = Some c → Some (c, try_into_v4 addr) ∈ bag_list b) → calm b (on_server p).
Proof.
  intros Hfine Htidy Hown Q ns h HQ. apply (hok_on_server p sink addr); [done..|].
  apply Hfine; [done|]. intros r ns' s' Hadv _ h' <-. by apply HQ.
Qed.
End HubInvariant.

(** ** The tasks keep it *)

Section TasksSafe.
Context {D : Type} `{!PeerStore D} `{X : !Externals} `{L : !ExternalLaws X} `{R : !Entropy} `{H : !HttpLibrary}
  `{O : !HashOrder} `{B : !BoxLibrary} `{F : !FramedLibrary} `{E : !EncryptLibrary} `{W : !WireFormat}.
Context (i : Inner) (max_connections : Z) (key : string) (sk : bytes).
Implicit Types h : Hub D.

Abbreviation hok := (task_ok (hub_wf i max_connections) (hub_advances i)).
Abbreviation calm := (calm i max_connections).
(** What a serving connection holds, and what it holds before and after. *)
Abbreviation serving_share c addr := (mkBag [Some (c, try_into_v4 addr)]).
Abbreviation permit_share := (mkBag [None]).

Lemma calm_own {A} (p : Prog (Server D) A) c addr :
  fine i p → tidy (Some c) addr p → calm (serving_share c addr) (on_server p).
Proof. intros Hf Ht. apply (calm_on_server i max_connections p (Some c) addr); [done..|]. intros c' [= ->]. by left. Qed.
Lemma calm_plain {A} (p : Prog (Server D) A) b :
  fine i p → tidy None (SockV4 UNSPECIFIED_V4 0) p → calm b (on_server p).
Proof. intros Hf Ht. by apply (calm_on_server i max_connections p None (SockV4 UNSPECIFIED_V4 0)). Qed.

Lemma calm_msg rs addr c ws started api msg :
  inner rs = i → calm (serving_share c addr) (tcp_msg_task key rs addr c ws started api msg).
Proof.
  intros Hi. unfold tcp_msg_task. apply calm_bind; [|intros; apply calm_ret].
  apply calm_try, calm_own; [by apply fine_tcp_msg|by apply tidy_tcp_msg].
Qed.
Lemma calm_next b c : calm b (on_server (sect (next_message c))).
Proof. apply calm_plain; [apply fine_next_message|apply tidy_linked, linked_next]. Qed.
Lemma calm_drop b c : calm b (on_server (sect (drop_receiver c))).
Proof. apply calm_plain; [apply fine_drop_receiver|apply tidy_linked, linked_drop]. Qed.

Lemma calm_tcp_loop rs addr c started inputs :
  inner rs = i → calm (serving_share c addr) (tcp_loop key rs addr c started inputs).
Proof.
  intros Hi. revert started. induction inputs as [|[api next|sent] inputs IH]; intros started; cbn [tcp_loop].
  - apply calm_ret.
  - destruct next as [[[[b|e]|r]|]|]; try apply calm_ret. destruct (parse_from_bytes b); [|apply calm_ret].
    apply calm_bind; [by apply calm_msg|]. intros [[] st]; [apply IH|apply calm_ret].
  - apply calm_bind; [apply calm_next|]. intros [msg|]; [destruct sent; [apply IH|apply calm_ret]|apply IH].
Qed.
Lemma calm_ws_loop rs addr c dec_in started inputs :
  inner rs = i → calm (serving_share c addr) (ws_loop key rs addr c dec_in started inputs).
Proof.
  intros Hi. revert dec_in started. induction inputs as [|[api next|sent] inputs IH]; intros dec_in started; cbn [ws_loop].
  - apply calm_ret.
  - destruct next as [[[r|[[b| |]|e]]|]|]; try apply calm_ret; [|apply IH].
    destruct (dec b dec_in) as [[plain|] dec_in']; [|apply calm_ret].
    destruct (is_empty plain); [apply IH|]. destruct (parse_from_bytes plain); [|apply calm_ret].
    apply calm_bind; [by apply calm_msg|]. intros [[] st]; [apply IH|apply calm_ret].
  - apply IH.
Qed.
Lemma calm_forward c enc_out sends : calm share_none (forward_task (D := D) c enc_out sends).
Proof.
  revert enc_out. induction sends as [|sent sends IH]; intros enc_out; cbn [forward_task]; [apply calm_ret|].
  apply calm_bind; [apply calm_next|]. intros [msg|]; [|apply IH]. destruct (write_to_bytes msg); [|apply IH].
  destruct (enc _ enc_out) as [[]]; [|apply calm_drop]. destruct sent; [apply IH|apply calm_drop].
Qed.

(** One section of the server, as a step of the invariant. *)
Lemma fine_section {A} (m : M (Server D) A) g ns s :
  fine i (sect m) → tasks_wf i g ns s →
  wp m (λ _ s', ∃ ns', advances i (ns, s) (ns', s') ∧ tasks_wf i g ns' s') s.
Proof.
  intros Hfine Hwf.
  assert (task_ok (tasks_wf i) (advances i) (sect m) (λ _ g' _ _, g' = share_none) share_none ns s) as Hm.
  { by apply Hfine. }
  pose proof (Hm g ns s (reflexivity _) ltac:(by rewrite share_left)) as Hok.
  eapply wp_mono; [|exact Hok]. intros r s' (g' & ns' & Hadv & Hwf' & Hend). exists ns'. split; [done|].
  rewrite (Hend ns' s' (reflexivity _)) in Hwf'. by rewrite share_left in Hwf'.
Qed.

Lemma hub_same ns h h' : hb_server h' = hb_server h → hub_advances i (ns, h) (ns, h').
Proof. intros Heq. unfold hub_advances. simpl. by rewrite Heq. Qed.

Lemma ok_acquire Q ns h :
  (∀ ns' h', hub_advances i (ns, h) (ns', h') → Q (Ok true) (share_none, permit_share) ns' h') →
  (∀ ns' h', hub_advances i (ns, h) (ns', h') → Q (Ok false) share_none ns' h') →
  hok (sect try_acquire_connection) Q share_none ns h.
Proof.
  intros Htrue Hfalse. apply task_sect. intros [f1 [f2]] ns1 h1 Hadv [W1 W2 W3 W4]. unfold try_acquire_connection.
  apply wp_state. destruct (hb_slots h1 <=? 0) eqn:Hslots.
  - exists share_none, ns1. split_and!; [done|by split|]. intros ns' h' Hadv'. apply Hfalse. by etrans.
  - exists (share_none, permit_share), ns1. reflect_bools. split_and!; [by apply hub_same| |].
    + split; simpl in *; [done|lia| |].
      * unfold len in *. simpl. lia.
      * intros a c Ha. right. by apply W4.
    + intros ns' h' Hadv'. apply Htrue. by etrans.
Qed.
Lemma ok_release Q ns h :
  (∀ r ns' h', hub_advances i (ns, h) (ns', h') → Q r share_none ns' h') →
  hok (sect release_connection) Q (share_none, permit_share) ns h.
Proof.
  intros HQ. apply task_sect. intros [f1 [f2]] ns1 h1 Hadv [W1 W2 W3 W4]. apply wp_modify.
  exists share_none, ns1. split_and!; [by apply hub_same| |].
  - split; simpl in *; [done|lia| |].
    + unfold len in *. simpl in W3. lia.
    + intros a c Ha. specialize (W4 a c Ha). by apply elem_of_cons in W4 as [?|?].
  - intros ns' h' Hadv'. apply HQ. by etrans.
Qed.

(** A section that exchanges what the task holds for [b']. *)
Lemma ok_exchange {A C} (m : M (Server D) A) (k : result A → Prog (Server D) C) b b' Q ns h :
  fine i (sect m) →
  (∀ s, wp m (λ r s', len (bag_list (b' r)) = len (bag_list b) ∧
     ∀ a c, sv_tcp_punch s' !! a = Some c → Some (c, a) ∈ bag_list (b' r) ∨
       sv_tcp_punch s !! a = Some c ∧ (Some (c, a) ∈ bag_list b → Some (c, a) ∈ bag_list (b' r))) s) →
  (∀ r ns' h', hub_advances i (ns, h) (ns', h') → (∃ s s', m s = (r, s')) → hok (on_server (k r)) Q (share_none, b' r) ns' h') →
  hok (on_server (Sect m k)) Q (share_none, b) ns h.
Proof.
  intros Hfine Hm Hk [f1 [f2]] ns1 h1 Hadv [W1 W2 W3 W4].
  pose proof (fine_section m _ ns1 (hb_server h1) Hfine W1) as Hsec. specialize (Hm (hb_server h1)).
  unfold on_hub, wp, zoom in *. destruct (m (hb_server h1)) as [r s'] eqn:Hrun. simpl in *.
  destruct Hsec as (ns' & Hadv' & Hwf'). destruct Hm as [Hlen Hsinks].
  exists (share_none, b' r), ns'. split_and!; [done| |].
  - split; simpl in *; [done..| |].
    + unfold len in *. rewrite length_app in *. lia.
    + intros a c Ha. apply elem_of_app. destruct (Hsinks a c Ha) as [?|[Hold Hkept]]; [by left|].
      specialize (W4 a c Hold). apply elem_of_app in W4 as [?|?]; [left; by apply Hkept|by right].
  - apply Hk; [|by eexists _, _]. etrans; [exact Hadv|]. exact Hadv'.
Qed.

Lemma ok_open addr Q ns h :
  (∀ c ns' h', hub_advances i (ns, h) (ns', h') → Q (Ok c) (share_none, serving_share c addr) ns' h') →
  hok (on_server (open_task addr)) Q (share_none, permit_share) ns h.
Proof.
  intros HQ. apply (ok_exchange new_channel _ _ (λ r, match r with Ok c => serving_share c addr | Err _ => permit_share end));
    [apply fine_new_channel| |].
  - intros s. split; [done|]. intros a c Hc. right. split; [done|]. by intros ?%list_elem_of_singleton.
  - intros r ns1 h1 Hadv1 (s & s' & Hr). unfold new_channel in Hr. injection Hr as <- _. set (c := fresh _).
    apply (ok_exchange (modify (λ s, set_tcp_punch (<[try_into_v4 addr := c]> (sv_tcp_punch s)) s)) _ _
      (λ _, serving_share c addr)); [apply fine_set_tcp_punch| |].
    + intros s0. apply wp_modify. split; [done|]. simpl.
      intros a c' [[<- <-]|[_ ?]]%lookup_insert_Some; [left; by left|by right].
    + intros r ns2 h2 Hadv2 (s0 & s0' & Hr). unfold modify in Hr. injection Hr as <- _.
      intros ns3 h3 Hadv3. apply HQ. etrans; [done|]. by etrans.
Qed.

Lemma ok_close c addr Q ns h :
  (∀ r ns' h', hub_advances i (ns, h) (ns', h') → Q r (share_none, permit_share) ns' h') →
  hok (on_server (close_task c addr)) Q (share_none, serving_share c addr) ns h.
Proof.
  intros HQ. apply (ok_exchange (forget_own_sink c addr) _ _ (λ _, permit_share)); [apply fine_forget_own_sink| |].
  - intros s. apply wp_modify. split; [done|]. cbn zeta. intros a c' Ha. right. case_bool_decide as Hown; simpl in Ha.
    + apply lookup_delete_Some in Ha as [Hne Ha]. split; [done|]. intros [= -> ->]%list_elem_of_singleton. done.
    + split; [done|]. by intros [= -> ->]%list_elem_of_singleton.
  - intros r ns1 h1 Hadv1 (s & s' & Hr). unfold forget_own_sink, modify in Hr. injection Hr as <- _.
    apply calm_drop. intros r ns2 h2 Hadv2. apply HQ. by etrans.
Qed.
End TasksSafe.

(** ** The pool of the front *)

Section FrontPool.
Context {D : Type} `{!PeerStore D} `{X : !Externals} `{L : !ExternalLaws X} `{R : !Entropy} `{H : !HttpLibrary}
  `{O : !HashOrder} `{B : !BoxLibrary} `{F : !FramedLibrary} `{E : !EncryptLibrary} `{W : !WireFormat}.
Context (i : Inner) (max_connections : Z) (key : string) (sk : bytes).
Implicit Types h : Hub D.

Abbreviation hok := (task_ok (hub_wf i max_connections) (hub_advances i)).
Abbreviation calm := (calm i max_connections).

(** What the front spawns: connections on the three ports, the writing half of
    a WebSocket, keep-alives; and what its loop does itself. *)
Inductive front_task : Prog (Hub D) unit → Prop :=
  | ft_connection rs addr ws sc : inner rs = i → front_task (handle_listener_task key sk rs addr ws sc)
  | ft_nat addr sc next : front_task (nat_test_task sk addr sc next)
  | ft_forward c k sends : front_task (forward_task c (Encrypt_new k) sends)
  | ft_keepalive c : front_task (on_server (whole (sect (keepalive_tick c))))
  | ft_datagram msg addr : front_task (on_server (whole (handle_udp_task msg addr)))
  | ft_cleanup : front_task (on_server (whole cleanup_task)).

(** Time, handles and locks on peers, and the commands of the console. *)
Inductive front_env : Hub D → Hub D → Prop :=
  | fe_server s s' n : surroundings s s' → front_env (mkHub s n) (mkHub s' n).

Abbreviation front_steps := (rtc (pool_step front_task front_env)).

(** Nobody is connected. *)
Definition idle (h : Hub D) : Prop :=
  quiet i (hb_server h) ∧ 0 ≤ max_connections ∧ hb_slots h = max_connections ∧ sv_tcp_punch (hb_server h) = ∅.

Lemma ok_inner rs addr ws sc Q ns h :
  inner rs = i →
  (∀ r ns' h', hub_advances i (ns, h) (ns', h') → Q r (share_none, mkBag [None]) ns' h') →
  hok (handle_listener_inner_task key sk rs addr ws sc) Q (share_none, mkBag [None]) ns h.
Proof.
  intros Hi HQ.
  assert (∀ (addr : SocketAddr) (loop : ChanId → Prog (Hub D) unit),
    (∀ c, calm (mkBag [Some (c, try_into_v4 addr)]) (loop c)) →
    hok (c ← on_server (open_task addr); try_prog (loop c);; on_server (close_task c addr)) Q (share_none, mkBag [None]) ns h)
    as Hserve.
  { intros a loop Hloop. apply (task_bind _ (hub_advances i)). apply ok_open. intros c ns1 h1 Hadv1.
    apply (task_bind _ (hub_advances i)). apply task_try, Hloop. intros r ns2 h2 Hadv2.
    apply ok_close. intros r' ns3 h3 Hadv3. apply HQ. etrans; [exact Hadv1|]. by etrans. }
  unfold handle_listener_inner_task. destruct ws.
  - destruct (sc_headers sc) as [headers|]; [|intros ns' h' Hadv; by apply HQ].
    cbn zeta. destruct (hs_key _) as [k|e]; [|intros ns' h' Hadv; by apply HQ].
    apply (Hserve _ (λ c, ws_loop key rs _ c (Encrypt_new k) false (sc_inputs sc))). intros c. by apply calm_ws_loop.
  - destruct (hs_key _) as [k|e]; [|intros ns' h' Hadv; by apply HQ].
    apply (Hserve _ (λ c, tcp_loop key rs addr c false (sc_inputs sc))). intros c. by apply calm_tcp_loop.
Qed.

(** A permit around whatever gives it back. *)
Lemma ok_with_permit (p : Prog (Hub D) unit) ns h :
  (∀ Q ns' h', (∀ r ns2 h2, hub_advances i (ns', h') (ns2, h2) → Q r (share_none, mkBag [None]) ns2 h2) →
     hok p Q (share_none, mkBag [None]) ns' h') →
  hok (permit ← sect try_acquire_connection; if negb permit then mret tt else try_prog p;; sect release_connection)
    gives_back share_none ns h.
Proof.
  intros Hp. apply (task_bind _ (hub_advances i)). apply ok_acquire; intros ns1 h1 _; cbn [negb]; [|by intros ns2 h2 _].
  apply (task_bind _ (hub_advances i)). apply task_try, Hp. intros r ns2 h2 _. by apply ok_release.
Qed.

Lemma calm_nat_answer addr msg b : calm b (nat_answer_task (D := D) addr msg).
Proof.
  unfold nat_answer_task. destruct msg as [[]|]; try apply calm_ret. destruct (_ && _); [|apply calm_ret].
  apply calm_bind; [|intros; apply calm_ret]. apply calm_plain.
  - unfold build_online_response_task. apply fine_bind; [apply fine_online|]. intros. apply fine_ret.
  - unfold build_online_response_task. tidying.
Qed.

Lemma calm_whole {A} (p : Prog (Server D) A) :
  fine i p → tidy None (SockV4 UNSPECIFIED_V4 0) p → calm share_none (on_server (whole p)).
Proof.
  intros Hf Ht. apply calm_plain; unfold whole.
  - apply fine_bind; [done|]. intros. apply fine_ret.
  - apply tidy_bind; [done|]. intros. apply tidy_ret.
Qed.

Lemma front_task_ok p : front_task p → ∀ ns h, hok p gives_back share_none ns h.
Proof.
  intros Hp ns h. destruct Hp as [rs addr ws sc Hi|addr sc next|c k sends|c|msg addr|].
  - apply ok_with_permit. intros Q ns' h' HQ. by apply ok_inner.
  - apply ok_with_permit. intros Q ns' h' HQ. apply calm_bind; [apply calm_lift| |done].
    intros k. destruct next as [[b|e]|]; try apply calm_ret. destruct (parse_from_bytes b); [|apply calm_ret].
    apply calm_nat_answer.
  - by apply calm_forward.
  - by apply calm_whole; [apply fine_try_send|apply tidy_linked, linked_try_send|].
  - by apply calm_whole; [apply fine_udp|apply tidy_udp|].
  - by apply calm_whole; [apply fine_cleanup|apply tidy_cleanup|].
Qed.

Lemma front_env_ok g ns h h' :
  hub_wf i max_connections g ns h → front_env h h' →
  ∃ ns', hub_advances i (ns, h) (ns', h') ∧ hub_wf i max_connections g ns' h'.
Proof.
  intros Hwf Hstep. inversion Hstep as [s s' n Henv]; subst. destruct Hwf as [W1 W2 W3 W4]. simpl in *. destruct (surroundings_ok i _ _ _ _ W1 Henv) as (ns' & Hadv & Hwf').
  exists ns'. split; [done|]. split; [done..|]. intros a c Ha. apply W4. simpl in Ha.
  destruct Henv as [| |O0 event_iso rs closed cmd s r s' Hcmd]; [done..|].
  by destruct (wp_run _ _ _ _ _ (tampers_check_cmd event_iso rs closed cmd s) Hcmd)
    as (? & ? & ? & ? & ? & _ & _ & _ & _ & ->).
Qed.

Lemma front_pool ts h ts' h' :
  Forall front_task ts → idle h → front_steps (ts, h) (ts', h') →
  ∃ ns', pool_ok (hub_wf i max_connections) (hub_advances i) ts' ns' h'.
Proof.
  intros Hts ((ns & Hq) & Hpos & Hslots & Hsinks) Hsteps.
  destruct (pool_ok_steps (hub_wf i max_connections) (hub_advances i) front_task front_env
    front_task_ok front_env_ok _ _ _ _ ns Hsteps) as (ns' & _ & Hok); [|by exists ns'].
  apply (pool_ok_fresh (hub_wf i max_connections) (hub_advances i) front_task front_task_ok); [done|].
  split; simpl; [done|lia|unfold len; simpl; lia|]. intros a c. by rewrite Hsinks, lookup_empty.
Qed.

(** Every cached sink is one of the held ones. *)
Lemma held_sinks_bounded (m : gmap SocketAddr ChanId) (l : list (option (ChanId * SocketAddr))) :
  (∀ a c, m !! a = Some c → Some (c, a) ∈ l) → mlen m ≤ len l.
Proof.
  intros Hm. unfold mlen, len. rewrite <-length_map_to_list. apply inj_le.
  rewrite <-(length_fmap (λ x : SocketAddr * ChanId, Some (x.2, x.1))).
  apply submseteq_length, NoDup_submseteq.
  - apply NoDup_fmap; [|apply NoDup_map_to_list]. intros [a c] [a' c'] [= -> ->]. done.
  - intros x ([a c] & -> & Hin)%list_elem_of_fmap. apply Hm. by apply elem_of_map_to_list in Hin.
Qed.
End FrontPool.

(** ** Theorems *)

(** C4: However the connections, the datagrams, the timer and the console's
    commands interleave, section by section: the peer cache, the pending answers,
    the upstream requests, the rate limits, the queues, the punch log and the two
    registration limiters (65536 addresses blocked; 100000 identifiers, each with
    512 addresses) keep their bounds, at most [max_connections] connections are
    open, the cached sinks are never more than the open connections, and when the
    last task has ended every permit is back, no sink is cached any more and no
    peer is left locked. *)
Theorem connections_leave_nothing_behind {D} `{!PeerStore D} `{X : !Externals} `{L : !ExternalLaws X}
    `{R : !Entropy} `{H : !HttpLibrary} `{O : !HashOrder} `{B : !BoxLibrary} `{F : !FramedLibrary}
    `{E : !EncryptLibrary} `{W : !WireFormat} i max_connections key sk ts ts' (h h' : Hub D) :
  Forall (front_task i key sk) ts → idle i max_connections h →
  rtc (pool_step (front_task i key sk) front_env) (ts, h) (ts', h') →
  within_bounds (hb_server h') ∧
  0 ≤ hb_slots h' ∧ mlen (sv_tcp_punch (hb_server h')) ≤ max_connections - hb_slots h' ∧
  (Forall finished ts' →
     at_rest (hb_server h') ∧ hb_slots h' = max_connections ∧ sv_tcp_punch (hb_server h') = ∅).
Proof.
  intros Hts Hidle Hsteps. destruct (front_pool i max_connections key sk _ _ _ _ Hts Hidle Hsteps) as (ns' & Hok).
  pose proof Hok as (gs & _ & [W1 W2 W3 W4]).
  split_and!; [by eapply tasks_wf_bounds|done|pose proof (held_sinks_bounded _ _ W4); lia|].
  intros Hfin. pose proof (pool_ok_finished _ _ _ _ _ Hok Hfin) as [V1 V2 V3 V4].
  split_and!; [apply (quiet_at_rest i); by exists ns'|unfold len in V3; simpl in V3; lia|].
  apply map_empty. intros a. apply eq_None_not_Some. intros [c Hc]. by apply V4, elem_of_nil in Hc.
Qed.

(** ** Concrete instances *)

(** A client that exchanges keys, asks, is answered, and falls silent. *)
Definition sample_script : Script := mkScript _ None ([1; 2], [1; 2]) true (Ok tt)
  (Some (Ok [3; 4; 3; 4; 1; 2; 5; 6; 7])) sample_stream []
  [Read (mkApi (sample_post 204) (λ _, Err "offline")) (Some (Some (FramedItem (Ok [9])))); Write true].
Definition client_task (addr : SocketAddr) : Prog (Hub SqlDb) unit :=
  handle_listener_task "key" [9] (mkRs [] [] [] (sample_inner true)) addr false sample_script.

Lemma connection_runs_as_events_witness :
  let fr := start_front (D := SqlDb) fresh_server sample_front_loop 64 in
  let fr' := front_run show 21117 "key" [9] (Accept controller_addr false :: connection_events 0 false sample_script) fr in
  (run (client_task controller_addr) (hub_of fr)).2 = hub_of fr' ∧ fr_conns fr' = ∅ ∧
  fr_sent fr' = [(0%N, SentKey (MKeyExchange [[9; 1; 2]])); (0%N, SentFrame true (MOnlineResponse [0]))].
Proof.
  cbn zeta. split; [|split; by vm_compute].
  exact (proj1 (connection_runs_as_events show 21117 "key" [9] controller_addr false sample_script
    (start_front (D := SqlDb) fresh_server sample_front_loop 64) (λ H, False_ind _ (diff_false_true H)) eq_refl)).
Defined.

(** Two clients, one section of each in turn. *)
Definition two_clients : list (Prog (Hub SqlDb) unit) := [client_task controller_addr; client_task sample_addr].
Definition sample_clients (n : nat) : list (Prog (Hub SqlDb) unit) * Hub SqlDb :=
  schedule (in_turn n) (two_clients, mkHub fresh_server 2).

Lemma two_clients_spawned : Forall (front_task (sample_inner true) "key" [9]) two_clients.
Proof. repeat constructor. Qed.
Lemma fresh_hub_idle : idle (sample_inner true) 2 (mkHub fresh_server 2).
Proof. split_and!; [apply fresh_server_quiet|done..]. Qed.
Lemma sample_clients_steps n :
  rtc (pool_step (front_task (sample_inner true) "key" [9]) front_env) (two_clients, mkHub fresh_server 2)
    ((sample_clients n).1, (sample_clients n).2).
Proof. apply schedule_reaches. Qed.

Lemma connections_leave_nothing_behind_witness :
  hb_slots (sample_clients 4).2 = 0 ∧ mlen (sv_tcp_punch (hb_server (sample_clients 4).2)) = 2 ∧
  2 ≤ 2 - hb_slots (sample_clients 4).2 ∧ sv_tcp_punch (hb_server (sample_clients 40).2) = ∅.
Proof.
  split; [by vm_compute|]. split; [by vm_compute|]. split.
  - exact (proj1 (proj2 (proj2 (connections_leave_nothing_behind (sample_inner true) 2 "key" [9] two_clients
      (sample_clients 4).1 (mkHub fresh_server 2) (sample_clients 4).2 two_clients_spawned fresh_hub_idle
      (sample_clients_steps 4))))).
  - apply (connections_leave_nothing_behind (sample_inner true) 2 "key" [9] two_clients
      (sample_clients 40).1 (mkHub fresh_server 2) (sample_clients 40).2 two_clients_spawned fresh_hub_idle
      (sample_clients_steps 40)).
    apply all_finished. by vm_compute.
Defined.
