(* ===== verification/IdentityStart.v ===== *)
(** The start of the identity server ([src/main.rs]; [start_with_bind] and
    [create_udp_listener] of [src/rendezvous_server.rs], [PeerMap::new] of
    [src/peer.rs], [Database::new] of [src/database.rs]).

    The start is a computation on the file system and the environment that ends in
    the initial state of [Connections], or in an error; then [serve_until] makes
    failed sockets anew until a signal arrives.  Binding a socket, SQLite,
    building the HTTP client, parsing a network and finding the local address are
    parameters. *)

From Stdlib Require Import Ascii String.
From S2P Require Import Prelude.
From S2P Require Import Text.
From S2P Require Import Net.
From S2P Require Import RateLimit.
From S2P Require Import Database.
From S2P Require Import PeerTable.
From S2P Require Import PeerCache.
From S2P Require Import Messages.
From S2P Require Import Externals.
From S2P Require Import Registration.
From S2P Require Import Pending.
From S2P Require Import HttpProxy.
From S2P Require Import Server.
From S2P Require Import FileSystem.
From S2P Require Import Config.
From S2P Require Import Listen.
From S2P Require Import KeyStore.
From S2P Require Import Handshake.
From S2P Require Import RelayCheck.
From S2P Require Import Console.
From S2P Require Import Connections.

(** ** Interfaces *)

(** The rest of the machine. *)
Class Machine (D : Type) := {
  #[global] machine_sqlite :: SqliteLibrary D;
  http_client : result unit;
  parse_network : string → option (Ipv4Addr → bool);
  local_ip_address : option string;
  boot_clock : Clock
}.

(** ** Data *)

Definition DEFAULT_MAX_RENDEZVOUS_CONNECTIONS : Z := 4096.

(** Where the server listens. *)
Record Listeners := mkListeners {
  udp : SocketAddr; main_listener : Bound; nat_test : Bound; websocket : Bound; console : option SocketAddr
}.

(** What [start_with_bind] has built before it enters the loop. *)
Record Identity (D : Type) := mkIdentity {
  ic_key : string;
  ic_sk : bytes;
  ic_server : Server D;
  ic_loop : Loop;
  ic_max_connections : Z;
  ic_listeners : Listeners
}.
Arguments mkIdentity {D}. Arguments ic_key {D}. Arguments ic_sk {D}. Arguments ic_server {D}.
Arguments ic_loop {D}. Arguments ic_max_connections {D}. Arguments ic_listeners {D}.

(** ** Operations *)

Section Start.
Context {D : Type} `{P : !Platform} `{K : !KeyLibrary} `{I : !IniLibrary} `{H : !HttpLibrary} `{N : !Sockets}
  `{Mc : !Machine D}.

(** *** Sockets *)

(** [port as u16]. *)
Definition as_u16 (port : Z) : Z := port mod 2 ^ 16.

Definition create_udp_listener (bind_addr : option IpAddr) (port rmem : Z) : result SocketAddr :=
  match bind_addr with
  | Some bind_addr =>
      let addr := socket_addr_new bind_addr (as_u16 port) in
      _ ← udp_bind addr rmem; Ok addr
  | None =>
      let addr := socket_addr_new (V6 UNSPECIFIED_V6) (as_u16 port) in
      if is_ok (udp_bind addr rmem) then Ok addr else
      let addr := socket_addr_new (V4 UNSPECIFIED_V4) (as_u16 port) in
      _ ← udp_bind addr rmem; Ok addr
  end.

Definition create_tcp_listener (bind_addr : option IpAddr) (port : Z) : result Bound :=
  listen_tcp bind_addr (as_u16 port).

Definition open_listeners (bind_addr : option IpAddr) (port : Z) (socket : SocketAddr)
    (runtime_console : bool) : result Listeners :=
  m ← create_tcp_listener bind_addr port;
  n ← create_tcp_listener bind_addr (port - 1);
  w ← create_tcp_listener bind_addr (port + 2);
  c ← (if runtime_console then listen_console bind_addr (as_u16 (port - 1)) else Ok None);
  Ok (mkListeners socket m n w c).

(** [main_task]: the loop ended because of one socket, which is made anew. *)
Inductive LoopFailure := UdpSocket | Listener3 | Listener2 | Listener | ConsoleListener.
Definition recover (bind_addr : option IpAddr) (port rmem : Z) (runtime_console : bool)
    (f : LoopFailure) (l : Listeners) : result Listeners :=
  match f with
  | UdpSocket =>
      s ← create_udp_listener bind_addr port rmem;
      Ok (mkListeners s (main_listener l) (nat_test l) (websocket l) (console l))
  | Listener =>
      m ← create_tcp_listener bind_addr port;
      Ok (mkListeners (udp l) m (nat_test l) (websocket l) (console l))
  | Listener2 =>
      n ← create_tcp_listener bind_addr (port - 1);
      Ok (mkListeners (udp l) (main_listener l) n (websocket l) (console l))
  | ConsoleListener =>
      c ← (if runtime_console then listen_console bind_addr (as_u16 (port - 1)) else Ok None);
      Ok (mkListeners (udp l) (main_listener l) (nat_test l) (websocket l) c)
  | Listener3 =>
      w ← create_tcp_listener bind_addr (port + 2);
      Ok (mkListeners (udp l) (main_listener l) (nat_test l) w (console l))
  end.

(** *** The database and the peer map *)

Definition database_new (url : string) (e : Env) : result D :=
  n ← get_bounded_usize_arg "MAX_DATABASE_CONNECTIONS" 1 1 32 e;
  open_database url n.

Definition peer_map_new (e : Env) : result (PeerMap D) :=
  let db := match get_arg_opt "DB_URL" e with Some v => v | None => "./camellia-remote.sqlite3" end in
  max ← get_bounded_usize_arg "MAX_CACHED_PEERS" DEFAULT_MAX_CACHED_PEERS 1024 1000000 e;
  d ← database_new db e;
  Ok (mkPeerMap boot_clock ∅ ∅ d max ∅ ∅).

(** *** Settings *)

(** The credential of the management service is a secret of reasonable length. *)
Definition credential_ok (token : string) : bool :=
  negb ((slen token <? 32) || (512 <? slen token) || has_whitespace token || has_control token).

Definition parse_mask (e : Env) : result (option (Ipv4Addr → bool)) :=
  match not_blank (get_arg_opt "mask" e) with
  | Some value => network ← ok_or (parse_network value) ("Invalid mask: " +:+ value); Ok (Some network)
  | None => Ok None
  end.

Definition api_server_setting (port : Z) (e : Env) : string :=
  get_arg_or "api-server"
    (match env_var "CAMELLIA_REMOTE_API_SERVER" e with
     | Some v => v
     | None => "http://127.0.0.1:" +:+ show (port - 2)
     end) e.

Definition local_ip_setting (mask : option (Ipv4Addr → bool)) (e : Env) : string :=
  match mask with
  | None => ""
  | Some _ => get_arg_or "local-ip" (default "" local_ip_address) e
  end.

(** [start_with_bind] up to the loop, in its order. *)
Definition start_with_bind (fuel : nat) (bind_addr : option IpAddr) (port serial : Z) (key : string) (rmem : Z)
    : M Process (Identity D) :=
  keys ← on_sys (rendezvous_server_sk fuel key);
  e ← gets pr_env;
  pm ← lift (peer_map_new e);
  rendezvous_servers ← lift (get_servers (get_arg "rendezvous-servers" e) "rendezvous-servers");
  socket ← lift (create_udp_listener bind_addr port rmem);
  max_connections ← lift (get_bounded_usize_arg "MAX_RENDEZVOUS_CONNECTIONS"
                            DEFAULT_MAX_RENDEZVOUS_CONNECTIONS 64 65536 e);
  let api_server := api_server_setting port e in
  lift (validate_api_server api_server);;
  allow_unmanaged_devices ← lift (get_yes_no_arg "ALLOW_UNMANAGED_DEVICES" false e);
  token ← device_verification_token;
  if negb allow_unmanaged_devices && negb (credential_ok token)
  then bail "CAMELLIA_REMOTE_DEVICE_VERIFICATION_TOKEN must be a 32-512 character secret unless CAMELLIA_REMOTE_ALLOW_UNMANAGED_DEVICES=Y"
  else
  lift http_client;;
  trust_proxy_headers ← lift (get_yes_no_arg "trust-proxy-headers" false e);
  runtime_console ← lift (get_yes_no_arg "ENABLE_RUNTIME_CONSOLE" false e);
  mask ← lift (parse_mask e);
  let inner := mkInner serial api_server trust_proxy_headers mask (local_ip_setting mask e)
                 runtime_console allow_unmanaged_devices token in
  lp ← lift (start_loop (get_arg "relay-servers" e) (mkRs [] [] rendezvous_servers inner));
  listeners ← lift (open_listeners bind_addr port socket runtime_console);
  always_use_relay ← lift (get_yes_no_arg "ALWAYS_USE_RELAY" false e);
  mret (mkIdentity keys.1 keys.2
          (mkServer (mkRegState pm (mkTransient ∅ ∅)) ∅ 0 ∅ ∅ [] 0 always_use_relay ∅
             HTTP_PROXY_MAX_CONCURRENCY [])
          lp max_connections listeners).

(** [main] of [src/main.rs]. *)
Definition identity_main (fuel : nat) (rendezvous_port : Z) (m : Matches) : M Process (Identity D) :=
  init_args m;;
  e ← gets pr_env;
  port ← lift (identity_port rendezvous_port e);
  bind_addr ← lift (parse_bind_address (get_arg "bind" e));
  rmem ← lift (identity_rmem e);
  start_with_bind fuel bind_addr port 0 (get_arg_or "key" "-" e) rmem.
End Start.

(** *** After the start *)

(** The loop ends with the failure of a socket (binding may succeed or fail
    differently at every attempt), or a signal arrives. *)
Inductive MainEvent :=
  | LoopEnds (f : LoopFailure) (N : Sockets)
  | SignalArrives (s : Signal).

(** [main_task] and [listen_signal], whichever ends first: the listeners, or how
    the server ended. *)
Fixpoint serve_until (bind_addr : option IpAddr) (port rmem : Z) (runtime_console : bool)
    (es : list MainEvent) (l : Listeners) : Listeners + result unit :=
  match es with
  | [] => inl l
  | LoopEnds f N :: es =>
      match recover bind_addr port rmem runtime_console f l with
      | Ok l => serve_until bind_addr port rmem runtime_console es l
      | Err e => inr (Err e)
      end
  | SignalArrives s :: es =>
      match listen_signal s with
      | Some res => inr res
      | None => serve_until bind_addr port rmem runtime_console es l
      end
  end.

(** ** Theorems *)

(** The listeners of a configuration. *)
Definition bound_on (bind_addr : option IpAddr) (port : Z) : Bound :=
  match bind_addr with Some a => BoundTo (socket_addr_new a (as_u16 port)) | None => BoundAny (as_u16 port) end.
Record listening (bind_addr : option IpAddr) (port : Z) (runtime_console : bool) (l : Listeners) : Prop := {
  li_udp : sa_port (udp l) = as_u16 port ∧
    match bind_addr with
    | Some a => udp l = socket_addr_new a (as_u16 port)
    | None => udp l = socket_addr_new (V6 UNSPECIFIED_V6) (as_u16 port) ∨
              udp l = socket_addr_new (V4 UNSPECIFIED_V4) (as_u16 port)
    end;
  li_main : main_listener l = bound_on bind_addr port;
  li_nat : nat_test l = bound_on bind_addr (port - 1);
  li_ws : websocket l = bound_on bind_addr (port + 2);
  li_console : console l = if runtime_console then console_addr bind_addr (as_u16 (port - 1)) else None
}.

Section Listening.
Context (bind_addr : option IpAddr) (port rmem : Z) (runtime_console : bool).

Lemma tcp_listener_bound `{N : !Sockets} p b : create_tcp_listener bind_addr p = Ok b → b = bound_on bind_addr p.
Proof.
  unfold create_tcp_listener, listen_tcp, bound_on. destruct bind_addr as [a|]; by intros ([] & _ & [= <-])%result_bind_ok.
Qed.
Lemma console_bound `{N : !Sockets} c :
  (if runtime_console then listen_console bind_addr (as_u16 (port - 1)) else Ok None) = Ok c →
  c = if runtime_console then console_addr bind_addr (as_u16 (port - 1)) else None.
Proof.
  destruct runtime_console; [|by intros [= <-]]. unfold listen_console.
  destruct (console_addr _ _); [by intros ([] & _ & [= <-])%result_bind_ok|by intros [= <-]].
Qed.
Lemma udp_listener_bound `{N : !Sockets} s :
  create_udp_listener bind_addr port rmem = Ok s →
  sa_port s = as_u16 port ∧
  match bind_addr with
  | Some a => s = socket_addr_new a (as_u16 port)
  | None => s = socket_addr_new (V6 UNSPECIFIED_V6) (as_u16 port) ∨ s = socket_addr_new (V4 UNSPECIFIED_V4) (as_u16 port)
  end.
Proof.
  unfold create_udp_listener. destruct bind_addr as [a|].
  - intros ([] & _ & [= <-])%result_bind_ok. split; [apply sa_port_new|done].
  - cbn zeta. destruct (is_ok _); [intros [= <-]|intros ([] & _ & [= <-])%result_bind_ok]; auto using sa_port_new.
Qed.

Lemma opened_listening `{N : !Sockets} socket l :
  create_udp_listener bind_addr port rmem = Ok socket →
  open_listeners bind_addr port socket runtime_console = Ok l → listening bind_addr port runtime_console l.
Proof.
  intros Hudp%udp_listener_bound (m & Hm%tcp_listener_bound & (n & Hn%tcp_listener_bound &
    (w & Hw%tcp_listener_bound & (c & Hc%console_bound & [= <-])%result_bind_ok)%result_bind_ok)%result_bind_ok)%result_bind_ok.
  by split.
Qed.
Lemma recovered_listening `{N : !Sockets} f l l' :
  recover bind_addr port rmem runtime_console f l = Ok l' →
  listening bind_addr port runtime_console l → listening bind_addr port runtime_console l'.
Proof.
  intros Hrec [L1 L2 L3 L4 L5].
  destruct f; apply result_bind_ok in Hrec as (x & Hx & [= <-]); split; simpl; try done;
    (by apply udp_listener_bound in Hx) || (by apply tcp_listener_bound in Hx) || (by apply console_bound in Hx).
Qed.

(** How the server stands after the events [es]. *)
Definition stands (es : list MainEvent) (x : Listeners + result unit) : Prop :=
  match x with
  | inl l => listening bind_addr port runtime_console l
  | inr (Ok _) => ∃ s, SignalArrives s ∈ es ∧ listen_signal s = Some (Ok tt)
  | inr (Err e) => ∃ f N l, LoopEnds f N ∈ es ∧ listening bind_addr port runtime_console l ∧
      recover bind_addr port rmem runtime_console f l = Err e
  end.

Lemma stands_later e es x : stands es x → stands (e :: es) x.
Proof.
  destruct x as [l|[u|err]]; [done|..].
  - intros (s & ? & ?). exists s. split; [by right|done].
  - intros (f & N & l & ? & ?). exists f, N, l. split; [by right|done].
Qed.

(** A server that runs listens where its configuration says, however often its
    sockets fail and are made anew; it ends without an error only by one of the
    three signals, and with one only when a socket could not be made anew. *)
Theorem server_listens_until_signalled es l :
  listening bind_addr port runtime_console l → stands es (serve_until bind_addr port rmem runtime_console es l).
Proof.
  revert l. induction es as [|[f N|s] es IH]; intros l Hl; simpl; [done|..].
  - destruct (recover _ _ _ _ f l) as [l'|e] eqn:Hrec.
    + apply stands_later, IH. by eapply recovered_listening.
    + exists f, N, l. split; [by left|done].
  - destruct s; simpl; try (eexists; split; [by left|done]). by apply stands_later, IH.
Qed.
End Listening.

(** A database this server has written: identifiers are unique, rows complete. *)
Class MachineLaws `{!PeerStore D} (Mc : Machine D) : Prop := {
  opened_ok : ∀ url n d, open_database url n = Ok d → ps_ok d;
  opened_rows : ∀ url n d id v, open_database url n = Ok d → ps_row d id = Some v → db_guid v ≠ [] ∧ db_uuid v ≠ []
}.

(** What a started server guarantees. *)
Record identity_ok `{!PeerStore D} `{X : !Externals} `{H : !HttpLibrary} (x : Identity D) : Prop := {
  io_fresh : fresh_start (inner (lp_rs (ic_loop x))) (ic_server x) (ic_loop x) (ic_max_connections x);
  io_max : 64 ≤ ic_max_connections x ≤ 65536;
  io_cache : 1024 ≤ max_cached_peers (rs_pm (sv_reg (ic_server x))) ≤ 1000000;
  io_managed : allow_unmanaged_devices (inner (lp_rs (ic_loop x))) = false →
    credential_ok (Registration.device_verification_token (inner (lp_rs (ic_loop x)))) = true;
  io_api : validate_api_server (api_server (inner (lp_rs (ic_loop x)))) = Ok tt;
  io_console : runtime_console (inner (lp_rs (ic_loop x))) = false → console (ic_listeners x) = None
}.

Section StartTheorems.
Context {D : Type} `{!PeerStore D} `{X : !Externals} `{P : !Platform} `{K : !KeyLibrary} `{I : !IniLibrary}
  `{H : !HttpLibrary} `{N : !Sockets} `{Mc : !Machine D} `{ML : !MachineLaws Mc}.

Lemma bounded_arg name dflt a b e n : get_bounded_usize_arg name dflt a b e = Ok n → a ≤ n ≤ b.
Proof.
  unfold get_bounded_usize_arg. intros (v & _ & E)%result_bind_ok. case_match; [done|].
  injection E as <-. reflect_bools. lia.
Qed.

Lemma peer_map_new_wf e pm :
  peer_map_new e = Ok pm → 1024 ≤ max_cached_peers pm ≤ 1000000 ∧
  ∀ i, reg_wf i (mkRegState pm (mkTransient ∅ ∅)) ∅.
Proof.
  unfold peer_map_new. intros (max & Hmax & (d & Hd & [= <-])%result_bind_ok)%result_bind_ok.
  apply bounded_arg in Hmax. split; [done|]. intros i.
  unfold database_new in Hd. apply result_bind_ok in Hd as (n & _ & Hd).
  split; simpl; try (intros *; by rewrite !lookup_empty).
  - split; simpl; [unfold mlen; rewrite map_size_empty; lia|..]; intros *; by rewrite !lookup_empty.
  - by eapply opened_ok.
  - intros id v Hv. by eapply opened_rows.
Qed.

Lemma open_listeners_console bind_addr port socket b l :
  open_listeners bind_addr port socket b = Ok l → b = false → console l = None.
Proof.
  intros (m & _ & (n & _ & (w & _ & (c & Hc & [= <-])%result_bind_ok)%result_bind_ok)%result_bind_ok)%result_bind_ok ->.
  by injection Hc as <-.
Qed.

Lemma start_loop_inner s rs lp : start_loop s rs = Ok lp → inner (lp_rs lp) = inner rs.
Proof.
  unfold start_loop, parse_relay_servers.
  intros (rs' & (l & _ & [= <-])%result_bind_ok & [= <-])%result_bind_ok. done.
Qed.

Lemma start_checked fuel bind_addr port serial key rmem st :
  succeeds (start_with_bind fuel bind_addr port serial key rmem) (λ x _, identity_ok x) st.
Proof.
  apply succeeds_bind, succeeds_on_sys. intros keys s1 _. apply succeeds_bind, wp_gets.
  apply succeeds_bind, succeeds_lift. intros pm Hpm. apply succeeds_bind, succeeds_lift. intros servers _.
  apply succeeds_bind, succeeds_lift. intros socket _. apply succeeds_bind, succeeds_lift. intros max Hmax.
  cbn zeta. apply succeeds_bind, succeeds_lift. intros [] Hapi.
  apply succeeds_bind, succeeds_lift. intros unmanaged _.
  apply succeeds_bind. eapply succeeds_mono; [|apply succeeds_any]. intros token st1 _. cbn beta.
  destruct (negb unmanaged && negb (credential_ok token)) eqn:Hcred; [by apply wp_bail|].
  apply succeeds_bind, succeeds_lift. intros [] _. apply succeeds_bind, succeeds_lift. intros trust _.
  apply succeeds_bind, succeeds_lift. intros con _. apply succeeds_bind, succeeds_lift. intros mask _.
  cbn zeta. apply succeeds_bind, succeeds_lift. intros lp Hlp. apply succeeds_bind, succeeds_lift. intros ls Hls.
  apply succeeds_bind, succeeds_lift. intros always _. apply wp_ret.
  apply start_loop_inner in Hlp. apply peer_map_new_wf in Hpm as [Hcache Hreg]. apply bounded_arg in Hmax.
  split; cbn [ic_loop ic_server ic_max_connections ic_listeners]; rewrite ?Hlp; simpl; try done.
  - split; simpl; first [done|lia].
  - intros ->. simpl in Hcred. by apply negb_false_iff in Hcred.
  - by eapply open_listeners_console.
Qed.

Lemma main_checked fuel rendezvous_port m st x st' :
  identity_main fuel rendezvous_port m st = (Ok x, st') → identity_ok x.
Proof.
  intros Hrun. assert (succeeds (identity_main fuel rendezvous_port m) (λ x _, identity_ok x) st) as Hs.
  { apply succeeds_bind. eapply succeeds_mono; [|apply succeeds_any]. intros _ st1 _.
    apply succeeds_bind, wp_gets. apply succeeds_bind, succeeds_lift. intros port _.
    apply succeeds_bind, succeeds_lift. intros bind_addr _. apply succeeds_bind, succeeds_lift. intros rmem _.
    apply start_checked. }
  unfold succeeds, wp in Hs. by rewrite Hrun in Hs.
Qed.

(** C30: The server refuses to start on settings it could not honour.  A start that
    succeeds has a connection limit between 64 and 65536 and a cache between 1024
    and a million peers, an API server that is valid, a credential of 32 to 512
    characters without white space unless unmanaged devices are allowed on purpose,
    and a console listener only if the console is enabled. *)
Theorem identity_start_is_checked fuel rendezvous_port m st x st' :
  identity_main fuel rendezvous_port m st = (Ok x, st') →
  let i := inner (lp_rs (ic_loop x)) in
  64 ≤ ic_max_connections x ≤ 65536 ∧
  1024 ≤ max_cached_peers (rs_pm (sv_reg (ic_server x))) ≤ 1000000 ∧
  validate_api_server (api_server i) = Ok tt ∧
  (allow_unmanaged_devices i = true ∨
   32 ≤ slen (Registration.device_verification_token i) ≤ 512 ∧
   has_whitespace (Registration.device_verification_token i) = false ∧
   has_control (Registration.device_verification_token i) = false) ∧
  (runtime_console i = true ∨ console (ic_listeners x) = None).
Proof.
  intros [I1 I2 I3 I4 I5 I6]%main_checked. cbn zeta. split_and!; try done; try lia.
  - destruct (allow_unmanaged_devices _) eqn:E; [by left|right]. specialize (I4 eq_refl).
    unfold credential_ok in I4. apply negb_true_iff in I4. rewrite !orb_false_iff in I4.
    destruct I4 as [[[H1 H2] H3] H4]. reflect_bools. split_and!; [lia..|done|done].
  - destruct (runtime_console _) eqn:E; [by left|right]. by apply I6.
Qed.

(** The settings that bind a started server, in the environment [e]. *)
Record configured (e : Env) (x : Identity D) : Prop := {
  cf_connections : get_bounded_usize_arg "MAX_RENDEZVOUS_CONNECTIONS" DEFAULT_MAX_RENDEZVOUS_CONNECTIONS 64 65536 e =
    Ok (ic_max_connections x);
  cf_peers : get_bounded_usize_arg "MAX_CACHED_PEERS" DEFAULT_MAX_CACHED_PEERS 1024 1000000 e =
    Ok (max_cached_peers (rs_pm (sv_reg (ic_server x))));
  cf_unmanaged : get_yes_no_arg "ALLOW_UNMANAGED_DEVICES" false e =
    Ok (allow_unmanaged_devices (inner (lp_rs (ic_loop x))));
  cf_console : get_yes_no_arg "ENABLE_RUNTIME_CONSOLE" false e = Ok (runtime_console (inner (lp_rs (ic_loop x))));
  cf_proxy : get_yes_no_arg "trust-proxy-headers" false e = Ok (trust_proxy_headers (inner (lp_rs (ic_loop x))))
}.

Lemma peer_map_new_capacity e pm :
  peer_map_new e = Ok pm →
  get_bounded_usize_arg "MAX_CACHED_PEERS" DEFAULT_MAX_CACHED_PEERS 1024 1000000 e = Ok (max_cached_peers pm).
Proof. unfold peer_map_new. by intros (max & Hmax & (d & _ & [= <-])%result_bind_ok)%result_bind_ok. Qed.

Lemma start_configured fuel bind_addr port serial key rmem st :
  succeeds (start_with_bind fuel bind_addr port serial key rmem) (λ x _, configured (pr_env st) x) st.
Proof.
  apply succeeds_bind, succeeds_on_sys. intros keys s1 _. apply succeeds_bind, wp_gets. cbn [pr_env set_sys].
  apply succeeds_bind, succeeds_lift. intros pm Hpm. apply succeeds_bind, succeeds_lift. intros servers _.
  apply succeeds_bind, succeeds_lift. intros socket _. apply succeeds_bind, succeeds_lift. intros max Hmax.
  cbn zeta. apply succeeds_bind, succeeds_lift. intros [] _.
  apply succeeds_bind, succeeds_lift. intros unmanaged Hun.
  apply succeeds_bind. eapply succeeds_mono; [|apply succeeds_any]. intros token st1 _. cbn beta.
  destruct (_ && _); [by apply wp_bail|].
  apply succeeds_bind, succeeds_lift. intros [] _. apply succeeds_bind, succeeds_lift. intros trust Htrust.
  apply succeeds_bind, succeeds_lift. intros con Hcon. apply succeeds_bind, succeeds_lift. intros mask _.
  cbn zeta. apply succeeds_bind, succeeds_lift. intros lp Hlp. apply succeeds_bind, succeeds_lift. intros ls _.
  apply succeeds_bind, succeeds_lift. intros always _. apply wp_ret. apply start_loop_inner in Hlp.
  split; cbn [ic_loop ic_server ic_max_connections]; rewrite ?Hlp; simpl; try done. by apply peer_map_new_capacity.
Qed.

Lemma main_configured fuel rendezvous_port m st x st' :
  identity_main fuel rendezvous_port m st = (Ok x, st') →
  ∃ st1, init_args m st = (Ok tt, st1) ∧ configured (pr_env st1) x.
Proof.
  intros Hrun. unfold identity_main, mbind, M_bind in Hrun.
  destruct (init_args m st) as [[[]|err] st1]; [|done]. exists st1. split; [done|].
  assert (succeeds (e ← gets pr_env; port ← lift (identity_port rendezvous_port e);
    bind_addr ← lift (parse_bind_address (get_arg "bind" e)); rmem ← lift (identity_rmem e);
    start_with_bind fuel bind_addr port 0 (get_arg_or "key" "-" e) rmem) (λ x _, configured (pr_env st1) x) st1) as Hs.
  { apply succeeds_bind, wp_gets. apply succeeds_bind, succeeds_lift. intros port _.
    apply succeeds_bind, succeeds_lift. intros bind_addr _. apply succeeds_bind, succeeds_lift. intros rmem _.
    apply start_configured. }
  unfold succeeds, wp, mbind, M_bind in Hs. by rewrite Hrun in Hs.
Qed.

(** C20: The limits of a running server are the ones it was given: with the
    environment that the files and the command line leave behind, the setting
    [MAX_RENDEZVOUS_CONNECTIONS] is, at every later moment and whatever the
    clients do, the number of open connections and free permits together, so that
    never more are open than it says; cached sinks are never more than open
    connections; the cache starts with the capacity [MAX_CACHED_PEERS]; and the
    management of devices, the console and the trust in proxy headers are as set. *)
Theorem identity_serves_within_bounds `{L : !ExternalLaws X} `{R : !Entropy} `{O : !HashOrder} `{B : !BoxLibrary}
    `{F : !FramedLibrary} `{FL : !FramedLaws F} `{E : !EncryptLibrary} `{W : !WireFormat}
    event_iso relay_port fuel rendezvous_port m st x st' es :
  identity_main fuel rendezvous_port m st = (Ok x, st') →
  let fr := front_run event_iso relay_port (ic_key x) (ic_sk x) es
              (start_front (ic_server x) (ic_loop x) (ic_max_connections x)) in
  ∃ st1 max_connections, init_args m st = (Ok tt, st1) ∧ configured (pr_env st1) x ∧
    get_bounded_usize_arg "MAX_RENDEZVOUS_CONNECTIONS" DEFAULT_MAX_RENDEZVOUS_CONNECTIONS 64 65536 (pr_env st1) =
      Ok max_connections ∧
    fr_slots fr + mlen (fr_conns fr) = max_connections ∧ mlen (fr_conns fr) ≤ max_connections ∧
    mlen (sv_tcp_punch (fr_server fr)) ≤ mlen (fr_conns fr) ∧
    inner (lp_rs (fr_loop fr)) = inner (lp_rs (ic_loop x)) ∧
    server_wf (inner (lp_rs (ic_loop x))) (fr_server fr).
Proof.
  intros Hrun. destruct (main_configured _ _ _ _ _ _ Hrun) as (st1 & Hinit & Hconf).
  apply main_checked in Hrun as [Hfresh _ _ _ _ _]. cbn zeta.
  pose proof (wf_front_run event_iso relay_port (ic_key x) (ic_sk x) _ _ es _ (start_wf _ _ _ _ Hfresh)) as Hwf.
  set (fr := front_run _ _ _ _ es _) in *. pose proof (sinks_bounded _ _ _ (fw_table _ _ _ Hwf)).
  pose proof (fw_slots _ _ _ Hwf) as [Hs Hn]. exists st1, (ic_max_connections x).
  split_and!; [done|done|apply Hconf|done|lia|done|apply Hwf..].
Qed.
End StartTheorems.

(** ** Concrete instances *)

#[export] Instance sample_machine : Machine SqlDb | 100 := {|
  machine_sqlite := {|
    options_from_str url := Ok (mkConnectOptions url false false Delete SyncNormal (from_secs 5) LogInfo);
    build_pool _ := Ok tt; connect_with _ := Ok empty_db; create_if_not_exists _ d := Ok d
  |};
  http_client := Ok tt; parse_network _ := None;
  local_ip_address := None; boot_clock := mkClock (from_secs 100) []
|}.
#[export] Instance sample_machine_laws : MachineLaws sample_machine | 100.
Proof.
  split; intros url n d; [intros [= <-]; exact empty_db_unique|].
  intros id v [= <-] Hv. unfold ps_row in Hv. simpl in Hv. by apply lookup_empty_Some in Hv.
Qed.

Definition sample_start : Process :=
  mkProcess (mkSys ∅ ∅ ∅ 0 0 0)
    {["CAMELLIA_REMOTE_DEVICE_VERIFICATION_TOKEN" := "0123456789abcdef0123456789abcdef"]}.
Definition sample_command_line : Matches :=
  mkMatches [("port", "21116"); ("key", hex_text (numbered 3 ++ numbered 3)); ("relay-servers", "relay-a,relay-b")].
Abbreviation sample_identity :=
  (identity_main (D := SqlDb) (P := sample_platform) (K := sample_keys) (I := sample_ini) 1 21116
     sample_command_line sample_start).

Lemma identity_start_is_checked_witness :
  match sample_identity with
  | (Ok x, _) =>
      ic_listeners x = mkListeners (SockV6 UNSPECIFIED_V6 21116 0 0) (BoundAny 21116) (BoundAny 21115) (BoundAny 21118) None ∧
      64 ≤ ic_max_connections x ≤ 65536
  | _ => False
  end.
Proof.
  pose proof (identity_start_is_checked (D := SqlDb) (P := sample_platform) (K := sample_keys) (I := sample_ini)
    1 21116 sample_command_line sample_start) as Hchecked.
  destruct sample_identity as [[x|e] st'] eqn:Hrun.
  - destruct (Hchecked x st' eq_refl) as [Hmax _]. split; [|exact Hmax].
    apply (f_equal (λ r, match r.1 with Ok x => Some (ic_listeners x) | Err _ => None end)) in Hrun.
    vm_compute in Hrun. by injection Hrun.
  - apply (f_equal (λ r, is_ok r.1)) in Hrun. vm_compute in Hrun. discriminate Hrun.
Defined.

Lemma identity_serves_within_bounds_witness :
  match sample_identity with
  | (Ok x, _) =>
      let fr := front_run show 21117 (ic_key x) (ic_sk x) sample_session
        (start_front (ic_server x) (ic_loop x) (ic_max_connections x)) in
      fr_slots fr + mlen (fr_conns fr) = DEFAULT_MAX_RENDEZVOUS_CONNECTIONS
  | _ => False
  end.
Proof.
  pose proof (identity_serves_within_bounds (D := SqlDb) (P := sample_platform) (K := sample_keys) (I := sample_ini)
    show 21117 1 21116 sample_command_line sample_start) as Hbounds.
  destruct sample_identity as [[x|e] st'] eqn:Hrun.
  - destruct (Hbounds x st' sample_session eq_refl) as (st1 & n & Hinit & _ & Hn & Hslots & _).
    cbn zeta. rewrite Hslots. apply (f_equal (λ r, pr_env r.2)) in Hinit. cbn [snd] in Hinit.
    rewrite <-Hinit in Hn. vm_compute in Hn. by injection Hn as <-.
  - apply (f_equal (λ r, is_ok r.1)) in Hrun. vm_compute in Hrun. discriminate Hrun.
Defined.
