(* ===== verification/Utilities.v ===== *)
(** The command-line utilities ([src/utils.rs]): the health check, the doctor, the
    key commands and their dispatch.

    A command runs on a [Terminal]: the time, the lines printed and the addresses
    tried so far, with the outcome (the two output streams are not told apart).
    Name resolution, connecting, the random generator, the signature scheme, the
    Unicode case mapping and the text of system errors are parameters; connecting
    is the only thing that takes time. *)

From Stdlib Require Import Ascii String.
From S2P Require Import Prelude.
From S2P Require Import Text.
From S2P Require Import Net.
From S2P Require Import FileSystem.
From S2P Require Import KeyStore.

(** ** Interfaces *)

(** [to_socket_addrs], [lookup_host], [lookup_addr], [TcpStream::connect_timeout] (whether it
    succeeded, the error's text, and how long it took) and [str::to_lowercase]. *)
Class HostNetwork := {
  to_socket_addrs : string → result (list SocketAddr);
  lookup_host : string → result (list IpAddr);
  lookup_addr : IpAddr → result string;
  connect_timeout : Instant → SocketAddr → Z → result unit * Z;
  to_lowercase : string → string
}.
(** A connection attempt respects its timeout. *)
Class HostNetworkLaws (N : HostNetwork) : Prop := {
  connect_time : ∀ t a d, 0 ≤ d → 0 ≤ (connect_timeout t a d).2 ≤ d
}.

(** Ed25519 signatures; [sign_pair pk sk] is that the keys belong together. *)
Class SignLibrary := {
  secret_key_from_slice : bytes → option bytes;
  sign_with : bytes → bytes → bytes;
  verify_with : bytes → bytes → option bytes;
  sign_pair : bytes → bytes → Prop;
  drawn_keypair : bytes * bytes
}.
Class SignLaws (S : SignLibrary) : Prop := {
  verify_pair : ∀ m pk sk, verify_with (sign_with m sk) pk = Some m ↔ sign_pair pk sk
}.

(** ** Data *)

Definition HEALTHCHECK_TOTAL_TIMEOUT : Z := from_secs 3.
Definition HEALTHCHECK_ATTEMPT_TIMEOUT : Z := from_secs 1.
Definition HEALTHCHECK_MAX_ENDPOINTS : nat := 8.
Definition DOCTOR_CONNECT_TIMEOUT : Z := from_secs 2.

Record Terminal := mkTerminal { tm_now : Instant; tm_out : list string; tm_tried : list (SocketAddr * bool) }.

(** ** Operations *)

Section Utilities.
Context `{N : !HostNetwork} `{K : !KeyLibrary} `{S : !SignLibrary}.

Definition println (s : string) : M Terminal unit :=
  modify (λ t, mkTerminal (tm_now t) (tm_out t ++ [s]) (tm_tried t)).

Definition connect (endpoint : SocketAddr) (limit : Z) : M Terminal (result unit) :=
  state (λ t, let '(r, d) := connect_timeout (tm_now t) endpoint limit in
              (r, mkTerminal (tm_now t + d) (tm_out t) (tm_tried t ++ [(endpoint, is_ok r)]))).

(** *** Keys *)

Definition gen_keypair : M Terminal unit :=
  println ("Public Key:  " +:+ b64_encode drawn_keypair.1);;
  println ("Secret Key:  " +:+ b64_encode drawn_keypair.2).

Definition test_data : bytes := codes "This is meh.".
Definition validate_keypair (pk sk : string) : result unit :=
  secret_key_bytes ← ok_or (b64_decode sk) "Invalid secret key encoding";
  secret_key ← ok_or (secret_key_from_slice secret_key_bytes) "Invalid secret key length";
  public_key_bytes ← ok_or (b64_decode pk) "Invalid public key encoding";
  public_key ← ok_or (public_from_slice public_key_bytes) "Invalid public key length";
  verified_data ← ok_or (verify_with (sign_with test_data secret_key) public_key) "Key pair is INVALID";
  if bool_decide (verified_data ≠ test_data) then Err "Key pair is INVALID" else Ok tt.

(** *** The doctor *)

Definition doctor_tcp (address : IpAddr) (port : Z) (description : string) : M Terminal bool :=
  start ← gets tm_now;
  r ← connect (socket_addr_new address port) DOCTOR_CONNECT_TIMEOUT;
  match r with
  | Ok _ =>
      now ← gets tm_now;
      println ("TCP Port " +:+ show port +:+ " (" +:+ description +:+ "): OK in "
               +:+ show (as_millis (now - start)) +:+ " ms");;
      mret true
  | Err err =>
      println ("TCP Port " +:+ show port +:+ " (" +:+ description +:+ "): ERROR (" +:+ err +:+ ")");;
      mret false
  end.

Definition doctor_checks : list (Z * string) :=
  [(21115, "identity NAT test"); (21116, "identity rendezvous"); (21117, "relay");
   (21118, "identity WebSocket"); (21119, "relay WebSocket")].

(** [healthy &= ..]: every check runs. *)
Fixpoint check_ports (address : IpAddr) (checks : list (Z * string)) (healthy : bool) : M Terminal bool :=
  match checks with
  | [] => mret healthy
  | (port, description) :: checks =>
      ok ← doctor_tcp address port description;
      check_ports address checks (healthy && ok)
  end.

Definition doctor_ip (server_ip_address : IpAddr) (server_address : option string) : M Terminal bool :=
  println (newline +:+ "Checking IP address: " +:+ show_ip server_ip_address);;
  println ("Is IPV4: " +:+ show_bool (match server_ip_address with V4 _ => true | V6 _ => false end));;
  println ("Is IPV6: " +:+ show_bool (match server_ip_address with V4 _ => false | V6 _ => true end));;
  match lookup_addr server_ip_address with
  | Ok reverse =>
      match server_address with
      | Some a =>
          if bool_decide (reverse = a)
          then println ("Reverse DNS lookup: '" +:+ reverse +:+ "' MATCHES server address")
          else println ("Reverse DNS lookup: '" +:+ reverse +:+ "' DOESN'T MATCH server address '" +:+ a +:+ "'")
      | None => mret tt
      end
  | Err err => println ("Reverse DNS lookup: unavailable (" +:+ err +:+ ")")
  end;;
  healthy ← check_ports server_ip_address doctor_checks true;
  println "UDP Port 21116 (identity rendezvous): not actively probed";;
  mret healthy.

Fixpoint check_ips (server_address : string) (ips : list IpAddr) (healthy : bool) : M Terminal bool :=
  match ips with
  | [] => mret healthy
  | ip :: ips => ok ← doctor_ip ip (Some server_address); check_ips server_address ips (healthy && ok)
  end.
Fixpoint print_ips (ips : list IpAddr) : M Terminal unit :=
  match ips with [] => mret tt | ip :: ips => println (" - " +:+ show_ip ip);; print_ips ips end.

Definition unreachable : string := "One or more Camellia server TCP listeners are unreachable".
Definition doctor (server_address_unclean : string) : M Terminal unit :=
  let server_address := to_lowercase (trim server_address_unclean) in
  println ("Checking server:  " +:+ server_address +:+ newline);;
  match parse_ip server_address with
  | Some server_ipaddr =>
      ok ← doctor_ip server_ipaddr None;
      if ok : bool then mret tt else bail unreachable
  | None =>
      ips ← lift (lookup_host server_address);
      if is_empty ips then bail ("No IP addresses resolved for " +:+ server_address) else
      println ("Found " +:+ show (len ips) +:+ " IP addresses: ");;
      print_ips ips;;
      healthy ← check_ips server_address ips true;
      if healthy : bool then mret tt else bail unreachable
  end.

(** *** The health check *)

(** The loop: whether an endpoint answered. *)
Fixpoint try_endpoints (started_at : Instant) (endpoints : list SocketAddr) : M Terminal bool :=
  match endpoints with
  | [] => mret false
  | endpoint :: endpoints =>
      now ← gets tm_now;
      let elapsed := duration_since now started_at in
      if HEALTHCHECK_TOTAL_TIMEOUT <? elapsed then mret false else
      let remaining := HEALTHCHECK_TOTAL_TIMEOUT - elapsed in
      r ← connect endpoint (Z.min remaining HEALTHCHECK_ATTEMPT_TIMEOUT);
      if is_ok r then mret true else try_endpoints started_at endpoints
  end.

Definition healthcheck (endpoint : string) : M Terminal unit :=
  endpoints ← lift (with_context (to_socket_addrs endpoint) ("Invalid healthcheck endpoint: " +:+ endpoint));
  started_at ← gets tm_now;
  ok ← try_endpoints started_at (take HEALTHCHECK_MAX_ENDPOINTS endpoints);
  if ok : bool then mret tt else bail ("TCP healthcheck failed: " +:+ endpoint).

(** *** The command line *)

Definition print_help : M Terminal unit :=
  println (join_char (chr 10)
    ["Usage:"; "    camellia-remote-utils [command]"; ""; "Available Commands:";
     "    genkeypair                                   Generate a new keypair";
     "    validatekeypair [public key] [secret key]    Validate an existing keypair";
     "    doctor [remote-server]                       Check for server connection problems";
     "    healthcheck [host:port]                      Exit non-zero unless TCP is reachable"]).

Definition error_then_help (msg : string) : M Terminal Z :=
  println ("ERROR: " +:+ msg +:+ newline);; print_help;; mret 2.

(** The exit code of a command that may fail. *)
Definition exit_on_error (m : M Terminal unit) : M Terminal Z :=
  r ← attempt m;
  match r with Ok _ => mret 0 | Err e => println e;; mret 1 end.

(** [main]: the exit code. *)
Definition main (version : string) (args : list string) : M Terminal Z :=
  match args with
  | [] | [_] => print_help;; mret 0
  | _ :: command :: rest =>
      let command := to_lowercase command in
      if is_cmd ["help"; "-h"; "--help"] command then print_help;; mret 0
      else if is_cmd ["-v"; "--version"] command then println ("camellia-remote-utils " +:+ version);; mret 0
      else if is_cmd ["genkeypair"] command then gen_keypair;; mret 0
      else if is_cmd ["validatekeypair"] command then
        match rest with
        | pk :: sk :: _ => exit_on_error (lift (validate_keypair pk sk);; println "Key pair is VALID")
        | _ => error_then_help "You must supply both the public and the secret key"
        end
      else if is_cmd ["doctor"] command then
        match rest with
        | server :: _ => exit_on_error (doctor server)
        | _ => error_then_help "You must supply the Camellia Remote server address"
        end
      else if is_cmd ["healthcheck"] command then
        match rest with
        | endpoint :: _ => exit_on_error (healthcheck endpoint)
        | _ => error_then_help "You must supply a host:port endpoint"
        end
      else error_then_help "Unknown command"
  end.
End Utilities.

(** ** Lemmas *)

Section UtilityLemmas.
Context `{N : !HostNetwork} `{NL : !HostNetworkLaws N} `{K : !KeyLibrary} `{S : !SignLibrary}.
Implicit Types t : Terminal.

(** [m] makes the attempts [l], and [P] holds of its result and of [l]. *)
Definition tries {A} (m : M Terminal A) (P : result A → list (SocketAddr * bool) → Prop) : Prop :=
  ∀ t, wp m (λ r t', ∃ l, tm_tried t' = tm_tried t ++ l ∧ P r l) t.

Lemma tries_ret {A} (a : A) P : P (Ok a) [] → tries (mret a) P.
Proof. intros HP t. apply wp_ret. exists []. by rewrite app_nil_r. Qed.
Lemma tries_bail {A} e (P : result A → _ → Prop) : P (Err e) [] → tries (bail e) P.
Proof. intros HP t. apply wp_bail. exists []. by rewrite app_nil_r. Qed.
Lemma tries_bind {A B} (m : M Terminal A) (f : A → M Terminal B) P Q :
  tries m P → (∀ e l, P (Err e) l → Q (Err e) l) →
  (∀ a l, P (Ok a) l → tries (f a) (λ r l', Q r (l ++ l'))) → tries (m ≫= f) Q.
Proof.
  intros Hm He Hf t. apply wp_bind. eapply wp_mono; [|apply Hm]. intros [a|e] t1 (l & E1 & HP).
  - eapply wp_mono; [|by apply (Hf a l)]. intros r t2 (l' & E2 & HQ). exists (l ++ l').
    by rewrite E2, E1, app_assoc.
  - exists l. split; [done|by apply He].
Qed.
(** A step that tries nothing. *)
Lemma tries_skip {A B} (m : M Terminal A) (f : A → M Terminal B) Q :
  (∀ t, wp m (λ r t', is_ok r = true ∧ tm_tried t' = tm_tried t) t) →
  (∀ a, tries (f a) Q) → tries (m ≫= f) Q.
Proof.
  intros Hm Hf. eapply (tries_bind _ _ (λ r l, is_ok r = true ∧ l = [])).
  - intros t. eapply wp_mono; [|apply Hm]. intros r t1 [Hok E]. exists []. by rewrite app_nil_r.
  - by intros e l [? _].
  - intros a l [_ ->]. apply Hf.
Qed.
Lemma println_skips s t : wp (println s) (λ r t', is_ok r = true ∧ tm_tried t' = tm_tried t) t.
Proof. by apply wp_modify. Qed.
Lemma gets_skips {A} (f : Terminal → A) t : wp (gets f) (λ r t', is_ok r = true ∧ tm_tried t' = tm_tried t) t.
Proof. by apply wp_gets. Qed.
Hint Resolve println_skips gets_skips : srv.

Lemma tries_connect {B} a d (f : result unit → M Terminal B) Q :
  (∀ r, tries (f r) (λ r' l, Q r' ((a, is_ok r) :: l))) → tries (connect a d ≫= f) Q.
Proof.
  intros Hf. apply (tries_bind _ _ (λ r l, ∃ r', r = Ok r' ∧ l = [(a, is_ok r')])).
  - intros t. apply wp_state. destruct (connect_timeout _ _ _) as [r d']. exists [(a, is_ok r)]. split; [done|by exists r].
  - by intros e l (r' & ? & _).
  - intros r l (r' & [= ->] & ->). apply Hf.
Qed.

(** *** The doctor *)

(** Every address in [as'] was tried, and the answer is whether all succeeded. *)
Definition probes (as' : list SocketAddr) (healthy : bool) (r : result bool) (l : list (SocketAddr * bool)) : Prop :=
  l.*1 = as' ∧ r = Ok (healthy && forallb snd l).

Lemma tries_doctor_tcp ip port d : tries (doctor_tcp ip port d) (probes [socket_addr_new ip port] true).
Proof.
  unfold doctor_tcp. apply tries_skip; [eauto with srv|]. intros start. apply tries_connect. intros [[]|e].
  - apply tries_skip; [eauto with srv|]. intros now. apply tries_skip; [eauto with srv|]. intros _. by apply tries_ret.
  - apply tries_skip; [eauto with srv|]. intros _. by apply tries_ret.
Qed.

Lemma probes_seq {A} (x : A) (f : A → M Terminal bool) (g : bool → M Terminal bool) as1 as2 healthy :
  tries (f x) (probes as1 true) → (∀ h, tries (g h) (probes as2 h)) →
  tries (ok ← f x; g (healthy && ok)) (probes (as1 ++ as2) healthy).
Proof.
  intros Hf Hg. eapply tries_bind; [exact Hf|by intros e l [_ ?]|].
  intros ok l [Hl [= ->]] t. eapply wp_mono; [|apply Hg].
  intros r t' (l' & Ht & Hl' & ->). exists l'. split; [done|]. split.
  - by rewrite fmap_app, Hl, Hl'.
  - by rewrite forallb_app, andb_assoc.
Qed.

Lemma tries_check_ports ip checks healthy :
  tries (check_ports ip checks healthy) (probes ((λ c, socket_addr_new ip c.1) <$> checks) healthy).
Proof.
  revert healthy. induction checks as [|[port d] checks IH]; intros healthy; simpl.
  - apply tries_ret. by split; [|rewrite andb_true_r].
  - apply (probes_seq port (λ port, doctor_tcp ip port d) (check_ports ip checks) [_]); [apply tries_doctor_tcp|apply IH].
Qed.

Definition doctor_probes (ip : IpAddr) : list SocketAddr := (λ c, socket_addr_new ip c.1) <$> doctor_checks.

Lemma tries_doctor_ip ip name : tries (doctor_ip ip name) (probes (doctor_probes ip) true).
Proof.
  unfold doctor_ip. do 3 (apply tries_skip; [eauto with srv|]; intros _).
  apply tries_skip.
  { intros t. destruct (lookup_addr ip); [|apply println_skips].
    destruct name; [case_bool_decide; apply println_skips|by apply wp_ret]. }
  intros _. eapply tries_bind; [apply tries_check_ports|by intros e l [_ ?]|]. intros b l [Hl [= ->]].
  apply tries_skip; [eauto with srv|]. intros _. apply tries_ret. by rewrite app_nil_r.
Qed.

Lemma tries_check_ips name ips healthy :
  tries (check_ips name ips healthy) (probes (ips ≫= doctor_probes) healthy).
Proof.
  revert healthy. induction ips as [|ip ips IH]; intros healthy.
  - apply tries_ret. by split; [|simpl; rewrite andb_true_r].
  - exact (probes_seq ip (λ ip, doctor_ip ip (Some name)) (check_ips name ips) (doctor_probes ip) (ips ≫= doctor_probes)
      healthy (tries_doctor_ip ip (Some name)) IH).
Qed.

Lemma print_ips_skips ips t : wp (print_ips ips) (λ r t', is_ok r = true ∧ tm_tried t' = tm_tried t) t.
Proof.
  revert t. induction ips as [|ip ips IH]; intros t; [by apply wp_ret|].
  simpl. apply wp_bind, wp_modify. eapply wp_mono; [|apply IH]. by intros r t' [? ->].
Qed.

(** The addresses a name stands for. *)
Definition resolves (name : string) (ips : list IpAddr) : Prop :=
  match parse_ip (to_lowercase (trim name)) with
  | Some ip => ips = [ip]
  | None => lookup_host (to_lowercase (trim name)) = Ok ips ∧ ips ≠ []
  end.

Lemma tries_verdict (m : M Terminal bool) as' :
  tries m (probes as' true) →
  tries (ok ← m; if ok : bool then mret tt else bail unreachable) (λ r l, l.*1 = as' ∧ is_ok r = forallb snd l).
Proof.
  intros Hm. eapply tries_bind; [exact Hm|by intros e l [_ ?]|]. intros ok l [Hl [= ->]].
  destruct (forallb snd l) eqn:E; simpl; [apply tries_ret|apply tries_bail]; by rewrite app_nil_r.
Qed.

Lemma tries_doctor name ips :
  resolves name ips →
  tries (doctor name) (λ r l, l.*1 = ips ≫= doctor_probes ∧ is_ok r = forallb snd l).
Proof.
  unfold resolves, doctor. intros Hips. cbn zeta. apply tries_skip; [eauto with srv|]. intros _.
  destruct (parse_ip _) as [ip|].
  - subst ips. change ([ip] ≫= doctor_probes) with (doctor_probes ip). apply tries_verdict, tries_doctor_ip.
  - destruct Hips as [-> Hne]. 
    eapply (tries_bind _ _ (λ r l, r = Ok ips ∧ l = [])).
    { intros t. apply wp_lift. exists []. by rewrite app_nil_r. }
    { by intros e l [? _]. }
    intros ips' l [[= ->] ->]. assert (is_empty ips = false) as -> by (by destruct ips).
    apply tries_skip; [eauto with srv|]. intros _. apply tries_skip; [apply print_ips_skips|]. intros _.
    apply tries_verdict, tries_check_ips.
Qed.
End UtilityLemmas.

(** ** Theorems *)

Section UtilityTheorems.
Context `{N : !HostNetwork} `{NL : !HostNetworkLaws N} `{K : !KeyLibrary} `{S : !SignLibrary} `{SL : !SignLaws S}.
Implicit Types t : Terminal.

(** The doctor examines everything before it judges: it tries the five TCP
    listeners of every address the name stands for, in order, even after a
    failure, and is content exactly when all of them answered. *)
Theorem doctor_probes_everything name ips t :
  resolves name ips →
  let '(r, t') := doctor name t in
  ∃ l, tm_tried t' = tm_tried t ++ l ∧ l.*1 = ips ≫= doctor_probes ∧ is_ok r = forallb snd l.
Proof.
  intros Hips. pose proof (tries_doctor name ips Hips t) as Hd. unfold wp in Hd.
  by destruct (doctor name t) as [r t'].
Qed.

(** What one loop of the health check does from a moment within its time. *)
Lemma wp_try_endpoints started endpoints t (Q : result bool → Terminal → Prop) :
  started ≤ tm_now t →
  (∀ l t' b, tm_tried t' = tm_tried t ++ l → l.*1 `prefix_of` endpoints → b = existsb snd l →
     tm_now t ≤ tm_now t' ≤ Z.max (tm_now t) (started + HEALTHCHECK_TOTAL_TIMEOUT) →
     (b = false → length l = length endpoints ∨ started + HEALTHCHECK_TOTAL_TIMEOUT < tm_now t') → Q (Ok b) t') →
  wp (try_endpoints started endpoints) Q t.
Proof.
  revert t Q. induction endpoints as [|a endpoints IH]; intros t Q Hs HQ; simpl.
  { apply wp_ret, (HQ []); [by rewrite app_nil_r|done|done|lia|by left]. }
  apply wp_bind, wp_gets. unfold duration_since. rewrite Z.max_r by lia.
  destruct (_ <? _) eqn:Hover; reflect_bools.
  { apply wp_ret, (HQ []); [by rewrite app_nil_r|apply prefix_nil|done|lia|right; lia]. }
  apply wp_bind, wp_state. set (limit := Z.min _ _). assert (0 ≤ limit) as Hlimit.
  { unfold limit, HEALTHCHECK_ATTEMPT_TIMEOUT, from_secs, nanos_per_sec. lia. }
  pose proof (connect_time (tm_now t) a limit Hlimit) as Htime.
  destruct (connect_timeout (tm_now t) a limit) as [r d]. simpl in Htime. simpl.
  destruct (is_ok r) eqn:Hr.
  - apply wp_ret, (HQ [(a, true)]); [done|by apply prefix_cons, prefix_nil|done|simpl; lia|done].
  - apply IH; [simpl; lia|]. intros l t' b Ht Hl Hb Hnow Hend.
    apply (HQ ((a, false) :: l)); [rewrite Ht; simpl; by rewrite <-app_assoc|by apply prefix_cons|done|simpl in *; lia|].
    intros Hf. destruct (Hend Hf); [left; simpl; lia|by right].
Qed.

(** The health check is quick and fair: whatever a name resolves to, it is over
    within three seconds, tries the addresses in order and at most eight of them,
    stops at the first that answers, and succeeds exactly if one did. *)
Theorem healthcheck_is_bounded endpoint endpoints t :
  to_socket_addrs endpoint = Ok endpoints →
  let '(r, t') := healthcheck endpoint t in
  ∃ l, tm_tried t' = tm_tried t ++ l ∧ l.*1 `prefix_of` take 8 endpoints ∧
    is_ok r = existsb snd l ∧
    tm_now t ≤ tm_now t' ≤ tm_now t + from_secs 3 ∧
    (is_ok r = false → length l = length (take 8 endpoints)).
Proof.
  intros He.
  assert (wp (healthcheck endpoint) (λ r t', ∃ l, tm_tried t' = tm_tried t ++ l ∧
    l.*1 `prefix_of` take 8 endpoints ∧ is_ok r = existsb snd l ∧
    tm_now t ≤ tm_now t' ≤ tm_now t + from_secs 3 ∧
    (is_ok r = false → length l = length (take 8 endpoints))) t) as Hwp.
  { unfold healthcheck. apply wp_bind, wp_lift. rewrite He. simpl. apply wp_bind, wp_gets, wp_bind.
    apply wp_try_endpoints; [lia|]. intros l t' b Ht Hl -> Hnow Hend.
    assert (tm_now t ≤ tm_now t' ≤ tm_now t + from_secs 3) as Hin.
    { unfold HEALTHCHECK_TOTAL_TIMEOUT, from_secs, nanos_per_sec in *. lia. }
    destruct (existsb snd l) eqn:Hb; [apply wp_ret|apply wp_bail]; exists l; rewrite Hb; split_and!; try done; try lia.
    intros _. destruct (Hend eq_refl) as [?|Hover]; [done|]. unfold HEALTHCHECK_TOTAL_TIMEOUT in Hover. lia. }
  unfold wp in Hwp. by destruct (healthcheck endpoint t) as [r t'].
Qed.

(** A key pair is pronounced valid exactly when both texts decode to keys and the
    keys belong together. *)
Theorem keypair_validation pk sk :
  validate_keypair pk sk = Ok tt ↔
  ∃ sk_bytes secret pk_bytes public, b64_decode sk = Some sk_bytes ∧ secret_key_from_slice sk_bytes = Some secret ∧
    b64_decode pk = Some pk_bytes ∧ public_from_slice pk_bytes = Some public ∧ sign_pair public secret.
Proof.
  unfold validate_keypair. split.
  - intros (b & Hb%ok_or_ok & (s & Hs%ok_or_ok & (c & Hc%ok_or_ok & (p & Hp%ok_or_ok & (v & Hv%ok_or_ok & E)
      %result_bind_ok)%result_bind_ok)%result_bind_ok)%result_bind_ok)%result_bind_ok.
    case_bool_decide as Hne; [done|]. exists b, s, c, p. split_and!; try done.
    apply (verify_pair test_data). rewrite Hv. f_equal. by destruct (decide (v = test_data)).
  - intros (b & s & c & p & -> & Hs & -> & Hp & Hpair). simpl. rewrite Hs. simpl. rewrite Hp. simpl.
    rewrite (proj2 (verify_pair test_data p s) Hpair). done.
Qed.

Lemma exit_code (m : M Terminal unit) t :
  ∃ code t', exit_on_error m t = (Ok code, t') ∧ (code = 0 ∧ is_ok (m t).1 = true ∨ code = 1 ∧ is_ok (m t).1 = false).
Proof.
  unfold exit_on_error, mbind, M_bind, attempt. destruct (m t) as [[[]|e] t1]; simpl.
  - exists 0, t1. split; [done|by left].
  - exists 1. eexists. split; [done|by right].
Qed.

(** Every command line ends with an exit code: 0, 1 for a failed check, 2 for a
    command line that is not understood. *)
Theorem utility_exit_codes version args t :
  ∃ code t', main version args t = (Ok code, t') ∧ 0 ≤ code ≤ 2.
Proof.
  assert (∀ m : M Terminal unit, ∃ code t', exit_on_error m t = (Ok code, t') ∧ 0 ≤ code ≤ 2) as Hexit.
  { intros m. destruct (exit_code m t) as (code & t' & E & Hc). exists code, t'. split; [done|lia]. }
  assert (∀ msg, ∃ code t', error_then_help msg t = (Ok code, t') ∧ 0 ≤ code ≤ 2) as Hhelp.
  { intros msg. exists 2. eexists. split; [reflexivity|lia]. }
  unfold main. destruct args as [|prog [|command rest]]; [exists 0; eexists; by split..|]. cbn zeta.
  repeat case_match; first [apply Hexit|apply Hhelp|exists 0; eexists; by split].
Qed.
End UtilityTheorems.

(** ** Concrete instances *)

(** One name with two addresses; only listeners on the second one answer, each
    after a second. *)
Definition first_ip : IpAddr := V4 (mkV4 192 0 2 1).
Definition second_ip : IpAddr := V4 (mkV4 192 0 2 2).
#[export] Instance sample_host : HostNetwork | 100 := {|
  to_socket_addrs s := Ok [socket_addr_new first_ip 21116; socket_addr_new second_ip 21116];
  lookup_host s := Ok [first_ip; second_ip];
  lookup_addr ip := Err "no name";
  connect_timeout t a d := if bool_decide (sa_ip a = second_ip) then (Ok tt, d) else (Err "refused", d);
  to_lowercase := to_ascii_lowercase
|}.
#[export] Instance sample_host_laws : HostNetworkLaws sample_host | 100.
Proof. split. intros t a d Hd. simpl. case_bool_decide; simpl; lia. Qed.
(** A signature names its key and its message. *)
#[export] Instance sample_sign : SignLibrary | 100 := {|
  secret_key_from_slice b := Some b;
  sign_with m sk := [Z.pos (encode (sk, m))];
  verify_with s pk :=
    match s with
    | [Z.pos p] => x ← decode (A := bytes * bytes) p; if bool_decide (x.1 = pk) then Some x.2 else None
    | _ => None
    end;
  sign_pair pk sk := sk = pk;
  drawn_keypair := ([1], [1])
|}.
#[export] Instance sample_sign_laws : SignLaws sample_sign | 100.
Proof.
  split. intros m pk sk. unfold verify_with, sign_with, sample_sign. rewrite decode_encode. simpl.
  case_bool_decide; naive_solver.
Qed.
Definition sample_terminal : Terminal := mkTerminal 0 [] [].

Lemma doctor_probes_everything_witness :
  let '(r, t') := doctor "Server.Example" sample_terminal in
  is_ok r = false ∧ length (tm_tried t') = 10%nat ∧
  ∃ l, tm_tried t' = tm_tried sample_terminal ++ l ∧
    l.*1 = doctor_probes first_ip ++ doctor_probes second_ip.
Proof.
  pose proof (doctor_probes_everything "Server.Example" [first_ip; second_ip] sample_terminal) as Hd.
  destruct (doctor "Server.Example" sample_terminal) as [r t'] eqn:Hrun.
  destruct Hd as (l & Ht & Hl & _); [by split|].
  assert (is_ok r = false ∧ length (tm_tried t') = 10%nat) as [Hr Hlen].
  { replace r with (doctor "Server.Example" sample_terminal).1 by exact (f_equal fst Hrun).
    replace t' with (doctor "Server.Example" sample_terminal).2 by exact (f_equal snd Hrun). split; by vm_compute. }
  split_and!; [done..|]. exists l. split; [done|]. rewrite Hl. by vm_compute.
Defined.

Lemma healthcheck_is_bounded_witness :
  let '(r, t') := healthcheck "server.example:21116" sample_terminal in
  is_ok r = true ∧ tm_now t' = from_secs 2 ∧ tm_now t' ≤ tm_now sample_terminal + from_secs 3.
Proof.
  pose proof (healthcheck_is_bounded "server.example:21116" _ sample_terminal eq_refl) as Hh.
  destruct (healthcheck "server.example:21116" sample_terminal) as [r t'] eqn:Hrun.
  destruct Hh as (l & _ & _ & _ & [_ Hnow] & _).
  assert (is_ok r = true ∧ tm_now t' = from_secs 2) as [Hr Ht].
  { replace r with (healthcheck "server.example:21116" sample_terminal).1 by exact (f_equal fst Hrun).
    replace t' with (healthcheck "server.example:21116" sample_terminal).2 by exact (f_equal snd Hrun). split; by vm_compute. }
  by split_and!.
Defined.

Lemma keypair_validation_witness :
  validate_keypair "0a0b" "0a0b" = Ok tt ∧ validate_keypair "0a0b" "0a0c" ≠ Ok tt.
Proof.
  split.
  - apply keypair_validation. exists [10; 11], [10; 11], [10; 11], [10; 11]. by split_and!.
  - intros (b & s & c & p & Hb & [= <-] & Hc & [= <-] & Hpair)%keypair_validation.
    vm_compute in Hb. injection Hb as <-. vm_compute in Hc. injection Hc as <-. discriminate Hpair.
Defined.
